(* ===== verification/_CoqProject ===== *)
-Q . S2P
Prelude.v
Errors.v
RustStr.v
SqlText.v
RustNum.v
Vel.v
SqlRoute.v
Model.v
IntranetNets.v
SqliteExt.v
Loader.v
ProviderConfig.v
SqlRewrite.v
Lru.v
LocalCache.v
Telemetry.v
Runtime.v
Threads.v
RuntimeThreads.v
SqliteDb.v
Authority.v
Redis.v
Facade.v
LookupThreads.v
SqlDrivers.v
Refresh.v
Demo.v
RuntimeFacts.v
RuntimeThreadsFacts.v
RouteThreadsFacts.v
SqliteFacts.v
SqlDriversFacts.v
MemEntry.v
GenSeqlock.v
FacadeFacts.v
LookupThreadsFacts.v
RefreshFacts.v
AuthorityFacts.v
TextTests.v
RuntimeTests.v
RefreshTests.v
AuthorityTests.v
