(* ===== verification/Prelude.v ===== *)
(** * A verification of wp-knowledge

    wp-knowledge answers the lookups of a log-processing engine from knowledge
    tables: CSV files loaded into SQLite, PostgreSQL and MySQL databases, Redis
    keys.  This library models the crate's Rust code, everything under
    [src/src], as executable functions and state machines and proves what makes
    it correct.  This file opens the library, with the text, number, result and
    state types that all others share, their tactics and their hint database.

    ** The program and the files

    - Values: [Errors] (error.rs), [Model] (the values of the [wp_model_core]
      crate, the query parameters of runtime.rs, param.rs, field_format.rs),
      [RustStr] (the [str] methods and UTF-8 conversions that the code uses),
      [RustNum] (its parsing of signed integers and floats, and upper case).
    - Text to text: [Vel] (vel.rs, the language that computes variables of a
      refresh query from the wall clock), [SqlRoute] (sql_route.rs, which
      provider a query is for, and its memo), [SqlRewrite] (the placeholder
      rewriting of postgres.rs and mysql.rs), [SqliteExt] (sqlite_ext.rs, the
      functions registered with SQLite).  [SqlText] models no code: it says
      what literals, quoted identifiers, comments and names of SQL text are,
      for the specifications of [SqlRoute] and [SqlRewrite].
    - Configuration: [Loader] (loader.rs: [knowdb.toml] with its defaults and
      checks, and loading CSV tables into a database), [Authority] (loader.rs:
      opening the database file that the tables are loaded into),
      [ProviderConfig] (pool_config.rs and the configurations of the drivers),
      [IntranetNets] (intranet_nets.rs).
    - State: [Runtime] (runtime.rs and the column-name cache of
      mem/query_util.rs: provider registry, generations, result caches,
      counters), [Telemetry] (telemetry.rs), [Lru] (the interface of the [lru]
      crate), [LocalCache] (cache.rs, the cache a caller keeps), [Redis]
      (redis.rs), [GenSeqlock] (the loads and stores of runtime.rs by which a
      generation is read while providers are installed).
    - Many threads: [Threads] (programs of atomic actions, pools that interleave
      them, and the rely-guarantee rule their proofs use) and [RuntimeThreads]
      (queries, installs, prunes, settings, generation reads of runtime.rs and
      the routing of sql_route.rs, one action per load, store or locked stretch,
      with a record of the run that no action reads) and [LookupThreads] (the
      lookups of facade.rs through their caller's cache).
    - Providers: [SqliteDb] (mem/memdb.rs, mem/query_util.rs,
      mem/thread_clone.rs), [SqlDrivers] (the rest of postgres.rs and mysql.rs,
      provider_runtime.rs), [MemEntry] (the process-wide database, stub.rs,
      params.rs, the pool on a WAL file).
    - On top: [Facade] (facade.rs, fun.rs, cache_util.rs: the public entry
      points), [Refresh] (refresh.rs: tables reloaded on their own tickers).

    The files ending in [Facts] hold the proofs about the file before the
    suffix ([RouteThreadsFacts]: routing under threads); those ending in [Tests]
    run the source's own unit tests on the model; [Demo] and the ends of those
    files hold the concrete libraries on which the witnesses run.

    ** How the model is laid out

    A [str] is the list of its bytes, an integer of the code an [N] or [Z] with
    its wrapping, saturation or truncation written out ([wrap64],
    [saturating_add], ...); a float is its bits.  An error is a reason with the
    fragments of its [format!].  Code that reads and writes shared state is a
    computation [St W], the [?] operator is [x ←? m; k].  The [World] of
    [Runtime] holds the [KnowledgeRuntime], the monotonic clock, the events
    that telemetry received, the column-name cache and the state outside the
    crate; the [Process] of [Facade] adds the other modules' statics, and
    [Env] of [Refresh] the files and the wall clock.

    Interfaces are classes.  Some are the crate's own: [AuthorityDb] (what
    loading asks of an open authority database; [Authority] implements it for
    the pools of [SqliteDb]), [ProviderExecutor] (the
    trait; its promise to the runtime is [ProviderFrame], proved for every
    provider of the crate by [providers_framed]), [CacheAble] (the caller's
    cache), [ProviderRegistry] (what routing asks of the runtime; the runtime's
    side is [registry_versions]), [Drivers] (what the facade calls to connect),
    [ProviderThreads] (a provider's methods as programs: [ProviderSolo] says
    that alone they are the trait's methods, [WorkFrame] that each action keeps
    the provider's promise).  [Discipline] is what threads owe each other.
    The others stand for code outside the repository: [Hasher], [LruOps] with
    [LruLaws], [SqliteLib], [Sqlite] with [SqliteLaws] over the meaning of
    statements [SqlMeaning], [AuthorityFs] with [SqlFiles] and [SqlFilesLaws]
    (which file a URI names, what a connection reads), [CsvErrors], [Files],
    [FromSql], [SqlxRow], [Sqlx], [TaskRuntime], [Tasks] with [TaskLaws],
    [RedisClient], [IpNetLib] with [IpNetLaws], [Ticker] with [TickerLaw].
    Their laws are the documented behaviour that the code relies on, and every
    class with laws has an instance here.

    ** What is proved

    - The runtime ([RuntimeFacts]): one invariant in every reachable state;
      installing a provider isolates its generation from every cached answer,
      and a failed build changes nothing; a repeated query is answered within
      the time-to-live without the provider, and whatever is answered, the
      provider answered to the same key no longer ago than that
      ([answers_are_fresh]); registry versions identify the installed names.
    - Concurrency: reading the generation without the lock returns a provider
      current during the read, for installs that publish one at a time
      ([GenSeqlock.read_is_current]); two that overlap can leave the value of
      one and the slot of the other.  Calls interleaved action by action with
      each other, the clock and the outside ([RuntimeThreadsFacts],
      [RouteThreadsFacts], [LookupThreadsFacts]): a query is answered by the
      very provider it found at its first step, a generation belongs to one
      install, a route is that of a registry current during the call or of the
      version it read, and a lookup through its caller's cache gives what a
      provider it may ask answered to it, or to an earlier lookup of the same
      place with no change of generation read in between.  The two readings of
      each call, as a program of actions and in the sequential model, agree on
      a thread alone ([alone_is_sequential], [lookup_alone]).  A query
      that starts before the cache is disabled can still fill it afterwards
      ([stale_after_disable]).  The refresh service ([RefreshFacts]) under
      every interleaving of tasks, clock, receiver and host: its invariant, the
      snapshot as the last successful reload, the pace of reloads, the end of
      a shut-down service, and in fair runs reloads and signals without end.
    - Lookups ([FacadeFacts], [LocalCache]): the local cache refines a map from
      scopes and keys to rows; a local hit is what a lookup of the same scope,
      keys and generation obtained; a lookup repeated is a hit; Redis answers
      are kept for the same generation; start-up registers the configured
      providers and no others.
    - Providers ([SqliteFacts], [SqlDriversFacts], [MemEntry]): the snapshot a
      thread queries is the one of its path and generation; rows are decoded
      column by column at types that fit; a connected provider was validated.
    - Loading ([Loader], [SqliteFacts]): which statements a load takes the
      database through, on success and at each error, that no transaction is
      left open, and when a working database loads everything.
    - From file to answer ([AuthorityFacts]): a start-up on an authority
      database makes of the file what the scripts and data files of the tables
      say, and the default provider then answers from that content
      ([authority_serves_files]); a reload of a table gives the projection of
      what its data file holds ([reload_serves_file]), which
      [store_holds_last_reload] keeps as the table's snapshot.
    - Text ([SqlRoute], [SqlRewrite], [Vel], [SqliteExt]): each scanner against
      a specification by the pieces it splits its input into, over shapes that
      no scanner defines, and shown to be the only way to split it; the variable
      language with its printer, as a round trip; no slice of [trim_quotes]
      leaves a character boundary.
    - Commands ([Redis]): one given as a text is the typed command with its reply
      shown ([exec_is_typed]).
    - The rest: the hash feeds determine the parameters, session statements
      are those of the configured settings and, read as SQL, set them, addresses
      are intranet exactly by the configured networks, the Redis registry keeps
      the pools in use.

    ** Bounds and fuel

    The scanners recurse on fuel that starts at one more than the length of
    their input; every round consumes at least one byte, and the theorems on
    them are about the functions as called, so the fuel is shown to be enough
    ([postgres_loop_spec], [mysql_loop_spec], [resolve_loop_lexes],
    [first_table_name_spec] and their siblings).  [trim_by] and [utf8_chunks]
    consume a byte a round too.  All other recursion is structural.
    Generations and epochs wrap at 2^64; the theorems that need a fresh number
    say that the counter has not wrapped.  Hashes may collide: theorems about
    hashed keys state the collision they exclude.  A ticker's instants and the
    runtime's clock are unbounded naturals.

    ** What is not modelled

    - lib.rs, which only declares modules.
    - [query_row_tdos], which is unimplemented or unused in the source.
    - The decoding of TOML, with the visitor by which [provider.sqldb] is a
      table or an array: a parameter that yields the decoded configuration.
    - Dropping a driver's provider, which shuts its task runtime down.
    - Logging, the template text of intranet_nets.rs, and lock poisoning: no
      code panics while it holds a lock.
    - Interleaving of what [RuntimeThreads] leaves out: the Redis values and the
      column names, which take their locks in turn and are one step each in the
      sequential model.  An event reported to telemetry is one action, its test
      included.
    - Memory orderings: the atomic actions of [RuntimeThreads] and [GenSeqlock]
      interleave on one memory, as if sequentially consistent; what the Relaxed,
      Acquire and Release accesses of runtime.rs allow beyond that is left out.
    - The stepping of a SQLite cursor: [stmt_query] of [SqliteDb] yields the
      outcomes of all steps at once, of which a first-row query uses one.
    - The tests that need the decoding of TOML, more of SQL than whole tables, a
      database server or Redis, and the benchmarks.
    - SQL itself: what a statement means for a content is the class [SqlMeaning],
      and the theorems on loading ask that scripts hold no transaction control.

    ** What comes next

    The pooled databases of [MemEntry] under threads, and an authority file that
    is rebuilt while threads take their snapshots of it. *)
From stdpp Require Export prelude gmap strings pretty.

(** ** Text and machine integers *)

(** A Rust [str]/[String] is modelled by the list of its UTF-8 bytes, a byte
    (u8) by its value in [N]. *)
Abbreviation str := (list N).

Definition lit (s : string) : str :=
  Ascii.N_of_ascii <$> String.list_ascii_of_string s.

Definition dec (n : N) : str := lit (pretty n).

Definition u32_max : N := 4294967295.
Definition u64_max : N := 18446744073709551615.
Definition i64_max : Z := 9223372036854775807.

Definition wrap64 (n : N) : N := (n `mod` 18446744073709551616)%N.
Definition saturating_add (a b : N) : N := N.min (a + b) u64_max.
Definition saturating_mul (a b : N) : N := N.min (a * b) u64_max.
Definition saturating_sub (a b : N) : N := (a - b)%N.

(** ** Results *)

Inductive Result (E A : Type) : Type :=
| Ok (a : A)
| Err (e : E).
Arguments Ok {E A} a.
Arguments Err {E A} e.

#[global] Instance result_eq_dec {E A} `{EqDecision E, EqDecision A} : EqDecision (Result E A).
Proof. solve_decision. Defined.

#[global] Instance result_ret {E} : MRet (Result E) := λ A a, Ok a.
#[global] Instance result_bind {E} : MBind (Result E) := λ A B f r,
  match r with Ok a => f a | Err e => Err e end.
#[global] Instance result_fmap {E} : FMap (Result E) := λ A B f r,
  match r with Ok a => Ok (f a) | Err e => Err e end.

Definition map_err {E F A} (f : E → F) (r : Result E A) : Result F A :=
  match r with Ok a => Ok a | Err e => Err (f e) end.

Definition ok_or {E A} (o : option A) (e : E) : Result E A :=
  match o with Some a => Ok a | None => Err e end.

Definition is_ok {E A} (r : Result E A) : bool :=
  match r with Ok _ => true | Err _ => false end.

(** ** State *)

(** A computation on a shared state. *)
Definition St (W A : Type) : Type := W → A * W.

#[global] Instance st_ret {W} : MRet (St W) := λ A a w, (a, w).
#[global] Instance st_bind {W} : MBind (St W) := λ A B f m w, let '(a, w) := m w in f a w.
#[global] Instance st_fmap {W} : FMap (St W) := λ A B f m w, let '(a, w) := m w in (f a, w).

Definition gets {W A} (f : W → A) : St W A := λ w, (f w, w).
Definition modify {W} (f : W → W) : St W unit := λ w, (tt, f w).
Definition when {W} (b : bool) (m : St W unit) : St W unit := if b then m else mret tt.

(** Rust's [?] on a call that reads and writes the state *)
Definition bind_res {W E A B} (m : St W (Result E A)) (k : A → St W (Result E B))
  : St W (Result E B) :=
  r ← m; match r with Ok a => k a | Err e => mret (Err e) end.
Notation "x ←? m ; k" := (bind_res m (λ x, k))
  (at level 20, m at level 100, k at level 200, only parsing).

(** A [format!] call, kept as the sequence of its fragments: literal text,
    a [{}] argument, a [{:?}] argument, a number. *)
Inductive Frag :=
| F (text : string)
| D (arg : str)
| Dbg (arg : str)
| Num (n : N).

#[global] Instance frag_eq_dec : EqDecision Frag.
Proof. solve_decision. Defined.

(** ** Generic list facts *)

Lemma take_drop_app {A} (n : nat) (l : list A) : take n l ++ drop n l = l.
Proof. apply take_drop. Qed.

Lemma drop_lookup_cons {A} (l : list A) i x :
  l !! i = Some x → drop i l = x :: drop (S i) l.
Proof. apply drop_S. Qed.

Lemma drop_lookup_None {A} (l : list A) i : l !! i = None → drop i l = [].
Proof. intros H%lookup_ge_None. by apply drop_ge. Qed.

Lemma length_drop_lt {A} (l : list A) i x :
  l !! i = Some x → length (drop (S i) l) < length (drop i l).
Proof. intros H. rewrite (drop_S _ _ _ H). simpl. lia. Qed.

Lemma drop_app_cons {A} (l : list A) x k : drop (S (length l)) (l ++ x :: k) = k.
Proof. by induction l. Qed.

Lemma take_app_S {A} (l : list A) x k : take (S (length l)) (l ++ x :: k) = l ++ [x].
Proof. induction l; simpl; [by rewrite take_0|by f_equal]. Qed.

(** ** Tactics *)

(** [lia] with division and remainder by constants. *)
Ltac Zify.zify_post_hook ::= Z.to_euclidean_division_equations.

(** Split boolean conjunctions and comparisons met in guards. *)
Ltac bool_guard :=
  repeat match goal with
  | H : _ && _ = true |- _ => apply andb_prop in H; destruct H
  | H : _ || _ = false |- _ => apply orb_false_elim in H; destruct H
  | H : negb _ = true |- _ => apply negb_true_iff in H
  | H : negb _ = false |- _ => apply negb_false_iff in H
  | H : (_ =? _)%N = true |- _ => apply N.eqb_eq in H
  | H : (_ =? _)%N = false |- _ => apply N.eqb_neq in H
  | H : (_ <=? _)%N = true |- _ => apply N.leb_le in H
  | H : (_ <=? _)%N = false |- _ => apply N.leb_gt in H
  | H : (_ <? _)%N = true |- _ => apply N.ltb_lt in H
  | H : (_ <? _)%N = false |- _ => apply N.ltb_ge in H
  end.

(** Case analysis on membership in explicit lists. *)
Ltac elem_cases :=
  repeat match goal with
  | H : _ ∈ ?l |- _ => is_var l; unfold l in H
  | H : _ ∈ _ :: _ |- _ => apply elem_of_cons in H; destruct H
  | H : _ ∈ [] |- _ => by apply not_elem_of_nil in H
  end; subst; simpl in *; simplify_eq.

(** Closed decidable facts, by evaluation. *)
Ltac by_eval := apply (bool_decide_unpack _); vm_compute; exact I.

(** stdpp's solvers clear hypotheses that are already gone. *)
#[export] Set Warnings "-clear-no-such-hyp".

Create HintDb kdb.
#[export] Hint Resolve drop_lookup_cons drop_lookup_None : kdb.
