(* ===== verification/Errors.v ===== *)
(** * Error values (src/error.rs)

    [KnowReason] with the four core constructors of the third-party
    [UnifiedReason] that the code uses, and [KnowledgeError], a reason with
    the fragments of its detail message. *)
From S2P Require Import Prelude.

Inductive UnifiedReason :=
| core_conf
| logic_error
| system_error
| rule_error.

Inductive KnowReason :=
| NotData
| General (reason : UnifiedReason).

Record KnowledgeError := {
  err_reason : KnowReason;
  err_detail : list Frag;
}.

#[export] Instance unified_reason_eq_dec : EqDecision UnifiedReason.
Proof. solve_decision. Defined.
#[export] Instance know_reason_eq_dec : EqDecision KnowReason.
Proof. solve_decision. Defined.
#[export] Instance knowledge_error_eq_dec : EqDecision KnowledgeError.
Proof. solve_decision. Defined.

Definition from_conf : KnowReason := General core_conf.
Definition from_logic : KnowReason := General logic_error.
Definition from_res : KnowReason := General system_error.
Definition from_rule : KnowReason := General rule_error.

(** [reason.to_err().with_detail(format!(..))] *)
Definition know_err (r : KnowReason) (d : list Frag) : KnowledgeError :=
  {| err_reason := r; err_detail := d |}.

Abbreviation KnowledgeResult := (Result KnowledgeError).
