(* ===== verification/RustStr.v ===== *)
(** * The standard-library string operations the source calls

    [str] methods on UTF-8 bytes: ASCII classes, [trim], [find], [rfind],
    [split], [split_once], [lines], [parse::<u64>], and the UTF-8 encoding
    that [String::push] performs.  Character predicates that only accept
    ASCII are tested on bytes: a byte of a multi-byte character is at least
    128, so no such character satisfies them on either view. *)
From S2P Require Import Prelude.

(** ** Bytes *)

Abbreviation HT := 9%N.
Abbreviation LF := 10%N.
Abbreviation CR := 13%N.
Abbreviation SPACE := 32%N.
Abbreviation DQUOTE := 34%N.
Abbreviation HASH := 35%N.
Abbreviation DOLLAR := 36%N.
Abbreviation SQUOTE := 39%N.
Abbreviation LPAREN := 40%N.
Abbreviation RPAREN := 41%N.
Abbreviation STAR := 42%N.
Abbreviation COMMA := 44%N.
Abbreviation DASH := 45%N.
Abbreviation DOT := 46%N.
Abbreviation SLASH := 47%N.
Abbreviation COLON := 58%N.
Abbreviation SEMI := 59%N.
Abbreviation EQUALS := 61%N.
Abbreviation QMARK := 63%N.
Abbreviation LBRACKET := 91%N.
Abbreviation BACKSLASH := 92%N.
Abbreviation RBRACKET := 93%N.
Abbreviation UNDERSCORE := 95%N.
Abbreviation BACKTICK := 96%N.

Definition is_ascii_upper (c : N) : bool := (65 <=? c)%N && (c <=? 90)%N.
Definition is_ascii_lower (c : N) : bool := (97 <=? c)%N && (c <=? 122)%N.
Definition is_ascii_digit (c : N) : bool := (48 <=? c)%N && (c <=? 57)%N.
Definition is_ascii_alphabetic (c : N) : bool := is_ascii_upper c || is_ascii_lower c.
Definition is_ascii_alphanumeric (c : N) : bool := is_ascii_alphabetic c || is_ascii_digit c.

(** [u8::is_ascii_whitespace]: space, tab, line feed, form feed, return *)
Definition is_ascii_whitespace (c : N) : bool :=
  (c =? 32)%N || (c =? 9)%N || (c =? 10)%N || (c =? 12)%N || (c =? 13)%N.

Definition to_ascii_lowercase (c : N) : N := if is_ascii_upper c then (c + 32)%N else c.

Definition to_ascii_uppercase (c : N) : N := if is_ascii_lower c then (c - 32)%N else c.

Definition eq_ignore_ascii_case (a b : str) : bool :=
  bool_decide ((to_ascii_lowercase <$> a) = (to_ascii_lowercase <$> b)).

Definition ascii (s : str) : Prop := Forall (λ c, (c < 128)%N) s.

(** ** UTF-8 encoding of one [char] ([String::push]) *)

Definition utf8_encode (c : N) : str :=
  if (c <? 128)%N then [c]
  else if (c <? 2048)%N then [192 + c `div` 64; 128 + c `mod` 64]%N
  else if (c <? 65536)%N then
    [224 + c `div` 4096; 128 + (c `div` 64) `mod` 64; 128 + c `mod` 64]%N
  else
    [240 + c `div` 262144; 128 + (c `div` 4096) `mod` 64;
     128 + (c `div` 64) `mod` 64; 128 + c `mod` 64]%N.

Lemma utf8_encode_ascii c : (c < 128)%N → utf8_encode c = [c].
Proof. intros H. unfold utf8_encode. by apply N.ltb_lt in H as ->. Qed.

(** ** Searching *)

Fixpoint prefix_of (p s : str) : bool :=
  match p, s with
  | [], _ => true
  | x :: p, y :: s => (x =? y)%N && prefix_of p s
  | _ :: _, [] => false
  end.

Definition starts_with (c : N) (s : str) : bool :=
  match s with x :: _ => (x =? c)%N | [] => false end.

Definition ends_with (c : N) (s : str) : bool :=
  match last s with Some x => (x =? c)%N | None => false end.

(** [s.find(p)] for a predicate on ASCII characters: the byte index *)
Fixpoint find_by (p : N → bool) (s : str) : option nat :=
  match s with
  | [] => None
  | x :: s => if p x then Some 0 else S <$> find_by p s
  end.

Definition find_char (c : N) : str → option nat := find_by (λ x, x =? c)%N.

Fixpoint rfind_char (c : N) (s : str) : option nat :=
  match s with
  | [] => None
  | x :: s =>
      match rfind_char c s with
      | Some i => Some (S i)
      | None => if (x =? c)%N then Some 0 else None
      end
  end.

Definition split_once (c : N) (s : str) : option (str * str) :=
  match find_char c s with
  | Some i => Some (take i s, drop (S i) s)
  | None => None
  end.

(** [s.split(c)]: always at least one piece *)
Fixpoint split_go (c : N) (s acc : str) : list str :=
  match s with
  | [] => [acc]
  | x :: s => if (x =? c)%N then acc :: split_go c s [] else split_go c s (acc ++ [x])
  end.
Definition split_char (c : N) (s : str) : list str := split_go c s [].

Fixpoint span (p : N → bool) (s : str) : nat :=
  match s with
  | x :: s => if p x then S (span p s) else 0
  | [] => 0
  end.

(** [s.lines()]: split at line feeds, no empty last line, one trailing
    carriage return of a line removed *)
Definition strip_cr (l : str) : str :=
  if ends_with CR l then take (length l - 1) l else l.

Definition drop_last_empty (ls : list str) : list str :=
  match last ls with Some [] => take (length ls - 1) ls | _ => ls end.

Definition lines (s : str) : list str :=
  strip_cr <$> drop_last_empty (split_char LF s).

(** ** Trimming: the encodings of the characters of Unicode White_Space *)

Definition ws_encodings : list str :=
  [[9]; [10]; [11]; [12]; [13]; [32]; [194; 133]; [194; 160]; [225; 154; 128];
   [226; 128; 128]; [226; 128; 129]; [226; 128; 130]; [226; 128; 131];
   [226; 128; 132]; [226; 128; 133]; [226; 128; 134]; [226; 128; 135];
   [226; 128; 136]; [226; 128; 137]; [226; 128; 138]; [226; 128; 168];
   [226; 128; 169]; [226; 128; 175]; [226; 129; 159]; [227; 128; 128]]%N.

Fixpoint find_prefix (encs : list str) (s : str) : nat :=
  match encs with
  | [] => 0
  | e :: encs => if prefix_of e s then length e else find_prefix encs s
  end.

Fixpoint trim_by (encs : list str) (fuel : nat) (s : str) : str :=
  match fuel with
  | 0 => s
  | S fuel =>
      match find_prefix encs s with
      | 0 => s
      | n => trim_by encs fuel (drop n s)
      end
  end.

Definition trim_start (s : str) : str := trim_by ws_encodings (length s) s.
Definition trim_end (s : str) : str :=
  reverse (trim_by (reverse <$> ws_encodings) (length s) (reverse s)).
Definition trim (s : str) : str := trim_end (trim_start s).

(** ** [str::parse::<u64>]: an optional plus sign, then digits *)

Fixpoint parse_digits (s : str) (acc : N) : option N :=
  match s with
  | [] => Some acc
  | c :: s =>
      if is_ascii_digit c then
        let acc := (acc * 10 + (c - 48))%N in
        if (acc <=? u64_max)%N then parse_digits s acc else None
      else None
  end.

Definition parse_u64 (s : str) : option N :=
  let s := match s with c :: s' => if (c =? 43)%N then s' else s | [] => s end in
  match s with [] => None | _ => parse_digits s 0 end.

(** ** UTF-8 validation: [String::from_utf8] and [String::from_utf8_lossy] *)

Definition in_range (lo hi : N) (o : option N) : bool :=
  match o with Some c => (lo <=? c)%N && (c <=? hi)%N | None => false end.
Definition cont : option N → bool := in_range 128 191.

(** the bytes allowed after the first byte of a two-, three- or four-byte
    character *)
Definition second_range (c : N) : option (N * N * N) :=
  if (194 <=? c)%N && (c <=? 223)%N then Some (2, 128, 191)%N
  else if (c =? 224)%N then Some (3, 160, 191)%N
  else if (c =? 237)%N then Some (3, 128, 159)%N
  else if (225 <=? c)%N && (c <=? 239)%N then Some (3, 128, 191)%N
  else if (c =? 240)%N then Some (4, 144, 191)%N
  else if (241 <=? c)%N && (c <=? 243)%N then Some (4, 128, 191)%N
  else if (c =? 244)%N then Some (4, 128, 143)%N
  else None.

(** the next character, or the longest prefix that could start one: whether it
    is valid, and its bytes *)
Definition utf8_next (c : N) (s : list N) : bool * nat :=
  if (c <? 128)%N then (true, 1)
  else
    match second_range c with
    | None => (false, 1)
    | Some (w, lo, hi) =>
        if in_range lo hi (s !! 0) then
          if (w =? 2)%N then (true, 2)
          else if cont (s !! 1) then
            if (w =? 3)%N then (true, 3)
            else if cont (s !! 2) then (true, 4) else (false, 3)
          else (false, 2)
        else (false, 1)
    end.

Fixpoint utf8_chunks (fuel : nat) (s : list N) : list (bool * list N) :=
  match fuel, s with
  | S fuel, c :: s' =>
      let '(ok, n) := utf8_next c s' in (ok, take n s) :: utf8_chunks fuel (drop n s)
  | _, _ => []
  end.

Definition utf8_valid (s : list N) : bool := forallb fst (utf8_chunks (length s) s).

Definition replacement : str := [239; 191; 189]%N.
Definition from_utf8_lossy (s : list N) : str :=
  concat ((λ '(ok, b), if ok : bool then b else replacement) <$> utf8_chunks (length s) s).

(** ** Facts *)

Lemma find_by_Some p s i :
  find_by p s = Some i →
  ∃ c, s !! i = Some c ∧ p c = true ∧ Forall (λ x, p x = false) (take i s).
Proof.
  revert i. induction s as [|x s IH]; intros i Hf; simpl in Hf; [done|].
  destruct (p x) eqn:Hx.
  - injection Hf as <-. exists x. by repeat split.
  - apply fmap_Some in Hf as (j & Hj & ->).
    destruct (IH _ Hj) as (c & Hc & Hp & Hall). exists c. by repeat constructor.
Qed.

Lemma find_by_None p s : find_by p s = None ↔ Forall (λ x, p x = false) s.
Proof.
  induction s as [|x s IH]; simpl; [by split|].
  rewrite Forall_cons. destruct (p x); [by split; [|intros []]|].
  rewrite <-IH. destruct (find_by p s); simpl; [by split; [|intros []]|by split].
Qed.

Lemma find_by_app p s1 x s2 :
  Forall (λ y, p y = false) s1 → p x = true →
  find_by p (s1 ++ x :: s2) = Some (length s1).
Proof.
  intros Hall Hx. induction Hall as [|y s1 Hy _ IH]; simpl; [by rewrite Hx|].
  by rewrite Hy, IH.
Qed.

Lemma rfind_char_None c s : Forall (λ x, x ≠ c) s → rfind_char c s = None.
Proof.
  induction 1 as [|x s Hx _ IH]; simpl; [done|].
  rewrite IH. by apply N.eqb_neq in Hx as ->.
Qed.

Lemma rfind_char_app c s1 s2 :
  Forall (λ x, x ≠ c) s2 → rfind_char c (s1 ++ c :: s2) = Some (length s1).
Proof.
  intros H. induction s1 as [|x s1 IH]; simpl.
  - rewrite rfind_char_None by done. by rewrite N.eqb_refl.
  - by rewrite IH.
Qed.

Lemma split_once_app c s1 s2 :
  Forall (λ x, x ≠ c) s1 → split_once c (s1 ++ c :: s2) = Some (s1, s2).
Proof.
  intros H. unfold split_once, find_char. rewrite find_by_app.
  - by rewrite take_app_length, drop_app_cons.
  - eapply Forall_impl; [exact H|]. intros y Hy. by apply N.eqb_neq.
  - apply N.eqb_refl.
Qed.

Lemma span_app p s1 s2 :
  Forall (λ x, p x = true) s1 →
  (∀ x, head s2 = Some x → p x = false) → span p (s1 ++ s2) = length s1.
Proof.
  intros H1 H2. induction H1 as [|x s1 Hx _ IH]; simpl; [|by rewrite Hx, IH].
  destruct s2 as [|y s2]; simpl; [done|]. by rewrite H2.
Qed.

Lemma span_take p s : Forall (λ x, p x = true) (take (span p s) s).
Proof.
  induction s as [|x s IH]; simpl; [constructor|].
  destruct (p x) eqn:Hx; simpl; by constructor.
Qed.

Lemma span_drop p s x : head (drop (span p s) s) = Some x → p x = false.
Proof.
  induction s as [|y s IH]; simpl; [done|].
  destruct (p y) eqn:Hy; simpl; [done|]. by intros [= ->].
Qed.

(** *** Decimal text *)

Lemma lit_app s1 s2 : lit (s1 +:+ s2) = lit s1 ++ lit s2.
Proof.
  unfold lit. rewrite <-fmap_app. f_equal.
  induction s1 as [|c s1 IH]; [done|].
  change (String c s1 +:+ s2) with (String c (s1 +:+ s2)). simpl. by rewrite IH.
Qed.

Lemma pretty_char_digit x :
  (x < 10)%N → Ascii.N_of_ascii (pretty_N_char x) = (48 + x)%N.
Proof.
  intros H.
  assert (x = 0 ∨ x = 1 ∨ x = 2 ∨ x = 3 ∨ x = 4 ∨ x = 5 ∨ x = 6 ∨ x = 7 ∨ x = 8 ∨ x = 9)%N
    as Hx by lia.
  by repeat destruct Hx as [->|Hx]; [..|subst].
Qed.

Lemma digit_step x s acc :
  (x < 10)%N → (acc * 10 + x ≤ u64_max)%N →
  parse_digits (lit (String (pretty_N_char x) s)) acc = parse_digits (lit s) (acc * 10 + x).
Proof.
  intros Hx Hle. unfold lit. simpl. rewrite pretty_char_digit by done.
  assert (is_ascii_digit (48 + x) = true) as ->.
  { unfold is_ascii_digit. apply andb_true_intro; split; apply N.leb_le; lia. }
  replace (48 + x - 48)%N with x by lia.
  by apply N.leb_le in Hle as ->.
Qed.

Lemma parse_digits_pretty x s :
  (x ≤ u64_max)%N → parse_digits (lit (pretty_N_go x s)) 0 = parse_digits (lit s) x.
Proof.
  revert s. induction (N.lt_wf_0 x) as [x _ IH]; intros s Hle.
  destruct (decide (x = 0)%N) as [->|Hne]; [by rewrite pretty_N_go_0|].
  pose proof (N.div_mod x 10 ltac:(lia)) as Hdm.
  pose proof (N.mod_lt x 10 ltac:(lia)) as Hlt.
  rewrite pretty_N_go_step by lia.
  rewrite IH; [|lia|lia].
  rewrite digit_step by lia. by replace (x `div` 10 * 10 + x `mod` 10)%N with x by lia.
Qed.

Lemma pretty_go_digits x s :
  Forall (λ c, is_ascii_digit c = true) (lit s) →
  Forall (λ c, is_ascii_digit c = true) (lit (pretty_N_go x s)).
Proof.
  revert s. induction (N.lt_wf_0 x) as [x _ IH]; intros s Hs.
  destruct (decide (x = 0)%N) as [->|Hne]; [by rewrite pretty_N_go_0|].
  rewrite pretty_N_go_step by lia. apply IH; [apply N.div_lt; lia|].
  pose proof (N.mod_lt x 10 ltac:(lia)) as Hlt.
  unfold lit. simpl. constructor; [|exact Hs].
  rewrite pretty_char_digit by done. unfold is_ascii_digit.
  apply andb_true_intro; split; apply N.leb_le; lia.
Qed.

Lemma dec_digits n : Forall (λ c, is_ascii_digit c = true) (dec n).
Proof.
  unfold dec, pretty, pretty_N. case_decide; [by repeat constructor|].
  apply pretty_go_digits. constructor.
Qed.

Lemma parse_digits_dec n : (n ≤ u64_max)%N → parse_digits (dec n) 0 = Some n.
Proof.
  intros H. unfold dec, pretty, pretty_N. case_decide; [by subst|].
  by rewrite parse_digits_pretty.
Qed.

Lemma dec_nonempty n : dec n ≠ [].
Proof.
  unfold dec, pretty, pretty_N. case_decide as Hn; [done|].
  intros Heq. destruct (N.le_gt_cases n u64_max) as [Hle|Hgt].
  - pose proof (parse_digits_pretty n "" Hle) as Hp. rewrite Heq in Hp.
    simpl in Hp. congruence.
  - assert (∀ x s, s ≠ "" → pretty_N_go x s ≠ "") as Hne.
    { intros x. induction (N.lt_wf_0 x) as [x _ IH]; intros s Hs.
      destruct (decide (x = 0)%N) as [->|Hx]; [by rewrite pretty_N_go_0|].
      rewrite pretty_N_go_step by lia. apply IH; [apply N.div_lt; lia|done]. }
    rewrite pretty_N_go_step in Heq by lia.
    destruct (pretty_N_go (n `div` 10) _) eqn:Hp; [|done].
    by eapply Hne in Hp.
Qed.

Lemma dec_cons n : ∃ c s, dec n = c :: s ∧ is_ascii_digit c = true.
Proof.
  pose proof (dec_digits n) as Hd. pose proof (dec_nonempty n) as Hne.
  destruct (dec n) as [|c s]; [done|]. inversion Hd. eauto.
Qed.

Lemma parse_u64_dec n : (n ≤ u64_max)%N → parse_u64 (dec n) = Some n.
Proof.
  intros H. pose proof (parse_digits_dec n H) as Hp.
  destruct (dec_cons n) as (c & s & Heq & Hc). unfold parse_u64. rewrite Heq in *.
  assert ((c =? 43)%N = false) as ->; [|done].
  unfold is_ascii_digit in Hc. bool_guard. apply N.eqb_neq. lia.
Qed.

(** *** Splitting *)

Lemma split_go_last c s acc : Forall (λ x, x ≠ c) s → split_go c s acc = [acc ++ s].
Proof.
  intros H. revert acc. induction H as [|x s Hx _ IH]; intros acc; simpl.
  - by rewrite app_nil_r.
  - apply N.eqb_neq in Hx as ->. rewrite IH. by rewrite <-app_assoc.
Qed.

Lemma split_go_app c s1 s2 acc :
  Forall (λ x, x ≠ c) s1 → split_go c (s1 ++ c :: s2) acc = (acc ++ s1) :: split_go c s2 [].
Proof.
  intros H. revert acc. induction H as [|x s Hx _ IH]; intros acc; simpl.
  - by rewrite N.eqb_refl, app_nil_r.
  - apply N.eqb_neq in Hx as ->. rewrite IH. by rewrite <-app_assoc.
Qed.

Lemma split_char_lines ls :
  Forall (Forall (λ x, x ≠ LF)) ls →
  split_char LF (concat ((λ l, l ++ [LF]) <$> ls)) = ls ++ [[]].
Proof.
  unfold split_char. induction 1 as [|l ls Hl _ IH]; simpl; [done|].
  rewrite <-app_assoc. simpl. rewrite split_go_app by done. by f_equal.
Qed.

(** [lines] inverts joining with line feeds. *)
Lemma lines_concat ls :
  Forall (λ l, Forall (λ x, x ≠ LF) l ∧ ends_with CR l = false) ls →
  lines (concat ((λ l, l ++ [LF]) <$> ls)) = ls.
Proof.
  intros H. unfold lines, drop_last_empty.
  rewrite split_char_lines by (eapply Forall_impl; [exact H|]; by intros ? []).
  rewrite last_snoc, length_app. simpl.
  replace (length ls + 1 - 1) with (length ls) by lia. rewrite take_app_length.
  induction H as [|l ls [_ Hcr] _ IH]; simpl; [done|].
  f_equal; [unfold strip_cr; by rewrite Hcr|exact IH].
Qed.

(** *** Trimming *)

Definition ascii_ws (c : N) : bool := (9 <=? c)%N && (c <=? 13)%N || (c =? 32)%N.

(** an ASCII byte that is not whitespace: no whitespace character starts or
    ends with it *)
Definition solid (c : N) : bool := (c <? 128)%N && negb (ascii_ws c).

Definition solid_ends (s : str) : Prop :=
  (∃ c t, s = c :: t ∧ solid c = true) ∧ (∃ c t, s = t ++ [c] ∧ solid c = true).

Lemma find_prefix_0 encs c s :
  Forall (λ e, ∃ x t, e = x :: t ∧ x ≠ c) encs → find_prefix encs (c :: s) = 0.
Proof.
  induction 1 as [|e encs (x & t & -> & Hx) _ IH]; simpl; [done|].
  by apply N.eqb_neq in Hx as ->.
Qed.

Lemma solid_not_ws c :
  solid c = true → Forall (λ e, ∃ x t, e = x :: t ∧ x ≠ c) ws_encodings
                 ∧ Forall (λ e, ∃ x t, e = x :: t ∧ x ≠ c) (reverse <$> ws_encodings).
Proof.
  unfold solid, ascii_ws. intros H. bool_guard.
  assert (c < 9 ∨ 13 < c)%N as Hr.
  { destruct (9 <=? c)%N eqn:?, (c <=? 13)%N eqn:?; simpl in *; bool_guard; lia. }
  split; repeat (constructor; [eexists _, _; split; [reflexivity|lia]|]); constructor.
Qed.

Lemma ws_prefix c s :
  ascii_ws c = true →
  find_prefix ws_encodings (c :: s) = 1 ∧ find_prefix (reverse <$> ws_encodings) (c :: s) = 1.
Proof.
  unfold ascii_ws. intros H.
  assert (c = 9 ∨ c = 10 ∨ c = 11 ∨ c = 12 ∨ c = 13 ∨ c = 32)%N as Hc.
  { destruct (c =? 32)%N eqn:?; bool_guard; [lia|].
    rewrite orb_false_r in H. bool_guard. lia. }
  by repeat destruct Hc as [->|Hc]; [..|subst].
Qed.

Lemma trim_by_0 encs n s : find_prefix encs s = 0 → trim_by encs n s = s.
Proof. intros H. destruct n; simpl; [done|]. by rewrite H. Qed.

Lemma trim_by_ws encs w s n :
  (∀ c t, ascii_ws c = true → find_prefix encs (c :: t) = 1) →
  Forall (λ c, ascii_ws c = true) w → find_prefix encs s = 0 → length w ≤ n →
  trim_by encs n (w ++ s) = s.
Proof.
  intros He Hw Hs. revert n. induction Hw as [|c w Hc _ IH]; intros n Hn; simpl in *.
  - by apply trim_by_0.
  - destruct n as [|n]; [lia|]. cbn [trim_by]. rewrite (He _ _ Hc). simpl.
    rewrite drop_0. apply IH. lia.
Qed.

Lemma solid_prefix c s :
  solid c = true → find_prefix ws_encodings (c :: s) = 0
                 ∧ find_prefix (reverse <$> ws_encodings) (c :: s) = 0.
Proof. intros [H1 H2]%solid_not_ws. split; by apply find_prefix_0. Qed.

Opaque find_prefix ws_encodings.

(** [trim] removes ASCII padding and stops at solid ends. *)
Lemma trim_pad w1 s w2 :
  Forall (λ c, ascii_ws c = true) w1 → Forall (λ c, ascii_ws c = true) w2 →
  solid_ends s → trim (w1 ++ s ++ w2) = s.
Proof.
  intros H1 H2 [(c & t & Hc & Hsc) (d & u & Hd & Hsd)].
  assert (∀ k, find_prefix ws_encodings (s ++ k) = 0) as Hs.
  { intros k. rewrite Hc. apply solid_prefix, Hsc. }
  assert (find_prefix (reverse <$> ws_encodings) (reverse s) = 0) as Hr.
  { rewrite Hd, reverse_snoc. apply solid_prefix, Hsd. }
  unfold trim, trim_start, trim_end.
  rewrite (trim_by_ws ws_encodings w1 (s ++ w2) _ (λ c t H, proj1 (ws_prefix c t H)) H1 (Hs w2))
    by (rewrite length_app; lia).
  rewrite reverse_app.
  rewrite (trim_by_ws _ (reverse w2) (reverse s) _ (λ c t H, proj2 (ws_prefix c t H))
             (proj2 (Forall_reverse _ _) H2) Hr)
    by (rewrite length_reverse, length_app; lia).
  apply reverse_involutive.
Qed.

Transparent find_prefix ws_encodings.

Lemma trim_solid s : solid_ends s → trim s = s.
Proof.
  intros H. rewrite <-(app_nil_r s) at 1. by apply (trim_pad [] s []).
Qed.

Lemma trim_nil : trim [] = [].
Proof. reflexivity. Qed.

(** [trim] returns a part of its argument. *)
Lemma trim_by_suffix encs n s : ∃ a, s = a ++ trim_by encs n s.
Proof.
  revert s. induction n as [|n IH]; intros s; cbn [trim_by]; [by exists []|].
  destruct (find_prefix encs s) as [|k]; [by exists []|].
  destruct (IH (drop (S k) s)) as [a Ha]. exists (take (S k) s ++ a).
  by rewrite <-app_assoc, <-Ha, take_drop.
Qed.

Lemma trim_part s : ∃ a b, s = a ++ trim s ++ b.
Proof.
  unfold trim, trim_end. destruct (trim_by_suffix ws_encodings (length s) s) as [a Ha].
  fold (trim_start s) in Ha.
  destruct (trim_by_suffix (reverse <$> ws_encodings) (length (trim_start s))
              (reverse (trim_start s))) as [b Hb].
  exists a, (reverse b). by rewrite <-reverse_app, <-Hb, reverse_involutive.
Qed.

Lemma Forall_trim (P : N → Prop) s : Forall P s → Forall P (trim s).
Proof.
  destruct (trim_part s) as (a & b & Hs). rewrite Hs at 1.
  rewrite !Forall_app. tauto.
Qed.

Lemma span_le p s : span p s ≤ length s.
Proof. induction s as [|x s IH]; simpl; [lia|]. case_match; lia. Qed.

Lemma find_by_span p s :
  match find_by p s with Some e => e | None => length s end = span (λ x, negb (p x)) s.
Proof.
  induction s as [|x s IH]; simpl; [done|]. destruct (p x); simpl; [done|].
  rewrite <-IH. by destruct (find_by p s).
Qed.
