(* ===== verification/SqlText.v ===== *)
(** * The lexical shapes of SQL text

    A description of quoted text, comments and names that does not mention the
    scanners of [SqlRoute] and [SqlRewrite]: their specifications are stated
    over it.  A shape is a relation between a text and what follows it, for
    what follows decides where some texts end.  Each shape is shown to cut a
    given input in exactly one way. *)
From S2P Require Import Prelude.

(** ** Characters *)

Definition letter (c : N) : Prop := (65 ≤ c ≤ 90 ∨ 97 ≤ c ≤ 122)%N.
Definition digit (c : N) : Prop := (48 ≤ c ≤ 57)%N.
(** what a name may start with, and what it may consist of *)
Definition name_start (c : N) : Prop := letter c ∨ c = 95%N.
Definition name_char (c : N) : Prop := letter c ∨ digit c ∨ c = 95%N.
(** space, tab, line feed, form feed, carriage return *)
Definition blank (c : N) : Prop := c ∈ [32; 9; 10; 12; 13]%N.

(** [s] does not start with a character of [P] *)
Definition no_head (P : N → Prop) (s : str) : Prop := ∀ c, head s = Some c → ¬ P c.
(** [s] does not end with a character of [P] *)
Definition no_last (P : N → Prop) (s : str) : Prop := ∀ c, last s = Some c → ¬ P c.

(** ** Texts and where they end *)

(** in [c ++ p] the text [p] occurs at the end only *)
Definition first_at (p c : str) : Prop := ∀ a b, (c ++ p) = (a ++ p ++ b) → b = [].
Definition absent (p c : str) : Prop := ∀ a b, c ≠ a ++ p ++ b.

(** [upto p t s]: [t] ends with the first occurrence of [p] in [t ++ s], or is
    the whole input when there is none *)
Inductive upto (p : str) : str → str → Prop :=
| upto_found c s : first_at p c → upto p (c ++ p) s
| upto_end c : absent p c → upto p c [].

(** what follows an opening quote [q]: a text in which [q] only stands doubled,
    then a closing [q] that is not doubled, or the end of the input *)
Inductive quoted (q : N) : str → str → Prop :=
| quoted_open : quoted q [] []
| quoted_close s : no_head (eq q) s → quoted q [q] s
| quoted_twice t s : quoted q t s → quoted q (q :: q :: t) s
| quoted_char c t s : c ≠ q → quoted q t s → quoted q (c :: t) s.

(** the rest of a line, without its line feed *)
Definition line (t s : str) : Prop := (10%N ∉ t) ∧ (s = [] ∨ head s = Some 10%N).

(** [$tag$] with [tag] empty or a name *)
Definition dollar_tag (t : str) : Prop :=
  ∃ w, t = 36%N :: w ++ [36%N] ∧ (∀ c, head w = Some c → name_start c) ∧ Forall name_char w.

(** ** One way to cut *)

Lemma app_cut {A} (a b c d : list A) :
  a ++ b = c ++ d → length a ≤ length c → ∃ e, c = a ++ e ∧ b = e ++ d.
Proof.
  revert c. induction a as [|x a IH]; intros [|y c] H Hl; simpl in *; try lia.
  - by exists [].
  - by exists (y :: c).
  - injection H as -> H. destruct (IH c H ltac:(lia)) as (e & -> & ->). by exists e.
Qed.

Lemma upto_found_uniq p c1 s1 c2 s2 :
  first_at p c2 → (c1 ++ p) ++ s1 = (c2 ++ p) ++ s2 → length c1 ≤ length c2 → c1 = c2.
Proof.
  intros H2 Heq Hl. destruct (app_cut _ _ _ _ Heq) as (e & He & _); [rewrite !length_app; lia|].
  rewrite <-app_assoc in He. pose proof (H2 _ _ He) as ->. rewrite app_nil_r in He.
  by apply app_inv_tail in He.
Qed.

Lemma upto_uniq p t1 s1 t2 s2 :
  upto p t1 s1 → upto p t2 s2 → t1 ++ s1 = t2 ++ s2 → t1 = t2 ∧ s1 = s2.
Proof.
  intros H1 H2 Heq. assert (t1 = t2) as ->; [|by apply app_inv_head in Heq].
  destruct H1 as [c1 s1 H1|c1 H1], H2 as [c2 s2 H2|c2 H2].
  - f_equal. destruct (Nat.le_gt_cases (length c1) (length c2)).
    + by eapply upto_found_uniq.
    + symmetry. eapply upto_found_uniq; [done|by symmetry|lia].
  - exfalso. apply (H2 c1 s1). by rewrite app_nil_r, <-app_assoc in Heq.
  - exfalso. apply (H1 c2 s2). by rewrite app_nil_r, <-app_assoc in Heq.
  - by rewrite !app_nil_r in Heq.
Qed.

Lemma upto_total p s : p ≠ [] → ∃ t r, s = t ++ r ∧ upto p t r.
Proof.
  intros Hp. induction s as [|x s IH].
  - exists [], []. split; [done|]. apply upto_end. intros [] ?; simpl; [|done].
    destruct p; [done|]. done.
  - destruct (decide (take (length p) (x :: s) = p)) as [Ht|Ht].
    + exists ([] ++ p), (drop (length p) (x :: s)). split; [rewrite <-(take_drop (length p) (x :: s)) at 1; by rewrite Ht|].
      apply upto_found. intros a b H%(f_equal length). rewrite !length_app in H. simpl in H.
      apply nil_length_inv. lia.
    + assert (∀ b, x :: s ≠ p ++ b) as Hno.
      { intros b Hb. apply Ht. by rewrite Hb, take_app_length. }
      destruct IH as (t & r & -> & Hu). exists (x :: t), r. split; [done|].
      destruct Hu as [c r Hc|c Hc].
      * apply (upto_found p (x :: c)). intros [|y a] b Heq; simpl in Heq.
        -- exfalso. apply (Hno (b ++ r)). rewrite app_assoc, <-Heq. done.
        -- injection Heq as _ Heq. by eapply Hc.
      * apply upto_end. intros [|y a] b Heq; simpl in Heq.
        -- apply (Hno b). by rewrite app_nil_r.
        -- injection Heq as _ Heq. by eapply Hc.
Qed.

Lemma quoted_uniq q t1 s1 t2 s2 :
  quoted q t1 s1 → quoted q t2 s2 → t1 ++ s1 = t2 ++ s2 → t1 = t2 ∧ s1 = s2.
Proof.
  intros H1. revert t2 s2.
  induction H1 as [|s1 H1|t1 s1 H1 IH|c t1 s1 Hc H1 IH]; intros t2 s2 H2 Heq;
    destruct H2 as [|s2 H2|t2 s2 H2|c2 t2 s2 Hc2 H2]; simplify_eq/=; try done;
    try (by exfalso; eapply H1); try (by exfalso; eapply H2).
  - destruct (IH _ _ H2) as [-> ->]; done.
  - destruct (IH _ _ H2) as [-> ->]; done.
Qed.

Lemma line_uniq t1 s1 t2 s2 :
  line t1 s1 → line t2 s2 → t1 ++ s1 = t2 ++ s2 → t1 = t2 ∧ s1 = s2.
Proof.
  intros [H1 Hs1] [H2 Hs2]. revert t2 H2. induction t1 as [|x t1 IH]; intros [|y t2] H2 Heq; simpl in *.
  - done.
  - subst s1. destruct Hs1 as [|Hs1]; [done|]. simplify_eq/=. set_solver.
  - subst s2. destruct Hs2 as [|Hs2]; [done|]. simplify_eq/=. set_solver.
  - injection Heq as -> Heq. destruct (IH ltac:(set_solver) t2 ltac:(set_solver) Heq) as [-> ->]. done.
Qed.

Lemma name_char_not_dollar w : Forall name_char w → 36%N ∉ w.
Proof.
  intros H Hin. rewrite Forall_forall in H. apply H in Hin.
  unfold name_char, letter, digit in Hin. lia.
Qed.

Lemma stop_uniq {A} (x : A) w1 r1 w2 r2 :
  x ∉ w1 → x ∉ w2 → w1 ++ x :: r1 = w2 ++ x :: r2 → w1 = w2 ∧ r1 = r2.
Proof.
  revert w2. induction w1 as [|y w1 IH]; intros [|z w2] H1 H2 Heq; simplify_eq/=; try set_solver.
  destruct (IH w2) as [-> ->]; [set_solver..|done|done].
Qed.

Lemma dollar_tag_uniq t1 r1 t2 r2 :
  dollar_tag t1 → dollar_tag t2 → t1 ++ r1 = t2 ++ r2 → t1 = t2 ∧ r1 = r2.
Proof.
  intros (w1 & -> & _ & H1) (w2 & -> & _ & H2) Heq. simpl in Heq. injection Heq as Heq.
  rewrite <-!app_assoc in Heq. simpl in Heq.
  apply stop_uniq in Heq as [-> ->]; [done|by apply name_char_not_dollar..].
Qed.

Lemma dollar_tag_ascii t : dollar_tag t → Forall (λ c, (c < 128)%N) t.
Proof.
  intros (w & -> & _ & H). constructor; [lia|]. apply Forall_app. split; [|by repeat constructor].
  eapply Forall_impl; [exact H|]. unfold name_char, letter, digit. intros; lia.
Qed.

(** the longest run of characters of [P] *)
Lemma run_uniq (P : N → Prop) a1 r1 a2 r2 :
  Forall P a1 → no_head P r1 → Forall P a2 → no_head P r2 →
  a1 ++ r1 = a2 ++ r2 → a1 = a2 ∧ r1 = r2.
Proof.
  intros H1 Hr1. revert a2. induction H1 as [|x a1 Hx _ IH]; intros [|y a2] H2 Hr2 Heq; simpl in *.
  - done.
  - subst r1. exfalso. apply (Hr1 y eq_refl). by inversion H2.
  - subst r2. exfalso. by apply (Hr2 x eq_refl).
  - injection Heq as -> Heq. inversion H2; subst. destruct (IH a2) as [-> ->]; done.
Qed.

(** ** Regions of a query

    Literals, quoted identifiers and comments.  The two readings of a query in
    [SqlRoute] differ in whether a doubled backtick stands for itself. *)
Inductive region (backtick : str → str → Prop) : str → str → Prop :=
| region_quote q t s : q = 39%N ∨ q = 34%N → quoted q t s → region backtick (q :: t) s
| region_backtick t s : backtick t s → region backtick (96%N :: t) s
| region_bracket t s : upto [93%N] t s → region backtick (91%N :: t) s
| region_line t s : line t s → region backtick (45%N :: 45%N :: t) s
| region_block t s : upto [42; 47]%N t s → region backtick (47%N :: 42%N :: t) s.

(** where no name and no parenthesis counts *)
Definition skipped : str → str → Prop := region (upto [96%N]).
(** where no provider prefix counts *)
Definition kept : str → str → Prop := region (quoted 96).

Definition cuts_once (R : str → str → Prop) : Prop :=
  ∀ t1 s1 t2 s2, R t1 s1 → R t2 s2 → t1 ++ s1 = t2 ++ s2 → t1 = t2 ∧ s1 = s2.

(** nothing of shape [R] starts the text *)
Definition none_here (R : str → str → Prop) (s : str) : Prop := ∀ t r, s = t ++ r → ¬ R t r.

Lemma region_cuts_once bt : cuts_once bt → cuts_once (region bt).
Proof.
  intros Hbt t1 s1 t2 s2 H1 H2 Heq.
  destruct H1 as [q1 t1 s1 Hq1 H1|t1 s1 H1|t1 s1 H1|t1 s1 H1|t1 s1 H1],
    H2 as [q2 t2 s2 Hq2 H2|t2 s2 H2|t2 s2 H2|t2 s2 H2|t2 s2 H2]; simplify_eq/=;
    try (by destruct Hq1); try (by destruct Hq2).
  - by destruct (quoted_uniq _ _ _ _ _ H1 H2 ltac:(eassumption)) as [-> ->].
  - by destruct (Hbt _ _ _ _ H1 H2 ltac:(eassumption)) as [-> ->].
  - by destruct (upto_uniq _ _ _ _ _ H1 H2 ltac:(eassumption)) as [-> ->].
  - by destruct (line_uniq _ _ _ _ H1 H2 ltac:(eassumption)) as [-> ->].
  - by destruct (upto_uniq _ _ _ _ _ H1 H2 ltac:(eassumption)) as [-> ->].
Qed.

Lemma skipped_cuts_once : cuts_once skipped.
Proof. apply region_cuts_once. intros ????. apply upto_uniq. Qed.

Lemma kept_cuts_once : cuts_once kept.
Proof. apply region_cuts_once. intros ????. apply quoted_uniq. Qed.

Lemma region_nonempty bt t s : region bt t s → t ≠ [].
Proof. by destruct 1. Qed.

(** The first character of a region. *)
Lemma region_head bt t s c r :
  region bt t s → t ++ s = c :: r → c ∈ [39; 34; 96; 91; 45; 47]%N.
Proof. destruct 1 as [q t s []| | | |]; intros; simplify_eq/=; set_solver. Qed.

(** *** A query as its regions and the characters between them *)
Inductive seg := Opaque (t : str) | Byte (c : N).

Definition seg_text (x : seg) : str := match x with Opaque t => t | Byte c => [c] end.
Definition text (l : list seg) : str := concat (seg_text <$> l).

Inductive segs : str → list seg → Prop :=
| segs_end : segs [] []
| segs_opaque t s l : skipped t s → segs s l → segs (t ++ s) (Opaque t :: l)
| segs_byte c s l : none_here skipped (c :: s) → segs s l → segs (c :: s) (Byte c :: l).

Lemma segs_text s l : segs s l → text l = s.
Proof.
  unfold text. induction 1 as [|t s l _ _ IH|c s l _ _ IH]; [done|..];
    rewrite fmap_cons; cbn [concat seg_text]; by rewrite IH.
Qed.

Lemma segs_opaque_inv t s l :
  skipped t s → segs (t ++ s) l → ∃ l', l = Opaque t :: l' ∧ segs s l'.
Proof.
  intros Ht H. inversion H as [Heq|t' s' l' Ht' Hs' Heq|c s' l' Hn Hs' Heq]; subst.
  - symmetry in Heq. apply app_nil in Heq as [-> _]. by apply region_nonempty in Ht.
  - destruct (skipped_cuts_once _ _ _ _ Ht' Ht Heq) as [-> ->]. eauto.
  - exfalso. by eapply Hn.
Qed.

Lemma segs_byte_inv c s l :
  none_here skipped (c :: s) → segs (c :: s) l → ∃ l', l = Byte c :: l' ∧ segs s l'.
Proof.
  intros Hn H. inversion H as [|t' s' l' Ht' Hs' Heq|c' s' l' Hn' Hs' Heq]; subst; [|by eauto].
  exfalso. by eapply Hn.
Qed.

Lemma segs_det s l1 l2 : segs s l1 → segs s l2 → l1 = l2.
Proof.
  intros H1. revert l2. induction H1 as [|t s l Ht _ IH|c s l Hn _ IH]; intros l2 H2.
  - inversion H2 as [|t s l Ht _ Heq|]; [done|]. apply app_nil in Heq as [-> _].
    by apply region_nonempty in Ht.
  - apply segs_opaque_inv in H2 as (l' & -> & H2); [|done]. f_equal. auto.
  - apply segs_byte_inv in H2 as (l' & -> & H2); [|done]. f_equal. auto.
Qed.

Lemma segs_app_inv s l1 l2 : segs s (l1 ++ l2) → segs (text l2) l2.
Proof.
  revert s. induction l1 as [|x l1 IH]; intros s H; simpl in H.
  - by rewrite (segs_text _ _ H).
  - inversion H; subst; eauto.
Qed.
