(* ===== verification/RustNum.v ===== *)
(** * Numbers and case from the standard library

    [str::parse::<i64>], [str::parse::<f64>] (decimal to the nearest binary64,
    ties to even, as its bits) and [str::to_uppercase] as far as its result is
    ASCII. *)
From S2P Require Import Prelude RustStr.

(** ** [parse::<i64>]: an optional sign, then digits *)

Definition take_sign (s : str) : bool * str :=
  match s with
  | c :: s' => if (c =? DASH)%N then (true, s') else if (c =? 43)%N then (false, s') else (false, s)
  | [] => (false, s)
  end.

(** [digits_value] is the value of a text of digits *)
Definition digits_value (ds : str) : N := foldl (λ acc c, acc * 10 + (c - 48))%N 0%N ds.

Definition parse_i64 (s : str) : option Z :=
  let '(neg, ds) := take_sign s in
  if bool_decide (ds = []) || negb (forallb is_ascii_digit ds) then None
  else
    let v := Z.of_N (digits_value ds) in
    let z := if neg then (- v)%Z else v in
    if ((- 2 ^ 63 <=? z) && (z <? 2 ^ 63))%Z then Some z else None.

(** ** [parse::<f64>] *)

Definition INF64 : N := 9218868437227405312.
Definition NAN64 : N := 9221120237041090560.
Definition SIGN64 : N := 9223372036854775808.

(** [n / d], ties to even *)
Definition round_div (n d : N) : N :=
  let q := (n / d)%N in
  let r := (n mod d)%N in
  if (2 * r <? d)%N then q else if (d <? 2 * r)%N then (q + 1)%N else (q + q mod 2)%N.

(** the bits of the binary64 nearest to [n / d]: with [2^52 ≤ n / (d 2^e) < 2^53],
    or [e] the least exponent, the quotient carries into the exponent field *)
Definition f64_of_ratio (n d : N) : N :=
  if (n =? 0)%N then 0%N
  else
    let scaled (e : Z) := ((n * 2 ^ Z.to_N (- e))%N, (d * 2 ^ Z.to_N e)%N) in
    let k := (Z.of_N (N.log2 n) - Z.of_N (N.log2 d))%Z in
    let '(n1, d1) := scaled k in
    let e := Z.max (if (d1 <=? n1)%N then k - 52 else k - 53)%Z (-1074) in
    let '(n2, d2) := scaled e in
    N.min (Z.to_N (e + 1074) * 2 ^ 52 + round_div n2 d2)%N INF64.

(** the exponent's digits stop counting beyond 65536 *)
Definition exponent_value (ds : str) : N :=
  foldl (λ acc c, if (acc <? 65536)%N then (acc * 10 + (c - 48))%N else acc) 0%N ds.

(** what follows the digits: nothing, or an exponent *)
Definition parse_exponent (s : str) : option Z :=
  match s with
  | [] => Some 0%Z
  | c :: s =>
      if (to_ascii_lowercase c =? 101)%N then
        let '(neg, ds) := take_sign s in
        if bool_decide (ds = []) || negb (forallb is_ascii_digit ds) then None
        else
          let v := Z.of_N (exponent_value ds) in
          Some (if neg then (- v)%Z else v)
      else None
  end.

Definition parse_decimal (s : str) : option N :=
  let i := span is_ascii_digit s in
  let int := take i s in
  let rest := drop i s in
  let '(frac, rest) :=
    match rest with
    | c :: rest' => if (c =? DOT)%N then (take (span is_ascii_digit rest') rest', drop (span is_ascii_digit rest') rest')
                    else ([], rest)
    | [] => ([], [])
    end in
  if bool_decide (int ++ frac = []) then None
  else
    x ← parse_exponent rest;
    let m := digits_value (int ++ frac) in
    let x := (x - Z.of_nat (length frac))%Z in
    Some (f64_of_ratio (m * 10 ^ Z.to_N x) (10 ^ Z.to_N (- x))).

Definition parse_inf_nan (s : str) : option N :=
  if eq_ignore_ascii_case s (lit "inf") || eq_ignore_ascii_case s (lit "infinity") then Some INF64
  else if eq_ignore_ascii_case s (lit "nan") then Some NAN64
  else None.

Definition parse_f64 (s : str) : option N :=
  let '(neg, s) := take_sign s in
  b ← match parse_decimal s with Some b => Some b | None => parse_inf_nan s end;
  Some (if neg then (b + SIGN64)%N else b).

(** ** [to_uppercase] where the result is ASCII

    The characters outside ASCII whose upper case is ASCII are the dotless i,
    the long s, the sharp s and the ligatures; any other makes the result
    differ from every ASCII text, which is [None]. *)
Fixpoint to_uppercase_ascii (s : str) : option str :=
  match s with
  | [] => Some []
  | (195 :: 159 :: s)%N => app (lit "SS") <$> to_uppercase_ascii s
  | (196 :: 177 :: s)%N => app (lit "I") <$> to_uppercase_ascii s
  | (197 :: 191 :: s)%N => app (lit "S") <$> to_uppercase_ascii s
  | (239 :: 172 :: c :: s)%N =>
      up ← match c with
           | 128 => Some "FF" | 129 => Some "FI" | 130 => Some "FL" | 131 => Some "FFI"
           | 132 => Some "FFL" | 133 => Some "ST" | 134 => Some "ST" | _ => None
           end%N;
      app (lit up) <$> to_uppercase_ascii s
  | c :: s => if (c <? 128)%N then cons (to_ascii_uppercase c) <$> to_uppercase_ascii s else None
  end.

Example parse_i64_bounds :
  (λ s, parse_i64 (lit s)) <$> ["-9223372036854775808"; "9223372036854775807"; "9223372036854775808"; "+5"; "-"; "1 "; EmptyString]
  = [Some (- 2 ^ 63)%Z; Some (2 ^ 63 - 1)%Z; None; Some 5%Z; None; None; None].
Proof. vm_compute. done. Qed.

(** a tenth; the least subnormal and half of it; the largest finite number and
    the first that rounds to infinity; a tie to even *)
Example parse_f64_rounds :
  (λ s, parse_f64 (lit s)) <$> ["0.1"; "5e-324"; "2e-324"; "1.7976931348623157e308"; "1.7976931348623159e308";
                                "9007199254740993"; "-.5"; "5."; "1e400"; "-0"; "inf"; "-NaN"]
  = Some <$> [4591870180066957722; 1; 0; 9218868437227405311; 9218868437227405312;
              4845873199050653696; 13826050856027422720; 4617315517961601024; 9218868437227405312;
              9223372036854775808; 9218868437227405312; 18444492273895866368]%N.
Proof. vm_compute. done. Qed.
Example parse_f64_refuses : (λ s, parse_f64 (lit s)) <$> [EmptyString; "-"; "."; "1e"; "1e+"; "0x1"; "1 "; "infin"] = replicate 8 None.
Proof. vm_compute. done. Qed.

Example to_uppercase_ascii_specials :
  to_uppercase_ascii (lit "bf.ex" ++ [196; 177; 239; 172; 134; 197; 191]%N) = Some (lit "BF.EXISTS")
  ∧ to_uppercase_ascii (lit "get" ++ [195; 169]%N) = None.
Proof. vm_compute. done. Qed.
