(* ===== verification/Vel.v ===== *)
(** * VEL, the variable evaluation language (src/vel.rs)

    Parser, evaluator and placeholder substitution of the assignments that a
    refresh specification carries.  The reference notions are the lexing
    relation [lexes] of a SQL template and the printer [print_code]. *)
From S2P Require Import Prelude Errors RustStr.

(** ** Names *)

Definition is_name_start (c : N) : bool := is_ascii_alphabetic c || (c =? UNDERSCORE)%N.
Definition is_name_char (c : N) : bool := is_ascii_alphanumeric c || (c =? UNDERSCORE)%N.

(** ** Data *)

Inductive VarDef :=
| Literal (name value : str)
| PhaseBucket (name : str) (period_s bucket_s : N) (offset_slots : Z) (prefix : str).

#[export] Instance vardef_eq_dec : EqDecision VarDef.
Proof. solve_decision. Defined.

Definition def_name (d : VarDef) : str :=
  match d with Literal n _ => n | PhaseBucket n _ _ _ _ => n end.

(** ** Errors *)

Definition vel_err (msg : list Frag) : KnowledgeError :=
  know_err from_res (F "VEL: " :: msg).

Definition at_line (idx : nat) (msg : list Frag) : list Frag :=
  [F "第"; Num (N.of_nat (idx + 1)); F "行: "] ++ msg.

Definition err_at {A} (idx : nat) (msg : list Frag) : KnowledgeResult A :=
  Err (vel_err (at_line idx msg)).

(** ** Parsing *)

Definition validate_tail (tail whole : str) : Result (list Frag) unit :=
  let t := trim tail in
  if bool_decide (t = []) || starts_with HASH t then Ok tt
  else Err [F "表达式后只允许 # 注释，实际尾缀 "; Dbg t; F "（"; D whole; F "）"].

Definition prefix_arg (arg : option str) : Result (list Frag) str :=
  match arg with
  | None => Ok (lit "p")
  | Some a =>
      if starts_with DQUOTE a && ends_with DQUOTE a && bool_decide (2 ≤ length a)
      then Ok (take (length a - 1 - 1) (drop 1 a))
      else Err [F "prefix 应为字符串字面量，实际 "; Dbg a]
  end.

(** the closure [num] of [parse_expr] *)
Definition num_arg (fname a : str) : Result (list Frag) N :=
  ok_or (parse_u64 a) [D fname; F "() 参数应为正整数秒，实际 "; Dbg a].

(** one arm of the [match (fname, args.len())]: [offset] is 0 for
    [phase_now] and 1 for [phase_next] *)
Definition phase_def (name fname : str) (offset : Z) (a0 a1 : str) (a2 : option str)
  : Result (list Frag) VarDef :=
  period_s ← num_arg fname a0;
  bucket_s ← num_arg fname a1;
  prefix ← prefix_arg a2;
  Ok (PhaseBucket name period_s bucket_s offset prefix).

Definition call_dispatch (name fname : str) (args : list str) : Result (list Frag) VarDef :=
  let is_now := bool_decide (fname = lit "phase_now") in
  let is_next := bool_decide (fname = lit "phase_next") in
  match args with
  | [a0; a1] =>
      if is_now then phase_def name fname 0 a0 a1 None
      else if is_next then phase_def name fname 1 a0 a1 None
      else Err [F "未知 VEL 函数: "; D fname]
  | [a0; a1; a2] =>
      if is_now then phase_def name fname 0 a0 a1 (Some a2)
      else if is_next then phase_def name fname 1 a0 a1 (Some a2)
      else Err [F "未知 VEL 函数: "; D fname]
  | _ =>
      if is_now || is_next then
        Err [D fname; F "() 需 2~3 参数 (period_s, bucket_s[, prefix])，实际 ";
             Num (N.of_nat (length args))]
      else Err [F "未知 VEL 函数: "; D fname]
  end.

Definition parse_expr (name expr : str) : Result (list Frag) VarDef :=
  let expr := trim expr in
  match prefix_of [DQUOTE] expr with
  | true =>
      let after_open := drop 1 expr in
      match find_char DQUOTE after_open with
      | None => Err [F "字符串字面量未闭合: "; D expr]
      | Some q =>
          _ ← validate_tail (drop (S q) after_open) expr;
          Ok (Literal name (take q after_open))
      end
  | false =>
      match find_char LPAREN expr with
      | None => Err [F "不支持的表达式: "; D expr;
                     F "（支持 字符串字面量 / VEL 内建函数）"]
      | Some opn =>
          match rfind_char RPAREN expr with
          | None => Err [F "函数调用缺右括号: "; D expr]
          | Some close =>
              if bool_decide (close < opn) then Err [F "函数调用缺右括号: "; D expr]
              else
                _ ← validate_tail (drop (S close) expr) expr;
                let core := take (S close) expr in
                let fname := trim (take opn core) in
                let args_raw := trim (take (close - S opn) (drop (S opn) core)) in
                let args := if bool_decide (args_raw = []) then []
                            else trim <$> split_char COMMA args_raw in
                call_dispatch name fname args
          end
      end
  end.

(** the guard [valid] on the left-hand side *)
Definition valid_lhs (name : str) : bool :=
  starts_with DOLLAR name
  && bool_decide (1 < length name)
  && is_name_start (default UNDERSCORE (head (drop 1 name)))
  && forallb is_name_char (drop 1 name).

(** the [for (idx, raw) in code.lines().enumerate()] loop *)
Fixpoint parse_lines (idx : nat) (ls : list str) (seen : gset str) (out : list VarDef)
  : KnowledgeResult (list VarDef) :=
  match ls with
  | [] => Ok out
  | raw :: ls =>
      let line := trim raw in
      if bool_decide (line = []) || starts_with HASH line
      then parse_lines (S idx) ls seen out
      else
        match split_once EQUALS line with
        | None => err_at idx [F "缺 '=' 的赋值行: "; D line]
        | Some (lhs, rhs) =>
            let name := trim lhs in
            if negb (valid_lhs name) then
              err_at idx [F "左侧应为 $name（[A-Za-z_][A-Za-z0-9_]*），实际 "; D name]
            else
              let key := drop 1 name in
              if bool_decide (key ∈ seen) then err_at idx [F "变量重复定义: "; D name]
              else
                match map_err (λ e, vel_err (at_line idx e)) (parse_expr key (trim rhs)) with
                | Err e => Err e
                | Ok var => parse_lines (S idx) ls ({[key]} ∪ seen) (out ++ [var])
                end
        end
  end.

Definition parse (code : str) : KnowledgeResult (list VarDef) :=
  parse_lines 0 (lines code) ∅ [].

(** ** Evaluation *)

Definition phase_index (period_s bucket_s : N) (offset_slots : Z) (now_ns : N) : N :=
  let period_ns := saturating_mul period_s 1000000000 in
  let bucket_ns := saturating_mul bucket_s 1000000000 in
  let t := if (0 <=? offset_slots)%Z
           then saturating_add now_ns (saturating_mul (Z.to_N offset_slots) bucket_ns)
           else saturating_sub now_ns (saturating_mul (Z.to_N (- offset_slots)) bucket_ns) in
  ((t `mod` period_ns) `div` bucket_ns)%N.

Definition phase_params_ok (period_s bucket_s : N) : bool :=
  let period_ns := saturating_mul period_s 1000000000 in
  let bucket_ns := saturating_mul bucket_s 1000000000 in
  negb ((period_ns =? 0)%N || (bucket_ns =? 0)%N || (period_ns <? bucket_ns)%N).

Definition eval_def (now_ns : N) (d : VarDef) : KnowledgeResult (str * str) :=
  match d with
  | Literal name value => Ok (name, value)
  | PhaseBucket name period_s bucket_s offset_slots prefix =>
      if phase_params_ok period_s bucket_s
      then Ok (name, prefix ++ dec (phase_index period_s bucket_s offset_slots now_ns))
      else Err (vel_err [F "$"; D name; F ": 相位参数非法（须 0<桶≤周期）: period=";
                         Num period_s; F " bucket="; Num bucket_s])
  end.

Fixpoint eval_defs (now_ns : N) (defs : list VarDef) (out : list (str * str))
  : KnowledgeResult (list (str * str)) :=
  match defs with
  | [] => Ok out
  | d :: defs =>
      match eval_def now_ns d with
      | Ok kv => eval_defs now_ns defs (out ++ [kv])
      | Err e => Err e
      end
  end.

Definition eval (code : str) (now_ns : N) : KnowledgeResult (list (str * str)) :=
  defs ← parse code;
  eval_defs now_ns defs [].

(** ** Substitution *)

(** [vars.iter().collect::<HashMap<_, _>>()]: a later pair wins *)
Definition vars_map (vars : list (str * str)) : gmap str str :=
  foldl (λ m '(k, v), <[k := v]> m) ∅ vars.

(** the [while let Some(pos) = rest.find('$')] loop; [None] is fuel exhaustion *)
Fixpoint resolve_loop (fuel : nat) (m : gmap str str) (rest out : str) : option str :=
  match fuel with
  | 0 => None
  | S fuel =>
      match find_char DOLLAR rest with
      | None => Some (out ++ rest)
      | Some pos =>
          let out := out ++ take pos rest in
          let rest := drop (S pos) rest in
          match rest with
          | [] => Some ((out ++ [DOLLAR]) ++ rest)
          | first :: _ =>
              if negb (is_name_start first) then resolve_loop fuel m rest (out ++ [DOLLAR])
              else
                let end_ := span is_name_char rest in
                let ident := take end_ rest in
                match m !! ident with
                | Some value => resolve_loop fuel m (drop end_ rest) (out ++ value)
                | None => resolve_loop fuel m (drop end_ rest) ((out ++ [DOLLAR]) ++ ident)
                end
          end
      end
  end.

Definition resolve_vars (sql : str) (vars : list (str * str)) : str :=
  if bool_decide (vars = []) then sql
  else default [] (resolve_loop (S (length sql)) (vars_map vars) sql []).

Definition render (sql code : str) (now_ns : N) : KnowledgeResult str :=
  if bool_decide (trim code = []) then Ok sql
  else
    vars ← eval code now_ns;
    Ok (resolve_vars sql vars).

(** the system time since the epoch in nanoseconds, absent before it; [as u64] *)
Definition current_wall_nanos (since_epoch : option N) : N :=
  from_option wrap64 0%N since_epoch.

(** ** Specification of substitution *)

(** A template is a sequence of plain bytes and [$name] placeholders, the name
    being the longest identifier after the dollar. *)
Inductive seg := Chr (c : N) | Var (ident : str).

Definition ident_ok (id : str) : Prop :=
  (∃ c, head id = Some c ∧ is_name_start c = true) ∧ Forall (λ c, is_name_char c = true) id.

Inductive lexes : str → list seg → Prop :=
| lexes_nil : lexes [] []
| lexes_chr c s l : c ≠ DOLLAR → lexes s l → lexes (c :: s) (Chr c :: l)
| lexes_dollar s l :
    (∀ c, head s = Some c → is_name_start c = false) →
    lexes s l → lexes (DOLLAR :: s) (Chr DOLLAR :: l)
| lexes_var id s l :
    ident_ok id → (∀ c, head s = Some c → is_name_char c = false) →
    lexes s l → lexes (DOLLAR :: id ++ s) (Var id :: l).

Definition subst_seg (m : gmap str str) (g : seg) : str :=
  match g with Chr c => [c] | Var id => default (DOLLAR :: id) (m !! id) end.

Definition subst_segs (m : gmap str str) (l : list seg) : str := concat (subst_seg m <$> l).

Lemma subst_segs_app m l1 l2 : subst_segs m (l1 ++ l2) = subst_segs m l1 ++ subst_segs m l2.
Proof. unfold subst_segs. by rewrite fmap_app, concat_app. Qed.

Lemma subst_segs_chars m s : subst_segs m (Chr <$> s) = s.
Proof. unfold subst_segs. induction s; simpl; [done|]. by f_equal. Qed.

Lemma lexes_chars p s l :
  Forall (λ c, c ≠ DOLLAR) p → lexes s l → lexes (p ++ s) ((Chr <$> p) ++ l).
Proof. intros Hp Hl. induction Hp; simpl; [done|]. by constructor. Qed.

Lemma subst_segs_cons m g l : subst_segs m (g :: l) = subst_seg m g ++ subst_segs m l.
Proof. done. Qed.

Lemma lexes_subst_empty s l : lexes s l → subst_segs ∅ l = s.
Proof.
  induction 1 as [|c s l Hc _ IH|s l Hs _ IH|id s l Hid Hs _ IH];
    rewrite ?subst_segs_cons, ?IH; done.
Qed.

Lemma name_start_char c : is_name_start c = true → is_name_char c = true.
Proof.
  unfold is_name_start, is_name_char, is_ascii_alphanumeric.
  by intros [-> | ->]%orb_prop; rewrite ?orb_true_r.
Qed.

Lemma span_head p s c : head s = Some c → p c = true → span p s ≠ 0.
Proof. destruct s; simpl; [done|]. intros [= ->] ->. done. Qed.

(** One [$] followed by an identifier: the longest run of name bytes. *)
Lemma span_ident s c :
  head s = Some c → is_name_start c = true → ident_ok (take (span is_name_char s) s).
Proof.
  intros Hh Hc. split; [|apply span_take]. exists c. split; [|done].
  destruct s as [|x s]; simpl in *; [done|]. injection Hh as ->.
  by rewrite (name_start_char _ Hc).
Qed.

Lemma resolve_loop_lexes m fuel rest out :
  length rest < fuel →
  ∃ l, lexes rest l ∧ resolve_loop fuel m rest out = Some (out ++ subst_segs m l).
Proof.
  revert rest out. induction fuel as [|fuel IH]; intros rest out Hlt; [lia|]. cbn [resolve_loop].
  destruct (find_char DOLLAR rest) as [pos|] eqn:Hf.
  2:{ apply find_by_None in Hf. exists (Chr <$> rest). rewrite subst_segs_chars.
      split; [|done]. assert (lexes (rest ++ []) ((Chr <$> rest) ++ [])) as Hl.
      { apply lexes_chars; [|constructor]. eapply Forall_impl; [exact Hf|].
        intros c. apply N.eqb_neq. }
      by rewrite !app_nil_r in Hl. }
  apply find_by_Some in Hf as (c & Hc & ->%N.eqb_eq & Hp).
  assert (rest = take pos rest ++ DOLLAR :: drop (S pos) rest) as Hrest.
  { by rewrite <-(drop_lookup_cons _ _ _ Hc), take_drop. }
  assert (Forall (λ c, c ≠ DOLLAR) (take pos rest)) as Hpre.
  { eapply Forall_impl; [exact Hp|]. intros c. apply N.eqb_neq. }
  assert (length (drop (S pos) rest) < fuel) as Hlt'.
  { apply lookup_lt_Some in Hc. rewrite length_drop. lia. }
  revert Hrest Hpre Hlt'. generalize (take pos rest) (drop (S pos) rest).
  intros pre tl -> Hpre Hlt'.
  (* the segments after the plain prefix, whatever they are *)
  assert (∀ l t s', lexes (DOLLAR :: tl) (t :: l) → s' = subst_segs m l →
    ∃ l0, lexes (pre ++ DOLLAR :: tl) l0
        ∧ Some (((out ++ pre) ++ subst_seg m t) ++ s') = Some (out ++ subst_segs m l0)) as Hstep.
  { intros l t s' Hl ->. exists ((Chr <$> pre) ++ t :: l). split; [by apply lexes_chars|].
    rewrite subst_segs_app, subst_segs_chars. by rewrite <-!app_assoc. }
  destruct tl as [|first tl].
  { apply (Hstep [] (Chr DOLLAR) []); [by apply lexes_dollar; [|constructor]|done]. }
  destruct (is_name_start first) eqn:Hstart; simpl negb; cbn iota.
  - set (s := first :: tl) in *. set (n := span is_name_char s).
    assert (ident_ok (take n s)) as Hid by (by eapply span_ident).
    assert (length (drop n s) < fuel) as Hlt2 by (rewrite length_drop; lia).
    destruct (IH (drop n s) ((out ++ pre) ++ subst_seg m (Var (take n s))) Hlt2) as (l & Hl & Heq).
    assert (lexes (DOLLAR :: s) (Var (take n s) :: l)) as Hlex.
    { rewrite <-(take_drop n s) at 1. constructor; [done| |done]. intros c. apply span_drop. }
    destruct (Hstep _ _ _ Hlex eq_refl) as (l0 & Hl0 & Heq0).
    exists l0. split; [done|]. rewrite <-Heq0, <-Heq. simpl.
    destruct (m !! take n s); simpl; [done|]. by rewrite <-app_assoc.
  - destruct (IH (first :: tl) ((out ++ pre) ++ [DOLLAR]) Hlt') as (l & Hl & Heq).
    rewrite Heq. apply (Hstep l (Chr DOLLAR)); [|done].
    apply lexes_dollar; [|done]. by intros ? [= <-].
Qed.

Lemma ident_split id1 s1 id2 s2 :
  ident_ok id1 → ident_ok id2 → id1 ++ s1 = id2 ++ s2 →
  (∀ c, head s1 = Some c → is_name_char c = false) →
  (∀ c, head s2 = Some c → is_name_char c = false) → id1 = id2 ∧ s1 = s2.
Proof.
  intros [_ H1] [_ H2] Heq Hs1 Hs2.
  assert (length id1 = length id2) as Hlen.
  { by rewrite <-(span_app is_name_char id1 s1), Heq, span_app by done. }
  by apply app_inj_1.
Qed.

Lemma ident_head id s :
  ident_ok id → ¬ (∀ c, head (id ++ s) = Some c → is_name_start c = false).
Proof.
  intros [(c & Hc & Hst) _] Hs. destruct id as [|d id]; [done|]. simplify_eq/=.
  by rewrite (Hs _ eq_refl) in Hst.
Qed.

Lemma lexes_det s l1 l2 : lexes s l1 → lexes s l2 → l1 = l2.
Proof.
  intros H1. revert l2.
  induction H1 as [|c s l Hc _ IH|s l Hs _ IH|id s l Hid Hs _ IH]; intros l2 H2;
    inversion H2 as [|c' s' l' Hc' Hl'|s' l' Hs' Hl'|id' s' l' Hid' Hs' Hl']; simplify_eq;
    try (f_equal; auto; fail); try (exfalso; eapply ident_head; eassumption).
  destruct (ident_split id s id' s') as [-> ->]; [done..|]. f_equal. auto.
Qed.

(** C28. [resolve_vars] is single-pass, identifier-aware substitution: the
    template has exactly one decomposition into plain bytes and [$name]
    placeholders with longest names, the decomposition spells the template,
    and the result replaces each placeholder whose name is bound (a later
    binding winning) and keeps every other segment.  In particular [$cur]
    never touches [$cur2] and values are not scanned again. *)
Theorem resolve_vars_spec sql vars :
  ∃ l, lexes sql l ∧ (∀ l', lexes sql l' → l' = l)
     ∧ subst_segs ∅ l = sql
     ∧ resolve_vars sql vars = subst_segs (vars_map vars) l.
Proof.
  destruct (resolve_loop_lexes (vars_map vars) (S (length sql)) sql []) as (l & Hl & Heq); [lia|].
  exists l. split; [done|]. split; [intros l' Hl'; by eapply lexes_det|].
  split; [by apply lexes_subst_empty|]. unfold resolve_vars. rewrite Heq.
  case_bool_decide as Hv; [subst vars; symmetry; by apply lexes_subst_empty|done].
Qed.

(** ** Evaluation facts *)

Lemma phase_fold (t q P B : N) :
  (0 < q)%N → ((t `mod` (P * q)) `div` (B * q) = ((t `div` q) `mod` P) `div` B)%N.
Proof.
  intros Hq. rewrite (N.mul_comm P q), (N.mul_comm B q), <-N.Div0.div_div, N.Div0.mod_mul_r.
  f_equal. rewrite N.add_comm, N.mul_comm, N.div_add_l by lia.
  by rewrite (N.div_small (t `mod` q) q), N.add_0_r by (apply N.mod_lt; lia).
Qed.

(** C27. A phase label: with a period and a bucket in seconds, the evaluator
    accepts exactly [0 < bucket <= period], and then the label is the prefix
    followed by the documented fold [(t mod period) div bucket] of the time in
    whole seconds, shifted by one bucket for [phase_next]; the fold stays in
    the period and nothing saturates below the clock bound. *)
Theorem eval_phase_label name P B off prefix now :
  off ∈ [0; 1]%Z → (P * 1000000000 ≤ u64_max)%N → (B * 1000000000 ≤ u64_max)%N →
  (now + B * 1000000000 ≤ u64_max)%N →
  let slot := (((now `div` 1000000000 + Z.to_N off * B) `mod` P) `div` B)%N in
  (if (0 <? B)%N && (B <=? P)%N
   then eval_def now (PhaseBucket name P B off prefix) = Ok (name, prefix ++ dec slot)
        ∧ (slot * B < P)%N
   else is_ok (eval_def now (PhaseBucket name P B off prefix)) = false).
Proof.
  intros Hoff HP HB Hnow slot.
  assert (saturating_mul P 1000000000 = P * 1000000000)%N as EP by (unfold saturating_mul; lia).
  assert (saturating_mul B 1000000000 = B * 1000000000)%N as EB by (unfold saturating_mul; lia).
  unfold eval_def, phase_params_ok. rewrite EP, EB.
  destruct ((0 <? B)%N && (B <=? P)%N) eqn:Hg; bool_guard.
  - replace (negb _) with true.
    2:{ symmetry. apply negb_true_iff. rewrite !orb_false_iff, !N.eqb_neq, N.ltb_ge. lia. }
    split; [|unfold slot; pose proof (N.mod_lt (now `div` 1000000000 + Z.to_N off * B) P);
             pose proof (N.Div0.mul_div_le ((now `div` 1000000000 + Z.to_N off * B) `mod` P) B);
             lia].
    do 4 f_equal. unfold phase_index, slot. rewrite EP, EB, phase_fold by lia. do 3 f_equal.
    apply elem_of_cons in Hoff as [-> | ->%list_elem_of_singleton]; simpl.
    + unfold saturating_add, saturating_mul. change (Z.to_N 0) with 0%N. do 1 f_equal. lia.
    + unfold saturating_add, saturating_mul. change (Z.to_N 1) with 1%N.
      rewrite !N.mul_1_l, N.min_l, N.min_l, N.div_add by lia. done.
  - destruct (0 <? B)%N eqn:HB0; simpl in Hg; bool_guard.
    + assert ((P * 1000000000 <? B * 1000000000)%N = true) as -> by (apply N.ltb_lt; lia).
      by rewrite orb_true_r.
    + replace B with 0%N by lia. simpl. by rewrite orb_true_r.
Qed.

Lemma eval_phase_label_witness :
  eval_def 225000000000 (PhaseBucket (lit "next") 240 15 1 (lit "p"))
  = Ok (lit "next", lit "p" ++ dec 0) ∧ (0 * 15 < 240)%N.
Proof.
  apply (eval_phase_label (lit "next") 240 15 1 (lit "p") 225000000000);
    [set_solver|vm_compute; discriminate..].
Defined.

(** ** Parsing facts *)

Definition wf_def (d : VarDef) : Prop :=
  match d with
  | Literal _ value => Forall (λ c, c ≠ DQUOTE) value
  | PhaseBucket _ P B off _ => (P ≤ u64_max)%N ∧ (B ≤ u64_max)%N ∧ off ∈ [0; 1]%Z
  end.

Lemma parse_digits_bound s acc n :
  (acc ≤ u64_max)%N → parse_digits s acc = Some n → (n ≤ u64_max)%N.
Proof.
  revert acc. induction s as [|c s IH]; intros acc Ha; simpl; [by intros [= ->]|].
  repeat case_match; try done. apply IH. by apply N.leb_le.
Qed.

Lemma parse_u64_bound s n : parse_u64 s = Some n → (n ≤ u64_max)%N.
Proof. unfold parse_u64. repeat case_match; try done; by apply parse_digits_bound. Qed.

Lemma phase_def_wf name fname off a0 a1 a2 d :
  off ∈ [0; 1]%Z → phase_def name fname off a0 a1 a2 = Ok d → def_name d = name ∧ wf_def d.
Proof.
  unfold phase_def, num_arg, ok_or. intros Hoff.
  destruct (parse_u64 a0) eqn:H0, (parse_u64 a1) eqn:H1; simpl; try done.
  destruct (prefix_arg a2); simpl; [|done]. intros [= <-]. simpl.
  split_and!; eauto using parse_u64_bound.
Qed.

Lemma call_dispatch_wf name fname args d :
  call_dispatch name fname args = Ok d → def_name d = name ∧ wf_def d.
Proof.
  unfold call_dispatch. intros H. repeat case_match; try done;
    (eapply phase_def_wf; [|exact H]; set_solver).
Qed.

Lemma parse_expr_wf name expr d :
  parse_expr name expr = Ok d → def_name d = name ∧ wf_def d.
Proof.
  unfold parse_expr. intros H. repeat case_match; try done.
  - destruct (validate_tail _ _); simpl in H; [|done]. injection H as <-. split; [done|].
    match goal with Hf : find_char _ _ = Some _ |- _ =>
      apply find_by_Some in Hf as (_ & _ & _ & Hall) end.
    simpl. eapply Forall_impl; [exact Hall|]. intros c. apply N.eqb_neq.
  - destruct (validate_tail _ _); [|done]. eapply call_dispatch_wf. exact H.
  - destruct (validate_tail _ _); [|done]. eapply call_dispatch_wf. exact H.
Qed.

Lemma valid_lhs_ident name : valid_lhs name = true → ident_ok (drop 1 name).
Proof.
  unfold valid_lhs.
  intros [[[_ Hlen%bool_decide_eq_true]%andb_prop Hst]%andb_prop Hall]%andb_prop.
  split.
  - destruct (drop 1 name) as [|c s] eqn:Hd; [|by exists c].
    apply (f_equal length) in Hd. rewrite length_drop in Hd. simpl in Hd. lia.
  - apply List.Forall_forall. by apply List.forallb_forall.
Qed.

(** The invariant of the parser's loop: the variables parsed so far are the
    names seen, without repetition. *)
Lemma parse_lines_wf ls idx seen out defs :
  seen = list_to_set (def_name <$> out) →
  NoDup (def_name <$> out) → Forall (λ d, ident_ok (def_name d) ∧ wf_def d) out →
  parse_lines idx ls seen out = Ok defs →
  NoDup (def_name <$> defs) ∧ Forall (λ d, ident_ok (def_name d) ∧ wf_def d) defs
  ∧ length defs ≤ length out + length ls.
Proof.
  revert idx seen out. induction ls as [|raw ls IH]; intros idx seen out Hseen Hnd Hwf Hp;
    simpl in Hp; [injection Hp as <-; split_and!; [done..|lia]|].
  destruct (bool_decide (trim raw = []) || starts_with HASH (trim raw)).
  { edestruct IH as (? & ? & ?); [done..|exact Hp|]. split_and!; [done..|simpl; lia]. }
  destruct (split_once EQUALS (trim raw)) as [[lhs rhs]|]; [|done].
  destruct (valid_lhs (trim lhs)) eqn:Hv; simpl in Hp; [|done].
  case_bool_decide as Hin; [done|].
  destruct (parse_expr (drop 1 (trim lhs)) (trim rhs)) as [d|] eqn:He; simpl in Hp; [|done].
  apply parse_expr_wf in He as [Hname Hwd]. apply valid_lhs_ident in Hv.
  edestruct (IH (S idx) ({[drop 1 (trim lhs)]} ∪ seen) (out ++ [d])) as (? & ? & Hlen);
    [| | |exact Hp|].
  - rewrite fmap_app, list_to_set_app_L, Hseen, <-Hname. simpl.
    by rewrite (union_comm_L {[_]}), (right_id_L ∅ (∪)).
  - rewrite fmap_app. apply NoDup_app. split_and!; [done| |apply NoDup_singleton].
    intros x Hx ->%list_elem_of_singleton. apply Hin. subst seen. rewrite <-Hname.
    by apply elem_of_list_to_set.
  - apply Forall_app. split; [done|]. constructor; [|done]. by rewrite Hname.
  - split_and!; [done..|]. rewrite length_app in Hlen. simpl in *. lia.
Qed.

(** What a successful parse guarantees: the variables are pairwise
    distinct identifiers, at most one per line, literals hold no quote and
    phase numbers fit u64 with an offset of zero or one slot. *)
Theorem parse_sound code defs :
  parse code = Ok defs →
  NoDup (def_name <$> defs)
  ∧ Forall (λ d, ident_ok (def_name d) ∧ wf_def d) defs
  ∧ length defs ≤ length (lines code).
Proof.
  intros H. apply (parse_lines_wf (lines code) 0 ∅ [] defs);
    [done|apply NoDup_nil_2|constructor|exact H].
Qed.

Lemma parse_sound_witness :
  parse (lit "$cur = phase_now(240, 15) # now") = Ok [PhaseBucket (lit "cur") 240 15 0 (lit "p")]
  ∧ NoDup (def_name <$> [PhaseBucket (lit "cur") 240 15 0 (lit "p")]).
Proof.
  split; [vm_compute; reflexivity|].
  eapply (parse_sound (lit "$cur = phase_now(240, 15) # now")). vm_compute. reflexivity.
Defined.

(** ** Printing *)

Definition print_args (P B : N) (prefix : str) : str :=
  dec P ++ lit ", " ++ dec B ++ lit ", " ++ [DQUOTE] ++ prefix ++ [DQUOTE].

Definition print_rhs (d : VarDef) : str :=
  match d with
  | Literal _ value => [DQUOTE] ++ value ++ [DQUOTE]
  | PhaseBucket _ P B off prefix =>
      (if decide (off = 0%Z) then lit "phase_now(" else lit "phase_next(")
      ++ print_args P B prefix ++ [RPAREN]
  end.

Definition print_def (d : VarDef) : str :=
  [DOLLAR] ++ def_name d ++ lit " = " ++ print_rhs d.

Definition print_code (defs : list VarDef) : str :=
  concat ((λ l, l ++ [LF]) <$> (print_def <$> defs)).

(** what the surface syntax can spell: no line feed anywhere, no quote inside
    a literal, no comma inside a prefix *)
Definition printable (d : VarDef) : Prop :=
  wf_def d ∧ ident_ok (def_name d) ∧
  match d with
  | Literal _ value => Forall (λ c, c ≠ LF) value
  | PhaseBucket _ _ _ _ prefix => Forall (λ c, c ≠ LF ∧ c ≠ COMMA) prefix
  end.

Lemma name_char_facts c :
  is_name_char c = true →
  c ≠ EQUALS ∧ c ≠ LF ∧ c ≠ COMMA ∧ c ≠ LPAREN ∧ solid c = true.
Proof.
  unfold is_name_char, is_ascii_alphanumeric, is_ascii_alphabetic, is_ascii_upper,
    is_ascii_lower, is_ascii_digit, solid, ascii_ws.
  intros H.
  assert ((48 ≤ c ≤ 57 ∨ 65 ≤ c ≤ 90 ∨ c = 95 ∨ 97 ≤ c ≤ 122)%N) as Hc.
  { repeat (apply orb_prop in H as [H|H]); bool_guard; lia. }
  split_and!; try lia.
  apply andb_true_intro; split; [apply N.ltb_lt; lia|].
  apply negb_true_iff, orb_false_iff; split; [|apply N.eqb_neq; lia].
  apply andb_false_iff. right. apply N.leb_gt. lia.
Qed.

Lemma digit_name_char c : is_ascii_digit c = true → is_name_char c = true.
Proof. unfold is_name_char, is_ascii_alphanumeric. intros ->. by rewrite orb_true_r. Qed.

Lemma solid_ends_snoc c s d :
  solid c = true → solid d = true → solid_ends (c :: s ++ [d]).
Proof. intros Hc Hd. split; [by eexists _, _|]. exists d, (c :: s). done. Qed.

Lemma solid_ends_names s c t :
  s = c :: t → solid c = true → Forall (λ c, is_name_char c = true) t → solid_ends s.
Proof.
  intros -> Hc Ht. split; [by eexists _, _|].
  destruct t as [|d t _] using rev_ind; [by exists c, []|].
  exists d, (c :: t). split; [done|]. apply Forall_app in Ht as [_ Ht].
  inversion Ht. by apply name_char_facts.
Qed.

Lemma dec_solid n : solid_ends (dec n).
Proof.
  destruct (dec_cons n) as (c & t & Heq & Hc). pose proof (dec_digits n) as Hd. rewrite Heq in Hd.
  apply (solid_ends_names _ c t); [done|by apply name_char_facts, digit_name_char|].
  inversion Hd as [|? ? _ Ht]. eapply Forall_impl; [exact Ht|]. apply digit_name_char.
Qed.

Lemma dec_no_comma n : Forall (λ c, c ≠ COMMA ∧ c ≠ LF) (dec n).
Proof.
  eapply Forall_impl; [apply dec_digits|]. intros c Hc.
  by apply digit_name_char, name_char_facts in Hc as (_ & ? & ? & _).
Qed.

Lemma trim_space s : solid_ends s → trim (SPACE :: s) = s.
Proof.
  intros H. rewrite <-(app_nil_r s) at 1.
  by apply (trim_pad [SPACE] s []); [repeat constructor|constructor|].
Qed.

(** A call spelled without trailing text reaches the dispatch with its
    trimmed arguments. *)
Lemma parse_expr_call name c fname body :
  let fn := c :: fname in
  c ≠ DQUOTE → Forall (λ x, x ≠ LPAREN) fn → solid_ends fn → solid_ends body →
  parse_expr name (fn ++ LPAREN :: body ++ [RPAREN])
  = call_dispatch name fn (trim <$> split_char COMMA body).
Proof.
  intros fn Hc Hfn Hsf Hsb. unfold parse_expr.
  assert (trim (fn ++ LPAREN :: body ++ [RPAREN]) = fn ++ LPAREN :: body ++ [RPAREN]) as ->.
  { apply trim_solid. destruct Hsf as [(c' & t & [= <- _] & Hsc) _].
    replace (fn ++ LPAREN :: body ++ [RPAREN]) with (c :: (fname ++ LPAREN :: body) ++ [RPAREN])
      by (unfold fn; simpl; by rewrite <-app_assoc).
    by apply solid_ends_snoc. }
  assert (prefix_of [DQUOTE] (fn ++ LPAREN :: body ++ [RPAREN]) = false) as ->.
  { unfold fn. cbn [app prefix_of]. rewrite andb_true_r. apply N.eqb_neq. congruence. }
  assert (find_char LPAREN (fn ++ LPAREN :: body ++ [RPAREN]) = Some (length fn)) as ->.
  { apply find_by_app; [|done]. eapply Forall_impl; [exact Hfn|]. intros x. apply N.eqb_neq. }
  set (all := fn ++ LPAREN :: body ++ [RPAREN]).
  assert (all = (fn ++ LPAREN :: body) ++ [RPAREN]) as Hall by (unfold all; by rewrite <-app_assoc).
  assert (rfind_char RPAREN all = Some (length (fn ++ LPAREN :: body))) as ->.
  { rewrite Hall. by apply rfind_char_app. }
  rewrite bool_decide_false by (rewrite length_app; simpl; lia).
  assert (drop (S (length (fn ++ LPAREN :: body))) all = []) as ->.
  { rewrite Hall. apply drop_app_cons. }
  assert (take (S (length (fn ++ LPAREN :: body))) all = all) as ->.
  { rewrite Hall, take_app_S. done. }
  change (validate_tail [] all) with (Ok (E := list Frag) tt). simpl mbind. cbv beta.
  unfold all. rewrite take_app_length, drop_app_cons.
  replace (length (fname ++ LPAREN :: body) - S (length fname)) with (length body)
    by (rewrite length_app; simpl; lia).
  rewrite take_app_length. fold fn. rewrite (trim_solid fn), (trim_solid body) by done.
  rewrite bool_decide_false; [done|]. by destruct Hsb as [(? & ? & -> & _) _].
Qed.

(** What the parser makes of a printed right-hand side. *)
Lemma parse_expr_literal name value :
  Forall (λ c, c ≠ DQUOTE) value →
  parse_expr name ([DQUOTE] ++ value ++ [DQUOTE]) = Ok (Literal name value).
Proof.
  intros Hv. unfold parse_expr. rewrite trim_solid by (by apply solid_ends_snoc).
  simpl. unfold find_char. rewrite drop_0, find_by_app;
    [|eapply Forall_impl; [exact Hv|]; intros c; apply N.eqb_neq|done].
  by rewrite drop_app_cons, take_app_length.
Qed.

Lemma print_args_solid P B prefix : solid_ends (print_args P B prefix).
Proof.
  unfold print_args. destruct (dec_solid P) as [(c & t & -> & Hc) _]. split; [by eexists _, _|].
  exists DQUOTE. eexists. split; [|done]. by rewrite !app_assoc.
Qed.

Lemma split_args P B prefix :
  Forall (λ c, c ≠ LF ∧ c ≠ COMMA) prefix →
  trim <$> split_char COMMA (print_args P B prefix)
  = [dec P; dec B; [DQUOTE] ++ prefix ++ [DQUOTE]].
Proof.
  intros Hp.
  assert (∀ n, Forall (λ c, c ≠ COMMA) (dec n)) as Hd.
  { intros n. eapply Forall_impl; [apply dec_no_comma|]. by intros c [? _]. }
  unfold split_char, print_args. change (lit ", ") with [COMMA; SPACE]. cbn [app].
  rewrite split_go_app by done.
  change (SPACE :: dec B ++ ?k) with ((SPACE :: dec B) ++ k).
  rewrite split_go_app by (by constructor).
  rewrite split_go_last.
  - cbn [fmap list_fmap app]. rewrite trim_solid by apply dec_solid.
    rewrite trim_space by apply dec_solid. rewrite trim_space by (by apply solid_ends_snoc). done.
  - constructor; [done|]. constructor; [done|]. apply Forall_app. split; [|by repeat constructor].
    eapply Forall_impl; [exact Hp|]. by intros c [_ ?].
Qed.

Lemma parse_expr_phase name P B off prefix :
  (P ≤ u64_max)%N → (B ≤ u64_max)%N → off ∈ [0; 1]%Z →
  Forall (λ c, c ≠ LF ∧ c ≠ COMMA) prefix →
  parse_expr name ((if decide (off = 0%Z) then lit "phase_now(" else lit "phase_next(")
                   ++ print_args P B prefix ++ [RPAREN])
  = Ok (PhaseBucket name P B off prefix).
Proof.
  intros HP HB Hoff Hp.
  assert (∃ c fname, (if decide (off = 0%Z) then lit "phase_now(" else lit "phase_next(")
                     = (c :: fname) ++ [LPAREN]
    ∧ c :: fname = (if decide (off = 0%Z) then lit "phase_now" else lit "phase_next")
    ∧ solid c = true ∧ c ≠ DQUOTE ∧ Forall (λ c, is_name_char c = true) fname)
    as (c & fname & -> & Hfn & Hsol & Hq & Hnames).
  { case_decide; [exists 112%N, (lit "hase_now")|exists 112%N, (lit "hase_next")];
      split_and!; try reflexivity; try discriminate; by repeat constructor. }
  rewrite <-app_assoc. cbn [app]. rewrite app_comm_cons, parse_expr_call;
    [|done| |by eapply solid_ends_names|apply print_args_solid].
  - rewrite split_args by done. rewrite Hfn.
    assert (prefix_arg (Some ([DQUOTE] ++ prefix ++ [DQUOTE])) = Ok prefix) as Hpa.
    { unfold prefix_arg, ends_with. cbn [app]. rewrite app_comm_cons, last_snoc. simpl.
      rewrite bool_decide_true by (rewrite length_app; simpl; lia).
      rewrite drop_0, length_app. simpl.
      replace (length prefix + 1 - 0 - 1) with (length prefix) by lia.
      by rewrite take_app_length. }
    assert (∀ fname, phase_def name fname off (dec P) (dec B) (Some ([DQUOTE] ++ prefix ++ [DQUOTE]))
                     = Ok (PhaseBucket name P B off prefix)) as Hdef.
    { intros fname'. unfold phase_def, num_arg. rewrite !parse_u64_dec, Hpa by done. done. }
    apply elem_of_cons in Hoff as [-> | ->%list_elem_of_singleton]; exact (Hdef _).
  - apply Forall_cons. split; [|eapply Forall_impl; [exact Hnames|]; intros x; apply name_char_facts].
    intros ->. revert Hfn. case_decide; discriminate.
Qed.

Lemma print_def_rhs d :
  print_def d = (DOLLAR :: def_name d ++ [SPACE]) ++ EQUALS :: SPACE :: print_rhs d.
Proof.
  unfold print_def. change (lit " = ") with [SPACE; EQUALS; SPACE]. simpl. f_equal.
  by rewrite <-app_assoc.
Qed.

Lemma parse_expr_rhs d :
  printable d → parse_expr (def_name d) (print_rhs d) = Ok d.
Proof.
  intros (Hwf & _ & Hp). destruct d as [n v|n P B off pf]; simpl in *.
  - by apply parse_expr_literal.
  - destruct Hwf as (HP & HB & Hoff). by apply parse_expr_phase.
Qed.

Lemma print_rhs_solid d : solid_ends (print_rhs d).
Proof.
  destruct d as [n v|n P B off pf]; simpl; [by apply solid_ends_snoc|].
  case_decide;
    [change (lit "phase_now(") with (112%N :: lit "hase_now(")
    |change (lit "phase_next(") with (112%N :: lit "hase_next(")];
    rewrite <-app_comm_cons, app_assoc; by apply solid_ends_snoc.
Qed.

Lemma ident_solid id : ident_ok id → solid_ends (DOLLAR :: id).
Proof. intros [_ H]. by apply (solid_ends_names _ DOLLAR id). Qed.

Lemma ident_valid_lhs id : ident_ok id → valid_lhs (DOLLAR :: id) = true.
Proof.
  intros [(c & Hc & Hst) Hall]. unfold valid_lhs. simpl. rewrite drop_0, Hc. simpl.
  rewrite Hst, bool_decide_true by (destruct id; simpl in *; [done|lia]). simpl.
  by apply List.forallb_forall, List.Forall_forall.
Qed.

Lemma print_def_solid d : solid_ends (print_def d).
Proof.
  rewrite print_def_rhs. destruct (print_rhs_solid d) as [_ (c & t & -> & Hc)].
  split; [by eexists _, _|]. exists c. eexists. split; [|done].
  by rewrite !app_comm_cons, app_assoc.
Qed.

Lemma parse_lines_print d ls idx seen out :
  printable d → def_name d ∉ seen →
  parse_lines idx (print_def d :: ls) seen out
  = parse_lines (S idx) ls ({[def_name d]} ∪ seen) (out ++ [d]).
Proof.
  intros Hpr Hin. pose proof Hpr as (_ & Hid & _). cbn [parse_lines].
  rewrite trim_solid by apply print_def_solid. rewrite print_def_rhs.
  rewrite bool_decide_false by done. cbn [starts_with app].
  change (DOLLAR =? HASH)%N with false. cbn [orb].
  rewrite !app_comm_cons, split_once_app.
  2:{ constructor; [done|]. apply Forall_app. split; [|by repeat constructor].
      destruct Hid as [_ Hall]. eapply Forall_impl; [exact Hall|]. intros c. apply name_char_facts. }
  change (DOLLAR :: def_name d ++ [SPACE]) with ((DOLLAR :: def_name d) ++ [SPACE]).
  assert (trim ((DOLLAR :: def_name d) ++ [SPACE]) = DOLLAR :: def_name d) as ->.
  { apply (trim_pad [] (DOLLAR :: def_name d) [SPACE]);
      [constructor|by repeat constructor|by apply ident_solid]. }
  rewrite ident_valid_lhs by done. cbn [negb].
  change (drop 1 (DOLLAR :: def_name d)) with (drop 0 (def_name d)). rewrite drop_0.
  rewrite bool_decide_false by done. rewrite trim_space by apply print_rhs_solid.
  by rewrite parse_expr_rhs.
Qed.

Lemma parse_lines_prints defs idx seen out :
  Forall printable defs → NoDup (def_name <$> defs) →
  (∀ d, d ∈ defs → def_name d ∉ seen) →
  parse_lines idx (print_def <$> defs) seen out = Ok (out ++ defs).
Proof.
  intros Hpr. revert idx seen out.
  induction Hpr as [|d defs Hd _ IH]; intros idx seen out Hnd Hseen; simpl fmap.
  - cbn [parse_lines]. by rewrite app_nil_r.
  - inversion Hnd as [|? ? Hnot Hnd']; simplify_eq.
    rewrite parse_lines_print by (try done; apply Hseen; left).
    rewrite IH; [by rewrite <-app_assoc|done|].
    intros e He [Heq%elem_of_singleton|Hs]%elem_of_union; [|eapply Hseen; [right|]; done].
    apply Hnot. rewrite <-Heq. by apply list_elem_of_fmap_2.
Qed.

Lemma print_def_lines d : printable d → Forall (λ c, c ≠ LF) (print_def d).
Proof.
  intros (_ & [_ Hid] & Hp).
  assert (Forall (λ c, c ≠ LF) (def_name d)) as Hn.
  { eapply Forall_impl; [exact Hid|]. intros c. apply name_char_facts. }
  assert (∀ n, Forall (λ c, c ≠ LF) (dec n)) as Hd.
  { intros n. eapply Forall_impl; [apply dec_no_comma|]. by intros c [_ ?]. }
  destruct d as [n v|n P B off pf]; simpl in *;
    repeat first [apply Forall_app; split | apply Forall_cons; split]; try done;
    try (by repeat constructor).
  - case_decide; by repeat constructor.
  - eapply Forall_impl; [exact Hp|]. by intros c [? _].
Qed.

Lemma solid_ends_cr s : solid_ends s → ends_with CR s = false.
Proof.
  intros [_ (c & t & -> & Hc)]. unfold ends_with. rewrite last_snoc.
  apply N.eqb_neq. intros ->. discriminate.
Qed.

(** C36. Printing then parsing is the identity: every list of definitions with
    distinct names that the surface syntax can spell is read back exactly. *)
Theorem parse_print defs :
  Forall printable defs → NoDup (def_name <$> defs) → parse (print_code defs) = Ok defs.
Proof.
  intros Hpr Hnd. unfold parse, print_code. rewrite lines_concat.
  - by apply parse_lines_prints; [| |set_solver].
  - apply Forall_fmap. eapply Forall_impl; [exact Hpr|]. intros d Hd. simpl.
    split; [by apply print_def_lines|]. apply solid_ends_cr, print_def_solid.
Qed.

Lemma parse_print_witness :
  let defs := [Literal (lit "max_age") (lit "30 days"); PhaseBucket (lit "cur") 240 15 0 (lit "slot)")] in
  parse (print_code defs) = Ok defs.
Proof.
  apply (parse_print [Literal (lit "max_age") (lit "30 days");
                      PhaseBucket (lit "cur") 240 15 0 (lit "slot)")]).
  - repeat constructor; try (eexists; split; reflexivity); vm_compute; intuition congruence.
  - by_eval.
Defined.

(** A trailing comment after a call is documented to be ignored, yet a closing
    parenthesis inside it makes [rfind(')')] cut the call at the comment's
    parenthesis, and the line is rejected. *)
Theorem comment_paren_rejected :
  is_ok (parse (lit "$cur = phase_now(240, 15)  # current")) = true
  ∧ is_ok (parse (lit "$cur = phase_now(240, 15)  # current (slot)")) = false.
Proof. split; vm_compute; reflexivity. Qed.
