(* ===== verification/SqlRoute.v ===== *)
(** * SQL routing (src/sql_route.rs)

    Scanners over SQL text ([find_keyword], [matching_paren],
    [first_table_name]), removal of a provider prefix and the memo of routing
    decisions.  The scanners work on byte indices as the code does; the skip
    loops inside them are functions on the remaining bytes that return how far
    the index moves.  Their specifications ([reads], [pieces]) are stated over
    the shapes of [SqlText] and mention none of them. *)
From S2P Require Import Prelude Errors RustStr SqlText.

Definition is_ident_byte (c : N) : bool := (c =? UNDERSCORE)%N || is_ascii_alphanumeric c.

(** ** Regions that the scanners skip *)

(** after an opening quote: up to and including the closing quote, a doubled
    quote being part of the text *)
Fixpoint quoted_len (q : N) (s : str) : nat :=
  match s with
  | [] => 0
  | x :: s =>
      if (x =? q)%N then
        match s with
        | y :: s' => if (y =? q)%N then S (S (quoted_len q s')) else 1
        | [] => 1
        end
      else S (quoted_len q s)
  end.

(** up to and including the first byte [c] *)
Definition until_len (c : N) (s : str) : nat :=
  let n := span (λ x, negb (x =? c)%N) s in
  n + (if bool_decide (n < length s) then 1 else 0).

Definition line_len (s : str) : nat := span (λ x, negb (x =? LF)%N) s.

(** after the two bytes opening a block comment *)
Fixpoint block_len (s : str) : nat :=
  match s with
  | x :: (y :: _) as s' =>
      if (x =? STAR)%N && (y =? SLASH)%N then 2 else S (block_len s')
  | _ => length s
  end.

(** the arms of [find_keyword] and [matching_paren] that skip a region: how
    far the index moves *)
Definition skip_region (s : str) : option nat :=
  match s with
  | [] => None
  | c :: s' =>
      if (c =? SQUOTE)%N || (c =? DQUOTE)%N then Some (1 + quoted_len c s')
      else if (c =? BACKTICK)%N then Some (1 + until_len BACKTICK s')
      else if (c =? LBRACKET)%N then Some (1 + until_len RBRACKET s')
      else if (c =? DASH)%N && starts_with DASH s' then Some (2 + line_len (drop 1 s'))
      else if (c =? SLASH)%N && starts_with STAR s' then Some (2 + block_len (drop 1 s'))
      else None
  end.

(** the same in [strip_provider_prefix], where a doubled backtick does not
    close and a line comment is scanned from its first dash *)
Definition strip_region (s : str) : option nat :=
  match s with
  | [] => None
  | c :: s' =>
      if (c =? SQUOTE)%N || (c =? DQUOTE)%N || (c =? BACKTICK)%N then Some (1 + quoted_len c s')
      else if (c =? LBRACKET)%N then Some (1 + until_len RBRACKET s')
      else if (c =? DASH)%N && starts_with DASH s' then Some (line_len s)
      else if (c =? SLASH)%N && starts_with STAR s' then Some (2 + block_len (drop 1 s'))
      else None
  end.

(** ** Scanners *)

Definition prev_byte (s : str) (idx : nat) : option N :=
  match idx with 0 => None | S p => s !! p end.

Definition is_none_or (p : N → bool) (o : option N) : bool :=
  match o with None => true | Some c => p c end.

(** the test of the default arm of [find_keyword] *)
Definition keyword_at (s keyword : str) (idx : nat) : bool :=
  let end_ := idx + length keyword in
  bool_decide (end_ ≤ length s)
  && eq_ignore_ascii_case (take (length keyword) (drop idx s)) keyword
  && is_none_or (λ c, negb (is_ident_byte c)) (prev_byte s idx)
  && is_none_or (λ c, negb (is_ident_byte c)) (s !! end_).

Fixpoint find_keyword_loop (fuel : nat) (s keyword : str) (idx : nat) : option nat :=
  match fuel with
  | 0 => None
  | S fuel =>
      if bool_decide (idx < length s) then
        match skip_region (drop idx s) with
        | Some n => find_keyword_loop fuel s keyword (idx + n)
        | None =>
            if keyword_at s keyword idx then Some idx
            else find_keyword_loop fuel s keyword (idx + 1)
        end
      else None
  end.

Definition find_keyword (s keyword : str) : option nat :=
  find_keyword_loop (S (length s)) s keyword 0.

Fixpoint matching_paren_loop (fuel : nat) (s : str) (depth idx : nat) : option nat :=
  match fuel with
  | 0 => None
  | S fuel =>
      match s !! idx with
      | None => None
      | Some c =>
          match skip_region (drop idx s) with
          | Some n => matching_paren_loop fuel s depth (idx + n)
          | None =>
              if (c =? LPAREN)%N then matching_paren_loop fuel s (S depth) (idx + 1)
              else if (c =? RPAREN)%N then
                match depth with
                | 0 => None
                | S depth =>
                    if bool_decide (depth = 0) then Some idx
                    else matching_paren_loop fuel s depth (idx + 1)
                end
              else matching_paren_loop fuel s depth (idx + 1)
          end
      end
  end.

Definition matching_paren (s : str) (open_pos : nat) : option nat :=
  matching_paren_loop (S (length s)) s 0 open_pos.

Definition table_delim (c : N) : bool :=
  is_ascii_whitespace c || (c =? SEMI)%N || (c =? COMMA)%N || (c =? RPAREN)%N.

Fixpoint first_table_name_rec (fuel : nat) (sql : str) : option str :=
  match fuel with
  | 0 => None
  | S fuel =>
      match find_keyword sql (lit "from") with
      | None => None
      | Some from_pos =>
          let after := from_pos + 4 in
          let table_start := after + span is_ascii_whitespace (drop after sql) in
          if bool_decide (sql !! table_start = Some LPAREN) then
            match matching_paren sql table_start with
            | None => None
            | Some close_pos =>
                first_table_name_rec fuel
                  (take (close_pos - (table_start + 1)) (drop (table_start + 1) sql))
            end
          else
            let table_end := match find_by table_delim (drop table_start sql) with
                             | Some e => table_start + e
                             | None => length sql
                             end in
            let table := trim (take (table_end - table_start) (drop table_start sql)) in
            if bool_decide (table = []) then None else Some table
      end
  end.

Definition first_table_name (sql : str) : option str :=
  first_table_name_rec (S (length sql)) sql.

(** ** Provider prefixes *)

(** what may follow [<name>.] *)
Definition ref_start (c : N) : bool :=
  is_ident_byte c || (c =? DQUOTE)%N || (c =? BACKTICK)%N || (c =? LBRACKET)%N.

Definition boundary (prev : option N) : bool :=
  is_none_or (λ p, negb (is_ident_byte p) && negb (p =? DOT)%N) prev.

Definition strips_here (s name : str) (i : nat) : bool :=
  boundary (prev_byte s i)
  && bool_decide (i + length name < length s)
  && bool_decide (take (length name) (drop i s) = name)
  && bool_decide (s !! (i + length name) = Some DOT)
  && match s !! (i + length name + 1) with Some c => ref_start c | None => false end.

Fixpoint strip_loop (fuel : nat) (s name : str) (i : nat) (out : str) : str :=
  match fuel with
  | 0 => out
  | S fuel =>
      match s !! i with
      | None => out
      | Some b =>
          match strip_region (drop i s) with
          | Some n => strip_loop fuel s name (i + n) (out ++ take n (drop i s))
          | None =>
              if strips_here s name i then strip_loop fuel s name (i + (length name + 1)) out
              else strip_loop fuel s name (i + 1) (out ++ utf8_encode b)
          end
      end
  end.

Definition strip_provider_prefix (sql name : str) : str :=
  if bool_decide (name = []) then sql else strip_loop (S (length sql)) sql name 0 [].

(** ** Routing and its memo *)

Definition ROUTE_MEMO_CAP : nat := 1024.

Record RouteMemo := {
  memo_epoch : N;
  memo_map : gmap N (option (str * str));
}.

Definition route_memo : RouteMemo := {| memo_epoch := 0; memo_map := ∅ |}.

(** What routing reads of the runtime: the registry version and which names
    are installed. *)
Class ProviderRegistry (R : Type) := {
  registry_epoch : R → N;
  registry_has : R → str → bool;
}.

Section Routing.
Context {R : Type} `{ProviderRegistry R}.
(** the standard hasher, whose algorithm is unspecified: a function of the
    bytes it is fed *)
Variable default_hash : list N → N.

(** [str::hash] feeds the bytes and then 0xff. *)
Definition sql_route_key (sql : str) : N := default_hash (sql ++ [255%N]).

Definition compute_route (rt : R) (sql : str) : option (str * str) :=
  match first_table_name sql with
  | None => None
  | Some table =>
      match head (split_char DOT table) with
      | None => None
      | Some name =>
          if bool_decide (name = []) || negb (registry_has rt name) then None
          else Some (name, strip_provider_prefix sql name)
      end
  end.

Definition route_provider_sql (rt : R) (memo : RouteMemo) (sql : str)
  : option (str * str) * RouteMemo :=
  let epoch := registry_epoch rt in
  let key := sql_route_key sql in
  let hit := if (memo_epoch memo =? epoch)%N then memo_map memo !! key else None in
  match hit with
  | Some routed => (routed, memo)
  | None =>
      let routed := compute_route rt sql in
      let map := if negb (memo_epoch memo =? epoch)%N then ∅ else memo_map memo in
      let map := if bool_decide (ROUTE_MEMO_CAP ≤ size map) then ∅ else map in
      (routed, {| memo_epoch := epoch; memo_map := <[key := routed]> map |})
  end.

(** a run of calls, the registry possibly changing in between *)
Fixpoint route_calls (memo : RouteMemo) (calls : list (R * str))
  : list (option (str * str)) * RouteMemo :=
  match calls with
  | [] => ([], memo)
  | (rt, sql) :: calls =>
      let '(r, memo) := route_provider_sql rt memo sql in
      let '(rs, memo) := route_calls memo calls in
      (r :: rs, memo)
  end.
End Routing.

(** ** The regions against their shapes *)

Lemma quoted_len_le q s : quoted_len q s ≤ length s.
Proof.
  remember (length s) as n eqn:Hn. revert s Hn.
  induction (lt_wf n) as [n _ IH]; intros [|x s] ->; simpl; [lia|].
  destruct (x =? q)%N.
  - destruct s as [|y s]; simpl; [lia|]. destruct (y =? q)%N; [|lia].
    pose proof (IH (length s) ltac:(simpl; lia) s eq_refl). lia.
  - pose proof (IH (length s) ltac:(simpl; lia) s eq_refl). lia.
Qed.

Lemma until_len_le c s : until_len c s ≤ length s.
Proof.
  unfold until_len. pose proof (span_le (λ x, negb (x =? c)%N) s).
  case_bool_decide; lia.
Qed.

Lemma block_len_le s : block_len s ≤ length s.
Proof.
  induction s as [|x s IH]; [done|]. destruct s as [|y s]; [done|].
  change (block_len (x :: y :: s))
    with (if (x =? STAR)%N && (y =? SLASH)%N then 2 else S (block_len (y :: s))).
  cbn [length] in *. case_match; lia.
Qed.

Lemma quoted_len_shape q s : quoted q (take (quoted_len q s) s) (drop (quoted_len q s) s).
Proof.
  remember (length s) as n eqn:Hn. revert s Hn.
  induction (lt_wf n) as [n _ IH]; intros [|x s] ->; simpl; [constructor|].
  destruct (x =? q)%N eqn:Hx; [apply N.eqb_eq in Hx as ->|apply N.eqb_neq in Hx].
  - destruct s as [|y s]; simpl; [by apply quoted_close|].
    destruct (y =? q)%N eqn:Hy; [apply N.eqb_eq in Hy as ->|apply N.eqb_neq in Hy].
    + simpl. apply quoted_twice. apply (IH (length s)); [simpl; lia|done].
    + apply quoted_close. intros c [= <-]. congruence.
  - apply quoted_char; [done|]. apply (IH (length s)); [simpl; lia|done].
Qed.

Lemma not_in_span c s : c ∉ take (span (λ x, negb (x =? c)%N) s) s.
Proof.
  intros Hin. pose proof (span_take (λ x, negb (x =? c)%N) s) as H.
  rewrite Forall_forall in H. apply H in Hin. by rewrite N.eqb_refl in Hin.
Qed.

Lemma until_len_shape c s : upto [c] (take (until_len c s) s) (drop (until_len c s) s).
Proof.
  unfold until_len. set (p := λ x, negb (x =? c)%N). set (n := span p s).
  assert (c ∉ take n s) as Hn by apply not_in_span.
  case_bool_decide as Hlt.
  - destruct (lookup_lt_is_Some_2 s n Hlt) as [x Hx].
    assert (x = c) as ->.
    { pose proof (span_drop p s x) as Hs. fold n in Hs. rewrite (drop_S _ _ _ Hx) in Hs.
      specialize (Hs eq_refl). unfold p in Hs. apply negb_false_iff, N.eqb_eq in Hs. done. }
    rewrite (Nat.add_1_r n), (take_S_r _ _ _ Hx). apply upto_found.
    intros a b Heq. destruct b as [|y b _] using rev_ind; [done|].
    rewrite !app_assoc in Heq. apply app_inj_tail in Heq as [Heq _].
    exfalso. apply Hn. rewrite Heq. set_solver.
  - rewrite Nat.add_0_r, drop_ge by lia. apply upto_end. intros a b Heq. apply Hn.
    rewrite Heq. set_solver.
Qed.

Lemma line_len_shape s : line (take (line_len s) s) (drop (line_len s) s).
Proof.
  split; [apply not_in_span|]. unfold line_len.
  pose proof (span_drop (λ x, negb (x =? LF)%N) s) as Hs.
  destruct (drop _ s) as [|x r]; [by left|]. right. simpl. f_equal.
  specialize (Hs x eq_refl). by apply negb_false_iff, N.eqb_eq in Hs.
Qed.

Lemma block_len_unfold x s :
  block_len (x :: s) = if (x =? STAR)%N && starts_with SLASH s then 2 else S (block_len s).
Proof. destruct s as [|y s]; [by rewrite andb_false_r|]. done. Qed.

Lemma block_len_shape s : upto [STAR; SLASH] (take (block_len s) s) (drop (block_len s) s).
Proof.
  destruct (upto_total [STAR; SLASH] s) as (t & r & -> & Hu); [done|].
  enough (block_len (t ++ r) = length t) as -> by (by rewrite take_app_length, drop_app_length).
  destruct Hu as [c r Hc|c Hc].
  - induction c as [|x c IH]; [done|]. rewrite <-app_assoc in *. cbn [app length]. rewrite block_len_unfold.
    destruct ((x =? STAR)%N && _) eqn:Hx; bool_guard.
    + subst x. exfalso. destruct c as [|y c]; simpl in *; bool_guard; [done|]. subst y.
      specialize (Hc [] (c ++ [STAR; SLASH]) eq_refl). by destruct c.
    + f_equal. apply IH. intros a b Heq. apply (Hc (x :: a)). simpl. by rewrite Heq.
  - rewrite app_nil_r. induction c as [|x c IH]; [done|]. cbn [length]. rewrite block_len_unfold.
    destruct ((x =? STAR)%N && _) eqn:Hx; bool_guard.
    + subst x. exfalso. destruct c as [|y c]; simpl in *; bool_guard; [done|]. subst y.
      by apply (Hc [] c).
    + f_equal. apply IH. intros a b ->. by apply (Hc (x :: a) b).
Qed.

Lemma strip_region_bound s n : strip_region s = Some n → 0 < n ≤ length s.
Proof.
  destruct s as [|c s]; cbn [strip_region]; [done|].
  pose proof (quoted_len_le c s). pose proof (until_len_le RBRACKET s).
  pose proof (block_len_le (drop 1 s)).
  destruct (_ || _ || _); [intros [= <-]; simpl; lia|].
  destruct (c =? LBRACKET)%N; [intros [= <-]; simpl; lia|].
  destruct ((c =? DASH)%N && starts_with DASH s) eqn:Hd.
  - bool_guard. subst c. intros [= <-]. unfold line_len.
    pose proof (span_le (λ x, negb (x =? LF)%N) s). simpl. lia.
  - destruct ((c =? SLASH)%N && starts_with STAR s) eqn:Hs; [|done].
    intros [= <-]. bool_guard. destruct s as [|x s]; [done|].
    simpl in *. rewrite ?drop_0 in *. lia.
Qed.

Lemma skip_region_bound s n : skip_region s = Some n → 0 < n ≤ length s.
Proof.
  destruct s as [|c s]; cbn [skip_region]; [done|].
  pose proof (quoted_len_le c s). pose proof (until_len_le RBRACKET s).
  pose proof (block_len_le (drop 1 s)). pose proof (span_le (λ x, negb (x =? LF)%N) (drop 1 s)).
  pose proof (until_len_le BACKTICK s).
  destruct (_ || _); [intros [= <-]; simpl; lia|].
  destruct (c =? BACKTICK)%N; [intros [= <-]; simpl; lia|].
  destruct (c =? LBRACKET)%N; [intros [= <-]; simpl; lia|].
  destruct ((c =? DASH)%N && starts_with DASH s) eqn:Hd.
  - bool_guard. subst c. intros [= <-]. unfold line_len. destruct s as [|x s]; [done|].
    simpl in *. rewrite ?drop_0 in *. lia.
  - destruct ((c =? SLASH)%N && starts_with STAR s) eqn:Hs; [|done].
    intros [= <-]. bool_guard. destruct s as [|x s]; [done|].
    simpl in *. rewrite ?drop_0 in *. lia.
Qed.

(** The first byte of a text that is no region. *)
Lemma no_region bt c s :
  c ≠ SQUOTE → c ≠ DQUOTE → c ≠ BACKTICK → c ≠ LBRACKET →
  (c =? DASH)%N && starts_with DASH s = false → (c =? SLASH)%N && starts_with STAR s = false →
  none_here (region bt) (c :: s).
Proof.
  intros ?????? t r Heq H.
  destruct H as [q t r Hq _|t r _|t r _|t r _|t r _]; simplify_eq/=; [|done..]. by destruct Hq.
Qed.

Lemma skip_region_shape s :
  match skip_region s with
  | Some n => skipped (take n s) (drop n s)
  | None => none_here skipped s
  end.
Proof.
  destruct s as [|c s]; cbn [skip_region].
  { intros t r Heq H. symmetry in Heq. apply app_nil in Heq as [-> _].
    by apply region_nonempty in H. }
  destruct ((c =? SQUOTE)%N || (c =? DQUOTE)%N) eqn:Hq.
  { apply region_quote; [|apply quoted_len_shape]. apply orb_true_iff in Hq.
    by destruct Hq as [->%N.eqb_eq| ->%N.eqb_eq]; [left|right]. }
  apply orb_false_iff in Hq as [Hq1%N.eqb_neq Hq2%N.eqb_neq].
  destruct (c =? BACKTICK)%N eqn:Hb; [apply N.eqb_eq in Hb as ->; apply region_backtick, until_len_shape|].
  destruct (c =? LBRACKET)%N eqn:Hl; [apply N.eqb_eq in Hl as ->; apply region_bracket, until_len_shape|].
  apply N.eqb_neq in Hb, Hl.
  destruct ((c =? DASH)%N && starts_with DASH s) eqn:Hd.
  { destruct s as [|d s]; simpl in *; bool_guard; [done|]; subst. rewrite ?drop_0.
    apply region_line, line_len_shape. }
  destruct ((c =? SLASH)%N && starts_with STAR s) eqn:Hs; [|by apply no_region].
  destruct s as [|d s]; simpl in *; bool_guard; [done|]; subst. rewrite ?drop_0.
  apply region_block, block_len_shape.
Qed.

Lemma strip_region_shape s :
  match strip_region s with
  | Some n => kept (take n s) (drop n s)
  | None => none_here kept s
  end.
Proof.
  destruct s as [|c s]; cbn [strip_region].
  { intros t r Heq H. symmetry in Heq. apply app_nil in Heq as [-> _].
    by apply region_nonempty in H. }
  destruct ((c =? SQUOTE)%N || (c =? DQUOTE)%N || (c =? BACKTICK)%N) eqn:Hq.
  { rewrite !orb_true_iff in Hq. destruct Hq as [[->%N.eqb_eq| ->%N.eqb_eq]| ->%N.eqb_eq];
      [apply region_quote; [auto|apply quoted_len_shape]..|apply region_backtick, quoted_len_shape]. }
  apply orb_false_iff in Hq as [[Hq1%N.eqb_neq Hq2%N.eqb_neq]%orb_false_iff Hb%N.eqb_neq].
  destruct (c =? LBRACKET)%N eqn:Hl; [apply N.eqb_eq in Hl as ->; apply region_bracket, until_len_shape|].
  apply N.eqb_neq in Hl.
  destruct ((c =? DASH)%N && starts_with DASH s) eqn:Hd.
  { destruct s as [|d s]; simpl in *; bool_guard; [done|]; subst.
    apply region_line, (line_len_shape s). }
  destruct ((c =? SLASH)%N && starts_with STAR s) eqn:Hs; [|by apply no_region].
  destruct s as [|d s]; simpl in *; bool_guard; [done|]; subst. rewrite ?drop_0.
  apply region_block, block_len_shape.
Qed.

Lemma skip_region_app t s : skipped t s → skip_region (t ++ s) = Some (length t).
Proof.
  intros H. pose proof (skip_region_shape (t ++ s)) as Hs.
  destruct (skip_region (t ++ s)) as [n|] eqn:Hn; [|by exfalso; eapply Hs].
  destruct (skipped_cuts_once _ _ _ _ Hs H) as [Ht Hr]; [apply take_drop|].
  f_equal. pose proof (skip_region_bound _ _ Hn). apply (f_equal length) in Hr. apply (f_equal length) in Ht.
  rewrite length_take in Ht. rewrite length_drop in Hr. rewrite length_app in *. 
  lia.
Qed.

Lemma skip_region_none s : none_here skipped s → skip_region s = None.
Proof.
  intros H. pose proof (skip_region_shape s) as Hs.
  destruct (skip_region s) as [n|]; [|done]. by apply H in Hs; [|by rewrite take_drop].
Qed.

Lemma segs_total s : ∃ l, segs s l.
Proof.
  remember (length s) as n eqn:Hn. revert s Hn.
  induction (lt_wf n) as [n _ IH]; intros s ->.
  pose proof (skip_region_shape s) as Hs. destruct (skip_region s) as [k|].
  - pose proof (region_nonempty _ _ _ Hs) as Hne.
    destruct (IH (length (drop k s)) ltac:(rewrite <-(take_drop k s) at 2; rewrite length_app;
      destruct (take k s); [done|simpl; lia]) _ eq_refl) as [l Hl].
    exists (Opaque (take k s) :: l). rewrite <-(take_drop k s) at 1. by constructor.
  - destruct s as [|c s]; [exists []; constructor|].
    destruct (IH (length s) ltac:(simpl; lia) _ eq_refl) as [l Hl].
    exists (Byte c :: l). by constructor.
Qed.

(** ** Facts on regions *)

Lemma skip_region_pos s n : skip_region s = Some n → 0 < n.
Proof. unfold skip_region. intros H. repeat case_match; simplify_eq; lia. Qed.

Lemma skip_region_ident c s :
  (c =? SQUOTE)%N = false → (c =? DQUOTE)%N = false → (c =? BACKTICK)%N = false →
  (c =? LBRACKET)%N = false → (c =? DASH)%N = false → (c =? SLASH)%N = false →
  skip_region (c :: s) = None ∧ strip_region (c :: s) = None.
Proof. unfold skip_region, strip_region. intros -> -> -> -> -> ->. done. Qed.

Lemma skip_region_paren s c :
  c = LPAREN ∨ c = RPAREN → skip_region (c :: s) = None.
Proof. intros [-> | ->]; by apply skip_region_ident. Qed.

(** ** Keyword search *)

(** the positions at which the main loop of a scanner stands *)
Inductive scanned (s : str) : nat → Prop :=
| scanned_0 : scanned s 0
| scanned_skip i n : scanned s i → skip_region (drop i s) = Some n → scanned s (i + n)
| scanned_byte i :
    scanned s i → i < length s → skip_region (drop i s) = None → scanned s (i + 1).

(** a position outside every quoted region and comment *)
Definition top_level (s : str) (i : nat) : Prop :=
  scanned s i ∧ i < length s ∧ skip_region (drop i s) = None.

Definition scan_step (s : str) (i : nat) : nat :=
  match skip_region (drop i s) with Some n => i + n | None => i + 1 end.

Lemma scan_step_lt s i : i < scan_step s i.
Proof.
  unfold scan_step. destruct (skip_region _) eqn:H; [|lia].
  apply skip_region_pos in H. lia.
Qed.

Lemma scanned_inv s j : scanned s j → j = 0 ∨ ∃ i, scanned s i ∧ j = scan_step s i.
Proof.
  unfold scan_step. destruct 1 as [|i n Hi Hn|i Hi Hlt Hn]; [by left|..];
    right; exists i; split; try done; by rewrite Hn.
Qed.

Lemma scanned_next s i j : scanned s i → scanned s j → i < j → scan_step s i ≤ j.
Proof.
  remember (i + j) as n eqn:Hn. revert i j Hn.
  induction (lt_wf n) as [n _ IH]; intros i j -> Hi Hj Hlt.
  pose proof (scanned_inv s j Hj) as [->|(j' & Hj' & ->)]; [lia|].
  pose proof (scan_step_lt s j') as Hs.
  destruct (lt_eq_lt_dec i j') as [[Hl|<-]|Hg]; [|done|].
  - assert (scan_step s i ≤ j') by (eapply (IH (i + j')); eauto; lia). lia.
  - assert (scan_step s j' ≤ i) by (eapply (IH (j' + i)); eauto; lia). lia.
Qed.

Lemma find_keyword_loop_spec fuel s kw idx :
  scanned s idx → length s < fuel + idx →
  match find_keyword_loop fuel s kw idx with
  | Some i => top_level s i ∧ keyword_at s kw i = true
              ∧ ∀ j, idx ≤ j < i → top_level s j → keyword_at s kw j = false
  | None => ∀ j, idx ≤ j → top_level s j → keyword_at s kw j = false
  end.
Proof.
  revert idx. induction fuel as [|fuel IH]; intros idx Hidx Hf; cbn [find_keyword_loop].
  { intros j Hj (_ & Hlt & _). lia. }
  case_bool_decide as Hlt; [|intros j Hj (_ & Hl & _); lia].
  assert (∀ j, idx ≤ j → top_level s j → scan_step s idx ≤ j ∨ j = idx) as Hnext.
  { intros j Hj (Hs & _). destruct (decide (j = idx)); [by right|left].
    apply scanned_next; [done..|lia]. }
  destruct (skip_region (drop idx s)) as [n|] eqn:Hn.
  - pose proof (skip_region_pos _ _ Hn). specialize (IH (idx + n)).
    assert (∀ j, idx ≤ j → top_level s j → idx + n ≤ j) as Hskip.
    { intros j Hj Ht. destruct (Hnext j Hj Ht) as [Hs | ->].
      - unfold scan_step in Hs. by rewrite Hn in Hs.
      - destruct Ht as (_ & _ & Ht). congruence. }
    destruct (find_keyword_loop _ _ _ _) as [i|].
    + destruct IH as (Ht & Hk & Hmin); [by apply scanned_skip|lia|].
      split_and!; [done..|]. intros j [Hj Hji] Htj. apply Hmin; [split; [by apply Hskip|done]|done].
    + intros j Hj Htj. apply IH; [by apply scanned_skip|lia|by apply Hskip|done].
  - assert (top_level s idx) as Ht by done.
    destruct (keyword_at s kw idx) eqn:Hk; [split_and!; [done..|intros; lia]|].
    specialize (IH (idx + 1) (scanned_byte _ _ Hidx Hlt Hn) ltac:(lia)).
    assert (∀ j, idx ≤ j → top_level s j → idx + 1 ≤ j ∨ j = idx) as Hskip.
    { intros j Hj Htj. destruct (Hnext j Hj Htj) as [Hs | ->]; [left|by right].
      unfold scan_step in Hs. by rewrite Hn in Hs. }
    destruct (find_keyword_loop _ _ _ _) as [i|].
    + destruct IH as (Hti & Hki & Hmin). split_and!; [done..|]. intros j [Hj Hji] Htj.
      destruct (Hskip j Hj Htj) as [? | ->]; [|done]. by apply Hmin.
    + intros j Hj Htj. destruct (Hskip j Hj Htj) as [? | ->]; [|done]. by apply IH.
Qed.

(** [find_keyword] returns the first position outside string literals,
    quoted identifiers and comments where the keyword stands as a whole word
    (compared without case), and nothing when there is none. *)
Theorem find_keyword_spec s kw :
  match find_keyword s kw with
  | Some i => top_level s i ∧ keyword_at s kw i = true
              ∧ ∀ j, j < i → top_level s j → keyword_at s kw j = false
  | None => ∀ j, top_level s j → keyword_at s kw j = false
  end.
Proof.
  pose proof (find_keyword_loop_spec (S (length s)) s kw 0 (scanned_0 s) ltac:(lia)) as H.
  unfold find_keyword. destruct (find_keyword_loop _ _ _ _).
  - destruct H as (? & ? & H). split_and!; [done..|]. intros j Hj. apply H. lia.
  - intros j. apply H. lia.
Qed.

(** ** Matching parentheses *)

(** [balanced s i j]: the bytes of [s] from [i] to [j] are regions, bytes
    other than parentheses, and parenthesised balanced parts *)
Inductive balanced (s : str) : nat → nat → Prop :=
| bal_nil i : balanced s i i
| bal_region i n j :
    skip_region (drop i s) = Some n → balanced s (i + n) j → balanced s i j
| bal_byte i c j :
    s !! i = Some c → skip_region (drop i s) = None → c ≠ LPAREN → c ≠ RPAREN →
    balanced s (i + 1) j → balanced s i j
| bal_paren i k j :
    s !! i = Some LPAREN → balanced s (i + 1) k → s !! k = Some RPAREN →
    balanced s (k + 1) j → balanced s i j.

Lemma drop_paren s i c :
  s !! i = Some c → c = LPAREN ∨ c = RPAREN → skip_region (drop i s) = None.
Proof. intros H Hc. rewrite (drop_S _ _ _ H). by apply skip_region_paren. Qed.

Lemma skip_region_lt s i n : skip_region (drop i s) = Some n → ∃ c, s !! i = Some c.
Proof.
  intros H. destruct (s !! i) eqn:Hi; [by eexists|].
  by rewrite (drop_lookup_None _ _ Hi) in H.
Qed.

(** Below depth one, the loop runs to the parenthesis that closes the current
    level and goes on from there. *)
Lemma matching_paren_loop_sound fuel s d i j :
  matching_paren_loop fuel s (S d) i = Some j →
  ∃ k, balanced s i k ∧ s !! k = Some RPAREN
     ∧ if bool_decide (d = 0) then k = j
       else ∃ fuel', fuel' < fuel ∧ matching_paren_loop fuel' s d (k + 1) = Some j.
Proof.
  revert d i. induction (lt_wf fuel) as [fuel _ IH]; intros d i H.
  destruct fuel as [|fuel]; [done|]. cbn [matching_paren_loop] in H.
  destruct (s !! i) as [c|] eqn:Hc; [|done].
  destruct (skip_region (drop i s)) as [n|] eqn:Hn.
  { destruct (IH fuel ltac:(lia) _ _ H) as (k & Hb & Hk & Hd). exists k.
    split_and!; [by eapply bal_region|done|]. case_bool_decide; [done|].
    destruct Hd as (f & ? & ?). exists f. by split; [lia|]. }
  destruct (c =? LPAREN)%N eqn:Hl.
  - apply N.eqb_eq in Hl as ->.
    destruct (IH fuel ltac:(lia) _ _ H) as (k & Hb & Hk & f & Hf & H').
    destruct (IH f ltac:(lia) _ _ H') as (k' & Hb' & Hk' & Hd). exists k'.
    split_and!; [by eapply bal_paren|done|]. case_bool_decide; [done|].
    destruct Hd as (f' & ? & ?). exists f'. by split; [lia|].
  - destruct (c =? RPAREN)%N eqn:Hr.
    + apply N.eqb_eq in Hr as ->. exists i. split_and!; [constructor|done|].
      case_bool_decide; [by injection H|]. exists fuel. by split; [lia|].
    + apply N.eqb_neq in Hl, Hr.
      destruct (IH fuel ltac:(lia) _ _ H) as (k & Hb & Hk & Hd). exists k.
      split_and!; [by eapply bal_byte|done|]. case_bool_decide; [done|].
      destruct Hd as (f & ? & ?). exists f. by split; [lia|].
Qed.

Lemma matching_paren_loop_fuel s d i fuel1 fuel2 :
  length s < fuel1 + i → length s < fuel2 + i →
  matching_paren_loop fuel1 s d i = matching_paren_loop fuel2 s d i.
Proof.
  revert d i fuel2. induction fuel1 as [|fuel1 IH]; intros d i fuel2 H1 H2.
  { destruct fuel2; simpl; [done|]. by rewrite lookup_ge_None_2 by lia. }
  destruct fuel2 as [|fuel2]; [simpl; by rewrite lookup_ge_None_2 by lia|].
  cbn [matching_paren_loop]. destruct (s !! i) as [c|]; [|done].
  destruct (skip_region (drop i s)) as [n|] eqn:Hn.
  - apply skip_region_pos in Hn. apply IH; lia.
  - repeat case_match; try done; apply IH; lia.
Qed.

Lemma matching_paren_loop_complete s i k :
  balanced s i k → ∀ d fuel, length s < fuel + i →
  ∃ fuel', length s < fuel' + k
         ∧ matching_paren_loop fuel s (S d) i = matching_paren_loop fuel' s (S d) k.
Proof.
  induction 1 as [i|i n j Hn _ IH|i c j Hc Hn Hl Hr _ IH|i k j Hi _ IH1 Hk _ IH2];
    intros d fuel Hf; [by exists fuel|..].
  - destruct (skip_region_lt _ _ _ Hn) as [c Hc]. pose proof (lookup_lt_Some _ _ _ Hc).
    destruct fuel as [|fuel]; [lia|]. cbn [matching_paren_loop]. rewrite Hc, Hn.
    apply skip_region_pos in Hn. apply IH. lia.
  - pose proof (lookup_lt_Some _ _ _ Hc). destruct fuel as [|fuel]; [lia|].
    cbn [matching_paren_loop]. rewrite Hc, Hn. apply N.eqb_neq in Hl as ->, Hr as ->.
    apply IH. lia.
  - pose proof (lookup_lt_Some _ _ _ Hi). pose proof (lookup_lt_Some _ _ _ Hk).
    destruct fuel as [|fuel]; [lia|]. cbn [matching_paren_loop].
    rewrite Hi, (drop_paren _ _ _ Hi) by auto. change (LPAREN =? LPAREN)%N with true. cbn iota.
    destruct (IH1 (S d) fuel ltac:(lia)) as (f & Hf' & ->).
    destruct f as [|f]; [lia|]. cbn [matching_paren_loop].
    rewrite Hk, (drop_paren _ _ _ Hk) by auto. cbn. apply IH2. lia.
Qed.

(** [matching_paren] at an opening parenthesis is the closing parenthesis
    of the balanced text that follows, brackets inside literals and comments
    not counting; nothing is returned when the text is not closed. *)
Theorem matching_paren_spec s p j :
  s !! p = Some LPAREN →
  matching_paren s p = Some j ↔ balanced s (p + 1) j ∧ s !! j = Some RPAREN.
Proof.
  intros Hp. pose proof (lookup_lt_Some _ _ _ Hp) as Hlt. unfold matching_paren.
  cbn [matching_paren_loop]. rewrite Hp, (drop_paren _ _ _ Hp) by auto.
  change (LPAREN =? LPAREN)%N with true. cbn iota. split.
  - intros (k & Hb & Hk & ->)%matching_paren_loop_sound. done.
  - intros [Hb Hj]. destruct (matching_paren_loop_complete _ _ _ Hb 0 (length s) ltac:(lia))
      as (f & Hf & ->).
    pose proof (lookup_lt_Some _ _ _ Hj). destruct f as [|f]; [lia|]. cbn [matching_paren_loop].
    by rewrite Hj, (drop_paren _ _ _ Hj) by auto.
Qed.

Lemma matching_paren_spec_witness :
  let s := lit "(a, ')' (b))c" in
  matching_paren s 0 = Some 11 ∧ balanced s 1 11.
Proof.
  assert (matching_paren (lit "(a, ')' (b))c") 0 = Some 11) as H by (vm_compute; reflexivity).
  split; [exact H|].
  apply (matching_paren_spec (lit "(a, ')' (b))c") 0 11); [vm_compute; reflexivity|exact H].
Defined.

(** ** The first table *)

(** [kw] is [from], each letter in either case *)
Definition from_word (kw : str) : Prop :=
  Forall2 (λ c upper, c = upper ∨ c = upper + 32)%N kw [70; 82; 79; 77]%N.

(** [from] as a whole word between the pieces [l1] and [l2] of a query *)
Inductive from_at (l : list seg) : list seg → list seg → Prop :=
| from_at_intro l1 kw l2 :
    l = l1 ++ (Byte <$> kw) ++ l2 → from_word kw →
    no_last name_char (text l1) → no_head name_char (text l2) → from_at l l1 l2.

(** ... that starts no later than any other *)
Definition first_from (l l1 l2 : list seg) : Prop :=
  from_at l l1 l2 ∧ ∀ l1' l2', from_at l l1' l2' → length (text l1) ≤ length (text l1').

(** what a table name is made of: anything but blanks, [;], [,] and [)] *)
Definition table_char (c : N) : Prop := ¬ blank c ∧ c ∉ [59; 44; 41]%N.

(** pieces whose parentheses match *)
Inductive nested : list seg → Prop :=
| nested_nil : nested []
| nested_opaque t l : nested l → nested (Opaque t :: l)
| nested_byte c l : c ≠ 40%N → c ≠ 41%N → nested l → nested (Byte c :: l)
| nested_paren l1 l2 : nested l1 → nested l2 → nested (Byte 40 :: l1 ++ Byte 41 :: l2).

(** The table a query reads first: the text after its first [from], up to a
    blank, [;], [,] or [)], or what the parenthesised query there reads
    first. *)
Inductive reads : str → str → Prop :=
| reads_name s l l1 l2 ws name r :
    segs s l → first_from l l1 l2 →
    text l2 = ws ++ name ++ r → Forall blank ws → no_head blank (name ++ r) →
    head (name ++ r) ≠ Some 40%N → Forall table_char name → no_head table_char r →
    trim name ≠ [] → reads s (trim name)
| reads_query s l l1 l2 ws q inner r t :
    segs s l → first_from l l1 l2 →
    text l2 = ws ++ 40%N :: q → Forall blank ws →
    segs q (inner ++ Byte 41 :: r) → nested inner → reads (text inner) t → reads s t.

(** *** Positions of the scanners and pieces of the query *)

Lemma text_app l1 l2 : text (l1 ++ l2) = text l1 ++ text l2.
Proof. unfold text. by rewrite fmap_app, concat_app. Qed.

Lemma text_cons x l : text (x :: l) = seg_text x ++ text l.
Proof. done. Qed.

Lemma text_bytes w : text (Byte <$> w) = w.
Proof. induction w as [|c w IH]; [done|]. rewrite fmap_cons, text_cons. by rewrite IH. Qed.

Lemma drop_text s l1 l2 : segs s (l1 ++ l2) → drop (length (text l1)) s = text l2.
Proof. intros <-%segs_text. by rewrite text_app, drop_app_length. Qed.

Lemma skip_region_segs x l :
  segs (text (x :: l)) (x :: l) →
  skip_region (text (x :: l)) = match x with Opaque t => Some (length t) | Byte _ => None end.
Proof.
  generalize (text (x :: l)). intros s H.
  inversion H; subst; [by apply skip_region_app|by apply skip_region_none].
Qed.

Lemma scanned_prefix s l1 l2 : segs s (l1 ++ l2) → scanned s (length (text l1)).
Proof.
  revert l2. induction l1 as [|x l1 IH] using rev_ind; intros l2 H; [constructor|].
  rewrite <-app_assoc in H. simpl in H. specialize (IH _ H).
  pose proof (skip_region_segs _ _ (segs_app_inv _ _ _ H)) as Hx.
  rewrite <-(drop_text _ _ _ H) in Hx. rewrite text_app, length_app. destruct x as [t|c].
  - apply scanned_skip; [done|]. rewrite Hx, text_cons. simpl. by rewrite app_nil_r.
  - apply scanned_byte; [done| |done]. apply segs_text in H as <-.
    rewrite text_app, text_cons, !length_app. simpl. lia.
Qed.

Lemma scanned_split s l i :
  segs s l → scanned s i → ∃ l1 l2, l = l1 ++ l2 ∧ i = length (text l1).
Proof.
  intros Hl. induction 1 as [|i n _ (l1 & l2 & -> & ->) Hn|i _ (l1 & l2 & -> & ->) Hlt Hn];
    [by exists [], l|..]; rewrite (drop_text _ _ _ Hl) in Hn;
    (destruct l2 as [|x l2];
      [|pose proof (skip_region_segs _ _ (segs_app_inv _ _ _ Hl)) as Hx; rewrite Hn in Hx]).
  - done.
  - exists (l1 ++ [x]), l2. split; [by rewrite <-app_assoc|]. destruct x; [|done].
    injection Hx as ->. rewrite text_app, length_app, text_cons. simpl. by rewrite app_nil_r.
  - apply segs_text in Hl as <-. rewrite app_nil_r in Hlt. lia.
  - exists (l1 ++ [x]), l2. split; [by rewrite <-app_assoc|]. destruct x; [done|].
    by rewrite text_app, length_app.
Qed.

Lemma top_level_segs s l i :
  segs s l → top_level s i ↔ ∃ l1 c l2, l = l1 ++ Byte c :: l2 ∧ i = length (text l1).
Proof.
  intros Hl. split.
  - intros (Hi & Hlt & Hn). destruct (scanned_split _ _ _ Hl Hi) as (l1 & l2 & -> & ->).
    rewrite (drop_text _ _ _ Hl) in Hn. destruct l2 as [|x l2].
    { apply segs_text in Hl as <-. rewrite app_nil_r in Hlt. lia. }
    pose proof (skip_region_segs _ _ (segs_app_inv _ _ _ Hl)) as Hx. rewrite Hn in Hx.
    destruct x; [done|]. eauto.
  - intros (l1 & c & l2 & -> & ->). split_and!; [by eapply scanned_prefix| |].
    + apply segs_text in Hl as <-. rewrite text_app, text_cons, !length_app. simpl. lia.
    + rewrite (drop_text _ _ _ Hl). apply (skip_region_segs (Byte c)). by eapply segs_app_inv.
Qed.

(** *** The keyword *)

Lemma is_ident_byte_spec c : is_ident_byte c = true ↔ name_char c.
Proof.
  unfold is_ident_byte, is_ascii_alphanumeric, is_ascii_alphabetic, is_ascii_upper, is_ascii_lower,
    is_ascii_digit, name_char, letter, digit.
  rewrite !orb_true_iff, !andb_true_iff, !N.leb_le, N.eqb_eq. lia.
Qed.

Lemma not_ident o (s : str) (f : str → option N) :
  o = f s → is_none_or (λ c, negb (is_ident_byte c)) o = true ↔ ∀ c, f s = Some c → ¬ name_char c.
Proof.
  intros ->. destruct (f s) as [c|]; simpl; [|by split].
  rewrite negb_true_iff, <-not_true_iff_false, is_ident_byte_spec. naive_solver.
Qed.

Lemma from_word_spec a : eq_ignore_ascii_case a (lit "from") = true ↔ from_word a.
Proof.
  assert (∀ c u, (65 ≤ u ≤ 90)%N → to_ascii_lowercase c = (u + 32)%N ↔ c = u ∨ c = (u + 32)%N) as Hc.
  { intros c u Hu. unfold to_ascii_lowercase, is_ascii_upper.
    destruct ((65 <=? c)%N && (c <=? 90)%N) eqn:Hr; [bool_guard; lia|].
    apply andb_false_iff in Hr as [?%N.leb_gt|?%N.leb_gt]; lia. }
  unfold eq_ignore_ascii_case, from_word. rewrite bool_decide_eq_true.
  change (to_ascii_lowercase <$> lit "from") with ((λ u, u + 32)%N <$> [70; 82; 79; 77]%N).
  assert (Forall (λ u, 65 ≤ u ≤ 90)%N [70; 82; 79; 77]%N) as Hu by (repeat constructor; lia).
  revert a. induction Hu as [|u us Hu _ IH]; intros [|c a]; simpl; (split; intros H; inversion H; subst; try done).
  - constructor; [by apply Hc|]. by apply IH.
  - f_equal; [by apply Hc|]. by apply IH.
Qed.

Lemma from_word_letters kw : from_word kw → length kw = 4 ∧ Forall letter kw.
Proof.
  intros H. split; [by rewrite (Forall2_length _ _ _ H)|].
  unfold from_word in H. repeat (inversion H as [|????? H']; clear H; subst; rename H' into H;
    constructor; [unfold letter; lia|]). inversion H. constructor.
Qed.

Lemma letter_none_here bt c s : letter c → none_here (region bt) (c :: s).
Proof.
  intros Hc t r Heq H. symmetry in Heq. pose proof (region_head _ _ _ _ _ H Heq) as Hin.
  unfold letter in Hc. rewrite !elem_of_cons, elem_of_nil in Hin. lia.
Qed.

Lemma segs_letters kw r l :
  Forall letter kw → segs (kw ++ r) l → ∃ l2, l = (Byte <$> kw) ++ l2 ∧ segs r l2.
Proof.
  intros H. revert l. induction H as [|c kw Hc _ IH]; intros l Hl; [by exists l|].
  apply segs_byte_inv in Hl as (l' & -> & Hl); [|by apply letter_none_here].
  destruct (IH l' Hl) as (l2 & -> & H2). by exists l2.
Qed.

Lemma prev_byte_app s1 s2 : prev_byte (s1 ++ s2) (length s1) = last s1.
Proof.
  destruct s1 as [|c s1 _] using rev_ind; [done|]. rewrite length_app, last_snoc.
  replace (length s1 + length [c]) with (S (length s1)) by (simpl; lia). cbn [prev_byte].
  rewrite <-app_assoc. by apply list_lookup_middle.
Qed.

Lemma keyword_at_from s1 s2 :
  keyword_at (s1 ++ s2) (lit "from") (length s1) = true
  ↔ ∃ kw r, s2 = kw ++ r ∧ from_word kw ∧ no_last name_char s1 ∧ no_head name_char r.
Proof.
  unfold keyword_at. change (length (lit "from")) with 4.
  rewrite !andb_true_iff, bool_decide_eq_true, drop_app_length, from_word_spec, length_app.
  rewrite (not_ident _ s1 last (prev_byte_app s1 s2)).
  rewrite (not_ident _ (drop 4 s2) head); [|rewrite head_lookup, lookup_drop, lookup_app_r by lia; f_equal; lia].
  split.
  - intros (((Hl & Hkw) & Hp) & Hn). exists (take 4 s2), (drop 4 s2). by rewrite take_drop.
  - intros (kw & r & -> & Hkw & Hp & Hn). pose proof (from_word_letters _ Hkw) as [<- _].
    rewrite take_app_length, drop_app_length, length_app. split_and!; try done. lia.
Qed.

Lemma keyword_at_segs s l1 l2 :
  segs s (l1 ++ l2) →
  keyword_at s (lit "from") (length (text l1)) = true ↔ ∃ r, from_at (l1 ++ l2) l1 r.
Proof.
  intros H. pose proof (segs_text _ _ H) as Hs. rewrite text_app in Hs. rewrite <-Hs, keyword_at_from.
  split.
  - intros (kw & r & Hr & Hkw & Hp & Hn). pose proof (from_word_letters _ Hkw) as [_ Hlet].
    pose proof (segs_app_inv _ _ _ H) as H2. rewrite Hr in H2.
    apply segs_letters in H2 as (r' & -> & Hr'); [|done]. apply segs_text in Hr' as <-.
    exists r'. by eapply from_at_intro.
  - intros [r H']. inversion H' as [l1' kw r' Heq Hkw Hp Hn]; subst.
    apply app_inv_head in Heq as ->. exists kw, (text r). split_and!; try done.
    by rewrite text_app, text_bytes.
Qed.

Lemma find_from s l :
  segs s l →
  match find_keyword s (lit "from") with
  | Some pos => ∃ l1 l2, first_from l l1 l2 ∧ pos = length (text l1)
  | None => ∀ l1 l2, ¬ from_at l l1 l2
  end.
Proof.
  intros Hl. pose proof (find_keyword_spec s (lit "from")) as Hf.
  assert (∀ l1 l2, from_at l l1 l2 →
    top_level s (length (text l1)) ∧ keyword_at s (lit "from") (length (text l1)) = true) as Hat.
  { intros l1 l2 [l1' kw l2' -> Hkw Hp Hn]. split.
    - apply (top_level_segs _ _ _ Hl). destruct kw as [|c kw]; [inversion Hkw|].
      by exists l1', c, ((Byte <$> kw) ++ l2').
    - apply (keyword_at_segs _ _ _ Hl). exists l2'. by apply (from_at_intro _ _ kw). }
  destruct (find_keyword _ _) as [pos|].
  - destruct Hf as (Ht & Hk & Hmin). pose proof Ht as Ht'.
    apply (top_level_segs _ _ _ Hl) in Ht' as (l1 & c & l2 & -> & ->).
    apply (keyword_at_segs _ _ _ Hl) in Hk as [r Hr]. exists l1, r. split; [|done].
    split; [done|]. intros l1' l2' H'. destruct (Hat _ _ H') as [Ht' Hk'].
    apply Nat.nlt_ge. intros Hlt. by rewrite (Hmin _ Hlt Ht') in Hk'.
  - intros l1 l2 H. destruct (Hat _ _ H) as [Ht Hk]. by rewrite (Hf _ Ht) in Hk.
Qed.

(** *** The parenthesised query *)

Lemma paren_none_here bt c s : c = LPAREN ∨ c = RPAREN → none_here (region bt) (c :: s).
Proof.
  intros Hc t r Heq H. symmetry in Heq. pose proof (region_head _ _ _ _ _ H Heq) as Hin.
  rewrite !elem_of_cons, elem_of_nil in Hin. lia.
Qed.

Lemma skip_region_none_here s : skip_region s = None → none_here skipped s.
Proof. intros H. pose proof (skip_region_shape s) as Hs. by rewrite H in Hs. Qed.

Lemma segs_lookup s i c l :
  s !! i = Some c → skip_region (drop i s) = None → segs (drop i s) l →
  ∃ l', l = Byte c :: l' ∧ segs (drop (i + 1) s) l'.
Proof.
  intros Hc Hn%skip_region_none_here Hl. rewrite Nat.add_1_r.
  rewrite (drop_S _ _ _ Hc) in Hn, Hl. by apply segs_byte_inv.
Qed.

Lemma balanced_nested s i j l :
  balanced s i j → segs (drop i s) l →
  ∃ l1 l2, l = l1 ++ l2 ∧ nested l1 ∧ j = i + length (text l1) ∧ segs (drop j s) l2.
Proof.
  intros H. revert l. induction H as [i|i n j Hn _ IH|i c j Hc Hn Hl Hr _ IH|i k j Hi _ IH1 Hk _ IH2];
    intros l Hs.
  - exists [], l. split_and!; [done|constructor|simpl; lia|done].
  - pose proof (skip_region_shape (drop i s)) as Ht. rewrite Hn in Ht.
    pose proof (skip_region_bound _ _ Hn) as Hbd.
    rewrite <-(take_drop n (drop i s)) in Hs. apply segs_opaque_inv in Hs as (l' & -> & Hs); [|done].
    rewrite drop_drop in Hs. destruct (IH _ Hs) as (l1 & l2 & -> & H1 & -> & H2).
    exists (Opaque (take n (drop i s)) :: l1), l2. split_and!; [done|by constructor| |done].
    rewrite text_cons, length_app. simpl. rewrite length_take. lia.
  - apply segs_lookup with (1 := Hc) in Hs as (l' & -> & Hs); [|done].
    destruct (IH _ Hs) as (l1 & l2 & -> & H1 & -> & H2). exists (Byte c :: l1), l2.
    split_and!; [done|by constructor|rewrite text_cons; simpl; lia|done].
  - apply segs_lookup with (1 := Hi) in Hs as (l' & -> & Hs); [|by eapply drop_paren; eauto].
    destruct (IH1 _ Hs) as (l1 & l2 & -> & H1 & -> & Hs2).
    apply segs_lookup with (1 := Hk) in Hs2 as (l3 & -> & Hs2); [|by eapply drop_paren; eauto].
    destruct (IH2 _ Hs2) as (l4 & l5 & -> & H4 & -> & H5).
    exists (Byte 40 :: l1 ++ Byte 41 :: l4), l5.
    split_and!; [simpl; by rewrite <-app_assoc|by constructor| |done].
    rewrite text_cons, text_app, text_cons, !length_app. simpl. lia.
Qed.

Lemma segs_byte_lookup s i c l :
  segs (drop i s) (Byte c :: l) →
  s !! i = Some c ∧ skip_region (drop i s) = None ∧ segs (drop (i + 1) s) l.
Proof.
  intros H. inversion H as [| |c' r l' Hn Hr Heq]; subst.
  assert (s !! i = Some c) as Hc by (by rewrite <-(Nat.add_0_r i), <-lookup_drop, <-Heq).
  split_and!; [done|by apply skip_region_none|].
  rewrite (drop_S _ _ _ Hc) in Heq. injection Heq as ->. by rewrite Nat.add_1_r.
Qed.

Lemma nested_balanced s l1 :
  nested l1 → ∀ i l2, segs (drop i s) (l1 ++ l2) →
  balanced s i (i + length (text l1)) ∧ segs (drop (i + length (text l1)) s) l2.
Proof.
  induction 1 as [|t l1 _ IH|c l1 Hl Hr _ IH|l1 l1' _ IH1 _ IH2]; intros i l2 Hs.
  - rewrite Nat.add_0_r. split; [constructor|done].
  - inversion Hs as [|t' r l' Ht Hr Heq|]; subst. rewrite text_cons, length_app. simpl.
    assert (drop (i + length t) s = r) as Hd by (by rewrite <-drop_drop, <-Heq, drop_app_length).
    rewrite <-Hd in Hr. destruct (IH _ _ Hr) as [Hb Hs2]. rewrite Nat.add_assoc. split; [|done].
    eapply bal_region; [|done]. rewrite <-Heq. by apply skip_region_app.
  - apply segs_byte_lookup in Hs as (Hc & Hn & Hs). destruct (IH _ _ Hs) as [Hb Hs2].
    replace (i + length (text (Byte c :: l1))) with (i + 1 + length (text l1))
      by (rewrite text_cons; simpl; lia). split; [by eapply bal_byte|done].
  - simpl in Hs. rewrite <-app_assoc in Hs. apply segs_byte_lookup in Hs as (Hc & Hn & Hs).
    destruct (IH1 _ _ Hs) as [Hb1 Hs1]. apply segs_byte_lookup in Hs1 as (Hc1 & _ & Hs1).
    destruct (IH2 _ _ Hs1) as [Hb2 Hs2].
    replace (i + length (text (Byte 40 :: l1 ++ Byte 41 :: l1')))
      with (i + 1 + length (text l1) + 1 + length (text l1'))
      by (rewrite text_cons, text_app, text_cons, !length_app; simpl; lia).
    split; [by eapply bal_paren|done].
Qed.

(** The closing parenthesis found is the one after matching pieces. *)
Lemma matching_paren_segs pre q l j :
  segs q l →
  matching_paren (pre ++ LPAREN :: q) (length pre) = Some j
  ↔ ∃ inner r, l = inner ++ Byte 41 :: r ∧ nested inner ∧ j = length pre + 1 + length (text inner).
Proof.
  intros Hl. set (s := pre ++ LPAREN :: q).
  assert (drop (length pre + 1) s = q) as Hd by (unfold s; by rewrite Nat.add_1_r, drop_app_cons).
  rewrite (matching_paren_spec s) by (by apply list_lookup_middle). rewrite <-Hd in Hl. split.
  - intros [Hb Hj]. destruct (balanced_nested _ _ _ _ Hb Hl) as (l1 & l2 & -> & H1 & -> & H2).
    apply segs_lookup with (1 := Hj) in H2 as (r & -> & _); [|by eapply drop_paren; eauto]. eauto.
  - intros (inner & r & -> & Hn & ->). destruct (nested_balanced s inner Hn _ _ Hl) as [Hb Hs].
    split; [done|]. by apply segs_byte_lookup in Hs as (? & _).
Qed.

(** *** The name *)

Lemma blank_spec c : is_ascii_whitespace c = true ↔ blank c.
Proof.
  unfold is_ascii_whitespace, blank.
  rewrite !orb_true_iff, !N.eqb_eq, !elem_of_cons, elem_of_nil. tauto.
Qed.

Lemma table_char_spec c : table_delim c = false ↔ table_char c.
Proof.
  unfold table_delim, table_char. rewrite !orb_false_iff, !N.eqb_neq, !not_elem_of_cons.
  rewrite <-not_true_iff_false, blank_spec. pose proof (not_elem_of_nil c). tauto.
Qed.

Lemma span_blanks ws rest :
  Forall blank ws → no_head blank rest → span is_ascii_whitespace (ws ++ rest) = length ws.
Proof.
  intros Hws Hr. apply span_app.
  - eapply Forall_impl; [exact Hws|]. intros c. apply blank_spec.
  - intros c Hc%Hr. apply not_true_iff_false. by rewrite blank_spec.
Qed.

Lemma span_name name r :
  Forall table_char name → no_head table_char r →
  span (λ c, negb (table_delim c)) (name ++ r) = length name.
Proof.
  intros Hn Hr. apply span_app.
  - eapply Forall_impl; [exact Hn|]. intros c Hc. by apply negb_true_iff, table_char_spec.
  - intros c Hc%Hr. apply negb_false_iff, not_false_iff_true. by rewrite table_char_spec.
Qed.

Lemma table_end_span s start :
  start ≤ length s →
  match find_by table_delim (drop start s) with Some e => start + e | None => length s end - start
  = span (λ c, negb (table_delim c)) (drop start s).
Proof.
  intros H. pose proof (find_by_span table_delim (drop start s)) as Hs.
  destruct (find_by table_delim (drop start s)); [lia|]. rewrite length_drop in Hs. lia.
Qed.

Lemma find_first_from s l l1 l2 :
  segs s l → first_from l l1 l2 → find_keyword s (lit "from") = Some (length (text l1)).
Proof.
  intros Hl [H Hmin]. pose proof (find_from s l Hl) as Hf.
  destruct (find_keyword s _) as [pos|]; [|by apply Hf in H].
  destruct Hf as (l1' & l2' & [H' Hmin'] & ->). f_equal.
  pose proof (Hmin _ _ H'). pose proof (Hmin' _ _ H). lia.
Qed.

Lemma from_at_text s l l1 l2 :
  segs s l → from_at l l1 l2 → ∃ kw, length kw = 4 ∧ s = (text l1 ++ kw) ++ text l2.
Proof.
  intros Hl [l1' kw l2' -> Hkw _ _]. exists kw. split; [by apply from_word_letters|].
  by rewrite <-(segs_text _ _ Hl), !text_app, text_bytes, <-app_assoc.
Qed.

(** One round of [first_table_name] on a query cut at its first [from]. *)
Lemma first_table_name_step fuel s l l1 l2 ws rest :
  segs s l → first_from l l1 l2 → text l2 = ws ++ rest → Forall blank ws → no_head blank rest →
  ∃ pre, s = pre ++ rest
  ∧ first_table_name_rec (S fuel) s
    = if bool_decide (head rest = Some LPAREN) then
        match matching_paren s (length pre) with
        | None => None
        | Some j => first_table_name_rec fuel (take (j - (length pre + 1)) (drop (length pre + 1) s))
        end
      else let t := trim (take (span (λ c, negb (table_delim c)) rest) rest) in
           if bool_decide (t = []) then None else Some t.
Proof.
  intros Hl Hf Htext Hws Hrest. destruct (from_at_text _ _ _ _ Hl (proj1 Hf)) as (kw & Hkw & Hs).
  exists ((text l1 ++ kw) ++ ws). rewrite Htext, app_assoc in Hs. split; [done|].
  cbn [first_table_name_rec]. rewrite (find_first_from _ _ _ _ Hl Hf).
  assert (drop (length (text l1) + 4) s = ws ++ rest) as Hd.
  { rewrite Hs, <-Hkw, <-length_app, <-app_assoc. apply drop_app_length. }
  rewrite Hd, span_blanks by done.
  replace (length (text l1) + 4 + length ws) with (length ((text l1 ++ kw) ++ ws))
    by (rewrite !length_app; lia).
  set (pre := (text l1 ++ kw) ++ ws) in *.
  assert (drop (length pre) s = rest) as Hdr by (rewrite Hs; apply drop_app_length).
  assert (s !! length pre = head rest) as ->
    by (by rewrite head_lookup, <-Hdr, lookup_drop, Nat.add_0_r).
  rewrite table_end_span by (rewrite Hs, length_app; lia). by rewrite Hdr.
Qed.

Lemma find_from_Some s l pos :
  segs s l → find_keyword s (lit "from") = Some pos → ∃ l1 l2, first_from l l1 l2.
Proof.
  intros Hl Hp. pose proof (find_from s l Hl) as Hf. rewrite Hp in Hf.
  destruct Hf as (l1 & l2 & H & _). eauto.
Qed.

Lemma first_table_name_rec_sound fuel s t : first_table_name_rec fuel s = Some t → reads s t.
Proof.
  revert s. induction fuel as [|fuel IH]; intros s Hr; [done|].
  destruct (segs_total s) as [l Hl].
  destruct (find_keyword s (lit "from")) as [pos|] eqn:Hk;
    [|cbn [first_table_name_rec] in Hr; by rewrite Hk in Hr].
  destruct (find_from_Some _ _ _ Hl Hk) as (l1 & l2 & Hf). clear Hk.
  set (w := span is_ascii_whitespace (text l2)).
  assert (Forall blank (take w (text l2))) as Hws.
  { eapply Forall_impl; [apply span_take|]. intros c. apply blank_spec. }
  assert (no_head blank (drop w (text l2))) as Hrest.
  { intros c Hc%span_drop Hb%blank_spec. congruence. }
  pose proof (take_drop w (text l2)) as Htext. symmetry in Htext.
  set (ws := take w (text l2)) in *. set (rest := drop w (text l2)) in *.
  destruct (first_table_name_step fuel _ _ _ _ _ _ Hl Hf Htext Hws Hrest) as (pre & Hs & Heq).
  rewrite Heq in Hr. clear Heq. case_bool_decide as Hp.
  - destruct rest as [|c q]; [done|]. injection Hp as ->. destruct (segs_total q) as [lq Hq].
    destruct (matching_paren s (length pre)) as [j|] eqn:Hj; [|done]. rewrite Hs in Hj, Hr.
    apply (matching_paren_segs _ _ _ _ Hq) in Hj as (inner & r & -> & Hn & ->).
    rewrite Nat.add_1_r, drop_app_cons in Hr.
    replace (S (length pre) + length (text inner) - S (length pre)) with (length (text inner))
      in Hr by lia.
    eapply reads_query; [done..|]. apply IH. rewrite <-Hr. f_equal.
    rewrite <-(segs_text _ _ Hq), text_app. by rewrite take_app_length.
  - cbv zeta in Hr. case_bool_decide as Ht; [done|]. injection Hr as <-.
    set (n := span _ rest) in *. rewrite <-(take_drop n rest) in Htext, Hrest, Hp.
    eapply reads_name; [done..| | |done].
    + eapply Forall_impl; [apply span_take|]. intros c Hc%negb_true_iff. by apply table_char_spec.
    + intros c Hc%span_drop. rewrite <-table_char_spec. by apply negb_false_iff in Hc as ->.
Qed.

Lemma first_table_name_rec_complete s t fuel :
  reads s t → length s < fuel → first_table_name_rec fuel s = Some t.
Proof.
  intros H. revert fuel.
  induction H as [s l l1 l2 ws name r Hl Hf Htext Hws Hrest Hp Hn Hr Ht
                 |s l l1 l2 ws q inner r t Hl Hf Htext Hws Hq Hn _ IH];
    intros [|fuel] Hlt; try lia.
  - destruct (first_table_name_step fuel _ _ _ _ _ _ Hl Hf Htext Hws Hrest) as (pre & _ & ->).
    rewrite bool_decide_false by done. rewrite span_name, take_app_length by done. cbv zeta.
    by rewrite bool_decide_false.
  - destruct (first_table_name_step fuel _ _ _ _ _ _ Hl Hf Htext Hws) as (pre & Hs & ->).
    { intros c [= <-]. unfold blank. rewrite !elem_of_cons, elem_of_nil. lia. }
    rewrite bool_decide_true by done. rewrite Hs.
    rewrite (proj2 (matching_paren_segs pre _ _ _ Hq)) by eauto.
    rewrite Nat.add_1_r, drop_app_cons.
    replace (S (length pre) + length (text inner) - S (length pre)) with (length (text inner)) by lia.
    pose proof (segs_text _ _ Hq) as Hqt. rewrite text_app in Hqt.
    rewrite <-Hqt, take_app_length. apply IH.
    rewrite Hs, <-Hqt, length_app in Hlt. simpl in Hlt. rewrite length_app in Hlt. lia.
Qed.

Lemma reads_table_char s t : reads s t → t ≠ [] ∧ Forall table_char t.
Proof. induction 1; [|done]. split; [done|]. by apply Forall_trim. Qed.

(** C37. [first_table_name] always ends and returns exactly what the query
    reads first.  A query is cut in one way into literals, quoted identifiers,
    comments and the characters between them; the name is the text after the
    first whole word [from] among those characters, up to a blank, [;], [,] or
    [)], or, where a parenthesis opens there, what the query up to the matching
    one reads first, through any nesting.  It is never empty. *)
Theorem first_table_name_spec s t :
  (∃ l, segs s l ∧ text l = s ∧ ∀ l', segs s l' → l' = l)
  ∧ (first_table_name s = Some t ↔ reads s t ∧ t ≠ [] ∧ Forall table_char t).
Proof.
  split.
  - destruct (segs_total s) as [l Hl]. exists l. split_and!; [done|by apply segs_text|].
    intros l' Hl'. by eapply segs_det.
  - split.
    + intros H%first_table_name_rec_sound. split; [done|]. by eapply reads_table_char.
    + intros [H _]. apply first_table_name_rec_complete; [done|lia].
Qed.

(** A query in a literal or a comment is not read. *)
Lemma reads_example :
  reads (lit "select 'from a' -- from b
 , (x) FROM ( select y from geo.t, u) z") (lit "geo.t").
Proof. apply first_table_name_rec_sound with 100. vm_compute. reflexivity. Qed.

(** ** Stripping a provider prefix *)

(** A query as the sequence of what the scanner meets: an opaque region, a
    byte, a provider prefix. *)
Inductive piece := Opq (s : str) | Chr (c : N) | Ref.

Section Strip.
Variable name : str.

Definition qualified (p : piece) : str :=
  match p with Opq s => s | Chr c => [c] | Ref => name ++ [DOT] end.
Definition unqualified (p : piece) : str :=
  match p with Opq s => s | Chr c => utf8_encode c | Ref => [] end.

(** a provider prefix stands at the head of the text: what precedes is neither
    a name nor a dot, and what follows the dot is a name or opens a quoted one *)
Definition prefix_here (prev : option N) (s r : str) : Prop :=
  (∀ c, prev = Some c → ¬ name_char c ∧ c ≠ 46%N)
  ∧ s = name ++ 46%N :: r ∧ ∃ c, head r = Some c ∧ (name_char c ∨ c ∈ [34; 96; 91]%N).

Lemma boundary_spec prev :
  boundary prev = true ↔ ∀ c, prev = Some c → ¬ name_char c ∧ c ≠ DOT.
Proof.
  unfold boundary. destruct prev as [c|]; cbn [is_none_or]; [|by split].
  rewrite andb_true_iff, !negb_true_iff, <-not_true_iff_false, is_ident_byte_spec, N.eqb_neq.
  split; [by intros H d [= <-]|]. intros H. by apply H.
Qed.

Lemma ref_start_spec c : ref_start c = true ↔ name_char c ∨ c ∈ [34; 96; 91]%N.
Proof.
  unfold ref_start. rewrite !orb_true_iff, is_ident_byte_spec, !N.eqb_eq, !elem_of_cons, elem_of_nil.
  tauto.
Qed.

Inductive pieces : option N → str → list piece → Prop :=
| pc_nil prev : pieces prev [] []
| pc_opq prev t s l :
    kept t s → pieces (last t) s l → pieces prev (t ++ s) (Opq t :: l)
| pc_ref prev s r l :
    none_here kept s → prefix_here prev s r → pieces (Some 46%N) r l →
    pieces prev s (Ref :: l)
| pc_chr prev c r l :
    none_here kept (c :: r) → (∀ r', ¬ prefix_here prev (c :: r) r') →
    pieces (Some c) r l → pieces prev (c :: r) (Chr c :: l).

Lemma prefix_here_nil prev r : ¬ prefix_here prev [] r.
Proof. intros (_ & H & _). by destruct name. Qed.

Lemma pieces_opq_inv prev t s x l :
  pieces prev x l → kept t s → x = t ++ s → ∃ l', l = Opq t :: l' ∧ pieces (last t) s l'.
Proof.
  destruct 1 as [prev|prev t' s' l Ht' Hl|prev x r l Hn|prev c r l Hn]; intros Ht Heq.
  - symmetry in Heq. apply app_nil in Heq as [-> _]. by apply region_nonempty in Ht.
  - destruct (kept_cuts_once _ _ _ _ Ht' Ht Heq) as [-> ->]. eauto.
  - by exfalso; eapply Hn.
  - by exfalso; eapply Hn.
Qed.

Lemma pieces_ref_inv prev x r l :
  pieces prev x l → none_here kept x → prefix_here prev x r →
  ∃ l', l = Ref :: l' ∧ pieces (Some 46%N) r l'.
Proof.
  destruct 1 as [prev|prev t' s' l Ht' Hl|prev x r' l Hn' Hp'|prev c r' l Hn' Hp']; intros Hn Hp.
  - by exfalso; eapply prefix_here_nil.
  - by exfalso; eapply Hn.
  - exists l. split; [done|]. destruct Hp as (_ & -> & _), Hp' as (_ & Heq & _).
    apply app_inv_head in Heq. by injection Heq as ->.
  - by exfalso; eapply Hp'.
Qed.

Lemma pieces_chr_inv prev x c r l :
  pieces prev x l → x = c :: r → none_here kept x → (∀ r', ¬ prefix_here prev x r') →
  ∃ l', l = Chr c :: l' ∧ pieces (Some c) r l'.
Proof.
  destruct 1 as [prev|prev t' s' l Ht' Hl|prev x r' l Hn' Hp'|prev c' r' l Hn' Hp']; intros Heq Hn Hp.
  - done.
  - by exfalso; eapply Hn.
  - by exfalso; eapply Hp.
  - injection Heq as -> ->. eauto.
Qed.

Lemma pieces_det prev s l1 l2 : pieces prev s l1 → pieces prev s l2 → l1 = l2.
Proof.
  intros H1. revert l2.
  induction H1 as [prev|prev t s l Ht _ IH|prev s r l Hn Hp _ IH|prev c r l Hn Hp _ IH]; intros l2 H2.
  - inversion H2 as [|? t s l Ht| |]; subst; [done| |by exfalso; eapply prefix_here_nil].
    destruct t; [|done]. by apply region_nonempty in Ht.
  - destruct (pieces_opq_inv _ _ _ _ _ H2 Ht eq_refl) as (l' & -> & H'). f_equal. auto.
  - destruct (pieces_ref_inv _ _ _ _ H2 Hn Hp) as (l' & -> & H'). f_equal. auto.
  - destruct (pieces_chr_inv _ _ _ _ _ H2 eq_refl Hn Hp) as (l' & -> & H'). f_equal. auto.
Qed.

Lemma pieces_qualified prev s l : pieces prev s l → concat (qualified <$> l) = s.
Proof.
  induction 1 as [|prev t s l Ht _ IH|prev s r l Hn (_ & -> & _) _ IH|prev c r l Hn Hp _ IH];
    rewrite ?fmap_cons; cbn [concat qualified]; [done|..]; rewrite IH; [done| |done].
  by rewrite <-app_assoc.
Qed.

Lemma prev_byte_take s i n :
  0 < n → i + n ≤ length s → prev_byte s (i + n) = last (take n (drop i s)).
Proof.
  intros Hn Hle. destruct n as [|n]; [lia|]. rewrite Nat.add_succ_r. simpl prev_byte.
  destruct (s !! (i + n)) as [c|] eqn:Hc; [|apply lookup_ge_None in Hc; lia].
  rewrite (take_S_r (drop i s) n c) by (by rewrite lookup_drop). by rewrite last_snoc.
Qed.

Lemma strips_here_spec s i :
  strips_here s name i = true ↔
  prefix_here (prev_byte s i) (drop i s) (drop (i + (length name + 1)) s).
Proof.
  unfold strips_here, prefix_here. rewrite <-boundary_spec, !andb_true_iff, !bool_decide_eq_true.
  replace (i + (length name + 1)) with (S (i + length name)) by lia.
  replace (i + length name + 1) with (S (i + length name)) by lia. rewrite head_lookup.
  rewrite lookup_drop, Nat.add_0_r. split.
  - intros ((((Hb & Hlt) & Hname) & Hdot) & Href). split_and!; [done| |].
    + rewrite <-(take_drop (length name) (drop i s)), Hname, drop_drop.
      by rewrite (drop_S _ _ _ Hdot).
    + destruct (s !! S (i + length name)) as [c|] eqn:Hc; [|done].
      exists c. by rewrite <-ref_start_spec.
  - intros (Hb & Heq & c & Hc & Href%ref_start_spec). rewrite Hc.
    assert (s !! (i + length name) = Some DOT) as Hdot.
    { rewrite <-lookup_drop, Heq. by rewrite list_lookup_middle. }
    split_and!; try done; [by apply lookup_lt_Some in Hdot|]. by rewrite Heq, take_app_length.
Qed.

Lemma strip_loop_pieces fuel s i out :
  length s < fuel + i → i ≤ length s →
  ∃ l, pieces (prev_byte s i) (drop i s) l
     ∧ strip_loop fuel s name i out = out ++ concat (unqualified <$> l).
Proof.
  revert i out. induction fuel as [|fuel IH]; intros i out Hf Hi; [lia|]. cbn [strip_loop].
  destruct (s !! i) as [b|] eqn:Hb.
  2:{ exists []. rewrite (drop_lookup_None _ _ Hb). split; [constructor|]. by rewrite app_nil_r. }
  pose proof (lookup_lt_Some _ _ _ Hb) as Hlt.
  pose proof (strip_region_shape (drop i s)) as Hshape.
  destruct (strip_region (drop i s)) as [n|] eqn:Hn.
  - pose proof (strip_region_bound _ _ Hn) as Hbd. rewrite length_drop in Hbd.
    destruct (IH (i + n) (out ++ take n (drop i s)) ltac:(lia) ltac:(lia)) as (l & Hl & Heq).
    exists (Opq (take n (drop i s)) :: l). split.
    + rewrite <-(take_drop n (drop i s)) at 1. apply pc_opq; [done|].
      rewrite drop_drop, <-prev_byte_take by lia. done.
    + rewrite Heq. simpl. by rewrite <-app_assoc.
  - destruct (strips_here s name i) eqn:Hs.
    + apply strips_here_spec in Hs.
      pose proof Hs as (_ & Hd & _). apply (f_equal length) in Hd.
      rewrite length_drop, length_app in Hd. simpl in Hd. rewrite length_drop in Hd.
      destruct (IH (i + (length name + 1)) out ltac:(lia) ltac:(lia)) as (l & Hl & Heq).
      exists (Ref :: l). split; [|exact Heq]. eapply pc_ref; [done|done|].
      replace (prev_byte s (i + (length name + 1))) with (Some DOT) in Hl; [done|].
      rewrite (prev_byte_take s i) by lia. destruct Hs as (_ & -> & _).
      rewrite Nat.add_1_r, take_app_S. by rewrite last_snoc.
    + destruct (IH (i + 1) (out ++ utf8_encode b) ltac:(lia) ltac:(lia)) as (l & Hl & Heq).
      exists (Chr b :: l). rewrite (drop_S _ _ _ Hb) in Hn, Hshape |- *. split.
      * apply pc_chr; [done| |].
        -- intros r' Hr'. rewrite <-(drop_S _ _ _ Hb) in Hr'. apply not_true_iff_false in Hs.
           apply Hs, strips_here_spec. destruct Hr' as (Hbd & Heq' & Hr').
           replace (drop (i + (length name + 1)) s) with r'; [done|].
           rewrite <-drop_drop, Heq', Nat.add_1_r. by rewrite drop_app_cons.
        -- rewrite Nat.add_1_r in Hl. simpl in Hl. by rewrite Hb in Hl.
      * rewrite Heq. simpl. by rewrite <-app_assoc.
Qed.
End Strip.

(** C23. [strip_provider_prefix] removes exactly the provider prefixes: the
    query has one decomposition into opaque regions (literals, quoted
    identifiers, comments), single bytes and occurrences of [<name>.] at the
    start of a qualified reference; the decomposition spells the query, and
    the result keeps every region verbatim, drops every prefix and re-encodes
    every other byte as a character of its own (an ASCII byte is itself). *)
Theorem strip_provider_prefix_spec sql name :
  name ≠ [] →
  ∃ l, pieces name None sql l ∧ (∀ l', pieces name None sql l' → l' = l)
     ∧ concat (qualified name <$> l) = sql
     ∧ strip_provider_prefix sql name = concat (unqualified <$> l).
Proof.
  intros Hne. destruct (strip_loop_pieces name (S (length sql)) sql 0 []) as (l & Hl & Heq); [lia..|].
  rewrite drop_0 in Hl. exists l. split_and!; [done| | |].
  - intros l' Hl'. by eapply pieces_det.
  - by eapply pieces_qualified.
  - unfold strip_provider_prefix. by rewrite bool_decide_false.
Qed.

Lemma strip_provider_prefix_spec_witness :
  strip_provider_prefix (lit "select geo.a, 'geo.x', geography.x from geo.public.t") (lit "geo")
  = lit "select a, 'geo.x', geography.x from public.t"
  ∧ ∃ l, pieces (lit "geo") None (lit "geo.a") l.
Proof.
  split; [vm_compute; reflexivity|].
  destruct (strip_provider_prefix_spec (lit "geo.a") (lit "geo") ltac:(discriminate))
    as (l & Hl & _). by exists l.
Defined.

(** A query with non-ASCII text outside a literal or comment does not survive:
    every byte of a multi-byte character becomes a character. *)
Theorem strip_corrupts_non_ascii :
  strip_provider_prefix (lit "é") (lit "geo") ≠ lit "é"
  ∧ strip_provider_prefix (lit "'é'") (lit "geo") = lit "'é'".
Proof. split; [by vm_compute|vm_compute; reflexivity]. Qed.

(** ** The routing memo *)

Section Memo.
Context {R : Type} `{ProviderRegistry R}.
Variable default_hash : list N → N.
Implicit Types (calls : list (R * str)) (memo : RouteMemo).

(** Every remembered decision was computed for some call of [calls] against a
    registry of the memo's version. *)
Definition memo_ok calls memo : Prop :=
  size (memo_map memo) ≤ ROUTE_MEMO_CAP
  ∧ ∀ k r, memo_map memo !! k = Some r →
      ∃ c, c ∈ calls ∧ k = sql_route_key default_hash c.2
         ∧ registry_epoch c.1 = memo_epoch memo ∧ r = compute_route c.1 c.2.

Definition no_collision calls : Prop :=
  ∀ c1 c2, c1 ∈ calls → c2 ∈ calls →
  sql_route_key default_hash c1.2 = sql_route_key default_hash c2.2 → c1.2 = c2.2.

Definition versioned calls : Prop :=
  ∀ c1 c2, c1 ∈ calls → c2 ∈ calls →
  registry_epoch c1.1 = registry_epoch c2.1 →
  ∀ n, registry_has c1.1 n = registry_has c2.1 n.

Lemma compute_route_ext (rt1 rt2 : R) sql :
  (∀ n, registry_has rt1 n = registry_has rt2 n) →
  compute_route rt1 sql = compute_route rt2 sql.
Proof. intros Hext. unfold compute_route. repeat case_match; by rewrite ?Hext in *; congruence. Qed.

Lemma memo_insert_ok calls memo rt sql :
  memo_ok calls memo → (rt, sql) ∈ calls →
  let map := if bool_decide (ROUTE_MEMO_CAP ≤ size (memo_map memo)) then ∅ else memo_map memo in
  registry_epoch rt = memo_epoch memo →
  memo_ok calls {| memo_epoch := memo_epoch memo;
                   memo_map := <[sql_route_key default_hash sql := compute_route rt sql]> map |}.
Proof.
  intros [Hsz Hok] Hin map Hep. split; simpl.
  - rewrite map_size_insert. assert (size map < ROUTE_MEMO_CAP) as Hlt.
    { unfold map. case_bool_decide; [rewrite map_size_empty; unfold ROUTE_MEMO_CAP; lia|lia]. }
    destruct (map !! _); simpl; lia.
  - intros k r [[<- <-]|[_ Hl]]%lookup_insert_Some.
    + exists (rt, sql). done.
    + apply Hok. unfold map in Hl. case_bool_decide; [by rewrite lookup_empty in Hl|done].
Qed.

Lemma route_provider_sql_ok calls memo rt sql :
  no_collision calls → versioned calls → memo_ok calls memo → (rt, sql) ∈ calls →
  (route_provider_sql default_hash rt memo sql).1 = compute_route rt sql
  ∧ memo_ok calls (route_provider_sql default_hash rt memo sql).2.
Proof.
  intros Hcol Hver Hok Hin. unfold route_provider_sql.
  destruct (memo_epoch memo =? registry_epoch rt)%N eqn:He; cbn [negb].
  - apply N.eqb_eq in He. destruct (memo_map memo !! _) as [r|] eqn:Hl; simpl.
    + split; [|done]. destruct (proj2 Hok _ _ Hl) as ([rt' sql'] & Hin' & Hk & Hep & ->).
      simpl in *. pose proof (Hcol (rt, sql) (rt', sql') Hin Hin' Hk) as Hsql. simpl in Hsql.
      subst sql'. apply compute_route_ext. intros n.
      apply (Hver (rt', sql) (rt, sql) Hin' Hin). simpl. congruence.
    + split; [done|]. rewrite <-He. by apply memo_insert_ok.
  - split; [done|]. simpl.
    apply (memo_insert_ok calls
             {| memo_epoch := registry_epoch rt; memo_map := ∅ |} rt sql); [|done..].
    split; simpl; [rewrite map_size_empty; lia|]. intros k r. by rewrite lookup_empty.
Qed.

Lemma route_calls_ok calls memo todo :
  no_collision calls → versioned calls → memo_ok calls memo → (∀ c, c ∈ todo → c ∈ calls) →
  (route_calls default_hash memo todo).1 = (λ '(rt, sql), compute_route rt sql) <$> todo
  ∧ memo_ok calls (route_calls default_hash memo todo).2.
Proof.
  intros Hcol Hver. revert memo. induction todo as [|[rt sql] todo IH]; intros memo Hok Hin; [done|].
  cbn [route_calls]. destruct (route_provider_sql_ok calls memo rt sql) as [Hr Hok'];
    [done..|apply Hin; left|].
  destruct (route_provider_sql _ rt memo sql) as [r memo'] eqn:Heq; simpl in Hr, Hok'.
  destruct (IH memo' Hok') as [Hrs Hok'']; [intros c Hc; apply Hin; by right|].
  destruct (route_calls _ memo' todo) as [rs memo''] eqn:Heq'; simpl in *. subst. done.
Qed.

(** C24. The routing memo is transparent and bounded: in any run of calls, with
    providers installed and removed in between, each answer is the one
    computed from the current registry, and the memo never holds more than
    1024 entries - provided the registry version determines the installed
    names and the 64-bit hash does not collide on the queries of the run. *)
Theorem route_memo_transparent calls :
  no_collision calls → versioned calls →
  (route_calls default_hash route_memo calls).1 = (λ '(rt, sql), compute_route rt sql) <$> calls
  ∧ size (memo_map (route_calls default_hash route_memo calls).2) ≤ ROUTE_MEMO_CAP.
Proof.
  intros Hcol Hver. destruct (route_calls_ok calls route_memo calls) as [Hr [Hsz _]]; [done..| |done|done].
  split; simpl; [rewrite map_size_empty; lia|]. intros k r. by rewrite lookup_empty.
Qed.
End Memo.

(** a registry for the witness: a version and the installed names *)
#[local] Instance demo_registry : ProviderRegistry (N * list str) :=
  {| registry_epoch := fst; registry_has r n := bool_decide (n ∈ r.2) |}.

Lemma route_memo_transparent_witness :
  let hash := foldl N.add 0%N in
  let q := lit "select a from geo.t" in
  let calls := [((1%N, [lit "geo"]), q); ((1%N, [lit "geo"]), q); ((2%N, []), q)] in
  (route_calls hash route_memo calls).1
  = [Some (lit "geo", lit "select a from t"); Some (lit "geo", lit "select a from t"); None].
Proof.
  intros hash q calls.
  rewrite (proj1 (route_memo_transparent hash calls
    ltac:(intros c1 c2 H1 H2 _; elem_cases; done)
    ltac:(intros c1 c2 H1 H2 He n; elem_cases; done))).
  vm_compute. reflexivity.
Defined.
