(* ===== verification/Model.v ===== *)
(** * Values, fields and query parameters

    The field values of the [wp_model_core] crate as this code constructs and
    matches them, the query parameters of src/runtime.rs with the conversions
    between the two, the parameter encoding of src/param.rs and the field
    helpers of src/field_format.rs.  A payload whose type is foreign to the
    program is represented by what the program observes of it. *)
From S2P Require Import Prelude Errors RustStr.

(** ** Addresses of the standard library *)

Inductive IpAddr := V4 (a : N) | V6 (a : N).
#[export] Instance ipaddr_eq_dec : EqDecision IpAddr.
Proof. solve_decision. Defined.
#[export] Instance ipaddr_countable : Countable IpAddr :=
  inj_countable' (λ a, match a with V4 n => inl n | V6 n => inr n end)
                 (λ s, match s with inl n => V4 n | inr n => V6 n end) ltac:(by intros []).

Definition octet (a : N) (i : N) : N := ((a `div` 256 ^ i) `mod` 256)%N.

Definition ipv4_text (a : N) : str :=
  dec (octet a 3) ++ [DOT] ++ dec (octet a 2) ++ [DOT] ++ dec (octet a 1) ++ [DOT]
  ++ dec (octet a 0).

Definition hex_digit (n : N) : N := if (n <? 10)%N then (48 + n)%N else (97 + (n - 10))%N.

(** [{:x}] of a 16-bit segment *)
Definition hex16 (n : N) : str :=
  let ds := hex_digit <$> [n `div` 4096; (n `div` 256) `mod` 16; (n `div` 16) `mod` 16]%N in
  drop (span (λ c, c =? 48)%N ds) ds ++ [hex_digit (n `mod` 16)%N].

Definition segments (a : N) : list N :=
  (λ i, ((a `div` 65536 ^ i) `mod` 65536)%N) <$> [7; 6; 5; 4; 3; 2; 1; 0]%N.

(** start and length of the first longest run of zero segments *)
Fixpoint zero_run (i : nat) (l : list N) (cur best : nat * nat) : nat * nat :=
  match l with
  | [] => best
  | x :: l =>
      if (x =? 0)%N then
        let cur := if bool_decide (cur.2 = 0) then (i, 1) else (cur.1, S cur.2) in
        zero_run (S i) l cur (if bool_decide (best.2 < cur.2) then cur else best)
      else zero_run (S i) l (0, 0) best
  end.

Definition join_segments (l : list N) : str :=
  match hex16 <$> l with
  | [] => []
  | s :: l => s ++ concat ((λ s, COLON :: s) <$> l)
  end.

Definition ipv6_text (a : N) : str :=
  if (a `div` 4294967296 =? 65535)%N then lit "::ffff:" ++ ipv4_text (a `mod` 4294967296)%N
  else
    let l := segments a in
    let '(start, len) := zero_run 0 l (0, 0) (0, 0) in
    if bool_decide (1 < len)
    then join_segments (take start l) ++ [COLON; COLON] ++ join_segments (drop (start + len) l)
    else join_segments l.

Definition ip_to_string (a : IpAddr) : str :=
  match a with V4 n => ipv4_text n | V6 n => ipv6_text n end.

(** the [w] little-endian bytes of a number *)
Fixpoint le_bytes (w : nat) (n : N) : list N :=
  match w with 0 => [] | S w => (n `mod` 256)%N :: le_bytes w (n `div` 256)%N end.

(** what [IpAddr::hash] feeds: the discriminant as isize, then the octets *)
Definition ip_hash_bytes (a : IpAddr) : list N :=
  match a with
  | V4 n => le_bytes 8 0 ++ reverse (le_bytes 4 n)
  | V6 n => le_bytes 8 1 ++ reverse (le_bytes 16 n)
  end.

(** ** Field values *)

(** A foreign payload: its [Display] text, its [Debug] text, the text of its
    field [.0] and the bytes its [Hash] feeds. *)
Record Foreign := {
  display : str;
  debug : str;
  field0 : str;
  hash_feed : list N;
}.
#[export] Instance foreign_eq_dec : EqDecision Foreign.
Proof. solve_decision. Defined.

(** a float is its IEEE-754 bits *)
Inductive Value :=
| Null
| Bool (b : bool)
| Chars (s : str)
| Symbol (s : str)
| Time (v : Foreign)
| Int (z : Z)
| Float (bits : N)
| Hex (v : Foreign)
| IpNet (v : Foreign)
| Ip (a : IpAddr)
| Ignore (v : Foreign)
| Obj (v : Foreign)
| Array (v : Foreign)
| Domain (v : Foreign)
| Url (v : Foreign)
| Email (v : Foreign)
| IdCard (v : Foreign)
| MobilePhone (v : Foreign)
| BigUint (n : N).
#[export] Instance value_eq_dec : EqDecision Value.
Proof. solve_decision. Defined.

(** the type tags that the field constructors set *)
Inductive DataType := DtDefault | DtDigit | DtFloat | DtChars | DtBigInt | DtBool.
#[export] Instance datatype_eq_dec : EqDecision DataType.
Proof. solve_decision. Defined.

Record DataField := field_new {
  get_meta : DataType;
  get_name : str;
  get_value : Value;
}.
#[export] Instance datafield_eq_dec : EqDecision DataField.
Proof. solve_decision. Defined.

Abbreviation RowData := (list DataField).

Definition from_int (name : str) (z : Z) : DataField := field_new DtDigit name (Int z).
Definition from_bool (name : str) (b : bool) : DataField := field_new DtBool name (Bool b).
Definition from_float (name : str) (bits : N) : DataField := field_new DtFloat name (Float bits).
Definition from_chars (name s : str) : DataField := field_new DtChars name (Chars s).

(** ** Field helpers (src/field_format.rs) *)

Definition chars_field (name value : str) : DataField := from_chars name value.
(** the caller's [value.to_string()] is its argument here *)
Definition display_chars_field (name shown : str) : DataField := chars_field name shown.

Definition nibble_to_hex (nibble : N) : N :=
  if (nibble <=? 9)%N then (48 + nibble)%N else (97 + (nibble - 10))%N.

Definition bytes_to_hex (bytes : list N) : str :=
  concat ((λ b, [nibble_to_hex (N.shiftr b 4); nibble_to_hex (N.land b 15)]) <$> bytes).

Definition bytes_to_prefixed_hex (bytes : list N) : str := lit "0x" ++ bytes_to_hex bytes.

(** ** Parameters (src/runtime.rs) *)

Inductive QueryValue :=
| QNull
| QBool (b : bool)
| QInt (z : Z)
| QFloat (bits : N)
| QText (s : str).
#[export] Instance queryvalue_eq_dec : EqDecision QueryValue.
Proof. solve_decision. Defined.

Record QueryParam := { param_name : str; param_value : QueryValue }.
#[export] Instance queryparam_eq_dec : EqDecision QueryParam.
Proof. solve_decision. Defined.

Definition field_to_value (v : Value) : QueryValue :=
  match v with
  | Null | Ignore _ => QNull
  | Bool b => QBool b
  | Int z => QInt z
  | Float f => QFloat f
  | Chars s => QText s
  | Symbol s => QText s
  | Time v => QText (display v)
  | Hex v => QText (display v)
  | IpNet v => QText (display v)
  | Ip a => QText (ip_to_string a)
  | Obj v => QText (debug v)
  | Array v => QText (debug v)
  | Domain v => QText (field0 v)
  | Url v => QText (field0 v)
  | Email v => QText (field0 v)
  | IdCard v => QText (field0 v)
  | MobilePhone v => QText (field0 v)
  | BigUint n => QText (dec n)
  end.

Definition fields_to_params (params : list DataField) : list QueryParam :=
  (λ f, {| param_name := get_name f; param_value := field_to_value (get_value f) |}) <$> params.

Definition param_to_field (p : QueryParam) : DataField :=
  match param_value p with
  | QNull => field_new DtDefault (param_name p) Null
  | QBool b => field_new DtDefault (param_name p) (Bool b)
  | QInt z => from_int (param_name p) z
  | QFloat f => from_float (param_name p) f
  | QText s => from_chars (param_name p) s
  end.

Definition params_to_fields (params : list QueryParam) : list DataField :=
  param_to_field <$> params.

(** ** Hash feeds of the parameters *)

(** The standard hasher's algorithm is unspecified: a 64-bit function of the
    bytes it is fed. *)
Class Hasher := {
  finish : list N → N;
  finish_u64 b : (finish b ≤ u64_max)%N;
}.

Definition feed_str (s : str) : list N := s ++ [255%N].
Definition feed_bool (b : bool) : list N := [if b then 1 else 0]%N.
(** i64 and u64 in the machine's byte order, little endian *)
Definition u64_of_i64 (z : Z) : N := Z.to_N (z `mod` 18446744073709551616).
Definition feed_i64 (z : Z) : list N := le_bytes 8 (u64_of_i64 z).
Definition feed_u64 (n : N) : list N := le_bytes 8 n.

Definition feed_param (p : QueryParam) : list N :=
  feed_str (param_name p) ++
  match param_value p with
  | QNull => [0%N]
  | QBool b => 1%N :: feed_bool b
  | QInt z => 2%N :: feed_i64 z
  | QFloat f => 3%N :: feed_u64 f
  | QText s => 4%N :: feed_str s
  end.

Definition feed_value (v : Value) : list N :=
  match v with
  | Null | Ignore _ => [0%N]
  | Bool b => 1%N :: feed_bool b
  | Int z => 2%N :: feed_i64 z
  | Float b => 3%N :: feed_u64 b
  | Chars s => 4%N :: feed_str s
  | Symbol s => 5%N :: feed_str s
  | Time v => 6%N :: hash_feed v
  | Hex v => 7%N :: feed_str (display v)
  | IpNet v => 8%N :: feed_str (display v)
  | Ip a => 9%N :: ip_hash_bytes a
  | Obj v => 10%N :: feed_str (debug v)
  | Array v => 11%N :: feed_str (debug v)
  | Domain v => 12%N :: feed_str (field0 v)
  | Url v => 13%N :: feed_str (field0 v)
  | Email v => 14%N :: feed_str (field0 v)
  | IdCard v => 15%N :: feed_str (field0 v)
  | MobilePhone v => 16%N :: feed_str (field0 v)
  | BigUint n => 17%N :: feed_str (dec n)
  end.

Definition feed_field (f : DataField) : list N :=
  feed_str (get_name f) ++ feed_value (get_value f).

Definition params_feed (params : list QueryParam) : list N := concat (feed_param <$> params).
Definition fields_feed (params : list DataField) : list N := concat (feed_field <$> params).

Section Hash.
Context `{Hasher}.

Definition stable_hash (value : str) : N := finish (feed_str value).
Definition stable_params_hash (params : list QueryParam) : N := finish (params_feed params).
Definition stable_field_params_hash (params : list DataField) : N := finish (fields_feed params).
End Hash.

(** ** Encoding of SQL parameters (src/param.rs)

    The rusqlite types that the code matches on; [OutOther] stands for the
    output kinds of rusqlite that fall into the last arm. *)
Module Param.

Inductive SqlValue :=
| SqlNull | SqlInteger (z : Z) | SqlReal (bits : N) | SqlText (s : str) | SqlBlob (b : list N).

Inductive ToSqlOutput :=
| Borrowed (v : SqlValue)
| Owned (v : SqlValue)
| OutOther.

Definition normalize_param_name (name : str) : str :=
  if starts_with COLON name then name else COLON :: name.

Definition data_field_from_value_ref (name : str) (v : SqlValue) : KnowledgeResult DataField :=
  match v with
  | SqlNull => Ok (field_new DtDefault name Null)
  | SqlInteger z => Ok (from_int name z)
  | SqlReal f => Ok (from_float name f)
  | SqlText b =>
      if utf8_valid b then Ok (from_chars name b)
      else Err (know_err from_rule [F "sql text param utf8 decode failed: "; Dbg b])
  | SqlBlob b => Ok (from_chars name (from_utf8_lossy b))
  end.

Definition data_field_from_value (name : str) (v : SqlValue) : DataField :=
  match v with
  | SqlNull => field_new DtDefault name Null
  | SqlInteger z => from_int name z
  | SqlReal f => from_float name f
  | SqlText s => from_chars name s
  | SqlBlob b => from_chars name (from_utf8_lossy b)
  end.

Definition data_field_from_sql_output (name : str) (o : ToSqlOutput) : KnowledgeResult DataField :=
  match o with
  | Borrowed v => data_field_from_value_ref name v
  | Owned v => Ok (data_field_from_value name v)
  | OutOther => Ok (field_new DtDefault name Null)
  end.

(** each parameter is its name and what the caller's [to_sql] returned *)
Fixpoint named_params_to_fields (params : list (str * Result str ToSqlOutput))
  : KnowledgeResult (list DataField) :=
  match params with
  | [] => Ok []
  | (name, value) :: params =>
      output ← map_err (λ e, know_err from_rule [F "sql param encode failed: "; D e]) value;
      field ← data_field_from_sql_output (normalize_param_name name) output;
      fields ← named_params_to_fields params;
      Ok (field :: fields)
  end.
End Param.

(** ** Facts *)

(** *** Prefix-free encodings *)

Lemma feed_str_split s1 s2 r1 r2 :
  Forall (λ c, c ≠ 255%N) s1 → Forall (λ c, c ≠ 255%N) s2 →
  feed_str s1 ++ r1 = feed_str s2 ++ r2 → s1 = s2 ∧ r1 = r2.
Proof.
  unfold feed_str. intros H1. revert s2.
  induction H1 as [|x s1 Hx _ IH]; intros [|y s2] H2 Heq; simpl in Heq;
    inversion H2; simplify_eq; try done.
  edestruct IH as [-> ->]; [|done|]; done.
Qed.

Lemma length_le_bytes w n : length (le_bytes w n) = w.
Proof. revert n. induction w; intros n; simpl; auto. Qed.

Lemma le_bytes_inj w n m :
  (n < 256 ^ N.of_nat w)%N → (m < 256 ^ N.of_nat w)%N → le_bytes w n = le_bytes w m → n = m.
Proof.
  revert n m. induction w as [|w IH]; intros n m Hn Hm Heq.
  - change (256 ^ N.of_nat 0)%N with 1%N in *. lia.
  - rewrite Nat2N.inj_succ, N.pow_succ_r' in Hn, Hm. cbn [le_bytes] in Heq.
    injection Heq as Hmod Hdiv.
    assert (n `div` 256 = m `div` 256)%N; [|lia].
    apply IH; [apply N.Div0.div_lt_upper_bound; lia..|done].
Qed.

Lemma le_bytes_split w n m r1 r2 :
  (n < 256 ^ N.of_nat w)%N → (m < 256 ^ N.of_nat w)%N →
  le_bytes w n ++ r1 = le_bytes w m ++ r2 → n = m ∧ r1 = r2.
Proof.
  intros Hn Hm Heq. apply app_inj_1 in Heq as [Heq ->]; [|by rewrite !length_le_bytes].
  split; [|done]. by eapply le_bytes_inj.
Qed.

Lemma rev_le_bytes_split w n m r1 r2 :
  (n < 256 ^ N.of_nat w)%N → (m < 256 ^ N.of_nat w)%N →
  reverse (le_bytes w n) ++ r1 = reverse (le_bytes w m) ++ r2 → n = m ∧ r1 = r2.
Proof.
  intros Hn Hm Heq. apply app_inj_1 in Heq as [Heq%(inj reverse) ->];
    [|by rewrite !length_reverse, !length_le_bytes].
  split; [|done]. by eapply le_bytes_inj.
Qed.

(** a text holds no byte 0xff, as every UTF-8 text *)
Definition text (s : str) : Prop := Forall (λ c, c ≠ 255%N) s.
Definition i64_range (z : Z) : Prop := (- 9223372036854775808 ≤ z ≤ 9223372036854775807)%Z.

Lemma feed_i64_split z1 z2 r1 r2 :
  i64_range z1 → i64_range z2 → feed_i64 z1 ++ r1 = feed_i64 z2 ++ r2 → z1 = z2 ∧ r1 = r2.
Proof.
  unfold i64_range, feed_i64. intros H1 H2 Heq.
  apply le_bytes_split in Heq as [Heq ->]; [|unfold u64_of_i64; simpl; lia..].
  split; [|done]. unfold u64_of_i64 in Heq. lia.
Qed.

Lemma feed_u64_split n1 n2 r1 r2 :
  (n1 ≤ u64_max)%N → (n2 ≤ u64_max)%N → feed_u64 n1 ++ r1 = feed_u64 n2 ++ r2 → n1 = n2 ∧ r1 = r2.
Proof. unfold u64_max. intros H1 H2. apply le_bytes_split; simpl; lia. Qed.

Lemma feed_bool_split b1 b2 r1 r2 :
  feed_bool b1 ++ r1 = feed_bool b2 ++ r2 → b1 = b2 ∧ r1 = r2.
Proof. by destruct b1, b2; intros [= ->]. Qed.

Definition wf_ip (a : IpAddr) : Prop :=
  match a with V4 n => (n < 2 ^ 32)%N | V6 n => (n < 2 ^ 128)%N end.

Lemma ip_hash_split a1 a2 r1 r2 :
  wf_ip a1 → wf_ip a2 → ip_hash_bytes a1 ++ r1 = ip_hash_bytes a2 ++ r2 → a1 = a2 ∧ r1 = r2.
Proof.
  intros H1 H2 Heq.
  destruct a1 as [n1|n1], a2 as [n2|n2]; unfold ip_hash_bytes in Heq;
    rewrite <-!app_assoc in Heq; apply le_bytes_split in Heq as [Hd Heq]; try done;
    by apply rev_le_bytes_split in Heq as [-> ->].
Qed.

Lemma lit_inj : Inj (=) (=) lit.
Proof.
  intros s1. induction s1 as [|c1 s1 IH]; intros [|c2 s2] H; try discriminate; [done|].
  unfold lit in H. simpl in H. injection H as Hc Hs. f_equal; [|by apply IH].
  by rewrite <-(Ascii.ascii_N_embedding c1), Hc, Ascii.ascii_N_embedding.
Qed.

Lemma dec_inj : Inj (=) (=) dec.
Proof. intros n m H%lit_inj. by apply (inj pretty). Qed.

Lemma dec_text n : text (dec n).
Proof.
  eapply Forall_impl; [apply dec_digits|]. unfold is_ascii_digit. intros c H. bool_guard. lia.
Qed.

(** *** Parameters and fields *)

Definition wf_param (p : QueryParam) : Prop :=
  text (param_name p) ∧
  match param_value p with
  | QNull | QBool _ => True
  | QInt z => i64_range z
  | QFloat f => (f ≤ u64_max)%N
  | QText s => text s
  end.

(** The feed of a [Time] payload is chrono's and is not known to delimit
    itself, so fields holding one are left out here. *)
Definition wf_value (v : Value) : Prop :=
  match v with
  | Null | Ignore _ | Bool _ | BigUint _ => True
  | Time _ => False
  | Int z => i64_range z
  | Float f => (f ≤ u64_max)%N
  | Chars s | Symbol s => text s
  | Hex v | IpNet v => text (display v)
  | Obj v | Array v => text (debug v)
  | Domain v | Url v | Email v | IdCard v | MobilePhone v => text (field0 v)
  | Ip a => wf_ip a
  end.

Definition wf_field (f : DataField) : Prop := text (get_name f) ∧ wf_value (get_value f).

(** An encoding is prefix-free on [P] up to the observation [obs]. *)
Definition prefix_free {A B} (P : A → Prop) (feed : A → list N) (obs : A → B) : Prop :=
  (∀ a, P a → feed a ≠ [])
  ∧ ∀ a1 a2 r1 r2, P a1 → P a2 → feed a1 ++ r1 = feed a2 ++ r2 → obs a1 = obs a2 ∧ r1 = r2.

Lemma prefix_free_concat {A B} (P : A → Prop) feed (obs : A → B) l1 l2 :
  prefix_free P feed obs → Forall P l1 → Forall P l2 →
  concat (feed <$> l1) = concat (feed <$> l2) → obs <$> l1 = obs <$> l2.
Proof.
  intros [Hne Hpf] H1. revert l2. induction H1 as [|a l1 Ha _ IH]; intros l2 H2 Heq.
  - destruct H2 as [|b l2 Hb _]; [done|]. simpl in Heq. symmetry in Heq.
    apply app_eq_nil in Heq as [Heq _]. by apply Hne in Hb.
  - destruct H2 as [|b l2 Hb H2].
    { simpl in Heq. apply app_eq_nil in Heq as [Heq _]. by apply Hne in Ha. }
    simpl in Heq |- *.
    apply Hpf in Heq as [-> Heq]; [|done..]. f_equal. by apply IH.
Qed.

Lemma feed_nonempty s k : feed_str s ++ k ≠ [].
Proof. unfold feed_str. by destruct s. Qed.

Lemma tag_split t1 t2 f1 f2 (r1 r2 : list N) :
  (t1 :: f1) ++ r1 = (t2 :: f2) ++ r2 → t1 = t2 ∧ f1 ++ r1 = f2 ++ r2.
Proof. by intros [= -> ->]. Qed.

(** Undo one tagged encoding on both sides of [Heq]. *)
Ltac split_feed Heq :=
  apply tag_split in Heq as [Htag Heq]; first [discriminate Htag|clear Htag];
  match type of Heq with
  | feed_bool _ ++ _ = _ => apply feed_bool_split in Heq
  | feed_i64 _ ++ _ = _ => apply feed_i64_split in Heq; [|done..]
  | feed_u64 _ ++ _ = _ => apply feed_u64_split in Heq; [|done..]
  | feed_str (dec _) ++ _ = _ => apply feed_str_split in Heq; [|apply dec_text..]
  | feed_str _ ++ _ = _ => apply feed_str_split in Heq; [|done..]
  | ip_hash_bytes _ ++ _ = _ => apply ip_hash_split in Heq; [|done..]
  | [] ++ _ = _ => idtac
  end.

Ltac finish_feed Heq :=
  match type of Heq with
  | _ ∧ _ => destruct Heq as [? ->]
  | _ => cbn [app] in Heq; subst
  end; split; [|reflexivity].

Lemma feed_param_free : prefix_free wf_param feed_param id.
Proof.
  split; [intros p _; apply feed_nonempty|].
  intros [n1 v1] [n2 v2] r1 r2 [Hn1 Hv1] [Hn2 Hv2]. unfold feed_param. cbn [param_name param_value] in *.
  rewrite <-!app_assoc. intros Heq. apply feed_str_split in Heq as [-> Heq]; [|done..].
  destruct v1, v2; split_feed Heq; finish_feed Heq; congruence.
Qed.

(** the parameter a field is bound as *)
Definition bound_as (f : DataField) : QueryParam :=
  {| param_name := get_name f; param_value := field_to_value (get_value f) |}.

Lemma feed_field_free : prefix_free wf_field feed_field bound_as.
Proof.
  split; [intros f _; apply feed_nonempty|].
  intros [m1 n1 v1] [m2 n2 v2] r1 r2 [Hn1 Hv1] [Hn2 Hv2]. unfold feed_field, bound_as.
  cbn [get_name get_value] in *.
  rewrite <-!app_assoc. intros Heq. apply feed_str_split in Heq as [-> Heq]; [|done..].
  destruct v1; try done; destruct v2; try done; cbn [feed_value wf_value field_to_value] in *;
    split_feed Heq; finish_feed Heq; congruence.
Qed.

(** The cache key of a query separates its parameters: two parameter
    lists that feed the hasher the same bytes are equal, and two field lists
    that do so bind equal parameters, name by name and in order.  Only a
    collision of the 64-bit hash itself can confuse two queries. *)
Theorem params_feed_injective :
  (∀ ps1 ps2, Forall wf_param ps1 → Forall wf_param ps2 →
     params_feed ps1 = params_feed ps2 → ps1 = ps2)
  ∧ (∀ fs1 fs2, Forall wf_field fs1 → Forall wf_field fs2 →
       fields_feed fs1 = fields_feed fs2 → fields_to_params fs1 = fields_to_params fs2).
Proof.
  split.
  - intros ps1 ps2 H1 H2 Heq. rewrite <-(list_fmap_id ps1), <-(list_fmap_id ps2).
    by apply (prefix_free_concat _ _ _ _ _ feed_param_free).
  - intros fs1 fs2 H1 H2 Heq. by apply (prefix_free_concat _ _ _ _ _ feed_field_free).
Qed.

(** Parameters survive the trip through fields unchanged, and fields
    survive the trip through parameters up to what a provider binds. *)
Theorem params_fields_roundtrip :
  (∀ ps, fields_to_params (params_to_fields ps) = ps)
  ∧ (∀ fs, fields_to_params (params_to_fields (fields_to_params fs)) = fields_to_params fs).
Proof.
  assert (∀ ps, fields_to_params (params_to_fields ps) = ps) as H; [|by split].
  intros ps. unfold fields_to_params, params_to_fields. rewrite <-list_fmap_compose.
  rewrite <-(list_fmap_id ps) at 2. apply list_fmap_ext. intros i [n v] _. by destruct v.
Qed.

Lemma params_feed_injective_witness :
  fields_feed [from_int [97%N] 1] = fields_feed [from_int [97%N] 1] ∧
  fields_to_params [from_int [97%N] 1] = fields_to_params [from_int [97%N] 1].
Proof.
  split; [reflexivity|].
  apply (proj2 params_feed_injective); [by repeat constructor|by repeat constructor|reflexivity].
Defined.
