(* ===== verification/IntranetNets.v ===== *)
(** * Intranet networks (src/intranet_nets.rs)

    Which addresses count as internal: the built-in networks, merged with the
    [intranet_nets] section of the configuration, collected once on first use.
    Networks come from the [ipnet] crate, the class [IpNetLib]: parsing a CIDR
    text and testing an address, with the documented meaning of the test. *)
From S2P Require Import Prelude Errors RustStr Model.

Inductive IntranetMergeMode := Add | Replace.

Record IntranetNetsConf := {
  enabled : bool;
  mode : IntranetMergeMode;
  nets : list str;
}.

(** a network of the crate, by what the crate exposes of it *)
Record Net := { net_addr : N; prefix_len : N }.
Inductive IpNet := NetV4 (n : Net) | NetV6 (n : Net).

Class IpNetLib := {
  (** [IpNet::from_str(s).ok()] *)
  parse_net : str → option IpNet;
  v4_contains : Net → N → bool;
  v6_contains : Net → N → bool;
}.

(** the first [prefix_len] of [width] bits agree *)
Definition covers (width : N) (n : Net) (a : N) : bool :=
  (N.shiftr (net_addr n) (width - prefix_len n) =? N.shiftr a (width - prefix_len n))%N.

Definition DEFAULT_INTRANET_NETS : list str :=
  [lit "10.0.0.0/8"; lit "172.16.0.0/12"; lit "192.168.0.0/16"; lit "127.0.0.0/8";
   lit "::1/128"; lit "fc00::/7"].

Record IntranetNetsSet := { v4_nets : list Net; v6_nets : list Net }.

(** the two statics: the injected configuration and the lazily built set *)
Record IntranetState := {
  INTRANET_NETS_CONF : option IntranetNetsConf;
  INTRANET_NETS_SET : option IntranetNetsSet;
}.
Definition intranet_init : IntranetState :=
  {| INTRANET_NETS_CONF := None; INTRANET_NETS_SET := None |}.

Definition set_intranet_nets_conf (conf : option IntranetNetsConf) (s : IntranetState)
  : IntranetState :=
  {| INTRANET_NETS_CONF := conf; INTRANET_NETS_SET := INTRANET_NETS_SET s |}.

Definition split_nets (l : list IpNet) : list Net * list Net :=
  foldl (λ '(v4, v6) n, match n with
                        | NetV4 x => (v4 ++ [x], v6)
                        | NetV6 x => (v4, v6 ++ [x])
                        end) ([], []) l.

Definition isSome {A} (o : option A) : bool := match o with Some _ => true | None => false end.

Section Nets.
Context `{IpNetLib}.

Definition builtin : IntranetNetsSet :=
  let '(v4, v6) := split_nets (omap parse_net DEFAULT_INTRANET_NETS) in
  {| v4_nets := v4; v6_nets := v6 |}.

Definition merge (conf : IntranetNetsConf) (s : IntranetNetsSet) : IntranetNetsSet :=
  let '(v4, v6) := split_nets (omap (λ c, parse_net (trim c)) (nets conf)) in
  match mode conf with
  | Add => {| v4_nets := v4_nets s ++ v4; v6_nets := v6_nets s ++ v6 |}
  | Replace => {| v4_nets := v4; v6_nets := v6 |}
  end.

Definition contains (s : IntranetNetsSet) (ip : IpAddr) : bool :=
  match ip with
  | V4 a => existsb (λ n, v4_contains n a) (v4_nets s)
  | V6 a => existsb (λ n, v6_contains n a) (v6_nets s)
  end.

Definition net_count (s : IntranetNetsSet) : nat := length (v4_nets s) + length (v6_nets s).

(** the initialiser of the [Lazy] *)
Definition build_set (conf : option IntranetNetsConf) : IntranetNetsSet :=
  match conf with
  | Some conf => if enabled conf then merge conf builtin else builtin
  | None => builtin
  end.

Definition force_set : St IntranetState IntranetNetsSet := λ s,
  match INTRANET_NETS_SET s with
  | Some set => (set, s)
  | None =>
      let set := build_set (INTRANET_NETS_CONF s) in
      (set, {| INTRANET_NETS_CONF := INTRANET_NETS_CONF s; INTRANET_NETS_SET := Some set |})
  end.

(** [Ipv6Addr::to_ipv4_mapped] *)
Definition to_ipv4_mapped (a : N) : option N :=
  if (a `div` 4294967296 =? 65535)%N then Some (a `mod` 4294967296)%N else None.

Definition unmap (ip : IpAddr) : IpAddr :=
  match ip with
  | V6 a => match to_ipv4_mapped a with Some v4 => V4 v4 | None => ip end
  | V4 _ => ip
  end.

Definition is_intranet (ip : IpAddr) : St IntranetState bool :=
  set ← force_set; mret (contains set (unmap ip)).

Definition init_message (external : bool) (count : nat) : list Frag :=
  if external then [F "内网 Nets 已加载 | 外部配置生效 | 网段数: "; Num (N.of_nat count)]
  else [F "内网 Nets 已加载 | 使用内置网段 | 网段数: "; Num (N.of_nat count)].

Definition init_intranet_nets : St IntranetState (Result (list Frag) (list Frag)) :=
  set ← force_set;
  external ← gets (λ s, isSome (INTRANET_NETS_CONF s));
  mret (Ok (init_message external (net_count set))).

(** The check of a configuration file: [read], [parse] and [section] are the
    file system, the TOML parser and the typed reading of the section, whose
    first result is [None] when the section is absent. *)
Definition check_intranet_nets_config {Toml}
    (read : Result str str) (parse : str → Result str Toml)
    (section : Toml → option (Result str IntranetNetsConf))
  : Result (list Frag) (option (list Frag)) :=
  content ← (map_err (λ e, [F "读取 knowdb 配置失败: "; D e]) read : Result (list Frag) str);
  value ← (map_err (λ e, [F "解析 knowdb 配置失败: "; D e]) (parse content) : Result (list Frag) Toml);
  match section value with
  | None => Ok None
  | Some conf =>
      conf ← (map_err (λ e, [F "解析 [intranet_nets] 节失败: "; D e]) conf
              : Result (list Frag) IntranetNetsConf);
      if negb (enabled conf) then Ok None
      else
        let mode := match mode conf with Add => "add"%string | Replace => "replace"%string end in
        Ok (Some [F "内网网段配置生效 | "; Num (N.of_nat (length (nets conf)));
                  F " 个网段 | mode="; D (lit mode)])
  end.

(** ** Properties *)

(** the documentation of [ipnet]: a network contains an address when the
    prefixes agree; the texts of the built-in list name these networks *)
Class IpNetLaws : Prop := {
  v4_contains_covers n a : v4_contains n a = covers 32 n a;
  v6_contains_covers n a : v6_contains n a = covers 128 n a;
  parse_10 : parse_net (lit "10.0.0.0/8") = Some (NetV4 {| net_addr := 167772160; prefix_len := 8 |});
  parse_172 : parse_net (lit "172.16.0.0/12") = Some (NetV4 {| net_addr := 2886729728; prefix_len := 12 |});
  parse_192 : parse_net (lit "192.168.0.0/16") = Some (NetV4 {| net_addr := 3232235520; prefix_len := 16 |});
  parse_127 : parse_net (lit "127.0.0.0/8") = Some (NetV4 {| net_addr := 2130706432; prefix_len := 8 |});
  parse_one : parse_net (lit "::1/128") = Some (NetV6 {| net_addr := 1; prefix_len := 128 |});
  parse_fc : parse_net (lit "fc00::/7")
    = Some (NetV6 {| net_addr := 334965454937798799971759379190646833152; prefix_len := 7 |});
}.

Context {laws : IpNetLaws}.

Definition net_has (n : IpNet) (ip : IpAddr) : bool :=
  match n, ip with
  | NetV4 n, V4 a => covers 32 n a
  | NetV6 n, V6 a => covers 128 n a
  | _, _ => false
  end.

(** the built-in networks, as address ranges *)
Definition builtin_range (ip : IpAddr) : Prop :=
  match ip with
  | V4 a => (167772160 ≤ a < 184549376 ∨ 2886729728 ≤ a < 2887778304
             ∨ 3232235520 ≤ a < 3232301056 ∨ 2130706432 ≤ a < 2147483648)%N
  | V6 a => (a = 1 ∨ 334965454937798799971759379190646833152 ≤ a
                     < 337623910929368631717566993311207522304)%N
  end.

Lemma existsb_ext' {A} (f g : A → bool) l : (∀ x, f x = g x) → existsb f l = existsb g l.
Proof. intros Hfg. induction l as [|x l IH]; simpl; [done|by rewrite Hfg, IH]. Qed.

Lemma split_nets_acc l v4 v6 :
  foldl (λ '(v4, v6) n, match n with NetV4 x => (v4 ++ [x], v6) | NetV6 x => (v4, v6 ++ [x]) end)
    (v4, v6) l
  = (v4 ++ (split_nets l).1, v6 ++ (split_nets l).2).
Proof.
  unfold split_nets. revert v4 v6. induction l as [|[x|x] l IH]; intros v4 v6; simpl.
  - by rewrite !app_nil_r.
  - rewrite (IH (v4 ++ [x]) v6), (IH [x] []). simpl. by rewrite <-app_assoc.
  - rewrite (IH v4 (v6 ++ [x])), (IH [] [x]). simpl. by rewrite <-app_assoc.
Qed.

Lemma split_nets_cons n l :
  split_nets (n :: l) = match n with
                        | NetV4 x => (x :: (split_nets l).1, (split_nets l).2)
                        | NetV6 x => ((split_nets l).1, x :: (split_nets l).2)
                        end.
Proof. destruct n; unfold split_nets at 1; simpl; by rewrite split_nets_acc. Qed.

(** the buckets hold the networks of their family: nothing is lost *)
Lemma split_nets_contains l ip :
  contains {| v4_nets := (split_nets l).1; v6_nets := (split_nets l).2 |} ip
  = existsb (λ n, net_has n ip) l.
Proof.
  induction l as [|n l IH]; [by destruct ip|]. rewrite split_nets_cons. simpl. rewrite <-IH.
  destruct n, ip; simpl; by rewrite ?v4_contains_covers, ?v6_contains_covers.
Qed.

Lemma contains_app s1 s2 ip :
  contains {| v4_nets := v4_nets s1 ++ v4_nets s2; v6_nets := v6_nets s1 ++ v6_nets s2 |} ip
  = contains s1 ip || contains s2 ip.
Proof. destruct ip; simpl; apply existsb_app. Qed.

Lemma merge_contains conf s ip :
  contains (merge conf s) ip
  = (match mode conf with Add => contains s ip | Replace => false end)
    || existsb (λ n, net_has n ip) (omap (λ c, parse_net (trim c)) (nets conf)).
Proof.
  unfold merge. rewrite <-(split_nets_contains (omap _ (nets conf))).
  destruct (split_nets _) as [v4 v6]. destruct (mode conf); [|done].
  exact (contains_app s {| v4_nets := v4; v6_nets := v6 |} ip).
Qed.

Lemma covers_range width n a lo hi :
  (prefix_len n ≤ width)%N → lo = net_addr n →
  (net_addr n `mod` 2 ^ (width - prefix_len n) = 0)%N → (hi = lo + 2 ^ (width - prefix_len n))%N →
  covers width n a = true ↔ (lo ≤ a < hi)%N.
Proof.
  intros Hw -> Hal ->. unfold covers. rewrite N.eqb_eq, !N.shiftr_div_pow2.
  set (p := (2 ^ (width - prefix_len n))%N) in *. assert (0 < p)%N as Hp by (unfold p; lia).
  clearbody p. pose proof (N.div_mod (net_addr n) p) as H1. pose proof (N.div_mod a p) as H2.
  pose proof (N.mod_lt a p). nia.
Qed.

Lemma builtin_contains ip : contains builtin ip = true ↔ builtin_range ip.
Proof.
  unfold builtin. transitivity (existsb (λ n, net_has n ip) (omap parse_net DEFAULT_INTRANET_NETS) = true).
  { rewrite <-split_nets_contains. by destruct (split_nets _). }
  unfold DEFAULT_INTRANET_NETS. cbn [omap list_omap].
  rewrite parse_10, parse_172, parse_192, parse_127, parse_one, parse_fc.
  cbn [existsb net_has]. destruct ip as [a|a]; cbn [orb].
  - rewrite !orb_true_iff. rewrite (covers_range 32 _ a 167772160 184549376), (covers_range 32 _ a 2886729728 2887778304),
      (covers_range 32 _ a 3232235520 3232301056), (covers_range 32 _ a 2130706432 2147483648)
      by (first [reflexivity|vm_compute; discriminate]). simpl. intuition congruence.
  - rewrite !orb_true_iff. rewrite (covers_range 128 _ a 1 2), (covers_range 128 _ a
      334965454937798799971759379190646833152 337623910929368631717566993311207522304)
      by (first [reflexivity|vm_compute; discriminate]). simpl.
    assert ((1 ≤ a < 2)%N ↔ a = 1%N) as -> by lia. intuition congruence.
Qed.

(** the network texts of the section in force *)
Definition external_hit (conf : option IntranetNetsConf) (ip : IpAddr) : Prop :=
  ∃ c text n, conf = Some c ∧ enabled c = true ∧ text ∈ nets c
              ∧ parse_net (trim text) = Some n ∧ net_has n ip = true.

(** Before the set is built, an address is intranet exactly when - an
    IPv4-mapped address read as IPv4 - one of the configured networks contains
    it, the section being enabled and unreadable texts being skipped, or it
    lies in a built-in range and no enabled section replaces these. *)
Theorem is_intranet_spec conf ip :
  (is_intranet ip (set_intranet_nets_conf conf intranet_init)).1 = true
  ↔ external_hit conf (unmap ip)
    ∨ (builtin_range (unmap ip)
       ∧ ∀ c, conf = Some c → enabled c = true → mode c = Add).
Proof.
  change ((is_intranet ip (set_intranet_nets_conf conf intranet_init)).1)
    with (contains (build_set conf) (unmap ip)).
  unfold build_set, external_hit. rewrite <-builtin_contains.
  destruct conf as [c|]; [|naive_solver]. destruct (enabled c) eqn:Hen; [|naive_solver congruence].
  rewrite merge_contains, orb_true_iff, existsb_exists.
  assert ((∃ n, In n (omap (λ t, parse_net (trim t)) (nets c)) ∧ net_has n (unmap ip) = true)
          ↔ ∃ c0 text n, Some c = Some c0 ∧ enabled c0 = true ∧ text ∈ nets c0
              ∧ parse_net (trim text) = Some n ∧ net_has n (unmap ip) = true) as ->.
  { split.
    - intros (n & Hin & Hn). apply list_elem_of_In, list_elem_of_omap in Hin as (t & Ht & Hp).
      by exists c, t, n.
    - intros (c0 & t & n & [= <-] & _ & Ht & Hp & Hn). exists n. split; [|done].
      apply list_elem_of_In, list_elem_of_omap. by exists t. }
  destruct (mode c) eqn:Hm; [|naive_solver congruence].
  split; [intros [?|?]|intros [?|[? _]]]; auto. right. split; [done|]. by intros ? [= <-] _.
Qed.

(** uses of the module after start-up *)
Inductive NetOp := SetConf (conf : option IntranetNetsConf) | Ask (ip : IpAddr) | Preload.
Definition net_op (s : IntranetState) (o : NetOp) : IntranetState :=
  match o with
  | SetConf c => set_intranet_nets_conf c s
  | Ask ip => (is_intranet ip s).2
  | Preload => (init_intranet_nets s).2
  end.
Definition uses (o : NetOp) : bool := match o with SetConf _ => false | _ => true end.

Lemma net_op_unset o s :
  INTRANET_NETS_SET s = None →
  INTRANET_NETS_SET (net_op s o) = if uses o then Some (build_set (INTRANET_NETS_CONF s)) else None.
Proof.
  intros Hs. destruct o; simpl; [done|..];
    unfold is_intranet, init_intranet_nets, force_set, mbind, st_bind; by rewrite Hs.
Qed.

Lemma net_op_set o s set : INTRANET_NETS_SET s = Some set → INTRANET_NETS_SET (net_op s o) = Some set.
Proof.
  intros Hs. destruct o; simpl; [done|..];
    unfold is_intranet, init_intranet_nets, force_set, mbind, st_bind; by rewrite Hs.
Qed.

(** The first use decides: whatever is configured and asked afterwards,
    every answer is the one of the configuration in force at the first use. *)
Theorem intranet_first_use conf (before after : list NetOp) o ip :
  forallb (λ o, negb (uses o)) before = true → uses o = true →
  INTRANET_NETS_CONF (foldl net_op intranet_init before) = conf →
  (is_intranet ip (foldl net_op intranet_init (before ++ o :: after))).1
  = (is_intranet ip (set_intranet_nets_conf conf intranet_init)).1.
Proof.
  intros Hb Ho Hconf. rewrite foldl_app. simpl.
  assert (INTRANET_NETS_SET (foldl net_op intranet_init before) = None) as Hnone.
  { clear Hconf. assert (INTRANET_NETS_SET intranet_init = None) as Hi by done. revert Hi Hb.
    generalize intranet_init. induction before as [|b before IH]; intros s Hi Hb; [done|].
    simpl in *. apply andb_prop in Hb as [Hb1 Hb2]. apply IH; [|done].
    rewrite net_op_unset by done. by destruct (uses b). }
  assert (INTRANET_NETS_SET (net_op (foldl net_op intranet_init before) o) = Some (build_set conf)) as Hset
    by (rewrite net_op_unset, Ho by done; by subst conf).
  clear Ho. revert Hset. generalize (net_op (foldl net_op intranet_init before) o). intros s Hset.
  assert (INTRANET_NETS_SET (foldl net_op s after) = Some (build_set conf)) as Hlast.
  { revert s Hset. induction after as [|a after IH]; intros s Hset; [done|].
    simpl. apply IH. by apply net_op_set. }
  unfold is_intranet, force_set, mbind, st_bind. by rewrite Hlast.
Qed.
End Nets.
Arguments IpNetLaws {_}.

(** ** A concrete library: the built-in texts and two more *)
Definition demo_parse (s : str) : option IpNet :=
  match list_find (λ e, e.1 = s)
    [(lit "10.0.0.0/8", NetV4 {| net_addr := 167772160; prefix_len := 8 |});
     (lit "172.16.0.0/12", NetV4 {| net_addr := 2886729728; prefix_len := 12 |});
     (lit "192.168.0.0/16", NetV4 {| net_addr := 3232235520; prefix_len := 16 |});
     (lit "127.0.0.0/8", NetV4 {| net_addr := 2130706432; prefix_len := 8 |});
     (lit "::1/128", NetV6 {| net_addr := 1; prefix_len := 128 |});
     (lit "fc00::/7", NetV6 {| net_addr := 334965454937798799971759379190646833152; prefix_len := 7 |});
     (lit "172.32.0.0/16", NetV4 {| net_addr := 2887778304; prefix_len := 16 |});
     (lit "192.0.2.0/24", NetV4 {| net_addr := 3221225984; prefix_len := 24 |})] with
  | Some (_, (_, n)) => Some n
  | None => None
  end.

#[export] Instance demo_net : IpNetLib :=
  {| parse_net := demo_parse; v4_contains := covers 32; v6_contains := covers 128 |}.
#[export] Instance demo_net_laws : @IpNetLaws demo_net.
Proof. split; intros; reflexivity. Qed.

Definition corporate : IntranetNetsConf :=
  {| enabled := true; mode := Replace; nets := [lit " 172.32.0.0/16 "; lit "oops"] |}.

(** 172.32.1.2, written as an IPv4-mapped address *)
Lemma is_intranet_spec_witness :
  (is_intranet (V6 (65535 * 4294967296 + 2887778562)) (set_intranet_nets_conf (Some corporate) intranet_init)).1
  = true.
Proof.
  apply is_intranet_spec. left. exists corporate, (lit " 172.32.0.0/16 ").
  exists (NetV4 {| net_addr := 2887778304; prefix_len := 16 |}).
  split_and!; [reflexivity|reflexivity|left|vm_compute; reflexivity|vm_compute; reflexivity].
Defined.

Lemma intranet_first_use_witness :
  (is_intranet (V4 2887778562) (foldl net_op intranet_init
     ([SetConf None] ++ Ask (V4 1) :: [SetConf (Some corporate)]))).1 = false.
Proof.
  rewrite (intranet_first_use None [SetConf None] [SetConf (Some corporate)] (Ask (V4 1)) (V4 2887778562)
             eq_refl eq_refl eq_refl).
  vm_compute. reflexivity.
Defined.
