(* ===== verification/SqliteExt.v ===== *)
(** * SQL functions (src/sqlite_ext.rs)

    The scalar functions registered on every SQLite connection: IPv4 texts and
    integers, CIDR ranges, quotes.  The parsing and printing of addresses and
    the slicing of strings are those of the standard library; reading an
    argument of a call as text or integer is the class [FromSql] of
    [rusqlite]. *)
From S2P Require Import Prelude RustStr Model.
Import Model.Param.

(** ** The standard library's part *)

Definition wrap32 (n : N) : N := (n `mod` 4294967296)%N.

(** [Parser::read_number(10, Some(3), false)] at u8 *)
Definition read_octet (s : str) : option (N * str) :=
  let n := span is_ascii_digit s in
  if bool_decide (3 < n) then None
  else if bool_decide (n = 0) then None
  else if starts_with 48 s && bool_decide (1 < n) then None
  else
    match parse_digits (take n s) 0 with
    | Some v => if (v <=? 255)%N then Some (v, drop n s) else None
    | None => None
    end.

Definition read_dot (s : str) : option str :=
  match s with c :: s => if (c =? DOT)%N then Some s else None | [] => None end.

(** [Ipv4Addr::from_str]: at most fifteen bytes, four groups, nothing after them *)
Definition parse_ipv4 (s : str) : option N :=
  if bool_decide (15 < length s) then None
  else
    '(a, s) ← read_octet s; s ← read_dot s;
    '(b, s) ← read_octet s; s ← read_dot s;
    '(c, s) ← read_octet s; s ← read_dot s;
    '(d, s) ← read_octet s;
    match s with
    | [] => Some (((a * 256 + b) * 256 + c) * 256 + d)%N
    | _ => None
    end.

(** [s.trim_matches(c)] for an ASCII character *)
Definition trim_matches (c : N) (s : str) : str :=
  let s := drop (span (λ x, x =? c)%N s) s in
  reverse (drop (span (λ x, x =? c)%N (reverse s)) (reverse s)).

Definition parse_u32 (s : str) : option N :=
  n ← parse_u64 s; if (n <=? u32_max)%N then Some n else None.

(** [&t[start..end]], whose [None] is the panic *)
Definition is_char_boundary (s : str) (i : nat) : bool :=
  bool_decide (i = 0) || bool_decide (i = length s)
  || match s !! i with Some c => negb ((128 <=? c)%N && (c <=? 191)%N) | None => false end.
Definition slice (s : str) (start end_ : nat) : option str :=
  if bool_decide (start ≤ end_) && is_char_boundary s start && is_char_boundary s end_
  then Some (take (end_ - start) (drop start s)) else None.

(** ** Addresses and networks *)

Definition parse_ipv4_to_u32 (s : str) : option N := parse_ipv4 (trim_matches DQUOTE (trim s)).

Definition parse_cidr4 (s : str) : option (N * N) :=
  let t := trim_matches DQUOTE (trim s) in
  match split_char SLASH t with
  | [ip_s; pfx_s] =>
      ip ← parse_ipv4 ip_s;
      pfx ← parse_u32 pfx_s;
      if (32 <? pfx)%N then None
      else
        let mask := if (pfx =? 0)%N then 0%N else wrap32 (N.shiftl u32_max (32 - pfx)) in
        Some (ip, mask)
  | _ => None
  end.

(** [!mask] *)
Definition not32 (n : N) : N := N.lxor n u32_max.

Definition cidr4_min (s : str) : option N :=
  '(ip, mask) ← parse_cidr4 s; Some (N.land ip mask).
Definition cidr4_max (s : str) : option N :=
  '(ip, mask) ← parse_cidr4 s; Some (N.lor (N.land ip mask) (not32 mask)).

Definition ipv4_from_u32 (v : N) : str := ipv4_text v.

(** the rest of [trim_quotes], after the trimming; [None] is a panic of the slicing *)
Definition unquote_ends (t : str) : option str :=
  let is_quote c := (c =? DQUOTE)%N || (c =? SQUOTE)%N in
  match t with
  | b0 :: b1 :: _ =>
      let hidx := if (b0 =? BACKSLASH)%N && is_quote b1 then 1 else 0 in
      let tidx := length t - 1 in
      let head := if bool_decide (hidx = 1) then b1 else b0 in
      let tail := default 0%N (last t) in
      if ((head =? DQUOTE)%N && (tail =? DQUOTE)%N) || ((head =? SQUOTE)%N && (tail =? SQUOTE)%N) then
        let start := S hidx in
        let end_excl := if bool_decide (t !! (tidx - 1) = Some BACKSLASH) then tidx - 1 else tidx in
        if bool_decide (start ≤ end_excl) then slice t start end_excl else Some []
      else Some t
  | _ => Some t
  end.
Definition trim_quotes (s : str) : option str := unquote_ends (trim s).

(** ** The functions *)

(** [ctx.get::<String>] and [ctx.get::<i64>] on an argument *)
Class FromSql := {
  get_string : SqlValue → Result str str;
  get_i64 : SqlValue → Result str Z;
}.

(** [i as u32] *)
Definition as_u32 (z : Z) : N := Z.to_N (z `mod` 4294967296).

Section Functions.
Context `{FromSql}.
Abbreviation SqlResult := (Result str SqlValue).

Definition integer (o : option N) : SqlValue := SqlInteger (Z.of_N (default 0%N o)).
Definition truth (b : bool) : SqlValue := SqlInteger (if b then 1 else 0).

Definition fn_ip4_int (a : SqlValue) : SqlResult :=
  s ← get_string a; Ok (integer (parse_ipv4_to_u32 s)).
Definition fn_cidr4_min (a : SqlValue) : SqlResult := s ← get_string a; Ok (integer (cidr4_min s)).
Definition fn_cidr4_max (a : SqlValue) : SqlResult := s ← get_string a; Ok (integer (cidr4_max s)).

(** a bound: an integer, or the text of an address *)
Definition bound (a : SqlValue) (otherwise : N) : N :=
  match get_i64 a with
  | Ok i => as_u32 i
  | Err _ =>
      match get_string a with
      | Ok s => default otherwise (parse_ipv4_to_u32 s)
      | Err _ => otherwise
      end
  end.

Definition fn_ip4_between (a b c : SqlValue) : SqlResult :=
  ip ← get_string a;
  let s := bound b u32_max in
  let e := bound c 0 in
  let v := default u32_max (parse_ipv4_to_u32 ip) in
  Ok (truth ((s <=? v)%N && (v <=? e)%N)).

Definition fn_cidr4_contains (a b : SqlValue) : SqlResult :=
  ip_s ← get_string a;
  cidr_s ← get_string b;
  match parse_ipv4_to_u32 ip_s with
  | None => Ok (truth false)
  | Some ip =>
      match parse_cidr4 cidr_s with
      | None => Ok (truth false)
      | Some (net_ip, mask) => Ok (truth (N.land ip mask =? N.land net_ip mask)%N)
      end
  end.

Definition fn_ip4_text (a : SqlValue) : SqlResult :=
  match get_i64 a with
  | Ok i => Ok (SqlText (ipv4_from_u32 (as_u32 i)))
  | Err _ =>
      s ← get_string a;
      let v := match parse_u64 (trim s) with Some n => wrap32 n | None => 0%N end in
      Ok (SqlText (ipv4_from_u32 v))
  end.

(** an outer [None] is a panic *)
Definition fn_trim_quotes (a : SqlValue) : option SqlResult :=
  match get_string a with
  | Ok s => (λ r, Ok (SqlText r)) <$> trim_quotes s
  | Err e => Some (Err e)
  end.

(** the registrations, by name, with the arguments of a call *)
Definition register_builtin (name : str) (args : list SqlValue) : option (option SqlResult) :=
  match args with
  | [a] =>
      if bool_decide (name = lit "ip4_int") then Some (Some (fn_ip4_int a))
      else if bool_decide (name = lit "cidr4_min") then Some (Some (fn_cidr4_min a))
      else if bool_decide (name = lit "cidr4_max") then Some (Some (fn_cidr4_max a))
      else if bool_decide (name = lit "ip4_text") then Some (Some (fn_ip4_text a))
      else if bool_decide (name = lit "trim_quotes") then Some (fn_trim_quotes a)
      else None
  | [a; b] => if bool_decide (name = lit "cidr4_contains") then Some (Some (fn_cidr4_contains a b)) else None
  | [a; b; c] => if bool_decide (name = lit "ip4_between") then Some (Some (fn_ip4_between a b c)) else None
  | _ => None
  end.
End Functions.

(** ** IPv4 texts *)

Definition digits : list N := (λ i, (48 + N.of_nat i)%N) <$> seq 0 10.
Fixpoint digit_lists (n : nat) : list str :=
  match n with 0 => [[]] | S n => digits ≫= λ d, cons d <$> digit_lists n end.

Lemma elem_of_digits c : is_ascii_digit c = true → c ∈ digits.
Proof.
  intros H. unfold is_ascii_digit in H. bool_guard. unfold digits.
  apply list_elem_of_fmap. exists (N.to_nat (c - 48)). split; [lia|]. apply elem_of_seq. lia.
Qed.

Lemma elem_of_digit_lists ds :
  Forall (λ c, is_ascii_digit c = true) ds → ds ∈ digit_lists (length ds).
Proof.
  induction 1 as [|c ds Hc _ IH]; cbn [length digit_lists]; [by apply list_elem_of_singleton|].
  apply list_elem_of_bind. exists c. split; [by apply list_elem_of_fmap_2|by apply elem_of_digits].
Qed.

(** texts of octets without a leading zero are what the octet prints as *)
Lemma short_digits ds v :
  Forall (λ c, is_ascii_digit c = true) ds → 1 ≤ length ds ≤ 3 →
  starts_with 48 ds && bool_decide (1 < length ds) = false → parse_digits ds 0 = Some v → dec v = ds.
Proof.
  intros Hd Hn Hz Hp. apply elem_of_digit_lists in Hd.
  assert (forallb (λ ds, starts_with 48 ds && bool_decide (1 < length ds)
                         || bool_decide (dec (default 0%N (parse_digits ds 0)) = ds))
            (digit_lists 1 ++ digit_lists 2 ++ digit_lists 3) = true) as Hall by (vm_compute; reflexivity).
  rewrite forallb_forall in Hall. specialize (Hall ds). rewrite Hz, Hp in Hall.
  apply (bool_decide_eq_true_1 (dec v = ds)), Hall, list_elem_of_In. rewrite !elem_of_app.
  destruct (length ds) as [|[|[|[|]]]]; [lia|tauto..|lia].
Qed.

Lemma dec_octet v :
  (v ≤ 255)%N → length (dec v) ≤ 3 ∧ starts_with 48 (dec v) && bool_decide (1 < length (dec v)) = false.
Proof.
  intros Hv. assert (forallb (λ i, let d := dec (N.of_nat i) in bool_decide (length d ≤ 3)
      && negb (starts_with 48 d && bool_decide (1 < length d))) (seq 0 256) = true) as Hall
    by (vm_compute; reflexivity).
  rewrite forallb_forall in Hall. specialize (Hall (N.to_nat v)). rewrite N2Nat.id in Hall.
  destruct (andb_prop _ _ (Hall ltac:(apply list_elem_of_In, elem_of_seq; lia))) as [Hl Hz].
  by apply bool_decide_eq_true_1 in Hl; apply negb_true_iff in Hz.
Qed.

Lemma read_octet_spec s v rest :
  read_octet s = Some (v, rest) ↔
  (v ≤ 255)%N ∧ s = dec v ++ rest ∧ ∀ c, head rest = Some c → is_ascii_digit c = false.
Proof.
  unfold read_octet. split.
  - pose proof (span_take is_ascii_digit s) as Hd. pose proof (λ c, span_drop is_ascii_digit s c) as Hr.
    pose proof (firstn_le_length (span is_ascii_digit s) s) as Hle.
    set (n := span is_ascii_digit s) in *. intros H.
    destruct (bool_decide_reflect (3 < n)); [done|]. destruct (bool_decide_reflect (n = 0)); [done|].
    destruct (starts_with 48 s && _) eqn:Hz; [done|].
    destruct (parse_digits (take n s) 0) as [v'|] eqn:Hp; [|done].
    destruct (N.leb_spec v' 255); [|done]. injection H as <- <-.
    assert (n ≤ length s) as Hns by apply span_le.
    split_and!; [done| |done]. rewrite (short_digits (take n s) v'); [by rewrite take_drop|done| |
      |done]; rewrite length_take, Nat.min_l by done; [lia|].
    destruct s as [|c s]; [done|]. destruct n as [|n]; [done|]. exact Hz.
  - intros (Hv & -> & Hh). destruct (dec_octet v Hv) as [Hl Hz].
    rewrite (span_app _ _ _ (dec_digits v) Hh). destruct (dec_cons v) as (c & ds & Heq & _).
    rewrite take_app_length, drop_app_length, parse_digits_dec by (unfold u64_max; lia).
    rewrite Heq in *. rewrite !bool_decide_false by (simpl in *; lia). cbn [app starts_with] in *.
    rewrite Hz. by apply N.leb_le in Hv as ->.
Qed.

Lemma octets v : (v ≤ u32_max)%N →
  v = (((octet v 3 * 256 + octet v 2) * 256 + octet v 1) * 256 + octet v 0)%N
  ∧ (octet v 3 ≤ 255 ∧ octet v 2 ≤ 255 ∧ octet v 1 ≤ 255 ∧ octet v 0 ≤ 255)%N.
Proof.
  unfold octet, u32_max. change (256 ^ 3)%N with 16777216%N. change (256 ^ 2)%N with 65536%N.
  change (256 ^ 1)%N with 256%N. change (256 ^ 0)%N with 1%N. lia.
Qed.

Lemma of_octets a b c d :
  (a ≤ 255 → b ≤ 255 → c ≤ 255 → d ≤ 255 →
   let v := ((a * 256 + b) * 256 + c) * 256 + d in
   v ≤ u32_max ∧ octet v 3 = a ∧ octet v 2 = b ∧ octet v 1 = c ∧ octet v 0 = d)%N.
Proof.
  unfold octet, u32_max. change (256 ^ 3)%N with 16777216%N. change (256 ^ 2)%N with 65536%N.
  change (256 ^ 1)%N with 256%N. change (256 ^ 0)%N with 1%N. lia.
Qed.

Lemma ipv4_text_length v : (v ≤ u32_max)%N → length (ipv4_text v) ≤ 15.
Proof.
  intros (_ & Ha & Hb & Hc & Hd)%octets. unfold ipv4_text. rewrite !length_app. cbn [length].
  apply dec_octet in Ha as [? _], Hb as [? _], Hc as [? _], Hd as [? _]. lia.
Qed.

(** Addresses and their texts correspond exactly: what the parser reads is
    the one text that prints the address. *)
Lemma parse_ipv4_spec s v : parse_ipv4 s = Some v ↔ (v ≤ u32_max)%N ∧ s = ipv4_text v.
Proof.
  unfold parse_ipv4. split.
  - destruct (bool_decide (15 < length s)); [done|]. cbn [mbind option_bind].
    destruct (read_octet s) as [[a s1]|] eqn:Ha; [|done]. destruct s1 as [|x s1]; [done|].
    cbn. destruct (N.eqb_spec x DOT) as [->|]; [|done]. cbn.
    destruct (read_octet s1) as [[b s2]|] eqn:Hb; [|done]. destruct s2 as [|x s2]; [done|].
    cbn. destruct (N.eqb_spec x DOT) as [->|]; [|done]. cbn.
    destruct (read_octet s2) as [[c s3]|] eqn:Hc; [|done]. destruct s3 as [|x s3]; [done|].
    cbn. destruct (N.eqb_spec x DOT) as [->|]; [|done]. cbn.
    destruct (read_octet s3) as [[d [|]]|] eqn:Hd; [|done..]. intros [= <-].
    apply read_octet_spec in Ha as (Ha & -> & _), Hb as (Hb & -> & _), Hc as (Hc & -> & _),
      Hd as (Hd & -> & _).
    destruct (of_octets a b c d Ha Hb Hc Hd) as (Hv & H3 & H2 & H1 & H0).
    split; [exact Hv|]. unfold ipv4_text. by rewrite H3, H2, H1, H0, app_nil_r.
  - intros [Hv ->]. pose proof (ipv4_text_length v Hv). destruct (octets v Hv) as (Heq & Ha & Hb & Hc & Hd).
    rewrite bool_decide_false by lia. unfold ipv4_text.
    assert (∀ w rest, (w ≤ 255)%N → (∀ c, head rest = Some c → is_ascii_digit c = false) →
              read_octet (dec w ++ rest) = Some (w, rest)) as Hread by (intros; by apply read_octet_spec).
    rewrite Hread by (done || by intros ? [= <-]). cbn [mbind option_bind read_dot app].
    rewrite N.eqb_refl. cbn. rewrite Hread by (done || by intros ? [= <-]). cbn.
    rewrite Hread by (done || by intros ? [= <-]). cbn. rewrite <-(app_nil_r (dec (octet v 0))), Hread by done.
    cbn. by rewrite <-Heq.
Qed.

(** ** Texts of addresses and networks at the ends *)

Lemma trim_matches_id c s :
  (∀ x, head s = Some x → x ≠ c) → (∀ x, last s = Some x → x ≠ c) → trim_matches c s = s.
Proof.
  intros Hh Hl. unfold trim_matches.
  assert (∀ s, (∀ x, head s = Some x → x ≠ c) → span (λ x, x =? c)%N s = 0) as Hs.
  { intros [|x u] Hx; simpl; [done|]. destruct (N.eqb_spec x c) as [->|]; [|done]. by destruct (Hx c). }
  rewrite (Hs s Hh), drop_0, Hs, drop_0; [apply reverse_involutive|].
  intros x. rewrite head_reverse. apply Hl.
Qed.

Lemma digit_solid c : is_ascii_digit c = true → solid c = true ∧ c ≠ DQUOTE.
Proof.
  unfold is_ascii_digit, solid, ascii_ws. intros H. bool_guard.
  destruct (N.ltb_spec c 128), (N.leb_spec 9 c), (N.leb_spec c 13), (N.eqb_spec c 32); split; lia || done.
Qed.

Lemma dec_ends n : ∃ c s d u, dec n = c :: s ∧ dec n = u ++ [d]
  ∧ is_ascii_digit c = true ∧ is_ascii_digit d = true.
Proof.
  destruct (dec_cons n) as (c & s & Heq & Hc).
  destruct (exists_last (dec_nonempty n)) as (u & d & Hu).
  exists c, s, d, u. split_and!; try done. pose proof (dec_digits n) as Hd.
  rewrite Hu in Hd. apply Forall_app in Hd as [_ Hd]. by inversion Hd.
Qed.

(** text between two numbers needs no trimming *)
Lemma trim_numbers a m b :
  trim_matches DQUOTE (trim (dec a ++ m ++ dec b)) = dec a ++ m ++ dec b.
Proof.
  destruct (dec_ends a) as (c & s & _ & _ & Ha & _ & Hc & _), (dec_ends b) as (_ & _ & d & u & _ & Hb & _ & Hd).
  apply digit_solid in Hc as [Hc1 Hc2], Hd as [Hd1 Hd2].
  rewrite trim_solid.
  - apply trim_matches_id; intros x.
    + rewrite Ha. by intros [= <-].
    + rewrite Hb, !app_assoc, last_snoc. by intros [= <-].
  - split.
    + exists c, (s ++ m ++ dec b). by rewrite Ha.
    + exists d, (dec a ++ m ++ u). by rewrite Hb, !app_assoc.
Qed.

Lemma parse_ipv4_text v : (v ≤ u32_max)%N → parse_ipv4_to_u32 (ipv4_text v) = Some v.
Proof.
  intros Hv. unfold parse_ipv4_to_u32.
  assert (∀ m, trim_matches DQUOTE (trim (dec (octet v 3) ++ m ++ dec (octet v 0)))
               = dec (octet v 3) ++ m ++ dec (octet v 0)) as Ht by (intros; apply trim_numbers).
  specialize (Ht ([DOT] ++ dec (octet v 2) ++ [DOT] ++ dec (octet v 1) ++ [DOT])).
  rewrite <-!app_assoc in Ht. fold (ipv4_text v) in Ht. rewrite Ht. by apply parse_ipv4_spec.
Qed.

(** ** Masks *)

(** the mask of a prefix, and what it leaves free *)
Definition prefix_mask (p : N) : N := if (p =? 0)%N then 0%N else wrap32 (N.shiftl u32_max (32 - p)).

Lemma prefix_mask_spec p : (p ≤ 32)%N →
  prefix_mask p = N.shiftl (N.ones p) (32 - p) ∧ not32 (prefix_mask p) = N.ones (32 - p).
Proof.
  intros Hp. assert (forallb (λ i, let p := N.of_nat i in
      (prefix_mask p =? N.shiftl (N.ones p) (32 - p))%N && (not32 (prefix_mask p) =? N.ones (32 - p))%N)
      (seq 0 33) = true) as Hall by (vm_compute; reflexivity).
  rewrite forallb_forall in Hall. specialize (Hall (N.to_nat p)). rewrite N2Nat.id in Hall.
  destruct (andb_prop _ _ (Hall ltac:(apply list_elem_of_In, elem_of_seq; lia))) as [H1 H2].
  by apply N.eqb_eq in H1, H2.
Qed.

Lemma land_mask a p : (p ≤ 32)%N → (a ≤ u32_max)%N →
  N.land a (prefix_mask p) = (a `div` 2 ^ (32 - p) * 2 ^ (32 - p))%N.
Proof.
  intros Hp Ha. rewrite (proj1 (prefix_mask_spec p Hp)), <-N.shiftr_div_pow2, <-N.shiftl_mul_pow2.
  apply N.bits_inj. intros i. rewrite N.land_spec. destruct (N.lt_ge_cases i (32 - p)) as [Hi|Hi].
  - rewrite !N.shiftl_spec_low by done. apply andb_false_r.
  - rewrite !N.shiftl_spec_high', N.shiftr_spec' by done. replace (i - (32 - p) + (32 - p))%N with i by lia.
    destruct (N.lt_ge_cases (i - (32 - p)) p) as [Hj|Hj].
    + rewrite N.ones_spec_low by done. apply andb_true_r.
    + rewrite N.ones_spec_high by done. rewrite andb_false_r. symmetry.
      destruct (N.eq_dec a 0%N) as [->|Hz]; [apply N.bits_0|]. apply N.bits_above_log2.
      apply N.lt_le_trans with 32%N; [|lia]. apply N.log2_lt_pow2; [lia|]. unfold u32_max in Ha.
      change (2 ^ 32)%N with 4294967296%N. lia.
Qed.

Lemma lor_free x k : N.lor (x * 2 ^ k) (N.ones k) = (x * 2 ^ k + (2 ^ k - 1))%N.
Proof.
  rewrite <-N.shiftl_mul_pow2. rewrite (N.add_nocarry_lxor _ (2 ^ k - 1)).
  all: rewrite <-N.pred_sub, <-N.ones_equiv.
  - rewrite N.lxor_lor; [done|]. apply N.bits_inj. intros i. rewrite N.land_spec, N.bits_0.
    destruct (N.lt_ge_cases i k); [by rewrite N.shiftl_spec_low|by rewrite N.ones_spec_high, andb_false_r].
  - apply N.bits_inj. intros i. rewrite N.land_spec, N.bits_0.
    destruct (N.lt_ge_cases i k); [by rewrite N.shiftl_spec_low|by rewrite N.ones_spec_high, andb_false_r].
Qed.

Lemma parse_cidr4_text net p : (net ≤ u32_max)%N → (p ≤ 32)%N →
  parse_cidr4 (ipv4_text net ++ [SLASH] ++ dec p) = Some (net, prefix_mask p).
Proof.
  intros Hn Hp. unfold parse_cidr4.
  assert (trim_matches DQUOTE (trim (ipv4_text net ++ [SLASH] ++ dec p)) = ipv4_text net ++ [SLASH] ++ dec p) as ->.
  { unfold ipv4_text. rewrite <-!app_assoc. 
    pose proof (λ m, trim_numbers (octet net 3) m p) as Ht.
    specialize (Ht ([DOT] ++ dec (octet net 2) ++ [DOT] ++ dec (octet net 1) ++ [DOT] ++ dec (octet net 0) ++ [SLASH])).
    by rewrite <-!app_assoc in Ht. }
  assert (∀ n, Forall (λ c, c ≠ SLASH) (dec n)) as Hd.
  { intros n. eapply Forall_impl; [apply dec_digits|]. intros c Hc. unfold is_ascii_digit in Hc. bool_guard. lia. }
  unfold split_char. cbn [app]. rewrite split_go_app, split_go_last by
    (try apply Hd; unfold ipv4_text; rewrite !Forall_app; repeat split; try apply Hd; by repeat constructor).
  cbn [app]. rewrite (proj2 (parse_ipv4_spec _ net)) by done. cbn [mbind option_bind].
  unfold parse_u32. rewrite parse_u64_dec by (unfold u64_max; lia). cbn [mbind option_bind].
  destruct (N.leb_spec p u32_max); [|unfold u32_max in *; lia]. cbn [mbind option_bind].
  destruct (N.ltb_spec 32 p); [lia|reflexivity].
Qed.

(** ** UTF-8 and character boundaries *)

(** no continuation byte follows an ASCII byte *)
Definition ascii_bounded (s : str) : Prop :=
  ∀ a c d b, s = a ++ c :: d :: b → (c < 128)%N → cont (Some d) = false.

Lemma second_range_high c w lo hi :
  second_range c = Some (w, lo, hi) → (194 ≤ c ∧ 128 ≤ lo)%N.
Proof.
  unfold second_range. intros H. repeat (case_match; simplify_eq); bool_guard; subst; lia.
Qed.

Lemma in_range_high lo hi o : in_range lo hi o = true → (128 ≤ lo)%N → ∃ c, o = Some c ∧ (128 ≤ c)%N.
Proof. destruct o as [c|]; [|done]. intros H Hlo. exists c. split; [done|]. cbn in H. bool_guard. lia. Qed.

(** a valid character is an ASCII byte, or bytes that are all above *)
Lemma utf8_next_high c s n : utf8_next c s = (true, n) →
  cont (Some c) = false ∧ 1 ≤ n ∧ ((c < 128)%N ∧ n = 1 ∨ Forall (λ x, (128 ≤ x)%N) (take n (c :: s))).
Proof.
  unfold utf8_next. destruct (N.ltb_spec c 128) as [Hc|Hc].
  - intros [= <-]. split_and!; [|lia|by left]. cbn. destruct (N.leb_spec 128 c); [lia|done].
  - destruct (second_range c) as [[[w lo] hi]|] eqn:Hr; [|done].
    apply second_range_high in Hr as [Hc' Hlo].
    assert (cont (Some c) = false) as Hcont.
    { cbn. destruct (N.leb_spec c 191); [lia|]. apply andb_false_r. }
    assert (∀ o, cont o = true → ∃ x, o = Some x ∧ (128 ≤ x)%N) as Hco
      by (intros o Ho; by eapply in_range_high).
    intros H. destruct (in_range lo hi (s !! 0)) eqn:H0; [|done].
    apply in_range_high in H0 as (x & Hx & Hx'); [|done].
    destruct s as [|x0 s]; [done|]. injection Hx as ->.
    destruct (w =? 2)%N. { injection H as <-. split_and!; [done|lia|right]. repeat constructor; lia. }
    destruct (cont ((x :: s) !! 1)) eqn:H1; [|done]. apply Hco in H1 as (y & Hy & Hy').
    destruct s as [|y0 s]; [done|]. injection Hy as ->.
    destruct (w =? 3)%N. { injection H as <-. split_and!; [done|lia|right]. repeat constructor; lia. }
    destruct (cont ((x :: y :: s) !! 2)) eqn:H2; [|done]. apply Hco in H2 as (z & Hz & Hz').
    destruct s as [|z0 s]; [done|]. injection Hz as ->.
    injection H as <-. split_and!; [done|lia|right]. repeat constructor; lia.
Qed.

Lemma utf8_chunks_bounded fuel s : length s ≤ fuel → forallb fst (utf8_chunks fuel s) = true →
  ascii_bounded s ∧ ∀ c, head s = Some c → cont (Some c) = false.
Proof.
  revert s. induction fuel as [|fuel IH]; intros s Hf Hv.
  { destruct s; [|simpl in Hf; lia]. split; [intros [|? [|]] c d b; done|done]. }
  destruct s as [|c s]; [split; [intros [|? [|]] c d b; done|done]|].
  cbn [utf8_chunks] in Hv. destruct (utf8_next c s) as [ok n] eqn:Hn. cbn in Hv.
  apply andb_prop in Hv as [-> Hv]. apply utf8_next_high in Hn as (Hc & Hn & Hch).
  apply IH in Hv as [Hb Hh]; [|simpl in *; rewrite length_drop; simpl; lia].
  split; [|by intros ? [= <-]]. intros a e d b Heq He.
  destruct (decide (length a < n)) as [Hlt|Hge].
  - destruct Hch as [[Hc' ->]|Hch].
    + destruct a; [|simpl in Hlt; lia]. injection Heq as -> ->. by apply Hh.
    + rewrite Forall_lookup in Hch. specialize (Hch (length a) e).
      rewrite lookup_take_lt, Heq, list_lookup_middle in Hch by done. specialize (Hch eq_refl). lia.
  - apply (Hb (drop n a) e d b); [|done]. rewrite Heq, drop_app_le by lia. done.
Qed.

Lemma utf8_bounded s : utf8_valid s = true → ascii_bounded s.
Proof. intros Hv. by apply (utf8_chunks_bounded (length s) s). Qed.

Lemma bounded_part a s b : ascii_bounded (a ++ s ++ b) → ascii_bounded s.
Proof.
  intros H x c d y -> Hc. apply (H (a ++ x) c d (y ++ b)); [|done]. by rewrite <-!app_assoc.
Qed.

Lemma boundary_after s c i : ascii_bounded s → s !! i = Some c → (c < 128)%N → is_char_boundary s (S i) = true.
Proof.
  intros Hb Hi Hc. unfold is_char_boundary. destruct (s !! S i) as [d|] eqn:Hd.
  - assert (cont (Some d) = false) as Hn.
    { apply (Hb (take i s) c d (drop (S (S i)) s)); [|done].
      rewrite <-(drop_S _ _ _ Hd), <-(drop_S _ _ _ Hi). by rewrite take_drop. }
    cbn in Hn. rewrite Hn. by rewrite !orb_true_r.
  - apply lookup_ge_None in Hd. apply lookup_lt_Some in Hi.
    rewrite (bool_decide_true (S i = length s)) by lia. by rewrite orb_true_r.
Qed.

Lemma boundary_at s c i : s !! i = Some c → (c < 128)%N → is_char_boundary s i = true.
Proof.
  intros Hi Hc. unfold is_char_boundary. rewrite Hi. destruct (N.leb_spec 128 c); [lia|].
  by rewrite orb_true_r.
Qed.

(** ** Quotes *)

Definition is_quote (c : N) : Prop := c = DQUOTE ∨ c = SQUOTE.

(** What is left of a trimmed text: a pair of quotes is removed, the opening
    one with a backslash before it, the closing one with a backslash before
    it; an escaped quote alone is its own partner; other text stays. *)
Inductive unquoted (t : str) : str → Prop :=
| Pair h q mid e : is_quote q → h = [] ∨ h = [BACKSLASH] → e = [] ∧ last mid ≠ Some BACKSLASH ∨ e = [BACKSLASH] →
    t = h ++ q :: mid ++ e ++ [q] → unquoted t mid
| Alone q : is_quote q → t = [BACKSLASH; q] → unquoted t []
| Plain : (∀ h q m, is_quote q → h = [] ∨ h = [BACKSLASH] → t ≠ h ++ q :: m ++ [q]) →
    (∀ q, is_quote q → t ≠ [BACKSLASH; q]) → unquoted t t.

Lemma quote_byte q : is_quote q → (q < 128)%N ∧ q ≠ BACKSLASH.
Proof. intros [->| ->]; split; lia. Qed.

Lemma quote_eqb c d :
  ((c =? DQUOTE)%N && (d =? DQUOTE)%N || (c =? SQUOTE)%N && (d =? SQUOTE)%N) = true ↔ is_quote c ∧ c = d.
Proof. unfold is_quote. rewrite orb_true_iff, !andb_true_iff, !N.eqb_eq. naive_solver congruence. Qed.

Lemma slice_mid a m b : ascii_bounded (a ++ m ++ b) →
  (∀ c, last a = Some c → (c < 128)%N) → (∃ c b', b = c :: b' ∧ (c < 128)%N) →
  slice (a ++ m ++ b) (length a) (length a + length m) = Some m.
Proof.
  intros Hb Ha (c & b' & -> & Hc). unfold slice. rewrite bool_decide_true by lia.
  assert (is_char_boundary (a ++ m ++ c :: b') (length a) = true) as ->.
  { destruct (decide (a = [])) as [->|Hne]; [done|]. destruct (exists_last Hne) as (a' & x & ->).
    rewrite length_app. cbn [length]. rewrite Nat.add_1_r. rewrite last_snoc in Ha.
    apply (boundary_after _ x); [done| |by apply Ha]. rewrite <-app_assoc. by apply list_lookup_middle. }
  rewrite (boundary_at _ c); [|rewrite app_assoc; apply list_lookup_middle; by rewrite length_app|done].
  cbn [andb]. rewrite drop_app_length. replace (length a + length m - length a) with (length m) by lia.
  by rewrite take_app_length.
Qed.

(** where the ends of a text in a pair of quotes are looked for *)
Lemma unquote_where h q m : is_quote q → h = [] ∨ h = [BACKSLASH] →
  let t := h ++ q :: m ++ [q] in
  unquote_ends t = if bool_decide (t !! (length h + length m) = Some BACKSLASH)
    then if bool_decide (S (length h) ≤ length h + length m)
         then slice t (S (length h)) (length h + length m) else Some []
    else slice t (S (length h)) (S (length h + length m)).
Proof.
  intros Hq Hh t.
  assert (last t = Some q) as Hlast by (subst t; by rewrite app_comm_cons, app_assoc, last_snoc).
  assert (length t = length h + 2 + length m) as Hlen by (subst t; simplify_list_eq; rewrite !length_app; simpl; rewrite length_app; simpl; lia).
  unfold unquote_ends. rewrite Hlast. change (default 0%N (Some q)) with q. rewrite Hlen.
  assert (∃ x y, t = x :: y) as (b0 & t' & Ht).
  { subst t. destruct Hh as [-> | ->]; eexists _, _; reflexivity. }
  assert (∃ x y, t' = x :: y) as (b1 & t'' & Ht').
  { destruct t' as [|? ?]; [|by eexists _, _]. rewrite Ht in Hlen. simpl in Hlen. lia. }
  rewrite Ht, Ht'. cbv beta iota zeta. rewrite <-Ht', <-Ht.
  assert ((if (b0 =? BACKSLASH)%N && ((b1 =? DQUOTE)%N || (b1 =? SQUOTE)%N) then 1 else 0) = length h
          ∧ (if bool_decide (length h = 1) then b1 else b0) = q) as [Hhid Hhead].
  { subst t. subst t'. destruct Hh as [-> | ->]; cbn [length app] in *.
    - injection Ht as <- _. split; [|done]. destruct (N.eqb_spec q BACKSLASH); [|done].
      by destruct (quote_byte q Hq).
    - injection Ht as <- <- _. split; [|done]. by destruct Hq as [-> | ->]. }
  rewrite Hhid, Hhead. rewrite (proj2 (quote_eqb q q)) by done.
  replace (length h + 2 + length m - 1 - 1) with (length h + length m) by lia.
  replace (length h + 2 + length m - 1) with (S (length h + length m)) by lia.
  destruct (bool_decide (t !! _ = _)); [done|]. by rewrite bool_decide_true by lia.
Qed.

Lemma unquote_pair h q m : ascii_bounded (h ++ q :: m ++ [q]) → is_quote q → h = [] ∨ h = [BACKSLASH] →
  ∃ mid e, m = mid ++ e ∧ (e = [] ∧ last mid ≠ Some BACKSLASH ∨ e = [BACKSLASH])
           ∧ unquote_ends (h ++ q :: m ++ [q]) = Some mid.
Proof.
  intros Hb Hq Hh. pose proof (quote_byte q Hq) as [Hq1 Hq2].
  rewrite (unquote_where h q m Hq Hh). set (t := h ++ q :: m ++ [q]) in *.
  assert (t = (h ++ [q]) ++ m ++ [q]) as Ht by (subst t; by rewrite <-app_assoc).
  assert (length (h ++ [q]) = S (length h)) as Hl by (rewrite length_app; simpl; lia).
  destruct (decide (last m = Some BACKSLASH)) as [Hm|Hm].
  - apply last_Some in Hm as [mid ->]. exists mid, [BACKSLASH]. split_and!; [done|by right|].
    assert (length (mid ++ [BACKSLASH]) = S (length mid)) as -> by (rewrite length_app; simpl; lia).
    rewrite <-Nat.add_succ_comm, <-Hl, Ht.
    rewrite bool_decide_true.
    2: { rewrite lookup_app_r, Nat.add_comm, Nat.add_sub, <-(app_assoc mid) by lia. by apply list_lookup_middle. }
    rewrite bool_decide_true by lia.
    rewrite <-(app_assoc mid). apply slice_mid.
    + by rewrite (app_assoc mid), <-Ht.
    + rewrite last_snoc. by intros ? [= <-].
    + exists BACKSLASH, [q]. split; [done|lia].
  - exists m, []. split_and!; [by rewrite app_nil_r|by left|]. rewrite bool_decide_false.
    2: { rewrite Ht. destruct (decide (m = [])) as [->|Hne].
         - rewrite Nat.add_0_r, lookup_app_l, list_lookup_middle by (rewrite ?Hl; lia). congruence.
         - destruct (exists_last Hne) as (m' & x & ->). rewrite last_snoc in Hm.
           rewrite lookup_app_r, Hl, length_app by (rewrite Hl, length_app; simpl; lia). cbn [length].
           replace (length h + (length m' + 1) - S (length h)) with (length m') by lia.
           rewrite <-(app_assoc m'). cbn [app]. rewrite list_lookup_middle by done. congruence. }
    rewrite Ht, <-Hl. replace (S (length h + length m)) with (length (h ++ [q]) + length m) by lia.
    apply slice_mid.
    + by rewrite <-Ht.
    + rewrite last_snoc. by intros ? [= <-].
    + exists q, []. by split.
Qed.

(** An escaped quote alone: the opening and the closing quote are the same byte. *)
Lemma unquote_alone q : is_quote q → unquote_ends [BACKSLASH; q] = Some [].
Proof. intros [-> | ->]; reflexivity. Qed.

(** what makes [unquote_ends] remove anything *)
Lemma unquote_ends_plain t :
  (∀ h q m, is_quote q → h = [] ∨ h = [BACKSLASH] → t ≠ h ++ q :: m ++ [q]) →
  (∀ q, is_quote q → t ≠ [BACKSLASH; q]) → unquote_ends t = Some t.
Proof.
  intros Hp Ha. destruct t as [|b0 [|b1 t]]; [done..|]. unfold unquote_ends.
  destruct (exists_last (l := b1 :: t) ltac:(done)) as (u & z & Hu).
  assert (last (b0 :: b1 :: t) = Some z) as -> by (rewrite Hu, app_comm_cons; apply last_snoc).
  cbn [default from_option]. change (id z) with z.
  destruct ((b0 =? BACKSLASH)%N && _) eqn:He; cbn [bool_decide].
  - apply andb_prop in He as [->%N.eqb_eq Hq].
    assert (is_quote b1) as Hb1 by (rewrite orb_true_iff, !N.eqb_eq in Hq; exact Hq).
    change (bool_decide (1 = 1)) with true. cbv iota.
    destruct ((_ =? DQUOTE)%N && (_ =? DQUOTE)%N || _) eqn:Hc; [|done]. apply quote_eqb in Hc as [_ <-]. exfalso.
    destruct u as [|u0 u]; simplify_eq/=; [by eapply Ha|].
    by eapply (Hp [BACKSLASH]); [|right|].
  - change (bool_decide (0 = 1)) with false. cbv iota.
    destruct ((_ =? DQUOTE)%N && (_ =? DQUOTE)%N || _) eqn:Hc; [|done].
    apply quote_eqb in Hc as [Hq <-]. exfalso. apply (Hp [] b0 u); [done|by left|].
    by rewrite Hu.
Qed.

Lemma alone_cases t :
  (∃ q, is_quote q ∧ t = [BACKSLASH; q]) ∨ ∀ q, is_quote q → t ≠ [BACKSLASH; q].
Proof.
  destruct (decide (t = [BACKSLASH; DQUOTE])) as [->|]; [left; eexists; split; [by left|done]|].
  destruct (decide (t = [BACKSLASH; SQUOTE])) as [->|]; [left; eexists; split; [by right|done]|].
  right. by intros ? [-> | ->].
Qed.

Lemma pair_cases t :
  (∃ q m, is_quote q ∧ t = q :: m ++ [q]) ∨ ∀ q m, is_quote q → t ≠ q :: m ++ [q].
Proof.
  destruct t as [|c w]; [by right|]. destruct (decide (c = DQUOTE ∨ c = SQUOTE)); [|by right; naive_solver].
  destruct (decide (last w = Some c)) as [(m & ->)%last_Some|Hl]; [by left; exists c, m|].
  right. intros q m _ [= <- ->]. by rewrite last_snoc in Hl.
Qed.

Lemma escaped_cases t :
  (∃ h q m, is_quote q ∧ (h = [] ∨ h = [BACKSLASH]) ∧ t = h ++ q :: m ++ [q])
  ∨ ∀ h q m, is_quote q → h = [] ∨ h = [BACKSLASH] → t ≠ h ++ q :: m ++ [q].
Proof.
  destruct (pair_cases t) as [(q & m & Hq & ->)|Hn0]; [left; exists [], q, m; auto|].
  destruct (decide (head t = Some BACKSLASH)) as [Hh|Hh].
  - destruct t as [|c t]; [done|]. injection Hh as ->. destruct (pair_cases t) as [(q & m & Hq & ->)|Hn].
    + left. exists [BACKSLASH], q, m. auto.
    + right. intros h q m Hq [-> | ->]; [by apply Hn0|]. intros [= ->]. by eapply Hn.
  - right. intros h q m Hq [-> | ->]; [by apply Hn0|]. by intros ->.
Qed.

(** Removing quotes never fails: whatever valid text is given, no slice is
    out of bounds or inside a character, and the result is the trimmed text
    without its pair of quotes, escaped ones included. *)
Theorem trim_quotes_spec s :
  utf8_valid s = true → ∃ r, trim_quotes s = Some r ∧ unquoted (trim s) r.
Proof.
  intros Hv. destruct (trim_part s) as (a & b & Hs).
  assert (ascii_bounded (trim s)) as Hb.
  { apply (bounded_part a _ b). rewrite <-Hs. by apply utf8_bounded. }
  unfold trim_quotes. generalize dependent (trim s). intros t _ Hb.
  destruct (alone_cases t) as [(q & Hq & ->)|Hna].
  { exists []. split; [by apply unquote_alone|by apply (Alone _ q)]. }
  destruct (escaped_cases t) as [(h & q & m & Hq & Hh & ->)|Hnp].
  - destruct (unquote_pair h q m Hb Hq Hh) as (mid & e & -> & He & Hu). exists mid. split; [done|].
    apply (Pair _ h q mid e); try done. by rewrite <-app_assoc.
  - exists t. split; [by apply unquote_ends_plain|by apply Plain].
Qed.

(** ** The functions on SQL values *)

(** the documentation of [rusqlite]: a text is read as text, an integer as
    integer, and a text is no integer *)
Class FromSqlLaws `{FromSql} : Prop := {
  string_of_text s : utf8_valid s = true → get_string (SqlText s) = Ok s;
  int_of_integer z : get_i64 (SqlInteger z) = Ok z;
  no_int_of_text s : is_ok (get_i64 (SqlText s)) = false;
}.

Lemma ascii_valid s : ascii s → utf8_valid s = true.
Proof.
  unfold utf8_valid. induction 1 as [|c s Hc _ IH]; [done|]. cbn [length utf8_chunks].
  unfold utf8_next. apply N.ltb_lt in Hc as ->. exact IH.
Qed.

Lemma dec_ascii n : ascii (dec n).
Proof.
  eapply Forall_impl; [apply dec_digits|]. intros c Hc. unfold is_ascii_digit in Hc. bool_guard. lia.
Qed.

Lemma ipv4_text_ascii v : ascii (ipv4_text v).
Proof.
  unfold ascii, ipv4_text. rewrite !Forall_app. repeat split; try apply dec_ascii; by repeat constructor.
Qed.
#[local] Hint Resolve dec_ascii ipv4_text_ascii ascii_valid : kdb.

Section Laws.
Context `{FromSqlLaws}.

(** The integer and the text of an address determine each other: reading
    the text of an integer gives the integer modulo 2^32, and a text is read
    as an address only if it is the one text that prints it. *)
Theorem ip4_roundtrip z :
  (∃ text, fn_ip4_text (SqlInteger z) = Ok (SqlText text)
           ∧ fn_ip4_int (SqlText text) = Ok (SqlInteger (z `mod` 4294967296)))
  ∧ ∀ s v, parse_ipv4 s = Some v ↔ (v ≤ u32_max)%N ∧ s = ipv4_text v.
Proof.
  split; [|apply parse_ipv4_spec]. assert (as_u32 z ≤ u32_max)%N as Hv by (unfold as_u32, u32_max; lia).
  exists (ipv4_text (as_u32 z)). unfold fn_ip4_text, fn_ip4_int. rewrite int_of_integer. split; [done|].
  rewrite string_of_text by auto with kdb. cbn [mbind result_bind]. rewrite parse_ipv4_text by done.
  unfold integer. cbn. do 2 f_equal. unfold as_u32. lia.
Qed.

Lemma between_range (x k v : N) : (1 ≤ k)%N →
  ((v `div` k * k =? x `div` k * k) = ((x `div` k * k <=? v) && (v <=? x `div` k * k + (k - 1))))%N.
Proof.
  intros Hk. pose proof (N.div_mod v k ltac:(lia)) as Hd. pose proof (N.mod_lt v k ltac:(lia)) as Hm.
  set (q := (v `div` k)%N) in *. set (p := (x `div` k)%N).
  apply eq_true_iff_eq. rewrite andb_true_iff, N.eqb_eq, !N.leb_le. split; [nia|].
  intros [H1 H2]. assert (q = p) as -> by nia. done.
Qed.

(** The range of a network [net]/[p]: the addresses with its first [p]
    bits; [cidr4_contains] holds of exactly these, as does [ip4_between] with
    the bounds [cidr4_min] and [cidr4_max]. *)
Theorem cidr4_range net p v :
  (net ≤ u32_max)%N → (p ≤ 32)%N → (v ≤ u32_max)%N →
  let c := SqlText (ipv4_text net ++ [SLASH] ++ dec p) in
  let size := (2 ^ (32 - p))%N in
  let lo := (net `div` size * size)%N in
  let hi := (lo + (size - 1))%N in
  let ip := SqlText (ipv4_text v) in
  let inside := truth ((lo <=? v)%N && (v <=? hi)%N) in
  fn_cidr4_min c = Ok (SqlInteger (Z.of_N lo)) ∧ fn_cidr4_max c = Ok (SqlInteger (Z.of_N hi))
  ∧ (hi ≤ u32_max)%N ∧ fn_cidr4_contains ip c = Ok inside
  ∧ fn_ip4_between ip (SqlInteger (Z.of_N lo)) (SqlInteger (Z.of_N hi)) = Ok inside.
Proof.
  intros Hn Hp Hv c size lo hi ip inside. pose proof (parse_cidr4_text net p Hn Hp) as Hc.
  assert (get_string c = Ok (ipv4_text net ++ [SLASH] ++ dec p)) as Hsc.
  { apply string_of_text, ascii_valid. unfold ascii. rewrite !Forall_app. repeat split; [apply ipv4_text_ascii| |apply dec_ascii].
    by repeat constructor. }
  assert (get_string ip = Ok (ipv4_text v)) as Hsi by (apply string_of_text; auto with kdb).
  assert (0 < size)%N as Hs by (subst size; apply N.neq_0_lt_0, N.pow_nonzero; lia).
  assert (hi ≤ u32_max)%N as Hhi.
  { assert (exists m, 4294967296 = m * size)%N as [m Hm].
    { exists (2 ^ p)%N. subst size. rewrite <-N.pow_add_r. by replace (p + (32 - p))%N with 32%N by lia. }
    assert (net `div` size < m)%N as Hlt
      by (apply N.Div0.div_lt_upper_bound; unfold u32_max in Hn; lia).
    apply N.le_succ_l, (N.mul_le_mono_r _ _ size) in Hlt. unfold u32_max. subst hi lo. clearbody size. lia. }
  assert (∀ x, (x ≤ hi)%N → as_u32 (Z.of_N x) = x) as Hu
    by (intros x Hx; unfold as_u32; unfold u32_max in Hhi; lia).
  unfold fn_cidr4_min, fn_cidr4_max, fn_cidr4_contains, fn_ip4_between, bound, cidr4_min, cidr4_max.
  rewrite Hsc, Hsi, !int_of_integer. cbn [mbind result_bind]. rewrite Hc, parse_ipv4_text by done.
  cbn [mbind option_bind]. rewrite !land_mask, (proj2 (prefix_mask_spec p Hp)), lor_free by done.
  fold size lo hi. rewrite !Hu by (subst hi; lia). split_and!; try done.
  subst inside. do 2 f_equal. subst hi lo. apply between_range. lia.
Qed.
End Laws.

(** ** Concrete arguments *)

#[export] Instance demo_from_sql : FromSql := {
  get_string v := match v with SqlText s => if utf8_valid s then Ok s else Err (lit "utf8") | _ => Err (lit "type") end;
  get_i64 v := match v with SqlInteger z => Ok z | _ => Err (lit "type") end;
}.
#[export] Instance demo_from_sql_laws : FromSqlLaws.
Proof. split; [intros s Hs; cbn; by rewrite Hs|done|done]. Qed.

Lemma trim_quotes_spec_witness :
  ∃ r, trim_quotes (lit " '北京' ") = Some r ∧ unquoted (trim (lit " '北京' ")) r.
Proof. apply trim_quotes_spec. vm_compute. reflexivity. Defined.

Lemma ip4_roundtrip_witness :
  ∃ text, fn_ip4_text (SqlInteger (-1)) = Ok (SqlText text)
          ∧ fn_ip4_int (SqlText text) = Ok (SqlInteger 4294967295).
Proof. exact (proj1 (ip4_roundtrip (-1))). Defined.

Lemma cidr4_range_witness :
  fn_cidr4_contains (SqlText (lit "10.1.2.3")) (SqlText (lit "10.1.0.0/16")) = Ok (SqlInteger 1)
  ∧ (16 ≤ 32)%N.
Proof.
  split; [|done].
  destruct (cidr4_range 167837696 16 167838211 ltac:(done) ltac:(done) ltac:(done)) as (_ & _ & _ & Hc & _).
  exact Hc.
Defined.

(** A single escaped quote is taken for a pair and lost, although text without
    a pair of quotes is documented to stay. *)
Lemma trim_quotes_single : trim_quotes [BACKSLASH; DQUOTE] = Some [].
Proof. reflexivity. Qed.

(** Text that is no network: [cidr4_contains] denies every address, the range
    between its bounds holds 0.0.0.0. *)
Lemma cidr4_unreadable :
  let c := SqlText (lit "10.0.0.0/33") in
  fn_cidr4_contains (SqlText (lit "0.0.0.0")) c = Ok (truth false)
  ∧ fn_cidr4_min c = Ok (SqlInteger 0) ∧ fn_cidr4_max c = Ok (SqlInteger 0)
  ∧ fn_ip4_between (SqlText (lit "0.0.0.0")) (SqlInteger 0) (SqlInteger 0) = Ok (truth true).
Proof. cbv zeta. split_and!; vm_compute; reflexivity. Qed.
