(* ===== verification/Loader.v ===== *)
(** * Configuration and the loading of tables (src/loader.rs)

    The data of [knowdb.toml] with its defaults, the validation of the SQL
    providers, and the loading of tables: create and clean scripts, CSV records
    inserted in batches; then what loading makes of the database's content, on
    success and at each error.  Reading files, TOML, CSV and SQLite are
    parameters. *)
From S2P Require Import Prelude Errors RustStr Model.
From S2P Require IntranetNets.

(** ** Configuration *)

Inductive FunCall := FcBfExists | FcSismember | FcHget | FcGet.
#[export] Instance fun_call_eq_dec : EqDecision FunCall.
Proof. solve_decision. Defined.

Record FunSpec := {
  fun_call : FunCall;
  fun_key : option str;
  fun_cache : bool;
  fun_ttl_ms : option N;
}.

Definition returns_bool (call : FunCall) : bool :=
  match call with FcBfExists | FcSismember => true | FcHget | FcGet => false end.

Record CacheSpec := { cache_enabled : bool; cache_capacity : nat; cache_ttl_ms : N }.

Definition default_true : bool := true.
Definition default_batch : nat := 2000.
Definition default_comma : str := lit ",".
Definition default_utf8 : str := lit "utf-8".
Definition default_dot : str := lit ".".
Definition default_result_cache_capacity : nat := 1024.
Definition default_result_cache_ttl_ms : N := 30000.
Definition default_connect_timeout_ms : N := 3000.
Definition default_command_timeout_ms : N := 100.

Definition cache_spec_default : CacheSpec :=
  {| cache_enabled := default_true; cache_capacity := default_result_cache_capacity;
     cache_ttl_ms := default_result_cache_ttl_ms |}.

Definition DEFAULT_SQLDB_NAME : str := lit "default".

Inductive PlanCacheMode := Auto | ForceGenericPlan | ForceCustomPlan.
Definition to_sql_value (m : PlanCacheMode) : str :=
  match m with
  | Auto => lit "auto"
  | ForceGenericPlan => lit "force_generic_plan"
  | ForceCustomPlan => lit "force_custom_plan"
  end.

Record PostgresSessionSpec := {
  plan_cache_mode : option PlanCacheMode;
  jit : option bool;
  application_name : option str;
}.

Inductive SqlProviderKind := SqlPostgres | SqlMysql.

Record SqlProviderSpec := {
  spec_name : option str;
  spec_kind : SqlProviderKind;
  connection_uri : str;
  pool_size : option N;
  min_connections : option N;
  acquire_timeout_ms : option N;
  idle_timeout_ms : option N;
  max_lifetime_ms : option N;
  postgres_session : option PostgresSessionSpec;
}.

Record RedisProviderSpec := {
  redis_connection_uri : str;
  redis_pool_size : option nat;
  connect_timeout_ms : N;
  command_timeout_ms : N;
}.

Record ProviderConfig := {
  sqldb : option (list SqlProviderSpec);
  redis : option RedisProviderSpec;
}.

Inductive OnError := Fail_ | Skip.

Record OptLoadSpec := { transaction : bool; batch_size : nat; on_error : OnError }.
Definition default_on_error : OnError := Fail_.
Definition opt_load_spec_default : OptLoadSpec :=
  {| transaction := true; batch_size := default_batch; on_error := default_on_error |}.

Record CsvSpec := { has_header : bool; delimiter : str; encoding : str; csv_trim : bool }.
Definition csv_spec_default : CsvSpec :=
  {| has_header := true; delimiter := lit ","; encoding := lit "utf-8"; csv_trim := true |}.

Record ColumnsSpec := { by_header : list str; by_index : list nat }.
Record RowExpect := { expect_min : option nat; expect_max : option nat }.

Record TableSpec := {
  table_name : str;
  table_dir : option str;
  data_file : option str;
  columns : ColumnsSpec;
  expected_rows : RowExpect;
  table_enabled : bool;
}.

Record KnowDbConf := {
  version : N;
  base_dir : str;
  default_load : OptLoadSpec;
  csv : CsvSpec;
  cache : CacheSpec;
  tables : list TableSpec;
  fun_ : gmap str FunSpec;
  provider_raw : option ProviderConfig;
  intranet_nets : option IntranetNets.IntranetNetsConf;
}.

Definition provider (c : KnowDbConf) : option ProviderConfig := provider_raw c.

(** ** Provider names *)

Definition effective_name (s : SqlProviderSpec) : str :=
  match spec_name s with Some n => n | None => DEFAULT_SQLDB_NAME end.

Definition sqldb_names (c : ProviderConfig) : list str :=
  match sqldb c with Some specs => effective_name <$> specs | None => [] end.

Definition name_byte (c : N) : bool := is_ascii_alphanumeric c || (c =? 95)%N.

(** [chars().any(|c| c.is_control())]: U+0000-001F, U+007F and U+0080-009F,
    the last encoded as 194 followed by 128-159 *)
Fixpoint has_control (s : str) : bool :=
  match s with
  | [] => false
  | c :: s' =>
      (c <? 32)%N || (c =? 127)%N
      || ((c =? 194)%N && match s' with d :: _ => (128 <=? d)%N && (d <=? 159)%N | [] => false end)
      || has_control s'
  end.

Definition app_name_bad (app : str) : bool := bool_decide (63 < length app) || has_control app.

(** the checks of one specification, after its name was new *)
Definition session_check (s : SqlProviderSpec) : KnowledgeResult unit :=
  let name := effective_name s in
  match postgres_session s with
  | None => Ok tt
  | Some session =>
      match spec_kind s with
      | SqlMysql =>
          Err (know_err from_conf
                 [F "provider '"; D name; F "': postgres_session is only valid for kind = "; Dbg (lit "postgres")])
      | SqlPostgres =>
          match application_name session with
          | Some app =>
              if app_name_bad app then
                Err (know_err from_conf
                       [F "provider '"; D name;
                        F "': postgres_session.application_name invalid (≤ 63 bytes, no control characters)"])
              else Ok tt
          | None => Ok tt
          end
      end
  end.

Fixpoint validate_loop (specs : list SqlProviderSpec) (seen : gset str)
  : KnowledgeResult (gset str) :=
  match specs with
  | [] => Ok seen
  | s :: specs =>
      let name := effective_name s in
      if negb (forallb name_byte name) then
        Err (know_err from_conf
               [F "invalid sqldb provider name '"; D name; F "' (allowed [A-Za-z0-9_])"])
      else if bool_decide (name ∈ seen) then
        Err (know_err from_conf [F "duplicate sqldb provider name '"; D name; F "'"])
      else
        _ ← session_check s;
        validate_loop specs ({[name]} ∪ seen)
  end.

Definition validate_specs (specs : list SqlProviderSpec) : KnowledgeResult (gset str) :=
  validate_loop specs ∅.

(** what a specification must satisfy by itself *)
Definition spec_ok (s : SqlProviderSpec) : Prop :=
  Forall (λ c, name_byte c = true) (effective_name s)
  ∧ ∀ session, postgres_session s = Some session →
      spec_kind s = SqlPostgres
      ∧ ∀ app, application_name session = Some app → length app ≤ 63 ∧ has_control app = false.

Lemma session_check_ok s :
  session_check s = Ok tt ↔
  ∀ session, postgres_session s = Some session →
    spec_kind s = SqlPostgres
    ∧ ∀ app, application_name session = Some app → length app ≤ 63 ∧ has_control app = false.
Proof.
  unfold session_check. destruct (postgres_session s) as [session|]; [|naive_solver].
  destruct (spec_kind s); [|naive_solver].
  destruct (application_name session) as [app|] eqn:Ha; [|naive_solver].
  unfold app_name_bad. case_bool_decide; [naive_solver lia|].
  destruct (has_control app) eqn:Hc; simpl; [naive_solver congruence|].
  split; [|done]. intros _ ses [= <-]. split; [done|]. intros app'. rewrite Ha. intros [= <-].
  split; [lia|done].
Qed.

Lemma validate_loop_spec specs seen seen' :
  validate_loop specs seen = Ok seen' ↔
  Forall spec_ok specs ∧ NoDup (effective_name <$> specs)
  ∧ (∀ n, n ∈ effective_name <$> specs → n ∉ seen)
  ∧ seen' = list_to_set (effective_name <$> specs) ∪ seen.
Proof.
  revert seen. induction specs as [|s specs IH]; intros seen; cbn [validate_loop].
  { split; [intros [= <-]|intros (_ & _ & _ & ->)]; simpl.
    - split_and!; [done|constructor|intros n Hn; by apply not_elem_of_nil in Hn|set_solver].
    - f_equal. set_solver. }
  rewrite fmap_cons, Forall_cons, NoDup_cons.
  destruct (forallb name_byte (effective_name s)) eqn:Hn; cbn [negb].
  2: { split; [done|]. intros ((Hok & _) & _). destruct Hok as [Hf _].
       rewrite Forall_forall in Hf. assert (forallb name_byte (effective_name s) = true); [|congruence].
       apply forallb_forall. intros x Hx%list_elem_of_In. by apply Hf. }
  case_bool_decide as Hs.
  { split; [done|]. intros (_ & _ & Hnew & _). by destruct (Hnew (effective_name s)); [left|]. }
  destruct (session_check s) as [[]|e] eqn:Hc; cbn.
  2: { split; [done|]. intros ((Hok & _) & _). destruct Hok as [_ Hses].
       apply session_check_ok in Hses. congruence. }
  rewrite IH. pose proof (proj1 (session_check_ok s) Hc) as Hses.
  assert (spec_ok s) as Hok.
  { split; [|done]. apply Forall_forall. intros x Hx%list_elem_of_In.
    by apply (proj1 (forallb_forall _ _) Hn). }
  split.
  - intros (Hf & Hnd & Hnew & ->). split_and!; [done|done| |done| |set_solver].
    + intros Hin. apply Hnew in Hin. set_solver.
    + intros n [->|Hin]%elem_of_cons; [done|]. apply Hnew in Hin. set_solver.
  - intros ((_ & Hf) & (Hni & Hnd) & Hnew & ->). split_and!; [done|done| |set_solver].
    intros n Hin [->%elem_of_singleton|Hin']%elem_of_union; [done|].
    eapply Hnew; [right; exact Hin|done].
Qed.

(** The validation of SQL providers accepts exactly the lists whose
    names are pairwise distinct and made of letters, digits and underscores,
    with session settings on PostgreSQL providers only and application names
    of at most 63 bytes without control characters, and then returns the set
    of the effective names. *)
Theorem validate_specs_spec specs seen :
  validate_specs specs = Ok seen ↔
  Forall spec_ok specs ∧ NoDup (effective_name <$> specs)
  ∧ seen = list_to_set (effective_name <$> specs).
Proof.
  unfold validate_specs. rewrite validate_loop_spec. split.
  - intros (? & ? & _ & ->). split_and!; [done|done|set_solver].
  - intros (? & ? & ->). split_and!; [done|done|set_solver|set_solver].
Qed.

(** ** Text and paths *)

(** [s.replace("{table}", t)], the pattern being [pat] *)
Fixpoint replace_go (pat rep : str) (skip : nat) (s : str) : str :=
  match s with
  | [] => []
  | c :: s' =>
      match skip with
      | S k => replace_go pat rep k s'
      | 0 => if prefix_of pat s then rep ++ replace_go pat rep (length pat - 1) s'
             else c :: replace_go pat rep 0 s'
      end
  end.
Definition replace_table (sql table : str) : str := replace_go (lit "{table}") table 0 sql.

(** Unix paths: [is_absolute] and [join] *)
Definition is_absolute (p : str) : bool := starts_with 47 p.
Definition path_join (base p : str) : str :=
  if is_absolute p then p
  else match base with
       | [] => p
       | _ => if ends_with 47 base then base ++ p else base ++ [47%N] ++ p
       end.
Definition join_rel (base rel : str) : str := if is_absolute rel then rel else path_join base rel.

(** [parent()], the path reversed: separators and [.] components at the end do
    not count; no parent of the root and of the empty path, read as ["."] *)
Fixpoint strip_end (r : str) : str :=
  match r with
  | 47%N :: r => strip_end r
  | 46%N :: ((47%N :: _) as r) => strip_end r
  | _ => r
  end.
Definition parent_dir (p : str) : str :=
  match strip_end (reverse p) with
  | [] => lit "."
  | r =>
      let r := drop (span (λ c, negb (c =? 47)%N) r) r in
      match strip_end r with
      | [] => match r with [] => [] | _ => [47%N] end
      | d => reverse d
      end
  end.

(** ** Columns *)

Definition position {A} (p : A → bool) : list A → option nat :=
  fix go l := match l with
              | [] => None
              | x :: l => if p x then Some 0 else S <$> go l
              end.

Fixpoint select_indices_by_header (headers wanted : list str) : KnowledgeResult (list nat) :=
  match wanted with
  | [] => Ok []
  | name :: wanted =>
      pos ← ok_or (position (λ h, bool_decide (h = name)) headers)
              (know_err from_conf [F "header not found"]);
      out ← select_indices_by_header headers wanted;
      Ok (pos :: out)
  end.

(** [Err tt] is the [bail!]; [None] a record to skip, which [bad] then counts *)
Fixpoint row_refs (record : list str) (col_indices : list nat) : option (list str) :=
  match col_indices with
  | [] => Some []
  | idx :: col_indices =>
      v ← record !! idx; vs ← row_refs record col_indices; Some (v :: vs)
  end.
Definition extract_row_refs (record : list str) (col_indices : list nat) (bad : nat)
    (load : OptLoadSpec) : Result unit (option (list str) * nat) :=
  match row_refs record col_indices with
  | Some vs => Ok (Some vs, bad)
  | None => match on_error load with
            | Skip => Ok (None, S bad)
            | Fail_ => Err tt
            end
  end.

(** ** Inserting the records *)

(** A SQLite connection, as [rusqlite] offers it. *)
Class Sqlite (Db : Type) := {
  (** a connection taken from the pool *)
  checkout : Db → Result str unit;
  execute_batch : str → St Db (Result str unit);
  prepare : str → Db → Result str unit;
  stmt_execute : str → list str → St Db (Result str unit);
  begin_transaction : St Db (Result str unit);
  commit : St Db (Result str unit);
  (** an open transaction is dropped *)
  rollback : Db → Db;
}.

Section Insert.
Context {Db : Type} `{Sqlite Db}.

(** how the loop ends: with the counters, or by an error, and whether a
    transaction is open then *)
Definition LoopEnd : Type := Result unit (nat * nat) * bool.

Definition batch_of (load : OptLoadSpec) : nat := Nat.max (batch_size load) 1.

(** The record loop; a record the CSV reader could not parse is [None]. *)
Fixpoint load_loop (load : OptLoadSpec) (insert_sql : str) (col_indices : list nat)
    (recs : list (option (list str))) (tx : bool) (inserted bad batch_left : nat) (db : Db)
  : LoopEnd * Db :=
  match recs with
  | [] => ((Ok (inserted, bad), tx), db)
  | None :: recs =>
      match on_error load with
      | Skip => load_loop load insert_sql col_indices recs tx inserted (S bad) batch_left db
      | Fail_ => ((Err tt, tx), db)
      end
  | Some record :: recs =>
      match extract_row_refs record col_indices bad load with
      | Err _ => ((Err tt, tx), db)
      | Ok (None, bad) => load_loop load insert_sql col_indices recs tx inserted bad batch_left db
      | Ok (Some refs, bad) =>
          match stmt_execute insert_sql refs db with
          | (Err _, db) => ((Err tt, tx), db)
          | (Ok _, db) =>
              if transaction load then
                let batch_left := batch_left - 1 in
                if bool_decide (batch_left = 0) then
                  match commit db with
                  | (Err _, db) => ((Err tt, false), rollback db)
                  | (Ok _, db) =>
                      match begin_transaction db with
                      | (Err _, db) => ((Err tt, false), db)
                      | (Ok _, db) =>
                          load_loop load insert_sql col_indices recs true (S inserted) bad
                            (batch_of load) db
                      end
                  end
                else load_loop load insert_sql col_indices recs tx (S inserted) bad batch_left db
              else load_loop load insert_sql col_indices recs tx (S inserted) bad batch_left db
          end
      end
  end.

(** the closure around the loop: transaction, statement, loop, last commit;
    an open transaction is rolled back on every error *)
Definition insert_records (load : OptLoadSpec) (insert_sql : str) (col_indices : list nat)
    (recs : list (option (list str))) : St Db (Result unit (nat * nat)) := λ db,
  let '(begun, db) := if transaction load then begin_transaction db else (Ok tt, db) in
  let tx := transaction load in
  match begun with
  | Err _ => (Err tt, db)
  | Ok _ =>
      match prepare insert_sql db with
      | Err _ => (Err tt, if tx then rollback db else db)
      | Ok _ =>
          match load_loop load insert_sql col_indices recs tx 0 0 (batch_of load) db with
          | ((Err _, tx), db) => (Err tt, if tx then rollback db else db)
          | ((Ok counts, tx), db) =>
              if tx then
                match commit db with
                | (Err _, db) => (Err tt, rollback db)
                | (Ok _, db) => (Ok counts, db)
                end
              else (Ok counts, db)
          end
      end
  end.
End Insert.

(** ** What loading does to the table *)

(** The rows the records stand for, up to the first record that stops the
    load; the number of skipped ones; whether the whole input was read. *)
Fixpoint good_rows (skip : bool) (col_indices : list nat) (recs : list (option (list str)))
  : list (list str) * nat * bool :=
  match recs with
  | [] => ([], 0, true)
  | rec :: recs =>
      match rec ≫= λ record, row_refs record col_indices with
      | Some r => let '(rows, bad, all) := good_rows skip col_indices recs in (r :: rows, bad, all)
      | None => if skip then let '(rows, bad, all) := good_rows skip col_indices recs in (rows, S bad, all)
                else ([], 0, false)
      end
  end.
Definition skips (load : OptLoadSpec) : bool :=
  match on_error load with Skip => true | Fail_ => false end.

(** What statements mean for a database's content: the row an insert statement
    adds, the effect of a script; [plain] holds of the texts that are free of
    transaction control. *)
Class SqlMeaning (Content : Type) := {
  inserted : str → list str → Content → Content;
  scripted : str → Content → Content;
  plain : str → Prop;
}.

(** the insert statement run on row after row *)
Definition insert_rows {Content} `{SqlMeaning Content} (sql : str) (rows : list (list str)) (c : Content)
  : Content := foldl (λ c r, inserted sql r c) c rows.

(** What SQLite documents of a connection: a statement that succeeds changes the
    content as it means, one that fails does not; outside a transaction every
    effect is durable, a transaction's effects become durable at its commit and
    are undone by its rollback. *)
Class SqliteLaws (Db Content : Type) `{Sqlite Db, SqlMeaning Content} := {
  executed : Db → Content;
  durable : Db → Content;
  in_tx : Db → bool;
  autocommit db : in_tx db = false → durable db = executed db;
  stmt_law sql r db : plain sql →
    let '(res, db') := stmt_execute sql r db in
    in_tx db' = in_tx db
    ∧ executed db' = (if is_ok res then inserted sql r (executed db) else executed db)
    ∧ (in_tx db = true → durable db' = durable db);
  script_law sql db : plain sql →
    let '(res, db') := execute_batch sql db in
    in_tx db = false → in_tx db' = false ∧ (is_ok res = true → durable db' = scripted sql (durable db));
  begin_law db :
    let '(res, db') := begin_transaction db in
    in_tx db = false → in_tx db' = is_ok res ∧ executed db' = executed db ∧ durable db' = durable db;
  commit_law db :
    let '(res, db') := commit db in
    in_tx db = true →
    in_tx db' = negb (is_ok res) ∧ executed db' = executed db
    ∧ (is_ok res = false → durable db' = durable db);
  rollback_law db : in_tx db = true → in_tx (rollback db) = false ∧ durable (rollback db) = durable db;
}.

Section InsertFacts.
Context {Db Content : Type} `{SqliteLaws Db Content}.
Implicit Types (base committed c : Content) (rows pend : list (list str)) (load : OptLoadSpec).

Lemma insert_app sql rows rows' c : insert_rows sql (rows ++ rows') c = insert_rows sql rows' (insert_rows sql rows c).
Proof. apply foldl_app. Qed.
Lemma insert_snoc sql rows r c : insert_rows sql (rows ++ [r]) c = inserted sql r (insert_rows sql rows c).
Proof. apply insert_app. Qed.

(** every call on the connection succeeds *)
Definition healthy : Prop :=
  (∀ sql r db, is_ok (stmt_execute sql r db).1 = true)
  ∧ (∀ sql db, is_ok (prepare sql db) = true)
  ∧ (∀ db, is_ok (begin_transaction db).1 = true) ∧ (∀ db, is_ok (commit db).1 = true).

(** a prefix of the rows is durable, with transactions in whole batches *)
Definition kept load sql base rows (db : Db) : Prop :=
  ∃ n, n ≤ length rows ∧ durable db = insert_rows sql (take n rows) base
       ∧ (transaction load = true → ∃ k, n = k * batch_of load).

(** the loop's promise, from the rows committed and those of the open batch *)
Definition loop_post load sql cols recs committed pend (inserted bad : nat)
    (e : LoopEnd) (db' : Db) : Prop :=
  let '(rows, nbad, all) := good_rows (skips load) cols recs in
  in_tx db' = e.2
  ∧ kept load sql committed (pend ++ rows) db'
  ∧ match e.1 with
    | Ok (ins', bad') =>
        all = true ∧ executed db' = insert_rows sql (pend ++ rows) committed
        ∧ ins' = inserted + length rows ∧ bad' = bad + nbad ∧ e.2 = transaction load
    | Err _ => True
    end
  ∧ (healthy → is_ok e.1 = all).

Lemma kept_none load sql base rows db : durable db = base → kept load sql base rows db.
Proof. intros <-. exists 0. split_and!; [lia|done|]. intros _. by exists 0. Qed.

Lemma batch_of_pos load : 1 ≤ batch_of load.
Proof. unfold batch_of. lia. Qed.

(** one more row, kept in the open batch or committed with it *)
Lemma loop_post_row load sql cols record recs r committed pend committed' pend' inserted bad e db' :
  row_refs record cols = Some r →
  (committed' = committed ∧ pend' = pend ++ [r])
  ∨ (committed' = insert_rows sql (pend ++ [r]) committed ∧ pend' = [] ∧ length (pend ++ [r]) = batch_of load) →
  loop_post load sql cols recs committed' pend' (S inserted) bad e db' →
  loop_post load sql cols (Some record :: recs) committed pend inserted bad e db'.
Proof.
  intros Hr Hcase. unfold loop_post. cbn [good_rows mbind option_bind]. rewrite Hr.
  destruct (good_rows (skips load) cols recs) as [[rows nbad] all].
  assert (pend ++ r :: rows = (pend ++ [r]) ++ rows) as -> by (by rewrite <-app_assoc).
  assert (insert_rows sql (pend' ++ rows) committed' = insert_rows sql ((pend ++ [r]) ++ rows) committed) as Hrows.
  { destruct Hcase as [[-> ->]|(-> & -> & _)]; [done|]. by rewrite (insert_app sql (pend ++ [r])). }
  intros (Htx & (n & Hn & Hd & Hk) & He & Hh). split_and!; [done| | |done].
  - destruct Hcase as [[-> ->]|(-> & -> & Hlen)]; [by exists n|].
    simpl in Hn, Hd. exists (batch_of load + n). rewrite <-Hlen. split_and!.
    + rewrite !length_app in *. lia.
    + rewrite Hd, take_app_add. by rewrite (insert_app sql (pend ++ [r])).
    + intros Ht. destruct (Hk Ht) as [k ->]. exists (S k). rewrite Hlen. lia.
  - destruct e.1 as [[ins' bad']|]; [|done].
    destruct He as (? & Hex & -> & -> & ?). split_and!; [done|congruence|simpl; lia|done|done].
Qed.

Lemma loop_post_skip load sql cols rec recs committed pend inserted bad e db' :
  (rec ≫= λ record, row_refs record cols) = None → on_error load = Skip →
  loop_post load sql cols recs committed pend inserted (S bad) e db' →
  loop_post load sql cols (rec :: recs) committed pend inserted bad e db'.
Proof.
  intros Hr Hs. unfold loop_post. cbn [good_rows]. rewrite Hr.
  assert (skips load = true) as -> by (unfold skips; by rewrite Hs).
  destruct (good_rows true cols recs) as [[rows nbad] all].
  intros (Htx & Hk & He & Hh). split_and!; [done|done| |done]. destruct e.1 as [[ins' bad']|]; [|done].
  destruct He as (? & ? & ? & -> & ?). split_and!; try done. lia.
Qed.

(** what the batch being filled means for the connection *)
Definition batch_ok load sql committed pend (left : nat) (db : Db) : Prop :=
  if transaction load
  then in_tx db = true ∧ durable db = committed ∧ executed db = insert_rows sql pend committed
       ∧ length pend + left = batch_of load ∧ 1 ≤ left
  else in_tx db = false ∧ executed db = insert_rows sql pend committed.

(** stopping here keeps the committed rows, or all rows without a transaction *)
Lemma loop_post_stop load sql cols recs committed pend inserted bad left db :
  batch_ok load sql committed pend left db →
  (healthy → (good_rows (skips load) cols recs).2 = false) →
  loop_post load sql cols recs committed pend inserted bad (Err tt, transaction load) db.
Proof.
  unfold batch_ok, loop_post. destruct (good_rows _ _ _) as [[rows nbad] all]. cbn [fst snd].
  intros Hb Hf. destruct (transaction load) eqn:Ht.
  - destruct Hb as (Htx & Hd & _). split_and!; [done|by apply kept_none|done|naive_solver].
  - destruct Hb as (Htx & He). split_and!; [done| |done|naive_solver]. exists (length pend).
    rewrite (autocommit _ Htx), He, take_app_length. split_and!; [rewrite length_app; lia|done|congruence].
Qed.

(** a full batch: it is committed and the next one begun *)
Lemma full_batch load sql cols record recs r committed pend inserted bad db :
  row_refs record cols = Some r → transaction load = true →
  in_tx db = true → executed db = insert_rows sql (pend ++ [r]) committed → durable db = committed →
  length (pend ++ [r]) = batch_of load →
  match commit db with
  | (Err _, db) =>
      loop_post load sql cols (Some record :: recs) committed pend inserted bad (Err tt, false) (rollback db)
  | (Ok _, db) =>
      match begin_transaction db with
      | (Err _, db) =>
          loop_post load sql cols (Some record :: recs) committed pend inserted bad (Err tt, false) db
      | (Ok _, db) => batch_ok load sql (insert_rows sql (pend ++ [r]) committed) [] (batch_of load) db
      end
  end.
Proof.
  intros Hr Ht Htx Hex Hd Hlen.
  assert (good_rows (skips load) cols (Some record :: recs)
          = let '(rows, nbad, all) := good_rows (skips load) cols recs in (r :: rows, nbad, all)) as Hgood
    by (cbn [good_rows mbind option_bind]; by rewrite Hr).
  pose proof (commit_law db) as Hc. pose proof (λ h : healthy, proj2 (proj2 (proj2 h)) db) as Hhc.
  destruct (commit db) as [[[]|err] db1]; specialize (Hc Htx) as (Htx1 & Hex1 & Hd1); cbn [fst] in Hhc.
  - pose proof (autocommit db1 Htx1) as Ha. pose proof (begin_law db1) as Hb.
    pose proof (λ h : healthy, proj1 (proj2 (proj2 h)) db1) as Hhb.
    destruct (begin_transaction db1) as [[[]|err] db2]; specialize (Hb Htx1) as (Htx2 & Hex2 & Hd2);
      cbn [fst] in Hhb.
    + unfold batch_ok. rewrite Ht. pose proof (batch_of_pos load).
      split_and!; [done|congruence|cbn; congruence|done|done].
    + unfold loop_post. rewrite Hgood. destruct (good_rows _ _ recs) as [[rows nbad] all].
      split_and!; [done| |done|intros h; by specialize (Hhb h)]. exists (batch_of load).
      assert (pend ++ r :: rows = (pend ++ [r]) ++ rows) as -> by (by rewrite <-app_assoc).
      rewrite <-Hlen, take_app_length. split_and!; [rewrite !length_app; lia|congruence|].
      intros _. exists 1. lia.
  - destruct (rollback_law db1) as [Htx2 Hd2]; [done|].
    unfold loop_post. rewrite Hgood. destruct (good_rows _ _ recs) as [[rows nbad] all].
    split_and!; [done| |done|intros h; by specialize (Hhc h)]. apply kept_none. by rewrite Hd2, Hd1.
Qed.

(** a row inserted into the open batch *)
Lemma batch_ok_row load sql committed pend left left' r db db' :
  batch_ok load sql committed pend left db →
  in_tx db' = in_tx db → executed db' = inserted sql r (executed db) →
  (in_tx db = true → durable db' = durable db) →
  (transaction load = true → left ≠ 1 ∧ left' = left - 1) →
  batch_ok load sql committed (pend ++ [r]) left' db'.
Proof.
  unfold batch_ok. intros Hb Htx Hex Hd Hl. rewrite insert_snoc. destruct (transaction load).
  - destruct Hb as (Ht & Hdb & Heb & Hlen & Hleft). destruct (Hl eq_refl) as [Hl1 ->].
    split_and!; [congruence|by rewrite Hd|congruence|rewrite length_app; simpl; lia|lia].
  - destruct Hb as (Ht & Heb). split; congruence.
Qed.

(** a refused row changes nothing *)
Lemma batch_ok_failed load sql committed pend left db db' :
  batch_ok load sql committed pend left db →
  in_tx db' = in_tx db → executed db' = executed db → (in_tx db = true → durable db' = durable db) →
  batch_ok load sql committed pend left db'.
Proof.
  unfold batch_ok. intros Hb Htx Hex Hd. destruct (transaction load).
  - destruct Hb as (Ht & Hdb & Heb & Hlen). split_and!; [congruence|by rewrite Hd|congruence|apply Hlen..].
  - destruct Hb. split; congruence.
Qed.

(** all records read *)
Lemma loop_post_end load sql cols committed pend inserted bad left db :
  batch_ok load sql committed pend left db →
  loop_post load sql cols [] committed pend inserted bad (Ok (inserted, bad), transaction load) db.
Proof.
  unfold loop_post, batch_ok. cbn. rewrite app_nil_r.
  destruct (transaction load) eqn:Ht; intros (Htx & Hb).
  - split_and!; try done; try lia; [|apply Hb]. apply kept_none, Hb.
  - split_and!; try done; try lia. exists (length pend). rewrite (autocommit _ Htx), Hb, firstn_all.
    split_and!; [done|done|congruence].
Qed.

(** a record that gives no row is skipped or ends the loop *)
Lemma load_loop_unusable load sql cols rec recs inserted bad left db :
  (rec ≫= λ record, row_refs record cols) = None →
  load_loop load sql cols (rec :: recs) (transaction load) inserted bad left db
  = match on_error load with
    | Skip => load_loop load sql cols recs (transaction load) inserted (S bad) left db
    | Fail_ => ((Err tt, transaction load), db)
    end.
Proof.
  intros Hr. destruct rec as [record|]; cbn in Hr |- *; [|done]. unfold extract_row_refs.
  rewrite Hr. by destruct (on_error load).
Qed.

Section Plain.
Context (sql : str) (Hplain : plain sql).

Lemma load_loop_spec load cols recs committed pend inserted bad left db :
  batch_ok load sql committed pend left db →
  let '(e, db') := load_loop load sql cols recs (transaction load) inserted bad left db in
  loop_post load sql cols recs committed pend inserted bad e db'.
Proof.
  revert committed pend inserted bad left db.
  induction recs as [|rec recs IH]; intros committed pend inserted bad left db Hb.
  { by eapply loop_post_end. }
  destruct (rec ≫= λ record, row_refs record cols) as [r|] eqn:Hr.
  2: { rewrite load_loop_unusable by done.
       destruct (on_error load) eqn:Ho.
       - eapply loop_post_stop; [done|]. intros _. cbn [good_rows]. rewrite Hr.
         unfold skips. by rewrite Ho.
       - specialize (IH committed pend inserted (S bad) left db Hb).
         destruct (load_loop _ _ _ _ _ _ _ _ _) as [e db']. by apply loop_post_skip. }
  destruct rec as [record|]; [|done]. cbn in Hr. cbn [load_loop]. unfold extract_row_refs.
  rewrite Hr. pose proof (stmt_law sql r db Hplain) as Hs.
  pose proof (λ h : healthy, proj1 h sql r db) as Hhs.
  destruct (stmt_execute sql r db) as [[[]|err] db1]; destruct Hs as (Htx & Hex & Hd); cbn [fst is_ok] in *.
  2: { eapply loop_post_stop; [|intros h; by specialize (Hhs h)]. by eapply batch_ok_failed. }
  assert (∀ left', (transaction load = true → left ≠ 1 ∧ left' = left - 1) →
    let '(e, db') := load_loop load sql cols recs (transaction load) (S inserted) bad left' db1 in
    loop_post load sql cols (Some record :: recs) committed pend inserted bad e db') as Hmore.
  { intros left' Hl. specialize (IH committed (pend ++ [r]) (S inserted) bad left' db1
      ltac:(by eapply batch_ok_row)).
    destruct (load_loop _ _ _ _ _ _ _ _ _) as [e db'].
    eapply loop_post_row; [done| |exact IH]. by left. }
  assert (transaction load = true → 1 ≤ left) as Hge
    by (unfold batch_ok in Hb; intros Ht; rewrite Ht in Hb; apply Hb).
  destruct (transaction load) eqn:Ht; [|by apply Hmore].
  case_bool_decide as Hz; [|apply Hmore; intros _; split; [intros ->; by apply Hz|done]].
  specialize (Hge eq_refl).
  clear Hmore. unfold batch_ok in Hb. rewrite Ht in Hb. destruct Hb as (Htxb & Hdb & Heb & Hlen & Hleft).
  pose proof (full_batch load sql cols record recs r committed pend inserted bad db1 Hr Ht) as Hfull.
  assert (length (pend ++ [r]) = batch_of load) as Hl by (rewrite length_app; simpl; lia).
  specialize (Hfull ltac:(congruence) ltac:(rewrite insert_snoc; congruence) ltac:(by rewrite Hd) Hl).
  destruct (commit db1) as [[[]|] db2]; [|exact Hfull].
  destruct (begin_transaction db2) as [[[]|] db3]; [|exact Hfull].
  specialize (IH _ [] (S inserted) bad _ _ Hfull).
  destruct (load_loop _ _ _ _ _ _ _ _ _) as [e db'].
  eapply loop_post_row; [done| |exact IH]. by right.
Qed.

(** the promise of the whole insertion into a database holding [base] *)
Definition insert_post load cols recs base (res : Result unit (nat * nat)) (db' : Db) : Prop :=
  let '(rows, nbad, all) := good_rows (skips load) cols recs in
  in_tx db' = false
  ∧ match res with
    | Ok (ins, bad) =>
        all = true ∧ durable db' = insert_rows sql rows base ∧ ins = length rows ∧ bad = nbad
    | Err _ => kept load sql base rows db'
    end
  ∧ (healthy → is_ok res = all).

Lemma insert_post_none load cols recs base db' :
  in_tx db' = false → durable db' = base → (healthy → False) → insert_post load cols recs base (Err tt) db'.
Proof.
  intros Htx Hd Hh. unfold insert_post. destruct (good_rows _ _ _) as [[rows nbad] all].
  split_and!; [done|by apply kept_none|]. intros h. by destruct (Hh h).
Qed.

Lemma finish_load_post load cols recs base db tx :
  transaction load = tx →
  batch_ok load sql base [] (batch_of load) db →
  let '(res, db') :=
    match load_loop load sql cols recs tx 0 0 (batch_of load) db with
    | ((Err _, tx), db) => (Err tt, if tx then rollback db else db)
    | ((Ok counts, tx), db) =>
        if tx then
          match commit db with
          | (Err _, db) => (Err tt, rollback db)
          | (Ok _, db) => (Ok counts, db)
          end
        else (Ok counts, db)
    end in
  insert_post load cols recs base res db'.
Proof.
  intros <- Hok. pose proof (load_loop_spec load cols recs _ [] 0 0 _ db Hok) as Hl.
  destruct (load_loop _ _ _ _ _ _ _ _ _) as [[e tx] db1]. unfold loop_post, insert_post in *.
  destruct (good_rows _ _ _) as [[rows nbad] all]. cbn [fst snd app] in Hl.
  destruct Hl as (Htx & Hk & He & Hh). destruct e as [[ins bad]|[]].
  - destruct He as (-> & Hex & -> & -> & ->). destruct (transaction load) eqn:Ht.
    + pose proof (commit_law db1) as Hc. pose proof (λ h : healthy, proj2 (proj2 (proj2 h)) db1) as Hhc.
      destruct (commit db1) as [[u'|err] db2]; specialize (Hc Htx) as (Htx2 & Hex2 & Hd2).
      * split_and!; [done|done| |done|done|done].
        rewrite (autocommit db2 Htx2). congruence.
      * destruct (rollback_law db2) as [Htx3 Hd3]; [done|].
        split_and!; [done| |intros h; by specialize (Hhc h)]. unfold kept in *. by rewrite Hd3, Hd2.
    + split_and!; [done|done| |done|done|done]. rewrite (autocommit db1 Htx). congruence.
  - destruct tx; [|by split_and!].
    destruct (rollback_law db1) as [Htx3 Hd3]; [done|]. split_and!; [done| |done].
    unfold kept in *. by rewrite Hd3.
Qed.

Lemma insert_records_post load cols recs db :
  in_tx db = false →
  let '(res, db') := insert_records load sql cols recs db in
  insert_post load cols recs (durable db) res db'.
Proof.
  intros Hidle. unfold insert_records. pose proof (autocommit db Hidle) as Hauto.
  pose proof (begin_law db) as Hb. pose proof (λ h : healthy, proj1 (proj2 (proj2 h)) db) as Hhb.
  pose proof (batch_of_pos load) as Hpos.
  destruct (transaction load) eqn:Ht.
  - destruct (begin_transaction db) as [[[]|err] db1]; specialize (Hb Hidle) as (Htx1 & Hex1 & Hd1).
    2: { apply insert_post_none; [done|done|]. intros h. by specialize (Hhb h). }
    pose proof (λ h : healthy, proj1 (proj2 h) sql db1) as Hhp. destruct (prepare sql db1) as [u|err].
    + apply finish_load_post; [done|]. unfold batch_ok. rewrite Ht. cbn.
      split_and!; try done; congruence.
    + destruct (rollback_law db1 Htx1) as [Htx2 Hd2].
      apply insert_post_none; [done|congruence|]. intros h. by specialize (Hhp h).
  - pose proof (λ h : healthy, proj1 (proj2 h) sql db) as Hhp. destruct (prepare sql db) as [u|err].
    + apply finish_load_post; [done|]. unfold batch_ok. rewrite Ht. by split.
    + apply insert_post_none; [done|done|]. intros h. by specialize (Hhp h).
Qed.
End Plain.

(** C20. Inserting the records of a file by a statement free of transaction
    control.  On success the whole file was read: the database went through
    exactly the insertions of the usable records' rows, in order, and the
    counters are their number and the number of records skipped.  On an error -
    a record that may not be skipped, or the database's - it went through those
    of a prefix of the rows, with transactions a whole number of batches.  No
    transaction stays open, and on a working database the load succeeds exactly
    when no record stops it. *)
Theorem insert_records_spec load sql cols recs db :
  plain sql → in_tx db = false →
  let '(res, db') := insert_records load sql cols recs db in
  insert_post sql load cols recs (durable db) res db'.
Proof. intros Hp. by apply insert_records_post. Qed.
End InsertFacts.

(** ** Loading a table *)

(** what the CSV reader is built with; no delimiter stands for its default *)
Record CsvOptions := {
  opt_has_headers : bool;
  opt_delimiter : option N;
  opt_trim_all : bool;
}.

(** The file system and the [csv] crate: a text file's content when it can be
    read, a CSV file opened with options, its header record, its records with
    [None] for one that does not parse. *)
Class Files := {
  Reader : Type;
  file_text : str → option str;
  file_exists : str → bool;
  csv_open : CsvOptions → str → option Reader;
  csv_headers : Reader → option (list str);
  csv_records : Reader → list (option (list str));
}.

(** What the opening of an authority database promises the loader: a handle on
    it, the connection the handle stands for over a state [Db], and running that
    connection's calls in a program with the state [W]. *)
Class AuthorityDb (W Db : Type) := {
  Handle : Type;
  open_authority : str → St W (KnowledgeResult Handle);
  handle_sqlite : Handle → Sqlite Db;
  on_handle : ∀ {A}, St Db A → St W A;
}.

Section Load.
Context `{Files} {Db : Type} `{Sqlite Db}.

Definition source_error : KnowledgeError := know_err from_res [F "source error"].

Definition read_to_string (path : str) : KnowledgeResult str := ok_or (file_text path) source_error.

(** The encoding's lower case is compared; no character outside ASCII has one
    of the letters of "utf-8" as its lower case. *)
Definition build_csv_reader (csvd : CsvSpec) (data_path : str) : KnowledgeResult Reader :=
  if negb (eq_ignore_ascii_case (encoding csvd) (lit "utf-8"))
  then Err (know_err from_conf [F "only utf-8 csv is supported"])
  else
    ok_or (csv_open {| opt_has_headers := has_header csvd;
                       opt_delimiter := match delimiter csvd with [d] => Some d | _ => None end;
                       opt_trim_all := csv_trim csvd |} data_path) source_error.

Definition column_indices (cols : ColumnsSpec) (rdr : Reader) : KnowledgeResult (list nat) :=
  match by_header cols, by_index cols with
  | _ :: _, _ =>
      headers ← ok_or (csv_headers rdr) source_error;
      select_indices_by_header headers (by_header cols)
  | [], _ :: _ => Ok (by_index cols)
  | [], [] => Err (know_err from_conf [F "columns mapping required"])
  end.

(** the two scripts run on a checked-out connection *)
Definition prepare_table (create_sql clean_sql : str) : St Db (KnowledgeResult unit) := λ db,
  let err := know_err from_res [F "prepare authority table"] in
  match checkout db with
  | Err _ => (Err err, db)
  | Ok _ =>
      match execute_batch create_sql db with
      | (Err _, db) => (Err err, db)
      | (Ok _, db) => let '(r, db) := execute_batch clean_sql db in (map_err (λ _, err) r, db)
      end
  end.

Definition load_data (load : OptLoadSpec) (insert_sql : str) (cols : list nat)
    (recs : list (option (list str))) : St Db (KnowledgeResult (nat * nat)) := λ db,
  let err := know_err from_res [F "load authority table data"] in
  match checkout db with
  | Err _ => (Err err, db)
  | Ok _ => let '(r, db) := insert_records load insert_sql cols recs db in (map_err (λ _, err) r, db)
  end.

(** the scripts of a table: create, insert and clean *)
Definition table_scripts (base_dir : str) (t : TableSpec) : KnowledgeResult (str * str * str * str) :=
  let table_dir := path_join base_dir (match table_dir t with Some d => d | None => table_name t end) in
  create_sql ← read_to_string (path_join table_dir (lit "create.sql"));
  insert_sql ← read_to_string (path_join table_dir (lit "insert.sql"));
  let clean_path := path_join table_dir (lit "clean.sql") in
  clean_sql ← (if file_exists clean_path
               then fmap (M := Result _) (λ s, replace_table s (table_name t)) (read_to_string clean_path)
               else Ok (lit "DELETE FROM " ++ table_name t));
  Ok (table_dir, replace_table create_sql (table_name t), replace_table insert_sql (table_name t),
      clean_sql).

(** the data file, the columns and the records to insert *)
Definition table_input (csvd : CsvSpec) (t : TableSpec) (table_dir : str)
  : KnowledgeResult (list nat * list (option (list str))) :=
  let data_path := match data_file t with
                   | Some rel => join_rel table_dir rel
                   | None => path_join table_dir (lit "data.csv")
                   end in
  if negb (file_exists data_path) then Err (know_err from_conf [F "data.csv not found"])
  else
    rdr ← build_csv_reader csvd data_path;
    col_indices ← column_indices (columns t) rdr;
    Ok (col_indices, csv_records rdr).

Definition row_count_check (e : RowExpect) (inserted : nat) : KnowledgeResult unit :=
  match expect_min e with
  | Some min => if bool_decide (inserted < min) then Err (know_err from_conf [F "table data less"])
                else Ok tt
  | None => Ok tt
  end.

Definition load_one_table (base_dir : str) (t : TableSpec) (csvd : CsvSpec) (load : OptLoadSpec)
  : St Db (KnowledgeResult unit) :=
  s ←? mret (table_scripts base_dir t);
  let '(dir, create_sql, insert_sql, clean_sql) := s in
  _ ←? prepare_table create_sql clean_sql;
  input ←? mret (table_input csvd t dir);
  counts ←? load_data load insert_sql input.1 input.2;
  mret (row_count_check (expected_rows t) counts.1).

Fixpoint load_tables (base_dir : str) (conf : KnowDbConf) (ts : list TableSpec)
    (loaded_names : list str) : St Db (KnowledgeResult (list str)) :=
  match ts with
  | [] => mret (Ok loaded_names)
  | t :: ts =>
      if negb (table_enabled t) then load_tables base_dir conf ts loaded_names
      else
        _ ←? load_one_table base_dir t (csv conf) (default_load conf);
        load_tables base_dir conf ts (loaded_names ++ [table_name t])
  end.

(** ** The configuration file *)

(** [env_parse_toml] with the environment's dictionary: [None] on an error.
    The section on intranet networks is handed to its module. *)
Definition parse_knowdb_conf (parse_toml : str → option KnowDbConf) (root conf_path : str)
  : St IntranetNets.IntranetState (KnowledgeResult (KnowDbConf * str * str)) := λ st,
  let conf_abs := if is_absolute conf_path then conf_path else path_join root conf_path in
  match read_to_string conf_abs with
  | Err e => (Err e, st)
  | Ok conf_txt =>
      match parse_toml conf_txt with
      | None => (Err (know_err from_conf [F "parse knowdb config"]), st)
      | Some conf =>
          if negb (version conf =? 2)%N
          then (Err (know_err from_conf [F "unsupported knowdb.version"]), st)
          else
            let st := IntranetNets.set_intranet_nets_conf (intranet_nets conf) st in
            (Ok (conf, conf_abs, join_rel (parent_dir conf_abs) (base_dir conf)), st)
      end
  end.

(** the table of a refresh and its projection *)
Definition join_comma (cols : list str) : str :=
  match cols with
  | [] => []
  | c :: cols => c ++ concat ((λ c, lit ", " ++ c) <$> cols)
  end.
Definition refresh_table (conf : KnowDbConf) (table : str) : KnowledgeResult (TableSpec * str) :=
  spec ← ok_or (snd <$> list_find (λ t, table_enabled t = true ∧ table_name t = table) (tables conf))
           (know_err from_conf [F "refresh table "; Dbg table; F " not found or disabled"]);
  match by_header (columns spec) with
  | [] => Err (know_err from_conf
                 [F "refresh table "; Dbg table; F " requires columns.by_header for row projection"])
  | cols => Ok (spec, lit "SELECT " ++ join_comma cols ++ lit " FROM " ++ table_name spec)
  end.
End Load.

(** *** Authority databases *)

Definition build_authority_from_knowdb `{Files} {W Db : Type} `{AuthorityDb W Db}
    (parse_toml : str → option KnowDbConf) (root conf_path authority_uri : str)
  : St (IntranetNets.IntranetState * W) (KnowledgeResult (list str)) := λ '(st, w),
  match parse_knowdb_conf parse_toml root conf_path st with
  | (Err e, st) => (Err e, (st, w))
  | (Ok (conf, _, base), st) =>
      let '(r, w) := (db ←? open_authority authority_uri;
                      on_handle (load_tables (H0 := handle_sqlite db) base conf (tables conf) [])) w in
      (r, (st, w))
  end.

(** ** What loading tables does to the database *)

Section TableFacts.
Context `{Files} {Db Content : Type} `{SqliteLaws Db Content}.
Implicit Types (c : Content) (t : TableSpec) (load : OptLoadSpec).

(** what loading a table means: its scripts, then the rows of its file; [None]
    when the configuration or the files do not allow it *)
Definition table_effect (base_dir : str) (csvd : CsvSpec) (load : OptLoadSpec) (t : TableSpec)
  : option (Content → Content) :=
  match table_scripts base_dir t with
  | Err _ => None
  | Ok (dir, create, insert, clean) =>
      match table_input csvd t dir with
      | Err _ => None
      | Ok (cols, recs) =>
          let '(rows, _, all) := good_rows (skips load) cols recs in
          if all && bool_decide (default 0 (expect_min (expected_rows t)) ≤ length rows)
          then Some (λ c, insert_rows insert rows (scripted clean (scripted create c)))
          else None
      end
  end.

(** the tables in use, one after the other *)
Fixpoint tables_effect (base_dir : str) (conf : KnowDbConf) (ts : list TableSpec) : option (Content → Content) :=
  match ts with
  | [] => Some id
  | t :: ts =>
      if negb (table_enabled t) then tables_effect base_dir conf ts
      else match table_effect base_dir (csv conf) (default_load conf) t, tables_effect base_dir conf ts with
           | Some f, Some g => Some (λ c, g (f c))
           | _, _ => None
           end
  end.

(** no script of the table begins or ends a transaction *)
Definition plain_table (base_dir : str) (t : TableSpec) : Prop :=
  ∀ dir create insert clean, table_scripts base_dir t = Ok (dir, create, insert, clean) →
    plain create ∧ plain insert ∧ plain clean.

(** every call on the database succeeds *)
Definition working : Prop :=
  healthy (Db := Db) ∧ (∀ db, is_ok (checkout db) = true) ∧ ∀ sql db, is_ok (execute_batch sql db).1 = true.

Definition prepare_failed : KnowledgeError := know_err from_res [F "prepare authority table"].
Definition load_failed : KnowledgeError := know_err from_res [F "load authority table data"].
Definition too_few_rows : KnowledgeError := know_err from_conf [F "table data less"].

(** why a table was not loaded into the content [c], and what that left *)
Inductive table_failed base_dir csvd load t c (db' : Db) : KnowledgeError → Prop :=
| NoScripts e : table_scripts base_dir t = Err e → durable db' = c → table_failed base_dir csvd load t c db' e
| NotPrepared : table_failed base_dir csvd load t c db' prepare_failed
| NoInput dir create insert clean e :
    table_scripts base_dir t = Ok (dir, create, insert, clean) → table_input csvd t dir = Err e →
    durable db' = scripted clean (scripted create c) → table_failed base_dir csvd load t c db' e
| NotInserted dir create insert clean cols recs rows nbad all :
    table_scripts base_dir t = Ok (dir, create, insert, clean) → table_input csvd t dir = Ok (cols, recs) →
    good_rows (skips load) cols recs = (rows, nbad, all) →
    kept load insert (scripted clean (scripted create c)) rows db' → table_failed base_dir csvd load t c db' load_failed
| TooFew dir create insert clean cols recs rows nbad :
    table_scripts base_dir t = Ok (dir, create, insert, clean) → table_input csvd t dir = Ok (cols, recs) →
    good_rows (skips load) cols recs = (rows, nbad, true) →
    length rows < default 0 (expect_min (expected_rows t)) →
    durable db' = insert_rows insert rows (scripted clean (scripted create c)) →
    table_failed base_dir csvd load t c db' too_few_rows.

Lemma prepare_table_spec create clean (db : Db) :
  plain create → plain clean → in_tx db = false →
  let '(res, db') := prepare_table create clean db in
  in_tx db' = false ∧ (working → is_ok res = true)
  ∧ match res with Ok _ => durable db' = scripted clean (scripted create (durable db)) | Err e => e = prepare_failed end.
Proof.
  intros Hp1 Hp2 Htx. unfold prepare_table. destruct (checkout db) as [u|e] eqn:Hc.
  2: { split_and!; [done| |done]. intros (_ & Hw & _). specialize (Hw db). by rewrite Hc in Hw. }
  pose proof (script_law create db Hp1) as Hl1. pose proof (λ w : working, proj2 (proj2 w) create db) as Hw1.
  destruct (execute_batch create db) as [[u1|e] db1]; destruct (Hl1 Htx) as [Htx1 Hd1].
  2: { split_and!; [done| |done]. intros w. by specialize (Hw1 w). }
  pose proof (script_law clean db1 Hp2) as Hl2. pose proof (λ w : working, proj2 (proj2 w) clean db1) as Hw2.
  destruct (execute_batch clean db1) as [[u2|e] db2]; destruct (Hl2 Htx1) as [Htx2 Hd2]; split_and!; try done.
  cbn. by rewrite Hd2, Hd1.
Qed.

Lemma load_data_spec load sql cols recs (db : Db) :
  plain sql → in_tx db = false →
  let '(rows, nbad, all) := good_rows (skips load) cols recs in
  let '(res, db') := load_data load sql cols recs db in
  in_tx db' = false ∧ (working → is_ok res = all)
  ∧ match res with
    | Ok counts => all = true ∧ durable db' = insert_rows sql rows (durable db) ∧ counts.1 = length rows
    | Err e => e = load_failed ∧ kept load sql (durable db) rows db'
    end.
Proof.
  intros Hp Htx. pose proof (insert_records_post sql Hp load cols recs db Htx) as Hi. unfold insert_post in Hi.
  unfold load_data. destruct (good_rows _ _ _) as [[rows nbad] all]. destruct (checkout db) as [u|e] eqn:Hc.
  2: { split_and!; [done| |done|by apply kept_none]. intros (_ & Hw & _). specialize (Hw db). by rewrite Hc in Hw. }
  destruct (insert_records load sql cols recs db) as [[[ins bad]|e] db']; destruct Hi as (Htx' & Hi & Hh); cbn.
  - destruct Hi as (-> & Hd & -> & ->). by split_and!.
  - split_and!; [done| |done|done]. intros [w _]. by apply Hh.
Qed.

Lemma row_count_spec e n :
  match row_count_check e n with
  | Ok _ => default 0 (expect_min e) ≤ n
  | Err err => err = too_few_rows ∧ n < default 0 (expect_min e)
  end.
Proof. unfold row_count_check. destruct (expect_min e); cbn; [case_bool_decide|]; cbn; auto with lia. Qed.

(** the promise of loading table [t] into the content [c] *)
Definition table_post base csvd load t c (res : KnowledgeResult unit) (db' : Db) : Prop :=
  in_tx db' = false
  ∧ (working → is_ok res = true ↔ is_Some (table_effect base csvd load t))
  ∧ match res with
    | Ok _ => ∃ f, table_effect base csvd load t = Some f ∧ durable db' = f c
    | Err e => table_failed base csvd load t c db' e
    end.

Lemma load_rest_post base t csvd load c (db1 : Db) dir create insert clean :
  table_scripts base t = Ok (dir, create, insert, clean) → plain insert →
  in_tx db1 = false → durable db1 = scripted clean (scripted create c) →
  let '(res, db') :=
    (input ←? mret (table_input csvd t dir);
     counts ←? load_data load insert input.1 input.2;
     mret (row_count_check (expected_rows t) counts.1)) db1 in
  table_post base csvd load t c res db'.
Proof.
  intros Hs Hp Htx Hd. unfold bind_res, mbind, st_bind, mret, st_ret. cbv beta.
  unfold table_post, table_effect. rewrite Hs.
  destruct (table_input csvd t dir) as [[cols recs]|e] eqn:Hi; cbn.
  2: { split_and!; [done|by intros _; split; [|intros []]|]. by eapply NoInput. }
  pose proof (load_data_spec load insert cols recs db1 Hp Htx) as Hl.
  destruct (good_rows (skips load) cols recs) as [[rows nbad] all] eqn:Hg.
  destruct (load_data load insert cols recs db1) as [[[ins bad]|e] db2]; destruct Hl as (Htx2 & Hw & Hl); cbn.
  2: { destruct Hl as [-> Hk]. rewrite Hd in Hk. split_and!; [done| |by eapply NotInserted].
       intros w. rewrite <-(Hw w). cbn. by split; [|intros []]. }
  destruct Hl as (-> & Hd2 & Hn). cbn in Hn. subst ins. rewrite Hd in Hd2. cbn [andb].
  pose proof (row_count_spec (expected_rows t) (length rows)) as Hr.
  destruct (row_count_check _ _) as [u|e]; cbn.
  - rewrite (bool_decide_eq_true_2 _ Hr). split_and!; [done|by intros _|by eexists].
  - destruct Hr as [-> Hr]. split_and!; [done| |by eapply TooFew].
    rewrite bool_decide_eq_false_2; [|lia]. by intros _; split; [|intros []].
Qed.

Lemma load_one_table_post base t csvd load (db : Db) :
  plain_table base t → in_tx db = false →
  let '(res, db') := load_one_table base t csvd load db in
  table_post base csvd load t (durable db) res db'.
Proof.
  intros Hp Htx. unfold load_one_table. unfold bind_res at 1. unfold mbind at 1. unfold st_bind at 1.
  unfold mret at 1. unfold st_ret at 1. destruct (table_scripts base t) as [[[[dir create] insert] clean]|e] eqn:Hs.
  2: { split_and!; [done| |by eapply NoScripts]. unfold table_effect. rewrite Hs. by intros _; split; [|intros []]. }
  destruct (Hp _ _ _ _ Hs) as (Hc & Hi & Hcl). pose proof (prepare_table_spec create clean db Hc Hcl Htx) as Hr.
  unfold bind_res at 1. unfold mbind at 1. unfold st_bind at 1.
  destruct (prepare_table create clean db) as [[u|e] db1]; destruct Hr as (Htx1 & Hw & Hr).
  - by apply load_rest_post with create clean.
  - subst e. split_and!; [done| |apply NotPrepared]. intros w. by specialize (Hw w).
Qed.

(** Loading one table whose scripts are free of transaction control.  On
    success the database went through the table's effect: its create and clean
    scripts, then the usable rows of its file, all of the file being readable
    and the rows at least the expected minimum.  Otherwise the error tells how
    far it came: an unreadable script changes nothing, a missing or unusable
    data file leaves the cleaned table, a failed insertion whole batches, too
    few rows all of them.  No transaction stays open, and on a working database
    the load succeeds exactly when the table has an effect. *)
Theorem load_one_table_spec base t csvd load (db : Db) :
  plain_table base t → in_tx db = false →
  let '(res, db') := load_one_table base t csvd load db in
  table_post base csvd load t (durable db) res db'.
Proof. apply load_one_table_post. Qed.

(** the names of the tables in use *)
Definition enabled_names (ts : list TableSpec) : list str :=
  table_name <$> filter (λ t, table_enabled t = true) ts.

(** the promise of loading the tables [ts] into the content [c] after those
    named in [names] *)
Definition tables_post base conf ts names c (res : KnowledgeResult (list str)) (db' : Db) : Prop :=
  in_tx db' = false
  ∧ (working → is_ok res = true ↔ is_Some (tables_effect base conf ts))
  ∧ match res with
    | Ok loaded => loaded = names ++ enabled_names ts
                   ∧ ∃ f, tables_effect base conf ts = Some f ∧ durable db' = f c
    | Err e => ∃ before t after f, ts = before ++ t :: after ∧ table_enabled t = true
               ∧ tables_effect base conf before = Some f
               ∧ table_failed base (csv conf) (default_load conf) t (f c) db' e
    end.

Lemma load_tables_post base conf ts names (db : Db) :
  Forall (plain_table base) ts → in_tx db = false →
  let '(res, db') := load_tables base conf ts names db in
  tables_post base conf ts names (durable db) res db'.
Proof.
  revert names db. induction ts as [|t ts IH]; intros names db Hp Htx; cbn [load_tables].
  { split_and!; [done|by intros _|by rewrite app_nil_r|by exists id]. }
  apply Forall_cons in Hp as [Ht Hp]. unfold tables_post, enabled_names. cbn [tables_effect].
  destruct (table_enabled t) eqn:Hen; cbn [negb].
  2: { rewrite filter_cons_False; [|by rewrite Hen]. specialize (IH names db Hp Htx).
       destruct (load_tables base conf ts names db) as [[l|e] db']; destruct IH as (? & ? & IH);
         (split; [done|split; [done|]]); [done|].
       destruct IH as (before & t' & after & f & -> & ? & Hf & ?).
       exists (t :: before), t', after, f. cbn [tables_effect]. by rewrite Hen. }
  rewrite filter_cons_True; [|done]. unfold bind_res, mbind, st_bind.
  pose proof (load_one_table_post base t (csv conf) (default_load conf) db Ht Htx) as H1t.
  destruct (load_one_table _ _ _ _ db) as [[u|e] db1]; destruct H1t as (Htx1 & Hw1 & H1t).
  2: { split_and!; [done| |].
       - intros w. specialize (Hw1 w). cbn in Hw1 |- *. destruct (table_effect _ _ _ t); [|by split; [|intros []]].
         destruct Hw1 as [_ Hw1]. by specialize (Hw1 (ex_intro _ _ eq_refl)).
       - by exists [], t, ts, id. }
  destruct H1t as (f & Hft & Hd1). rewrite Hft. specialize (IH (names ++ [table_name t]) db1 Hp Htx1).
  destruct (load_tables base conf ts _ db1) as [[l|e] db']; destruct IH as (? & Hw & IH).
  - destruct IH as (-> & g & Hg & Hd). rewrite Hg. split_and!; [done|by intros _| |].
    + by rewrite <-app_assoc.
    + eexists. split; [done|]. by rewrite Hd, Hd1.
  - destruct IH as (before & t' & after & g & -> & ? & Hg & Hf). split_and!; [done| |].
    + intros w. rewrite (Hw w). destruct (tables_effect _ _ (_ ++ _)); split; intros [x Hx]; [by eexists|by eexists|done|done].
    + exists (t :: before), t', after, (λ c, g (f c)). cbn [tables_effect]. rewrite Hen, Hft, Hg.
      by rewrite <-Hd1.
Qed.

(** C19. Building an authority database: with scripts free of transaction
    control, the tables in use are loaded in the order of the configuration.  On
    success they are all named and the database went through the effects of all
    of them; on an error the tables before the failing one are loaded and that
    one is as far as its error tells.  No transaction stays open, and on a
    working database the build succeeds exactly when every table in use has an
    effect. *)
Theorem load_tables_spec base conf ts (db : Db) :
  Forall (plain_table base) ts → in_tx db = false →
  let '(res, db') := load_tables base conf ts [] db in
  tables_post base conf ts [] (durable db) res db'.
Proof. apply load_tables_post. Qed.
End TableFacts.

(** ** A concrete database

    The rows of one table, the rows at the start of the open transaction,
    inserts that refuse rows starting with the text "bad", and scripts that
    delete the rows or do nothing. *)
Record ListDb := { db_rows : list (list str); db_saved : option (list (list str)) }.

Definition list_script (sql : str) (rows : list (list str)) : list (list str) :=
  if prefix_of (lit "DELETE") sql then [] else rows.

#[export] Instance list_sqlite : Sqlite ListDb := {
  checkout _ := Ok tt;
  execute_batch sql db := (Ok tt, {| db_rows := list_script sql (db_rows db); db_saved := db_saved db |});
  prepare _ _ := Ok tt;
  stmt_execute _ r db :=
    if bool_decide (head r = Some (lit "bad")) then (Err (lit "constraint"), db)
    else (Ok tt, {| db_rows := db_rows db ++ [r]; db_saved := db_saved db |});
  begin_transaction db := (Ok tt, {| db_rows := db_rows db; db_saved := Some (db_rows db) |});
  commit db := (Ok tt, {| db_rows := db_rows db; db_saved := None |});
  rollback db := {| db_rows := default (db_rows db) (db_saved db); db_saved := None |};
}.

#[global] Instance list_meaning : SqlMeaning (list (list str)) := {
  inserted _ r rows := rows ++ [r];
  scripted := list_script;
  plain _ := True;
}.
#[export] Program Instance list_sqlite_laws : SqliteLaws ListDb (list (list str)) := {
  executed := db_rows;
  durable db := default (db_rows db) (db_saved db);
  in_tx db := match db_saved db with Some _ => true | None => false end;
}.
Next Obligation. by intros [rows [saved|]]. Qed.
Next Obligation.
  intros sql r db _. unfold stmt_execute, list_sqlite. case_bool_decide; split_and!; try done.
  by destruct db as [rows [saved|]].
Qed.
Next Obligation. by intros sql [rows [saved|]]. Qed.
Next Obligation. by intros [rows [saved|]]. Qed.
Next Obligation. by intros [rows [saved|]]. Qed.
Next Obligation. by intros [rows [saved|]]. Qed.

Definition list_db (rows : list (list str)) : ListDb := {| db_rows := rows; db_saved := None |}.

(** batches of two: the third row is refused, the first two stay *)
Lemma insert_records_spec_witness :
  let load := {| transaction := true; batch_size := 2; on_error := Fail_ |} in
  let recs := [Some [lit "a"]; Some [lit "b"]; Some [lit "bad"]] in
  insert_post (Content := list (list str)) (lit "INSERT") load [0] recs []
    (insert_records load (lit "INSERT") [0] recs (list_db [])).1 (list_db [[lit "a"]; [lit "b"]]).
Proof.
  intros load recs.
  pose proof (insert_records_spec load (lit "INSERT") [0] recs (list_db []) I eq_refl) as Hw.
  exact Hw.
Defined.

(** a configuration, a directory [t] with its scripts and a data file of three
    records, and a directory [u] without a data file *)
#[export] Instance demo_files : Files := {
  Reader := list (list str);
  file_text p := if bool_decide (p = lit "/k/t/create.sql") then Some (lit "CREATE TABLE {table}")
                 else if bool_decide (p = lit "/k/t/insert.sql") then Some (lit "INSERT INTO {table}")
                 else if bool_decide (p = lit "/k/knowdb.toml") then Some (lit "version = 2")
                 else if bool_decide (p = lit "/k/u/create.sql") then Some (lit "CREATE TABLE {table}")
                 else if bool_decide (p = lit "/k/u/insert.sql") then Some (lit "INSERT INTO {table}")
                 else None;
  file_exists p := bool_decide (p = lit "/k/t/data.csv");
  csv_open _ _ := Some [[lit "id"; lit "value"]; [lit "1"; lit "x"]; [lit "2"]; [lit "3"; lit "z"]];
  csv_headers := head;
  csv_records r := Some <$> tail r;
}.

Definition demo_table (n : str) (min : nat) : TableSpec :=
  {| table_name := n; table_dir := None; data_file := None;
     columns := {| by_header := [lit "value"]; by_index := [] |};
     expected_rows := {| expect_min := Some min; expect_max := None |}; table_enabled := true |}.
Definition demo_load : OptLoadSpec := {| transaction := true; batch_size := 2; on_error := Skip |}.
Definition demo_conf (ts : list TableSpec) : KnowDbConf :=
  {| version := 2; base_dir := lit "/k"; default_load := demo_load; csv := csv_spec_default;
     cache := cache_spec_default; provider_raw := None; tables := ts; fun_ := ∅; intranet_nets := None |}.

(** two of the three records are usable: an error, and both rows are there *)
Lemma load_one_table_spec_witness :
  let '(res, db') := load_one_table (lit "/k") (demo_table (lit "t") 3) csv_spec_default demo_load
                       (list_db [[lit "old"]]) in
  in_tx db' = false ∧ is_ok res = false ∧ durable db' = [[lit "x"]; [lit "z"]].
Proof.
  pose proof (load_one_table_spec (lit "/k") (demo_table (lit "t") 3) csv_spec_default demo_load
    (list_db [[lit "old"]]) (λ _ _ _ _ _, conj I (conj I I)) eq_refl) as Hw.
  destruct (load_one_table _ _ _ _ _) as [res db'] eqn:Hr. destruct Hw as (Htx & Hok & _).
  vm_compute in Hr. injection Hr as <- <-. by split_and!.
Defined.

(** the second table has no data file: the first is loaded, and the second
    already cleaned what there was *)
Lemma load_tables_spec_witness :
  let ts := [demo_table (lit "t") 2; demo_table (lit "u") 0] in
  let '(res, db') := load_tables (lit "/k") (demo_conf ts) ts [] (list_db []) in
  tables_post (lit "/k") (demo_conf ts) ts [] [] res db' ∧ is_ok res = false.
Proof.
  intros ts.
  pose proof (load_tables_spec (lit "/k") (demo_conf ts) ts (list_db [])) as Hw.
  destruct (load_tables _ _ _ _ _) as [res db'] eqn:Hr. split.
  - apply Hw; [|done]. repeat constructor.
  - vm_compute in Hr. by injection Hr as <- <-.
Defined.
