(* ===== verification/ProviderConfig.v ===== *)
(** * Connection settings (src/pool_config.rs, src/postgres.rs, src/mysql.rs)

    The pool settings with their builder methods, the PostgreSQL session
    statements, the provider configurations that src/facade.rs builds from the
    configuration file, and the validation of a fresh PostgreSQL pool.  The
    database is reached through the class [PgDatabase]. *)
From S2P Require Import Prelude Errors RustStr Model SqlRoute.
From S2P Require Loader.

(** ** Pool settings *)

(** durations in milliseconds *)
Record CommonPoolConfig := {
  pool_size_field : N;
  min_connections_field : N;
  acquire_timeout : N;
  idle_timeout : option N;
  max_lifetime : option N;
}.

Definition pool_default : CommonPoolConfig :=
  {| pool_size_field := 8; min_connections_field := 0; acquire_timeout := 10000;
     idle_timeout := Some 60000%N; max_lifetime := None |}.

Definition pool_size (c : CommonPoolConfig) : N := pool_size_field c.
Definition min_connections (c : CommonPoolConfig) : N :=
  N.min (min_connections_field c) (pool_size_field c).

Definition with_pool_size (size : option N) (c : CommonPoolConfig) : CommonPoolConfig :=
  match size with
  | Some size =>
      if (0 <? size)%N then
        {| pool_size_field := size; min_connections_field := N.min (min_connections_field c) size;
           acquire_timeout := acquire_timeout c; idle_timeout := idle_timeout c;
           max_lifetime := max_lifetime c |}
      else c
  | None => c
  end.
Definition with_min_connections (min : option N) (c : CommonPoolConfig) : CommonPoolConfig :=
  match min with
  | Some min =>
      {| pool_size_field := pool_size_field c; min_connections_field := N.min min (pool_size_field c);
         acquire_timeout := acquire_timeout c; idle_timeout := idle_timeout c;
         max_lifetime := max_lifetime c |}
  | None => c
  end.
Definition with_acquire_timeout_ms (ms : option N) (c : CommonPoolConfig) : CommonPoolConfig :=
  match ms with
  | Some ms =>
      if (0 <? ms)%N then
        {| pool_size_field := pool_size_field c; min_connections_field := min_connections_field c;
           acquire_timeout := ms; idle_timeout := idle_timeout c; max_lifetime := max_lifetime c |}
      else c
  | None => c
  end.
Definition nonzero (ms : N) : option N := if (ms =? 0)%N then None else Some ms.
Definition with_idle_timeout_ms (ms : option N) (c : CommonPoolConfig) : CommonPoolConfig :=
  match ms with
  | Some ms =>
      {| pool_size_field := pool_size_field c; min_connections_field := min_connections_field c;
         acquire_timeout := acquire_timeout c; idle_timeout := nonzero ms;
         max_lifetime := max_lifetime c |}
  | None => c
  end.
Definition with_max_lifetime_ms (ms : option N) (c : CommonPoolConfig) : CommonPoolConfig :=
  match ms with
  | Some ms =>
      {| pool_size_field := pool_size_field c; min_connections_field := min_connections_field c;
         acquire_timeout := acquire_timeout c; idle_timeout := idle_timeout c;
         max_lifetime := nonzero ms |}
  | None => c
  end.

(** ** PostgreSQL sessions *)

Inductive PgParam := PlanCacheMode | Jit | ApplicationName.
Definition setting_name (p : PgParam) : str :=
  match p with
  | PlanCacheMode => lit "plan_cache_mode"
  | Jit => lit "jit"
  | ApplicationName => lit "application_name"
  end.

Record PostgresSessionConfig := {
  init_statements : list str;
  expectations : list (PgParam * str);
}.

(** [app.replace('\'', "''")] *)
Definition escape_quotes (s : str) : str :=
  concat ((λ c, if (c =? SQUOTE)%N then [SQUOTE; SQUOTE] else [c]) <$> s).

Definition from_spec (spec : Loader.PostgresSessionSpec) : PostgresSessionConfig :=
  let mode := match Loader.plan_cache_mode spec with
              | Some m => let v := Loader.to_sql_value m in
                          [(lit "SET plan_cache_mode = " ++ v, (PlanCacheMode, v))]
              | None => []
              end in
  let jit := match Loader.jit spec with
             | Some j => let v := if j : bool then lit "on" else lit "off" in
                         [(lit "SET jit = " ++ v, (Jit, v))]
             | None => []
             end in
  let app := match Loader.application_name spec with
             | Some a =>
                 [(lit "SET application_name = " ++ [SQUOTE] ++ escape_quotes a ++ [SQUOTE],
                   (ApplicationName, a))]
             | None => []
             end in
  {| init_statements := (mode ++ jit ++ app).*1; expectations := (mode ++ jit ++ app).*2 |}.

(** ** Provider configurations *)

Record PostgresProviderConfig := {
  pg_connection_uri : str;
  pg_pool : CommonPoolConfig;
  pg_session : option PostgresSessionConfig;
}.
Record MySqlProviderConfig := { my_connection_uri : str; my_pool : CommonPoolConfig }.

Definition pg_new (uri : str) : PostgresProviderConfig :=
  {| pg_connection_uri := uri; pg_pool := pool_default; pg_session := None |}.
Definition my_new (uri : str) : MySqlProviderConfig :=
  {| my_connection_uri := uri; my_pool := pool_default |}.
Definition pg_with (f : CommonPoolConfig → CommonPoolConfig) (c : PostgresProviderConfig)
  : PostgresProviderConfig :=
  {| pg_connection_uri := pg_connection_uri c; pg_pool := f (pg_pool c); pg_session := pg_session c |}.
Definition pg_with_session (spec : option Loader.PostgresSessionSpec) (c : PostgresProviderConfig)
  : PostgresProviderConfig :=
  {| pg_connection_uri := pg_connection_uri c; pg_pool := pg_pool c; pg_session := from_spec <$> spec |}.
Definition my_with (f : CommonPoolConfig → CommonPoolConfig) (c : MySqlProviderConfig)
  : MySqlProviderConfig :=
  {| my_connection_uri := my_connection_uri c; my_pool := f (my_pool c) |}.

Definition build_postgres_config (spec : Loader.SqlProviderSpec) : PostgresProviderConfig :=
  pg_with_session (Loader.postgres_session spec)
    (pg_with (with_max_lifetime_ms (Loader.max_lifetime_ms spec))
      (pg_with (with_idle_timeout_ms (Loader.idle_timeout_ms spec))
        (pg_with (with_acquire_timeout_ms (Loader.acquire_timeout_ms spec))
          (pg_with (with_min_connections (Loader.min_connections spec))
            (pg_with (with_pool_size (Loader.pool_size spec))
              (pg_new (Loader.connection_uri spec))))))).
Definition build_mysql_config (spec : Loader.SqlProviderSpec) : MySqlProviderConfig :=
  my_with (with_max_lifetime_ms (Loader.max_lifetime_ms spec))
    (my_with (with_idle_timeout_ms (Loader.idle_timeout_ms spec))
      (my_with (with_acquire_timeout_ms (Loader.acquire_timeout_ms spec))
        (my_with (with_min_connections (Loader.min_connections spec))
          (my_with (with_pool_size (Loader.pool_size spec))
            (my_new (Loader.connection_uri spec)))))).

(** the pool's bounds as both [connect] functions compute them *)
Definition connect_bounds (c : CommonPoolConfig) : N * N :=
  let pool_config := with_pool_size (Some (N.max (pool_size c) 1)) c in
  (min_connections pool_config, pool_size pool_config).

(** ** Validation of a new pool *)

(** a database behind a pool: its errors by their text *)
Class PgDatabase (Db : Type) := {
  select_1 : St Db (Result str unit);
  (** [SELECT current_setting('..')] *)
  current_setting : str → St Db (Result str str);
}.

Definition validation_err (provider setting err : str) : KnowledgeError :=
  know_err from_conf
    [F "postgres provider '"; D provider; F "' startup validation failed during "; D setting; F ": "; D err].

Section Validate.
Context {Db : Type} `{PgDatabase Db}.

Fixpoint check_settings (provider : str) (es : list (PgParam * str)) : St Db (KnowledgeResult unit) :=
  match es with
  | [] => mret (Ok tt)
  | (param, expected) :: es =>
      let setting := setting_name param in
      actual ←? fmap (M := St Db) (map_err (validation_err provider setting)) (current_setting setting);
      if bool_decide (actual = expected) then check_settings provider es
      else mret (Err (know_err from_conf
             [F "postgres provider '"; D provider; F "': session parameter '"; D setting;
              F "' mismatch: expected "; Dbg expected; F ", actual "; Dbg actual]))
  end.

Definition validate_startup (provider : str) (session : option PostgresSessionConfig)
  : St Db (KnowledgeResult unit) :=
  _ ←? fmap (M := St Db) (map_err (validation_err provider (lit "connection"))) select_1;
  match session with
  | Some session => check_settings provider (expectations session)
  | None => mret (Ok tt)
  end.
End Validate.

(** ** Properties *)

(** The pool of a configured provider: at least one connection, the
    configured size where it is positive and 8 otherwise, and never a minimum
    above the maximum; a zero or missing acquire timeout keeps ten seconds, a
    zero idle timeout or lifetime means none. *)
Theorem pool_settings spec :
  let c := pg_pool (build_postgres_config spec) in
  let max := match Loader.pool_size spec with
             | Some n => if (n =? 0)%N then 8%N else n
             | None => 8%N
             end in
  connect_bounds c = (N.min (default 0%N (Loader.min_connections spec)) max, max)
  ∧ (1 ≤ max)%N
  ∧ acquire_timeout c = (match Loader.acquire_timeout_ms spec ≫= nonzero with Some t => t | None => 10000 end)%N
  ∧ idle_timeout c = match Loader.idle_timeout_ms spec with Some t => nonzero t | None => Some 60000%N end
  ∧ max_lifetime c = Loader.max_lifetime_ms spec ≫= nonzero
  ∧ my_pool (build_mysql_config spec) = c.
Proof.
  intros c max. subst c.
  assert (∀ c, (1 ≤ pool_size_field c)%N → (min_connections_field c ≤ pool_size_field c)%N →
            connect_bounds c = (min_connections_field c, pool_size_field c)) as Hb.
  { intros c H1 H2. unfold connect_bounds, with_pool_size, pool_size, min_connections.
    assert ((0 <? N.max (pool_size_field c) 1)%N = true) as -> by (apply N.ltb_lt; lia). cbn.
    f_equal; lia. }
  destruct spec as [name k uri size mins acq idle life ses]. cbn in *.
  assert (1 ≤ max)%N as Hmax by (unfold max; destruct size as [n|]; [destruct (N.eqb_spec n 0)|]; lia).
  assert (with_pool_size size pool_default
          = {| pool_size_field := max; min_connections_field := 0; acquire_timeout := 10000;
               idle_timeout := Some 60000%N; max_lifetime := None |}) as ->.
  { unfold max, with_pool_size, pool_default. destruct size as [n|]; [|done].
    destruct (N.eqb_spec n 0) as [->|]; [done|].
    assert ((0 <? n)%N = true) as -> by (apply N.ltb_lt; lia). cbn. by rewrite N.min_0_l. }
  split_and!.
  - rewrite Hb; destruct mins, acq as [a|], idle, life; cbn; try destruct (0 <? a)%N; cbn; lia || (f_equal; lia) || done.
  - done.
  - destruct mins, acq as [a|], idle, life; cbn; unfold nonzero; try done;
      destruct (N.eqb_spec a 0) as [->|]; try done;
      (assert ((0 <? a)%N = true) as -> by (apply N.ltb_lt; lia)); done.
  - destruct mins, acq as [a|], idle, life; cbn; try destruct (0 <? a)%N; done.
  - destruct mins, acq as [a|], idle, life; cbn; try destruct (0 <? a)%N; done.
  - done.
Qed.

(** the reading of a SQL literal after its opening quote: value and rest *)
Fixpoint unquote (s : str) : option (str * str) :=
  match s with
  | [] => None
  | c :: s =>
      if (c =? SQUOTE)%N then
        match s with
        | d :: s' => if (d =? SQUOTE)%N
                     then match unquote s' with Some (v, r) => Some (SQUOTE :: v, r) | None => None end
                     else Some ([], s)
        | [] => Some ([], [])
        end
      else match unquote s with Some (v, r) => Some (c :: v, r) | None => None end
  end.

(** [SET name = value], the value a word or one literal, and nothing else *)
Definition read_set (s : str) : option (str * str) :=
  if negb (prefix_of (lit "SET ") s) then None
  else
    let rest := drop 4 s in
    let n := span (λ c, negb (c =? 32)%N) rest in
    if negb (prefix_of (lit " = ") (drop n rest)) then None
    else
      match drop (n + 3) rest with
      | c :: body =>
          if (c =? SQUOTE)%N
          then match unquote body with Some (v, []) => Some (take n rest, v) | _ => None end
          else Some (take n rest, c :: body)
      | [] => None
      end.

Lemma unquote_escape a : unquote (escape_quotes a ++ [SQUOTE]) = Some (a, []).
Proof.
  unfold escape_quotes. induction a as [|c a IH]; [done|].
  rewrite fmap_cons. cbn [concat]. destruct (N.eqb_spec c SQUOTE) as [->|Hc].
  - cbn [app unquote]. rewrite N.eqb_refl. by rewrite IH.
  - cbn [app unquote]. destruct (N.eqb_spec c SQUOTE); [done|]. by rewrite IH.
Qed.

(** the settings that a specification configures, by the names PostgreSQL has
    for them *)
Definition configured (spec : Loader.PostgresSessionSpec) : list (str * str) :=
  match Loader.plan_cache_mode spec with
  | Some m => [(lit "plan_cache_mode", Loader.to_sql_value m)]
  | None => []
  end
  ++ match Loader.jit spec with
     | Some j => [(lit "jit", if j : bool then lit "on" else lit "off")]
     | None => []
     end
  ++ match Loader.application_name spec with
     | Some a => [(lit "application_name", a)]
     | None => []
     end.

Lemma read_set_application_name a :
  read_set (lit "SET application_name = " ++ SQUOTE :: escape_quotes a ++ [SQUOTE])
  = Some (lit "application_name", a).
Proof.
  transitivity (match unquote (escape_quotes a ++ [SQUOTE]) with
                | Some (v, []) => Some (lit "application_name", v) | _ => None end); [reflexivity|].
  by rewrite unquote_escape.
Qed.

(** C40. The session statements: every configured setting gives one statement
    and one expectation, in order and no other, and each statement, read as
    SQL, sets its parameter to the expected value, which is the configured one
    - for an application name with quotes too, which cannot end the literal or
    add to the statement. *)
Theorem session_statements spec :
  let s := from_spec spec in
  read_set <$> init_statements s = Some <$> configured spec
  ∧ (λ '(p, v), (setting_name p, v)) <$> expectations s = configured spec
  ∧ ∀ p v, (p, v) ∈ expectations s ↔
      match p with
      | PlanCacheMode => Loader.to_sql_value <$> Loader.plan_cache_mode spec = Some v
      | Jit => (λ b : bool, if b then lit "on" else lit "off") <$> Loader.jit spec = Some v
      | ApplicationName => Loader.application_name spec = Some v
      end.
Proof.
  cbn zeta. pose proof read_set_application_name as Happ.
  assert (∀ m, read_set (lit "SET plan_cache_mode = " ++ Loader.to_sql_value m)
               = Some (lit "plan_cache_mode", Loader.to_sql_value m)) as Hplan by (by intros []; vm_compute).
  assert (∀ j : bool, read_set (lit "SET jit = " ++ if j then lit "on" else lit "off")
               = Some (lit "jit", if j then lit "on" else lit "off")) as Hjit by (by intros []; vm_compute).
  unfold from_spec, configured. cbn [init_statements expectations].
  split_and!; rewrite ?fmap_app.
  - destruct (Loader.plan_cache_mode spec), (Loader.jit spec), (Loader.application_name spec);
      cbn [fmap list_fmap app fst]; by rewrite ?Hplan, ?Hjit, ?Happ.
  - by destruct (Loader.plan_cache_mode spec), (Loader.jit spec), (Loader.application_name spec).
  - intros p v. rewrite !elem_of_app.
    destruct (Loader.plan_cache_mode spec), (Loader.jit spec), (Loader.application_name spec), p;
      cbn [fmap list_fmap option_fmap option_map fst snd];
      rewrite ?list_elem_of_singleton, ?elem_of_nil; naive_solver.
Qed.

(** The validation of a pool succeeds exactly when the probe query does
    and every expected setting reads back as the expected value. *)
Theorem validate_startup_spec {Db} `{PgDatabase Db} provider session db
    (probe : Result str unit) (setting : str → Result str str) :
  select_1 db = (probe, db) → (∀ n, current_setting n db = (setting n, db)) →
  (validate_startup provider session db).1 = Ok tt ↔
  probe = Ok tt ∧ ∀ s p v, session = Some s → (p, v) ∈ expectations s → setting (setting_name p) = Ok v.
Proof.
  intros Hp Hs. unfold validate_startup, bind_res, mbind, st_bind, fmap, st_fmap.
  rewrite Hp. destruct probe as [[]|e]; cbn; [|naive_solver].
  destruct session as [s|]; [|naive_solver].
  assert (∀ es, (check_settings provider es db).1 = Ok tt ↔
            ∀ p v, (p, v) ∈ es → setting (setting_name p) = Ok v) as Hc; [|rewrite Hc; naive_solver].
  induction es as [|[p v] es IH].
  { split; [|done]. intros _ p v Hin. by apply not_elem_of_nil in Hin. }
  cbn [check_settings]. unfold bind_res, mbind, st_bind, fmap, st_fmap. rewrite Hs.
  destruct (setting (setting_name p)) as [a|e] eqn:Ha; cbn.
  2: { split; [done|]. intros Hall. specialize (Hall p v). rewrite Ha in Hall.
       discriminate (Hall ltac:(left)). }
  case_bool_decide as Hav; cbn.
  - rewrite IH. subst a. split.
    + intros Hall p' v' [[= -> ->]|Hin]%elem_of_cons; [done|by apply Hall].
    + intros Hall p' v' Hin. apply Hall. by right.
  - split; [done|]. intros Hall. specialize (Hall p v ltac:(left)). congruence.
Qed.

(** a database with [jit] off *)
#[export] Instance demo_pg : PgDatabase unit :=
  {| select_1 := mret (Ok tt);
     current_setting n := mret (if bool_decide (n = lit "jit") then Ok (lit "off") else Err (lit "unknown")) |}.

Lemma validate_startup_spec_witness :
  (validate_startup (Db := unit) (lit "geo")
     (Some (from_spec {| Loader.plan_cache_mode := None; Loader.jit := Some false;
                         Loader.application_name := None |})) tt).1 = Ok tt.
Proof.
  apply (validate_startup_spec (Db := unit) _ _ tt (Ok tt)
           (λ n, if bool_decide (n = lit "jit") then Ok (lit "off") else Err (lit "unknown")));
    [reflexivity|reflexivity|].
  split; [reflexivity|]. intros s p v [= <-] Hin. vm_compute in Hin.
  apply list_elem_of_singleton in Hin. injection Hin as -> ->. vm_compute. reflexivity.
Defined.
