(* ===== verification/SqlRewrite.v ===== *)
(** * Named parameters (src/postgres.rs, src/mysql.rs)

    [rewrite_sql] of both SQL providers turns [:name] references into the
    placeholders of the database and orders the fields to bind.  Both loops
    read the statement through the same arms ([rw_step]).  Their specification
    cuts the statement into tokens ([lexes]) by the shapes of [SqlText] and
    looks names up in the list of parameters ([binding]). *)
From S2P Require Import Prelude Errors RustStr SqlText SqlRoute Model.

(** ** Lexical classes *)

Definition is_param_start (c : N) : bool := is_ascii_alphabetic c || (c =? UNDERSCORE)%N.
Definition is_param_continue (c : N) : bool := is_ascii_alphanumeric c || (c =? UNDERSCORE)%N.
Definition is_dollar_tag_start (c : N) : bool := is_ascii_alphabetic c || (c =? UNDERSCORE)%N.
Definition is_dollar_tag_continue (c : N) : bool :=
  is_ascii_alphanumeric c || (c =? UNDERSCORE)%N.

Fixpoint dollar_tag_loop (idx : nat) (s : str) : option nat :=
  match s with
  | [] => None
  | c :: s =>
      if (c =? DOLLAR)%N then Some (idx + 1)
      else if (if bool_decide (idx = 1) then is_dollar_tag_start c else is_dollar_tag_continue c)
           then dollar_tag_loop (idx + 1) s
           else None
  end.

(** the length of a dollar-quote tag [$tag$] at the head of the input *)
Definition parse_dollar_quote_tag (input : str) : option nat :=
  match input with
  | [] => None
  | c :: s => if negb (c =? DOLLAR)%N then None else dollar_tag_loop 1 s
  end.

Definition normalize_param_name (name : str) : str :=
  if starts_with COLON name then name else COLON :: name.

Definition by_name (params : list DataField) : gmap str DataField :=
  foldl (λ m f, <[normalize_param_name (get_name f) := f]> m) ∅ params.

(** ** One round of the main loop *)

(** how far the index moves and what the round does: copy the bytes as
    characters, copy an opening or a closing dollar tag, or meet a parameter *)
Inductive Round :=
| Copy (n : nat)
| OpenTag (n : nat)
| CloseTag (n : nat)
| Param (n : nat).

Definition rw_step (tag : option str) (c : N) (s' : str) : Round :=
  let s := c :: s' in
  match tag with
  | Some t => if prefix_of t s then CloseTag (length t) else Copy 1
  | None =>
      if (c =? SQUOTE)%N then Copy (1 + quoted_len SQUOTE s')
      else if (c =? DQUOTE)%N then Copy (1 + quoted_len DQUOTE s')
      else if (c =? DASH)%N && starts_with DASH s' then Copy (2 + until_len LF (drop 1 s'))
      else if (c =? SLASH)%N && starts_with STAR s' then Copy (2 + block_len (drop 1 s'))
      else if (c =? DOLLAR)%N then
        match parse_dollar_quote_tag s with Some n => OpenTag n | None => Copy 1 end
      else if (c =? COLON)%N then
        if starts_with COLON s' then Copy 2
        else
          match s' with
          | d :: s'' =>
              if is_param_start d then Param (2 + span is_param_continue s'') else Copy 1
          | [] => Copy 1
          end
      else Copy 1
  end.

(** [String::push(byte as char)] for each byte *)
Definition push_bytes (s : str) : str := concat (utf8_encode <$> s).

(** ** PostgreSQL *)
Module Postgres.

Fixpoint rewrite_loop (fuel : nat) (by_name : gmap str DataField) (tag : option str) (s out : str)
    (assigned_numbers : gmap str nat) (ordered : list DataField)
  : KnowledgeResult (str * list DataField) :=
  match fuel with
  | 0 => Ok (out, ordered)
  | S fuel =>
      match s with
      | [] => Ok (out, ordered)
      | c :: s' =>
          match rw_step tag c s' with
          | Copy n =>
              rewrite_loop fuel by_name tag (drop n s) (out ++ push_bytes (take n s))
                assigned_numbers ordered
          | OpenTag n =>
              rewrite_loop fuel by_name (Some (take n s)) (drop n s) (out ++ take n s)
                assigned_numbers ordered
          | CloseTag n =>
              rewrite_loop fuel by_name None (drop n s) (out ++ take n s)
                assigned_numbers ordered
          | Param n =>
              let raw_name := take n s in
              match by_name !! raw_name with
              | None => Err (know_err from_rule [F "postgres query missing param: "; D raw_name])
              | Some field =>
                  match assigned_numbers !! raw_name with
                  | Some idx =>
                      rewrite_loop fuel by_name tag (drop n s)
                        (out ++ [DOLLAR] ++ dec (N.of_nat idx)) assigned_numbers ordered
                  | None =>
                      let idx := length ordered + 1 in
                      rewrite_loop fuel by_name tag (drop n s)
                        (out ++ [DOLLAR] ++ dec (N.of_nat idx))
                        (<[raw_name := idx]> assigned_numbers) (ordered ++ [field])
                  end
              end
          end
      end
  end.

Definition rewrite_sql (sql : str) (params : list DataField)
  : KnowledgeResult (str * list DataField) :=
  rewrite_loop (S (length sql)) (by_name params) None sql [] ∅ [].
End Postgres.

(** ** MySQL *)
Module Mysql.

(** mysql.rs has its own textual copies of the scanning helpers. *)
Definition normalize_param_name : str → str := SqlRewrite.normalize_param_name.
Definition parse_dollar_quote_tag : str → option nat := SqlRewrite.parse_dollar_quote_tag.
Definition is_param_start : N → bool := SqlRewrite.is_param_start.
Definition is_param_continue : N → bool := SqlRewrite.is_param_continue.
Definition is_dollar_tag_start : N → bool := SqlRewrite.is_dollar_tag_start.
Definition is_dollar_tag_continue : N → bool := SqlRewrite.is_dollar_tag_continue.

Fixpoint rewrite_loop (fuel : nat) (by_name : gmap str DataField) (tag : option str) (s out : str)
    (ordered : list DataField) : KnowledgeResult (str * list DataField) :=
  match fuel with
  | 0 => Ok (out, ordered)
  | S fuel =>
      match s with
      | [] => Ok (out, ordered)
      | c :: s' =>
          match rw_step tag c s' with
          | Copy n =>
              rewrite_loop fuel by_name tag (drop n s) (out ++ push_bytes (take n s)) ordered
          | OpenTag n =>
              rewrite_loop fuel by_name (Some (take n s)) (drop n s) (out ++ take n s) ordered
          | CloseTag n =>
              rewrite_loop fuel by_name None (drop n s) (out ++ take n s) ordered
          | Param n =>
              let raw_name := take n s in
              match by_name !! raw_name with
              | None => Err (know_err from_rule [F "mysql query missing param: "; D raw_name])
              | Some field =>
                  rewrite_loop fuel by_name tag (drop n s) (out ++ [QMARK]) (ordered ++ [field])
              end
          end
      end
  end.

Definition rewrite_sql (sql : str) (params : list DataField)
  : KnowledgeResult (str * list DataField) :=
  rewrite_loop (S (length sql)) (by_name params) None sql [] [].

Definition strip_suffix (suffix s : str) : option str :=
  let n := length s - length suffix in
  if bool_decide (length suffix ≤ length s) && bool_decide (drop n s = suffix)
  then Some (take n s) else None.

Definition mysql_type_base_name (ty : str) : str * bool :=
  match strip_suffix (lit " UNSIGNED") ty with
  | Some base => (base, true)
  | None => (ty, false)
  end.

Definition mysql_bit_u64_to_field (name : str) (value : N) : DataField :=
  if (value <=? Z.to_N i64_max)%N then from_int name (Z.of_N value)
  else from_chars name (dec value).
End Mysql.

(** ** Binding

    What sqlx is given for a field; both providers bind alike. *)
Inductive SqlArg :=
| ArgBool (b : bool)
| ArgInt (z : Z)
| ArgDecimal (n : N)
| ArgFloat (bits : N)
| ArgNull
| ArgText (s : str).

Definition bind_field (v : Value) : SqlArg :=
  match v with
  | Bool b => ArgBool b
  | Int z => ArgInt z
  | BigUint n => ArgDecimal n
  | Float f => ArgFloat f
  | Null | Ignore _ => ArgNull
  | Chars s => ArgText s
  | Symbol s => ArgText s
  | Time v => ArgText (display v)
  | Hex v => ArgText (display v)
  | IpNet v => ArgText (display v)
  | Ip a => ArgText (ip_to_string a)
  | Obj v => ArgText (debug v)
  | Array v => ArgText (debug v)
  | Domain v => ArgText (field0 v)
  | Url v => ArgText (field0 v)
  | Email v => ArgText (field0 v)
  | IdCard v => ArgText (field0 v)
  | MobilePhone v => ArgText (field0 v)
  end.

Definition bind_postgres_field (args : list SqlArg) (f : DataField) : list SqlArg :=
  args ++ [bind_field (get_value f)].
Definition bind_mysql_field (args : list SqlArg) (f : DataField) : list SqlArg :=
  args ++ [bind_field (get_value f)].

(** ** Reference: the tokens of a statement *)

(** Text that is copied: literals, quoted identifiers, comments with their
    line feed, dollar quotes, and [::]. *)
Inductive verbatim : str → str → Prop :=
| verbatim_quote q t s : q = 39%N ∨ q = 34%N → quoted q t s → verbatim (q :: t) s
| verbatim_line t s : upto [10%N] t s → verbatim (45%N :: 45%N :: t) s
| verbatim_block t s : upto [42; 47]%N t s → verbatim (47%N :: 42%N :: t) s
| verbatim_dollar tag t s : dollar_tag tag → upto tag t s → verbatim (tag ++ t) s
| verbatim_cast s : verbatim [58; 58]%N s.

(** a parameter: a colon and the longest name that follows *)
Definition reference (raw s : str) : Prop :=
  (∃ c w, raw = 58%N :: c :: w ∧ name_start c ∧ Forall name_char w) ∧ no_head name_char s.

Inductive token := Txt (s : str) | Par (raw_name : str).

Definition spell (t : token) : str := match t with Txt s | Par s => s end.

Inductive lexes : str → list token → Prop :=
| lexes_end : lexes [] []
| lexes_verbatim t s l : verbatim t s → lexes s l → lexes (t ++ s) (Txt t :: l)
| lexes_par raw s l : reference raw s → lexes s l → lexes (raw ++ s) (Par raw :: l)
| lexes_char c s l :
    none_here verbatim (c :: s) → none_here reference (c :: s) →
    lexes s l → lexes (c :: s) (Txt [c] :: l).

Definition par_names (l : list token) : list str :=
  omap (λ t, match t with Par n => Some n | _ => None end) l.

(** the field a parameter stands for: the last one of that name, which a
    field may have with or without the colon *)
Definition binding (params : list DataField) (raw : str) : option DataField :=
  last (filter (λ f, get_name f = raw ∨ 58%N :: get_name f = raw) params).

Definition add_new (acc : list str) (n : str) : list str :=
  if decide (n ∈ acc) then acc else acc ++ [n].
(** the names in order of first occurrence *)
Definition distinct (names : list str) : list str := foldl add_new [] names.

Fixpoint position (n : str) (l : list str) : nat :=
  match l with
  | [] => 0
  | x :: l => if decide (x = n) then 0 else S (position n l)
  end.

(** the text that stands for a token, given what stands for a parameter *)
Definition render (par : str → str) (t : token) : str :=
  match t with Txt s => push_bytes s | Par n => par n end.

Definition pg_placeholder (ds : list str) (n : str) : str :=
  [DOLLAR] ++ dec (N.of_nat (position n ds + 1)).

Fixpoint first_missing (b : str → option DataField) (names : list str) : option str :=
  match names with
  | [] => None
  | n :: names => match b n with None => Some n | Some _ => first_missing b names end
  end.

Definition fields_of (b : str → option DataField) (names : list str) : list DataField :=
  omap b names.

(** *** One way to cut a statement *)

Lemma verbatim_nonempty t s : verbatim t s → t ≠ [].
Proof. destruct 1 as [| | |tag t s (w & -> & _) _|]; done. Qed.

Lemma verbatim_cuts_once : cuts_once verbatim.
Proof.
  intros t1 s1 t2 s2 H1 H2 Heq.
  destruct H1 as [q1 t1 s1 Hq1 H1|t1 s1 H1|t1 s1 H1|g1 t1 s1 Hg1 H1|s1],
    H2 as [q2 t2 s2 Hq2 H2|t2 s2 H2|t2 s2 H2|g2 t2 s2 Hg2 H2|s2];
    try (pose proof Hg1 as (? & -> & _)); try (pose proof Hg2 as (? & -> & _));
    simplify_eq/=; try (by destruct Hq1); try (by destruct Hq2).
  - by destruct (quoted_uniq _ _ _ _ _ H1 H2 ltac:(eassumption)) as [-> ->].
  - by destruct (upto_uniq _ _ _ _ _ H1 H2 ltac:(eassumption)) as [-> ->].
  - by destruct (upto_uniq _ _ _ _ _ H1 H2 ltac:(eassumption)) as [-> ->].
  - destruct (dollar_tag_uniq _ (t1 ++ s1) _ (t2 ++ s2) Hg1 Hg2) as [Hg Ht].
    { simpl. rewrite !app_assoc. by f_equal. }
    injection Hg as Hg. rewrite Hg in *. by destruct (upto_uniq _ _ _ _ _ H1 H2 Ht) as [-> ->].
  - done.
Qed.

Lemma reference_cuts_once : cuts_once reference.
Proof.
  intros t1 s1 t2 s2 [(c & w & -> & _ & Hw) Hs1] [(c' & w' & -> & _ & Hw') Hs2] Heq.
  simpl in Heq. injection Heq as -> Heq.
  by destruct (run_uniq _ _ _ _ _ Hw Hs1 Hw' Hs2 Heq) as [-> ->].
Qed.

Lemma start_is_char c : name_start c → name_char c.
Proof. unfold name_start, name_char. tauto. Qed.

Lemma name_start_neq c : name_start c → c ≠ 58%N ∧ c ≠ 36%N.
Proof. unfold name_start, letter. lia. Qed.

Lemma verbatim_not_reference t s raw r : verbatim t s → reference raw r → t ++ s ≠ raw ++ r.
Proof.
  intros H [(c & w & -> & Hc%name_start_neq & _) _] Heq. destruct Hc.
  destruct H as [q t s Hq _|t s _|t s _|tag t s (g & -> & _) _|s]; simplify_eq/=.
  by destruct Hq.
Qed.

Lemma lexes_spell s l : lexes s l → concat (spell <$> l) = s.
Proof.
  induction 1 as [|t s l _ _ IH|raw s l _ _ IH|c s l _ _ _ IH]; [done|..];
    rewrite fmap_cons; cbn [concat spell]; by rewrite IH.
Qed.

Lemma lexes_verbatim_inv t s x l :
  lexes x l → verbatim t s → x = t ++ s → ∃ l', l = Txt t :: l' ∧ lexes s l'.
Proof.
  destruct 1 as [|t' s' l Ht' Hl|raw s' l Hr Hl|c s' l Hv Hr Hl]; intros Ht Heq.
  - symmetry in Heq. apply app_nil in Heq as [-> _]. by apply verbatim_nonempty in Ht.
  - destruct (verbatim_cuts_once _ _ _ _ Ht' Ht Heq) as [-> ->]. eauto.
  - by destruct (verbatim_not_reference _ _ _ _ Ht Hr).
  - by exfalso; eapply Hv.
Qed.

Lemma lexes_par_inv raw s x l :
  lexes x l → reference raw s → x = raw ++ s → ∃ l', l = Par raw :: l' ∧ lexes s l'.
Proof.
  destruct 1 as [|t' s' l Ht' Hl|raw' s' l Hr' Hl|c s' l Hv Hr Hl]; intros Hraw Heq.
  - by destruct Hraw as [(? & ? & -> & _) _].
  - by destruct (verbatim_not_reference _ _ _ _ Ht' Hraw).
  - destruct (reference_cuts_once _ _ _ _ Hr' Hraw Heq) as [-> ->]. eauto.
  - by exfalso; eapply Hr.
Qed.

Lemma lexes_char_inv c s x l :
  lexes x l → none_here verbatim x → none_here reference x → x = c :: s →
  ∃ l', l = Txt [c] :: l' ∧ lexes s l'.
Proof.
  destruct 1 as [|t' s' l Ht' Hl|raw' s' l Hr' Hl|c' s' l _ _ Hl]; intros Hv Hr Heq.
  - done.
  - by exfalso; eapply Hv.
  - by exfalso; eapply Hr.
  - injection Heq as -> ->. eauto.
Qed.

Lemma lexes_nil_inv x l : lexes x l → x = [] → l = [].
Proof.
  destruct 1 as [|t s l Ht|raw s l [(? & ? & -> & _) _]|]; [done| |done|done].
  intros [-> _]%app_nil. by apply verbatim_nonempty in Ht.
Qed.

Lemma tokens_det s l1 l2 : lexes s l1 → lexes s l2 → l1 = l2.
Proof.
  intros H1. revert l2. induction H1 as [|t s l Ht _ IH|raw s l Hr _ IH|c s l Hv Hr _ IH]; intros l2 H2.
  - by apply lexes_nil_inv in H2.
  - destruct (lexes_verbatim_inv _ _ _ _ H2 Ht eq_refl) as (l' & -> & H'). f_equal. auto.
  - destruct (lexes_par_inv _ _ _ _ H2 Hr eq_refl) as (l' & -> & H'). f_equal. auto.
  - destruct (lexes_char_inv _ _ _ _ H2 Hv Hr eq_refl) as (l' & -> & H'). f_equal. auto.
Qed.

(** *** The arms of the loop against the tokens *)

Lemma is_param_start_spec c : is_param_start c = true ↔ name_start c.
Proof.
  unfold is_param_start, is_ascii_alphabetic, is_ascii_upper, is_ascii_lower, name_start, letter.
  rewrite !orb_true_iff, !andb_true_iff, !N.leb_le, N.eqb_eq. lia.
Qed.

Lemma is_param_continue_spec c : is_param_continue c = true ↔ name_char c.
Proof.
  unfold is_param_continue, is_ascii_alphanumeric, is_ascii_alphabetic, is_ascii_upper,
    is_ascii_lower, is_ascii_digit, name_char, letter, digit.
  rewrite !orb_true_iff, !andb_true_iff, !N.leb_le, N.eqb_eq. lia.
Qed.

Lemma dollar_tag_loop_spec idx s n :
  1 ≤ idx →
  dollar_tag_loop idx s = Some n
  ↔ ∃ w r, s = w ++ 36%N :: r ∧ (idx = 1 → ∀ c, head w = Some c → name_start c)
         ∧ Forall name_char w ∧ n = idx + length w + 1.
Proof.
  revert idx. induction s as [|c s IH]; intros idx Hidx; cbn [dollar_tag_loop].
  { split; [done|]. by intros ([] & r & ? & _). }
  destruct (c =? DOLLAR)%N eqn:Hc; [apply N.eqb_eq in Hc as ->|apply N.eqb_neq in Hc].
  { split.
    - intros [= <-]. exists [], s. by rewrite Nat.add_0_r.
    - intros ([|d w] & r & Heq & _ & Hw & ->); simplify_eq/=; [f_equal; lia|].
      apply name_char_not_dollar in Hw. set_solver. }
  assert ((if bool_decide (idx = 1) then is_dollar_tag_start c else is_dollar_tag_continue c) = true
          ↔ name_char c ∧ (idx = 1 → name_start c)) as Hif.
  { pose proof (is_param_start_spec c) as H1. pose proof (is_param_continue_spec c) as H2.
    pose proof (start_is_char c). case_bool_decide;
      [change (is_dollar_tag_start c) with (is_param_start c)
      |change (is_dollar_tag_continue c) with (is_param_continue c)]; tauto. }
  destruct (if bool_decide _ then _ else _).
  - destruct Hif as [[Hcc Hcs] _]; [done|]. rewrite IH by lia. split.
    + intros (w & r & -> & _ & Hw & ->). exists (c :: w), r.
      split_and!; [done|by intros Hi d [= <-]; apply Hcs|by constructor|simpl; lia].
    + intros ([|d w] & r & Heq & _ & Hw & ->); simplify_eq/=. exists w, r.
      inversion Hw. split_and!; [done|lia|done|lia].
  - split; [done|]. intros ([|d w] & r & Heq & Hs & Hw & ->); simplify_eq/=. inversion Hw.
    exfalso. enough (false = true) by done. apply Hif. split; [done|]. intros Hi. by apply Hs.
Qed.

Lemma parse_dollar_quote_tag_spec s :
  match parse_dollar_quote_tag s with
  | Some n => dollar_tag (take n s)
  | None => none_here (λ t _, dollar_tag t) s
  end.
Proof.
  destruct s as [|c s]; cbn [parse_dollar_quote_tag].
  { by intros t r Heq (w & -> & _). }
  destruct (c =? DOLLAR)%N eqn:Hc; simpl; [apply N.eqb_eq in Hc as ->|apply N.eqb_neq in Hc].
  2:{ intros t r Heq (w & -> & _). by injection Heq. }
  destruct (dollar_tag_loop 1 s) as [n|] eqn:Hl.
  - apply dollar_tag_loop_spec in Hl as (w & r & -> & Hs & Hw & ->); [|lia].
    exists w. split; [|by auto]. simpl. f_equal. rewrite Nat.add_1_r. apply take_app_S.
  - intros t r Heq (w & -> & Hs & Hw). injection Heq as ->.
    assert (dollar_tag_loop 1 ((w ++ [36%N]) ++ r) = Some (1 + length w + 1)) as H'; [|congruence].
    apply dollar_tag_loop_spec; [lia|]. exists w, r. by rewrite <-app_assoc.
Qed.

Lemma no_verbatim c s :
  c ≠ SQUOTE → c ≠ DQUOTE → (c =? DASH)%N && starts_with DASH s = false →
  (c =? SLASH)%N && starts_with STAR s = false → none_here (λ t _, dollar_tag t) (c :: s) →
  (c =? COLON)%N && starts_with COLON s = false → none_here verbatim (c :: s).
Proof.
  intros H1 H2 H3 H4 H5 H6 t r Heq H.
  destruct H as [q t r Hq _|t r _|t r _|tag t r Htag _|r]; simplify_eq/=; [by destruct Hq|].
  rewrite <-app_assoc in Heq. by eapply H5.
Qed.

Lemma no_reference c s :
  (c = COLON → no_head name_start s) → none_here reference (c :: s).
Proof. intros H t r Heq [(d & w & -> & Hd & _) _]. simplify_eq/=. by eapply H. Qed.

Lemma no_dollar c s : c ≠ DOLLAR → none_here (λ t _, dollar_tag t) (c :: s).
Proof. intros H t r Heq (w & -> & _). by injection Heq. Qed.

Lemma param_shape s :
  match s with
  | d :: s' =>
      name_start d →
      reference (take (2 + span is_param_continue s') (COLON :: s))
        (drop (2 + span is_param_continue s') (COLON :: s))
  | [] => True
  end.
Proof.
  destruct s as [|d s]; [done|]. intros Hd. split.
  - exists d, (take (span is_param_continue s) s). split_and!; [done|done|].
    eapply Forall_impl; [apply span_take|]. intros c. apply is_param_continue_spec.
  - intros c Hc%span_drop Hn%is_param_continue_spec. congruence.
Qed.

(** what the loop does with the head of the text, and what stands there *)
Lemma rw_step_shape c s :
  match rw_step None c s with
  | Copy n => verbatim (take n (c :: s)) (drop n (c :: s))
              ∨ n = 1 ∧ none_here verbatim (c :: s) ∧ none_here reference (c :: s)
  | OpenTag n => dollar_tag (take n (c :: s))
  | CloseTag _ => False
  | Param n => reference (take n (c :: s)) (drop n (c :: s))
  end.
Proof.
  unfold rw_step.
  destruct (c =? SQUOTE)%N eqn:H1; [apply N.eqb_eq in H1 as ->; left|].
  { apply verbatim_quote; [by left|apply quoted_len_shape]. }
  destruct (c =? DQUOTE)%N eqn:H2; [apply N.eqb_eq in H2 as ->; left|].
  { apply verbatim_quote; [by right|apply quoted_len_shape]. }
  apply N.eqb_neq in H1, H2.
  destruct ((c =? DASH)%N && starts_with DASH s) eqn:H3.
  { left. destruct s as [|d s]; simpl in *; bool_guard; [done|]; subst. rewrite ?drop_0.
    apply verbatim_line, until_len_shape. }
  destruct ((c =? SLASH)%N && starts_with STAR s) eqn:H4.
  { left. destruct s as [|d s]; simpl in *; bool_guard; [done|]; subst. rewrite ?drop_0.
    apply verbatim_block, block_len_shape. }
  destruct (c =? DOLLAR)%N eqn:H5; [apply N.eqb_eq in H5 as ->|apply N.eqb_neq in H5].
  { pose proof (parse_dollar_quote_tag_spec (DOLLAR :: s)) as Hd.
    destruct (parse_dollar_quote_tag _); [done|]. right.
    split_and!; [done|by apply no_verbatim|by apply no_reference]. }
  pose proof (no_dollar c s H5) as H5'.
  destruct (c =? COLON)%N eqn:H6; [apply N.eqb_eq in H6 as ->|apply N.eqb_neq in H6].
  2:{ right. split_and!; [done| |by apply no_reference]. apply no_verbatim; try done.
      by apply N.eqb_neq in H6 as ->. }
  destruct (starts_with COLON s) eqn:H7.
  { left. destruct s as [|d s]; [done|]. simpl in H7. apply N.eqb_eq in H7 as ->. apply verbatim_cast. }
  pose proof (param_shape s) as Hp. destruct s as [|d s].
  { right. split_and!; [done|by apply no_verbatim|by apply no_reference]. }
  destruct (is_param_start d) eqn:H8; [by apply Hp, is_param_start_spec|].
  right. split_and!; [done|by apply no_verbatim|]. apply no_reference. intros _ x [= <-] Hx.
  apply is_param_start_spec in Hx. congruence.
Qed.

Lemma lexes_total s : ∃ l, lexes s l.
Proof.
  remember (length s) as n eqn:Hn. revert s Hn.
  induction (lt_wf n) as [n _ IH]; intros s ->.
  assert (∀ t r, s = t ++ r → t ≠ [] → ∃ l, lexes r l) as Hrest.
  { intros t r -> Ht. apply (IH (length r)); [|done]. rewrite length_app. destruct t; [done|simpl; lia]. }
  clear IH. destruct s as [|c s]; [exists []; constructor|].
  pose proof (rw_step_shape c s) as Hs. destruct (rw_step None c s) as [k|k|k|k].
  - destruct Hs as [Hv|(-> & Hv & Hr)].
    + destruct (Hrest _ _ (eq_sym (take_drop k (c :: s))) (verbatim_nonempty _ _ Hv)) as [l Hl].
      exists (Txt (take k (c :: s)) :: l). rewrite <-(take_drop k (c :: s)) at 1. by constructor.
    + destruct (Hrest [c] s) as [l Hl]; [done..|]. exists (Txt [c] :: l). by constructor.
  - destruct (upto_total (take k (c :: s)) (drop k (c :: s))) as (t & r & Hd & Hu).
    { by destruct Hs as (? & -> & _). }
    assert (c :: s = (take k (c :: s) ++ t) ++ r) as Heq by (by rewrite <-app_assoc, <-Hd, take_drop).
    assert (verbatim (take k (c :: s) ++ t) r) as Hv by (by constructor).
    destruct (Hrest _ _ Heq (verbatim_nonempty _ _ Hv)) as [l Hl].
    exists (Txt (take k (c :: s) ++ t) :: l). rewrite Heq at 1. by constructor.
  - done.
  - destruct (Hrest _ _ (eq_sym (take_drop k (c :: s)))) as [l Hl].
    { by destruct Hs as [(? & ? & -> & _) _]. }
    exists (Par (take k (c :: s)) :: l). rewrite <-(take_drop k (c :: s)) at 1. by constructor.
Qed.

(** *** Copying, in either loop *)

Definition next_tag (tag : option str) (r : Round) (s : str) : option str :=
  match r with OpenTag n => Some (take n s) | CloseTag _ => None | _ => tag end.
Definition round_len (r : Round) : nat :=
  match r with Copy n | OpenTag n | CloseTag n | Param n => n end.
Definition copied (r : Round) (s : str) : str :=
  match r with
  | Copy n => push_bytes (take n s)
  | OpenTag n | CloseTag n => take n s
  | Param _ => []
  end.

Lemma push_bytes_app s1 s2 : push_bytes (s1 ++ s2) = push_bytes s1 ++ push_bytes s2.
Proof. unfold push_bytes. by rewrite fmap_app, concat_app. Qed.

Lemma push_bytes_ascii s : ascii s → push_bytes s = s.
Proof.
  induction 1 as [|c s Hc _ IH]; [done|].
  change (push_bytes (c :: s)) with (utf8_encode c ++ push_bytes s).
  by rewrite IH, utf8_encode_ascii.
Qed.

Lemma prefix_of_spec p s : prefix_of p s = true ↔ ∃ r, s = p ++ r.
Proof.
  revert s. induction p as [|x p IH]; intros s; simpl; [by split; [exists s|]|].
  destruct s as [|y s]; [by split; [|intros [r ?]]|].
  rewrite andb_true_iff, N.eqb_eq, IH. split; [by intros [-> [r ->]]; exists r|].
  intros [r [= -> ->]]. eauto.
Qed.

Lemma upto_here p r t s : p ≠ [] → upto p t s → t ++ s = p ++ r → t = p ∧ s = r.
Proof.
  intros Hp H Heq. apply (upto_uniq p t s ([] ++ p) r H); [|done]. apply upto_found.
  intros a b Hab%(f_equal length). rewrite !length_app in Hab. simpl in Hab.
  apply nil_length_inv. lia.
Qed.

Lemma upto_tail p x t s :
  upto p (x :: t) s → prefix_of p (x :: t ++ s) = false → upto p t s.
Proof.
  intros H Hp. inversion H as [c s' Hc Heq|c Hc]; subst.
  - destruct c as [|y c]; simpl in Heq.
    + exfalso. apply not_true_iff_false in Hp. apply Hp, prefix_of_spec. exists s. by rewrite Heq.
    + injection Heq as -> <-. apply upto_found. intros a b Hab. apply (Hc (x :: a)).
      simpl. by rewrite Hab.
  - apply upto_end. intros a b ->. by apply (Hc (x :: a) b).
Qed.

Section Copying.
Context {A : Type} (loop : nat → option str → str → str → A).
Hypothesis loop_copy : ∀ fuel tag c s out,
  (∀ n, rw_step tag c s ≠ Param n) →
  let r := rw_step tag c s in
  loop (S fuel) tag (c :: s) out
  = loop fuel (next_tag tag r (c :: s)) (drop (round_len r) (c :: s)) (out ++ copied r (c :: s)).
Hypothesis loop_end : ∀ fuel fuel' tag tag' out, loop fuel tag [] out = loop fuel' tag' [] out.

Lemma loop_dollar tag t s fuel out :
  dollar_tag tag → upto tag t s → length (t ++ s) < fuel →
  ∃ fuel', length s < fuel'
         ∧ loop fuel (Some tag) (t ++ s) out = loop fuel' None s (out ++ push_bytes t).
Proof.
  intros Htag. revert fuel out. induction t as [|x t IH]; intros fuel out Hu Hf.
  - inversion Hu as [c r Hc Heq|]; subst.
    { apply app_nil in Heq as [_ ->]. by destruct Htag as (? & ? & _). }
    exists 1. split; [simpl; lia|]. simpl. rewrite app_nil_r. apply loop_end.
  - destruct fuel as [|fuel]; [simpl in Hf; lia|]. cbn [app] in *.
    destruct (prefix_of tag (x :: t ++ s)) eqn:Hp.
    + pose proof Hp as [r Hr]%prefix_of_spec.
      destruct (upto_here tag r (x :: t) s) as [Ht <-]; [by destruct Htag as (? & -> & _)|done..|].
      exists fuel. split; [simpl in Hf; rewrite length_app in Hf; lia|].
      rewrite loop_copy by (unfold rw_step; by rewrite Hp). unfold rw_step. rewrite Hp. cbn zeta.
      cbn [next_tag round_len copied]. rewrite Hr, take_app_length, drop_app_length.
      rewrite Ht, push_bytes_ascii; [done|]. by apply dollar_tag_ascii.
    + destruct (IH fuel (out ++ push_bytes [x])) as (f & Hf' & Heq);
        [by eapply upto_tail|simpl in Hf; lia|].
      exists f. split; [done|]. rewrite loop_copy by (unfold rw_step; by rewrite Hp).
      unfold rw_step. rewrite Hp. cbn [next_tag round_len copied]. cbn zeta.
      change (take 1 (x :: t ++ s)) with [x]. change (drop 1 (x :: t ++ s)) with (t ++ s).
      rewrite Heq, <-app_assoc. by rewrite <-push_bytes_app.
Qed.

Lemma loop_verbatim t s fuel out :
  verbatim t s → length (t ++ s) < fuel →
  ∃ fuel', length s < fuel' ∧ loop fuel None (t ++ s) out = loop fuel' None s (out ++ push_bytes t).
Proof.
  intros Ht Hf. destruct fuel as [|fuel]; [lia|].
  destruct (t ++ s) as [|c r] eqn:Heq;
    [by apply app_nil in Heq as [-> _]; apply verbatim_nonempty in Ht|].
  pose proof (rw_step_shape c r) as Hs. pose proof (loop_copy fuel None c r out) as Hl. cbn zeta in Hl.
  assert (length s ≤ length r) as Hlen.
  { apply (f_equal length) in Heq. rewrite length_app in Heq. simpl in Heq.
    pose proof (verbatim_nonempty _ _ Ht). destruct t; [done|]. simpl in Heq. lia. }
  destruct (rw_step None c r) as [k|k|k|k]; cbn [next_tag round_len copied] in Hl.
  - destruct Hs as [Hv|(_ & Hv & _)]; [|by exfalso; eapply Hv].
    destruct (verbatim_cuts_once _ _ _ _ Hv Ht) as [Hk Hd]; [by rewrite take_drop|].
    exists fuel. split; [simpl in Hf; lia|]. by rewrite Hl, Hk, Hd.
  - destruct (upto_total (take k (c :: r)) (drop k (c :: r))) as (b & e & Hd & Hu).
    { by destruct Hs as (? & -> & _). }
    destruct (verbatim_cuts_once (take k (c :: r) ++ b) e t s) as [<- <-]; [by constructor|done| |].
    { by rewrite <-app_assoc, <-Hd, take_drop. }
    destruct (loop_dollar _ _ _ fuel (out ++ take k (c :: r)) Hs Hu) as (f & Hf' & Hb).
    { rewrite <-Hd, length_drop. pose proof (f_equal length (take_drop k (c :: r))) as Hlk.
      rewrite length_app, length_drop in Hlk. simpl in *.
      destruct Hs as (w & Hw & _). destruct k; [by rewrite take_0 in Hw|]. lia. }
    exists f. split; [done|]. rewrite Hl by done. rewrite Hd, Hb, push_bytes_app, <-app_assoc.
    by rewrite (push_bytes_ascii (take k (c :: r))) by (by apply dollar_tag_ascii).
  - done.
  - exfalso. apply (verbatim_not_reference _ _ _ _ Ht Hs). by rewrite take_drop.
Qed.

Lemma loop_char c s fuel out :
  none_here verbatim (c :: s) → none_here reference (c :: s) →
  loop (S fuel) None (c :: s) out = loop fuel None s (out ++ push_bytes [c]).
Proof.
  intros Hv Hr. pose proof (rw_step_shape c s) as Hs. pose proof (loop_copy fuel None c s out) as Hl.
  cbn zeta in Hl. destruct (rw_step None c s) as [k|k|k|k]; cbn [next_tag round_len copied] in Hl.
  - destruct Hs as [H|(-> & _)]; [by exfalso; eapply Hv; [|exact H]; rewrite take_drop|].
    rewrite Hl by done. done.
  - exfalso. destruct (upto_total (take k (c :: s)) (drop k (c :: s))) as (b & e & Hd & Hu).
    { by destruct Hs as (? & -> & _). }
    eapply Hv; [|by apply (verbatim_dollar _ b e Hs Hu)]. by rewrite <-app_assoc, <-Hd, take_drop.
  - done.
  - exfalso. by eapply Hr; [|exact Hs]; rewrite take_drop.
Qed.
End Copying.

Lemma rw_step_reference raw s c r :
  reference raw s → raw ++ s = c :: r → rw_step None c r = Param (length raw).
Proof.
  intros H Heq. pose proof (rw_step_shape c r) as Hs.
  assert (length (c :: r) = length raw + length s) as Hlen by (rewrite <-Heq; apply length_app).
  destruct (rw_step None c r) as [k|k|k|k] eqn:Hk.
  - destruct Hs as [Hv|(_ & _ & Hr)]; exfalso.
    + apply (verbatim_not_reference _ _ _ _ Hv H). by rewrite take_drop.
    + by eapply Hr.
  - exfalso. destruct H as [(d & w & -> & _) _]. simpl in Heq. injection Heq as <- _.
    destruct Hs as (w' & Hw & _). by destruct k.
  - done.
  - destruct (reference_cuts_once _ _ _ _ Hs H) as [Ht Hd]; [by rewrite take_drop|].
    f_equal. rewrite <-Ht, length_take. apply (f_equal length) in Hd. rewrite length_drop in Hd.
    destruct (decide (k ≤ length (c :: r))); [lia|]. exfalso.
    unfold rw_step in Hk. repeat case_match; simplify_eq.
    match goal with H : context [span ?p ?t] |- _ => pose proof (span_le p t) end. simpl in *. lia.
Qed.

(** *** Numbering by first occurrence *)

Lemma distinct_app acc names :
  ∃ k, foldl add_new acc names = acc ++ k.
Proof.
  revert acc. induction names as [|n names IH]; intros acc; [exists []; by rewrite app_nil_r|].
  simpl. unfold add_new at 2. destruct (decide (n ∈ acc)); [apply IH|].
  destruct (IH (acc ++ [n])) as [k ->]. exists ([n] ++ k). by rewrite app_assoc.
Qed.

Lemma position_app n l k : n ∈ l → position n (l ++ k) = position n l.
Proof.
  induction l as [|m l IH]; intros Hin; [by apply not_elem_of_nil in Hin|]. simpl.
  destruct (decide (m = n)) as [|Hne]; [done|]. apply elem_of_cons in Hin as [->|Hin]; [done|].
  by rewrite IH.
Qed.

Lemma position_new n l k : n ∉ l → position n (l ++ n :: k) = length l.
Proof.
  induction l as [|x l IH]; simpl; intros Hn; [by rewrite decide_True|].
  apply not_elem_of_cons in Hn as [Hne Hn]. rewrite decide_False by congruence. by rewrite IH.
Qed.

Lemma NoDup_add_new acc names : NoDup acc → NoDup (foldl add_new acc names).
Proof.
  revert acc. induction names as [|n names IH]; intros acc Hnd; [done|]. simpl. apply IH.
  unfold add_new. destruct (decide (n ∈ acc)); [done|].
  apply NoDup_app. split_and!; [done| |apply NoDup_singleton].
  intros x Hx ->%list_elem_of_singleton. done.
Qed.

Lemma elem_of_add_new acc names n : n ∈ foldl add_new acc names ↔ n ∈ acc ∨ n ∈ names.
Proof.
  revert acc. induction names as [|m names IH]; intros acc; simpl; [set_solver|].
  rewrite IH. unfold add_new. destruct (decide (m ∈ acc)); set_solver.
Qed.

Lemma fields_of_app b l k : fields_of b (l ++ k) = fields_of b l ++ fields_of b k.
Proof. apply omap_app. Qed.

(** The state of the PostgreSQL loop after the names [acc]. *)
Definition numbered (b : str → option DataField) (acc : list str) (assigned : gmap str nat)
    (ordered : list DataField) : Prop :=
  ordered = fields_of b acc ∧ length ordered = length acc
  ∧ ∀ n, assigned !! n = if decide (n ∈ acc) then Some (position n acc + 1) else None.

Lemma numbered_new b acc assigned ordered n f :
  numbered b acc assigned ordered → n ∉ acc → b n = Some f →
  numbered b (acc ++ [n]) (<[n := length ordered + 1]> assigned) (ordered ++ [f]).
Proof.
  intros (-> & Hlen & Ha) Hn Hf. split_and!.
  - rewrite fields_of_app. unfold fields_of at 2. simpl. by rewrite Hf.
  - rewrite !length_app. simpl. lia.
  - intros k. destruct (decide (n = k)) as [->|Hne].
    + rewrite lookup_insert_eq, decide_True by set_solver. by rewrite position_new, Hlen.
    + rewrite lookup_insert_ne by done. rewrite Ha.
      destruct (decide (k ∈ acc)) as [Hk|Hk].
      * rewrite decide_True by set_solver. by rewrite position_app.
      * rewrite decide_False; [done|]. set_solver.
Qed.

(** *** The parameter list *)

Lemma by_name_snoc params f :
  by_name (params ++ [f]) = <[normalize_param_name (get_name f) := f]> (by_name params).
Proof. unfold by_name. by rewrite foldl_app. Qed.

Lemma normalize_reference name raw s :
  reference raw s → normalize_param_name name = raw ↔ name = raw ∨ 58%N :: name = raw.
Proof.
  intros [(c & w & -> & Hc%name_start_neq & _) _]. unfold normalize_param_name.
  destruct (starts_with COLON name) eqn:Hn; [|naive_solver].
  destruct name as [|d name]; [done|]. simpl in Hn. apply N.eqb_eq in Hn as ->.
  split; [by left|]. intros [?|[= <- _]]; [done|]. by destruct Hc.
Qed.

Lemma by_name_binding params raw s : reference raw s → by_name params !! raw = binding params raw.
Proof.
  intros Hraw. unfold binding. induction params as [|f params IH] using rev_ind; [done|].
  pose proof (normalize_reference (get_name f) raw s Hraw) as Hn.
  rewrite by_name_snoc, filter_app. destruct (decide (normalize_param_name (get_name f) = raw)) as [Heq|Hne].
  - rewrite Heq, lookup_insert_eq, filter_cons_True by tauto. by rewrite filter_nil, last_snoc.
  - rewrite lookup_insert_ne, filter_cons_False by tauto. by rewrite filter_nil, app_nil_r.
Qed.

(** *** The loops *)

Lemma pg_copy m fuel tag c s out a o :
  (∀ n, rw_step tag c s ≠ Param n) →
  let r := rw_step tag c s in
  Postgres.rewrite_loop (S fuel) m tag (c :: s) out a o
  = Postgres.rewrite_loop fuel m (next_tag tag r (c :: s)) (drop (round_len r) (c :: s))
      (out ++ copied r (c :: s)) a o.
Proof. intros H. cbn [Postgres.rewrite_loop]. destruct (rw_step tag c s); naive_solver. Qed.

Lemma my_copy m fuel tag c s out o :
  (∀ n, rw_step tag c s ≠ Param n) →
  let r := rw_step tag c s in
  Mysql.rewrite_loop (S fuel) m tag (c :: s) out o
  = Mysql.rewrite_loop fuel m (next_tag tag r (c :: s)) (drop (round_len r) (c :: s))
      (out ++ copied r (c :: s)) o.
Proof. intros H. cbn [Mysql.rewrite_loop]. destruct (rw_step tag c s); naive_solver. Qed.

Lemma pg_end m fuel tag out a o : Postgres.rewrite_loop fuel m tag [] out a o = Ok (out, o).
Proof. by destruct fuel. Qed.

Lemma my_end m fuel tag out o : Mysql.rewrite_loop fuel m tag [] out o = Ok (out, o).
Proof. by destruct fuel. Qed.

Lemma numbered_use b acc assigned ordered raw f :
  numbered b acc assigned ordered → b raw = Some f →
  let acc' := add_new acc raw in
  raw ∈ acc' ∧
  match assigned !! raw with
  | Some idx => idx = position raw acc' + 1 ∧ numbered b acc' assigned ordered
  | None => length ordered + 1 = position raw acc' + 1
            ∧ numbered b acc' (<[raw := length ordered + 1]> assigned) (ordered ++ [f])
  end.
Proof.
  intros Hn Hf. pose proof Hn as (Hord & Hlen & Ha). rewrite Ha. unfold add_new.
  destruct (decide (raw ∈ acc)) as [Hin|Hin]; [done|]. split; [set_solver|]. split.
  - by rewrite position_new, Hlen.
  - by apply numbered_new.
Qed.

Lemma postgres_loop_spec m b s l fuel out acc assigned ordered :
  (∀ raw r, reference raw r → m !! raw = b raw) →
  lexes s l → length s < fuel → numbered b acc assigned ordered →
  Postgres.rewrite_loop fuel m None s out assigned ordered
  = match first_missing b (par_names l) with
    | Some n => Err (know_err from_rule [F "postgres query missing param: "; D n])
    | None => let ds := foldl add_new acc (par_names l) in
              Ok (out ++ concat (render (pg_placeholder ds) <$> l), fields_of b ds)
    end.
Proof.
  intros Hb H. revert fuel out acc assigned ordered.
  induction H as [|t s l Ht _ IH|raw s l Hraw _ IH|c s l Hv Hr _ IH];
    intros fuel out acc assigned ordered Hf Hn.
  - rewrite pg_end. destruct Hn as (-> & _). simpl. by rewrite app_nil_r.
  - destruct (loop_verbatim (λ fuel tag s out, Postgres.rewrite_loop fuel m tag s out assigned ordered)
      ltac:(intros; by apply pg_copy) ltac:(intros; cbn beta; by rewrite !pg_end) t s fuel out Ht Hf)
      as (f & Hf' & ->).
    rewrite (IH _ _ _ _ _ Hf' Hn). cbn [par_names omap list_omap].
    destruct (first_missing _ _); [done|]. cbn [fmap list_fmap concat render].
    by rewrite <-app_assoc.
  - destruct fuel as [|fuel]; [lia|]. destruct (raw ++ s) as [|c r] eqn:Heq.
    { by destruct Hraw as [(? & ? & -> & _) _]. }
    cbn [Postgres.rewrite_loop]. rewrite (rw_step_reference raw s c r Hraw Heq).
    assert (length s < fuel) as Hf'.
    { destruct Hraw as [(? & ? & -> & _) _]. simpl in *. injection Heq as <- <-.
      simpl in Hf. rewrite length_app in Hf. lia. }
    rewrite <-Heq, take_app_length, drop_app_length, (Hb _ _ Hraw).
    cbn [par_names omap list_omap first_missing foldl]. fold (par_names l).
    destruct (b raw) as [f|] eqn:Hbr; [|done].
    destruct (numbered_use _ _ _ _ _ _ Hn Hbr) as [Hin Huse]. cbn zeta in *.
    destruct (distinct_app (add_new acc raw) (par_names l)) as [k Hk].
    assert (∀ p, concat (render p <$> Par raw :: l) = p raw ++ concat (render p <$> l)) as Hcons by done.
    destruct (assigned !! raw) as [idx|]; destruct Huse as [-> Hnum]; rewrite (IH _ _ _ _ _ Hf' Hnum);
      (destruct (first_missing _ _); [done|]); rewrite Hcons, Hk; unfold pg_placeholder at 2;
      rewrite position_app by done; by rewrite <-!app_assoc.
  - destruct fuel as [|fuel]; [lia|]. cbn [length] in Hf.
    rewrite (loop_char (λ fuel tag s out, Postgres.rewrite_loop fuel m tag s out assigned ordered)
      ltac:(intros; by apply pg_copy) c s fuel out Hv Hr).
    rewrite (IH _ _ acc) by (done || lia). cbn [par_names omap list_omap].
    destruct (first_missing _ _); [done|]. cbn [fmap list_fmap concat render].
    by rewrite <-app_assoc.
Qed.

Lemma mysql_loop_spec m b s l fuel out ordered :
  (∀ raw r, reference raw r → m !! raw = b raw) → lexes s l → length s < fuel →
  Mysql.rewrite_loop fuel m None s out ordered
  = match first_missing b (par_names l) with
    | Some n => Err (know_err from_rule [F "mysql query missing param: "; D n])
    | None => Ok (out ++ concat (render (λ _, [QMARK]) <$> l), ordered ++ fields_of b (par_names l))
    end.
Proof.
  intros Hb H. revert fuel out ordered.
  induction H as [|t s l Ht _ IH|raw s l Hraw _ IH|c s l Hv Hr _ IH]; intros fuel out ordered Hf.
  - rewrite my_end. simpl. by rewrite !app_nil_r.
  - destruct (loop_verbatim (λ fuel tag s out, Mysql.rewrite_loop fuel m tag s out ordered)
      ltac:(intros; by apply my_copy) ltac:(intros; cbn beta; by rewrite !my_end) t s fuel out Ht Hf)
      as (f & Hf' & ->).
    rewrite (IH _ _ _ Hf'). cbn [par_names omap list_omap].
    destruct (first_missing _ _); [done|]. cbn [fmap list_fmap concat render].
    by rewrite <-app_assoc.
  - destruct fuel as [|fuel]; [lia|]. destruct (raw ++ s) as [|c r] eqn:Heq.
    { by destruct Hraw as [(? & ? & -> & _) _]. }
    cbn [Mysql.rewrite_loop]. rewrite (rw_step_reference raw s c r Hraw Heq).
    assert (length s < fuel) as Hf'.
    { destruct Hraw as [(? & ? & -> & _) _]. simpl in *. injection Heq as <- <-.
      simpl in Hf. rewrite length_app in Hf. lia. }
    rewrite <-Heq, take_app_length, drop_app_length, (Hb _ _ Hraw).
    cbn [par_names omap list_omap first_missing]. fold (par_names l).
    destruct (b raw) as [f|] eqn:Hbr; [|done]. rewrite (IH _ _ _ Hf').
    destruct (first_missing _ _); [done|]. cbn [fmap list_fmap concat render].
    change (fields_of b (raw :: ?l)) with (fields_of b ([raw] ++ l)).
    rewrite fields_of_app. unfold fields_of at 2. simpl. rewrite Hbr. simpl.
    by rewrite <-!app_assoc.
  - destruct fuel as [|fuel]; [lia|]. cbn [length] in Hf.
    rewrite (loop_char (λ fuel tag s out, Mysql.rewrite_loop fuel m tag s out ordered)
      ltac:(intros; by apply my_copy) c s fuel out Hv Hr).
    rewrite IH by lia. cbn [par_names omap list_omap].
    destruct (first_missing _ _); [done|]. cbn [fmap list_fmap concat render].
    by rewrite <-app_assoc.
Qed.

(** ** What the rewriting does *)

Lemma lexes_unique s :
  ∃ l, lexes s l ∧ (∀ l', lexes s l' → l' = l) ∧ concat (spell <$> l) = s.
Proof.
  destruct (lexes_total s) as [l Hl]. exists l. split_and!; [done| |by apply lexes_spell].
  intros l' Hl'. by eapply tokens_det.
Qed.

(** C25. PostgreSQL: a statement is cut in one way into tokens that spell it:
    literals, quoted identifiers, comments, dollar quotes and casts, the
    longest [:name] anywhere else, and the other characters.  When every name
    is bound, the result is the statement with each reference replaced by
    [$k], [k] the rank of its name by first occurrence, the other tokens
    copied byte by byte as characters, and the fields in that order without
    repetition; otherwise the error names the first unbound reference. *)
Theorem postgres_rewrite_spec sql params :
  ∃ l, lexes sql l ∧ (∀ l', lexes sql l' → l' = l) ∧ concat (spell <$> l) = sql
  ∧ let b := binding params in
    let ds := distinct (par_names l) in
    NoDup ds ∧ (∀ n, n ∈ ds ↔ n ∈ par_names l)
    ∧ Postgres.rewrite_sql sql params
      = match first_missing b (par_names l) with
        | Some n => Err (know_err from_rule [F "postgres query missing param: "; D n])
        | None => Ok (concat (render (pg_placeholder ds) <$> l), fields_of b ds)
        end.
Proof.
  destruct (lexes_unique sql) as (l & Hl & Hu & Hs). exists l. cbn zeta. split_and!; try done.
  - apply NoDup_add_new, NoDup_nil_2.
  - intros n. unfold distinct. rewrite elem_of_add_new. set_solver.
  - unfold Postgres.rewrite_sql.
    rewrite (postgres_loop_spec _ (binding params) _ l _ _ [])
      by (lia || done || (intros ??; apply by_name_binding) || by split_and!).
    done.
Qed.

(** C26. MySQL: the statement is cut in the same way; each [:name] outside
    literals, quoted identifiers, comments, dollar quotes and casts becomes one
    [?], and the fields to bind are listed once per occurrence, in order; an
    unbound reference is an error naming the first one. *)
Theorem mysql_rewrite_spec sql params :
  ∃ l, lexes sql l ∧ (∀ l', lexes sql l' → l' = l) ∧ concat (spell <$> l) = sql
  ∧ let b := binding params in
    Mysql.rewrite_sql sql params
    = match first_missing b (par_names l) with
      | Some n => Err (know_err from_rule [F "mysql query missing param: "; D n])
      | None => Ok (concat (render (λ _, [QMARK]) <$> l), fields_of b (par_names l))
      end.
Proof.
  destruct (lexes_unique sql) as (l & Hl & Hu & Hs). exists l. cbn zeta. split_and!; try done.
  unfold Mysql.rewrite_sql.
  rewrite (mysql_loop_spec _ (binding params) _ l) by (lia || done || (intros ??; apply by_name_binding)).
  done.
Qed.

(** Text that is not ASCII is corrupted wherever it stands, literals included:
    every byte is pushed as a character of its own. *)
Theorem rewrite_corrupts_non_ascii :
  Postgres.rewrite_sql (lit "select 'é'") [] = Ok (lit "select 'Ã©'", [])
  ∧ Mysql.rewrite_sql (lit "select 'é'") [] = Ok (lit "select 'Ã©'", []).
Proof. split; vm_compute; reflexivity. Qed.
