(* ===== verification/Lru.v ===== *)
(** * The LRU cache interface

    [LruCache] of the [lru] crate, as the operations the program calls with
    the laws it documents: a bounded map whose [put] may evict older entries
    when it is full and never changes a value.  [ListLru] is an instance with
    least-recently-used eviction, on which the witnesses run. *)
From S2P Require Import Prelude.

Class LruOps (C : Type → Type → Type) := {
  lru_new {K V} : nat → C K V;
  lru_put {K V} `{EqDecision K} : K → V → C K V → C K V;
  lru_peek {K V} `{EqDecision K} : K → C K V → option V;
  lru_pop {K V} `{EqDecision K} : K → C K V → C K V;
  lru_clear {K V} : C K V → C K V;
  lru_len {K V} : C K V → nat;
  lru_cap {K V} : C K V → nat;
  lru_iter {K V} : C K V → list (K * V);
}.

Class LruLaws (C : Type → Type → Type) `{LruOps C} := {
  peek_new {K V} `{EqDecision K} n (k : K) : lru_peek k (lru_new (V := V) n) = None;
  peek_put {K V} `{EqDecision K} (k : K) (v : V) c :
    0 < lru_cap c → lru_peek k (lru_put k v c) = Some v;
  peek_put_old {K V} `{EqDecision K} (k k' : K) (v v' : V) c :
    k ≠ k' → lru_peek k' (lru_put k v c) = Some v' → lru_peek k' c = Some v';
  peek_put_room {K V} `{EqDecision K} (k k' : K) (v : V) c :
    k ≠ k' → lru_len c < lru_cap c → lru_peek k' (lru_put k v c) = lru_peek k' c;
  peek_pop {K V} `{EqDecision K} (k k' : K) (c : C K V) :
    lru_peek k' (lru_pop k c) = if decide (k = k') then None else lru_peek k' c;
  peek_clear {K V} `{EqDecision K} (k : K) (c : C K V) : lru_peek k (lru_clear c) = None;
  cap_new {K V} n : lru_cap (lru_new (K := K) (V := V) n) = n;
  cap_put {K V} `{EqDecision K} (k : K) (v : V) c : lru_cap (lru_put k v c) = lru_cap c;
  cap_pop {K V} `{EqDecision K} (k : K) (c : C K V) : lru_cap (lru_pop k c) = lru_cap c;
  cap_clear {K V} (c : C K V) : lru_cap (lru_clear c) = lru_cap c;
  len_new {K V} n : lru_len (lru_new (K := K) (V := V) n) = 0;
  len_clear {K V} (c : C K V) : lru_len (lru_clear c) = 0;
  len_put {K V} `{EqDecision K} (k : K) (v : V) c :
    0 < lru_cap c → lru_len c ≤ lru_cap c → lru_len (lru_put k v c) ≤ lru_cap c;
  len_pop {K V} `{EqDecision K} (k : K) (c : C K V) : lru_len (lru_pop k c) ≤ lru_len c;
  iter_peek {K V} `{EqDecision K} (c : C K V) k :
    k ∈ (lru_iter c).*1 ↔ is_Some (lru_peek k c);
}.

Module ListLru.

(** most recently used entry first *)
Record t (K V : Type) := { cap : nat; items : list (K * V) }.
Arguments cap {K V} _.
Arguments items {K V} _.

Section Ops.
Context {K V : Type} `{EqDecision K}.

Definition without (k : K) (l : list (K * V)) : list (K * V) := filter (λ e, e.1 ≠ k) l.
Fixpoint find (k : K) (l : list (K * V)) : option V :=
  match l with
  | [] => None
  | (k', v) :: l => if decide (k' = k) then Some v else find k l
  end.
Definition put (k : K) (v : V) (c : t K V) : t K V :=
  {| cap := cap c; items := take (cap c) ((k, v) :: without k (items c)) |}.

Lemma find_without k k' l :
  find k' (without k l) = if decide (k = k') then None else find k' l.
Proof.
  induction l as [|[x v] l IH]; simpl; [by case_decide|].
  unfold without in *. rewrite filter_cons; simpl.
  destruct (decide (x = k)) as [->|Hx].
  - rewrite decide_False by tauto. rewrite IH. repeat case_decide; congruence.
  - rewrite decide_True by done. simpl. rewrite IH. repeat case_decide; congruence.
Qed.

Lemma find_take n k l v : find k (take n l) = Some v → find k l = Some v.
Proof.
  revert n. induction l as [|[x w] l IH]; intros [|n]; simpl; try done.
  case_decide; [done|apply IH].
Qed.

Lemma find_elem k l : k ∈ l.*1 ↔ is_Some (find k l).
Proof.
  induction l as [|[x w] l IH]; simpl.
  - split; [by intros ?%not_elem_of_nil|by intros []].
  - rewrite elem_of_cons, IH. case_decide; naive_solver.
Qed.
End Ops.

#[global] Instance ops : LruOps t := {
  lru_new K V n := {| cap := n; items := [] |};
  lru_put K V _ k v c := put k v c;
  lru_peek K V _ k c := find k (items c);
  lru_pop K V _ k c := {| cap := cap c; items := without k (items c) |};
  lru_clear K V c := {| cap := cap c; items := [] |};
  lru_len K V c := length (items c);
  lru_cap K V c := cap c;
  lru_iter K V c := items c;
}.

#[global] Instance laws : LruLaws t.
Proof.
  split; simpl; try done.
  - intros K V ? k v [[|n] l] Hc; simpl in *; [lia|]. by rewrite decide_True.
  - intros K V ? k k' v v' [[|n] l] Hk; simpl; [done|].
    rewrite decide_False by done. intros Hf%find_take. rewrite find_without in Hf.
    by rewrite decide_False in Hf.
  - intros K V ? k k' v [[|n] l] Hk Hlt; simpl in *; [lia|].
    rewrite decide_False by done. rewrite take_ge; [by rewrite find_without, decide_False|].
    unfold without. pose proof (length_filter (λ e : K * V, e.1 ≠ k) l). lia.
  - intros. apply find_without.
  - intros K V ? k v [n l] Hc Hl. simpl in *. rewrite length_take. lia.
  - intros K V ? k [n l]. apply length_filter.
  - intros K V ? [n l] k. apply find_elem.
Qed.
End ListLru.
