(* ===== verification/LocalCache.v ===== *)
(** * The local query cache (src/cache.rs)

    [FieldQueryCache]: parameters are interned to indices in one table per
    type, rows are kept in an LRU cache under a scope and a tuple of indices,
    and a scope is emptied when its generation changes.  The reference is a
    map from scopes and parameter keys to rows that forgets nothing else. *)
From S2P Require Import Prelude Model Lru.

Definition MAX_LOCAL_IDX : N := 100000.

Inductive EnumSizeIndex :=
| Idx1 (i0 : N)
| Idx2 (i0 i1 : N)
| Idx3 (i0 i1 i2 : N)
| Idx4 (i0 i1 i2 i3 : N)
| Idx5 (i0 i1 i2 i3 i4 : N)
| Idx6 (i0 i1 i2 i3 i4 i5 : N).
#[export] Instance enum_size_index_eq_dec : EqDecision EnumSizeIndex.
Proof. solve_decision. Defined.

Record LocalCacheKey := { scope_hash : N; idxs : EnumSizeIndex }.
#[export] Instance local_cache_key_eq_dec : EqDecision LocalCacheKey.
Proof. solve_decision. Defined.

(** [CacheAble] of a cache type, for parameters [P] and results [T]; a call
    passes a list of N parameters. *)
Class CacheAble (Cache P T : Type) := {
  prepare_generation : N → N → Cache → Cache;
  save_scoped : N → list P → T → Cache → Cache;
  fetch_scoped : N → list P → Cache → option T;
}.
(** the provided methods [save] and [fetch] *)
Definition save {Cache P T} `{CacheAble Cache P T} (params : list P) (result : T) (c : Cache)
  : Cache := save_scoped 0 params result c.
Definition fetch {Cache P T} `{CacheAble Cache P T} (params : list P) (c : Cache) : option T :=
  fetch_scoped 0 params c.

Section LocalCache.
Context {C : Type → Type → Type} `{LruOps C}.

Record FieldQueryCache := {
  str_idx : gmap str N;
  i64_idx : gmap Z N;
  ip_idx : gmap IpAddr N;
  biguint_idx : gmap N N;
  bool_idx : gmap bool N;
  float_idx : gmap N N;
  text_idx : gmap str N;
  cache_data : C LocalCacheKey RowData;
  idx_num : N;
  generations : gmap N N;
}.

Definition with_capacity (size : nat) : FieldQueryCache :=
  let size := Nat.max size 1 in
  {| str_idx := ∅; i64_idx := ∅; ip_idx := ∅; biguint_idx := ∅; bool_idx := ∅; float_idx := ∅;
     text_idx := ∅; cache_data := lru_new size; idx_num := 0; generations := ∅ |}.

Definition default_cache : FieldQueryCache := with_capacity 100.

Definition get_idx (c : FieldQueryCache) (param : DataField) : option N :=
  match get_value param with
  | Chars v => str_idx c !! v
  | Int v => i64_idx c !! v
  | Ip v => ip_idx c !! v
  | BigUint v => biguint_idx c !! v
  | Bool v => bool_idx c !! v
  | Float v => float_idx c !! v
  | Symbol v => text_idx c !! v
  | Time v => text_idx c !! display v
  | Hex v => text_idx c !! display v
  | IpNet v => text_idx c !! display v
  | Domain v => text_idx c !! display v
  | Url v => text_idx c !! display v
  | Email v => text_idx c !! display v
  | IdCard v => text_idx c !! display v
  | MobilePhone v => text_idx c !! display v
  | _ => None
  end.

(** the assignment of a fresh index in one of the tables *)
Definition upd_idx (c : FieldQueryCache) (found : option N)
    (insert : N → FieldQueryCache) : option N * FieldQueryCache :=
  match found with
  | Some idx => (Some idx, c)
  | None => let n := (idx_num c + 1)%N in (Some n, insert n)
  end.

Definition up_text_idx (c : FieldQueryCache) (key : str) : option N * FieldQueryCache :=
  upd_idx c (text_idx c !! key) (λ n,
    {| str_idx := str_idx c; i64_idx := i64_idx c; ip_idx := ip_idx c;
       biguint_idx := biguint_idx c; bool_idx := bool_idx c; float_idx := float_idx c;
       text_idx := <[key := n]> (text_idx c); cache_data := cache_data c; idx_num := n;
       generations := generations c |}).

(** the reset at the head of [try_up_idx] *)
Definition reset_full (c : FieldQueryCache) : FieldQueryCache :=
  if (MAX_LOCAL_IDX <=? idx_num c)%N then
    {| str_idx := ∅; i64_idx := ∅; ip_idx := ∅; biguint_idx := ∅; bool_idx := ∅;
       float_idx := ∅; text_idx := ∅; cache_data := lru_clear (cache_data c); idx_num := 0;
       generations := ∅ |}
  else c.

Definition try_up_idx (c : FieldQueryCache) (param : DataField) : option N * FieldQueryCache :=
  let c := reset_full c in
  match get_value param with
  | Chars v => upd_idx c (str_idx c !! v) (λ n,
      {| str_idx := <[v := n]> (str_idx c); i64_idx := i64_idx c; ip_idx := ip_idx c;
         biguint_idx := biguint_idx c; bool_idx := bool_idx c; float_idx := float_idx c;
         text_idx := text_idx c; cache_data := cache_data c; idx_num := n;
         generations := generations c |})
  | Int v => upd_idx c (i64_idx c !! v) (λ n,
      {| str_idx := str_idx c; i64_idx := <[v := n]> (i64_idx c); ip_idx := ip_idx c;
         biguint_idx := biguint_idx c; bool_idx := bool_idx c; float_idx := float_idx c;
         text_idx := text_idx c; cache_data := cache_data c; idx_num := n;
         generations := generations c |})
  | Ip v => upd_idx c (ip_idx c !! v) (λ n,
      {| str_idx := str_idx c; i64_idx := i64_idx c; ip_idx := <[v := n]> (ip_idx c);
         biguint_idx := biguint_idx c; bool_idx := bool_idx c; float_idx := float_idx c;
         text_idx := text_idx c; cache_data := cache_data c; idx_num := n;
         generations := generations c |})
  | BigUint v => upd_idx c (biguint_idx c !! v) (λ n,
      {| str_idx := str_idx c; i64_idx := i64_idx c; ip_idx := ip_idx c;
         biguint_idx := <[v := n]> (biguint_idx c); bool_idx := bool_idx c;
         float_idx := float_idx c; text_idx := text_idx c; cache_data := cache_data c;
         idx_num := n; generations := generations c |})
  | Bool v => upd_idx c (bool_idx c !! v) (λ n,
      {| str_idx := str_idx c; i64_idx := i64_idx c; ip_idx := ip_idx c;
         biguint_idx := biguint_idx c; bool_idx := <[v := n]> (bool_idx c);
         float_idx := float_idx c; text_idx := text_idx c; cache_data := cache_data c;
         idx_num := n; generations := generations c |})
  | Float v => upd_idx c (float_idx c !! v) (λ n,
      {| str_idx := str_idx c; i64_idx := i64_idx c; ip_idx := ip_idx c;
         biguint_idx := biguint_idx c; bool_idx := bool_idx c;
         float_idx := <[v := n]> (float_idx c); text_idx := text_idx c;
         cache_data := cache_data c; idx_num := n; generations := generations c |})
  | Symbol v => up_text_idx c v
  | Time v => up_text_idx c (display v)
  | Hex v => up_text_idx c (display v)
  | IpNet v => up_text_idx c (display v)
  | Domain v => up_text_idx c (display v)
  | Url v => up_text_idx c (display v)
  | Email v => up_text_idx c (display v)
  | IdCard v => up_text_idx c (display v)
  | MobilePhone v => up_text_idx c (display v)
  | _ => (None, c)
  end.

Definition set_data (data : C LocalCacheKey RowData) (c : FieldQueryCache) : FieldQueryCache :=
  {| str_idx := str_idx c; i64_idx := i64_idx c; ip_idx := ip_idx c;
     biguint_idx := biguint_idx c; bool_idx := bool_idx c; float_idx := float_idx c;
     text_idx := text_idx c; cache_data := data; idx_num := idx_num c;
     generations := generations c |}.

Definition set_generation (scope generation : N) (c : FieldQueryCache) : FieldQueryCache :=
  {| str_idx := str_idx c; i64_idx := i64_idx c; ip_idx := ip_idx c;
     biguint_idx := biguint_idx c; bool_idx := bool_idx c; float_idx := float_idx c;
     text_idx := text_idx c; cache_data := cache_data c; idx_num := idx_num c;
     generations := <[scope := generation]> (generations c) |}.

Definition prepare_generation_scoped (scope generation : N) (c : FieldQueryCache)
  : FieldQueryCache :=
  if decide (generations c !! scope = Some generation) then c
  else
    let c := set_generation scope generation c in
    let stale := filter (λ k, scope_hash k = scope) (lru_iter (cache_data c)).*1 in
    set_data (foldl (λ d k, lru_pop k d) (cache_data c) stale) c.

(** the tuple of [Option]s: every parameter is interned, the last state kept *)
Fixpoint up_all (c : FieldQueryCache) (params : list DataField)
  : list (option N) * FieldQueryCache :=
  match params with
  | [] => ([], c)
  | p :: params =>
      let '(i, c) := try_up_idx c p in
      let '(ixs, c) := up_all c params in
      (i :: ixs, c)
  end.

(** the index tuple of the impl for N parameters, all of them present *)
Definition mk_idxs (ixs : list (option N)) : option EnumSizeIndex :=
  match ixs with
  | [Some i0] => Some (Idx1 i0)
  | [Some i0; Some i1] => Some (Idx2 i0 i1)
  | [Some i0; Some i1; Some i2] => Some (Idx3 i0 i1 i2)
  | [Some i0; Some i1; Some i2; Some i3] => Some (Idx4 i0 i1 i2 i3)
  | [Some i0; Some i1; Some i2; Some i3; Some i4] => Some (Idx5 i0 i1 i2 i3 i4)
  | [Some i0; Some i1; Some i2; Some i3; Some i4; Some i5] => Some (Idx6 i0 i1 i2 i3 i4 i5)
  | _ => None
  end.

#[export] Instance field_query_cache : CacheAble FieldQueryCache DataField RowData := {
  prepare_generation := prepare_generation_scoped;
  save_scoped scope params result c :=
    let '(ixs, c) := up_all c params in
    match mk_idxs ixs with
    | Some idxs => set_data (lru_put {| scope_hash := scope; idxs := idxs |} result (cache_data c)) c
    | None => c
    end;
  fetch_scoped scope params c :=
    match mk_idxs (get_idx c <$> params) with
    | Some idxs => lru_peek {| scope_hash := scope; idxs := idxs |} (cache_data c)
    | None => None
    end;
}.
End LocalCache.
Arguments FieldQueryCache C : clear implicits.

(** ** Reference *)

(** what a parameter is interned as: its type's table and its key there *)
Inductive IdxKey :=
| KStr (s : str) | KInt (z : Z) | KIp (a : IpAddr) | KBig (n : N) | KBool (b : bool)
| KFloat (bits : N) | KText (s : str).
#[export] Instance idxkey_eq_dec : EqDecision IdxKey.
Proof. solve_decision. Defined.
#[export] Instance idxkey_countable : Countable IdxKey.
Proof.
  refine (inj_countable'
    (λ k, match k with
          | KStr s => inl (inl s) | KInt z => inl (inr (inl z)) | KIp a => inl (inr (inr a))
          | KBig n => inr (inl (inl n)) | KBool b => inr (inl (inr b))
          | KFloat n => inr (inr (inl n)) | KText s => inr (inr (inr s)) end)
    (λ x, match x with
          | inl (inl s) => KStr s | inl (inr (inl z)) => KInt z | inl (inr (inr a)) => KIp a
          | inr (inl (inl n)) => KBig n | inr (inl (inr b)) => KBool b
          | inr (inr (inl n)) => KFloat n | inr (inr (inr s)) => KText s end) _).
  by intros [].
Defined.

Definition key_of (p : DataField) : option IdxKey :=
  match get_value p with
  | Chars v => Some (KStr v)
  | Int v => Some (KInt v)
  | Ip v => Some (KIp v)
  | BigUint v => Some (KBig v)
  | Bool v => Some (KBool v)
  | Float v => Some (KFloat v)
  | Symbol v => Some (KText v)
  | Time v | Hex v | IpNet v | Domain v | Url v | Email v | IdCard v | MobilePhone v =>
      Some (KText (display v))
  | Null | Ignore _ | Obj _ | Array _ => None
  end.

Definition keys_of (params : list DataField) : option (list IdxKey) :=
  if bool_decide (1 ≤ length params ≤ 6) then mapM key_of params else None.

(** rows under a scope and the parameters' keys, and the scopes' generations *)
Record Spec := { rows : gmap (N * list IdxKey) RowData; gens : gmap N N }.

Definition spec_empty : Spec := {| rows := ∅; gens := ∅ |}.
Definition spec_save (scope : N) (params : list DataField) (r : RowData) (s : Spec) : Spec :=
  match keys_of params with
  | Some ks => {| rows := <[(scope, ks) := r]> (rows s); gens := gens s |}
  | None => s
  end.
Definition spec_prepare (scope g : N) (s : Spec) : Spec :=
  if decide (gens s !! scope = Some g) then s
  else {| rows := filter (λ e, e.1.1 ≠ scope) (rows s); gens := <[scope := g]> (gens s) |}.
Definition spec_fetch (scope : N) (params : list DataField) (s : Spec) : option RowData :=
  ks ← keys_of params; rows s !! (scope, ks).

Inductive Op :=
| Prepare (scope generation : N)
| Save (scope : N) (params : list DataField) (result : RowData).

Definition spec_op (s : Spec) (o : Op) : Spec :=
  match o with Prepare sc g => spec_prepare sc g s | Save sc ps r => spec_save sc ps r s end.

Section Facts.
Context {C : Type → Type → Type} `{LruLaws C}.
Implicit Types (c : FieldQueryCache C).

Definition op (c : FieldQueryCache C) (o : Op) : FieldQueryCache C :=
  match o with Prepare sc g => prepare_generation sc g c | Save sc ps r => save_scoped sc ps r c end.

(** No index table is reset while the parameters after the first one are
    interned. *)
Fixpoint stays_below c (params : list DataField) : bool :=
  match params with
  | [] => true
  | p :: params => (idx_num c <? MAX_LOCAL_IDX)%N && stays_below (try_up_idx c p).2 params
  end.
Definition smooth_save c (params : list DataField) : bool :=
  match params with [] => true | p :: params => stays_below (try_up_idx c p).2 params end.
Definition smooth c (o : Op) : bool :=
  match o with Prepare _ _ => true | Save _ ps _ => smooth_save c ps end.
Fixpoint smooth_run c (ops : list Op) : bool :=
  match ops with [] => true | o :: ops => smooth c o && smooth_run (op c o) ops end.

(** *** Keys *)

Definition lookup_key c (k : IdxKey) : option N :=
  match k with
  | KStr s => str_idx c !! s
  | KInt z => i64_idx c !! z
  | KIp a => ip_idx c !! a
  | KBig n => biguint_idx c !! n
  | KBool b => bool_idx c !! b
  | KFloat n => float_idx c !! n
  | KText s => text_idx c !! s
  end.

Lemma get_idx_key c p : get_idx c p = key_of p ≫= lookup_key c.
Proof. unfold get_idx, key_of. by destruct (get_value p). Qed.

(** What interning one parameter does, after the reset: nothing, or one fresh
    key with the next index. *)
Definition interned c (k : IdxKey) c' : Prop :=
  idx_num c' = (idx_num c + 1)%N ∧ cache_data c' = cache_data c
  ∧ generations c' = generations c
  ∧ ∀ k', lookup_key c' k' = if decide (k = k') then Some (idx_num c + 1)%N else lookup_key c k'.

Lemma try_up_idx_spec c p :
  let c1 := reset_full c in
  match key_of p with
  | None => try_up_idx c p = (None, c1)
  | Some k =>
      match lookup_key c1 k with
      | Some i => try_up_idx c p = (Some i, c1)
      | None => ∃ c', try_up_idx c p = (Some (idx_num c1 + 1)%N, c') ∧ interned c1 k c'
      end
  end.
Proof.
  intros c1. unfold try_up_idx. fold c1. unfold up_text_idx, upd_idx, key_of.
  destruct (get_value p); try done; cbn [lookup_key];
    match goal with |- context [?m !! ?k] => destruct (m !! k) eqn:Hl end; try done;
    (eexists; split; [reflexivity|]; split_and!; try done; cbn;
     intros []; cbn; try done;
     match goal with |- <[?k := _]> _ !! ?k' = _ => destruct (decide (k = k')) as [->|] end;
     rewrite ?lookup_insert_eq, ?lookup_insert_ne by done;
     repeat case_decide; congruence).
Qed.

(** *** Index tuples *)

Definition idx_list (e : EnumSizeIndex) : list N :=
  match e with
  | Idx1 a => [a]
  | Idx2 a b => [a; b]
  | Idx3 a b d => [a; b; d]
  | Idx4 a b d e => [a; b; d; e]
  | Idx5 a b d e f => [a; b; d; e; f]
  | Idx6 a b d e f g => [a; b; d; e; f; g]
  end.

Lemma mk_idxs_list l e : mk_idxs l = Some e ↔ l = Some <$> idx_list e.
Proof.
  split; [|intros ->; by destruct e].
  intros Hm. unfold mk_idxs in Hm. repeat case_match; by simplify_eq.
Qed.

Lemma idx_list_inj e1 e2 : idx_list e1 = idx_list e2 → e1 = e2.
Proof. destruct e1, e2; intros Heq; by simplify_eq/=. Qed.

Lemma mk_idxs_Some (ixs : list N) :
  1 ≤ length ixs ≤ 6 → ∃ e, mk_idxs (Some <$> ixs) = Some e.
Proof.
  intros Hl.
  destruct ixs as [|a [|b [|d [|e [|f [|g [|]]]]]]]; simpl in *; try lia; by eexists.
Qed.

(** what the cache holds for a scope and keys *)
Definition cached c (scope : N) (ks : list IdxKey) : option RowData :=
  e ← mk_idxs (lookup_key c <$> ks);
  lru_peek {| scope_hash := scope; idxs := e |} (cache_data c).

Lemma cached_Some c scope ks r :
  cached c scope ks = Some r ↔
  ∃ e, lookup_key c <$> ks = Some <$> idx_list e
     ∧ lru_peek {| scope_hash := scope; idxs := e |} (cache_data c) = Some r.
Proof.
  unfold cached. split.
  - destruct (mk_idxs _) as [e|] eqn:He; simpl; [|done]. intros Hp.
    exists e. split; [|done]. by apply mk_idxs_list.
  - intros (e & He & Hp). apply mk_idxs_list in He as ->. done.
Qed.

Lemma get_idx_keys c params ks :
  mapM key_of params = Some ks → get_idx c <$> params = lookup_key c <$> ks.
Proof.
  intros Hk. apply mapM_Some in Hk. induction Hk as [|p k ps ks Hp _ IH]; [done|].
  by rewrite !fmap_cons, get_idx_key, Hp, IH.
Qed.

Lemma fetch_scoped_cached c scope params :
  fetch_scoped scope params c = keys_of params ≫= cached c scope.
Proof.
  cbn [fetch_scoped field_query_cache]. unfold keys_of.
  case_bool_decide as Hlen; simpl.
  - destruct (mapM key_of params) as [ks|] eqn:Hk; simpl.
    + unfold cached. rewrite (get_idx_keys _ _ _ Hk). by destruct (mk_idxs _).
    + apply mapM_None in Hk. destruct (mk_idxs _) as [e|] eqn:He; [|done].
      apply mk_idxs_list in He. apply Exists_exists in Hk as (p & Hp & Hk).
      apply (list_elem_of_fmap_2 (get_idx c)) in Hp. rewrite get_idx_key, Hk, He in Hp. simpl in Hp.
      by apply list_elem_of_fmap in Hp as (? & ? & _).
  - destruct (mk_idxs _) as [e|] eqn:He; [|done]. apply mk_idxs_list in He.
    apply (f_equal length) in He. rewrite !length_fmap in He.
    destruct e; simpl in He; lia.
Qed.

(** *** Well-formed caches *)

Record wf c : Prop := {
  wf_inj k1 k2 i : lookup_key c k1 = Some i → lookup_key c k2 = Some i → k1 = k2;
  wf_idx k i : lookup_key c k = Some i → (i ≤ idx_num c)%N;
  wf_data key i : is_Some (lru_peek key (cache_data c)) → i ∈ idx_list (idxs key) →
                  (i ≤ idx_num c)%N;
  wf_num : (idx_num c ≤ MAX_LOCAL_IDX)%N;
  wf_cap : 0 < lru_cap (cache_data c) ∧ lru_len (cache_data c) ≤ lru_cap (cache_data c);
}.

Lemma wf_with_capacity n : wf (with_capacity n).
Proof.
  assert (∀ k, lookup_key (with_capacity (C := C) n) k = None) as Hn
    by (intros []; apply lookup_empty).
  split; simpl.
  - intros k1 k2 i Hk. by rewrite Hn in Hk.
  - intros k i Hk. by rewrite Hn in Hk.
  - intros key i []. by rewrite peek_new in *.
  - done.
  - rewrite cap_new, len_new. lia.
Qed.

Lemma reset_full_spec c :
  wf c →
  (reset_full c = c ∧ (idx_num c < MAX_LOCAL_IDX)%N)
  ∨ (idx_num (reset_full c) = 0%N ∧ (∀ k, lookup_key (reset_full c) k = None)
     ∧ cache_data (reset_full c) = lru_clear (cache_data c) ∧ generations (reset_full c) = ∅).
Proof.
  intros Hwf. unfold reset_full. destruct (MAX_LOCAL_IDX <=? idx_num c)%N eqn:Hm; bool_guard.
  - right. split_and!; try done. intros []; apply lookup_empty.
  - by left.
Qed.

Lemma wf_reset_full c :
  wf c → wf (reset_full c) ∧ (idx_num (reset_full c) < MAX_LOCAL_IDX)%N.
Proof.
  intros Hwf. destruct (reset_full_spec c Hwf) as [[-> Hlt]|(Hn & Hk & Hd & Hg)]; [done|].
  split; [|rewrite Hn; unfold MAX_LOCAL_IDX; lia]. split.
  - intros k1 k2 i H1. by rewrite Hk in H1.
  - intros k i H1. by rewrite Hk in H1.
  - intros key i []. rewrite Hd, peek_clear in *. done.
  - rewrite Hn. unfold MAX_LOCAL_IDX. lia.
  - rewrite Hd, cap_clear, len_clear. destruct (wf_cap c Hwf). lia.
Qed.

Lemma wf_interned c k c' :
  wf c → (idx_num c < MAX_LOCAL_IDX)%N → lookup_key c k = None → interned c k c' → wf c'.
Proof.
  intros Hwf Hlt Hk (Hn & Hd & Hg & Hl). split.
  - intros k1 k2 i Hk1 Hk2. rewrite Hl in Hk1, Hk2.
    destruct (decide (k = k1)) as [<-|], (decide (k = k2)) as [<-|]; simplify_eq; try done.
    + apply (wf_idx c Hwf) in Hk2. lia.
    + apply (wf_idx c Hwf) in Hk1. lia.
    + by eapply (wf_inj c Hwf).
  - intros k1 i Hk1. rewrite Hl in Hk1. case_decide; simplify_eq; [lia|].
    apply (wf_idx c Hwf) in Hk1. lia.
  - intros key i Hp Hi. rewrite Hd in Hp. pose proof (wf_data c Hwf key i Hp Hi). lia.
  - rewrite Hn. lia.
  - rewrite Hd. apply (wf_cap c Hwf).
Qed.

(** Interning one parameter below the limit extends the tables. *)
Definition extends c c' : Prop :=
  wf c' ∧ cache_data c' = cache_data c ∧ generations c' = generations c
  ∧ (idx_num c ≤ idx_num c')%N
  ∧ (∀ k i, lookup_key c k = Some i → lookup_key c' k = Some i)
  ∧ (∀ k i, lookup_key c' k = Some i → lookup_key c k = Some i ∨ (idx_num c < i)%N).

Lemma extends_refl c : wf c → extends c c.
Proof. intros Hwf. split_and!; auto; lia. Qed.

Lemma extends_trans c1 c2 c3 : extends c1 c2 → extends c2 c3 → extends c1 c3.
Proof.
  intros (W2 & D2 & G2 & N2 & U2 & L2) (W3 & D3 & G3 & N3 & U3 & L3).
  split_and!; [done|congruence|congruence|lia|auto|].
  intros k i [Hk|Hi]%L3; [|right; lia]. by apply L2.
Qed.

Lemma try_up_idx_extends c p :
  wf c → extends (reset_full c) (try_up_idx c p).2
       ∧ (try_up_idx c p).1 = key_of p ≫= lookup_key (try_up_idx c p).2.
Proof.
  intros Hwf. destruct (wf_reset_full c Hwf) as [Hwf1 Hlt1].
  pose proof (try_up_idx_spec c p) as Hs. cbv zeta in Hs.
  destruct (key_of p) as [k|]; simpl; [|rewrite Hs; split; [by apply extends_refl|done]].
  destruct (lookup_key (reset_full c) k) as [i|] eqn:Hk.
  - rewrite Hs. simpl. split; [by apply extends_refl|done].
  - destruct Hs as (c' & -> & Hi). simpl. pose proof Hi as (Hn & Hd & Hg & Hl). split.
    + split_and!; [by eapply wf_interned|done|done|lia| |].
      * intros k' i Hk'. rewrite Hl. case_decide; [congruence|done].
      * intros k' i Hk'. rewrite Hl in Hk'. case_decide; [right|by left]. simplify_eq. lia.
    + rewrite Hl. by rewrite decide_True.
Qed.

Lemma reset_full_below c : (idx_num c < MAX_LOCAL_IDX)%N → reset_full c = c.
Proof. intros Hlt. unfold reset_full. apply N.leb_gt in Hlt. by rewrite Hlt. Qed.

Lemma lookup_agree c c' k i : extends c c' → lookup_key c k = Some i → lookup_key c' k = Some i.
Proof. intros (_ & _ & _ & _ & Hu & _). apply Hu. Qed.

Lemma up_all_below c params :
  wf c → stays_below c params = true →
  extends c (up_all c params).2
  ∧ (up_all c params).1 = (λ p, key_of p ≫= lookup_key (up_all c params).2) <$> params.
Proof.
  revert c. induction params as [|p params IH]; intros c Hwf Hb; simpl in *.
  { split; [by apply extends_refl|done]. }
  apply andb_prop in Hb as [Hlt%N.ltb_lt Hb].
  destruct (try_up_idx_extends c p Hwf) as [He Hi]. rewrite reset_full_below in He by done.
  destruct (try_up_idx c p) as [i c1] eqn:Ht. simpl in *.
  destruct (IH c1 ltac:(apply He) Hb) as [He2 Hi2].
  destruct (up_all c1 params) as [ixs c2] eqn:Hu. simpl in *.
  split; [by eapply extends_trans|]. rewrite Hi2, Hi. f_equal.
  destruct (key_of p) as [k|] eqn:Hk; simpl in *; [|done].
  (* the index of [p] is found, and stays *)
  pose proof (try_up_idx_spec c p) as Hs. cbv zeta in Hs. rewrite Hk, Ht in Hs.
  rewrite reset_full_below in Hs by done.
  assert (is_Some i) as [j Hj].
  { destruct (lookup_key c k); [by simplify_eq|]. destruct Hs as (? & Hs & _). by simplify_eq. }
  rewrite Hj in Hi. rewrite <-Hi. symmetry. by eapply lookup_agree.
Qed.

Lemma try_up_idx_Some c p k : key_of p = Some k → is_Some (try_up_idx c p).1.
Proof.
  intros Hk. pose proof (try_up_idx_spec c p) as Hs. cbv zeta in Hs. rewrite Hk in Hs.
  destruct (lookup_key _ k); [by rewrite Hs; eexists|].
  destruct Hs as (c' & -> & _). by eexists.
Qed.

Lemma up_all_Some c params ks :
  mapM key_of params = Some ks → ∃ ns, (up_all c params).1 = Some <$> ns.
Proof.
  intros Hk. apply mapM_Some in Hk. revert c.
  induction Hk as [|p k ps ks Hp _ IH]; intros c; [by exists []|]. cbn [up_all].
  destruct (try_up_idx_Some c p k Hp) as [n Hn]. destruct (try_up_idx c p) as [i c1].
  destruct (IH c1) as [ns Hns]. destruct (up_all c1 ps) as [ixs c2]. simpl in *. subst.
  by exists (n :: ns).
Qed.

Lemma up_all_smooth c params :
  wf c → params ≠ [] → smooth_save c params = true →
  extends (reset_full c) (up_all c params).2
  ∧ (up_all c params).1 = get_idx (up_all c params).2 <$> params.
Proof.
  intros Hwf Hne Hs. destruct params as [|p params]; [done|]. cbn [up_all smooth_save] in *.
  destruct (try_up_idx_extends c p Hwf) as [He Hi].
  pose proof (try_up_idx_Some c p) as Hsome.
  destruct (try_up_idx c p) as [i c1] eqn:Ht. simpl in *.
  destruct (up_all_below c1 params ltac:(apply He) Hs) as [He2 Hi2].
  destruct (up_all c1 params) as [ixs c2] eqn:Hu. simpl in *.
  split; [by eapply extends_trans|]. rewrite get_idx_key, Hi2. f_equal.
  - destruct (key_of p) as [k|]; simpl in *; [|done].
    destruct (Hsome k eq_refl) as [n ->]. symmetry. by eapply lookup_agree.
  - apply list_fmap_ext. intros j q _. by rewrite get_idx_key.
Qed.

(** *** Refinement of the reference *)

Definition refines c (s : Spec) : Prop :=
  wf c
  ∧ (∀ scope ks r, cached c scope ks = Some r → rows s !! (scope, ks) = Some r)
  ∧ generations c ⊆ gens s.

Lemma idx_list_nonempty e : ∃ i l, idx_list e = i :: l.
Proof. destruct e; by eexists _, _. Qed.

Lemma refines_reset c s : refines c s → refines (reset_full c) s.
Proof.
  intros (Hwf & Hr & Hg). destruct (reset_full_spec c Hwf) as [[-> _]|(Hn & Hk & Hd & Hgen)]; [done|].
  split_and!; [by apply wf_reset_full| |rewrite Hgen; apply map_empty_subseteq].
  intros scope ks r (e & He & _)%cached_Some. destruct (idx_list_nonempty e) as (i & l & Hl).
  rewrite Hl in He. destruct ks as [|k ks]; [done|]. rewrite fmap_cons, Hk in He. done.
Qed.

Lemma refines_extends c c' s : wf c → refines c s → extends c c' → refines c' s.
Proof.
  intros Hwf (_ & Hr & Hg) (Hwf' & Hd & Hgen & _ & _ & Hl).
  split_and!; [done| |by rewrite Hgen]. intros scope ks r (e & He & Hp)%cached_Some.
  apply Hr, cached_Some. exists e. rewrite Hd in Hp. split; [|done].
  assert (∀ i, i ∈ idx_list e → (i ≤ idx_num c)%N) as Hle
    by (intros i Hi; eapply (wf_data c Hwf); [by eexists|done]).
  revert He Hle. generalize (idx_list e). clear Hp Hr. induction ks as [|k ks IH];
    intros [|i l] He Hle; try done. rewrite !fmap_cons in He. rewrite !fmap_cons. injection He as Hki He.
  f_equal; [|apply IH; [done|]; intros j Hj; apply Hle; by right].
  destruct (Hl _ _ Hki) as [->|Hgt]; [done|].
  assert (i ≤ idx_num c)%N by (apply Hle; left). lia.
Qed.

Lemma lookup_set_data d c k : lookup_key (set_data d c) k = lookup_key c k.
Proof. by destruct k. Qed.

Lemma cached_set_data d c scope ks r :
  cached (set_data d c) scope ks = Some r ↔
  ∃ e, lookup_key c <$> ks = Some <$> idx_list e
     ∧ lru_peek {| scope_hash := scope; idxs := e |} d = Some r.
Proof.
  rewrite cached_Some.
  assert (lookup_key (set_data d c) <$> ks = lookup_key c <$> ks) as ->; [|done].
  apply list_fmap_ext. intros. apply lookup_set_data.
Qed.

Lemma wf_set_data d c :
  wf c → 0 < lru_cap d ∧ lru_len d ≤ lru_cap d →
  (∀ key i, is_Some (lru_peek key d) → i ∈ idx_list (idxs key) → (i ≤ idx_num c)%N) →
  wf (set_data d c).
Proof.
  intros Hwf Hcap Hd. split; simpl; [|..|apply Hwf|done].
  - intros k1 k2 i. rewrite !lookup_set_data. apply (wf_inj c Hwf).
  - intros k i. rewrite lookup_set_data. apply (wf_idx c Hwf).
  - exact Hd.
Qed.

Lemma lookups_inj c (ks1 ks2 : list IdxKey) (l : list N) :
  wf c → lookup_key c <$> ks1 = Some <$> l → lookup_key c <$> ks2 = Some <$> l → ks1 = ks2.
Proof.
  intros Hwf. revert ks2 l. induction ks1 as [|k1 ks1 IH]; intros [|k2 ks2] [|i l] H1 H2; try done.
  rewrite fmap_cons in H1, H2. injection H1 as Hk1 H1. injection H2 as Hk2 H2.
  f_equal; [by eapply (wf_inj c Hwf)|by eapply IH].
Qed.

Lemma refines_put c s scope ks e r :
  refines c s → lookup_key c <$> ks = Some <$> idx_list e →
  refines (set_data (lru_put {| scope_hash := scope; idxs := e |} r (cache_data c)) c)
    {| rows := <[(scope, ks) := r]> (rows s); gens := gens s |}.
Proof.
  intros (Hwf & Hr & Hg) He. pose proof (wf_cap c Hwf) as [Hcap Hlen]. split_and!; [|..|done].
  - apply wf_set_data; [done|rewrite cap_put; split; [done|by apply len_put]|].
    intros key i [r' Hp] Hi.
    destruct (decide ({| scope_hash := scope; idxs := e |} = key)) as [<-|Hne].
    + apply (list_elem_of_fmap_2 Some) in Hi. simpl in Hi. rewrite <-He in Hi.
      apply list_elem_of_fmap in Hi as (k & Hk & _). by eapply (wf_idx c Hwf).
    + apply peek_put_old in Hp; [|done]. eapply (wf_data c Hwf); [by eexists|done].
  - intros scope' ks' r' (e' & He' & Hp)%cached_set_data. simpl.
    destruct (decide ({| scope_hash := scope; idxs := e |} = {| scope_hash := scope'; idxs := e' |}))
      as [[= -> ->]|Hne].
    + rewrite peek_put in Hp by done. simplify_eq.
      rewrite (lookups_inj c ks' ks _ Hwf He' He). apply lookup_insert_eq.
    + apply peek_put_old in Hp; [|done].
      assert (rows s !! (scope', ks') = Some r') as Hold by (apply Hr, cached_Some; eauto).
      rewrite lookup_insert_ne; [done|]. intros [= -> ->]. apply Hne. f_equal.
      apply idx_list_inj, (inj (fmap Some)). congruence.
Qed.

Lemma refines_save c s scope params r :
  refines c s → smooth_save c params = true →
  refines (save_scoped scope params r c) (spec_save scope params r s).
Proof.
  intros Hr Hs. pose proof (refines_reset c s Hr) as Hr0. pose proof Hr as (Hwf & _).
  cbn [save_scoped field_query_cache]. unfold spec_save, keys_of.
  destruct params as [|p params'] eqn:Hp; [done|]. rewrite <-Hp in *.
  destruct (up_all_smooth c params) as [He Hi]; [done|by subst|done|].
  assert (refines (up_all c params).2 s) as Hr1 by (eapply refines_extends; [apply Hr0|done..]).
  pose proof (up_all_Some c params) as Hsome.
  destruct (up_all c params) as [ixs c1] eqn:Hu. simpl in *.
  case_bool_decide as Hlen.
  - destruct (mapM key_of params) as [ks|] eqn:Hk.
    + destruct (Hsome ks eq_refl) as [ns Hns].
      destruct (mk_idxs_Some ns) as [e Hm].
      { apply (f_equal length) in Hi. rewrite Hns, !length_fmap in Hi. by rewrite Hi. }
      rewrite <-Hns in Hm. rewrite Hm. apply refines_put; [done|].
      apply mk_idxs_list in Hm. by rewrite <-Hm, Hi, <-(get_idx_keys _ _ _ Hk).
    + apply mapM_None in Hk. destruct (mk_idxs ixs) as [e|] eqn:Hm; [|done].
      apply mk_idxs_list in Hm. apply Exists_exists in Hk as (q & Hq & Hk).
      apply (list_elem_of_fmap_2 (get_idx c1)) in Hq. rewrite <-Hi, get_idx_key, Hk, Hm in Hq.
      by apply list_elem_of_fmap in Hq as (? & ? & _).
  - destruct (mk_idxs ixs) as [e|] eqn:Hm; [|done]. apply mk_idxs_list in Hm.
    apply (f_equal length) in Hm, Hi. rewrite !length_fmap in *. destruct e; simpl in *; lia.
Qed.

(** *** Generations *)

Lemma peek_pops (stale : list LocalCacheKey) (d : C LocalCacheKey RowData) key :
  lru_peek key (foldl (λ d k, lru_pop k d) d stale)
  = if decide (key ∈ stale) then None else lru_peek key d.
Proof.
  revert d. induction stale as [|k stale IH]; intros d; simpl; [done|].
  rewrite IH, peek_pop. repeat case_decide; set_solver.
Qed.

Lemma pops_cap (stale : list LocalCacheKey) (d : C LocalCacheKey RowData) :
  lru_cap (foldl (λ d k, lru_pop k d) d stale) = lru_cap d
  ∧ lru_len (foldl (λ d k, lru_pop k d) d stale) ≤ lru_len d.
Proof.
  revert d. induction stale as [|k stale IH]; intros d; simpl; [done|].
  destruct (IH (lru_pop k d)) as [-> Hl]. rewrite cap_pop. split; [done|].
  etransitivity; [done|apply len_pop].
Qed.

Lemma prepare_spec c scope g :
  let c' := prepare_generation scope g c in
  (∀ k, lookup_key c' k = lookup_key c k) ∧ idx_num c' = idx_num c
  ∧ generations c' = <[scope := g]> (generations c)
  ∧ (∀ key, lru_peek key (cache_data c')
            = if decide (scope_hash key = scope ∧ generations c !! scope ≠ Some g) then None
              else lru_peek key (cache_data c))
  ∧ lru_cap (cache_data c') = lru_cap (cache_data c)
  ∧ lru_len (cache_data c') ≤ lru_len (cache_data c).
Proof.
  cbn [prepare_generation field_query_cache]. unfold prepare_generation_scoped.
  cbv zeta. destruct (decide (generations c !! scope = Some g)) as [Hg|Hg].
  - split_and!; try done; [by rewrite insert_id|]. intros key. by rewrite decide_False by tauto.
  - split_and!; try done.
    + intros key. cbn [cache_data set_data set_generation]. rewrite peek_pops.
      destruct (decide (scope_hash key = scope ∧ _)) as [[Hsc _]|Hsc]; case_decide as Hin; try done.
      * destruct (lru_peek key _) eqn:Hp; [|done]. exfalso. apply Hin.
        apply list_elem_of_filter. split; [done|]. apply iter_peek. by eexists.
      * apply list_elem_of_filter in Hin as [? _]. tauto.
    + apply pops_cap.
    + apply pops_cap.
Qed.

Lemma refines_prepare c s scope g :
  refines c s → refines (prepare_generation scope g c) (spec_prepare scope g s).
Proof.
  intros (Hwf & Hr & Hg). destruct (prepare_spec c scope g) as (Hl & Hn & Hgen & Hp & Hcap & Hlen).
  set (c' := prepare_generation scope g c) in *.
  assert (∀ scope' ks r, cached c' scope' ks = Some r →
    cached c scope' ks = Some r ∧ (scope' ≠ scope ∨ generations c !! scope = Some g)) as Hold.
  { intros scope' ks r (e & He & Hpe)%cached_Some. rewrite Hp in Hpe. simpl in Hpe.
    case_decide as Hd; [done|]. split.
    - apply cached_Some. exists e. split; [|done]. rewrite <-He. apply list_fmap_ext. intros.
      symmetry. apply Hl.
    - destruct (decide (scope' = scope)), (decide (generations c !! scope = Some g)); tauto. }
  split_and!.
  - split.
    + intros k1 k2 i. rewrite !Hl. apply (wf_inj c Hwf).
    + intros k i. rewrite Hl, Hn. apply (wf_idx c Hwf).
    + intros key i Hpe Hi. rewrite Hn. rewrite Hp in Hpe. case_decide; [by destruct Hpe|].
      by eapply (wf_data c Hwf).
    + rewrite Hn. apply Hwf.
    + rewrite Hcap. pose proof (wf_cap c Hwf). lia.
  - intros scope' ks r (Hc%Hr & Hsc)%Hold. unfold spec_prepare.
    destruct (decide (gens s !! scope = Some g)) as [Hd|Hd]; [done|].
    simpl. apply map_lookup_filter_Some. split; [done|]. simpl.
    destruct Hsc as [Hsc|Hsc]; [done|]. exfalso. apply Hd. by eapply lookup_weaken.
  - rewrite Hgen. unfold spec_prepare.
    destruct (decide (gens s !! scope = Some g)) as [Hd|Hd]; simpl; [|by apply insert_mono].
    apply insert_subseteq_l; [done|done].
Qed.

Lemma refines_run c s ops :
  refines c s → smooth_run c ops = true → refines (foldl op c ops) (foldl spec_op s ops).
Proof.
  revert c s. induction ops as [|o ops IH]; intros c s Hr Hs; [done|]. simpl in *.
  apply andb_prop in Hs as [Ho Hs]. apply IH; [|done].
  destruct o; [by apply refines_prepare|by apply refines_save].
Qed.

Lemma refines_init n : refines (with_capacity n) spec_empty.
Proof.
  split_and!; [apply wf_with_capacity| |apply map_empty_subseteq].
  intros scope ks r (e & _ & Hp)%cached_Some. simpl in Hp. by rewrite peek_new in Hp.
Qed.

(** *** Size of the index tables *)

Definition table_entries c : N :=
  N.of_nat (size (str_idx c) + size (i64_idx c) + size (ip_idx c) + size (biguint_idx c)
            + size (bool_idx c) + size (float_idx c) + size (text_idx c)).

Definition counted c : Prop :=
  table_entries c = idx_num c ∧ (idx_num c ≤ MAX_LOCAL_IDX)%N
  ∧ 0 < lru_cap (cache_data c) ∧ lru_len (cache_data c) ≤ lru_cap (cache_data c).

Lemma counted_reset c : counted c → counted (reset_full c) ∧ (idx_num (reset_full c) < MAX_LOCAL_IDX)%N.
Proof.
  unfold counted, reset_full. intros (Ht & Hn & Hc & Hl).
  destruct (MAX_LOCAL_IDX <=? idx_num c)%N eqn:Hm; bool_guard; [|by split_and!].
  cbn [idx_num cache_data]. rewrite cap_clear, len_clear. unfold table_entries; simpl.
  rewrite !map_size_empty. unfold MAX_LOCAL_IDX. split_and!; simpl; lia.
Qed.

Lemma counted_try_up c p : counted c → counted (try_up_idx c p).2.
Proof.
  intros Hc. destruct (counted_reset c Hc) as [(Ht & _ & Hl) Hlt]. unfold try_up_idx.
  generalize dependent (reset_full c). intros c1 Ht Hl Hlt. unfold counted.
  assert ((idx_num c1 + 1 ≤ MAX_LOCAL_IDX)%N) as Hle by lia.
  unfold up_text_idx, upd_idx.
  destruct (get_value p); simpl; try (split_and!; [done|lia|apply Hl|apply Hl]);
    match goal with |- context [?m !! ?k] => destruct (m !! k) eqn:Hk end; simpl;
    (split_and!; [|lia|apply Hl|apply Hl]); try done;
    unfold table_entries in *; simpl; rewrite map_size_insert_None by done; lia.
Qed.

Lemma counted_up_all c params : counted c → counted (up_all c params).2.
Proof.
  revert c. induction params as [|p params IH]; intros c Hc; [done|]. cbn [up_all].
  pose proof (counted_try_up c p Hc) as H1. destruct (try_up_idx c p) as [i c1].
  pose proof (IH c1 H1) as H2. by destruct (up_all c1 params) as [ixs c2].
Qed.

Lemma counted_op c o : counted c → counted (op c o).
Proof.
  intros Hc. destruct o as [sc g|sc ps r]; simpl.
  - pose proof (pops_cap (filter (λ k, scope_hash k = sc) (lru_iter (cache_data c)).*1)
      (cache_data c)) as [Hcap Hlen].
    unfold prepare_generation_scoped. case_decide; [done|].
    destruct Hc as (Ht & Hn & Hc & Hl). split_and!; [done|done|simpl|simpl]; rewrite Hcap; lia.
  - pose proof (counted_up_all c ps Hc) as H1. destruct (up_all c ps) as [ixs c1]. simpl in H1.
    destruct (mk_idxs ixs); [|done]. destruct H1 as (Ht & Hn & Hc1 & Hl).
    split_and!; [done|done|simpl..]; rewrite cap_put; [done|by apply len_put].
Qed.

(** *** Properties *)

(** C6. What the local cache returns is what the reference holds: after any
    run of saves and generation changes in which no index table is reset in
    the middle of a save, a hit is the row last saved under that scope for
    parameters with the same keys, in the scope's current generation.  Misses
    are allowed (eviction, resets between saves). *)
Theorem local_cache_refines n ops scope params r :
  smooth_run (with_capacity n) ops = true →
  fetch_scoped scope params (foldl op (with_capacity n) ops) = Some r →
  spec_fetch scope params (foldl spec_op spec_empty ops) = Some r.
Proof.
  intros Hs Hf. destruct (refines_run _ _ ops (refines_init n) Hs) as (_ & Hr & _).
  rewrite fetch_scoped_cached in Hf. unfold spec_fetch.
  destruct (keys_of params) as [ks|]; [|done]. by apply Hr.
Qed.

Lemma fetch_saved c scope params params' r :
  wf c → smooth_save c params = true → is_Some (keys_of params) → keys_of params' = keys_of params →
  fetch_scoped scope params' (save_scoped scope params r c) = Some r.
Proof.
  intros Hwf Hsave [ks Hks] Hks'. assert (params ≠ []) as Hne by (by intros ->).
  destruct (up_all_smooth c params Hwf Hne Hsave) as [He Hi].
  rewrite fetch_scoped_cached, Hks', Hks. simpl. unfold keys_of in Hks.
  case_bool_decide as Hlen; [|done]. cbn [save_scoped field_query_cache].
  destruct (up_all_Some c params ks Hks) as [ns Hns].
  destruct (up_all c params) as [ixs c1]. simpl in *. rewrite Hns in Hi |- *. clear Hns.
  destruct (mk_idxs_Some ns) as [e Hm].
  { apply (f_equal length) in Hi. rewrite !length_fmap in Hi. by rewrite Hi. }
  rewrite Hm. apply cached_set_data. exists e. split.
  - apply mk_idxs_list in Hm. by rewrite <-Hm, Hi, <-(get_idx_keys _ _ _ Hks).
  - apply peek_put. destruct He as (Hwf1 & _). apply (wf_cap _ Hwf1).
Qed.

(** A saved row is found again: right after a save of one to six internable
    parameters, every parameter list with the same keys hits it in that scope. *)
Theorem fetch_after_save n ops scope params params' r :
  smooth_run (with_capacity n) ops = true →
  smooth_save (foldl op (with_capacity n) ops) params = true →
  is_Some (keys_of params) → keys_of params' = keys_of params →
  fetch_scoped scope params' (save_scoped scope params r (foldl op (with_capacity n) ops)) = Some r.
Proof.
  intros Hs Hsave Hks Hks'. destruct (refines_run _ _ ops (refines_init n) Hs) as (Hwf & _).
  by apply fetch_saved.
Qed.

(** A generation change empties exactly its scope: afterwards lookups in
    the scope miss if the generation is new to it, and every other lookup -
    another scope, or the generation already recorded - is unchanged. *)
Theorem prepare_generation_scope c scope g scope' params :
  fetch_scoped scope' params (prepare_generation_scoped scope g c)
  = (if decide (scope' = scope ∧ generations c !! scope ≠ Some g) then None
     else fetch_scoped scope' params c)
  ∧ generations (prepare_generation_scoped scope g c) = <[scope := g]> (generations c).
Proof.
  change (prepare_generation_scoped scope g c) with (prepare_generation scope g c).
  destruct (prepare_spec c scope g) as (Hl & _ & Hg & Hp & _). split; [|done].
  rewrite !fetch_scoped_cached. destruct (keys_of params) as [ks|]; simpl; [|by destruct (decide _)].
  unfold cached. assert (lookup_key (prepare_generation_scoped scope g c) <$> ks = lookup_key c <$> ks) as ->
    by (apply list_fmap_ext; intros; apply Hl).
  destruct (mk_idxs _) as [e|]; simpl; [|by destruct (decide _)].
  etransitivity; [apply Hp|]. simpl. by repeat case_decide.
Qed.

(** Memory stays bounded in every run: the index tables together hold
    exactly [idx_num] entries, never more than 100000, and the rows never
    exceed the LRU capacity. *)
Theorem local_cache_bounded n ops :
  let c := foldl op (with_capacity n) ops in
  table_entries c = idx_num c ∧ (idx_num c ≤ MAX_LOCAL_IDX)%N
  ∧ lru_len (cache_data c) ≤ lru_cap (cache_data c).
Proof.
  assert (∀ c, counted c → counted (foldl op c ops)) as Hrun.
  { induction ops as [|o ops IH]; intros c Hc; [done|]. simpl. apply IH. by apply counted_op. }
  destruct (Hrun (with_capacity n)) as (? & ? & ? & ?); [|done].
  split_and!; simpl; [done|done|rewrite cap_new; lia|rewrite len_new; lia].
Qed.
End Facts.

Lemma local_cache_refines_witness :
  let ops := [Prepare 7 1; Save 7 [from_int [120%N] 1] [from_int [97%N] 10];
              Save 7 [from_int [120%N] 2; from_chars [] [98%N]] []] in
  spec_fetch 7 [from_int [] 1] (foldl spec_op spec_empty ops) = Some [from_int [97%N] 10].
Proof.
  intros ops.
  apply (local_cache_refines (C := ListLru.t) 4 ops); vm_compute; reflexivity.
Defined.

Lemma fetch_after_save_witness :
  fetch_scoped 3 [from_int [121%N] 5]
    (save_scoped 3 [from_int [120%N] 5] [] (foldl op (with_capacity (C := ListLru.t) 1) []))
  = Some [].
Proof.
  apply (fetch_after_save 1 [] 3 [from_int [120%N] 5]); [reflexivity|vm_compute; reflexivity| |].
  - by eexists.
  - vm_compute. reflexivity.
Defined.

Lemma prepare_generation_scope_witness :
  let c := foldl op (with_capacity (C := ListLru.t) 4)
             [Prepare 3 1; Save 3 [from_int [120%N] 5] []; Save 4 [from_int [120%N] 5] []] in
  fetch_scoped 3 [from_int [] 5] c = Some []
  ∧ fetch_scoped 3 [from_int [] 5] (prepare_generation_scoped 3 2 c) = None
  ∧ fetch_scoped 4 [from_int [] 5] (prepare_generation_scoped 3 2 c) = Some [].
Proof.
  intros c. split; [vm_compute; reflexivity|].
  split; refine (eq_trans (proj1 (prepare_generation_scope c 3 2 _ _)) _); vm_compute; reflexivity.
Defined.

Lemma local_cache_bounded_witness :
  let c := foldl op (with_capacity (C := ListLru.t) 1)
             [Save 3 [from_int [120%N] 5] []; Save 4 [from_int [120%N] 6] []] in
  idx_num c = 2%N ∧ lru_len (cache_data c) ≤ 1.
Proof.
  intros c. split; [vm_compute; reflexivity|].
  etransitivity; [apply (local_cache_bounded (C := ListLru.t) 1)|vm_compute; lia].
Defined.

(** ** A reset in the middle of a save *)

Section MidReset.
Context {C : Type → Type → Type} `{LruLaws C}.
Implicit Types (c : FieldQueryCache C).

(** saving under a parameter that cannot be interned only uses up an index *)
Definition use_up (c : FieldQueryCache C) (z : Z) : FieldQueryCache C :=
  save_scoped 0 [field_new DtDefault [] Null; from_int [] z] [] c.

Lemma use_up_spec c z :
  (idx_num c < MAX_LOCAL_IDX)%N → i64_idx c !! z = None →
  idx_num (use_up c z) = (idx_num c + 1)%N
  ∧ i64_idx (use_up c z) = <[z := (idx_num c + 1)%N]> (i64_idx c)
  ∧ cache_data (use_up c z) = cache_data c.
Proof.
  intros Hlt Hz. unfold use_up. cbn [save_scoped field_query_cache up_all].
  unfold try_up_idx. cbn [get_value]. rewrite !(reset_full_below c) by done.
  cbn [get_value from_int]. unfold upd_idx. by rewrite Hz.
Qed.

Lemma try_up_int c z :
  (idx_num c < MAX_LOCAL_IDX)%N → i64_idx c !! z = None →
  ∃ c', try_up_idx c (from_int [] z) = (Some (idx_num c + 1)%N, c')
      ∧ idx_num c' = (idx_num c + 1)%N ∧ cache_data c' = cache_data c.
Proof.
  intros Hlt Hz. unfold try_up_idx. rewrite reset_full_below by done.
  cbn [get_value from_int]. unfold upd_idx. rewrite Hz. by eexists.
Qed.

Lemma try_up_full_int c z :
  (MAX_LOCAL_IDX ≤ idx_num c)%N →
  ∃ c', try_up_idx c (from_int [] z) = (Some 1%N, c')
      ∧ idx_num c' = 1%N ∧ i64_idx c' = {[z := 1%N]} ∧ cache_data c' = lru_clear (cache_data c).
Proof.
  intros Hle. unfold try_up_idx, reset_full. apply N.leb_le in Hle as ->.
  cbn [get_value from_int i64_idx]. unfold upd_idx. rewrite lookup_empty. by eexists.
Qed.

Lemma use_up_run c zs :
  (idx_num c + N.of_nat (length zs) ≤ MAX_LOCAL_IDX)%N → NoDup zs →
  (∀ z, z ∈ zs → i64_idx c !! z = None) →
  let c' := foldl use_up c zs in
  idx_num c' = (idx_num c + N.of_nat (length zs))%N ∧ cache_data c' = cache_data c
  ∧ (∀ i z, zs !! i = Some z → i64_idx c' !! z = Some (idx_num c + N.of_nat i + 1)%N)
  ∧ (∀ z, z ∉ zs → i64_idx c' !! z = i64_idx c !! z).
Proof.
  revert c. induction zs as [|z zs IH]; intros c Hle Hnd Hfresh; simpl in *.
  { split_and!; [lia|done|done|done]. }
  apply NoDup_cons in Hnd as [Hz Hnd].
  destruct (use_up_spec c z) as (Hn & Hi & Hd); [lia|apply Hfresh; left|].
  destruct (IH (use_up c z)) as (Hn' & Hd' & Hin & Hout); [lia|done| |].
  { intros z' Hz'. rewrite Hi, lookup_insert_ne by (by intros ->). apply Hfresh. by right. }
  split_and!; [lia|congruence| |].
  - intros [|i] z' Hz'; simpl in Hz'.
    + injection Hz' as <-. rewrite Hout, Hi, lookup_insert_eq by done. f_equal. lia.
    + rewrite (Hin i z' Hz'). f_equal. lia.
  - intros z' Hz'. apply not_elem_of_cons in Hz' as [Hne Hz'].
    rewrite Hout, Hi by done. by rewrite lookup_insert_ne by congruence.
Qed.

Definition null_save (z : Z) : Op := Save 0 [field_new DtDefault [] Null; from_int [] z] [].

Lemma use_up_ops c zs : foldl op c (null_save <$> zs) = foldl use_up c zs.
Proof. revert c. induction zs as [|z zs IH]; intros c; [done|]. apply IH. Qed.

Lemma keys_null_save s zs : foldl spec_op s (null_save <$> zs) = s.
Proof. induction zs as [|z zs IH]; [done|]. exact IH. Qed.

Lemma seqZ_fresh a n z : z ∈ seqZ a n ↔ (a ≤ z < a + n)%Z.
Proof. apply elem_of_seqZ. Qed.

(** A save of two parameters that fills the index table with the first one
    resets the table before the second; the row is stored under the first
    parameter's old index, and when the table has filled up again another
    parameter owns that index: a lookup that no save ever answered hits. *)
Theorem mid_save_reset_confuses :
  ∃ (ops : list Op) (params : list DataField) (r : RowData),
    fetch_scoped 0 params (foldl op (with_capacity (C := C) 100) ops) = Some r
    ∧ spec_fetch 0 params (foldl spec_op spec_empty ops) = None.
Proof.
  assert (∃ a, a = 99999%Z) as [a Ha0] by eauto. set (zs1 := seqZ 0 a). set (zs2 := seqZ 100001 a).
  set (mixed := Save 0 [from_int [] a; from_int [] 100000] []).
  assert (∃ x, x = 199999%Z) as [x Hx0] by eauto.
  exists ((null_save <$> zs1) ++ [mixed] ++ (null_save <$> zs2)),
    [from_int [] x; from_int [] 100000], [].
  assert (∀ b, N.of_nat (length (seqZ b a)) = 99999%N) as Hlen
    by (intros b; rewrite length_seqZ; lia).
  split.
  - rewrite !foldl_app, !use_up_ops. cbn [foldl].
    destruct (use_up_run (with_capacity (C := C) 100) zs1) as (Hn1 & Hd1 & _ & Hout1).
    { unfold zs1. rewrite Hlen. simpl. unfold MAX_LOCAL_IDX. lia. }
    { apply NoDup_seqZ. }
    { intros z _. apply lookup_empty. }
    assert (length zs1 = length (seqZ 0 a)) as Hl1 by done. rewrite Hl1, Hlen in Hn1.
    change (idx_num (with_capacity (C := C) 100)) with 0%N in Hn1.
    change (i64_idx (with_capacity (C := C) 100)) with (∅ : gmap Z N) in Hout1.
    generalize dependent (foldl use_up (with_capacity (C := C) 100) zs1). intros c1 Hn1 Hd1 Hout1.
    assert (i64_idx c1 !! a = None) as Ha.
    { rewrite Hout1 by (unfold zs1; rewrite seqZ_fresh; lia). apply lookup_empty. }
    (* the save that resets in the middle *)
    remember (op c1 mixed) as c2 eqn:Hc2.
    assert (idx_num c2 = 1%N ∧ i64_idx c2 = {[100000%Z := 1%N]}
            ∧ lru_peek {| scope_hash := 0; idxs := Idx2 100000 1 |} (cache_data c2) = Some []) as (Hn2 & Hi2 & Hp2).
    { rewrite Hc2. unfold mixed, op. cbn [save_scoped field_query_cache up_all].
      destruct (try_up_int c1 a) as (c' & -> & Hn' & Hd'); [by rewrite Hn1|done|].
      destruct (try_up_full_int c' 100000) as (c'' & -> & Hn'' & Hi'' & Hd'');
        [by rewrite Hn', Hn1|].
      rewrite Hn1. cbn [mk_idxs]. split_and!; [exact Hn''|exact Hi''|].
      cbn [cache_data set_data]. apply peek_put.
      rewrite Hd'', cap_clear, Hd', Hd1. cbn [cache_data with_capacity]. rewrite cap_new. lia. }
    clear Hc2.
    destruct (use_up_run c2 zs2) as (_ & Hd3 & Hin3 & Hout3).
    { unfold zs2. by rewrite Hlen, Hn2. }
    { apply NoDup_seqZ. }
    { intros z Hz%seqZ_fresh. rewrite Hi2. apply lookup_singleton_ne. lia. }
    rewrite fetch_scoped_cached. unfold keys_of, cached. rewrite bool_decide_true by (simpl; lia).
    cbn [mapM key_of get_value from_int mbind option_bind mret option_ret fmap list_fmap lookup_key].
    destruct (Z_of_nat_complete 99998) as [i Hi]; [done|].
    rewrite (Hin3 i x); [|unfold zs2; apply lookup_seqZ; lia].
    rewrite Hout3 by (unfold zs2; rewrite seqZ_fresh; lia).
    rewrite Hi2, lookup_singleton_eq, Hn2, Hd3. cbn [mk_idxs mbind option_bind].
    replace (1 + N.of_nat i + 1)%N with 100000%N by lia. exact Hp2.
  - rewrite !foldl_app, !keys_null_save. unfold mixed. rewrite Ha0, Hx0. reflexivity.
Qed.
End MidReset.
