(* ===== verification/Telemetry.v ===== *)
(** * Telemetry (src/telemetry.rs)

    The installed telemetry object and the flag that says whether it does
    anything.  A telemetry object is its identity and its [is_noop] answer;
    the calls made to objects are recorded in a log. *)
From S2P Require Import Prelude.

(** src/loader.rs *)
Inductive ProviderKind := SqliteAuthority | Postgres | Mysql | Redis.
#[export] Instance provider_kind_eq_dec : EqDecision ProviderKind.
Proof. solve_decision. Defined.

(** src/runtime.rs *)
Inductive QueryModeTag := TagMany | TagFirstRow.
#[export] Instance query_mode_tag_eq_dec : EqDecision QueryModeTag.
Proof. solve_decision. Defined.

Inductive CacheLayer := LayerLocal | LayerResult | LayerMetadata.
Inductive CacheOutcome := Hit | Miss.
Inductive ReloadOutcome := Success | Failure.

Inductive TelemetryEvent :=
| CacheTelemetryEvent (layer : CacheLayer) (outcome : CacheOutcome)
    (provider_kind : option ProviderKind)
| ReloadTelemetryEvent (outcome : ReloadOutcome) (provider_kind : ProviderKind)
| QueryTelemetryEvent (provider_kind : ProviderKind) (mode : QueryModeTag) (success : bool)
    (elapsed : N).

Record KnowledgeTelemetry := { tel_id : N; is_noop : bool }.
Definition NoopTelemetry : KnowledgeTelemetry := {| tel_id := 0; is_noop := true |}.

(** the two statics and the calls made so far *)
Record TelemetryState := {
  telemetry_slot : KnowledgeTelemetry;
  telemetry_enabled_flag : bool;
  calls : list (N * TelemetryEvent);
}.

Definition telemetry_init : TelemetryState :=
  {| telemetry_slot := NoopTelemetry; telemetry_enabled_flag := false; calls := [] |}.

Definition telemetry (s : TelemetryState) : KnowledgeTelemetry := telemetry_slot s.
Definition telemetry_enabled (s : TelemetryState) : bool := telemetry_enabled_flag s.

Definition install_telemetry (t : KnowledgeTelemetry) (s : TelemetryState)
  : KnowledgeTelemetry * TelemetryState :=
  (telemetry_slot s,
   {| telemetry_slot := t; telemetry_enabled_flag := negb (is_noop t); calls := calls s |}).

Definition reset_telemetry (s : TelemetryState) : KnowledgeTelemetry * TelemetryState :=
  install_telemetry NoopTelemetry s.

(** [if telemetry_enabled() { telemetry().on_..(event) }] *)
Definition emit (e : TelemetryEvent) (s : TelemetryState) : TelemetryState :=
  if telemetry_enabled s
  then {| telemetry_slot := telemetry_slot s; telemetry_enabled_flag := telemetry_enabled_flag s;
          calls := calls s ++ [(tel_id (telemetry s), e)] |}
  else s.
