(* ===== verification/Runtime.v ===== *)
(** * The knowledge runtime (src/runtime.rs, src/mem/query_util.rs)

    [KnowledgeRuntime]: the registry of named providers with the default slot,
    generations and their published value, the result cache, the Redis result
    cache and the counters; query execution through the result cache.  The
    operations are computations on a [World]: the runtime, the monotonic
    clock, telemetry, the global column-name cache, and what lies outside the
    program.  Locks are taken and released within one call and no thread
    panics while holding one, so a poisoned lock does not occur here. *)
From S2P Require Import Prelude Errors RustStr Model Lru SqlRoute.
From S2P Require Export Telemetry.

Definition DEFAULT_PROVIDER_NAME : str := lit "default".

(** ** Data *)

Abbreviation DatasourceId := str.
Abbreviation Generation := N.

(** durations and instants in nanoseconds *)
Definition from_millis (ms : N) : N := (ms * 1000000)%N.
Definition as_millis (d : N) : N := (d `div` 1000000)%N.

Inductive QueryMode := Many | FirstRow.
Inductive CachePolicy := Bypass | UseGlobal | UseCallScope.

Record QueryRequest := {
  req_sql : str;
  req_params : list QueryParam;
  req_mode : QueryMode;
  req_cache_policy : CachePolicy;
}.

Definition many (sql : str) (params : list QueryParam) (policy : CachePolicy) : QueryRequest :=
  {| req_sql := sql; req_params := params; req_mode := Many; req_cache_policy := policy |}.
Definition first_row (sql : str) (params : list QueryParam) (policy : CachePolicy)
  : QueryRequest :=
  {| req_sql := sql; req_params := params; req_mode := FirstRow; req_cache_policy := policy |}.

Inductive QueryResponse := Rows (rows : list RowData) | Row (row : RowData).

Definition into_rows (r : QueryResponse) : list RowData :=
  match r with Rows rows => rows | Row row => [row] end.
Definition into_row (r : QueryResponse) : RowData :=
  match r with Rows rows => default [] (head rows) | Row row => row end.

Record ResultCacheKey := {
  key_datasource_id : DatasourceId;
  key_generation : Generation;
  query_hash : N;
  params_hash : N;
  key_mode : QueryModeTag;
}.
#[export] Instance result_cache_key_eq_dec : EqDecision ResultCacheKey.
Proof. solve_decision. Defined.

Record ResultCacheConfig := { enabled : bool; capacity : nat; ttl : N }.
Definition result_cache_config_default : ResultCacheConfig :=
  {| enabled := true; capacity := 1024; ttl := from_millis 30000 |}.

Record CachedQueryResponse := { response : QueryResponse; cached_at : N }.

Inductive RedisCmdTag := BfExists | HGet | Get | SetExists.
#[export] Instance redis_cmd_tag_eq_dec : EqDecision RedisCmdTag.
Proof. solve_decision. Defined.

Record RedisCacheKey := {
  redis_generation : N;
  cmd_tag : RedisCmdTag;
  key_hash : N;
  args_hash : N;
}.
#[export] Instance redis_cache_key_eq_dec : EqDecision RedisCacheKey.
Proof. solve_decision. Defined.

Inductive CachedRedisValue := RBool (b : bool) | ROptString (o : option str).

Record CachedRedisEntry := { entry_value : CachedRedisValue; entry_cached_at : N; ttl_ms : N }.

Record MetadataCacheScope := { scope_datasource_id : DatasourceId; scope_generation : Generation }.

Record MetadataCacheKey := {
  meta_datasource_id : DatasourceId;
  meta_generation : Generation;
  meta_query_hash : N;
}.
#[export] Instance metadata_cache_key_eq_dec : EqDecision MetadataCacheKey.
Proof. solve_decision. Defined.

(** the atomic counters of the runtime *)
Inductive Counter :=
| result_cache_hits | result_cache_misses | metadata_cache_hits | metadata_cache_misses
| local_cache_hits | local_cache_misses | reload_successes | reload_failures
| redis_cache_hits | redis_cache_misses.
#[export] Instance counter_eq_dec : EqDecision Counter.
Proof. solve_decision. Defined.
Definition Counters : Type := Counter → N.
(** [fetch_add(1)] *)
Definition bump (k : Counter) (c : Counters) : Counters :=
  λ k', if decide (k' = k) then wrap64 (c k' + 1) else c k'.

(** A provider is an object [P] behind [Arc<dyn ProviderExecutor>]. *)
Record ProviderHandle (P : Type) := {
  executor : P;
  datasource_id : DatasourceId;
  generation : Generation;
  kind : ProviderKind;
}.
Arguments executor {P} _.
Arguments datasource_id {P} _.
Arguments generation {P} _.
Arguments kind {P} _.

Definition hex_pad (w : nat) (n : N) : str :=
  (λ i, hex_digit ((n `div` 16 ^ N.of_nat i) `mod` 16)%N) <$> reverse (seq 0 w).

Definition from_seed `{Hasher} (k : ProviderKind) (seed : str) : DatasourceId :=
  let kind_str := match k with
                  | SqliteAuthority => lit "sqlite"
                  | Postgres => lit "postgres"
                  | Mysql => lit "mysql"
                  | Redis => lit "redis"
                  end in
  kind_str ++ [COLON] ++ hex_pad 16 (stable_hash seed).

Definition query_mode_tag (m : QueryMode) : QueryModeTag :=
  match m with Many => TagMany | FirstRow => TagFirstRow end.

(** ** State *)

Section Runtime.
Context {C : Type → Type → Type} {P E : Type}.

Record KnowledgeRuntime := Build_runtime {
  provider : option (ProviderHandle P);
  named_providers : gmap str (ProviderHandle P);
  named_provider_epoch : N;
  next_generation : N;
  provider_epoch : N;
  current_generation_value : N;
  result_cache_config : ResultCacheConfig;
  result_cache_enabled_flag : bool;
  result_cache_ttl_ms : N;
  result_cache : C ResultCacheKey CachedQueryResponse;
  counters : Counters;
  redis_cache : C RedisCacheKey CachedRedisEntry;
  redis_global_enabled : bool;
}.

Definition set_provider (v : option (ProviderHandle P)) (r : KnowledgeRuntime) : KnowledgeRuntime :=
  {| provider := v; named_providers := named_providers r;
     named_provider_epoch := named_provider_epoch r; next_generation := next_generation r;
     provider_epoch := provider_epoch r; current_generation_value := current_generation_value r;
     result_cache_config := result_cache_config r;
     result_cache_enabled_flag := result_cache_enabled_flag r;
     result_cache_ttl_ms := result_cache_ttl_ms r; result_cache := result_cache r;
     counters := counters r; redis_cache := redis_cache r;
     redis_global_enabled := redis_global_enabled r |}.
Definition set_named_providers (v : gmap str (ProviderHandle P)) (r : KnowledgeRuntime) : KnowledgeRuntime :=
  {| provider := provider r; named_providers := v;
     named_provider_epoch := named_provider_epoch r; next_generation := next_generation r;
     provider_epoch := provider_epoch r; current_generation_value := current_generation_value r;
     result_cache_config := result_cache_config r;
     result_cache_enabled_flag := result_cache_enabled_flag r;
     result_cache_ttl_ms := result_cache_ttl_ms r; result_cache := result_cache r;
     counters := counters r; redis_cache := redis_cache r;
     redis_global_enabled := redis_global_enabled r |}.
Definition set_named_provider_epoch (v : N) (r : KnowledgeRuntime) : KnowledgeRuntime :=
  {| provider := provider r; named_providers := named_providers r; named_provider_epoch := v;
     next_generation := next_generation r; provider_epoch := provider_epoch r;
     current_generation_value := current_generation_value r;
     result_cache_config := result_cache_config r;
     result_cache_enabled_flag := result_cache_enabled_flag r;
     result_cache_ttl_ms := result_cache_ttl_ms r; result_cache := result_cache r;
     counters := counters r; redis_cache := redis_cache r;
     redis_global_enabled := redis_global_enabled r |}.
Definition set_next_generation (v : N) (r : KnowledgeRuntime) : KnowledgeRuntime :=
  {| provider := provider r; named_providers := named_providers r;
     named_provider_epoch := named_provider_epoch r; next_generation := v;
     provider_epoch := provider_epoch r; current_generation_value := current_generation_value r;
     result_cache_config := result_cache_config r;
     result_cache_enabled_flag := result_cache_enabled_flag r;
     result_cache_ttl_ms := result_cache_ttl_ms r; result_cache := result_cache r;
     counters := counters r; redis_cache := redis_cache r;
     redis_global_enabled := redis_global_enabled r |}.
Definition set_provider_epoch (v : N) (r : KnowledgeRuntime) : KnowledgeRuntime :=
  {| provider := provider r; named_providers := named_providers r;
     named_provider_epoch := named_provider_epoch r; next_generation := next_generation r;
     provider_epoch := v; current_generation_value := current_generation_value r;
     result_cache_config := result_cache_config r;
     result_cache_enabled_flag := result_cache_enabled_flag r;
     result_cache_ttl_ms := result_cache_ttl_ms r; result_cache := result_cache r;
     counters := counters r; redis_cache := redis_cache r;
     redis_global_enabled := redis_global_enabled r |}.
Definition set_current_generation_value (v : N) (r : KnowledgeRuntime) : KnowledgeRuntime :=
  {| provider := provider r; named_providers := named_providers r;
     named_provider_epoch := named_provider_epoch r; next_generation := next_generation r;
     provider_epoch := provider_epoch r; current_generation_value := v;
     result_cache_config := result_cache_config r;
     result_cache_enabled_flag := result_cache_enabled_flag r;
     result_cache_ttl_ms := result_cache_ttl_ms r; result_cache := result_cache r;
     counters := counters r; redis_cache := redis_cache r;
     redis_global_enabled := redis_global_enabled r |}.
Definition set_result_cache_config (v : ResultCacheConfig) (r : KnowledgeRuntime) : KnowledgeRuntime :=
  {| provider := provider r; named_providers := named_providers r;
     named_provider_epoch := named_provider_epoch r; next_generation := next_generation r;
     provider_epoch := provider_epoch r; current_generation_value := current_generation_value r;
     result_cache_config := v; result_cache_enabled_flag := result_cache_enabled_flag r;
     result_cache_ttl_ms := result_cache_ttl_ms r; result_cache := result_cache r;
     counters := counters r; redis_cache := redis_cache r;
     redis_global_enabled := redis_global_enabled r |}.
Definition set_result_cache_enabled_flag (v : bool) (r : KnowledgeRuntime) : KnowledgeRuntime :=
  {| provider := provider r; named_providers := named_providers r;
     named_provider_epoch := named_provider_epoch r; next_generation := next_generation r;
     provider_epoch := provider_epoch r; current_generation_value := current_generation_value r;
     result_cache_config := result_cache_config r; result_cache_enabled_flag := v;
     result_cache_ttl_ms := result_cache_ttl_ms r; result_cache := result_cache r;
     counters := counters r; redis_cache := redis_cache r;
     redis_global_enabled := redis_global_enabled r |}.
Definition set_result_cache_ttl_ms (v : N) (r : KnowledgeRuntime) : KnowledgeRuntime :=
  {| provider := provider r; named_providers := named_providers r;
     named_provider_epoch := named_provider_epoch r; next_generation := next_generation r;
     provider_epoch := provider_epoch r; current_generation_value := current_generation_value r;
     result_cache_config := result_cache_config r;
     result_cache_enabled_flag := result_cache_enabled_flag r; result_cache_ttl_ms := v;
     result_cache := result_cache r; counters := counters r; redis_cache := redis_cache r;
     redis_global_enabled := redis_global_enabled r |}.
Definition set_result_cache (v : C ResultCacheKey CachedQueryResponse) (r : KnowledgeRuntime) : KnowledgeRuntime :=
  {| provider := provider r; named_providers := named_providers r;
     named_provider_epoch := named_provider_epoch r; next_generation := next_generation r;
     provider_epoch := provider_epoch r; current_generation_value := current_generation_value r;
     result_cache_config := result_cache_config r;
     result_cache_enabled_flag := result_cache_enabled_flag r;
     result_cache_ttl_ms := result_cache_ttl_ms r; result_cache := v; counters := counters r;
     redis_cache := redis_cache r; redis_global_enabled := redis_global_enabled r |}.
Definition set_counters (v : Counters) (r : KnowledgeRuntime) : KnowledgeRuntime :=
  {| provider := provider r; named_providers := named_providers r;
     named_provider_epoch := named_provider_epoch r; next_generation := next_generation r;
     provider_epoch := provider_epoch r; current_generation_value := current_generation_value r;
     result_cache_config := result_cache_config r;
     result_cache_enabled_flag := result_cache_enabled_flag r;
     result_cache_ttl_ms := result_cache_ttl_ms r; result_cache := result_cache r; counters := v;
     redis_cache := redis_cache r; redis_global_enabled := redis_global_enabled r |}.
Definition set_redis_cache (v : C RedisCacheKey CachedRedisEntry) (r : KnowledgeRuntime) : KnowledgeRuntime :=
  {| provider := provider r; named_providers := named_providers r;
     named_provider_epoch := named_provider_epoch r; next_generation := next_generation r;
     provider_epoch := provider_epoch r; current_generation_value := current_generation_value r;
     result_cache_config := result_cache_config r;
     result_cache_enabled_flag := result_cache_enabled_flag r;
     result_cache_ttl_ms := result_cache_ttl_ms r; result_cache := result_cache r;
     counters := counters r; redis_cache := v; redis_global_enabled := redis_global_enabled r |}.
Definition set_redis_global_enabled (v : bool) (r : KnowledgeRuntime) : KnowledgeRuntime :=
  {| provider := provider r; named_providers := named_providers r;
     named_provider_epoch := named_provider_epoch r; next_generation := next_generation r;
     provider_epoch := provider_epoch r; current_generation_value := current_generation_value r;
     result_cache_config := result_cache_config r;
     result_cache_enabled_flag := result_cache_enabled_flag r;
     result_cache_ttl_ms := result_cache_ttl_ms r; result_cache := result_cache r;
     counters := counters r; redis_cache := redis_cache r; redis_global_enabled := v |}.

Record World := Build_world {
  rt : KnowledgeRuntime;
  now : N;
  tele : TelemetryState;
  colnames : C MetadataCacheKey (list str);
  ext : E;
}.

Definition set_rt (v : KnowledgeRuntime) (w : World) : World :=
  {| rt := v; now := now w; tele := tele w; colnames := colnames w; ext := ext w |}.
Definition set_now (v : N) (w : World) : World :=
  {| rt := rt w; now := v; tele := tele w; colnames := colnames w; ext := ext w |}.
Definition set_tele (v : TelemetryState) (w : World) : World :=
  {| rt := rt w; now := now w; tele := v; colnames := colnames w; ext := ext w |}.
Definition set_colnames (v : C MetadataCacheKey (list str)) (w : World) : World :=
  {| rt := rt w; now := now w; tele := tele w; colnames := v; ext := ext w |}.
Definition set_ext (v : E) (w : World) : World :=
  {| rt := rt w; now := now w; tele := tele w; colnames := colnames w; ext := v |}.

Abbreviation M := (St World).

(** ** What a provider promises *)

(** The trait [ProviderExecutor]: each method reads and writes the world. *)
Class ProviderExecutor := {
  query : P → str → M (KnowledgeResult (list RowData));
  query_fields : P → str → list DataField → M (KnowledgeResult (list RowData));
  query_row : P → str → M (KnowledgeResult RowData);
  query_named_fields : P → str → list DataField → M (KnowledgeResult RowData);
  query_async : P → str → M (KnowledgeResult (list RowData));
  query_fields_async : P → str → list DataField → M (KnowledgeResult (list RowData));
  query_row_async : P → str → M (KnowledgeResult RowData);
  query_named_fields_async : P → str → list DataField → M (KnowledgeResult RowData);
}.

Context `{LruOps C} `{Hasher} `{ProviderExecutor}.

(** ** Small operations *)

Definition on_rt (f : KnowledgeRuntime → KnowledgeRuntime) : M unit :=
  modify (λ w, set_rt (f (rt w)) w).
Definition record (k : Counter) : M unit :=
  on_rt (λ r, set_counters (bump k (counters r)) r).
Definition report (e : TelemetryEvent) : M unit := modify (λ w, set_tele (emit e (tele w)) w).

Definition record_result_cache_hit : M unit := record result_cache_hits.
Definition record_result_cache_miss : M unit := record result_cache_misses.
Definition record_metadata_cache_hit : M unit := record metadata_cache_hits.
Definition record_metadata_cache_miss : M unit := record metadata_cache_misses.
Definition record_local_cache_hit : M unit := record local_cache_hits.
Definition record_local_cache_miss : M unit := record local_cache_misses.

Definition runtime_new (result_cache_capacity : nat) : KnowledgeRuntime :=
  let config := {| enabled := enabled result_cache_config_default;
                   capacity := Nat.max result_cache_capacity 1;
                   ttl := ttl result_cache_config_default |} in
  {| provider := None; named_providers := ∅; named_provider_epoch := 0; next_generation := 0;
     provider_epoch := 0; current_generation_value := 0; result_cache_config := config;
     result_cache_enabled_flag := enabled config;
     result_cache_ttl_ms := wrap64 (as_millis (ttl config));
     result_cache := lru_new (capacity config); counters := λ _, 0%N;
     redis_cache := lru_new (capacity config); redis_global_enabled := true |}.

Definition result_cache_enabled (r : KnowledgeRuntime) : bool := result_cache_enabled_flag r.
Definition result_cache_ttl (r : KnowledgeRuntime) : N := from_millis (result_cache_ttl_ms r).

(** ** Installing providers *)

Definition install_provider_named (name : str) (k : ProviderKind) (ds : DatasourceId)
    (build : Generation → M (KnowledgeResult P)) (is_default : bool)
  : M (KnowledgeResult Generation) :=
  old ← gets (λ w, next_generation (rt w));
  on_rt (set_next_generation (wrap64 (old + 1)));;
  let g := wrap64 (old + 1) in
  built ← build g;
  match built with
  | Err err =>
      record reload_failures;;
      report (ReloadTelemetryEvent Failure k);;
      mret (Err err)
  | Ok p =>
      let handle := {| executor := p; datasource_id := ds; generation := g; kind := k |} in
      on_rt (λ r, set_named_providers (<[name := handle]> (named_providers r)) r);;
      on_rt (λ r, set_named_provider_epoch (wrap64 (named_provider_epoch r + 1)) r);;
      when is_default (
        on_rt (λ r, set_provider_epoch (wrap64 (provider_epoch r + 1)) r);;
        on_rt (set_provider (Some handle));;
        on_rt (set_current_generation_value g);;
        on_rt (λ r, set_provider_epoch (wrap64 (provider_epoch r + 1)) r));;
      record reload_successes;;
      report (ReloadTelemetryEvent Success k);;
      mret (Ok g)
  end.

Definition install_provider (k : ProviderKind) (ds : DatasourceId)
    (build : Generation → M (KnowledgeResult P)) : M (KnowledgeResult Generation) :=
  install_provider_named DEFAULT_PROVIDER_NAME k ds build true.

Definition prune_named_providers_except (keep : gset str) : M unit :=
  on_rt (λ r,
    let kept := filter (λ e, e.1 ∈ keep) (named_providers r) in
    let r' := set_named_providers kept r in
    if bool_decide (size kept = size (named_providers r)) then r'
    else set_named_provider_epoch (wrap64 (named_provider_epoch r + 1)) r').

(** ** Configuration *)

Definition configure_result_cache (en : bool) (cap : nat) (d : N) : M unit :=
  on_rt (λ r,
    let new_config := {| enabled := en; capacity := Nat.max cap 1; ttl := N.max d (from_millis 1) |} in
    let old := result_cache_config r in
    let should_reset_cache :=
      negb (bool_decide (capacity old = capacity new_config))
      || (negb (enabled new_config) && enabled old) in
    let r := set_result_cache_config new_config r in
    let r := set_result_cache_enabled_flag (enabled new_config) r in
    let r := set_result_cache_ttl_ms (N.min (as_millis (ttl new_config)) u64_max) r in
    if should_reset_cache then set_result_cache (lru_new (capacity new_config)) r else r).

Definition configure_redis_cache (global_enabled : bool) (cap : nat) : M unit :=
  on_rt (λ r, set_redis_global_enabled global_enabled
                (set_redis_cache (lru_new (Nat.max cap 1)) r)).

(** ** Reading the current provider *)

Definition current_generation_from_provider (r : KnowledgeRuntime) : option Generation :=
  generation <$> provider r.

(** the decision of [current_generation] on what its loads returned *)
Definition generation_read (epoch_before value epoch_after : N) (slow : option Generation)
  : option Generation :=
  if (epoch_before `mod` 2 =? 1)%N then slow
  else if negb (epoch_before =? epoch_after)%N then slow
  else if (value =? 0)%N then None else Some value.

Definition current_generation (r : KnowledgeRuntime) : option Generation :=
  generation_read (provider_epoch r) (current_generation_value r) (provider_epoch r)
    (current_generation_from_provider r).

Definition current_metadata_scope (r : KnowledgeRuntime) : MetadataCacheScope :=
  match provider r with
  | Some h => {| scope_datasource_id := datasource_id h; scope_generation := generation h |}
  | None => {| scope_datasource_id := lit "sqlite:standalone"; scope_generation := 0 |}
  end.

Definition current_provider_kind (r : KnowledgeRuntime) : option ProviderKind := kind <$> provider r.

Definition provider_by_name (name : str) (r : KnowledgeRuntime)
  : KnowledgeResult (ProviderHandle P) :=
  ok_or (named_providers r !! name)
    (know_err from_logic [F "knowledge provider '"; D name; F "' not initialized"]).

Definition provider_exists (r : KnowledgeRuntime) (name : str) : bool :=
  bool_decide (is_Some (named_providers r !! name)).

(** the hash map's order is unspecified; any order of the keys *)
Definition provider_names (r : KnowledgeRuntime) : list str := (map_to_list (named_providers r)).*1.

Definition current_handle (r : KnowledgeRuntime) : KnowledgeResult (ProviderHandle P) :=
  ok_or (provider r) (know_err from_logic [F "knowledge provider not initialized"]).

#[export] Instance runtime_registry : ProviderRegistry KnowledgeRuntime :=
  {| registry_epoch := named_provider_epoch; registry_has := provider_exists |}.

(** ** The result cache *)

Definition result_cache_key (h : ProviderHandle P) (req : QueryRequest) : ResultCacheKey :=
  {| key_datasource_id := datasource_id h; key_generation := generation h;
     query_hash := stable_hash (req_sql req); params_hash := stable_params_hash (req_params req);
     key_mode := match req_mode req with Many => TagMany | FirstRow => TagFirstRow end |}.

Definition result_cache_key_fields (h : ProviderHandle P) (sql : str) (params : list DataField)
    (mode : QueryModeTag) : ResultCacheKey :=
  {| key_datasource_id := datasource_id h; key_generation := generation h;
     query_hash := stable_hash sql; params_hash := stable_field_params_hash params;
     key_mode := mode |}.

Definition elapsed (now since : N) : N := (now - since)%N.

Definition fetch_result_cache_by_key (key : ResultCacheKey) : M (option QueryResponse) := λ w,
  let r := rt w in
  if negb (result_cache_enabled r) then (None, w)
  else
    match lru_peek key (result_cache r) with
    | None => (None, w)
    | Some cached =>
        if (result_cache_ttl r <? elapsed (now w) (cached_at cached))%N
        then (None, set_rt (set_result_cache (lru_pop key (result_cache r)) r) w)
        else (Some (response cached), w)
    end.

Definition save_result_cache_by_key (key : ResultCacheKey) (resp : QueryResponse) : M unit := λ w,
  (tt, set_rt (set_result_cache
         (lru_put key {| response := resp; cached_at := now w |} (result_cache (rt w))) (rt w)) w).

Definition fetch_result_cache (h : ProviderHandle P) (req : QueryRequest)
  : M (option QueryResponse) := fetch_result_cache_by_key (result_cache_key h req).
Definition save_result_cache (h : ProviderHandle P) (req : QueryRequest) (resp : QueryResponse)
  : M unit := save_result_cache_by_key (result_cache_key h req) resp.

(** ** Executing queries *)

Definition use_global (policy : CachePolicy) : bool :=
  match policy with UseGlobal => true | _ => false end.

(** The body the four execution functions share: look in the result cache,
    count and report, call the provider, report, store. *)
Definition cached_call (h : ProviderHandle P) (policy : CachePolicy) (key : ResultCacheKey)
    (tag : QueryModeTag) (call : M (KnowledgeResult QueryResponse))
  : M (KnowledgeResult QueryResponse) :=
  en ← gets (λ w, result_cache_enabled (rt w));
  let use_global_cache := use_global policy && en in
  hit ← (if use_global_cache then fetch_result_cache_by_key key else mret None);
  match hit with
  | Some hit =>
      record_result_cache_hit;;
      report (CacheTelemetryEvent LayerResult Hit (Some (kind h)));;
      mret (Ok hit)
  | None =>
      when use_global_cache (
        record_result_cache_miss;;
        report (CacheTelemetryEvent LayerResult Miss (Some (kind h))));;
      started ← gets now;
      resp ← call;
      finished ← gets now;
      match resp with
      | Err err =>
          report (QueryTelemetryEvent (kind h) tag false (elapsed finished started));;
          mret (Err err)
      | Ok resp =>
          report (QueryTelemetryEvent (kind h) tag true (elapsed finished started));;
          when use_global_cache (save_result_cache_by_key key resp);;
          mret (Ok resp)
      end
  end.

Definition execute_with_handle (h : ProviderHandle P) (req : QueryRequest)
  : M (KnowledgeResult QueryResponse) :=
  let params := params_to_fields (req_params req) in
  cached_call h (req_cache_policy req) (result_cache_key h req) (query_mode_tag (req_mode req))
    (match req_mode req with
     | Many =>
         if bool_decide (params = [])
         then fmap (M := M) (fmap Rows) (query (executor h) (req_sql req))
         else fmap (M := M) (fmap Rows) (query_fields (executor h) (req_sql req) params)
     | FirstRow =>
         if bool_decide (params = [])
         then fmap (M := M) (fmap Row) (query_row (executor h) (req_sql req))
         else fmap (M := M) (fmap Row) (query_named_fields (executor h) (req_sql req) params)
     end).

Definition execute (req : QueryRequest) : M (KnowledgeResult QueryResponse) :=
  h ←? gets (λ w, current_handle (rt w)); execute_with_handle h req.

Definition execute_for (name : str) (req : QueryRequest) : M (KnowledgeResult QueryResponse) :=
  h ←? gets (λ w, provider_by_name name (rt w)); execute_with_handle h req.

Definition execute_first_row_fields_with_handle (h : ProviderHandle P) (sql : str)
    (params : list DataField) (policy : CachePolicy) : M (KnowledgeResult RowData) :=
  fmap (M := M) (fmap into_row)
    (cached_call h policy (result_cache_key_fields h sql params TagFirstRow) TagFirstRow
       (if bool_decide (params = [])
        then fmap (M := M) (fmap Row) (query_row (executor h) sql)
        else fmap (M := M) (fmap Row) (query_named_fields (executor h) sql params))).

Definition execute_first_row_fields (sql : str) (params : list DataField) (policy : CachePolicy)
  : M (KnowledgeResult RowData) :=
  h ←? gets (λ w, current_handle (rt w)); execute_first_row_fields_with_handle h sql params policy.

Definition execute_first_row_fields_for (name sql : str) (params : list DataField)
    (policy : CachePolicy) : M (KnowledgeResult RowData) :=
  h ←? gets (λ w, provider_by_name name (rt w));
  execute_first_row_fields_with_handle h sql params policy.

(** *** Asynchronous variants: awaited to completion *)

Definition execute_async_with_handle (h : ProviderHandle P) (req : QueryRequest)
  : M (KnowledgeResult QueryResponse) :=
  let params := params_to_fields (req_params req) in
  cached_call h (req_cache_policy req) (result_cache_key h req) (query_mode_tag (req_mode req))
    (match req_mode req with
     | Many =>
         if bool_decide (params = [])
         then fmap (M := M) (fmap Rows) (query_async (executor h) (req_sql req))
         else fmap (M := M) (fmap Rows) (query_fields_async (executor h) (req_sql req) params)
     | FirstRow =>
         if bool_decide (params = [])
         then fmap (M := M) (fmap Row) (query_row_async (executor h) (req_sql req))
         else fmap (M := M) (fmap Row) (query_named_fields_async (executor h) (req_sql req) params)
     end).

(** [spawn_blocking] runs the closure on another thread; it is joined at once,
    and the join fails only if the closure panics. *)
Definition execute_async (req : QueryRequest) : M (KnowledgeResult QueryResponse) :=
  h ←? gets (λ w, current_handle (rt w));
  if decide (kind h = SqliteAuthority) then execute_with_handle h req
  else execute_async_with_handle h req.

Definition execute_for_async (name : str) (req : QueryRequest)
  : M (KnowledgeResult QueryResponse) :=
  h ←? gets (λ w, provider_by_name name (rt w)); execute_async_with_handle h req.

Definition execute_first_row_fields_async_with_handle (h : ProviderHandle P) (sql : str)
    (params : list DataField) (policy : CachePolicy) : M (KnowledgeResult RowData) :=
  fmap (M := M) (fmap into_row)
    (cached_call h policy (result_cache_key_fields h sql params TagFirstRow) TagFirstRow
       (if bool_decide (params = [])
        then fmap (M := M) (fmap Row) (query_row_async (executor h) sql)
        else fmap (M := M) (fmap Row) (query_named_fields_async (executor h) sql params))).

Definition execute_first_row_fields_async (sql : str) (params : list DataField)
    (policy : CachePolicy) : M (KnowledgeResult RowData) :=
  h ←? gets (λ w, current_handle (rt w));
  if decide (kind h = SqliteAuthority)
  then execute_first_row_fields_with_handle h sql params policy
  else execute_first_row_fields_async_with_handle h sql params policy.

Definition execute_first_row_fields_for_async (name sql : str) (params : list DataField)
    (policy : CachePolicy) : M (KnowledgeResult RowData) :=
  h ←? gets (λ w, provider_by_name name (rt w));
  execute_first_row_fields_async_with_handle h sql params policy.

(** ** The Redis result cache *)

Definition redis_cache_enabled (r : KnowledgeRuntime) : bool := result_cache_enabled_flag r.
Definition redis_cache_ttl (r : KnowledgeRuntime) : N := from_millis (result_cache_ttl_ms r).

Definition fetch_redis_cache (key : RedisCacheKey) : M (option CachedRedisEntry) := λ w,
  let r := rt w in
  if negb (redis_cache_enabled r) then (None, w)
  else
    match lru_peek key (redis_cache r) with
    | None => (None, w)
    | Some entry =>
        if (0 <? ttl_ms entry)%N
           && (from_millis (ttl_ms entry) <? elapsed (now w) (entry_cached_at entry))%N
        then (None, set_rt (set_redis_cache (lru_pop key (redis_cache r)) r) w)
        else (Some entry, w)
    end.

Definition save_redis_cache (key : RedisCacheKey) (entry : CachedRedisEntry) : M unit :=
  on_rt (λ r, if negb (redis_cache_enabled r) then r
              else set_redis_cache (lru_put key entry (redis_cache r)) r).

Definition redis_cache_get (ck : RedisCacheKey) : M (option CachedRedisValue) :=
  global ← gets (λ w, redis_global_enabled (rt w));
  if negb global then mret None
  else
    entry ← fetch_redis_cache ck;
    match entry with
    | None => mret None
    | Some entry => record redis_cache_hits;; mret (Some (entry_value entry))
    end.

Definition redis_cache_put_with_ttl (ck : RedisCacheKey) (value : CachedRedisValue) (ttl : N)
  : M unit :=
  global ← gets (λ w, redis_global_enabled (rt w));
  if negb global then mret tt
  else
    record redis_cache_misses;;
    at_ ← gets now;
    save_redis_cache ck {| entry_value := value; entry_cached_at := at_; ttl_ms := ttl |}.

Definition redis_cache_put (ck : RedisCacheKey) (value : CachedRedisValue) : M unit :=
  redis_cache_put_with_ttl ck value 0.

Definition clear_redis_cache : M unit :=
  on_rt (λ r, set_redis_cache (lru_clear (redis_cache r)) r).

(** ** The column-name cache (src/mem/query_util.rs) *)

Definition metadata_cache_key_for_scope (scope : MetadataCacheScope) (sql : str)
  : MetadataCacheKey :=
  {| meta_datasource_id := scope_datasource_id scope; meta_generation := scope_generation scope;
     meta_query_hash := stable_hash sql |}.

Definition column_metadata_cache_snapshot (w : World) : nat * nat :=
  (lru_len (colnames w), lru_cap (colnames w)).

Definition metadata_cache_get_or_try_init_for_scope (scope : MetadataCacheScope)
    (provider_kind : option ProviderKind) (sql : str)
    (load : M (KnowledgeResult (option (list str)))) : M (KnowledgeResult (list str)) :=
  let cache_key := metadata_cache_key_for_scope scope sql in
  found ← gets (λ w, lru_peek cache_key (colnames w));
  match found with
  | Some names =>
      record_metadata_cache_hit;;
      report (CacheTelemetryEvent LayerMetadata Hit provider_kind);;
      mret (Ok names)
  | None =>
      record_metadata_cache_miss;;
      report (CacheTelemetryEvent LayerMetadata Miss provider_kind);;
      loaded ←? load;
      match loaded with
      | None => mret (Ok [])
      | Some names =>
          modify (λ w, set_colnames (lru_put cache_key names (colnames w)) w);;
          mret (Ok names)
      end
  end.

Definition metadata_cache_get_or_try_init (sql : str)
    (load : M (KnowledgeResult (option (list str)))) : M (KnowledgeResult (list str)) :=
  scope ← gets (λ w, current_metadata_scope (rt w));
  provider_kind ← gets (λ w, current_provider_kind (rt w));
  metadata_cache_get_or_try_init_for_scope scope provider_kind sql load.

(** the awaited variants have the same body *)
Definition metadata_cache_get_or_try_init_async_for_scope_typed :=
  metadata_cache_get_or_try_init_for_scope.
Definition metadata_cache_get_or_try_init_async_for_scope :=
  metadata_cache_get_or_try_init_async_for_scope_typed.

(** ** Snapshots *)

Record RuntimeSnapshot := {
  snap_provider_kind : option ProviderKind;
  snap_datasource_id : option DatasourceId;
  snap_generation : option Generation;
  snap_result_cache_enabled : bool;
  snap_result_cache_len : nat;
  snap_result_cache_capacity : nat;
  snap_result_cache_ttl_ms : N;
  snap_metadata_cache_len : nat;
  snap_metadata_cache_capacity : nat;
  snap_counters : Counters;
}.

Definition snapshot (w : World) : RuntimeSnapshot :=
  let r := rt w in
  {| snap_provider_kind := kind <$> provider r;
     snap_datasource_id := datasource_id <$> provider r;
     snap_generation := generation <$> provider r;
     snap_result_cache_enabled := enabled (result_cache_config r);
     snap_result_cache_len := lru_len (result_cache r);
     snap_result_cache_capacity := lru_cap (result_cache r);
     snap_result_cache_ttl_ms := wrap64 (as_millis (ttl (result_cache_config r)));
     snap_metadata_cache_len := (column_metadata_cache_snapshot w).1;
     snap_metadata_cache_capacity := (column_metadata_cache_snapshot w).2;
     snap_counters := counters r |}.

(** the process at start-up *)
Definition world_new (start : N) (outside : E) : World :=
  {| rt := runtime_new 1024; now := start; tele := telemetry_init; colnames := lru_new 512;
     ext := outside |}.
End Runtime.
Arguments KnowledgeRuntime C P : clear implicits.
Arguments World C P E : clear implicits.
Arguments ProviderExecutor C P E : clear implicits.
