(* ===== verification/Threads.v ===== *)
(** * Interleaved programs

    A program is a tree of atomic actions on a shared state; a pool runs one
    action of one thread at a time, in any order, between changes of the
    environment.  Threads are proved one by one by a rely-guarantee rule: each
    action keeps the invariant and does what the others rely on.  [pool_run]
    carries that to every schedule. *)
From S2P Require Import Prelude.

(** ** Programs *)

Inductive Prog (W A : Type) : Type :=
| Ret (a : A)
| Act {B : Type} (m : St W B) (k : B → Prog W A).
Arguments Ret {W A} a.
Arguments Act {W A B} m k.

#[export] Instance prog_ret {W} : MRet (Prog W) := λ A a, Ret a.
#[export] Instance prog_bind {W} : MBind (Prog W) := λ A B f,
  fix go (p : Prog W A) : Prog W B :=
    match p with
    | Ret a => f a
    | Act m k => Act m (λ b, go (k b))
    end.
#[export] Instance prog_fmap {W} : FMap (Prog W) := λ A B f p, p ≫= λ a, Ret (f a).

Definition act {W A} (m : St W A) : Prog W A := Act m Ret.
Definition pwhen {W} (b : bool) (p : Prog W unit) : Prog W unit := if b then p else Ret tt.

(** the actions of [p], on a part of a larger state *)
Fixpoint on_part {V W A} (get : W → V) (set : V → W → W) (p : Prog V A) : Prog W A :=
  match p with
  | Ret a => Ret a
  | Act m k => Act (λ w, let '(b, v) := m (get w) in (b, set v w)) (λ b, on_part get set (k b))
  end.

(** the program alone, without interruption *)
Fixpoint solo {W A} (p : Prog W A) : St W A :=
  match p with
  | Ret a => λ w, (a, w)
  | Act m k => λ w, let '(b, w) := m w in solo (k b) w
  end.

(** every action of the program *)
Fixpoint every {W A} (Q : ∀ B, St W B → Prop) (p : Prog W A) : Prop :=
  match p with
  | Ret _ => True
  | @Act _ _ B m k => Q B m ∧ ∀ b, every Q (k b)
  end.

Lemma solo_bind {W A B} (p : Prog W A) (f : A → Prog W B) w :
  solo (p ≫= f) w = let '(a, w) := solo p w in solo (f a) w.
Proof.
  revert w. induction p as [a|X m k IH]; intros w; [done|].
  change (solo (Act m k ≫= f) w) with (let '(b, w) := m w in solo (k b ≫= f) w). cbn [solo].
  destruct (m w) as [b w']. apply IH.
Qed.

Lemma solo_act {W A B} (m : St W A) (f : A → Prog W B) w :
  solo (act m ≫= f) w = let '(a, w) := m w in solo (f a) w.
Proof. done. Qed.

Lemma solo_on_part {V W A} (get : W → V) set (p : Prog V A) w :
  (∀ v w, get (set v w) = v) → (∀ v v' w, set v (set v' w) = set v w) → (∀ w, set (get w) w = w) →
  solo (on_part get set p) w = let '(a, v) := solo p (get w) in (a, set v w).
Proof.
  intros Hgs Hss Hsg. revert w. induction p as [a|B m k IH]; intros w; cbn; [by rewrite Hsg|].
  destruct (m (get w)) as [b v]. rewrite IH, Hgs. destruct (solo (k b) v) as [a v']. by rewrite Hss.
Qed.

(** ** Pools *)

Record Pool (W A : Type) := { shared : W; threads : list (Prog W A) }.
Arguments shared {W A} _.
Arguments threads {W A} _.

Inductive Turn (Ev : Type) := Run (i : nat) | Env (e : Ev).
Arguments Run {Ev} i.
Arguments Env {Ev} e.

Section Pool.
Context {W A Ev : Type} (env : Ev → W → W).
Implicit Types (s : Pool W A).

Definition turn s (t : Turn Ev) : Pool W A :=
  match t with
  | Run i =>
      match threads s !! i with
      | Some (Act m k) =>
          let '(b, w) := m (shared s) in {| shared := w; threads := <[i := k b]> (threads s) |}
      | _ => s
      end
  | Env e => {| shared := env e (shared s); threads := threads s |}
  end.
Definition run s (sched : list (Turn Ev)) : Pool W A := foldl turn s sched.

Lemma run_app s sched sched' : run s (sched ++ sched') = run (run s sched) sched'.
Proof. apply foldl_app. Qed.

Lemma turn_ret s i a : threads s !! i = Some (Ret a) → ∀ t, threads (turn s t) !! i = Some (Ret a).
Proof.
  intros Hi [j|e]; [|done]. cbn. destruct (threads s !! j) as [[|B m k]|] eqn:Hj; try done.
  destruct (m (shared s)) as [b w]. cbn. rewrite list_lookup_insert_ne; [done|]. congruence.
Qed.

(** a thread that has not had its turn is where it was *)
Lemma run_waiting s i sched : Run i ∉ sched → threads (run s sched) !! i = threads s !! i.
Proof.
  revert s. induction sched as [|t sched IH]; intros s Hi; [done|]. apply not_elem_of_cons in Hi as [Ht Hi].
  change (run s (t :: sched)) with (run (turn s t) sched). rewrite IH by done. destruct t as [j|e]; [|done].
  cbn. destruct (threads s !! j) as [[|B m k]|]; try done. destruct (m (shared s)) as [b w]. cbn.
  apply list_lookup_insert_ne. congruence.
Qed.

(** the first turn of a thread that has finished and had an action to take *)
Lemma first_turn s i a sched B m k :
  threads s !! i = Some (@Act W A B m k) → threads (run s sched) !! i = Some (Ret a) →
  ∃ before after, sched = before ++ Run i :: after ∧ Run i ∉ before.
Proof.
  revert s. induction sched as [|t sched IH]; intros s Hi Hend; [cbn in Hend; congruence|].
  assert (t = Run i ∨ t ≠ Run i) as [->|Ht].
  { destruct t as [j|e]; [|by right]. destruct (decide (j = i)) as [->|Hne]; [by left|right; congruence]. }
  - exists [], sched. split; [done|apply not_elem_of_nil].
  - destruct (IH (turn s t)) as (before & after & -> & Hb).
    + pose proof (run_waiting s i [t]) as Hw. cbn in Hw. rewrite Hw; [done|]. by intros ?%list_elem_of_singleton.
    + done.
    + exists (t :: before), after. split; [done|]. by apply not_elem_of_cons.
Qed.

(** what every action of the threads satisfies it satisfies throughout *)
Lemma turn_every (Q : ∀ B, St W B → Prop) s t :
  (∀ p, p ∈ threads s → every Q p) → ∀ p, p ∈ threads (turn s t) → every Q p.
Proof.
  intros Hp. destruct t as [i|e]; [|done]. cbn.
  destruct (threads s !! i) as [[a|B m k]|] eqn:Hi; [done| |done].
  destruct (Hp _ (list_elem_of_lookup_2 _ _ _ Hi)) as [_ Hk].
  destruct (m (shared s)) as [b w]. cbn. intros p Hin.
  apply list_elem_of_lookup in Hin as [j Hj]. destruct (decide (j = i)) as [->|Hne].
  - rewrite list_lookup_insert_eq in Hj by (by eapply lookup_lt_Some). injection Hj as <-. apply Hk.
  - rewrite list_lookup_insert_ne in Hj by done. apply Hp. by eapply list_elem_of_lookup_2.
Qed.
Lemma run_every (Q : ∀ B, St W B → Prop) s sched :
  (∀ p, p ∈ threads s → every Q p) → ∀ p, p ∈ threads (run s sched) → every Q p.
Proof.
  revert s. induction sched as [|t sched IH]; intros s Hp; [done|]. apply (IH (turn s t)). by apply turn_every.
Qed.

(** what every action adds to a measure bounds the measure by the run's length *)
Lemma turn_measure s t (f : W → N) :
  (∀ p, p ∈ threads s → every (λ _ m, ∀ w, (f (m w).2 ≤ f w + 1)%N) p) → (∀ e w, (f (env e w) ≤ f w)%N) →
  (f (shared (turn s t)) ≤ f (shared s) + 1)%N.
Proof.
  intros Hp He. destruct t as [i|e]; cbn; [|specialize (He e (shared s)); lia].
  destruct (threads s !! i) as [[a|B m k]|] eqn:Hi; [lia| |lia].
  destruct (Hp _ (list_elem_of_lookup_2 _ _ _ Hi)) as [Hm _]. specialize (Hm (shared s)).
  by destruct (m (shared s)).
Qed.
Lemma run_measure s sched (f : W → N) :
  (∀ p, p ∈ threads s → every (λ _ m, ∀ w, (f (m w).2 ≤ f w + 1)%N) p) → (∀ e w, (f (env e w) ≤ f w)%N) →
  (f (shared (run s sched)) ≤ f (shared s) + N.of_nat (length sched))%N.
Proof.
  revert s. induction sched as [|t sched IH]; intros s Hp He; [cbn; lia|].
  pose proof (turn_measure s t f Hp He) as Ht. specialize (IH (turn s t) (turn_every _ s t Hp) He).
  change (run s (t :: sched)) with (run (turn s t) sched). cbn [length]. lia.
Qed.
End Pool.

(** ** Thread by thread *)

(** An invariant of the shared state, what a thread may do to the others and
    what it may count on from them.  [valid] is a bound the run stays under. *)
Class Discipline (W Ev : Type) := {
  env : Ev → W → W;
  inv : W → Prop;
  valid : W → Prop;
  guar : nat → W → W → Prop;
  rely : nat → W → W → Prop;
  rely_pre i :: PreOrder (rely i);
  guar_rely i j w w' : i ≠ j → guar j w w' → rely i w w';
  env_ok e w : inv w → valid (env e w) → inv (env e w) ∧ ∀ i, rely i w (env e w);
}.

Section Safety.
Context {W Ev : Type} `{!Discipline W Ev}.

(** thread [i], somewhere in [p] when the state was [w], keeps the discipline
    and ends in [Q] *)
Fixpoint safe {A} (i : nat) (p : Prog W A) (w : W) (Q : A → W → Prop) : Prop :=
  match p with
  | Ret a => ∀ w1, rely i w w1 → inv w1 → Q a w1
  | Act m k => ∀ w1, rely i w w1 → inv w1 → valid (m w1).2 →
      let '(b, w2) := m w1 in inv w2 ∧ guar i w1 w2 ∧ safe i (k b) w2 Q
  end.

Lemma safe_rely {A} i (p : Prog W A) w w' Q : rely i w w' → safe i p w Q → safe i p w' Q.
Proof.
  intros Hr. destruct p as [a|B m k]; intros Hs w1 Hr1; apply Hs; by trans w'.
Qed.

Lemma safe_bind {A B} i (p : Prog W A) (f : A → Prog W B) w Q :
  safe i p w (λ a w', (safe i (f a) w' Q)) → safe i (p ≫= f) w Q.
Proof.
  revert w. induction p as [a|X m k IH]; intros w Hs.
  - change (safe i (f a) w Q). cbn in Hs. destruct (f a) as [b|Y m k]; cbn; intros w1 Hr Hi.
    + exact (Hs w1 Hr Hi w1 (PreOrder_Reflexive w1) Hi).
    + exact (Hs w1 Hr Hi w1 (PreOrder_Reflexive w1) Hi).
  - intros w1 Hr Hi Hv. specialize (Hs w1 Hr Hi Hv). destruct (m w1) as [b w2].
    destruct Hs as (H1 & H2 & H3). split_and!; [done..|]. by apply IH.
Qed.

Lemma safe_mono {A} i (p : Prog W A) w (Q Q' : A → W → Prop) :
  (∀ a w, inv w → Q a w → Q' a w) → safe i p w Q → safe i p w Q'.
Proof.
  intros HQ. revert w. induction p as [a|X m k IH]; intros w Hs; cbn; intros w1 Hr Hi.
  - apply HQ; [done|]. by apply Hs.
  - intros Hv. specialize (Hs w1 Hr Hi Hv). destruct (m w1) as [b w2]. destruct Hs as (H1 & H2 & H3). auto.
Qed.

(** what neither the others nor the thread's own actions undo *)
Lemma safe_stable {A} i (p : Prog W A) w (Q : A → W → Prop) (R : W → Prop) :
  (∀ w w', rely i w w' → R w → R w') → (∀ w w', guar i w w' → R w → R w') → R w →
  safe i p w Q → safe i p w (λ a w', Q a w' ∧ R w').
Proof.
  intros Hr Hg. revert w. induction p as [a|X m k IH]; intros w HR Hs; cbn; intros w1 Hr1 Hi.
  - split; [by apply Hs|by eapply Hr].
  - intros Hv. specialize (Hs w1 Hr1 Hi Hv). destruct (m w1) as [b w2]. destruct Hs as (H1 & H2 & H3).
    split_and!; [done..|]. apply IH; [|done]. eapply Hg; [done|]. by eapply Hr.
Qed.

(** one action, and what holds after it whatever the others do *)
Lemma safe_act {A} i (m : St W A) w (Q : A → W → Prop) :
  (∀ w1, rely i w w1 → inv w1 → valid (m w1).2 →
     inv (m w1).2 ∧ guar i w1 (m w1).2 ∧
     ∀ w3, rely i (m w1).2 w3 → inv w3 → Q (m w1).1 w3) →
  safe i (act m) w Q.
Proof.
  intros Hm w1 Hr Hi Hv. specialize (Hm w1 Hr Hi Hv). destruct (m w1) as [b w2].
  destruct Hm as (H1 & H2 & H3). done.
Qed.

Lemma safe_ret {A} i (a : A) w (Q : A → W → Prop) :
  (∀ w1, rely i w w1 → inv w1 → Q a w1) → safe i (Ret a) w Q.
Proof. done. Qed.

(** a program whose every action keeps the discipline *)
Lemma safe_every {A} i (p : Prog W A) w :
  every (λ _ m, ∀ w, inv w → valid (m w).2 → inv (m w).2 ∧ guar i w (m w).2) p → safe i p w (λ _ _, True).
Proof.
  revert w. induction p as [a|X m k IH]; intros w Hp; [done|]. intros w1 _ Hi Hv. destruct Hp as [Hm Hk].
  specialize (Hm w1 Hi Hv). destruct (m w1) as [b w2]. destruct Hm. split_and!; [done..|]. by apply IH.
Qed.

(** ** Every schedule *)

Definition all_safe {A} (s : Pool W A) (Q : nat → A → W → Prop) : Prop :=
  inv (shared s) ∧ ∀ i p, threads s !! i = Some p → safe i p (shared s) (Q i).

(** the bound holds at every point of the run *)
Definition stays_valid {A} (s : Pool W A) (sched : list (Turn Ev)) : Prop :=
  ∀ n, valid (shared (run env s (take n sched))).

Lemma stays_valid_app {A} (s : Pool W A) sched sched' :
  stays_valid s (sched ++ sched') → stays_valid s sched ∧ stays_valid (run env s sched) sched'.
Proof.
  intros Hv. split; intros n.
  - specialize (Hv (Nat.min n (length sched))). rewrite take_app_le in Hv by lia.
    destruct (decide (n ≤ length sched)); [by rewrite Nat.min_l in Hv by lia|].
    rewrite Nat.min_r, take_ge in Hv by lia. by rewrite take_ge by lia.
  - specialize (Hv (length sched + n)). rewrite take_app_add in Hv. by rewrite run_app in Hv.
Qed.

Lemma turn_safe {A} (s : Pool W A) t Q :
  all_safe s Q → valid (shared (turn env s t)) → all_safe (turn env s t) Q.
Proof.
  intros [Hi Hs] Hv. destruct t as [i|e]; cbn in *.
  - destruct (threads s !! i) as [[a|B m k]|] eqn:Hp; [by split| |by split].
    pose proof (Hs i _ Hp (shared s) (PreOrder_Reflexive _) Hi) as Hm.
    destruct (m (shared s)) as [b w]. destruct (Hm Hv) as (H1 & H2 & H3).
    split; [done|]. cbn. intros j p Hj. destruct (decide (j = i)) as [->|Hne].
    + rewrite list_lookup_insert_eq in Hj by (by eapply lookup_lt_Some). by injection Hj as <-.
    + rewrite list_lookup_insert_ne in Hj by done. eapply safe_rely; [|by apply Hs]. by eapply guar_rely.
  - destruct (env_ok e (shared s) Hi Hv) as [H1 H2]. split; [done|]. intros j p Hj.
    eapply safe_rely; [apply H2|by apply Hs].
Qed.

Lemma run_safe {A} (s : Pool W A) sched Q :
  all_safe s Q → stays_valid s sched → all_safe (run env s sched) Q.
Proof.
  revert s. induction sched as [|t sched IH]; intros s Hs Hv; [done|].
  destruct (stays_valid_app s [t] sched Hv) as [H1 H2]. apply (IH (turn env s t)); [|exact H2].
  apply turn_safe; [done|exact (H1 1)].
Qed.

(** what one who has no thread in the pool may count on *)
Lemma turn_rely {A} (s : Pool W A) t Q :
  all_safe s Q → valid (shared (turn env s t)) →
  rely (length (threads s)) (shared s) (shared (turn env s t)) ∧ length (threads (turn env s t)) = length (threads s).
Proof.
  intros [Hi Hs] Hv. destruct t as [i|e]; cbn in *; [|by split; [apply env_ok|]].
  destruct (threads s !! i) as [[a|B m k]|] eqn:Hp; [by split| |by split].
  pose proof (Hs i _ Hp (shared s) (PreOrder_Reflexive _) Hi) as Hm. apply lookup_lt_Some in Hp as Hlt.
  destruct (m (shared s)) as [b w]. destruct (Hm Hv) as (_ & Hg & _).
  split; [|apply length_insert]. eapply guar_rely; [|done]. lia.
Qed.
Lemma run_rely {A} (s : Pool W A) sched Q :
  all_safe s Q → stays_valid s sched → rely (length (threads s)) (shared s) (shared (run env s sched)).
Proof.
  revert s. induction sched as [|t sched IH]; intros s Hs Hv; [done|].
  destruct (stays_valid_app s [t] sched Hv) as [H1 H2].
  destruct (turn_rely s t Q Hs (H1 1)) as [Hr Hlen]. etrans; [exact Hr|]. rewrite <-Hlen.
  apply (IH (turn env s t)); [|exact H2]. apply turn_safe; [done|exact (H1 1)].
Qed.
(** between two moments of a run *)
Lemma run_rely_between {A} (s : Pool W A) sched Q n m :
  all_safe s Q → stays_valid s sched → n ≤ m →
  ∃ j, rely j (shared (run env s (take n sched))) (shared (run env s (take m sched))).
Proof.
  intros Hs Hv Hnm. assert (take m sched = take n sched ++ take (m - n) (drop n sched)) as Hsplit.
  { rewrite <-(take_drop n (take m sched)) at 1. by rewrite take_take, Nat.min_l, skipn_firstn_comm by lia. }
  assert (stays_valid s (take m sched)) as Hvm.
  { intros k. rewrite take_take. apply Hv. }
  rewrite Hsplit in Hvm |- *. destruct (stays_valid_app _ _ _ Hvm) as [H1 H2]. rewrite run_app.
  eexists. eapply run_rely; [|done]. by apply run_safe.
Qed.

(** the invariant holds throughout, and a thread that has finished ended in its
    postcondition *)
Lemma pool_run {A} (s : Pool W A) sched Q :
  all_safe s Q → stays_valid s sched →
  inv (shared (run env s sched))
  ∧ ∀ i a, threads (run env s sched) !! i = Some (Ret a) → Q i a (shared (run env s sched)).
Proof.
  intros Hs Hv. destruct (run_safe s sched Q Hs Hv) as [Hi Hp]. split; [done|].
  intros i a Ha. exact (Hp i _ Ha _ (PreOrder_Reflexive _) Hi).
Qed.

(** A finished thread whose first action was a look at the state: it was taken
    at a point of the run, and from there the rest of the thread, which may use
    what it saw, ended in [Q] of that point. *)
Lemma pool_look {A B} (s : Pool W A) sched i (f : W → B) (k : B → Prog W A) a Q0 (Q : W → A → W → Prop) :
  all_safe s Q0 → stays_valid s sched →
  threads s !! i = Some (Act (gets f) k) →
  (∀ w, inv w → safe i (k (f w)) w (Q w)) →
  threads (run env s sched) !! i = Some (Ret a) →
  ∃ before after, sched = before ++ Run i :: after ∧ (Run i ∉ before)
    ∧ Q (shared (run env s before)) a (shared (run env s sched)).
Proof.
  intros Hs Hv Hi Hk Ha. destruct (first_turn env s i a sched _ _ _ Hi Ha) as (before & after & -> & Hb).
  exists before, after. split_and!; [done..|].
  destruct (stays_valid_app _ _ _ Hv) as [Hv1 Hv2].
  destruct (run_safe s before Q0 Hs Hv1) as [Hinv Hsafe].
  set (sb := run env s before) in *. set (b := f (shared sb)).
  assert (Hth : threads sb !! i = Some (Act (gets f) k)) by (unfold sb; by rewrite run_waiting).
  destruct (stays_valid_app sb [Run i] after Hv2) as [_ Hv3].
  rewrite run_app in Ha |- *. fold sb in Ha |- *.
  change (run env sb (Run i :: after)) with (run env (turn env sb (Run i)) after) in Ha |- *.
  change (run env sb [Run i]) with (turn env sb (Run i)) in Hv3.
  assert (Hturn : turn env sb (Run i) = {| shared := shared sb; threads := <[i := k b]> (threads sb) |})
    by (cbn; by rewrite Hth).
  rewrite Hturn in Ha, Hv3 |- *.
  set (Q' := λ j, if decide (j = i) then Q (shared sb) else Q0 j).
  assert (HQ : Q' i a (shared (run env {| shared := shared sb; threads := <[i := k b]> (threads sb) |} after))).
  { apply (pool_run _ after Q'); [|done..]. split; [done|]. cbn. intros j p Hj. unfold Q'.
    destruct (decide (j = i)) as [->|Hne].
    - rewrite list_lookup_insert_eq in Hj by (by eapply lookup_lt_Some). injection Hj as <-. by apply Hk.
    - rewrite list_lookup_insert_ne in Hj by done. by apply Hsafe. }
  unfold Q' in HQ. by rewrite decide_True in HQ.
Qed.
End Safety.
