(* ===== verification/RuntimeThreads.v ===== *)
(** * The runtime under many threads (src/runtime.rs, src/sql_route.rs)

    The operations of Runtime.v and the routing of SqlRoute.v as programs: each
    load and store of an atomic, and each stretch of code under one lock, is an
    action, and between any two the other threads may run.  A provider's work
    is a program of its own.  The actions act on one memory in the order of the
    schedule, whatever ordering the code asks of an atomic.  [Shared] adds to the world the routing memo, a
    static, and a record of the run that no action reads. *)
From S2P Require Import Prelude Errors RustStr Model Lru SqlRoute Runtime Threads.

(** ** Providers as programs *)

(** the trait's methods, whose work other threads may interrupt *)
Class ProviderThreads (C : Type → Type → Type) (P E : Type) := {
  query_p : P → str → Prog (World C P E) (KnowledgeResult (list RowData));
  query_fields_p : P → str → list DataField → Prog (World C P E) (KnowledgeResult (list RowData));
  query_row_p : P → str → Prog (World C P E) (KnowledgeResult RowData);
  query_named_fields_p : P → str → list DataField → Prog (World C P E) (KnowledgeResult RowData);
  query_async_p : P → str → Prog (World C P E) (KnowledgeResult (list RowData));
  query_fields_async_p : P → str → list DataField → Prog (World C P E) (KnowledgeResult (list RowData));
  query_row_async_p : P → str → Prog (World C P E) (KnowledgeResult RowData);
  query_named_fields_async_p : P → str → list DataField → Prog (World C P E) (KnowledgeResult RowData);
}.

(** a provider that does its work in one action *)
Definition in_one_action {C P E} `{!ProviderExecutor C P E} : ProviderThreads C P E := {|
  query_p p sql := act (query p sql);
  query_fields_p p sql ps := act (query_fields p sql ps);
  query_row_p p sql := act (query_row p sql);
  query_named_fields_p p sql ps := act (query_named_fields p sql ps);
  query_async_p p sql := act (query_async p sql);
  query_fields_async_p p sql ps := act (query_fields_async p sql ps);
  query_row_async_p p sql := act (query_row_async p sql);
  query_named_fields_async_p p sql ps := act (query_named_fields_async p sql ps);
|}.

Section Threads.
Context {C : Type → Type → Type} {P E : Type} `{LruOps C} `{Hasher} `{!ProviderThreads C P E}.
Abbreviation World := (World C P E).
Abbreviation Handle := (ProviderHandle P).

(** ** The shared state *)

(** What has happened: the generations handed out and to which thread, the
    handles published, under which name and whether as the default, what
    providers answered to a handle's calls, and the names registered at each
    version of the registry. *)
Record Record_ := {
  allocated : N;
  owner : gmap N nat;
  made : gmap N Handle;
  made_as : gmap N (str * bool);
  answers : list (Handle * ResultCacheKey * KnowledgeResult QueryResponse);
  versions : list (N * gset str);
}.
Definition record_new : Record_ :=
  {| allocated := 0; owner := ∅; made := ∅; made_as := ∅; answers := []; versions := [(0%N, ∅)] |}.
Definition note_allocated (i : nat) (r : Record_) : Record_ :=
  {| allocated := allocated r + 1; owner := <[allocated r + 1 := i]> (owner r); made := made r;
     made_as := made_as r; answers := answers r; versions := versions r |}%N.
Definition note_made (name : str) (is_default : bool) (h : Handle) (r : Record_) : Record_ :=
  {| allocated := allocated r; owner := owner r; made := <[generation h := h]> (made r);
     made_as := <[generation h := (name, is_default)]> (made_as r); answers := answers r; versions := versions r |}.
Definition note_answer (a : Handle * ResultCacheKey * KnowledgeResult QueryResponse) (r : Record_) : Record_ :=
  {| allocated := allocated r; owner := owner r; made := made r; made_as := made_as r;
     answers := a :: answers r; versions := versions r |}.
Definition note_version (v : N * gset str) (r : Record_) : Record_ :=
  {| allocated := allocated r; owner := owner r; made := made r; made_as := made_as r;
     answers := answers r; versions := versions r ++ [v] |}.

Record Shared := { sw : World; memo : RouteMemo; seen : Record_ }.
Definition set_sw (w : World) (s : Shared) : Shared := {| sw := w; memo := memo s; seen := seen s |}.
Definition set_memo (m : RouteMemo) (s : Shared) : Shared := {| sw := sw s; memo := m; seen := seen s |}.
Definition set_seen (r : Record_) (s : Shared) : Shared := {| sw := sw s; memo := memo s; seen := r |}.

Definition shared_new (w : World) : Shared := {| sw := w; memo := route_memo; seen := record_new |}.

(** ** Actions *)

Abbreviation T := (Prog Shared).

Definition load {A} (f : World → A) : T A := act (gets (λ s, f (sw s))).
(** an action of the runtime, and what of it is put on record *)
Definition noting {A} (m : St World A) (note : A → World → Record_ → Record_) : T A :=
  act (λ s, let '(a, w) := m (sw s) in
            (a, {| sw := w; memo := memo s; seen := note a w (seen s) |})).
Definition at_once {A} (m : St World A) : T A := noting m (λ _ _ r, r).
Definition work {A} (p : Prog World A) : T A := on_part sw set_sw p.

Definition try_p {A B} (m : T (KnowledgeResult A)) (k : A → T (KnowledgeResult B)) : T (KnowledgeResult B) :=
  r ← m; match r with Ok a => k a | Err e => Ret (Err e) end.

(** ** Installing providers *)

(** the registry as it is after an action *)
Definition registered (w : World) : N * gset str :=
  (named_provider_epoch (rt w), dom (named_providers (rt w))).
Definition noting_version {A} (m : St World A) (note : Record_ → Record_) : T A :=
  noting m (λ _ w r, note_version (registered w) (note r)).

(** thread [i] installs *)
Definition install_provider_named_p (i : nat) (name : str) (k : ProviderKind) (ds : DatasourceId)
    (build : Generation → Prog World (KnowledgeResult P)) (is_default : bool) : T (KnowledgeResult Generation) :=
  g ← noting (λ w, let g := wrap64 (next_generation (rt w) + 1) in (g, set_rt (set_next_generation g (rt w)) w))
        (λ _ _, note_allocated i);
  built ← work (build g);
  match built with
  | Err err =>
      at_once (record reload_failures);;
      at_once (report (ReloadTelemetryEvent Failure k));;
      Ret (Err err)
  | Ok p =>
      let handle := {| executor := p; datasource_id := ds; generation := g; kind := k |} in
      noting_version (on_rt (λ r, set_named_providers (<[name := handle]> (named_providers r)) r))
        (note_made name is_default handle);;
      noting_version (on_rt (λ r, set_named_provider_epoch (wrap64 (named_provider_epoch r + 1)) r)) id;;
      pwhen is_default (
        at_once (on_rt (λ r, set_provider_epoch (wrap64 (provider_epoch r + 1)) r));;
        at_once (on_rt (set_provider (Some handle)));;
        at_once (on_rt (set_current_generation_value g));;
        at_once (on_rt (λ r, set_provider_epoch (wrap64 (provider_epoch r + 1)) r)));;
      at_once (record reload_successes);;
      at_once (report (ReloadTelemetryEvent Success k));;
      Ret (Ok g)
  end.

(** under the write lock, the version included *)
Definition prune_named_providers_except_p (keep : gset str) : T unit :=
  noting_version (prune_named_providers_except keep) id.

(** ** Configuration *)

Definition configure_result_cache_p (en : bool) (cap : nat) (d : N) : T unit :=
  let new_config := {| enabled := en; capacity := Nat.max cap 1; ttl := N.max d (from_millis 1) |} in
  should_reset_cache ← at_once (λ w,
    let old := result_cache_config (rt w) in
    (negb (bool_decide (capacity old = capacity new_config)) || (negb (enabled new_config) && enabled old),
     set_rt (set_result_cache_config new_config (rt w)) w));
  at_once (on_rt (set_result_cache_enabled_flag (enabled new_config)));;
  at_once (on_rt (set_result_cache_ttl_ms (N.min (as_millis (ttl new_config)) u64_max)));;
  pwhen should_reset_cache (at_once (on_rt (set_result_cache (lru_new (capacity new_config))))).

(** ** Executing queries *)

Definition fetch_result_cache_by_key_p (key : ResultCacheKey) : T (option QueryResponse) :=
  en ← load (λ w, result_cache_enabled (rt w));
  if negb en then Ret None
  else
    cached ← load (λ w, lru_peek key (result_cache (rt w)));
    match cached with
    | None => Ret None
    | Some cached =>
        now ← load now;
        ttl ← load (λ w, result_cache_ttl (rt w));
        if (ttl <? elapsed now (cached_at cached))%N
        then at_once (on_rt (λ r, set_result_cache (lru_pop key (result_cache r)) r));; Ret None
        else Ret (Some (response cached))
    end.

(** counted and reported *)
Definition serve_hit_p (h : Handle) (hit : QueryResponse) : T (KnowledgeResult QueryResponse) :=
  at_once record_result_cache_hit;;
  at_once (report (CacheTelemetryEvent LayerResult Hit (Some (kind h))));;
  Ret (Ok hit).

Definition ask_provider_p (h : Handle) (use_global_cache : bool) (key : ResultCacheKey) (tag : QueryModeTag)
    (call : Prog World (KnowledgeResult QueryResponse)) : T (KnowledgeResult QueryResponse) :=
  pwhen use_global_cache (
    at_once record_result_cache_miss;;
    at_once (report (CacheTelemetryEvent LayerResult Miss (Some (kind h)))));;
  started ← load now;
  resp ← work call;
  finished ← noting (gets now) (λ _ _, note_answer (h, key, resp));
  match resp with
  | Err err =>
      at_once (report (QueryTelemetryEvent (kind h) tag false (elapsed finished started)));;
      Ret (Err err)
  | Ok resp =>
      at_once (report (QueryTelemetryEvent (kind h) tag true (elapsed finished started)));;
      pwhen use_global_cache (at_once (save_result_cache_by_key key resp));;
      Ret (Ok resp)
  end.

Definition cached_call_p (h : Handle) (policy : CachePolicy) (key : ResultCacheKey) (tag : QueryModeTag)
    (call : Prog World (KnowledgeResult QueryResponse)) : T (KnowledgeResult QueryResponse) :=
  use_global_cache ← (if use_global policy then load (λ w, result_cache_enabled (rt w)) else Ret false);
  hit ← (if use_global_cache then fetch_result_cache_by_key_p key else Ret None);
  match hit with
  | Some hit => serve_hit_p h hit
  | None => ask_provider_p h use_global_cache key tag call
  end.

(** the provider's method for a request *)
Definition call_p (async : bool) (h : Handle) (req : QueryRequest) : Prog World (KnowledgeResult QueryResponse) :=
  let params := params_to_fields (req_params req) in
  match req_mode req with
  | Many =>
      if bool_decide (params = [])
      then fmap (M := Prog World) (fmap Rows) ((if async then query_async_p else query_p) (executor h) (req_sql req))
      else fmap (M := Prog World) (fmap Rows)
             ((if async then query_fields_async_p else query_fields_p) (executor h) (req_sql req) params)
  | FirstRow =>
      if bool_decide (params = [])
      then fmap (M := Prog World) (fmap Row)
             ((if async then query_row_async_p else query_row_p) (executor h) (req_sql req))
      else fmap (M := Prog World) (fmap Row)
             ((if async then query_named_fields_async_p else query_named_fields_p) (executor h) (req_sql req) params)
  end.

(** [execute_with_handle] and [execute_async_with_handle] *)
Definition execute_with_handle_p (async : bool) (h : Handle) (req : QueryRequest) : T (KnowledgeResult QueryResponse) :=
  cached_call_p h (req_cache_policy req) (result_cache_key h req) (query_mode_tag (req_mode req))
    (call_p async h req).

Definition current_handle_p : T (KnowledgeResult Handle) := load (λ w, current_handle (rt w)).
Definition provider_by_name_p (name : str) : T (KnowledgeResult Handle) :=
  load (λ w, provider_by_name name (rt w)).

(** on another thread for SQLite, and awaited *)
Definition execute_p (async : bool) (req : QueryRequest) : T (KnowledgeResult QueryResponse) :=
  try_p current_handle_p (λ h,
    execute_with_handle_p (async && negb (bool_decide (kind h = SqliteAuthority))) h req).
Definition execute_for_p (async : bool) (name : str) (req : QueryRequest) : T (KnowledgeResult QueryResponse) :=
  try_p (provider_by_name_p name) (λ h, execute_with_handle_p async h req).

(** the provider's method for a first row *)
Definition row_call_p (async : bool) (h : Handle) (sql : str) (params : list DataField)
  : Prog World (KnowledgeResult QueryResponse) :=
  if bool_decide (params = [])
  then fmap (M := Prog World) (fmap Row) ((if async then query_row_async_p else query_row_p) (executor h) sql)
  else fmap (M := Prog World) (fmap Row)
         ((if async then query_named_fields_async_p else query_named_fields_p) (executor h) sql params).

Definition execute_first_row_fields_with_handle_p (async : bool) (h : Handle) (sql : str) (params : list DataField)
    (policy : CachePolicy) : T (KnowledgeResult RowData) :=
  fmap (M := T) (fmap into_row)
    (cached_call_p h policy (result_cache_key_fields h sql params TagFirstRow) TagFirstRow
       (row_call_p async h sql params)).

Definition execute_first_row_fields_p (async : bool) (sql : str) (params : list DataField) (policy : CachePolicy)
  : T (KnowledgeResult RowData) :=
  try_p current_handle_p (λ h,
    execute_first_row_fields_with_handle_p (async && negb (bool_decide (kind h = SqliteAuthority))) h sql params policy).
Definition execute_first_row_fields_for_p (async : bool) (name sql : str) (params : list DataField)
    (policy : CachePolicy) : T (KnowledgeResult RowData) :=
  try_p (provider_by_name_p name) (λ h, execute_first_row_fields_with_handle_p async h sql params policy).

(** ** The generation and routing *)

Definition current_generation_p : T (option Generation) :=
  epoch_before ← load (λ w, provider_epoch (rt w));
  if (epoch_before `mod` 2 =? 1)%N then load (λ w, current_generation_from_provider (rt w))
  else
    generation ← load (λ w, current_generation_value (rt w));
    epoch_after ← load (λ w, provider_epoch (rt w));
    if negb (epoch_before =? epoch_after)%N then load (λ w, current_generation_from_provider (rt w))
    else Ret (if (generation =? 0)%N then None else Some generation).

Definition compute_route_p (sql : str) : T (option (str * str)) :=
  match first_table_name sql with
  | None => Ret None
  | Some table =>
      match head (split_char DOT table) with
      | None => Ret None
      | Some name =>
          if bool_decide (name = []) then Ret None
          else
            has ← load (λ w, provider_exists (rt w) name);
            Ret (if negb has then None else Some (name, strip_provider_prefix sql name))
      end
  end.

(** under the memo's read lock, then under its write lock *)
Definition memo_hit (epoch key : N) (m : RouteMemo) : option (option (str * str)) :=
  if (memo_epoch m =? epoch)%N then memo_map m !! key else None.
Definition memo_store (epoch key : N) (routed : option (str * str)) (m : RouteMemo) : RouteMemo :=
  let map := if negb (memo_epoch m =? epoch)%N then ∅ else memo_map m in
  let map := if bool_decide (ROUTE_MEMO_CAP ≤ size map) then ∅ else map in
  {| memo_epoch := epoch; memo_map := <[key := routed]> map |}.

Definition route_provider_sql_p (sql : str) : T (option (str * str)) :=
  epoch ← load (λ w, named_provider_epoch (rt w));
  let key := sql_route_key finish sql in
  hit ← act (gets (λ s, memo_hit epoch key (memo s)));
  match hit with
  | Some routed => Ret routed
  | None =>
      routed ← compute_route_p sql;
      act (modify (λ s, set_memo (memo_store epoch key routed (memo s)) s));;
      Ret routed
  end.

(** ** A pool of calls *)

Inductive Op :=
| Execute (async : bool) (req : QueryRequest)
| ExecuteFor (async : bool) (name : str) (req : QueryRequest)
| FirstRowOf (async : bool) (sql : str) (params : list DataField) (policy : CachePolicy)
| FirstRowFor (async : bool) (name sql : str) (params : list DataField) (policy : CachePolicy)
| InstallNamed (name : str) (k : ProviderKind) (ds : DatasourceId)
    (build : Generation → Prog World (KnowledgeResult P)) (is_default : bool)
| Prune (keep : gset str)
| Configure (en : bool) (cap : nat) (d : N)
| CurrentGeneration
| RouteSql (sql : str).

Inductive Outcome :=
| Answer (r : KnowledgeResult QueryResponse)
| AnswerRow (r : KnowledgeResult RowData)
| Installed (r : KnowledgeResult Generation)
| Generated (g : option Generation)
| Routed (r : option (str * str))
| Finished.

(** thread [i] makes the call *)
Definition op_prog (i : nat) (o : Op) : T Outcome :=
  match o with
  | Execute async req => fmap (M := T) Answer (execute_p async req)
  | ExecuteFor async name req => fmap (M := T) Answer (execute_for_p async name req)
  | FirstRowOf async sql params policy => fmap (M := T) AnswerRow (execute_first_row_fields_p async sql params policy)
  | FirstRowFor async name sql params policy =>
      fmap (M := T) AnswerRow (execute_first_row_fields_for_p async name sql params policy)
  | InstallNamed name k ds build is_default =>
      fmap (M := T) Installed (install_provider_named_p i name k ds build is_default)
  | Prune keep => fmap (M := T) (λ _, Finished) (prune_named_providers_except_p keep)
  | Configure en cap d => fmap (M := T) (λ _, Finished) (configure_result_cache_p en cap d)
  | CurrentGeneration => fmap (M := T) Generated current_generation_p
  | RouteSql sql => fmap (M := T) Routed (route_provider_sql_p sql)
  end.

Definition pool_of (w : World) (ops : list Op) : Pool Shared Outcome :=
  {| shared := shared_new w; threads := imap op_prog ops |}.

(** the clock goes on, and what lies outside the program changes *)
Inductive Ev := Pass (d : N) | Outside_ (f : E → E).
Definition happen (e : Ev) (s : Shared) : Shared :=
  match e with
  | Pass d => set_sw (set_now (now (sw s) + d)%N (sw s)) s
  | Outside_ f => set_sw (set_ext (f (ext (sw s))) (sw s)) s
  end.
End Threads.
