(* ===== verification/SqliteDb.v ===== *)
(** * SQLite access (src/mem/)

    Queries on a SQLite connection with the mapping of rows to fields
    (query_util.rs), the pooled database (memdb.rs), the snapshots each thread
    keeps of the authority file (thread_clone.rs) and the stub (stub.rs).
    [rusqlite], [r2d2] and the backup API are the class [SqliteLib]; the files
    and the CSV reader are those of Loader.v. *)
From S2P Require Import Prelude Errors RustStr Model Lru SqlRoute Runtime.
From S2P Require Loader.
Import Model.Param.

(** ** Values and rows *)

(** what [ToSql for SqlNamedParam] hands to SQLite *)
Definition to_sql (f : DataField) : SqlValue :=
  match get_value f with
  | Bool v => SqlInteger (if v then 1 else 0)
  | Null => SqlNull
  | Chars v => SqlText v
  | Symbol v => SqlText v
  | Time v => SqlText (display v)
  | Int v => SqlInteger v
  | BigUint v => SqlText (dec v)
  | Hex v => SqlText (display v)
  | Float v => SqlReal v
  | IpNet v => SqlText (display v)
  | Ip v => SqlText (ip_to_string v)
  | Ignore _ => SqlNull
  | Obj v => SqlText (debug v)
  | Array v => SqlText (debug v)
  | Domain v => SqlText (field0 v)
  | Url v => SqlText (field0 v)
  | Email v => SqlText (field0 v)
  | IdCard v => SqlText (field0 v)
  | MobilePhone v => SqlText (field0 v)
  end.

Definition rule_error : KnowledgeError := know_err from_rule [F "source error"].
Definition res_error : KnowledgeError := know_err from_res [F "source error"].
Definition conf_error : KnowledgeError := know_err from_conf [F "source error"].

(** one arm of [map_row] *)
Definition map_value (name : str) (v : SqlValue) : KnowledgeResult DataField :=
  match v with
  | SqlNull => Ok (field_new DtDefault name Null)
  | SqlInteger z => Ok (from_int name z)
  | SqlReal f => Ok (from_float name f)
  | SqlText v => if utf8_valid v then Ok (from_chars name v) else Err rule_error
  | SqlBlob v => Ok (from_chars name (from_utf8_lossy v))
  end.

(** the columns from the [i]-th on; a column the row lacks is an error *)
Fixpoint map_cols (row : list SqlValue) (i : nat) (col_names : list str) : KnowledgeResult RowData :=
  match col_names with
  | [] => Ok []
  | col_name :: col_names =>
      value ← ok_or (row !! i) rule_error;
      field ← map_value col_name value;
      result ← map_cols row (S i) col_names;
      Ok (field :: result)
  end.
Definition map_row (row : list SqlValue) (col_names : list str) : KnowledgeResult RowData :=
  map_cols row 0 col_names.

(** the outcomes of stepping a statement, collected *)
Fixpoint map_rows (col_names : list str) (rows : list (Result str (list SqlValue)))
  : KnowledgeResult (list RowData) :=
  match rows with
  | [] => Ok []
  | row :: rows =>
      row ← map_err (λ _, rule_error) row;
      fields ← map_row row col_names;
      all_result ← map_rows col_names rows;
      Ok (fields :: all_result)
  end.

(** one step only *)
Definition map_first (col_names : list str) (rows : list (Result str (list SqlValue)))
  : KnowledgeResult RowData :=
  match rows with
  | [] => Ok []
  | row :: _ => row ← map_err (λ _, rule_error) row; map_row row col_names
  end.

(** ** The library *)

(** a statement's parameters, by name or by position *)
Inductive BoundParams := Named (params : list (str * SqlValue)) | Positional (params : list SqlValue).

Inductive Manager := MemoryManager | FileManager (uri : str) (flags : list str).

(** [rusqlite], [r2d2] and the backup API over their own state [L].  A query
    gives the outcomes of its steps, in order; errors are texts. *)
Class SqliteLib (L : Type) := {
  Connection : Type;
  Pool : Type;
  Stmt : Type;
  pool_build : Manager → N → St L (Result str Pool);
  pool_get : Pool → St L (Result str Connection);
  register_functions : Connection → St L unit;
  conn_execute : Connection → str → St L (Result str unit);
  query_count : Connection → str → St L (Result str N);
  prepare_cached : Connection → str → St L (Result str Stmt);
  prepare : Connection → str → St L (Result str Stmt);
  (** [column_name(i)] for every column *)
  column_names : Stmt → list (Result str str);
  stmt_query : Stmt → BoundParams → St L (Result str (list (Result str (list SqlValue))));
  stmt_execute : Stmt → list str → St L (Result str unit);
  open_read_only : str → St L (Result str Connection);
  open_in_memory : St L (Result str Connection);
  open_with_flags : str → list str → St L (Result str Connection);
  execute_batch : Connection → str → St L (Result str unit);
  backup_new : Connection → Connection → St L (Result str unit);
  backup_run : Connection → Connection → St L (Result str unit);
}.

(** [TLS_DB] of one thread *)
Record ThreadLocalState {L} `{SqliteLib L} := {
  authority_path : str;
  tls_generation : Generation;
  tls_conn : Connection;
}.

(** what lies outside the runtime: the library's state, the running thread and
    the threads' cells *)
Record Outside {L} `{SqliteLib L} := {
  lib : L;
  thread : nat;
  TLS_DB : gmap nat ThreadLocalState;
}.
Arguments Outside L {_}.

Section Sqlite.
Context {C : Type → Type → Type} {P L : Type} `{LruOps C} `{Hasher} `{SqliteLib L}.
Abbreviation World := (World C P (Outside L)).
Abbreviation M := (St World).
Implicit Types (w : World).

Definition set_lib (l : L) (e : Outside L) : Outside L :=
  {| lib := l; thread := thread e; TLS_DB := TLS_DB e |}.
Definition set_tls (s : ThreadLocalState) (e : Outside L) : Outside L :=
  {| lib := lib e; thread := thread e; TLS_DB := <[thread e := s]> (TLS_DB e) |}.

(** a call of the library, its error turned into [e] *)
Definition on_lib {A} (m : St L A) : M A := λ w,
  let '(a, l) := m (lib (ext w)) in (a, set_ext (set_lib l (ext w)) w).
Definition call {A} (e : KnowledgeError) (m : St L (Result str A)) : M (KnowledgeResult A) :=
  fmap (M := M) (map_err (λ _, e)) (on_lib m).

(** ** Queries (src/mem/query_util.rs) *)

Definition extract_col_names (stmt : Stmt) : list str :=
  (λ r, match r with Ok name => name | Err _ => [] end) <$> column_names stmt.

Fixpoint all_names (l : list (Result str str)) : KnowledgeResult (list str) :=
  match l with
  | [] => Ok []
  | name :: l => name ← map_err (λ _, rule_error) name; names ← all_names l; Ok (name :: names)
  end.

Definition extract_col_names_cached (stmt : Stmt) (sql : str) : M (KnowledgeResult (list str)) :=
  metadata_cache_get_or_try_init sql (mret (Some <$> all_names (column_names stmt))).

Definition extract_col_names_cached_with_scope (stmt : Stmt) (scope : MetadataCacheScope)
    (provider_kind : option ProviderKind) (sql : str) : M (KnowledgeResult (list str)) :=
  metadata_cache_get_or_try_init_for_scope scope provider_kind sql
    (mret (Some <$> all_names (column_names stmt))).

(** the body of the six query functions: prepare, column names, query, map *)
Definition run_query {A} (names : Stmt → M (KnowledgeResult (list str)))
    (collect : list str → list (Result str (list SqlValue)) → KnowledgeResult A)
    (conn : Connection) (sql : str) (params : BoundParams) : M (KnowledgeResult A) :=
  stmt ←? call rule_error (prepare_cached conn sql);
  col_names ←? names stmt;
  rows ←? call rule_error (stmt_query stmt params);
  mret (collect col_names rows).

Definition uncached (stmt : Stmt) : M (KnowledgeResult (list str)) := mret (Ok (extract_col_names stmt)).

Definition query := run_query uncached map_rows.
Definition query_first_row := run_query uncached map_first.
Definition query_cached conn sql params : M (KnowledgeResult (list RowData)) :=
  run_query (λ stmt, extract_col_names_cached stmt sql) map_rows conn sql params.
Definition query_first_row_cached conn sql params : M (KnowledgeResult RowData) :=
  run_query (λ stmt, extract_col_names_cached stmt sql) map_first conn sql params.
Definition query_cached_with_scope conn scope provider_kind sql params
  : M (KnowledgeResult (list RowData)) :=
  run_query (λ stmt, extract_col_names_cached_with_scope stmt scope provider_kind sql) map_rows
    conn sql params.
Definition query_first_row_cached_with_scope conn scope provider_kind sql params
  : M (KnowledgeResult RowData) :=
  run_query (λ stmt, extract_col_names_cached_with_scope stmt scope provider_kind sql) map_first
    conn sql params.

(** ** The pooled database (src/mem/memdb.rs) *)

Definition no_params : BoundParams := Positional [].
Definition named_refs (params : list DataField) : BoundParams :=
  Named ((λ f, (get_name f, to_sql f)) <$> params).

(** a connection of the pool with the functions registered *)
Definition with_pool {A} (conn : Pool) (f : Connection → M (KnowledgeResult A)) : M (KnowledgeResult A) :=
  c ←? call res_error (pool_get conn);
  on_lib (register_functions c);;
  f c.

Definition first_of : list RowData → RowData := λ rows, default [] (head rows).
Definition Sqlite_kind : option ProviderKind := Some SqliteAuthority.

End Sqlite.

Module MemDB.
Section MemDB.
Context {C : Type → Type → Type} {P L : Type} `{LruOps C} `{Hasher} `{SqliteLib L}.
Abbreviation M := (St (World C P (Outside L))).

Definition query (conn : Pool) (sql : str) : M (KnowledgeResult (list RowData)) :=
  with_pool conn (λ c, query_cached c sql no_params).
Definition query_row (conn : Pool) (sql : str) : M (KnowledgeResult RowData) :=
  with_pool conn (λ c, query_first_row_cached c sql no_params).
Definition query_row_params (conn : Pool) (sql : str) (params : BoundParams)
  : M (KnowledgeResult RowData) := with_pool conn (λ c, query_first_row_cached c sql params).

Definition query_with_scope (conn : Pool) (scope : MetadataCacheScope) (sql : str)
  : M (KnowledgeResult (list RowData)) :=
  with_pool conn (λ c, query_cached_with_scope c scope Sqlite_kind sql no_params).
Definition query_row_with_scope (conn : Pool) (scope : MetadataCacheScope) (sql : str)
  : M (KnowledgeResult RowData) :=
  with_pool conn (λ c, query_first_row_cached_with_scope c scope Sqlite_kind sql no_params).
Definition query_fields_with_scope (conn : Pool) (scope : MetadataCacheScope) (sql : str)
    (params : list DataField) : M (KnowledgeResult (list RowData)) :=
  with_pool conn (λ c, query_cached_with_scope c scope Sqlite_kind sql (named_refs params)).
Definition query_named_fields_with_scope (conn : Pool) (scope : MetadataCacheScope) (sql : str)
    (params : list DataField) : M (KnowledgeResult RowData) :=
  fmap (M := M) (fmap first_of) (query_fields_with_scope conn scope sql params).
Definition query_fields (conn : Pool) (sql : str) (params : list DataField)
  : M (KnowledgeResult (list RowData)) :=
  with_pool conn (λ c, query_cached c sql (named_refs params)).
Definition query_named_fields (conn : Pool) (sql : str) (params : list DataField)
  : M (KnowledgeResult RowData) := fmap (M := M) (fmap first_of) (query_fields conn sql params).

Definition instance : M (Result str Pool) := on_lib (pool_build MemoryManager 1).
Definition shared_pool (max_size : N) : M (KnowledgeResult Pool) :=
  call res_error (pool_build (FileManager (lit "file:wp_knowledge_shm?mode=memory&cache=shared")
    [lit "SQLITE_OPEN_READ_WRITE"; lit "SQLITE_OPEN_CREATE"; lit "SQLITE_OPEN_URI"]) max_size).
Definition new_file (path : str) (max_size : N) (flags : list str) : M (KnowledgeResult Pool) :=
  call res_error (pool_build (FileManager path flags) max_size).

(** with any error type of the caller's, here texts *)
Definition with_conn {T} (conn : Pool) (f : Connection → M (Result str T)) : M (Result str T) :=
  c ←? on_lib (pool_get conn); f c.

(** [table_create], [table_clean] and [execute] are one body *)
Definition execute (conn : Pool) (sql : str) : M (KnowledgeResult unit) :=
  c ←? call res_error (pool_get conn);
  call rule_error (conn_execute c sql).
Definition table_create := execute.
Definition table_clean := execute.

Definition check_data (conn : Pool) (table : str) (scope : N * N) : M (KnowledgeResult N) :=
  c ←? call res_error (pool_get conn);
  count ←? call rule_error (query_count c (lit "select count(*) from " ++ table));
  mret (if (scope.1 <=? count)%N then Ok count
        else Err (know_err from_conf [F "table data less"])).
End MemDB.
End MemDB.

(** the [Display] text of the reader's error at a record *)
Class CsvErrors `{Loader.Files} := { record_error : Loader.Reader → nat → str }.

Module TableLoad.
Section TableLoad.
Context {C : Type → Type → Type} {P L : Type} `{LruOps C} `{Hasher} `{SqliteLib L} `{CsvErrors}.
Abbreviation M := (St (World C P (Outside L))).

Definition max_col (cols : list nat) : option nat :=
  match cols with [] => None | c :: cols => Some (foldl Nat.max c cols) end.

Definition short_record (line : nat) (max_col len : nat) : KnowledgeError :=
  know_err from_rule
    [F "csv has insufficient columns at line "; Num (N.of_nat line); F ": need index ";
     Num (N.of_nat max_col); F ", got "; Num (N.of_nat len); F " columns"].

Definition missing_column (line ci : nat) : KnowledgeError :=
  know_err from_rule [F "line "; Num (N.of_nat line); F " col "; Num (N.of_nat ci); F " missing"].

Fixpoint pick (line : nat) (record : list str) (cols : list nat) : KnowledgeResult (list str) :=
  match cols with
  | [] => Ok []
  | ci :: cols =>
      v ← ok_or (record !! ci) (missing_column line ci);
      vs ← pick line record cols;
      Ok (v :: vs)
  end.

(** the record loop; [idx] counts the records read, [load_cnt] the rows inserted *)
Fixpoint load_records (stmt : Stmt) (rdr : Loader.Reader) (cols : list nat) (max : nat)
    (records : list (option (list str))) (idx load_cnt : nat) : M (KnowledgeResult nat) :=
  match records with
  | [] => mret (Ok load_cnt)
  | result :: records =>
      if bool_decide (max ≤ load_cnt) then mret (Ok load_cnt)
      else
        match result with
        | None =>
            mret (Err (know_err from_rule
              [F "read csv record failed at line "; Num (N.of_nat (S idx)); F ": "; D (record_error rdr idx)]))
        | Some record =>
            let short :=
              match max_col cols with
              | Some m => if bool_decide (length record ≤ m) then Some m else None
              | None => None
              end in
            match short with
            | Some m => mret (Err (short_record (S idx) m (length record)))
            | None =>
                match pick (S idx) record cols with
                | Err e => mret (Err e)
                | Ok vec =>
                    _ ←? call rule_error (stmt_execute stmt vec);
                    load_records stmt rdr cols max records (S idx) (S load_cnt)
                end
            end
        end
  end.

Definition csv_defaults : Loader.CsvOptions :=
  {| Loader.opt_has_headers := true; Loader.opt_delimiter := None; Loader.opt_trim_all := false |}.

Definition table_load (conn : Pool) (sql csv_path : str) (cols : list nat) (max : nat)
  : M (KnowledgeResult nat) :=
  if negb (Loader.file_exists csv_path) then mret (Ok 0)
  else
    match Loader.csv_open csv_defaults csv_path with
    | None => mret (Err res_error)
    | Some rdr =>
        c ←? call res_error (pool_get conn);
        stmt ←? call rule_error (prepare c sql);
        load_records stmt rdr cols max (Loader.csv_records rdr) 0 0
    end.
End TableLoad.
End TableLoad.

(** ** Snapshots of the authority file, one per thread (src/mem/thread_clone.rs) *)

Record ThreadClonedMDB := { db_path : str; metadata_scope : MetadataCacheScope }.

Module ThreadClone.
Definition STANDALONE : DatasourceId := lit "sqlite:standalone".

Definition from_authority_with_scope (path : str) (ds : DatasourceId) (g : Generation) : ThreadClonedMDB :=
  {| db_path := path;
     metadata_scope := {| scope_datasource_id := ds; scope_generation := g |} |}.
Definition from_authority_with_generation (path : str) (g : Generation) : ThreadClonedMDB :=
  from_authority_with_scope path STANDALONE g.
Definition from_authority (path : str) : ThreadClonedMDB := from_authority_with_scope path STANDALONE 0.

Section Clone.
Context {C : Type → Type → Type} {P L : Type} `{LruOps C} `{Hasher} `{SqliteLib L}.
Abbreviation World := (World C P (Outside L)).
Abbreviation M := (St World).

Definition db_generation (db : ThreadClonedMDB) : Generation := scope_generation (metadata_scope db).

Definition should_rebuild (db : ThreadClonedMDB) (cell : option ThreadLocalState) : bool :=
  match cell with
  | Some state =>
      negb (bool_decide (authority_path state = db_path db))
      || negb (tls_generation state =? db_generation db)%N
  | None => true
  end.

(** copy the authority file into a new in-memory database and keep it *)
Definition rebuild (db : ThreadClonedMDB) : M (KnowledgeResult Connection) :=
  src ←? call res_error (open_read_only (db_path db));
  dst ←? call res_error open_in_memory;
  _ ←? call conf_error (backup_new src dst);
  _ ←? call res_error (backup_run src dst);
  on_lib (register_functions dst);;
  modify (λ w, set_ext (set_tls {| authority_path := db_path db; tls_generation := db_generation db;
                                   tls_conn := dst |} (ext w)) w);;
  mret (Ok dst).

(** a failed copy leaves the cell as it was *)
Definition with_tls_conn {A} (db : ThreadClonedMDB) (f : Connection → M (KnowledgeResult A))
  : M (KnowledgeResult A) :=
  cell ← gets (λ w : World, TLS_DB (ext w) !! thread (ext w));
  match cell with
  | Some state =>
      if should_rebuild db cell then conn ←? rebuild db; f conn else f (tls_conn state)
  | None => conn ←? rebuild db; f conn
  end.

Definition query_fields_with_scope (db : ThreadClonedMDB) (sql : str) (params : list DataField)
  : M (KnowledgeResult (list RowData)) :=
  with_tls_conn db (λ conn,
    query_cached_with_scope conn (metadata_scope db) Sqlite_kind sql (named_refs params)).
Definition query_fields := query_fields_with_scope.
Definition query_named_fields_with_scope (db : ThreadClonedMDB) (sql : str) (params : list DataField)
  : M (KnowledgeResult RowData) := fmap (M := M) (fmap first_of) (query_fields_with_scope db sql params).
Definition query_named_fields := query_named_fields_with_scope.
Definition query_with_scope (db : ThreadClonedMDB) (sql : str) : M (KnowledgeResult (list RowData)) :=
  with_tls_conn db (λ conn, query_cached_with_scope conn (metadata_scope db) Sqlite_kind sql no_params).
Definition query_row_with_scope (db : ThreadClonedMDB) (sql : str) : M (KnowledgeResult RowData) :=
  with_tls_conn db (λ conn, query_first_row_cached_with_scope conn (metadata_scope db) Sqlite_kind sql no_params).

(** [DBQuery]: without the column-name cache *)
Definition query (db : ThreadClonedMDB) (sql : str) : M (KnowledgeResult (list RowData)) :=
  with_tls_conn db (λ conn, SqliteDb.query conn sql no_params).
Definition query_row (db : ThreadClonedMDB) (sql : str) : M (KnowledgeResult RowData) :=
  with_tls_conn db (λ conn, query_first_row conn sql no_params).
Definition query_row_params (db : ThreadClonedMDB) (sql : str) (params : BoundParams)
  : M (KnowledgeResult RowData) := with_tls_conn db (λ conn, query_first_row conn sql params).
End Clone.
End ThreadClone.

(** ** The providers over SQLite (src/facade.rs) *)

Inductive SqliteProvider {L} `{SqliteLib L} :=
| ThreadProvider (db : ThreadClonedMDB)
| MemProvider (db : Pool) (metadata_scope : MetadataCacheScope).
Arguments SqliteProvider L {_}.

Section Providers.
Context {C : Type → Type → Type} {P L : Type} `{LruOps C} `{Hasher} `{SqliteLib L}.
Abbreviation M := (St (World C P (Outside L))).

Definition provider_query (p : SqliteProvider L) (sql : str) : M (KnowledgeResult (list RowData)) :=
  match p with
  | ThreadProvider db => ThreadClone.query_with_scope db sql
  | MemProvider db scope => MemDB.query_with_scope db scope sql
  end.
Definition provider_query_fields (p : SqliteProvider L) (sql : str) (params : list DataField)
  : M (KnowledgeResult (list RowData)) :=
  match p with
  | ThreadProvider db => ThreadClone.query_fields_with_scope db sql params
  | MemProvider db scope => MemDB.query_fields_with_scope db scope sql params
  end.
Definition provider_query_row (p : SqliteProvider L) (sql : str) : M (KnowledgeResult RowData) :=
  match p with
  | ThreadProvider db => ThreadClone.query_row_with_scope db sql
  | MemProvider db scope => MemDB.query_row_with_scope db scope sql
  end.
Definition provider_query_named_fields (p : SqliteProvider L) (sql : str) (params : list DataField)
  : M (KnowledgeResult RowData) :=
  match p with
  | ThreadProvider db => ThreadClone.query_named_fields_with_scope db sql params
  | MemProvider db scope => MemDB.query_named_fields_with_scope db scope sql params
  end.

End Providers.

(** the asynchronous methods are the trait's defaults *)
#[export] Instance sqlite_provider {C : Type → Type → Type} {L} `{LruOps C, Hasher, SqliteLib L}
  : ProviderExecutor C (SqliteProvider L) (Outside L) := {
  query := provider_query;
  query_fields := provider_query_fields;
  query_row := provider_query_row;
  query_named_fields := provider_query_named_fields;
  query_async := provider_query;
  query_fields_async := provider_query_fields;
  query_row_async := provider_query_row;
  query_named_fields_async := provider_query_named_fields;
}.
