(* ===== verification/Authority.v ===== *)
(** * The authority database (src/loader.rs)

    Opening the SQLite file of an authority database as a pool of one
    connection, its parent directory created, and the implementation of the
    interface [Loader.AuthorityDb] by it. *)
From S2P Require Import Prelude Errors RustStr Model Lru SqlRoute Runtime SqliteDb.
From S2P Require Loader.

(** Creating a directory with its parents, whose outcome is ignored, and the
    connection behind a pool as the loader uses it. *)
Class AuthorityFs (L : Type) `{SqliteLib L} := {
  create_dir_all : str → L → L;
  pool_sqlite : Pool → Loader.Sqlite L;
}.

Section Authority.
Context {C : Type → Type → Type} {P L : Type} `{LruOps C} `{Hasher} `{AuthorityFs L}.
Abbreviation M := (St (World C P (Outside L))).

(** [Path::parent] *)
Definition path_parent (p : str) : option str :=
  match Loader.strip_end (reverse p) with [] => None | _ => Some (Loader.parent_dir p) end.

Definition ensure_parent_dir_for_file_uri (uri : str) : St L unit :=
  if prefix_of (lit "file:") uri then
    let rest := drop 5 uri in
    let path_part := take (span (λ c, negb (c =? 63)%N) rest) rest in
    match path_parent path_part with
    | Some parent => modify (create_dir_all parent)
    | None => mret tt
    end
  else mret tt.

Definition open_authority (authority_uri : str) : M (KnowledgeResult Pool) :=
  on_lib (ensure_parent_dir_for_file_uri authority_uri);;
  db ←? MemDB.new_file authority_uri 1
          [lit "SQLITE_OPEN_READ_WRITE"; lit "SQLITE_OPEN_CREATE"; lit "SQLITE_OPEN_URI"];
  c ← on_lib (pool_get db);
  match c with Ok c => on_lib (register_functions c) | Err _ => mret tt end;;
  mret (Ok db).

#[export] Instance authority_db : Loader.AuthorityDb (World C P (Outside L)) L := {
  Handle := Pool;
  open_authority := open_authority;
  handle_sqlite := pool_sqlite;
  on_handle _ m := on_lib m;
}.
End Authority.
