(* ===== verification/Redis.v ===== *)
(** * The Redis registry and its commands (src/redis.rs)

    The static registry maps provider names to endpoint URLs and URLs to shared
    connection pools.  A command resolves the name's pool, runs on the pool's
    connection under the pool's timeout, and reports a failure or a timeout as
    an error.  The [redis] crate and the tokio timer are the class
    [RedisClient].  [exec_async] takes the command as a text. *)
From S2P Require Import Prelude Errors RustStr RustNum Model Lru Runtime.

(** an argument of a command, before the client encodes it *)
Inductive RedisArg := AStr (s : str) | AF64 (bits : N) | AI64 (z : Z).

(** what [tokio::time::timeout(d, query)] ends with: the client's error, as
    its text, or the elapsed timer *)
Inductive RedisFailure := RedisError (text : str) | Elapsed.

(** ** Registry *)

Section Registry.
Context {Conn : Type}.

Record RedisPool := { conn : Conn; command_timeout : N }.

Record RedisRegistry := {
  names : gmap str str;
  pools : gmap str RedisPool;
}.

Definition registry_new : RedisRegistry := {| names := ∅; pools := ∅ |}.

Definition register (name url : str) (pool : RedisPool) (reg : RedisRegistry)
  : KnowledgeResult unit * RedisRegistry :=
  if bool_decide (is_Some (names reg !! name))
  then (Err (know_err from_conf [F "redis provider '"; D name; F "' already registered"]), reg)
  else
    (Ok tt,
     {| names := <[name := url]> (names reg);
        pools := match pools reg !! url with
                 | Some _ => pools reg
                 | None => <[url := pool]> (pools reg)
                 end |}).

Definition resolve (name : str) (reg : RedisRegistry) : KnowledgeResult RedisPool :=
  url ← ok_or (names reg !! name)
          (know_err from_logic [F "redis provider '"; D name; F "' not found"]);
  ok_or (pools reg !! url)
    (know_err from_logic [F "redis pool for '"; D name; F "' (url="; D url; F ") missing"]).

Definition remove (name : str) (reg : RedisRegistry) : RedisRegistry :=
  match names reg !! name with
  | None => reg
  | Some url =>
      let names := delete name (names reg) in
      {| names := names;
         pools := if bool_decide (url ∈ (map_to_list names).*2) then pools reg
                  else delete url (pools reg) |}
  end.

Definition remove_all (reg : RedisRegistry) : RedisRegistry := registry_new.
End Registry.
Arguments RedisPool Conn : clear implicits.
Arguments RedisRegistry Conn : clear implicits.

(** ** Commands *)

Definition DEFAULT_COMMAND_TIMEOUT_MS : N := 100.

Definition SUPPORTED_COMMANDS : list str :=
  lit <$> ["BF.EXISTS"; "HGET"; "GET"; "SISMEMBER"; "BF.MADD"; "BF.RESERVE"].

Definition cmd_err (cmd name err : str) : KnowledgeError :=
  know_err from_logic [F "redis command '"; D cmd; F "' on '"; D name; F "' failed: "; D err].
Definition timeout_err (cmd name : str) (timeout : N) : KnowledgeError :=
  know_err from_logic
    [F "redis command '"; D cmd; F "' on '"; D name; F "' timed out after ";
     Num (as_millis timeout); F "ms"].

(** the process: the runtime's world and the static registry *)
Section Commands.
Context {C : Type → Type → Type} {P E Conn : Type}.
Abbreviation W := (World C P E).
Abbreviation Reg := (RedisRegistry Conn).

Class RedisClient := {
  (** [Client::open], then [ConnectionManager::new]: each with its error text *)
  client_open : str → Result str unit;
  connect : str → St W (Result str Conn);
  (** a command with its arguments under a timeout, by the reply's type *)
  query_bool : Conn → N → str → list RedisArg → St W (Result RedisFailure bool);
  query_opt_string : Conn → N → str → list RedisArg → St W (Result RedisFailure (option str));
  query_bools : Conn → N → str → list RedisArg → St W (Result RedisFailure (list bool));
  query_string : Conn → N → str → list RedisArg → St W (Result RedisFailure str);
  (** the text of an error of kind [TypeError] with a description *)
  type_error_text : str → str;
}.
Context `{RedisClient}.

(** [match timeout(..).await]: the three arms *)
Definition finish_cmd {A} (cmd name : str) (timeout : N) (r : Result RedisFailure A)
  : KnowledgeResult A :=
  match r with
  | Ok v => Ok v
  | Err (RedisError e) => Err (cmd_err cmd name e)
  | Err Elapsed => Err (timeout_err cmd name timeout)
  end.

Definition resolve_pool (reg : Reg) (name : str) : KnowledgeResult (N * Conn) :=
  pool ← resolve name reg; Ok (command_timeout pool, conn pool).

(** the common shape of the typed commands *)
Definition run_cmd {A} (q : Conn → N → str → list RedisArg → St W (Result RedisFailure A))
    (reg : Reg) (name cmd : str) (args : list RedisArg) : St W (KnowledgeResult A) :=
  match resolve_pool reg name with
  | Err e => mret (Err e)
  | Ok (timeout, c) => finish_cmd cmd name timeout <$> q c timeout cmd args
  end.

Definition bf_exists (reg : Reg) (name key item : str) : St W (KnowledgeResult bool) :=
  run_cmd query_bool reg name (lit "BF.EXISTS") [AStr key; AStr item].
Definition hget (reg : Reg) (name key field : str) : St W (KnowledgeResult (option str)) :=
  run_cmd query_opt_string reg name (lit "HGET") [AStr key; AStr field].
Definition get (reg : Reg) (name key : str) : St W (KnowledgeResult (option str)) :=
  run_cmd query_opt_string reg name (lit "GET") [AStr key].
Definition set_exists (reg : Reg) (name key member : str) : St W (KnowledgeResult bool) :=
  run_cmd query_bool reg name (lit "SISMEMBER") [AStr key; AStr member].
Definition bf_madd (reg : Reg) (name key : str) (items : list str)
  : St W (KnowledgeResult (list bool)) :=
  run_cmd query_bools reg name (lit "BF.MADD") (AStr key :: (AStr <$> items)).
Definition bf_reserve (reg : Reg) (name key : str) (error_rate : N) (capacity : Z)
  : St W (KnowledgeResult unit) :=
  fmap (M := St W) (fmap (λ _, tt))
    (run_cmd query_string reg name (lit "BF.RESERVE") [AStr key; AF64 error_rate; AI64 capacity]).

Definition ping_blocking (reg : Reg) (name : str) : St W (KnowledgeResult bool) :=
  match resolve_pool reg name with
  | Err e => mret (Err e)
  | Ok (timeout, c) =>
      r ← query_string c timeout (lit "PING") [];
      mret match r with
           | Ok result => Ok (bool_decide (result = lit "PONG"))
           | Err (RedisError e) =>
               Err (know_err from_logic [F "redis ping failed for '"; D name; F "': "; D e])
           | Err Elapsed =>
               Err (know_err from_logic [F "redis ping timed out for '"; D name; F "'"])
           end
  end.

(** ** A command given as a text *)

Definition min_args (cmd_upper : str) : nat :=
  if bool_decide (cmd_upper = lit "GET") then 0
  else if bool_decide (cmd_upper ∈ lit <$> ["BF.EXISTS"; "HGET"; "SISMEMBER"]) then 1
  else if bool_decide (cmd_upper = lit "BF.MADD") then 1
  else 0.

Definition show_bool (b : bool) : str := lit (if b then "1" else "0").
Fixpoint join (sep : str) (ls : list str) : str :=
  match ls with [] => [] | [l] => l | l :: ls => l ++ sep ++ join sep ls end.

(** the future: what it asks of the connection, and its reply as a text *)
Definition exec_future (c : Conn) (timeout : N) (cmd_upper key : str) (args : list str)
  : St W (Result RedisFailure str) :=
  let reply {A} (f : A → str) (m : St W (Result RedisFailure A)) : St W (Result RedisFailure str) :=
    fmap (M := St W) (fmap f) m in
  if bool_decide (cmd_upper = lit "BF.EXISTS") then
    reply show_bool (query_bool c timeout (lit "BF.EXISTS") [AStr key; AStr (default [] (args !! 0))])
  else if bool_decide (cmd_upper = lit "HGET") then
    reply (default []) (query_opt_string c timeout (lit "HGET") [AStr key; AStr (default [] (args !! 0))])
  else if bool_decide (cmd_upper = lit "GET") then
    reply (default []) (query_opt_string c timeout (lit "GET") [AStr key])
  else if bool_decide (cmd_upper = lit "SISMEMBER") then
    reply show_bool (query_bool c timeout (lit "SISMEMBER") [AStr key; AStr (default [] (args !! 0))])
  else if bool_decide (cmd_upper = lit "BF.MADD") then
    reply (λ results, if bool_decide (results = []) then [] else join (lit ",") (show_bool <$> results))
      (query_bools c timeout (lit "BF.MADD") (AStr key :: (AStr <$> args)))
  else
    match args !! 0 ≫= parse_f64, args !! 1 ≫= parse_i64 with
    | None, _ => mret (Err (RedisError (type_error_text (lit "BF.RESERVE: invalid error_rate"))))
    | _, None => mret (Err (RedisError (type_error_text (lit "BF.RESERVE: invalid capacity"))))
    | Some error_rate, Some capacity =>
        query_string c timeout (lit "BF.RESERVE") [AStr key; AF64 error_rate; AI64 capacity]
    end.

(** an upper-cased text outside ASCII is no supported command; [args] is read
    at 0 only where [min_args] has made sure of it *)
Definition exec (reg : Reg) (name cmd key : str) (args : list str) : St W (KnowledgeResult str) :=
  let unsupported := know_err from_logic [F "unsupported redis command: '"; D cmd; F "'"] in
  match to_uppercase_ascii cmd with
  | None => mret (Err unsupported)
  | Some cmd_upper =>
      if negb (bool_decide (cmd_upper ∈ SUPPORTED_COMMANDS)) then mret (Err unsupported)
      else if length args <? min_args cmd_upper then
        mret (Err (know_err from_logic
          [D cmd; F " requires at least "; Num (N.of_nat (min_args cmd_upper)); F " argument(s)"]))
      else
        match resolve_pool reg name with
        | Err e => mret (Err e)
        | Ok (timeout, c) => finish_cmd cmd name timeout <$> exec_future c timeout cmd_upper key args
        end
  end.

(** ** Initialisation *)

(** [init_with_opts] looks for a pool of the URL, connects when there is none
    and registers.  Other threads may use the registry while it connects:
    [meanwhile] is what they do to it. *)
Definition init_with_opts (name url : str) (pool_size : option nat) (command_timeout_ms : N)
    (meanwhile : Reg → Reg) (reg : Reg) : St W (KnowledgeResult unit * Reg) := λ w,
  if negb (prefix_of (lit "redis://") url) && negb (prefix_of (lit "rediss://") url)
  then ((Err (know_err from_conf [F "invalid redis url: '"; D url; F "'"]), reg), w)
  else
    match pools reg !! url with
    | Some existing => (register name url existing (meanwhile reg), w)
    | None =>
        match client_open url with
        | Err err =>
            ((Err (know_err from_conf
                     [F "redis client create failed for '"; D url; F "': "; D err]), reg), w)
        | Ok _ =>
            match connect url w with
            | (Err err, w) =>
                ((Err (know_err from_conf
                         [F "redis connect failed for '"; D url; F "': "; D err]),
                  meanwhile reg), w)
            | (Ok c, w) =>
                let pool := {| conn := c; command_timeout := from_millis command_timeout_ms |} in
                let reg := meanwhile reg in
                match pools reg !! url with
                | Some existing => (register name url existing reg, w)
                | None => (register name url pool reg, w)
                end
            end
        end
    end.

Definition init (name url : str) (pool_size : option nat) :=
  init_with_opts name url pool_size DEFAULT_COMMAND_TIMEOUT_MS.

Definition close (name : option str) (reg : Reg) : Reg :=
  match name with Some name => remove name reg | None => remove_all reg end.
End Commands.
Arguments RedisClient C P E Conn : clear implicits.

(** ** Properties *)

Section Facts.
Context {C : Type → Type → Type} {P E Conn : Type}.
Abbreviation Reg := (RedisRegistry Conn).
Implicit Types (reg : Reg) (name url : str).

(** a pool is kept exactly for the URLs that names refer to *)
Definition reg_ok reg : Prop :=
  ∀ url, is_Some (pools reg !! url) ↔ ∃ name, names reg !! name = Some url.

Lemma reg_ok_new : reg_ok registry_new.
Proof.
  intros url. cbn. rewrite lookup_empty. split; [by intros []|].
  intros [name Hn]. by rewrite lookup_empty in Hn.
Qed.

Lemma reg_ok_register reg name url pool : reg_ok reg → reg_ok (register name url pool reg).2.
Proof.
  intros Hok. unfold register. case_bool_decide as Hd; [done|]. apply eq_None_not_Some in Hd.
  intros u. cbn. destruct (decide (url = u)) as [<-|Hne].
  - split; [|by destruct (pools reg !! url) eqn:Hp; rewrite ?lookup_insert_eq, ?Hp].
    intros _. exists name. by rewrite lookup_insert_eq.
  - assert (match pools reg !! url with Some _ => pools reg | None => <[url:=pool]> (pools reg) end !! u
            = pools reg !! u) as ->
      by (destruct (pools reg !! url); [done|by apply lookup_insert_ne]).
    rewrite (Hok u). split; intros [n Hn]; exists n.
    + destruct (decide (name = n)) as [<-|]; [congruence|by rewrite lookup_insert_ne].
    + apply lookup_insert_Some in Hn as [[_ ?]|[_ ?]]; [congruence|done].
Qed.

Lemma elem_of_urls (m : gmap str str) url :
  url ∈ (map_to_list m).*2 ↔ ∃ name, m !! name = Some url.
Proof.
  rewrite list_elem_of_fmap. split.
  - intros ([n u] & -> & Hin%elem_of_map_to_list). by exists n.
  - intros [n Hn]. exists (n, url). split; [done|by apply elem_of_map_to_list].
Qed.

Lemma reg_ok_remove reg name : reg_ok reg → reg_ok (remove name reg).
Proof.
  intros Hok. unfold remove. destruct (names reg !! name) as [url|] eqn:Hn; [|done].
  intros u. cbn. case_bool_decide as Hin.
  - apply elem_of_urls in Hin as [n' Hn']. rewrite (Hok u). split; intros [n Hl].
    + destruct (decide (name = n)) as [<-|]; [|exists n; by rewrite lookup_delete_ne].
      exists n'. congruence.
    + exists n. by apply lookup_delete_Some in Hl as [_ ?].
  - rewrite elem_of_urls in Hin. destruct (decide (url = u)) as [<-|Hne].
    + rewrite lookup_delete_eq. split; [by intros []|]. intros Hex. by destruct Hin.
    + rewrite lookup_delete_ne, (Hok u) by done. split; intros [n Hl]; exists n.
      * rewrite lookup_delete_ne; [done|congruence].
      * by apply lookup_delete_Some in Hl as [_ ?].
Qed.

Inductive RegOp := Register (name url : str) (pool : RedisPool Conn) | Close (name : option str).
Definition reg_op reg (o : RegOp) : Reg :=
  match o with Register n u p => (register n u p reg).2 | Close n => close n reg end.

Lemma reg_ok_run ops reg : reg_ok reg → reg_ok (foldl reg_op reg ops).
Proof.
  revert reg. induction ops as [|[n u p|[n|]] ops IH]; intros reg Hok; cbn; [done|..]; apply IH.
  - by apply reg_ok_register.
  - by apply reg_ok_remove.
  - apply reg_ok_new.
Qed.

Lemma resolve_ok reg name url :
  reg_ok reg → names reg !! name = Some url →
  ∃ pool, pools reg !! url = Some pool ∧ resolve name reg = Ok pool.
Proof.
  intros Hok Hn. destruct (proj2 (Hok url)) as [pool Hp]; [by exists name|].
  exists pool. split; [done|]. unfold resolve, mbind, result_bind, ok_or. by rewrite Hn, Hp.
Qed.

Lemma resolve_other reg name name' : name' ≠ name → resolve name' (remove name reg) = resolve name' reg.
Proof.
  intros Hne. unfold remove. destruct (names reg !! name) as [url|] eqn:Hn; [|done].
  unfold resolve, mbind, result_bind, ok_or. cbn. rewrite lookup_delete_ne by done.
  destruct (names reg !! name') as [u|] eqn:Hn'; [|done]. case_bool_decide as Hin; [done|].
  rewrite lookup_delete_ne; [done|]. intros ->. apply Hin, elem_of_urls. exists name'.
  by rewrite lookup_delete_ne.
Qed.

Lemma resolve_register reg name url pool name' :
  reg_ok reg → names reg !! name = None →
  resolve name' (register name url pool reg).2
  = if decide (name' = name) then Ok (default pool (pools reg !! url)) else resolve name' reg.
Proof.
  intros Hok Hfree. unfold register. rewrite Hfree, bool_decide_false by (by intros []).
  unfold resolve, mbind, result_bind, ok_or. cbn. case_decide as Hd.
  - subst name'. rewrite lookup_insert_eq. destruct (pools reg !! url) as [p|] eqn:Hp.
    + by rewrite Hp.
    + by rewrite lookup_insert_eq.
  - rewrite lookup_insert_ne by done. destruct (names reg !! name') as [u|] eqn:Hn'; [|done].
    destruct (pools reg !! url) as [p|] eqn:Hp; [done|]. rewrite lookup_insert_ne; [done|].
    intros ->. destruct (proj2 (Hok u)) as [q Hq]; [by exists name'|congruence].
Qed.

(** C35. The registry in every run of registrations and closings: a pool is
    kept exactly while a name refers to its URL, so a registered name always
    resolves and the "missing pool" error cannot occur; registering takes a
    free name only, shares the pool of an already known URL, and, like closing
    a name, leaves the pools of all other names as they are. *)
Theorem redis_registry_correct (ops : list RegOp) name url pool :
  let reg := foldl reg_op registry_new ops in
  reg_ok reg
  ∧ (∀ n, match names reg !! n with
          | None => resolve n reg = Err (know_err from_logic [F "redis provider '"; D n; F "' not found"])
          | Some u => ∃ p, pools reg !! u = Some p ∧ resolve n reg = Ok p
          end)
  ∧ match names reg !! name with
    | Some _ => register name url pool reg
                = (Err (know_err from_conf [F "redis provider '"; D name; F "' already registered"]), reg)
    | None => (register name url pool reg).1 = Ok tt
              ∧ ∀ n, resolve n (register name url pool reg).2
                     = if decide (n = name) then Ok (default pool (pools reg !! url)) else resolve n reg
    end
  ∧ ∀ n, n ≠ name → resolve n (close (Some name) reg) = resolve n reg.
Proof.
  intros reg. assert (reg_ok reg) as Hok by (apply reg_ok_run, reg_ok_new). clearbody reg.
  split_and!; [done| | |intros n; apply resolve_other].
  - intros n. destruct (names reg !! n) as [u|] eqn:Hn.
    + by apply resolve_ok.
    + unfold resolve. by rewrite Hn.
  - destruct (names reg !! name) as [u|] eqn:Hn.
    + unfold register. rewrite Hn, bool_decide_true by done. done.
    + split; [|intros n; by apply resolve_register].
      unfold register. by rewrite Hn, bool_decide_false by (by intros []).
Qed.

(** the end of both successful paths of [init_with_opts] *)
Lemma register_result reg name url pool :
  reg_ok reg →
  let '(res, reg') := register name url pool reg in
  reg_ok reg'
  ∧ match res with
    | Ok _ => names reg' !! name = Some url
              ∧ (∃ p, resolve name reg' = Ok p ∧ pools reg' !! url = Some p)
              ∧ names reg !! name = None
    | Err _ => reg' = reg
    end.
Proof.
  intros Hok. pose proof (reg_ok_register reg name url pool Hok) as Hr.
  destruct (register name url pool reg) as [res reg'] eqn:Hreg. split; [done|].
  unfold register in Hreg. case_bool_decide as Hd; injection Hreg as <- <-; [done|].
  apply eq_None_not_Some in Hd. cbn in Hr |- *. rewrite lookup_insert_eq. split_and!; [done| |done].
  destruct (resolve_ok _ name url Hr) as (p & Hp & Hres); [apply lookup_insert_eq|]. by exists p.
Qed.

Context `{!RedisClient C P E Conn}.
Abbreviation W := (World C P E).

(** ** Commands as texts *)

Lemma finish_fmap {A B} (f : A → B) cmd name timeout r :
  finish_cmd cmd name timeout (f <$> r) = f <$> finish_cmd cmd name timeout r.
Proof. by destruct r as [|[]]. Qed.

(** a text reply of a typed command *)
Definition shown {A} (f : A → str) (m : St W (KnowledgeResult A)) : St W (KnowledgeResult str) :=
  fmap (M := St W) (fmap f) m.

Lemma exec_shown {A} (f : A → str) (q : Conn → N → str → list RedisArg → St W (Result RedisFailure A))
    reg name cmd key args cargs w :
  to_uppercase_ascii cmd = Some cmd → cmd ∈ SUPPORTED_COMMANDS → min_args cmd ≤ length args →
  (∀ c t, exec_future c t cmd key args w = fmap (M := St W) (fmap f) (q c t cmd cargs) w) →
  exec reg name cmd key args w = shown f (run_cmd q reg name cmd cargs) w.
Proof.
  intros Hu Hs Hm Hf. unfold exec, run_cmd. rewrite Hu, bool_decide_true by done. cbn [negb].
  rewrite (proj2 (Nat.ltb_ge _ _)) by done. destruct (resolve_pool reg name) as [[t c]|e]; [|done].
  unfold shown, fmap at 1, st_fmap at 1. rewrite Hf. unfold fmap, st_fmap. destruct (q c t cmd cargs w) as [r w']. f_equal. apply finish_fmap.
Qed.

Ltac which_cmd :=
  unfold exec_future; repeat first [rewrite bool_decide_true by done | rewrite bool_decide_false by done].

(** A command given as a text: in upper case it is the typed command with its
    reply shown - a flag as 0 or 1, a missing value as the empty text, flags
    joined by commas, the numbers of BF.RESERVE parsed; a command that is not
    supported, or too short, is an error that neither looks up the provider
    nor reaches a server; and the case of the command changes no reply. *)
Theorem exec_is_typed reg name key args w :
  exec reg name (lit "GET") key args w = shown (default []) (get reg name key) w
  ∧ (∀ x rest, args = x :: rest →
       exec reg name (lit "HGET") key args w = shown (default []) (hget reg name key x) w
       ∧ exec reg name (lit "BF.EXISTS") key args w = shown show_bool (bf_exists reg name key x) w
       ∧ exec reg name (lit "SISMEMBER") key args w = shown show_bool (set_exists reg name key x) w
       ∧ exec reg name (lit "BF.MADD") key args w
         = shown (λ bs, join (lit ",") (show_bool <$> bs)) (bf_madd reg name key args) w)
  ∧ (∀ rate cap r c rest, args = rate :: cap :: rest → parse_f64 rate = Some r → parse_i64 cap = Some c →
       fmap (M := St W) (fmap (λ _, tt)) (exec reg name (lit "BF.RESERVE") key args) w
       = bf_reserve reg name key r c w)
  ∧ (∀ cmd, match to_uppercase_ascii cmd with
            | Some u => u ∉ SUPPORTED_COMMANDS ∨ length args < min_args u
            | None => True
            end →
       ∃ e, exec reg name cmd key args w = (Err e, w) ∧ ∀ reg' name', exec reg' name' cmd key args w = (Err e, w))
  ∧ (∀ cmd cmd' v w', to_uppercase_ascii cmd = to_uppercase_ascii cmd' →
       exec reg name cmd key args w = (Ok v, w') → exec reg name cmd' key args w = (Ok v, w')).
Proof.
  split_and!.
  - apply exec_shown; try done; [by apply (bool_decide_unpack _); vm_compute|].
    by apply (bool_decide_unpack _); vm_compute.
  - intros x rest ->.
    split_and!; (eapply exec_shown; [reflexivity|by apply (bool_decide_unpack _); vm_compute|by apply (bool_decide_unpack _); vm_compute|]);
      intros c t; which_cmd; try done.
    unfold fmap, st_fmap. destruct (query_bools _ _ _ _ _) as [[[|]|] ?]; done.
  - intros rate cap r c rest -> Hr Hc. unfold exec, bf_reserve, run_cmd.
    replace (to_uppercase_ascii (lit "BF.RESERVE")) with (Some (lit "BF.RESERVE")) by done.
    rewrite bool_decide_true by (by apply (bool_decide_unpack _); vm_compute). cbn [negb].
    destruct (resolve_pool reg name) as [[t cn]|e]; [|done]. which_cmd. cbn. rewrite Hr, Hc. done.
  - intros cmd Hc. unfold exec. destruct (to_uppercase_ascii cmd) as [u|]; [|by eexists].
    case_bool_decide as Hs; [|by eexists]. destruct Hc as [|Hl]; [done|]. cbn [negb].
    apply Nat.ltb_lt in Hl as ->. by eexists.
  - intros cmd cmd' v w' Hu. unfold exec. rewrite <-Hu. destruct (to_uppercase_ascii cmd) as [u|]; [|done].
    destruct (negb _); [done|]. destruct (_ <? _); [done|]. destruct (resolve_pool reg name) as [[t c]|e]; [|done].
    unfold fmap, st_fmap. destruct (exec_future _ _ _ _ _ _) as [[x|[e|]] w1]; [done|done|done].
Qed.

(** Initialisation: whatever other threads do to the registry while it
    connects, a successful [init_with_opts] leaves the name registered under
    its URL and resolving to that URL's one pool, and an error leaves the
    registry as the other threads left it; a URL of another scheme is refused
    without connecting. *)
Theorem init_with_opts_correct name url size timeout_ms (meanwhile : Reg → Reg) reg w :
  reg_ok reg → (∀ reg, reg_ok reg → reg_ok (meanwhile reg)) →
  let '((res, reg'), w') := init_with_opts name url size timeout_ms meanwhile reg w in
  reg_ok reg'
  ∧ match res with
    | Ok _ => names reg' !! name = Some url
              ∧ (∃ pool, resolve name reg' = Ok pool ∧ pools reg' !! url = Some pool)
              ∧ names (meanwhile reg) !! name = None
    | Err _ => reg' = reg ∨ reg' = meanwhile reg
    end
  ∧ (prefix_of (lit "redis://") url = false → prefix_of (lit "rediss://") url = false →
     is_ok res = false ∧ w' = w).
Proof.
  intros Hok Hmw. unfold init_with_opts.
  destruct (prefix_of (lit "redis://") url || prefix_of (lit "rediss://") url) eqn:Hp.
  2: { apply orb_false_elim in Hp as [-> ->]. simpl. auto. }
  assert (negb (prefix_of (lit "redis://") url) && negb (prefix_of (lit "rediss://") url) = false) as ->
    by (rewrite <-negb_orb; by rewrite Hp).
  assert (∀ Q : Prop, prefix_of (lit "redis://") url = false →
            prefix_of (lit "rediss://") url = false → Q) as Hno
    by (intros Q H1 H2; by rewrite H1, H2 in Hp).
  pose proof (λ pool, register_result (meanwhile reg) name url pool (Hmw reg Hok)) as Hreg.
  destruct (pools reg !! url) as [existing|].
  { specialize (Hreg existing). destruct (register _ _ _ _) as [[] reg']; naive_solver. }
  destruct (client_open url) as [|err]; [|naive_solver].
  destruct (connect url w) as [[c|err] w']; [|naive_solver].
  cbv zeta. destruct (pools (meanwhile reg) !! url) as [existing|].
  - specialize (Hreg existing). destruct (register _ _ _ _) as [[] reg']; naive_solver.
  - specialize (Hreg {| conn := c; command_timeout := from_millis timeout_ms |}).
    destruct (register _ _ _ _) as [[] reg']; naive_solver.
Qed.
End Facts.

(** ** A concrete client

    It counts its calls in the outside state; [BF.EXISTS] is answered with
    true and [SISMEMBER] with false, [GET] and [HGET] with the command's name,
    and the URL [redis://down] cannot be connected to. *)
Definition counted {C P A} (a : A) : St (World C P N) A := λ w, (a, set_ext (ext w + 1)%N w).

#[export] Instance demo_client {C P} : RedisClient C P N N := {
  client_open _ := Ok tt;
  connect url := counted (if bool_decide (url = lit "redis://down") then Err (lit "refused") else Ok 5%N);
  query_bool _ _ cmd _ := counted (Ok (bool_decide (cmd = lit "BF.EXISTS")));
  query_opt_string _ _ cmd _ := counted (Ok (Some cmd));
  query_bools _ _ _ args := counted (Ok ((λ _, true) <$> tail args));
  query_string _ _ _ _ := counted (Ok (lit "OK"));
  type_error_text s := s ++ lit "- TypeError";
}.

Lemma init_with_opts_correct_witness :
  let r := init_with_opts (C := ListLru.t) (P := N) (E := N) (Conn := N)
             (lit "knowdb") (lit "redis://db") None 100 id registry_new (world_new 0 0%N) in
  is_ok r.1.1 = true ∧ reg_ok r.1.2.
Proof.
  intros r. split; [vm_compute; reflexivity|].
  pose proof (init_with_opts_correct (C := ListLru.t) (P := N) (E := N) (Conn := N)
                (lit "knowdb") (lit "redis://db") None 100 id registry_new (world_new 0 0%N)
                reg_ok_new (λ _ H, H)) as Hw.
  fold r in Hw. destruct r as [[res reg'] w']. exact (proj1 Hw).
Defined.

(** a command in lower case, and BF.RESERVE with numbers that do not parse *)
Example exec_texts :
  let reg := {| names := {[lit "knowdb" := lit "redis://db"]};
                pools := {[lit "redis://db" := {| conn := 5%N; command_timeout := from_millis 100 |}]} |} in
  let run cmd args := (exec (C := ListLru.t) (P := N) reg (lit "knowdb") (lit cmd) (lit "k") (lit <$> args) (world_new 0 0%N)).1 in
  run "bf.exists" ["x"] = Ok (lit "1") ∧ run "Get" [] = Ok (lit "GET")
  ∧ run "BF.MADD" ["x"; "y"] = Ok (lit "1,1")
  ∧ run "BF.RESERVE" ["0.01"; "1000"] = Ok (lit "OK")
  ∧ run "BF.RESERVE" ["1%"; "1000"] = Err (cmd_err (lit "BF.RESERVE") (lit "knowdb") (lit "BF.RESERVE: invalid error_rate- TypeError")).
Proof. vm_compute. by split_and!. Qed.
