(* ===== verification/Facade.v ===== *)
(** * The facade (src/facade.rs, src/fun.rs)

    The library's public entry points over the runtime, the caller's local
    cache, the Redis commands and the configuration: cached lookups with their
    routing to a named provider, Redis calls through the Redis result cache,
    the named calls of the [fun] sections, and the start-up from a
    configuration file. *)
From S2P Require Import Prelude Errors RustStr Model Lru LocalCache SqlRoute Runtime Redis.
From S2P Require Loader IntranetNets ProviderConfig.

(** ** Named calls (src/fun.rs) *)

Record CachedFunSpec := {
  call : Loader.FunCall;
  key : option str;
  cache_ : bool;
  fun_ttl : option N;
}.

Definition enabled (s : CachedFunSpec) : bool := cache_ s.

Definition cached_fun (spec : Loader.FunSpec) : CachedFunSpec :=
  {| call := Loader.fun_call spec; key := Loader.fun_key spec; cache_ := Loader.fun_cache spec;
     fun_ttl := Loader.fun_ttl_ms spec |}.

(** the [OnceLock]: the first registration stays *)
Definition FunMap : Type := option (gmap str CachedFunSpec).
Definition register_fun_map (m : gmap str Loader.FunSpec) (f : FunMap) : FunMap :=
  match f with Some _ => f | None => Some (cached_fun <$> m) end.

Definition returns_text (b : bool) : string := if b then "bool" else "value".

Definition resolve_spec (f : FunMap) (service : str) (returns_bool : bool)
  : KnowledgeResult CachedFunSpec :=
  map ← ok_or f (know_err from_logic [F "external: no [fun] definitions registered"]);
  spec ← ok_or (map !! service)
           (know_err from_logic [F "external service '"; D service; F "' not found"]);
  if Bool.eqb returns_bool (Loader.returns_bool (call spec)) then Ok spec
  else
    Err (know_err from_logic
           [F "external service '"; D service; F "' returns ";
            D (lit (returns_text (Loader.returns_bool (call spec)))); F ", not ";
            D (lit (returns_text returns_bool))]).

Section Facade.
Context {C : Type → Type → Type} {P E Conn : Type} `{LruOps C} `{Hasher}
  `{!ProviderExecutor C P E} `{!RedisClient C P E Conn}.
Abbreviation World := (World C P E).
Abbreviation M := (St World).

(** ** Keys of the Redis cache *)

Definition redis_cache_key (cmd : RedisCmdTag) (gen : N) (key : str) (args : list str)
  : RedisCacheKey :=
  {| redis_generation := gen; cmd_tag := cmd; key_hash := finish (feed_str key);
     args_hash := finish (concat (feed_str <$> args)) |}.

(** ** The process: the runtime's world and the statics of the modules *)

Record Process := {
  kw : World;
  reg : RedisRegistry Conn;
  FUN_MAP : FunMap;
  intranet : IntranetNets.IntranetState;
}.
Definition set_kw (v : World) (p : Process) : Process :=
  {| kw := v; reg := reg p; FUN_MAP := FUN_MAP p; intranet := intranet p |}.
Definition set_reg (v : RedisRegistry Conn) (p : Process) : Process :=
  {| kw := kw p; reg := v; FUN_MAP := FUN_MAP p; intranet := intranet p |}.
Definition set_fun_map (v : FunMap) (p : Process) : Process :=
  {| kw := kw p; reg := reg p; FUN_MAP := v; intranet := intranet p |}.
Definition set_intranet (v : IntranetNets.IntranetState) (p : Process) : Process :=
  {| kw := kw p; reg := reg p; FUN_MAP := FUN_MAP p; intranet := v |}.

Abbreviation MP := (St Process).
Definition on_kw {A} (m : M A) : MP A := λ p, let '(a, w) := m (kw p) in (a, set_kw w p).

Definition KNOWDB : str := lit "knowdb".

(** ** Redis calls through the cache *)

Definition as_bool (v : CachedRedisValue) : option bool :=
  match v with RBool b => Some b | ROptString _ => None end.
Definition as_opt_string (v : CachedRedisValue) : option (option str) :=
  match v with ROptString o => Some o | RBool _ => None end.

(** The shape the calls share: under a current generation look into the cache,
    run the command on a miss and store its answer. *)
Definition redis_cached {A} (cmd : RedisCmdTag) (key : str) (args : list str)
    (decode : CachedRedisValue → option A) (encode : A → CachedRedisValue) (ttl : option N) (use_cache : bool)
    (run : MP (KnowledgeResult A)) : MP (KnowledgeResult A) :=
  gen ← gets (λ p, current_generation (rt (kw p)));
  match (if use_cache then gen else None) with
  | None => run
  | Some gen =>
      let ck := redis_cache_key cmd gen key args in
      hit ← on_kw (redis_cache_get ck);
      match hit ≫= decode with
      | Some v => mret (Ok v)
      | None =>
          result ←? run;
          on_kw (match ttl with
                 | Some ttl => redis_cache_put_with_ttl ck (encode result) ttl
                 | None => redis_cache_put ck (encode result)
                 end);;
          mret (Ok result)
      end
  end.

(** a command on the registry of the process *)
Definition on_reg {A} (c : RedisRegistry Conn → M (KnowledgeResult A)) : MP (KnowledgeResult A) :=
  λ p, on_kw (c (reg p)) p.

Definition redis_bf_exists (key item : str) : MP (KnowledgeResult bool) :=
  redis_cached BfExists key [item] as_bool RBool None true
    (on_reg (λ r, bf_exists r KNOWDB key item)).
Definition redis_hget (key field : str) : MP (KnowledgeResult (option str)) :=
  redis_cached HGet key [field] as_opt_string ROptString None true
    (on_reg (λ r, hget r KNOWDB key field)).
Definition redis_get (key : str) : MP (KnowledgeResult (option str)) :=
  redis_cached Get key [] as_opt_string ROptString None true (on_reg (λ r, get r KNOWDB key)).
Definition redis_set_exists (key member : str) : MP (KnowledgeResult bool) :=
  redis_cached SetExists key [member] as_bool RBool None true
    (on_reg (λ r, set_exists r KNOWDB key member)).
Definition redis_bf_add (key : str) (items : list str) : MP (KnowledgeResult (list bool)) :=
  on_reg (λ r, bf_madd r KNOWDB key items).
Definition redis_bf_create (key : str) (error_rate : N) (capacity : Z) : MP (KnowledgeResult unit) :=
  on_reg (λ r, bf_reserve r KNOWDB key error_rate capacity).
Definition redis_ping : MP (KnowledgeResult bool) := on_reg (λ r, ping_blocking r KNOWDB).
Definition redis_close : MP (KnowledgeResult unit) := λ p,
  (Ok tt, set_reg (close (Some KNOWDB) (reg p)) p).

(** *** Named calls *)

Definition redis_key (spec : CachedFunSpec) (arg : str) : str :=
  match key spec with Some k => k | None => arg end.

(** [external_exists] and [external_value] of src/fun.rs; a specification of
    the other type does not get past [resolve_spec] *)
Definition fun_external_exists (service arg : str) : MP (KnowledgeResult bool) :=
  spec ←? gets (λ p, resolve_spec (FUN_MAP p) service true);
  match call spec with
  | Loader.FcBfExists => on_reg (λ r, bf_exists r KNOWDB (redis_key spec arg) arg)
  | _ => on_reg (λ r, set_exists r KNOWDB (redis_key spec arg) arg)
  end.
Definition fun_external_value (service arg : str) : MP (KnowledgeResult (option str)) :=
  spec ←? gets (λ p, resolve_spec (FUN_MAP p) service false);
  match call spec with
  | Loader.FcHget => on_reg (λ r, hget r KNOWDB (redis_key spec arg) arg)
  | _ => on_reg (λ r, get r KNOWDB (redis_key spec arg))
  end.

Definition external_exists (service arg : str) : MP (KnowledgeResult bool) :=
  spec ←? gets (λ p, resolve_spec (FUN_MAP p) service true);
  redis_cached BfExists (redis_key spec arg) [arg] as_bool RBool (fun_ttl spec) (enabled spec)
    (fun_external_exists service arg).
Definition external_value (service arg : str) : MP (KnowledgeResult (option str)) :=
  spec ←? gets (λ p, resolve_spec (FUN_MAP p) service false);
  redis_cached Get (redis_key spec arg) [arg] as_opt_string ROptString (fun_ttl spec) (enabled spec)
    (fun_external_value service arg).

(** ** Queries *)

Definition query_for (name sql : str) : M (KnowledgeResult (list RowData)) :=
  fmap (M := M) (fmap into_rows) (execute_for name (many sql [] Bypass)).
Definition query_async_for (name sql : str) : M (KnowledgeResult (list RowData)) :=
  fmap (M := M) (fmap into_rows) (execute_for_async name (many sql [] Bypass)).
Definition query_fields_for (name sql : str) (params : list DataField) : M (KnowledgeResult RowData) :=
  execute_first_row_fields_for name sql params Bypass.
Definition query_fields_for_async (name sql : str) (params : list DataField)
  : M (KnowledgeResult RowData) :=
  execute_first_row_fields_for_async name sql params Bypass.
Definition query (sql : str) : M (KnowledgeResult (list RowData)) :=
  fmap (M := M) (fmap into_rows) (execute (many sql [] Bypass)).
Definition query_async (sql : str) : M (KnowledgeResult (list RowData)) :=
  fmap (M := M) (fmap into_rows) (execute_async (many sql [] Bypass)).
Definition query_row (sql : str) : M (KnowledgeResult RowData) :=
  fmap (M := M) (fmap into_row) (execute (first_row sql [] Bypass)).
Definition query_row_async (sql : str) : M (KnowledgeResult RowData) :=
  fmap (M := M) (fmap into_row) (execute_async (first_row sql [] Bypass)).
Definition query_fields (sql : str) (params : list DataField) : M (KnowledgeResult RowData) :=
  execute_first_row_fields sql params Bypass.
Definition query_fields_async (sql : str) (params : list DataField) : M (KnowledgeResult RowData) :=
  execute_first_row_fields_async sql params Bypass.
Definition query_named_fields (sql : str) (params : list DataField) : M (KnowledgeResult RowData) :=
  query_fields sql params.
Definition query_named_fields_async (sql : str) (params : list DataField)
  : M (KnowledgeResult RowData) := query_fields_async sql params.

Definition query_named (sql : str) (params : list (str * Result str Param.ToSqlOutput))
  : M (KnowledgeResult RowData) :=
  match Param.named_params_to_fields params with
  | Ok fields => query_fields sql fields
  | Err e => mret (Err e)
  end.

(** ** Lookups through the caller's local cache *)

Section Lookup.
Context {Cache : Type} `{!CacheAble Cache DataField RowData}.
(** the runtime's world and the caller's cache *)
Abbreviation ML := (St (World * Cache)).

Definition on_world {A} (m : M A) : ML A := λ '(w, c), let '(a, w) := m w in (a, (w, c)).
Definition on_cache (f : Cache → Cache) : ML unit := λ '(w, c), (tt, (w, f c)).

Definition local_cache_hit (scope : N) (c_params : list DataField) (generation : option Generation)
    (provider_kind : option ProviderKind) : ML (option RowData) :=
  match generation with
  | Some g => on_cache (prepare_generation (Cache := Cache) scope g)
  | None => mret tt
  end;;
  hit ← gets (λ s, fetch_scoped scope c_params s.2);
  match hit with
  | Some hit =>
      on_world record_local_cache_hit;;
      on_world (report (CacheTelemetryEvent LayerLocal Hit provider_kind));;
      mret (Some hit)
  | None =>
      on_world record_local_cache_miss;;
      on_world (report (CacheTelemetryEvent LayerLocal Miss provider_kind));;
      mret None
  end.

(** a local miss: query, and save what succeeds; an error is logged and is no row *)
Definition query_and_save (scope : N) (c_params : list DataField)
    (run : M (KnowledgeResult RowData)) : ML RowData :=
  r ← on_world run;
  match r with
  | Ok row => on_cache (save_scoped scope c_params row);; mret row
  | Err _ => mret []
  end.

Definition cached_lookup (scope : N) (c_params : list DataField) (generation : option Generation)
    (provider_kind : option ProviderKind) (run : M (KnowledgeResult RowData)) : ML RowData :=
  hit ← local_cache_hit scope c_params generation provider_kind;
  match hit with
  | Some hit => mret hit
  | None => query_and_save scope c_params run
  end.

Definition cache_query_fields_with_scope (sql : str) (scope : N) (c_params query_params : list DataField)
  : ML RowData :=
  generation ← gets (λ s, current_generation (rt s.1));
  provider_kind ← gets (λ s, current_provider_kind (rt s.1));
  cached_lookup scope c_params generation provider_kind
    (execute_first_row_fields sql query_params UseGlobal).

Definition cache_query_fields (sql : str) (c_params query_params : list DataField) : ML RowData :=
  cache_query_fields_with_scope sql (stable_hash sql) c_params query_params.

(** [local_cache_scope ^ stable_hash(name)] *)
Definition provider_scope (scope : N) (name : str) : N := N.lxor scope (stable_hash name).

Definition cache_query_fields_route (provider : option str) (sql : str) (scope : N)
    (c_params query_params : list DataField) : ML RowData :=
  match provider with
  | None => cache_query_fields_with_scope sql scope c_params query_params
  | Some name =>
      handle ← gets (λ s, provider_by_name name (rt s.1));
      match handle with
      | Err _ => mret []
      | Ok h =>
          cached_lookup (provider_scope scope name) c_params (Some (generation h)) (Some (kind h))
            (execute_first_row_fields_for name sql query_params UseGlobal)
      end
  end.

(** the asynchronous variants build the query parameters on a miss only; the
    builder is a pure closure here *)
Definition cache_query_fields_async_with_scope (sql : str) (scope : N) (c_params : list DataField)
    (build_query_params : unit → list DataField) : ML RowData :=
  generation ← gets (λ s, current_generation (rt s.1));
  provider_kind ← gets (λ s, current_provider_kind (rt s.1));
  cached_lookup scope c_params generation provider_kind
    (execute_first_row_fields_async sql (build_query_params tt) UseGlobal).

Definition cache_query_fields_async_with (sql : str) (c_params : list DataField)
    (build_query_params : unit → list DataField) : ML RowData :=
  cache_query_fields_async_with_scope sql (stable_hash sql) c_params build_query_params.

Definition cache_query_fields_async (sql : str) (c_params query_params : list DataField)
  : ML RowData :=
  cache_query_fields_async_with_scope sql (stable_hash sql) c_params (λ _, query_params).

Definition cache_query_fields_route_async (provider : option str) (sql : str) (scope : N)
    (c_params : list DataField) (build_query_params : unit → list DataField) : ML RowData :=
  match provider with
  | None => cache_query_fields_async_with_scope sql scope c_params build_query_params
  | Some name =>
      handle ← gets (λ s, provider_by_name name (rt s.1));
      match handle with
      | Err _ => mret []
      | Ok h =>
          cached_lookup (provider_scope scope name) c_params (Some (generation h)) (Some (kind h))
            (execute_first_row_fields_for_async name sql (build_query_params tt) UseGlobal)
      end
  end.

Definition cache_query (sql : str) (c_params : list DataField)
    (named_params : list (str * Result str Param.ToSqlOutput)) : ML RowData :=
  match Param.named_params_to_fields named_params with
  | Ok query_fields => cache_query_fields sql c_params query_fields
  | Err _ => mret []
  end.
Definition cache_query_async (sql : str) (c_params : list DataField)
    (named_params : list (str * Result str Param.ToSqlOutput)) : ML RowData :=
  match Param.named_params_to_fields named_params with
  | Ok query_fields => cache_query_fields_async sql c_params query_fields
  | Err _ => mret []
  end.

(** src/cache_util.rs: no scope, no generation *)
Definition cache_query_impl (c_params : list DataField) (query_fn : M (KnowledgeResult RowData))
  : ML RowData :=
  hit ← gets (λ s, fetch c_params s.2);
  match hit with
  | Some hit => mret hit
  | None =>
      r ← on_world query_fn;
      match r with
      | Ok rows => on_cache (save c_params rows);; mret rows
      | Err _ => mret []
      end
  end.
End Lookup.

(** ** Start-up *)

(** Connecting a provider: the drivers behind [PostgresProvider::connect] and
    [MySqlProvider::connect], and the provider objects over SQLite. *)
Class Drivers := {
  postgres_connect : str → ProviderConfig.PostgresProviderConfig → MetadataCacheScope →
                     M (KnowledgeResult P);
  mysql_connect : ProviderConfig.MySqlProviderConfig → MetadataCacheScope → M (KnowledgeResult P);
  thread_cloned : str → MetadataCacheScope → P;
}.
Context `{!Drivers}.

Definition discard {A} (m : M (KnowledgeResult A)) : M (KnowledgeResult unit) :=
  fmap (M := M) (fmap (λ _, tt)) m.

Definition scope_of (ds : DatasourceId) (g : Generation) : MetadataCacheScope :=
  {| scope_datasource_id := ds; scope_generation := g |}.

Definition install_postgres_provider (name : str) (config : ProviderConfig.PostgresProviderConfig)
    (datasource_seed : str) (is_default : bool) : M (KnowledgeResult unit) :=
  let ds := from_seed Postgres datasource_seed in
  discard (install_provider_named name Postgres ds
             (λ g, postgres_connect name config (scope_of ds g)) is_default).

Definition install_mysql_provider (name : str) (config : ProviderConfig.MySqlProviderConfig)
    (datasource_seed : str) (is_default : bool) : M (KnowledgeResult unit) :=
  let ds := from_seed Mysql datasource_seed in
  discard (install_provider_named name Mysql ds (λ g, mysql_connect config (scope_of ds g)) is_default).

Definition init_postgres_provider_with_config (config : ProviderConfig.PostgresProviderConfig)
  : M (KnowledgeResult unit) :=
  install_postgres_provider Loader.DEFAULT_SQLDB_NAME config
    (ProviderConfig.pg_connection_uri config) true.
Definition init_postgres_provider_named (name : str) (config : ProviderConfig.PostgresProviderConfig)
  : M (KnowledgeResult unit) := install_postgres_provider name config name false.
Definition init_postgres_provider (connection_uri : str) (pool_size : option N) : M (KnowledgeResult unit) :=
  init_postgres_provider_with_config
    (ProviderConfig.pg_with (ProviderConfig.with_pool_size pool_size) (ProviderConfig.pg_new connection_uri)).
Definition init_postgres_provider_named_uri (name connection_uri : str) (pool_size : option N)
  : M (KnowledgeResult unit) :=
  init_postgres_provider_named name
    (ProviderConfig.pg_with (ProviderConfig.with_pool_size pool_size) (ProviderConfig.pg_new connection_uri)).
Definition init_mysql_provider_with_config (config : ProviderConfig.MySqlProviderConfig)
  : M (KnowledgeResult unit) :=
  install_mysql_provider Loader.DEFAULT_SQLDB_NAME config (ProviderConfig.my_connection_uri config) true.
Definition init_mysql_provider_named (name : str) (config : ProviderConfig.MySqlProviderConfig)
  : M (KnowledgeResult unit) := install_mysql_provider name config name false.
Definition init_mysql_provider (connection_uri : str) (pool_size : option N) : M (KnowledgeResult unit) :=
  init_mysql_provider_with_config
    (ProviderConfig.my_with (ProviderConfig.with_pool_size pool_size) (ProviderConfig.my_new connection_uri)).

Definition init_thread_cloned_from_authority (uri : str) : M (KnowledgeResult unit) :=
  let ds := from_seed SqliteAuthority uri in
  discard (install_provider SqliteAuthority ds (λ g, mret (Ok (thread_cloned uri (scope_of ds g))))).

(** *** From a configuration file *)

(** without a name the connection's URI stays the seed *)
Definition spec_seed (spec : Loader.SqlProviderSpec) : str :=
  match Loader.spec_name spec with
  | Some _ => Loader.effective_name spec
  | None => Loader.connection_uri spec
  end.

Definition install_sqldb (spec : Loader.SqlProviderSpec) (is_default : bool)
  : M (KnowledgeResult unit) :=
  match Loader.spec_kind spec with
  | Loader.SqlPostgres =>
      install_postgres_provider (Loader.effective_name spec)
        (ProviderConfig.build_postgres_config spec) (spec_seed spec) is_default
  | Loader.SqlMysql =>
      install_mysql_provider (Loader.effective_name spec)
        (ProviderConfig.build_mysql_config spec) (spec_seed spec) is_default
  end.

Fixpoint install_specs (default_name : str) (specs : list Loader.SqlProviderSpec)
  : M (KnowledgeResult unit) :=
  match specs with
  | [] => mret (Ok tt)
  | spec :: specs =>
      _ ←? install_sqldb spec (bool_decide (Loader.effective_name spec = default_name));
      install_specs default_name specs
  end.

Definition configure_cache (cache : Loader.CacheSpec) : M unit :=
  configure_result_cache (Loader.cache_enabled cache) (Loader.cache_capacity cache)
    (from_millis (N.max (Loader.cache_ttl_ms cache) 1)).

(** the default provider: the one named "default" if any, else the first *)
Definition default_name (expected : gset str) (first : Loader.SqlProviderSpec) : str :=
  if bool_decide (Loader.DEFAULT_SQLDB_NAME ∈ expected) then Loader.DEFAULT_SQLDB_NAME
  else Loader.effective_name first.

(** the branch of [provider.sqldb]; [first] heads the list *)
Definition init_sqldb (cache : Loader.CacheSpec) (first : Loader.SqlProviderSpec)
    (specs : list Loader.SqlProviderSpec) : M (KnowledgeResult unit) :=
  expected ←? mret (Loader.validate_specs specs);
  _ ←? install_specs (default_name expected first) specs;
  configure_cache cache;;
  prune_named_providers_except expected;;
  mret (Ok tt).

(** the branch of [provider.redis] *)
Definition init_redis (conf : Loader.KnowDbConf) (redis_cfg : Loader.RedisProviderSpec)
    (meanwhile : RedisRegistry Conn → RedisRegistry Conn) : MP (KnowledgeResult unit) := λ p,
  let '((r, reg), w) :=
    init_with_opts KNOWDB (Loader.redis_connection_uri redis_cfg) (Loader.redis_pool_size redis_cfg)
      (Loader.command_timeout_ms redis_cfg) meanwhile (reg p) (kw p) in
  let p := set_kw w (set_reg reg p) in
  match r with
  | Err e => (Err e, p)
  | Ok _ =>
      let w := (configure_redis_cache (Loader.cache_enabled (Loader.cache conf))
                  (Loader.cache_capacity (Loader.cache conf)) (kw p)).2 in
      let p := set_fun_map (register_fun_map (Loader.fun_ conf) (FUN_MAP p)) (set_kw w p) in
      (Ok tt, set_kw (prune_named_providers_except ∅ (kw p)).2 p)
  end.

Section Knowdb.
Context `{!Loader.Files} {Db : Type} `{!Loader.AuthorityDb World Db}
  (parse_toml : str → option Loader.KnowDbConf).

(** [rest.split('?').next()] *)
Definition ro_uri (authority_uri : str) : str :=
  if prefix_of (lit "file:") authority_uri
  then let rest := drop 5 authority_uri in
       lit "file:" ++ take (span (λ c, negb (c =? 63)%N) rest) rest ++ lit "?mode=ro&uri=true"
  else authority_uri.

(** the local authority: build the file, then clone it per thread *)
Definition init_authority (conf : Loader.KnowDbConf) (root conf_path authority_uri : str)
  : MP (KnowledgeResult unit) := λ p,
  let '(built, (st, w)) :=
    Loader.build_authority_from_knowdb parse_toml root conf_path authority_uri (intranet p, kw p) in
  let p := set_kw w (set_intranet st p) in
  match built with
  | Err e => (Err e, p)
  | Ok _ =>
      on_kw (_ ←? init_thread_cloned_from_authority (ro_uri authority_uri);
             configure_cache (Loader.cache conf);;
             prune_named_providers_except {[Loader.DEFAULT_SQLDB_NAME]};;
             mret (Ok tt)) p
  end.

Definition init_thread_cloned_from_knowdb (root conf_path authority_uri : str)
    (meanwhile : RedisRegistry Conn → RedisRegistry Conn) : MP (KnowledgeResult unit) := λ p,
  match Loader.parse_knowdb_conf parse_toml root conf_path (intranet p) with
  | (Err e, st) => (Err e, set_intranet st p)
  | (Ok (conf, _, _), st) =>
      let p := set_intranet st p in
      match Loader.provider conf with
      | Some {| Loader.sqldb := Some (first :: rest) |} =>
          on_kw (init_sqldb (Loader.cache conf) first (first :: rest)) p
      | Some {| Loader.redis := Some redis_cfg |} => init_redis conf redis_cfg meanwhile p
      | _ => init_authority conf root conf_path authority_uri p
      end
  end.
End Knowdb.
End Facade.
