(* ===== verification/LookupThreads.v ===== *)
(** * Lookups on many threads (src/facade.rs over src/runtime.rs)

    A lookup through its caller's cache as a program of RuntimeThreads.v: the
    cache belongs to the thread, so what is done to it is no action; reading
    the generation, asking the runtime and counting are.  A thread makes one
    lookup after the other on one cache, beside threads that make the calls of
    RuntimeThreads.v. *)
From S2P Require Import Prelude Errors RustStr Model Lru LocalCache SqlRoute Runtime Redis Facade.
From S2P Require Import Threads RuntimeThreads.

Section Lookups.
Context {C : Type → Type → Type} {P E : Type} `{LruOps C} `{Hasher} `{!ProviderThreads C P E}.
Abbreviation World := (World C P E).
Abbreviation T := (Prog (Shared (C := C) (P := P) (E := E))).
Abbreviation Cache := (FieldQueryCache C).

(** ** The local cache *)

Definition local_cache_hit_p (scope : N) (c_params : list DataField) (generation : option Generation)
    (provider_kind : option ProviderKind) (c : Cache) : T (option RowData * Cache) :=
  let c := match generation with Some g => prepare_generation scope g c | None => c end in
  match fetch_scoped scope c_params c with
  | Some hit =>
      at_once record_local_cache_hit;;
      at_once (report (CacheTelemetryEvent LayerLocal Hit provider_kind));;
      Ret (Some hit, c)
  | None =>
      at_once record_local_cache_miss;;
      at_once (report (CacheTelemetryEvent LayerLocal Miss provider_kind));;
      Ret (None, c)
  end.

(** An error is the warning that is logged; the caller gets no row then. *)
Definition returned (r : KnowledgeResult RowData) : RowData :=
  match r with Ok row => row | Err _ => [] end.

Definition query_and_save_p (scope : N) (c_params : list DataField) (run : T (KnowledgeResult RowData)) (c : Cache)
  : T (KnowledgeResult RowData * Cache) :=
  r ← run;
  match r with
  | Ok row => Ret (Ok row, save_scoped scope c_params row c)
  | Err err => Ret (Err err, c)
  end.

Definition cached_lookup_p (scope : N) (c_params : list DataField) (generation : option Generation)
    (provider_kind : option ProviderKind) (run : T (KnowledgeResult RowData)) (c : Cache)
  : T (KnowledgeResult RowData * Cache) :=
  hit ← local_cache_hit_p scope c_params generation provider_kind c;
  match hit with
  | (Some hit, c) => Ret (Ok hit, c)
  | (None, c) => query_and_save_p scope c_params run c
  end.

(** ** Lookups *)

(** the arguments of [cache_query_fields_route] and of its asynchronous form *)
Record Lookup := {
  l_async : bool;
  l_provider : option str;
  l_sql : str;
  l_scope : N;
  l_keys : list DataField;
  l_params : list DataField;
}.

(** the scope in the local cache *)
Definition local_scope (l : Lookup) : N :=
  match l_provider l with None => l_scope l | Some name => provider_scope (l_scope l) name end.

(** a lookup that was made: the generation it read, if it read one, and what came of it *)
Record Found := { f_lookup : Lookup; f_gen : option Generation; f_result : KnowledgeResult RowData }.
Definition found (l : Lookup) (gen : option Generation) : KnowledgeResult RowData * Cache → Found * Cache :=
  λ '(r, c), ({| f_lookup := l; f_gen := gen; f_result := r |}, c).

Definition lookup_p (l : Lookup) (c : Cache) : T (Found * Cache) :=
  match l_provider l with
  | None =>
      generation ← current_generation_p;
      provider_kind ← load (λ w, current_provider_kind (rt w));
      fmap (M := T) (found l generation)
        (cached_lookup_p (local_scope l) (l_keys l) generation provider_kind
           (execute_first_row_fields_p (l_async l) (l_sql l) (l_params l) UseGlobal) c)
  | Some name =>
      handle ← provider_by_name_p name;
      match handle with
      | Err err => Ret (found l None (Err err, c))
      | Ok h =>
          fmap (M := T) (found l (Some (generation h)))
            (cached_lookup_p (local_scope l) (l_keys l) (Some (generation h)) (Some (kind h))
               (execute_first_row_fields_for_p (l_async l) name (l_sql l) (l_params l) UseGlobal) c)
      end
  end.

(** one lookup after the other *)
Fixpoint lookups_p (todo : list Lookup) (c : Cache) : T (list Found) :=
  match todo with
  | [] => Ret []
  | l :: todo =>
      r ← lookup_p l c;
      let '(f, c) := r in
      fmap (M := T) (cons f) (lookups_p todo c)
  end.

(** ** A pool of calls and of callers *)

Abbreviation Op := (Op (C := C) (P := P) (E := E)).
Inductive Caller :=
| Calls (o : Op)
| Looks (cache_size : nat) (todo : list Lookup).

Definition caller_prog (i : nat) (a : Caller) : T (Outcome + list Found) :=
  match a with
  | Calls o => fmap (M := T) inl (op_prog i o)
  | Looks n todo => fmap (M := T) inr (lookups_p todo (with_capacity n))
  end.

Definition pool_of_callers (w : World) (callers : list Caller)
  : Pool (Shared (C := C) (P := P) (E := E)) (Outcome + list Found) :=
  {| shared := shared_new w; threads := imap caller_prog callers |}.
End Lookups.
