(* ===== verification/SqlDrivers.v ===== *)
(** * The SQL drivers (src/postgres.rs, src/mysql.rs, src/provider_runtime.rs)

    Connecting, running queries on the driver's own task runtime, column names
    and the decoding of rows, for both drivers; and the providers of the crate
    as one type, with the trait's methods and the constructors that the facade
    calls.  [tokio] and [sqlx] are classes over the state of the libraries. *)
From S2P Require Import Prelude Errors RustStr Model Lru SqlRoute SqlRewrite Runtime SqliteDb Facade.
From S2P Require ProviderConfig.

(** ** Rows of the drivers *)

(** types whose text is shown: [to_string], and [to_rfc3339] for [DateTime<Utc>] *)
Inductive Shown := BigDecimal | Uuid | IpNetwork | NaiveDateTime | DateTimeUtc | NaiveDate | NaiveTime | JsonValue.

(** A [sqlx] row: the columns with their names and type names, whether a value
    is null, and [try_get] at the types the code asks for; errors are texts. *)
Class SqlxRow (Row : Type) := {
  columns : Row → list (str * str);
  try_get_raw : Row → nat → Result str bool;
  try_bool : Row → nat → Result str bool;
  (** [i8] to [i64] by their width *)
  try_int : nat → Row → nat → Result str Z;
  try_u64 : Row → nat → Result str N;
  (** [Oid], a [u32] *)
  try_oid : Row → nat → Result str N;
  (** the bits of [f32] and [f64] *)
  try_f32 : Row → nat → Result str N;
  try_f64 : Row → nat → Result str N;
  try_string : Row → nat → Result str str;
  try_bytes : Row → nat → Result str (list N);
  try_shown : Shown → Row → nat → Result str str;
}.

(** [f64::from] on the bits of an [f32] *)
Definition f64_from_f32 (b : N) : N :=
  let sign := N.shiftl (N.shiftr b 31) 63 in
  let e := N.land (N.shiftr b 23) 255 in
  let m := N.land b 8388607 in
  let pack e m := (sign + N.shiftl e 52 + m)%N in
  if (e =? 255)%N then
    pack 2047%N (if (m =? 0)%N then 0%N else N.lor (N.shiftl m 29) (N.shiftl 1 51))
  else if (e =? 0)%N then
    if (m =? 0)%N then sign
    else let k := N.log2 m in pack (k + 874)%N (N.shiftl (m - N.shiftl 1 k) (52 - k))
  else pack (e + 896)%N (N.shiftl m 29).

(** *** Decoders

    A decoder answers [None] for a type it is not for; the first that answers
    decides, after all of them [last] does. *)
Abbreviation Decoded := (KnowledgeResult (option DataField)).

Fixpoint try_decoders (decoders : list Decoded) (last : KnowledgeResult DataField)
  : KnowledgeResult DataField :=
  match decoders with
  | [] => last
  | decoder :: decoders =>
      field ← decoder;
      match field with Some field => Ok field | None => try_decoders decoders last end
  end.

Section MapRow.
Context {R} `{SqlxRow R} (map_value : R → nat → str → KnowledgeResult DataField).

(** the columns from the [idx]-th on *)
Fixpoint map_row_from (row : R) (col_names : list str) (idx : nat) (cols : list (str * str))
  : KnowledgeResult RowData :=
  match cols with
  | [] => Ok []
  | col :: cols =>
      field ← map_value row idx (default col.1 (col_names !! idx));
      out ← map_row_from row col_names (S idx) cols;
      Ok (field :: out)
  end.
Definition map_row (row : R) (col_names : list str) : KnowledgeResult RowData :=
  map_row_from row col_names 0 (columns row).
End MapRow.

(** the upper-case type name of a column *)
Definition type_name {R} `{SqlxRow R} (row : R) (idx : nat) : str :=
  to_ascii_uppercase <$> default [] (snd <$> columns row !! idx).

Module Pg.
Section Pg.
Context {R} `{SqlxRow R}.
Implicit Types (row : R) (idx : nat) (name ty : str).

Definition pg_decode_err (err : str) : KnowledgeError :=
  know_err from_rule [F "postgres row decode failed: "; D err].

(** [try_get(..).map(..).map_err(pg_decode_err)?], then [Some] *)
Definition decoded {A} (f : A → DataField) (r : Result str A) : Decoded :=
  Some <$> (f <$> map_err pg_decode_err r).

Definition decode_postgres_boolean row idx name ty : Decoded :=
  if bool_decide (ty ≠ lit "BOOL") then Ok None else decoded (from_bool name) (try_bool row idx).

Definition decode_postgres_integer row idx name ty : Decoded :=
  if bool_decide (ty = lit "INT2") then decoded (from_int name) (try_int 16 row idx)
  else if bool_decide (ty = lit "INT4") then decoded (from_int name) (try_int 32 row idx)
  else if bool_decide (ty = lit "INT8") then decoded (from_int name) (try_int 64 row idx)
  else if bool_decide (ty = lit "OID") then decoded (λ v, from_int name (Z.of_N v)) (try_oid row idx)
  else Ok None.

Definition decode_postgres_float row idx name ty : Decoded :=
  if bool_decide (ty = lit "FLOAT4") then decoded (λ v, from_float name (f64_from_f32 v)) (try_f32 row idx)
  else if bool_decide (ty = lit "FLOAT8") then decoded (from_float name) (try_f64 row idx)
  else Ok None.

Definition decode_postgres_decimal row idx name ty : Decoded :=
  if bool_decide (ty ≠ lit "NUMERIC") then Ok None
  else decoded (display_chars_field name) (try_shown BigDecimal row idx).

Definition decode_postgres_network row idx name ty : Decoded :=
  if bool_decide (ty = lit "UUID") then decoded (chars_field name) (try_shown Uuid row idx)
  else if bool_decide (ty = lit "INET" ∨ ty = lit "CIDR")
  then decoded (chars_field name) (try_shown IpNetwork row idx)
  else Ok None.

Definition decode_postgres_binary row idx name ty : Decoded :=
  if bool_decide (ty ≠ lit "BYTEA") then Ok None
  else decoded (λ v, chars_field name (bytes_to_prefixed_hex v)) (try_bytes row idx).

Definition decode_postgres_text row idx name ty : Decoded :=
  if negb (bool_decide (ty ∈ [lit "VARCHAR"; lit "TEXT"; lit "BPCHAR"; lit "NAME"; lit "UNKNOWN"])) then Ok None
  else decoded (chars_field name) (try_string row idx).

Definition decode_postgres_temporal row idx name ty : Decoded :=
  if bool_decide (ty = lit "TIMESTAMP") then decoded (display_chars_field name) (try_shown NaiveDateTime row idx)
  else if bool_decide (ty = lit "TIMESTAMPTZ") then decoded (chars_field name) (try_shown DateTimeUtc row idx)
  else if bool_decide (ty = lit "DATE") then decoded (display_chars_field name) (try_shown NaiveDate row idx)
  else if bool_decide (ty = lit "TIME") then decoded (display_chars_field name) (try_shown NaiveTime row idx)
  else Ok None.

Definition decode_postgres_json row idx name ty : Decoded :=
  if negb (bool_decide (ty ∈ [lit "JSON"; lit "JSONB"])) then Ok None
  else decoded (display_chars_field name) (try_shown JsonValue row idx).

Definition map_value row idx name : KnowledgeResult DataField :=
  is_null ← map_err pg_decode_err (try_get_raw row idx);
  if is_null : bool then Ok (field_new DtDefault name Null)
  else
    let ty := type_name row idx in
    try_decoders
      [decode_postgres_boolean row idx name ty; decode_postgres_integer row idx name ty;
       decode_postgres_float row idx name ty; decode_postgres_decimal row idx name ty;
       decode_postgres_network row idx name ty; decode_postgres_binary row idx name ty;
       decode_postgres_text row idx name ty; decode_postgres_temporal row idx name ty;
       decode_postgres_json row idx name ty]
      (from_chars name <$> map_err pg_decode_err (try_string row idx)).
End Pg.
End Pg.

Module My.
Section My.
Context {R} `{SqlxRow R}.
Implicit Types (row : R) (idx : nat) (name base_ty : str).

Definition mysql_decode_err (err : str) : KnowledgeError :=
  know_err from_rule [F "mysql row decode failed: "; D err].
Definition decoded {A} (f : A → DataField) (r : Result str A) : Decoded :=
  Some <$> (f <$> map_err mysql_decode_err r).

(** [Result::or_else] with a second attempt *)
Definition or_else {A B} (r : Result A B) (other : Result A B) : Result A B :=
  match r with Ok v => Ok v | Err _ => other end.

Definition decode_mysql_boolean row idx name base_ty : Decoded :=
  if negb (bool_decide (base_ty ∈ [lit "BOOL"; lit "BOOLEAN"])) then Ok None
  else
    decoded id (or_else (from_int name <$> try_int 8 row idx)
                  ((λ b : bool, from_int name (if b then 1 else 0)) <$> try_bool row idx)).

Definition decode_mysql_integer row idx name base_ty (is_unsigned : bool) : Decoded :=
  if negb (bool_decide (base_ty ∈ [lit "TINYINT"; lit "SMALLINT"; lit "MEDIUMINT"; lit "INT"; lit "INTEGER";
                                   lit "BIGINT"; lit "YEAR"; lit "BIT"])) then Ok None
  else if bool_decide (base_ty = lit "BIT") then decoded (Mysql.mysql_bit_u64_to_field name) (try_u64 row idx)
  else if is_unsigned then
    decoded (λ v, if (v <=? Z.to_N i64_max)%N then from_int name (Z.of_N v) else from_chars name (dec v))
      (try_u64 row idx)
  else decoded (from_int name) (try_int 64 row idx).

Definition decode_mysql_binary row idx name base_ty : Decoded :=
  if bool_decide (base_ty ∈ [lit "ENUM"; lit "SET"]) then decoded (chars_field name) (try_string row idx)
  else if negb (bool_decide (base_ty ∈ [lit "BINARY"; lit "VARBINARY"; lit "BLOB"; lit "TINYBLOB";
                                        lit "MEDIUMBLOB"; lit "LONGBLOB"])) then Ok None
  else decoded (λ v, chars_field name (bytes_to_prefixed_hex v)) (try_bytes row idx).

Definition decode_mysql_float row idx name base_ty : Decoded :=
  if negb (bool_decide (base_ty ∈ [lit "FLOAT"; lit "DOUBLE"; lit "REAL"])) then Ok None
  else decoded (from_float name) (try_f64 row idx).

Definition decode_mysql_decimal row idx name base_ty : Decoded :=
  if bool_decide (base_ty ≠ lit "DECIMAL") then Ok None
  else decoded (display_chars_field name) (try_shown BigDecimal row idx).

Definition decode_mysql_temporal row idx name base_ty : Decoded :=
  if bool_decide (base_ty = lit "DATE") then decoded (display_chars_field name) (try_shown NaiveDate row idx)
  else if bool_decide (base_ty = lit "TIME") then decoded (display_chars_field name) (try_shown NaiveTime row idx)
  else if bool_decide (base_ty ∈ [lit "DATETIME"; lit "TIMESTAMP"])
  then decoded (display_chars_field name) (try_shown NaiveDateTime row idx)
  else Ok None.

Definition decode_mysql_json row idx name base_ty : Decoded :=
  if bool_decide (base_ty ≠ lit "JSON") then Ok None
  else decoded (display_chars_field name) (try_shown JsonValue row idx).

Definition decode_mysql_text_like row idx name : KnowledgeResult DataField :=
  map_err mysql_decode_err
    (or_else (chars_field name <$> try_string row idx)
       ((λ v, chars_field name (bytes_to_prefixed_hex v)) <$> try_bytes row idx)).

Definition map_value row idx name : KnowledgeResult DataField :=
  is_null ← map_err mysql_decode_err (try_get_raw row idx);
  if is_null : bool then Ok (field_new DtDefault name Null)
  else
    let '(base_ty, is_unsigned) := Mysql.mysql_type_base_name (type_name row idx) in
    try_decoders
      [decode_mysql_boolean row idx name base_ty; decode_mysql_integer row idx name base_ty is_unsigned;
       decode_mysql_binary row idx name base_ty; decode_mysql_float row idx name base_ty;
       decode_mysql_decimal row idx name base_ty; decode_mysql_temporal row idx name base_ty;
       decode_mysql_json row idx name base_ty]
      (decode_mysql_text_like row idx name).
End My.
End My.

(** ** Tasks on a driver's runtime (src/provider_runtime.rs) *)

(** [tokio]'s runtimes and the threads of the standard library *)
Class TaskRuntime (L : Type) := {
  Rt : Type;
  spawn_thread : str → St L (Result str unit);
  (** worker threads and their name *)
  build_runtime : N → str → St L (Result str Rt);
}.

(** Running code elsewhere and waiting for it, the error's text when it never
    answers: a thread that sends its result, a task awaited by its handle, a
    task whose result is sent. *)
Class Tasks (C : Type → Type → Type) (P L : Type) `{SqliteLib L, TaskRuntime L} := {
  thread_result : ∀ {A}, St (World C P (Outside L)) A → St (World C P (Outside L)) (Result str A);
  task_join : ∀ {A}, Rt → St (World C P (Outside L)) A → St (World C P (Outside L)) (Result str A);
  task_sent : ∀ {A}, Rt → St (World C P (Outside L)) A → St (World C P (Outside L)) (Result str A);
}.

(** the connection pools and statements of one driver *)
Record PoolOptions := {
  opt_max_connections : N;
  opt_min_connections : N;
  opt_acquire_timeout : N;
  opt_idle_timeout : option N;
  opt_max_lifetime : option N;
}.
Class Sqlx (d : ProviderKind) (L : Type) := {
  DbPool : Type;
  DbConn : Type;
  DbRow : Type;
  db_row :: SqlxRow DbRow;
  (** with the work on each new connection, and the URI *)
  connect_with : PoolOptions → (DbConn → St L (Result str unit)) → str → St L (Result str DbPool);
  execute_on : DbConn → str → St L (Result str unit);
  execute_pool : DbPool → str → St L (Result str unit);
  fetch_one_string : DbPool → str → St L (Result str str);
  fetch_all : DbPool → str → list SqlArg → St L (Result str (list DbRow));
  fetch_optional : DbPool → str → list SqlArg → St L (Result str (option DbRow));
  (** the column names *)
  describe : DbPool → str → St L (Result str (list str));
}.
Arguments DbPool d L {_}.
Arguments DbRow d L {_}.

Section Driver.
Context {C : Type → Type → Type} {P L : Type} `{LruOps C} `{Hasher} `{SqliteLib L} `{TaskRuntime L}
  `{!Tasks C P L}.
Abbreviation M := (St (World C P (Outside L))).

(** a call of the library whose error's text goes into [f] *)
Definition call_err {A} (f : str → KnowledgeError) (m : St L (Result str A)) : M (KnowledgeResult A) :=
  fmap (M := M) (map_err f) (on_lib m).

Definition init_provider_runtime {T} (provider : string) (init_thread worker_thread : str) (pool_size : N)
    (init : Rt → M (KnowledgeResult T)) : M (KnowledgeResult T) :=
  _ ←? call_err (λ err, know_err from_conf
         [F "spawn "; D (lit provider); F " init thread failed: "; D err]) (spawn_thread init_thread);
  answer ← thread_result (
    runtime ←? call_err (λ err, know_err from_conf
                 [F "create "; D (lit provider); F " tokio runtime failed: "; D err])
                 (build_runtime pool_size worker_thread);
    init runtime);
  mret (match answer with
        | Ok result => result
        | Err err => Err (know_err from_conf [F "receive "; D (lit provider); F " init result failed: "; D err])
        end).

Definition recv_err (provider action : string) (err : str) : KnowledgeError :=
  know_err from_logic
    [D (lit provider); F " async task receive failed during "; D (lit action); F ": "; D err].
Definition join_err (provider action : string) (err : str) : KnowledgeError :=
  know_err from_logic
    [D (lit provider); F " async task join failed during "; D (lit action); F ": "; D err].

Definition run_task {T} (rt : Rt) (provider action : string) (fut : M (KnowledgeResult T))
  : M (KnowledgeResult T) :=
  joined ← task_join rt fut;
  mret (match joined with Ok result => result | Err err => Err (join_err provider action err) end).

Definition block_on_task {T} (rt : Rt) (provider action : string) (fut : M (KnowledgeResult T))
  : M (KnowledgeResult T) :=
  received ← task_sent rt (task_join rt fut);
  mret (match received with
        | Ok (Ok result) => result
        | Ok (Err err) => Err (join_err provider action err)
        | Err err => Err (recv_err provider action err)
        end).

(** ** Queries

    Both drivers have the same code up to their names, their rewriting and
    their decoding of values. *)
Record Dialect (d : ProviderKind) `{Sqlx d L} := {
  label : string;
  rewrite : str → list DataField → KnowledgeResult (str * list DataField);
  bind_one : list SqlArg → DataField → list SqlArg;
  decode_value : DbRow d L → nat → str → KnowledgeResult DataField;
}.
Arguments label {_ _}.
Arguments rewrite {_ _}.
Arguments bind_one {_ _}.
Arguments decode_value {_ _}.

Section Queries.
Context (d : ProviderKind) `{!Sqlx d L} (dia : Dialect d).

Definition failed (action : string) (err : str) : KnowledgeError :=
  know_err from_rule [F (label dia ++ " " ++ action ++ " failed: "); D err].

Definition col_names_by_describe (pool : DbPool d L) (scope : MetadataCacheScope) (cache_sql exec_sql : str)
  : M (KnowledgeResult (list str)) :=
  metadata_cache_get_or_try_init_async_for_scope scope (Some d) cache_sql
    (fmap (M := M) (fmap Some) (call_err (failed "describe") (describe pool exec_sql))).

Definition col_names_from_row_or_describe (pool : DbPool d L) (scope : MetadataCacheScope)
    (cache_sql exec_sql : str) (row : option (DbRow d L)) : M (KnowledgeResult (list str)) :=
  match row with
  | Some row =>
      metadata_cache_get_or_try_init_async_for_scope scope (Some d) cache_sql
        (mret (Ok (Some (columns row).*1)))
  | None => col_names_by_describe pool scope cache_sql exec_sql
  end.

(** run the statement, name the columns, map the rows *)
Definition fetch_rows (action : string) (pool : DbPool d L) (scope : MetadataCacheScope)
    (sql exec_sql : str) (args : list SqlArg) : M (KnowledgeResult (list RowData)) :=
  rows ←? call_err (failed action) (fetch_all pool exec_sql args);
  col_names ←? col_names_from_row_or_describe pool scope sql exec_sql (head rows);
  mret (mapM (M := Result _) (λ row, map_row (decode_value dia) row col_names) rows).
Definition fetch_row (action : string) (pool : DbPool d L) (scope : MetadataCacheScope)
    (sql exec_sql : str) (args : list SqlArg) : M (KnowledgeResult RowData) :=
  row ←? call_err (failed action) (fetch_optional pool exec_sql args);
  col_names ←? col_names_from_row_or_describe pool scope sql exec_sql row;
  mret (match row with Some row => map_row (decode_value dia) row col_names | None => Ok [] end).

Definition execute_query pool scope sql := fetch_rows "query" pool scope sql sql [].
Definition execute_query_row pool scope sql := fetch_row "query_row" pool scope sql sql [].
Definition execute_query_fields pool scope sql params : M (KnowledgeResult (list RowData)) :=
  rewritten ←? mret (rewrite dia sql params);
  fetch_rows "query_fields" pool scope sql rewritten.1 (foldl (bind_one dia) [] rewritten.2).
Definition execute_query_named_fields pool scope sql params : M (KnowledgeResult RowData) :=
  rewritten ←? mret (rewrite dia sql params);
  fetch_row "query_named_fields" pool scope sql rewritten.1 (foldl (bind_one dia) [] rewritten.2).

(** the provider object; its runtime is there until it is dropped *)
Record SqlProvider := { runtime : Rt; pool : DbPool d L; metadata_scope : MetadataCacheScope }.
Implicit Types (p : SqlProvider) (sql : str) (params : list DataField).

Definition query p sql :=
  block_on_task (runtime p) (label dia) "query" (execute_query (pool p) (metadata_scope p) sql).
Definition query_row p sql :=
  block_on_task (runtime p) (label dia) "query_row" (execute_query_row (pool p) (metadata_scope p) sql).
Definition query_fields p sql params :=
  block_on_task (runtime p) (label dia) "query_fields"
    (execute_query_fields (pool p) (metadata_scope p) sql params).
Definition query_named_fields p sql params :=
  block_on_task (runtime p) (label dia) "query_named_fields"
    (execute_query_named_fields (pool p) (metadata_scope p) sql params).
Definition query_async p sql :=
  run_task (runtime p) (label dia) "query" (execute_query (pool p) (metadata_scope p) sql).
Definition query_row_async p sql :=
  run_task (runtime p) (label dia) "query_row" (execute_query_row (pool p) (metadata_scope p) sql).
Definition query_fields_async p sql params :=
  run_task (runtime p) (label dia) "query_fields"
    (execute_query_fields (pool p) (metadata_scope p) sql params).
Definition query_named_fields_async p sql params :=
  run_task (runtime p) (label dia) "query_named_fields"
    (execute_query_named_fields (pool p) (metadata_scope p) sql params).
End Queries.

(** ** Connecting *)

Definition pool_options (c : ProviderConfig.CommonPoolConfig) : PoolOptions :=
  {| opt_max_connections := ProviderConfig.pool_size c;
     opt_min_connections := ProviderConfig.min_connections c;
     opt_acquire_timeout := ProviderConfig.acquire_timeout c;
     opt_idle_timeout := ProviderConfig.idle_timeout c;
     opt_max_lifetime := ProviderConfig.max_lifetime c |}.
Definition at_least_one (c : ProviderConfig.CommonPoolConfig) : ProviderConfig.CommonPoolConfig :=
  ProviderConfig.with_pool_size (Some (N.max (ProviderConfig.pool_size c) 1)) c.

Definition create_failed (label : string) (err : str) : KnowledgeError :=
  know_err from_conf [F ("create " ++ label ++ " pool failed: "); D err].
End Driver.

Section Connect.
Context {C : Type → Type → Type} {P L : Type} `{LruOps C} `{Hasher} `{SqliteLib L} `{TaskRuntime L}
  `{!Tasks C P L} `{!Sqlx Postgres L} `{!Sqlx Mysql L}.
Abbreviation M := (St (World C P (Outside L))).

(** the session's statements on a new connection *)
Fixpoint apply_session (stmts : list str) (conn : @DbConn Postgres L _) : St L (Result str unit) :=
  match stmts with
  | [] => mret (Ok tt)
  | stmt :: stmts =>
      _ ←? fmap (M := St L) (map_err (λ err, lit "apply postgres session SET '" ++ stmt ++ lit "' failed: " ++ err))
             (execute_on conn stmt);
      apply_session stmts conn
  end.

(** a pool as the database its validation asks *)
#[export] Instance pg_database (pool : DbPool Postgres L) : ProviderConfig.PgDatabase L := {
  select_1 := execute_pool pool (lit "SELECT 1");
  current_setting name := fetch_one_string pool (lit "SELECT current_setting('" ++ name ++ lit "')");
}.

Definition pg_dialect : Dialect Postgres :=
  {| label := "postgres"; rewrite := SqlRewrite.Postgres.rewrite_sql; bind_one := bind_postgres_field;
     decode_value := Pg.map_value |}.
Definition my_dialect : Dialect Mysql :=
  {| label := "mysql"; rewrite := Mysql.rewrite_sql; bind_one := bind_mysql_field;
     decode_value := My.map_value |}.

Definition pg_connect (provider_name : str) (config : ProviderConfig.PostgresProviderConfig)
    (scope : MetadataCacheScope) : M (KnowledgeResult (SqlProvider Postgres)) :=
  let pool_config := at_least_one (ProviderConfig.pg_pool config) in
  let session := ProviderConfig.pg_session config in
  init_provider_runtime "postgres" (lit "wp-kdb-pg-init") (lit "wp-kdb-pg")
    (ProviderConfig.pool_size pool_config) (λ rt,
      pool ←? call_err (create_failed "postgres")
                (connect_with (pool_options pool_config)
                   (match session with
                    | Some session => apply_session (ProviderConfig.init_statements session)
                    | None => λ _, mret (Ok tt)
                    end) (ProviderConfig.pg_connection_uri config));
      _ ←? on_lib (ProviderConfig.validate_startup (H := pg_database pool) provider_name session);
      mret (Ok {| runtime := rt; pool := pool; metadata_scope := scope |})).

Definition my_validation_err (stage : string) (err : str) : KnowledgeError :=
  know_err from_conf
    [F "mysql startup validation failed during "; D (lit stage); F ": connection issue: "; D err].
Definition my_validate_startup (pool : DbPool Mysql L) : M (KnowledgeResult unit) :=
  call_err (my_validation_err "connection") (execute_pool pool (lit "SELECT 1")).

Definition my_connect (config : ProviderConfig.MySqlProviderConfig) (scope : MetadataCacheScope)
  : M (KnowledgeResult (SqlProvider Mysql)) :=
  let pool_config := at_least_one (ProviderConfig.my_pool config) in
  init_provider_runtime "mysql" (lit "wp-kdb-mysql-init") (lit "wp-kdb-mysql")
    (ProviderConfig.pool_size pool_config) (λ rt,
      pool ←? call_err (create_failed "mysql")
                (connect_with (pool_options pool_config) (λ _, mret (Ok tt))
                   (ProviderConfig.my_connection_uri config));
      _ ←? my_validate_startup pool;
      mret (Ok {| runtime := rt; pool := pool; metadata_scope := scope |})).
End Connect.

(** *** The two drivers under their own names *)

Module PostgresProvider.
Section PostgresProvider.
Context {C : Type → Type → Type} {P L : Type} `{LruOps C} `{Hasher} `{SqliteLib L} `{TaskRuntime L}
  `{!Tasks C P L} `{!Sqlx Postgres L}.
Abbreviation M := (St (World C P (Outside L))).

Definition map_row : DbRow Postgres L → list str → KnowledgeResult RowData := SqlDrivers.map_row Pg.map_value.
Definition postgres_col_names : DbPool Postgres L → MetadataCacheScope → str → str → M (KnowledgeResult (list str)) :=
  col_names_by_describe Postgres pg_dialect.
Definition postgres_col_names_from_row_or_describe :
    DbPool Postgres L → MetadataCacheScope → str → str → option (DbRow Postgres L) → M (KnowledgeResult (list str)) :=
  col_names_from_row_or_describe Postgres pg_dialect.
Definition execute_query : DbPool Postgres L → MetadataCacheScope → str → M (KnowledgeResult (list RowData)) :=
  SqlDrivers.execute_query Postgres pg_dialect.
Definition execute_query_row : DbPool Postgres L → MetadataCacheScope → str → M (KnowledgeResult RowData) :=
  SqlDrivers.execute_query_row Postgres pg_dialect.
Definition execute_query_fields : DbPool Postgres L → MetadataCacheScope → str → list DataField → M (KnowledgeResult (list RowData)) :=
  SqlDrivers.execute_query_fields Postgres pg_dialect.
Definition execute_query_named_fields : DbPool Postgres L → MetadataCacheScope → str → list DataField → M (KnowledgeResult RowData) :=
  SqlDrivers.execute_query_named_fields Postgres pg_dialect.
Definition query : SqlProvider Postgres → str → M (KnowledgeResult (list RowData)) :=
  SqlDrivers.query Postgres pg_dialect.
Definition query_row : SqlProvider Postgres → str → M (KnowledgeResult RowData) :=
  SqlDrivers.query_row Postgres pg_dialect.
Definition query_fields : SqlProvider Postgres → str → list DataField → M (KnowledgeResult (list RowData)) :=
  SqlDrivers.query_fields Postgres pg_dialect.
Definition query_named_fields : SqlProvider Postgres → str → list DataField → M (KnowledgeResult RowData) :=
  SqlDrivers.query_named_fields Postgres pg_dialect.
Definition query_async : SqlProvider Postgres → str → M (KnowledgeResult (list RowData)) :=
  SqlDrivers.query_async Postgres pg_dialect.
Definition query_row_async : SqlProvider Postgres → str → M (KnowledgeResult RowData) :=
  SqlDrivers.query_row_async Postgres pg_dialect.
Definition query_fields_async : SqlProvider Postgres → str → list DataField → M (KnowledgeResult (list RowData)) :=
  SqlDrivers.query_fields_async Postgres pg_dialect.
Definition query_named_fields_async : SqlProvider Postgres → str → list DataField → M (KnowledgeResult RowData) :=
  SqlDrivers.query_named_fields_async Postgres pg_dialect.
End PostgresProvider.
End PostgresProvider.

Module MySqlProvider.
Section MySqlProvider.
Context {C : Type → Type → Type} {P L : Type} `{LruOps C} `{Hasher} `{SqliteLib L} `{TaskRuntime L}
  `{!Tasks C P L} `{!Sqlx Mysql L}.
Abbreviation M := (St (World C P (Outside L))).

Definition map_row : DbRow Mysql L → list str → KnowledgeResult RowData := SqlDrivers.map_row My.map_value.
Definition mysql_col_names : DbPool Mysql L → MetadataCacheScope → str → str → M (KnowledgeResult (list str)) :=
  col_names_by_describe Mysql my_dialect.
Definition mysql_col_names_from_row_or_describe :
    DbPool Mysql L → MetadataCacheScope → str → str → option (DbRow Mysql L) → M (KnowledgeResult (list str)) :=
  col_names_from_row_or_describe Mysql my_dialect.
Definition execute_query : DbPool Mysql L → MetadataCacheScope → str → M (KnowledgeResult (list RowData)) :=
  SqlDrivers.execute_query Mysql my_dialect.
Definition execute_query_row : DbPool Mysql L → MetadataCacheScope → str → M (KnowledgeResult RowData) :=
  SqlDrivers.execute_query_row Mysql my_dialect.
Definition execute_query_fields : DbPool Mysql L → MetadataCacheScope → str → list DataField → M (KnowledgeResult (list RowData)) :=
  SqlDrivers.execute_query_fields Mysql my_dialect.
Definition execute_query_named_fields : DbPool Mysql L → MetadataCacheScope → str → list DataField → M (KnowledgeResult RowData) :=
  SqlDrivers.execute_query_named_fields Mysql my_dialect.
Definition query : SqlProvider Mysql → str → M (KnowledgeResult (list RowData)) :=
  SqlDrivers.query Mysql my_dialect.
Definition query_row : SqlProvider Mysql → str → M (KnowledgeResult RowData) :=
  SqlDrivers.query_row Mysql my_dialect.
Definition query_fields : SqlProvider Mysql → str → list DataField → M (KnowledgeResult (list RowData)) :=
  SqlDrivers.query_fields Mysql my_dialect.
Definition query_named_fields : SqlProvider Mysql → str → list DataField → M (KnowledgeResult RowData) :=
  SqlDrivers.query_named_fields Mysql my_dialect.
Definition query_async : SqlProvider Mysql → str → M (KnowledgeResult (list RowData)) :=
  SqlDrivers.query_async Mysql my_dialect.
Definition query_row_async : SqlProvider Mysql → str → M (KnowledgeResult RowData) :=
  SqlDrivers.query_row_async Mysql my_dialect.
Definition query_fields_async : SqlProvider Mysql → str → list DataField → M (KnowledgeResult (list RowData)) :=
  SqlDrivers.query_fields_async Mysql my_dialect.
Definition query_named_fields_async : SqlProvider Mysql → str → list DataField → M (KnowledgeResult RowData) :=
  SqlDrivers.query_named_fields_async Mysql my_dialect.
End MySqlProvider.
End MySqlProvider.

(** ** The providers of the crate (src/facade.rs) *)

Inductive Provider {L} `{SqliteLib L, TaskRuntime L, !Sqlx Postgres L, !Sqlx Mysql L} :=
| PgProvider (p : SqlProvider Postgres)
| MyProvider (p : SqlProvider Mysql)
| LocalProvider (p : SqliteProvider L).
Arguments Provider L {_ _ _ _}.

Section Providers.
Context {C : Type → Type → Type} {L : Type} `{LruOps C} `{Hasher} `{SqliteLib L} `{TaskRuntime L}
  `{!Sqlx Postgres L} `{!Sqlx Mysql L} `{!Tasks C (Provider L) L}.
Abbreviation M := (St (World C (Provider L) (Outside L))).

#[export] Instance provider_executor : ProviderExecutor C (Provider L) (Outside L) := {
  query p sql :=
    match p with
    | PgProvider p => PostgresProvider.query p sql
    | MyProvider p => MySqlProvider.query p sql
    | LocalProvider p => provider_query p sql
    end;
  query_fields p sql params :=
    match p with
    | PgProvider p => PostgresProvider.query_fields p sql params
    | MyProvider p => MySqlProvider.query_fields p sql params
    | LocalProvider p => provider_query_fields p sql params
    end;
  query_row p sql :=
    match p with
    | PgProvider p => PostgresProvider.query_row p sql
    | MyProvider p => MySqlProvider.query_row p sql
    | LocalProvider p => provider_query_row p sql
    end;
  query_named_fields p sql params :=
    match p with
    | PgProvider p => PostgresProvider.query_named_fields p sql params
    | MyProvider p => MySqlProvider.query_named_fields p sql params
    | LocalProvider p => provider_query_named_fields p sql params
    end;
  query_async p sql :=
    match p with
    | PgProvider p => PostgresProvider.query_async p sql
    | MyProvider p => MySqlProvider.query_async p sql
    | LocalProvider p => provider_query p sql
    end;
  query_fields_async p sql params :=
    match p with
    | PgProvider p => PostgresProvider.query_fields_async p sql params
    | MyProvider p => MySqlProvider.query_fields_async p sql params
    | LocalProvider p => provider_query_fields p sql params
    end;
  query_row_async p sql :=
    match p with
    | PgProvider p => PostgresProvider.query_row_async p sql
    | MyProvider p => MySqlProvider.query_row_async p sql
    | LocalProvider p => provider_query_row p sql
    end;
  query_named_fields_async p sql params :=
    match p with
    | PgProvider p => PostgresProvider.query_named_fields_async p sql params
    | MyProvider p => MySqlProvider.query_named_fields_async p sql params
    | LocalProvider p => provider_query_named_fields p sql params
    end;
}.

(** what the facade calls to build a provider *)
#[export] Instance drivers : Drivers (C := C) (P := Provider L) (E := Outside L) := {
  postgres_connect name config scope :=
    fmap (M := M) (fmap PgProvider) (pg_connect name config scope);
  mysql_connect config scope := fmap (M := M) (fmap MyProvider) (my_connect config scope);
  thread_cloned uri scope :=
    LocalProvider (ThreadProvider {| db_path := uri; SqliteDb.metadata_scope := scope |});
}.
End Providers.
