(* ===== verification/Refresh.v ===== *)
(** * Table refresh (src/refresh.rs)

    Specifications, the snapshot store, loading a table once, and the service:
    one task per table, each on its own ticker, publishing generations into the
    shared store and signals into a bounded channel.  A task is a state machine
    whose phases are the await points and the calls between them; the events of
    a run interleave the tasks, the clock, the receiver and the host.

    [tokio] is modelled by its documented behaviour: a ticker by its next
    deadline, the channel by a bounded queue, an aborted task by a flag it meets
    at its next await point.  A reload takes effect when its future completes.
    The reloading of an authority table is [Loader.reload_table_rows] of the
    source, on the authority database of Authority.v. *)
From S2P Require Import Prelude Errors RustStr Model Lru SqlRoute Runtime SqliteDb Authority Redis Facade.
From S2P Require Loader IntranetNets Vel.

(** ** Specifications and snapshots *)

Definition DEFAULT_SIGNAL_CAPACITY : nat := 1024.

Inductive RefreshSource :=
| Authority (root conf authority_uri table : str)
| NamedSql (provider sql code : str).

(** the interval in nanoseconds *)
Record RefreshSpec := { name : str; interval : N; source : RefreshSource }.

(** an immutable generation of a table *)
Record TableData := { data_name : str; rows : list RowData }.

Abbreviation TableStore := (gmap str TableData).
Definition snapshot (n : str) (s : TableStore) : option TableData := s !! n.
Definition insert (d : TableData) (s : TableStore) : TableStore := <[data_name d := d]> s.

Record RefreshSignal := { sig_name : str }.

(** ** Loading a table once *)

Section Reload.
Context {C : Type → Type → Type} {P L Conn : Type} `{LruOps C} `{Hasher} `{SqliteLib L}
  `{!AuthorityFs L} `{!ProviderExecutor C P (Outside L)}
  (parse_toml : str → option Loader.KnowDbConf).
Abbreviation Process := (Process (C := C) (P := P) (E := Outside L) (Conn := Conn)).
Abbreviation M := (St (World C P (Outside L))).

(** the process, the files it sees and the wall clock, from the epoch *)
Record Env := { proc : Process; files : Loader.Files; since_epoch : option N }.
Abbreviation ME := (St Env).

Definition on_proc {A} (m : St Process A) : ME A := λ e,
  let '(a, p) := m (proc e) in
  (a, {| proc := p; files := files e; since_epoch := since_epoch e |}).

(** [reload_table_rows] of src/loader.rs *)
Definition reload_table_rows (root conf_path authority_uri table : str)
  : ME (KnowledgeResult (list RowData)) := λ e,
  match Loader.parse_knowdb_conf (H := files e) parse_toml root conf_path (intranet (proc e)) with
  | (Err err, st) => on_proc (λ p, (Err err, set_intranet st p)) e
  | (Ok (conf, _, base_dir), st) =>
      on_proc (λ p, let p := set_intranet st p in
        match Loader.refresh_table conf table with
        | Err err => (Err err, p)
        | Ok (spec, sql) =>
            on_kw (db ←? open_authority authority_uri;
                   _ ←? on_lib (Loader.load_one_table (H := files e) (H0 := pool_sqlite db) base_dir spec
                                  (Loader.csv conf) (Loader.default_load conf));
                   MemDB.query db sql) p
        end) e
  end.

(** the two paths differ in the query only *)
Definition load_with (query : str → str → M (KnowledgeResult (list RowData))) (spec : RefreshSpec)
  : ME (KnowledgeResult (list RowData)) :=
  match source spec with
  | NamedSql provider sql code =>
      sql ←? gets (λ e, Vel.render sql code (Vel.current_wall_nanos (since_epoch e)));
      on_proc (on_kw (query provider sql))
  | Authority root conf authority_uri table => reload_table_rows root conf authority_uri table
  end.
Definition load_rows : RefreshSpec → ME (KnowledgeResult (list RowData)) := load_with query_for.
Definition reload : RefreshSpec → ME (KnowledgeResult (list RowData)) := load_with query_async_for.
End Reload.

(** ** The service *)

(** [interval_ticker] with [MissedTickBehavior::Skip]: the deadline after the
    one at [timeout] was met at [now] *)
Class Ticker := next_tick : N → N → N → N.

Module Service.
Section Service.
(** the process with everything a reload touches *)
Context {Proc : Type} (reload : RefreshSpec → St Proc (KnowledgeResult (list RowData))) `{Ticker}.

(** where a task is: not yet polled, waiting for its first tick, waiting for a
    tick, in a reload, about to publish rows, about to signal, finished *)
Inductive Phase :=
| Spawned
| First (timeout : N)
| Waiting (timeout : N)
| Reloading (timeout : N)
| Swapping (timeout : N) (rows : list RowData)
| Signalling (timeout : N)
| Exited.

Record Task := { spec : RefreshSpec; phase : Phase; aborted : bool }.

Record RefreshService := {
  store : TableStore;
  signals : list RefreshSignal;
  rx_open : bool;
  tasks : list Task;
  clock : N;
  process : Proc;
}.

Definition set_store v s : RefreshService :=
  {| store := v; signals := signals s; rx_open := rx_open s; tasks := tasks s; clock := clock s; process := process s |}.
Definition set_signals v s : RefreshService :=
  {| store := store s; signals := v; rx_open := rx_open s; tasks := tasks s; clock := clock s; process := process s |}.
Definition set_rx_open v s : RefreshService :=
  {| store := store s; signals := signals s; rx_open := v; tasks := tasks s; clock := clock s; process := process s |}.
Definition set_tasks v s : RefreshService :=
  {| store := store s; signals := signals s; rx_open := rx_open s; tasks := v; clock := clock s; process := process s |}.
Definition set_clock v s : RefreshService :=
  {| store := store s; signals := signals s; rx_open := rx_open s; tasks := tasks s; clock := v; process := process s |}.
Definition set_process v s : RefreshService :=
  {| store := store s; signals := signals s; rx_open := rx_open s; tasks := tasks s; clock := clock s; process := v |}.

(** the specifications that get a task: the first of each name *)
Fixpoint first_specs (seen : gset str) (specs : list RefreshSpec) : list RefreshSpec :=
  match specs with
  | [] => []
  | spec :: specs =>
      if bool_decide (name spec ∈ seen) then first_specs seen specs
      else spec :: first_specs ({[name spec]} ∪ seen) specs
  end.

Definition spawn_with_store (specs : list RefreshSpec) (store : TableStore) (now : N) (p : Proc)
  : RefreshService :=
  {| store := store; signals := []; rx_open := true;
     tasks := (λ spec, {| spec := spec; phase := Spawned; aborted := false |}) <$> first_specs ∅ specs;
     clock := now; process := p |}.
Definition spawn (specs : list RefreshSpec) : N → Proc → RefreshService := spawn_with_store specs ∅.

Definition abort (t : Task) : Task := {| spec := spec t; phase := phase t; aborted := true |}.
Definition shutdown (s : RefreshService) : RefreshService := set_tasks (abort <$> tasks s) s.
(** dropping the handle also drops the receiver with what it holds *)
Definition drop_service (s : RefreshService) : RefreshService :=
  set_signals [] (set_rx_open false (shutdown s)).

Inductive SendResult := Sent | Full | Closed.
Definition try_send (sig : RefreshSignal) (s : RefreshService) : SendResult * RefreshService :=
  if negb (rx_open s) then (Closed, s)
  else if bool_decide (DEFAULT_SIGNAL_CAPACITY ≤ length (signals s)) then (Full, s)
  else (Sent, set_signals (signals s ++ [sig]) s).

(** the receiver: a signal; [None] when the channel is closed and empty; nothing
    yet *)
Inductive RecvResult := Got (r : option RefreshSignal) | Pending.
Definition exited (t : Task) : bool := match phase t with Exited => true | _ => false end.
Definition recv (s : RefreshService) : RecvResult * RefreshService :=
  match signals s with
  | sig :: rest => (Got (Some sig), set_signals rest s)
  | [] => (if negb (rx_open s) || forallb exited (tasks s) then Got None else Pending, s)
  end.

(** what can be seen of a step *)
Inductive Obs :=
| Started (i : nat)
| Reloaded (i : nat) (r : KnowledgeResult (list RowData))
| Signalled (i : nat) (r : SendResult)
| Received (r : option RefreshSignal).

Definition goto (i : nat) (t : Task) (ph : Phase) (s : RefreshService) : RefreshService :=
  set_tasks (<[i := {| spec := spec t; phase := ph; aborted := aborted t |}]> (tasks s)) s.

(** Task [i] runs to its next point, as [run_spec] does; [suspends] tells
    whether the future of a reload suspends at this poll. *)
Definition run_spec (i : nat) (suspends : bool) (s : RefreshService) : list Obs * RefreshService :=
  match tasks s !! i with
  | None => ([], s)
  | Some t =>
      let exit := ([], goto i t Exited s) in
      match phase t with
      | Spawned =>
          if aborted t then exit
          else if (interval (spec t) =? 0)%N then exit
          else ([], goto i t (First (clock s)) s)
      | First timeout =>
          if aborted t then exit
          else if (timeout <=? clock s)%N
          then ([], goto i t (Waiting (next_tick (interval (spec t)) timeout (clock s))) s)
          else ([], s)
      | Waiting timeout =>
          if aborted t then exit
          else if (timeout <=? clock s)%N
          then ([Started i], goto i t (Reloading (next_tick (interval (spec t)) timeout (clock s))) s)
          else ([], s)
      | Reloading timeout =>
          if suspends then if aborted t then exit else ([], s)
          else
            let '(r, p) := reload (spec t) (process s) in
            ([Reloaded i r],
             goto i t (match r with Ok rows => Swapping timeout rows | Err _ => Waiting timeout end)
               (set_process p s))
      | Swapping timeout rows =>
          ([], goto i t (Signalling timeout)
                 (set_store (insert {| data_name := name (spec t); rows := rows |} (store s)) s))
      | Signalling timeout =>
          let '(r, s) := try_send {| sig_name := name (spec t) |} s in
          ([Signalled i r],
           goto i t (match r with Closed => Exited | _ => Waiting timeout end) s)
      | Exited => ([], s)
      end
  end.

(** One event of a run: a poll of a task, time passing, the host receiving,
    seeding the store, closing the channel, shutting down or dropping the
    service, and anything else the process does. *)
Inductive Event :=
| Poll (i : nat) (suspends : bool)
| Elapse (ns : N)
| Recv
| Seed (d : TableData)
| CloseReceiver
| Shutdown
| Drop
| Elsewhere (f : Proc → Proc).

Definition step (e : Event) (s : RefreshService) : list Obs * RefreshService :=
  match e with
  | Poll i suspends => run_spec i suspends s
  | Elapse ns => ([], set_clock (clock s + ns)%N s)
  | Recv => match recv s with (Got r, s) => ([Received r], s) | (Pending, s) => ([], s) end
  | Seed d => ([], set_store (insert d (store s)) s)
  | CloseReceiver => ([], set_rx_open false s)
  | Shutdown => ([], shutdown s)
  | Drop => ([], drop_service s)
  | Elsewhere f => ([], set_process (f (process s)) s)
  end.

Fixpoint run (es : list Event) (s : RefreshService) : list Obs * RefreshService :=
  match es with
  | [] => ([], s)
  | e :: es => let '(o, s) := step e s in let '(os, s) := run es s in (o ++ os, s)
  end.

(** an unending run: its states, and what is seen of each step *)
Fixpoint state_at (e : nat → Event) (s : RefreshService) (n : nat) : RefreshService :=
  match n with 0 => s | S n => (step (e n) (state_at e s n)).2 end.
Definition obs_at (e : nat → Event) (s : RefreshService) (n : nat) : list Obs :=
  (step (e n) (state_at e s n)).1.
End Service.
Arguments RefreshService : clear implicits.
Arguments Event : clear implicits.
End Service.
