(* ===== verification/Demo.v ===== *)
(** * A concrete environment

    A hash, a cache and a provider on which the witnesses evaluate: the
    provider numbers its calls in the outside state and answers each with one
    field holding the call's number; the provider object 9 answers with an
    error. *)
From S2P Require Import Prelude Errors RustStr Model Lru Runtime Redis Facade.
From S2P Require Loader IntranetNets ProviderConfig.

#[global] Program Instance demo_hasher : Hasher :=
  {| finish b := (foldl (λ a x, (a * 131 + x + 1) mod 18446744073709551616) 7 b `mod` 18446744073709551616)%N |}.
Next Obligation.
  intros b. unfold u64_max. cbv beta.
  pose proof (N.mod_lt (foldl (λ a x, (a * 131 + x + 1) mod 18446744073709551616) 7 b)%N
                18446744073709551616). lia.
Qed.

Abbreviation DemoWorld := (World ListLru.t N N).

Definition answer {A} (f : RowData → A) (p : N) : St DemoWorld (KnowledgeResult A) := λ w,
  let n := (ext w + 1)%N in
  let w := set_ext n w in
  if (p =? 9)%N then (Err (know_err from_rule [F "demo failure"]), w)
  else (Ok (f [from_int (lit "call") (Z.of_N n)]), w).

#[global] Instance demo_provider : ProviderExecutor ListLru.t N N := {
  query p _ := answer (λ r, [r]) p;
  query_fields p _ _ := answer (λ r, [r]) p;
  query_row p _ := answer id p;
  query_named_fields p _ _ := answer id p;
  query_async p _ := answer (λ r, [r]) p;
  query_fields_async p _ _ := answer (λ r, [r]) p;
  query_row_async p _ := answer id p;
  query_named_fields_async p _ _ := answer id p;
}.

Definition demo_world : DemoWorld := world_new 5000000 0%N.

Definition demo_handle : ProviderHandle N :=
  {| executor := 7%N; datasource_id := lit "demo"; generation := 0; kind := Postgres |}.

Definition demo_build (p : N) : Generation → St DemoWorld (KnowledgeResult N) := λ _ w, (Ok p, w).
Definition demo_broken : Generation → St DemoWorld (KnowledgeResult N) :=
  λ _ w, (Err (know_err from_conf [F "connect failed"]), w).

(** connecting to the URI "down" fails; the provider object is the number of
    bytes of the name or URI *)
#[global] Instance demo_drivers : Drivers (C := ListLru.t) (P := N) (E := N) := {
  postgres_connect name cfg _ := mret
    (if bool_decide (ProviderConfig.pg_connection_uri cfg = lit "down")
     then Err (know_err from_conf [F "create postgres pool failed"])
     else Ok (N.of_nat (length name)));
  mysql_connect cfg _ := mret (Ok (N.of_nat (length (ProviderConfig.my_connection_uri cfg))));
  thread_cloned uri _ := N.of_nat (length uri);
}.

Definition demo_process : Process (C := ListLru.t) (P := N) (E := N) (Conn := N) :=
  {| kw := demo_world; reg := registry_new; FUN_MAP := None;
     intranet := IntranetNets.intranet_init |}.

Definition demo_spec (name : option string) (k : Loader.SqlProviderKind) (uri : string)
  : Loader.SqlProviderSpec :=
  {| Loader.spec_name := lit <$> name; Loader.spec_kind := k; Loader.connection_uri := lit uri;
     Loader.pool_size := None; Loader.min_connections := None; Loader.acquire_timeout_ms := None;
     Loader.idle_timeout_ms := None; Loader.max_lifetime_ms := None; Loader.postgres_session := None |}.
