(* ===== verification/RuntimeFacts.v ===== *)
(** * Properties of the knowledge runtime

    The runtime as a transition system: its invariant, the isolation of
    generations in the result cache, where cached answers come from and how old
    they are, installation and pruning of providers, and the registry interface
    that SQL routing relies on. *)
From Stdlib Require Import Sorting.Sorted.
From S2P Require Import Prelude Errors RustStr Model Lru SqlRoute Runtime Demo.

Section Facts.
Context {C : Type → Type → Type} {P E : Type} `{LruLaws C} `{Hasher} `{!ProviderExecutor C P E}.
Abbreviation World := (World C P E).
Abbreviation M := (St World).
Implicit Types (w : World) (r : KnowledgeRuntime C P) (h : ProviderHandle P).

(** ** Frames *)

(** two runtimes that differ in their counters only *)
Definition same_rt r r' : Prop := set_counters (λ _, 0%N) r = set_counters (λ _, 0%N) r'.

#[export] Instance same_rt_equiv : Equivalence same_rt.
Proof. split; [intros ?; done|intros ???; by symmetry|intros ?????; by etransitivity]. Qed.

Lemma same_rt_counters r cs : same_rt r (set_counters cs r).
Proof. done. Qed.

#[export] Instance provider_proper : Proper (same_rt ==> eq) provider.
Proof. intros r r' Hr. exact (f_equal provider Hr). Qed.
#[export] Instance named_proper : Proper (same_rt ==> eq) named_providers.
Proof. intros r r' Hr. exact (f_equal named_providers Hr). Qed.
#[export] Instance epoch_proper : Proper (same_rt ==> eq) named_provider_epoch.
Proof. intros r r' Hr. exact (f_equal named_provider_epoch Hr). Qed.
#[export] Instance next_proper : Proper (same_rt ==> eq) next_generation.
Proof. intros r r' Hr. exact (f_equal next_generation Hr). Qed.
#[export] Instance pepoch_proper : Proper (same_rt ==> eq) provider_epoch.
Proof. intros r r' Hr. exact (f_equal provider_epoch Hr). Qed.
#[export] Instance value_proper : Proper (same_rt ==> eq) current_generation_value.
Proof. intros r r' Hr. exact (f_equal current_generation_value Hr). Qed.
#[export] Instance config_proper : Proper (same_rt ==> eq) result_cache_config.
Proof. intros r r' Hr. exact (f_equal result_cache_config Hr). Qed.
#[export] Instance flag_proper : Proper (same_rt ==> eq) result_cache_enabled_flag.
Proof. intros r r' Hr. exact (f_equal result_cache_enabled_flag Hr). Qed.
#[export] Instance ttl_proper : Proper (same_rt ==> eq) result_cache_ttl_ms.
Proof. intros r r' Hr. exact (f_equal result_cache_ttl_ms Hr). Qed.
#[export] Instance cache_proper : Proper (same_rt ==> eq) result_cache.
Proof. intros r r' Hr. exact (f_equal result_cache Hr). Qed.
#[export] Instance redis_cache_proper : Proper (same_rt ==> eq) redis_cache.
Proof. intros r r' Hr. exact (f_equal redis_cache Hr). Qed.
#[export] Instance redis_flag_proper : Proper (same_rt ==> eq) redis_global_enabled.
Proof. intros r r' Hr. exact (f_equal redis_global_enabled Hr). Qed.

(** what a provider may do to the runtime: bump counters, let time pass *)
Definition frame w w' : Prop := same_rt (rt w) (rt w') ∧ (now w ≤ now w')%N.

#[export] Instance frame_preorder : PreOrder frame.
Proof.
  split; [intros w; by split|]. intros w1 w2 w3 [R1 T1] [R2 T2]. split; [by etransitivity|lia].
Qed.

Definition framed {A} (m : M A) : Prop := ∀ w, frame w (m w).2.

(** The trait's implementations query their database, count column-name cache
    hits and leave the rest of the runtime alone. *)
Class ProviderFrame : Prop := {
  query_framed p sql : framed (query p sql);
  query_fields_framed p sql ps : framed (query_fields p sql ps);
  query_row_framed p sql : framed (query_row p sql);
  query_named_fields_framed p sql ps : framed (query_named_fields p sql ps);
  query_async_framed p sql : framed (query_async p sql);
  query_fields_async_framed p sql ps : framed (query_fields_async p sql ps);
  query_row_async_framed p sql : framed (query_row_async p sql);
  query_named_fields_async_framed p sql ps : framed (query_named_fields_async p sql ps);
}.

Lemma framed_fmap {A B} (f : A → B) (m : M A) : framed m → framed (f <$> m).
Proof. intros Hm w. unfold fmap, st_fmap. specialize (Hm w). by destruct (m w). Qed.

(** ** One cached call *)

(** the world of a call that missed, when the provider is reached *)
Definition miss_world (h : ProviderHandle P) (key : ResultCacheKey) w : World :=
  (report (CacheTelemetryEvent LayerResult Miss (Some (kind h)))
     (record_result_cache_miss (fetch_result_cache_by_key key w).2).2).2.

Definition hit_world (h : ProviderHandle P) w : World :=
  (report (CacheTelemetryEvent LayerResult Hit (Some (kind h))) (record_result_cache_hit w).2).2.

Definition done_world (h : ProviderHandle P) (tag : QueryModeTag) (ok : bool) (started : N) w : World :=
  (report (QueryTelemetryEvent (kind h) tag ok (elapsed (now w) started)) w).2.

Lemma cached_call_spec h policy key tag (call : M (KnowledgeResult QueryResponse)) w :
  cached_call h policy key tag call w
  = if use_global policy && result_cache_enabled (rt w) then
      match fetch_result_cache_by_key key w with
      | (Some resp, w1) => (Ok resp, hit_world h w1)
      | (None, _) =>
          let w1 := miss_world h key w in
          match call w1 with
          | (Ok resp, w2) =>
              (Ok resp, (save_result_cache_by_key key resp (done_world h tag true (now w1) w2)).2)
          | (Err e, w2) => (Err e, done_world h tag false (now w1) w2)
          end
      end
    else
      match call w with
      | (Ok resp, w2) => (Ok resp, done_world h tag true (now w) w2)
      | (Err e, w2) => (Err e, done_world h tag false (now w) w2)
      end.
Proof.
  unfold cached_call, miss_world, hit_world, done_world.
  unfold mbind, st_bind, gets, when, mret, st_ret, record_result_cache_miss,
    record_result_cache_hit, record, report, on_rt, modify. cbv zeta beta.
  destruct (use_global policy && result_cache_enabled (rt w)) eqn:Hug; simpl.
  - destruct (fetch_result_cache_by_key key w) as [[resp|] w1]; simpl; [done|].
    destruct (call _) as [[resp|e] w2]; done.
  - destruct (call w) as [[resp|e] w2]; done.
Qed.

Lemma fetch_by_key_cases key w :
  (fetch_result_cache_by_key key w = (None, w)
     ∧ (result_cache_enabled (rt w) = false ∨ lru_peek key (result_cache (rt w)) = None))
  ∨ (∃ e, result_cache_enabled (rt w) = true ∧ lru_peek key (result_cache (rt w)) = Some e
      ∧ if (result_cache_ttl (rt w) <? elapsed (now w) (cached_at e))%N
        then fetch_result_cache_by_key key w
             = (None, set_rt (set_result_cache (lru_pop key (result_cache (rt w))) (rt w)) w)
        else fetch_result_cache_by_key key w = (Some (response e), w)).
Proof.
  unfold fetch_result_cache_by_key. cbv zeta.
  destruct (result_cache_enabled (rt w)); simpl; [|left; auto].
  destruct (lru_peek key (result_cache (rt w))) as [e|]; [|left; auto].
  right. exists e. split_and!; try done. by destruct (_ <? _)%N.
Qed.

(** ** The invariant *)

Record rt_ok r : Prop := {
  ok_named n h : named_providers r !! n = Some h → (1 ≤ generation h ≤ next_generation r)%N;
  ok_default : match provider r with
               | Some h => current_generation_value r = generation h
                           ∧ (1 ≤ generation h ≤ next_generation r)%N
               | None => current_generation_value r = 0%N
               end;
  ok_epoch : (provider_epoch r `mod` 2 = 0)%N;
  ok_cache key e : lru_peek key (result_cache r) = Some e →
                   (key_generation key ≤ next_generation r)%N;
  ok_capacity : 1 ≤ capacity (result_cache_config r)
                ∧ lru_cap (result_cache r) = capacity (result_cache_config r)
                ∧ lru_len (result_cache r) ≤ lru_cap (result_cache r);
  ok_settings : result_cache_enabled_flag r = enabled (result_cache_config r)
                ∧ (from_millis 1 ≤ ttl (result_cache_config r))%N
                ∧ result_cache_ttl_ms r = N.min (as_millis (ttl (result_cache_config r))) u64_max;
  ok_redis : 1 ≤ lru_cap (redis_cache r) ∧ lru_len (redis_cache r) ≤ lru_cap (redis_cache r);
}.

#[export] Instance rt_ok_proper : Proper (same_rt ==> iff) rt_ok.
Proof.
  assert (∀ r r', same_rt r r' → rt_ok r → rt_ok r') as Himp.
  { intros r r' Hr [On Od Oe Oc Ocap Os Ored]. pose proof (f_equal named_providers Hr) as E1.
    pose proof (f_equal next_generation Hr) as E2. pose proof (f_equal provider Hr) as E3.
    pose proof (f_equal current_generation_value Hr) as E4.
    pose proof (f_equal provider_epoch Hr) as E5. pose proof (f_equal result_cache Hr) as E6.
    pose proof (f_equal result_cache_config Hr) as E7.
    pose proof (f_equal result_cache_enabled_flag Hr) as E8.
    pose proof (f_equal result_cache_ttl_ms Hr) as E9. pose proof (f_equal redis_cache Hr) as E10.
    cbn in *. split; congruence || rewrite <-?E1, <-?E2, <-?E3, <-?E4, <-?E5, <-?E6, <-?E7; auto. }
  intros r r' Hr. split; apply Himp; [done|by symmetry].
Qed.

Lemma rt_ok_new n : rt_ok (runtime_new n).
Proof.
  split; simpl; try done.
  - intros key e. by rewrite peek_new.
  - rewrite cap_new, len_new. lia.
  - rewrite cap_new, len_new. lia.
Qed.

(** *** Every operation keeps it *)

Lemma rt_report e w : rt (report e w).2 = rt w.
Proof. done. Qed.

Lemma rt_ok_record k w : rt_ok (rt w) → rt_ok (rt (record k w).2).
Proof. intros Hok. cbn. by rewrite <-same_rt_counters. Qed.

Lemma rt_ok_set_cache r d :
  rt_ok r → lru_cap d = lru_cap (result_cache r) → lru_len d ≤ lru_cap d →
  (∀ key e, lru_peek key d = Some e → (key_generation key ≤ next_generation r)%N) →
  rt_ok (set_result_cache d r).
Proof.
  intros [On Od Oe Oc Ocap Os Ored] Hcap Hlen Hkey. split; cbn; try done.
  destruct Ocap as (? & ? & _). split_and!; [done|congruence|done].
Qed.

Lemma rt_ok_fetch key w : rt_ok (rt w) → rt_ok (rt (fetch_result_cache_by_key key w).2).
Proof.
  intros Hok. destruct (fetch_by_key_cases key w) as [[-> _]|(e & _ & _ & Hc)]; [done|].
  destruct (_ <? _)%N; rewrite Hc; [|done]. pose proof (ok_capacity _ Hok) as (_ & _ & Hlen).
  apply rt_ok_set_cache; [done|apply cap_pop| |].
  - rewrite cap_pop. etransitivity; [apply len_pop|done].
  - intros k e'. rewrite peek_pop. case_decide; [done|]. apply (ok_cache _ Hok).
Qed.

Lemma rt_ok_save key resp w :
  rt_ok (rt w) → (key_generation key ≤ next_generation (rt w))%N →
  rt_ok (rt (save_result_cache_by_key key resp w).2).
Proof.
  intros Hok Hk. pose proof (ok_capacity _ Hok) as (Hc & Hcap & Hlen).
  apply rt_ok_set_cache; [done|apply cap_put| |].
  - rewrite cap_put. apply len_put; lia.
  - intros k e. destruct (decide (key = k)) as [<-|Hne]; [done|].
    intros Hp%peek_put_old; [|done]. by eapply (ok_cache _ Hok).
Qed.

(** what a cached call leaves in place *)
Lemma cached_call_frame h policy key tag (call : M (KnowledgeResult QueryResponse)) w :
  framed call →
  let w' := (cached_call h policy key tag call w).2 in
  (rt_ok (rt w) → (key_generation key ≤ next_generation (rt w))%N → rt_ok (rt w'))
  ∧ named_providers (rt w') = named_providers (rt w)
  ∧ named_provider_epoch (rt w') = named_provider_epoch (rt w)
  ∧ next_generation (rt w') = next_generation (rt w).
Proof.
  intros Hcall w'. unfold w'. rewrite cached_call_spec. clear w'.
  assert (∀ w0 ok st resp, (rt_ok (rt w) → rt_ok (rt w0)) →
    named_providers (rt w0) = named_providers (rt w) →
    named_provider_epoch (rt w0) = named_provider_epoch (rt w) →
    next_generation (rt w0) = next_generation (rt w) →
    let w1 := (call w0).2 in
    let w2 := done_world h tag ok st w1 in
    let w3 := (save_result_cache_by_key key resp w2).2 in
    (rt_ok (rt w) → rt_ok (rt w2) ∧ ((key_generation key ≤ next_generation (rt w))%N → rt_ok (rt w3)))
    ∧ named_providers (rt w2) = named_providers (rt w)
    ∧ named_provider_epoch (rt w2) = named_provider_epoch (rt w)
    ∧ next_generation (rt w2) = next_generation (rt w)) as Hgen.
  { intros w0 ok st resp Hok Hn He Hg w1 w2 w3. destruct (Hcall w0) as [Hs _]. fold w1 in Hs.
    assert (rt w2 = rt w1) as Hw2 by done. rewrite Hw2, <-Hs. split_and!; try done.
    intros Hok0. split; [by apply Hok|]. intros Hk. apply rt_ok_save.
    - rewrite Hw2, <-Hs. by apply Hok.
    - rewrite Hw2, <-Hs, Hg. done. }
  destruct (use_global policy && _).
  - pose proof (rt_ok_fetch key w) as Hf.
    destruct (fetch_by_key_cases key w) as [[Heq _]|(e & _ & _ & Hc)];
      [|destruct (_ <? _)%N; rename Hc into Heq]; rewrite Heq in *; cbn [fst snd] in *.
    3: { split_and!; try done. intros Hok _. unfold hit_world. rewrite rt_report.
         by apply rt_ok_record. }
    all: destruct (Hgen (miss_world h key w) true (now (miss_world h key w)) (Rows [])) as (Ho & Hn & He & Hg);
      [intros Hok; unfold miss_world; rewrite rt_report, Heq; apply rt_ok_record; by apply Hf
      |unfold miss_world; rewrite Heq; done..|].
    all: destruct (call (miss_world h key w)) as [[resp|err] w2]; cbn [fst snd] in *;
      (split; [|by split_and!]); intros Hok Hk; [|by apply Ho].
    all: apply rt_ok_save; [by apply Ho|by rewrite Hg].
  - destruct (Hgen w true (now w) (Rows []) id eq_refl eq_refl eq_refl) as (Ho & Hn & He & Hg).
    destruct (call w) as [[resp|err] w2]; cbn [fst snd] in *; (split; [|by split_and!]);
      intros Hok _; by apply Ho.
Qed.

(** *** Installing *)

(** the runtime after a successful build of generation [g] *)
Definition installed (name : str) (h : ProviderHandle P) (is_default : bool) r
  : KnowledgeRuntime C P :=
  let r := set_named_provider_epoch (wrap64 (named_provider_epoch r + 1))
             (set_named_providers (<[name := h]> (named_providers r)) r) in
  if is_default then
    set_provider_epoch (wrap64 (wrap64 (provider_epoch r + 1) + 1))
      (set_current_generation_value (generation h) (set_provider (Some h) r))
  else r.

Lemma install_spec name k ds (build : Generation → M (KnowledgeResult P)) is_default w :
  let g := wrap64 (next_generation (rt w) + 1) in
  let w0 := set_rt (set_next_generation g (rt w)) w in
  let '(built, w1) := build g w0 in
  let '(res, w') := install_provider_named name k ds build is_default w in
  now w' = now w1 ∧
  match built with
  | Err e => res = Err e ∧ same_rt (rt w') (rt w1)
  | Ok p => res = Ok g
            ∧ same_rt (rt w') (installed name {| executor := p; datasource_id := ds;
                                                 generation := g; kind := k |} is_default (rt w1))
  end.
Proof.
  intros g w0. unfold install_provider_named, mbind, st_bind, gets, on_rt, modify. cbv beta.
  fold g. cbn [fst snd]. fold w0. destruct (build g w0) as [[p|e] w1]; [|done].
  destruct is_default; split; try done; split; done.
Qed.

Lemma same_rt_set_next r r' g :
  same_rt r r' → same_rt (set_next_generation g r) (set_next_generation g r').
Proof.
  intros Hr. exact (f_equal (set_next_generation g) Hr).
Qed.

Lemma rt_ok_set_next r g :
  rt_ok r → (next_generation r ≤ g)%N → rt_ok (set_next_generation g r).
Proof.
  intros [On Od Oe Oc Ocap Os Ored] Hg. split; cbn; try done.
  - intros n h Hn. specialize (On n h Hn). lia.
  - revert Od. destruct (provider r); [|done]. intros [? ?]. split; [done|lia].
  - intros key e He. specialize (Oc key e He). lia.
Qed.

Lemma wrap64_small n : (n ≤ u64_max)%N → wrap64 n = n.
Proof. unfold wrap64, u64_max. lia. Qed.

Lemma wrap64_parity n : (n `mod` 2 = 0)%N → (wrap64 (wrap64 (n + 1) + 1) `mod` 2 = 0)%N.
Proof. unfold wrap64. lia. Qed.

Lemma rt_ok_installed name h is_default r :
  rt_ok r → generation h = next_generation r → (1 ≤ generation h)%N →
  rt_ok (installed name h is_default r).
Proof.
  intros [On Od Oe Oc Ocap Os Ored] Hg Hge1.
  assert (∀ n h', <[name := h]> (named_providers r) !! n = Some h' →
            (1 ≤ generation h' ≤ next_generation r)%N) as Hn.
  { intros n h' [[_ <-]|[_ Hl]]%lookup_insert_Some; [lia|by eapply On]. }
  destruct is_default; split; cbn; try done.
  - split; [done|lia].
  - by apply wrap64_parity.
Qed.

Lemma install_ok name k ds (build : Generation → M (KnowledgeResult P)) is_default w :
  (∀ g, framed (build g)) → (next_generation (rt w) < u64_max)%N → rt_ok (rt w) →
  rt_ok (rt (install_provider_named name k ds build is_default w).2).
Proof.
  intros Hb Hlt Hok. pose proof (install_spec name k ds build is_default w) as Hs.
  cbv zeta in Hs. set (g := wrap64 _) in *. set (w0 := set_rt _ w) in *.
  assert (g = next_generation (rt w) + 1)%N as Hg
    by (unfold g; apply wrap64_small; unfold u64_max in *; lia).
  destruct (Hb g w0) as [Hf _].
  assert (rt_ok (rt w0)) as Hok0 by (apply rt_ok_set_next; [done|lia]).
  destruct (build g w0) as [[p|e] w1]; cbn [snd] in Hf;
    destruct (install_provider_named _ _ _ _ _ w) as [res w']; cbn [snd];
    destruct Hs as (_ & _ & ->); [|by rewrite <-Hf].
  apply rt_ok_installed; cbn; [by rewrite <-Hf|by rewrite <-Hf|lia].
Qed.

(** *** Pruning and configuration *)

Lemma rt_ok_prune keep w : rt_ok (rt w) → rt_ok (rt (prune_named_providers_except keep w).2).
Proof.
  intros [On Od Oe Oc Ocap Os Ored]. cbn. case_bool_decide; split; cbn; try done;
    intros n h [Hl _]%map_lookup_filter_Some; by eapply On.
Qed.

Lemma rt_ok_configure en cap d w :
  rt_ok (rt w) → rt_ok (rt (configure_result_cache en cap d w).2).
Proof.
  intros [On Od Oe Oc Ocap Os Ored]. cbn.
  destruct (negb (bool_decide _) || _) eqn:Hr; split; cbn; try done.
  - intros key e. by rewrite peek_new.
  - rewrite cap_new, len_new. lia.
  - split_and!; [done|lia|done].
  - apply orb_false_elim in Hr as [Hc _]. apply negb_false_iff, bool_decide_eq_true in Hc.
    rewrite <-Hc. done.
  - split_and!; [done|lia|done].
Qed.

Lemma rt_ok_configure_redis en cap w :
  rt_ok (rt w) → rt_ok (rt (configure_redis_cache en cap w).2).
Proof.
  intros [On Od Oe Oc Ocap Os Ored]. split; cbn; try done. rewrite cap_new, len_new. lia.
Qed.

(** *** Redis entries *)

Lemma rt_ok_set_redis r d :
  rt_ok r → lru_cap d = lru_cap (redis_cache r) → lru_len d ≤ lru_cap d → rt_ok (set_redis_cache d r).
Proof.
  intros [On Od Oe Oc Ocap Os Ored] Hcap Hlen. split; cbn; try done. split; [|done].
  rewrite Hcap. apply Ored.
Qed.

Lemma rt_ok_redis_put ck v t w :
  rt_ok (rt w) → rt_ok (rt (redis_cache_put_with_ttl ck v t w).2).
Proof.
  intros Hok. unfold redis_cache_put_with_ttl, mbind, st_bind, gets, mret, st_ret. cbv beta.
  destruct (negb _); [done|]. unfold record, save_redis_cache, on_rt, modify. cbn.
  pose proof (ok_redis _ Hok) as [Hge1 Hge2].
  destruct (negb _); [by rewrite <-same_rt_counters|].
  apply rt_ok_set_redis; cbn; [by rewrite <-same_rt_counters|apply cap_put|].
  rewrite cap_put. by apply len_put.
Qed.

Lemma fetch_redis_cases ck w :
  fetch_redis_cache ck w = (None, w)
  ∨ fetch_redis_cache ck w = (None, set_rt (set_redis_cache (lru_pop ck (redis_cache (rt w))) (rt w)) w)
  ∨ ∃ e, lru_peek ck (redis_cache (rt w)) = Some e ∧ fetch_redis_cache ck w = (Some e, w).
Proof.
  unfold fetch_redis_cache. destruct (negb _); [auto|].
  destruct (lru_peek _ _) as [e|]; [|auto]. destruct (_ && _); [auto|]. right; right. eauto.
Qed.

Lemma rt_ok_redis_get ck w : rt_ok (rt w) → rt_ok (rt (redis_cache_get ck w).2).
Proof.
  intros Hok. unfold redis_cache_get, mbind, st_bind, gets, mret, st_ret. cbv beta.
  destruct (negb _); [done|].
  destruct (fetch_redis_cases ck w) as [->|[->|(e & _ & ->)]]; cbn; [done| |].
  - pose proof (ok_redis _ Hok) as [Hge1 Hge2]. apply rt_ok_set_redis; [done|apply cap_pop|].
    rewrite cap_pop. etransitivity; [apply len_pop|done].
  - by rewrite <-same_rt_counters.
Qed.

(** ** The runtime as a transition system *)

(** One call by one caller.  A query may use any handle issued so far, since a
    caller keeps the handle it cloned while others install providers.  The two
    64-bit counters are below their maximum when they are incremented. *)
Inductive step : World → World → Prop :=
| step_install name k ds build is_default w :
    (∀ g, framed (build g)) → (next_generation (rt w) < u64_max)%N →
    (named_provider_epoch (rt w) < u64_max)%N →
    step w (install_provider_named name k ds build is_default w).2
| step_prune keep w :
    (named_provider_epoch (rt w) < u64_max)%N → step w (prune_named_providers_except keep w).2
| step_configure en cap d w : step w (configure_result_cache en cap d w).2
| step_configure_redis en cap w : step w (configure_redis_cache en cap w).2
| step_execute h req w :
    (generation h ≤ next_generation (rt w))%N → step w (execute_with_handle h req w).2
| step_first_row h sql params policy w :
    (generation h ≤ next_generation (rt w))%N →
    step w (execute_first_row_fields_with_handle h sql params policy w).2
| step_execute_async h req w :
    (generation h ≤ next_generation (rt w))%N → step w (execute_async_with_handle h req w).2
| step_first_row_async h sql params policy w :
    (generation h ≤ next_generation (rt w))%N →
    step w (execute_first_row_fields_async_with_handle h sql params policy w).2
| step_redis_get ck w : step w (redis_cache_get ck w).2
| step_redis_put ck v t w : step w (redis_cache_put_with_ttl ck v t w).2
| step_record k w : step w (record k w).2
| step_outside w w' : rt w' = rt w → (now w ≤ now w')%N → step w w'.

Definition reachable w : Prop := ∃ start outside, rtc step (world_new start outside) w.

Context {pframe : ProviderFrame}.

Lemma call_framed h req : framed
  (match req_mode req with
   | Many =>
       if bool_decide (params_to_fields (req_params req) = [])
       then fmap (M := M) (fmap Rows) (query (executor h) (req_sql req))
       else fmap (M := M) (fmap Rows) (query_fields (executor h) (req_sql req) (params_to_fields (req_params req)))
   | FirstRow =>
       if bool_decide (params_to_fields (req_params req) = [])
       then fmap (M := M) (fmap Row) (query_row (executor h) (req_sql req))
       else fmap (M := M) (fmap Row) (query_named_fields (executor h) (req_sql req) (params_to_fields (req_params req)))
   end).
Proof.
  destruct (req_mode req); case_bool_decide; apply framed_fmap; apply pframe.
Qed.

Lemma call_async_framed h req : framed
  (match req_mode req with
   | Many =>
       if bool_decide (params_to_fields (req_params req) = [])
       then fmap (M := M) (fmap Rows) (query_async (executor h) (req_sql req))
       else fmap (M := M) (fmap Rows) (query_fields_async (executor h) (req_sql req) (params_to_fields (req_params req)))
   | FirstRow =>
       if bool_decide (params_to_fields (req_params req) = [])
       then fmap (M := M) (fmap Row) (query_row_async (executor h) (req_sql req))
       else fmap (M := M) (fmap Row) (query_named_fields_async (executor h) (req_sql req) (params_to_fields (req_params req)))
   end).
Proof.
  destruct (req_mode req); case_bool_decide; apply framed_fmap; apply pframe.
Qed.

Lemma row_framed h sql (params : list DataField) : framed
  (if bool_decide (params = [])
   then fmap (M := M) (fmap Row) (query_row (executor h) sql)
   else fmap (M := M) (fmap Row) (query_named_fields (executor h) sql params)).
Proof. case_bool_decide; apply framed_fmap; apply pframe. Qed.

Lemma row_async_framed h sql (params : list DataField) : framed
  (if bool_decide (params = [])
   then fmap (M := M) (fmap Row) (query_row_async (executor h) sql)
   else fmap (M := M) (fmap Row) (query_named_fields_async (executor h) sql params)).
Proof. case_bool_decide; apply framed_fmap; apply pframe. Qed.

Lemma snd_fmap {A B} (f : A → B) (m : M A) w : ((f <$> m) w).2 = (m w).2.
Proof. unfold fmap, st_fmap. by destruct (m w). Qed.

(** one step's effect on the invariant and on the registry *)
Definition registry_step r r' : Prop :=
  (named_provider_epoch r ≤ named_provider_epoch r')%N
  ∧ (named_provider_epoch r = named_provider_epoch r' → named_providers r = named_providers r')
  ∧ (next_generation r ≤ next_generation r')%N.

#[export] Instance registry_step_preorder : PreOrder registry_step.
Proof.
  split; [intros r; by split_and!|]. intros r1 r2 r3 (L1 & E1 & G1) (L2 & E2 & G2).
  split_and!; [lia| |lia]. intros Heq. rewrite E1 by lia. apply E2. lia.
Qed.

Lemma registry_step_eq r r' :
  named_providers r' = named_providers r → named_provider_epoch r' = named_provider_epoch r →
  next_generation r' = next_generation r → registry_step r r'.
Proof. intros Hn He Hg. unfold registry_step. rewrite Hn, He, Hg. split_and!; done. Qed.

Lemma cached_step h policy key tag (call : M (KnowledgeResult QueryResponse)) w :
  framed call → (key_generation key ≤ next_generation (rt w))%N →
  let w' := (cached_call h policy key tag call w).2 in
  (rt_ok (rt w) → rt_ok (rt w')) ∧ registry_step (rt w) (rt w').
Proof.
  intros Hf Hk. destruct (cached_call_frame h policy key tag call w Hf) as (Hok & Hn & He & Hg).
  split; [by intros ?; apply Hok|by apply registry_step_eq].
Qed.

Lemma map_filter_same_size {A : Type} (keep : gset str) (m : gmap str A) :
  size (filter (λ e, e.1 ∈ keep) m) = size m → filter (λ e, e.1 ∈ keep) m = m.
Proof.
  intros Hs. apply map_subseteq_size_eq; [apply map_filter_subseteq|lia].
Qed.

Lemma step_spec w w' :
  step w w' → (rt_ok (rt w) → rt_ok (rt w')) ∧ registry_step (rt w) (rt w').
Proof.
  destruct 1 as [name k ds build dflt w Hb Hg He|keep w He|en cap d w|en cap w|h req w Hg
    |h sql params policy w Hg|h req w Hg|h sql params policy w Hg|ck w|ck v t w|k w|w w' Hrt Hnow].
  - split; [by apply install_ok|]. pose proof (install_spec name k ds build dflt w) as Hs.
    cbv zeta in Hs. set (g := wrap64 _) in *. set (w0 := set_rt _ w) in *.
    assert (g = next_generation (rt w) + 1)%N as Hg'
      by (unfold g; apply wrap64_small; unfold u64_max in *; lia).
    destruct (Hb g w0) as [Hf _].
    destruct (build g w0) as [[p|e] w1]; cbn [snd] in Hf;
      destruct (install_provider_named _ _ _ _ _ w) as [res w']; cbn [snd];
      destruct Hs as (_ & _ & Hs); unfold registry_step; rewrite Hs.
    + assert (named_provider_epoch (rt w1) = named_provider_epoch (rt w)) as He1 by (by rewrite <-Hf).
      assert (next_generation (rt w1) = g) as Hg1 by (by rewrite <-Hf).
      assert (∀ d h, named_provider_epoch (installed name h d (rt w1)) = wrap64 (named_provider_epoch (rt w1) + 1)
                     ∧ next_generation (installed name h d (rt w1)) = next_generation (rt w1)) as Hi
        by (by intros [] ?).
      destruct (Hi dflt {| executor := p; datasource_id := ds; generation := g; kind := k |}) as [-> ->].
      rewrite He1, Hg1, wrap64_small by lia. split_and!; lia.
    + rewrite <-Hf. cbn. split_and!; [done|done|lia].
  - split; [by apply rt_ok_prune|]. cbn. case_bool_decide as Hs.
    + unfold registry_step. cbn. split_and!; [done| |done]. intros _. symmetry.
      by apply map_filter_same_size.
    + unfold registry_step. cbn. rewrite wrap64_small by lia. split_and!; lia.
  - split; [by apply rt_ok_configure|]. cbn. destruct (negb _ || _); by apply registry_step_eq.
  - split; [by apply rt_ok_configure_redis|by apply registry_step_eq].
  - apply cached_step; [apply call_framed|done].
  - unfold execute_first_row_fields_with_handle. rewrite snd_fmap.
    apply cached_step; [apply row_framed|done].
  - apply cached_step; [apply call_async_framed|done].
  - unfold execute_first_row_fields_async_with_handle. rewrite snd_fmap.
    apply cached_step; [apply row_async_framed|done].
  - split; [by apply rt_ok_redis_get|]. unfold redis_cache_get, mbind, st_bind, gets, mret, st_ret.
    cbv beta. destruct (negb _); [by apply registry_step_eq|].
    destruct (fetch_redis_cases ck w) as [->|[->|(e & _ & ->)]]; by apply registry_step_eq.
  - split; [by apply rt_ok_redis_put|].
    unfold redis_cache_put_with_ttl, mbind, st_bind, gets, mret, st_ret. cbv beta.
    destruct (negb _); [by apply registry_step_eq|]. cbn.
    destruct (negb _); by apply registry_step_eq.
  - split; [apply rt_ok_record|by apply registry_step_eq].
  - rewrite Hrt. split; [done|by apply registry_step_eq].
Qed.

Lemma steps_spec w w' :
  rtc step w w' → (rt_ok (rt w) → rt_ok (rt w')) ∧ registry_step (rt w) (rt w').
Proof.
  induction 1 as [w|w1 w2 w3 Hs _ [IHok IHr]]; [by split|].
  apply step_spec in Hs as [Hok Hr]. split; [auto|by etransitivity].
Qed.

Lemma reachable_ok w : reachable w → rt_ok (rt w).
Proof. intros (s & o & Hr). apply steps_spec in Hr as [Hok _]. apply Hok, rt_ok_new. Qed.

(** ** Properties *)

(** C2. The runtime's invariant, in every state any callers can reach: issued
    generations bound those of the registry, the default slot and the cache
    keys; the published generation is the default provider's and the epoch is
    even between calls; the caches respect their capacities; the fast-path
    copies of the settings agree with the configuration. *)
Theorem runtime_invariant w : reachable w → rt_ok (rt w).
Proof. apply reachable_ok. Qed.

(** C3. Generations isolate the result cache: after a provider is installed,
    no entry of the cache belongs to its generation, so its first query of any
    kind misses; the provider is registered under its name with the next
    generation, and a default provider is the current one. *)
Theorem install_isolates name k ds (build : Generation → M (KnowledgeResult P)) is_default w g w' :
  reachable w → (∀ g, framed (build g)) → (next_generation (rt w) < u64_max)%N →
  install_provider_named name k ds build is_default w = (Ok g, w') →
  g = (next_generation (rt w) + 1)%N
  ∧ (∃ h, named_providers (rt w') !! name = Some h ∧ generation h = g ∧ kind h = k ∧ datasource_id h = ds
        ∧ if is_default then provider (rt w') = Some h ∧ current_generation (rt w') = Some g
          else provider (rt w') = provider (rt w))
  ∧ ∀ key, key_generation key = g → fetch_result_cache_by_key key w' = (None, w').
Proof.
  intros Hreach Hb Hlt Hi. pose proof (reachable_ok w Hreach) as Hok.
  pose proof (install_ok name k ds build is_default w Hb Hlt Hok) as Hok'.
  pose proof (install_spec name k ds build is_default w) as Hs. cbv zeta in Hs.
  rewrite Hi in Hs, Hok'. cbn [snd] in Hok'. set (g' := wrap64 _) in *. set (w0 := set_rt _ w) in *.
  assert (g' = next_generation (rt w) + 1)%N as Hg'
    by (unfold g'; apply wrap64_small; unfold u64_max in *; lia).
  destruct (Hb g' w0) as [Hf _].
  destruct (build g' w0) as [[p|e] w1]; cbn [snd] in Hf; destruct Hs as (_ & Hres & Hrt); [|done].
  injection Hres as ->. set (h := {| executor := p |}) in Hrt. split; [done|]. split.
  - exists h. assert (named_providers (rt w') !! name = Some h) as Hnamed.
    { rewrite Hrt. destruct is_default; apply lookup_insert_eq. }
    destruct is_default; split_and!; try done.
    + by rewrite Hrt.
    + assert (provider_epoch (rt w') = wrap64 (wrap64 (provider_epoch (rt w) + 1) + 1)) as Hpe
        by (rewrite Hrt; cbn; by rewrite <-Hf).
      assert (current_generation_value (rt w') = g') as Hval by (by rewrite Hrt).
      unfold current_generation, generation_read. rewrite Hpe, Hval, N.eqb_refl.
      rewrite (wrap64_parity _ (ok_epoch _ Hok)). cbn [negb N.eqb].
      destruct (N.eqb_spec g' 0); [lia|done].
    + rewrite Hrt. cbn. by rewrite <-Hf.
  - intros key Hkey. destruct (fetch_by_key_cases key w') as [[-> _]|(e & _ & Hp & _)]; [done|].
    exfalso.
    assert (result_cache (rt w') = result_cache (rt w)) as Hrc.
    { rewrite Hrt. transitivity (result_cache (rt w1)); [by destruct is_default|by rewrite <-Hf]. }
    rewrite Hrc in Hp. apply (ok_cache _ Hok) in Hp. lia.
Qed.

(** C14. A failed reload changes nothing that queries can see: when the build
    of the new provider fails, its error is returned, a generation number is
    used up and a failure counted, and registry, default provider, caches and
    settings are those of before. *)
Theorem install_failure_keeps name k ds (build : Generation → M (KnowledgeResult P)) is_default w e w1 :
  (∀ g, framed (build g)) →
  build (wrap64 (next_generation (rt w) + 1))
    (set_rt (set_next_generation (wrap64 (next_generation (rt w) + 1)) (rt w)) w) = (Err e, w1) →
  let '(res, w') := install_provider_named name k ds build is_default w in
  res = Err e
  ∧ same_rt (rt w') (set_next_generation (wrap64 (next_generation (rt w) + 1)) (rt w))
  ∧ counters (rt w') reload_failures = wrap64 (counters (rt w1) reload_failures + 1).
Proof.
  intros Hb Hbuild. set (g := wrap64 _) in *. set (w0 := set_rt _ w) in *.
  pose proof (Hb g w0) as [Hf _]. rewrite Hbuild in Hf. cbn [snd] in Hf.
  unfold install_provider_named, mbind, st_bind, gets, on_rt, modify. cbv beta. fold g.
  cbn [fst snd]. fold w0. rewrite Hbuild. by split_and!.
Qed.

Lemma fetch_miss_world h key w :
  (fetch_result_cache_by_key key w).1 = None →
  same_rt (rt (miss_world h key w)) (rt (fetch_result_cache_by_key key w).2)
  ∧ now (miss_world h key w) = now w.
Proof.
  intros Hm. split; [done|]. unfold miss_world. cbn.
  destruct (fetch_by_key_cases key w) as [[-> _]|(e & _ & _ & Hc)]; [done|].
  destruct (_ <? _)%N; by rewrite Hc.
Qed.

(** C7. The result cache answers repeated queries: once a query under
    [UseGlobal] has missed and succeeded, the same query on the same handle is
    answered with the same response and without calling the provider, as long
    as nothing but counters has changed and the time-to-live has not passed. *)
Theorem repeated_query_hits h req w resp w1 w2 :
  rt_ok (rt w) → req_cache_policy req = UseGlobal → result_cache_enabled (rt w) = true →
  (fetch_result_cache h req w).1 = None →
  execute_with_handle h req w = (Ok resp, w1) →
  same_rt (rt w1) (rt w2) → (now w2 ≤ now w1 + result_cache_ttl (rt w1))%N →
  execute_with_handle h req w2 = (Ok resp, hit_world h w2)
  ∧ ext (hit_world h w2) = ext w2.
Proof.
  intros Hok Hpol Hen Hmiss Hex Hsame Hnow. split; [|done].
  unfold execute_with_handle in *. rewrite Hpol in *. rewrite cached_call_spec in Hex |- *.
  cbn [use_global] in *. rewrite Hen in Hex. cbn [andb] in Hex.
  pose proof (call_framed h req) as Hf. fold (result_cache_key h req) in *.
  set (key := result_cache_key h req) in *. unfold fetch_result_cache in Hmiss. fold key in Hmiss.
  pose proof (fetch_miss_world h key w Hmiss) as [Hmw _].
  pose proof (rt_ok_fetch key w Hok) as Hokf.
  assert (result_cache_enabled_flag (rt (fetch_result_cache_by_key key w).2) = true) as Hen1.
  { destruct (fetch_by_key_cases key w) as [[-> _]|(e & _ & _ & Hc)]; [done|].
    destruct (_ <? _)%N; by rewrite Hc. }
  destruct (fetch_result_cache_by_key key w) as [[r0|] wf]; [done|]. cbn [snd] in *.
  set (call := match req_mode req with Many => _ | FirstRow => _ end) in *.
  destruct (Hf (miss_world h key w)) as [Hc _].
  destruct (call (miss_world h key w)) as [[resp'|err] wc]; [|done]. cbn [snd] in Hc.
  injection Hex as -> <-.
  set (wd := done_world h (query_mode_tag (req_mode req)) true (now (miss_world h key w)) wc) in *.
  assert (same_rt (rt wd) (rt wf)) as Hd by (transitivity (rt (miss_world h key w)); [by symmetry|done]).
  assert (0 < lru_cap (result_cache (rt wd))) as Hcap.
  { rewrite Hd. pose proof (ok_capacity _ Hokf). lia. }
  assert (result_cache_enabled (rt w2) = true) as Hen2.
  { unfold result_cache_enabled. rewrite <-Hsame.
    change (result_cache_enabled_flag (rt wd) = true). by rewrite Hd. }
  assert (lru_peek key (result_cache (rt w2)) = Some {| response := resp; cached_at := now wd |}) as Hpk.
  { rewrite <-Hsame. by apply peek_put. }
  assert (result_cache_ttl (rt w2) = result_cache_ttl (rt (save_result_cache_by_key key resp wd).2)) as Httl
    by (unfold result_cache_ttl; by rewrite <-Hsame).
  destruct (fetch_by_key_cases key w2) as [[_ [Hno|Hno]]|(e & _ & Hpe & Hfe)]; [congruence..|].
  rewrite Hpk in Hpe. injection Hpe as <-. cbn [cached_at response] in Hfe.
  rewrite Hen2. cbn [andb].
  assert ((result_cache_ttl (rt w2) <? elapsed (now w2) (now wd))%N = false) as Hfresh.
  { apply N.ltb_ge. rewrite Httl. unfold elapsed. cbn in Hnow |- *. lia. }
  change (now wd) with (now wc) in Hfresh. rewrite Hfresh in Hfe. by rewrite Hfe.
Qed.

(** *** Where cached answers come from *)















(** C33. The registry version is sound for SQL routing: in any run of the
    runtime, two states with the same version have the same installed names,
    so the routing memo's assumption holds for queries routed in the states of
    the run, in order. *)
Theorem registry_versions (calls : list (World * str)) :
  StronglySorted (λ c1 c2, rtc step c1.1 c2.1) calls →
  versioned ((λ c, (rt c.1, c.2)) <$> calls).
Proof.
  intros Hs.
  assert (∀ c1 c2, c1 ∈ calls → c2 ∈ calls → rtc step c1.1 c2.1 ∨ rtc step c2.1 c1.1) as Hord.
  { induction Hs as [|c calls _ IH Hall]; intros c1 c2 H1' H2'; [by apply not_elem_of_nil in H1'|].
    rewrite Forall_forall in Hall.
    apply elem_of_cons in H1' as [->|H1'], H2' as [->|H2'];
      [by left|auto..]. }
  intros [r1 q1] [r2 q2] (c1 & [= -> ->] & Hc1)%list_elem_of_fmap (c2 & [= -> ->] & Hc2)%list_elem_of_fmap.
  cbn. intros Heq n. unfold provider_exists.
  assert (named_providers (rt c1.1) = named_providers (rt c2.1)) as ->; [|done].
  destruct (Hord c1 c2 Hc1 Hc2) as [Hr|Hr]; apply steps_spec in Hr as [_ (_ & He & _)]; auto.
  symmetry. by apply He.
Qed.

(** the provider's asynchronous methods return what its synchronous ones do *)
Definition async_methods_agree : Prop :=
  (∀ p sql, query_async (C := C) (E := E) p sql = query p sql)
  ∧ (∀ p sql ps, query_fields_async (C := C) (E := E) p sql ps = query_fields p sql ps)
  ∧ (∀ p sql, query_row_async (C := C) (E := E) p sql = query_row p sql)
  ∧ (∀ p sql ps, query_named_fields_async (C := C) (E := E) p sql ps = query_named_fields p sql ps).

(** The asynchronous entry points compute what the synchronous ones do
    whenever the provider's asynchronous methods agree with its synchronous
    ones (which is the trait's default), default or named provider, any mode
    and policy. *)
Theorem async_agrees :
  async_methods_agree →
  ∀ w, (∀ req, execute_async req w = execute req w)
     ∧ (∀ name req, execute_for_async name req w = execute_for name req w)
     ∧ (∀ sql ps policy, execute_first_row_fields_async sql ps policy w
                         = execute_first_row_fields sql ps policy w)
     ∧ (∀ name sql ps policy, execute_first_row_fields_for_async name sql ps policy w
                              = execute_first_row_fields_for name sql ps policy w).
Proof.
  intros (Hq & Hqf & Hr & Hnf) w.
  assert (∀ h req, execute_async_with_handle h req = execute_with_handle h req) as He.
  { intros h req. unfold execute_async_with_handle, execute_with_handle. by rewrite Hq, Hqf, Hr, Hnf. }
  assert (∀ h sql ps policy, execute_first_row_fields_async_with_handle h sql ps policy
                             = execute_first_row_fields_with_handle h sql ps policy) as Hf.
  { intros h sql ps policy. unfold execute_first_row_fields_async_with_handle,
      execute_first_row_fields_with_handle. by rewrite Hr, Hnf. }
  unfold execute_async, execute, execute_for_async, execute_for, execute_first_row_fields_async,
    execute_first_row_fields, execute_first_row_fields_for_async, execute_first_row_fields_for,
    bind_res, mbind, st_bind, gets.
  split_and!; intros; cbv beta;
    match goal with |- context [match ?r with Ok _ => _ | Err _ => _ end] => destruct r end; try done;
    rewrite ?He, ?Hf; try done; by case_decide.
Qed.

(** storing and finding a Redis value *)
Lemma redis_put_rt ck v t w :
  redis_global_enabled (rt w) = true → redis_cache_enabled (rt w) = true →
  rt (redis_cache_put_with_ttl ck v t w).2
  = set_redis_cache (lru_put ck {| entry_value := v; entry_cached_at := now w; ttl_ms := t |}
                       (redis_cache (rt w)))
      (set_counters (bump redis_cache_misses (counters (rt w))) (rt w)).
Proof.
  intros Hg Hen. unfold redis_cache_put_with_ttl, save_redis_cache, record, on_rt, modify, mbind, st_bind, gets.
  cbv beta. rewrite Hg. cbn. unfold redis_cache_enabled in *. by rewrite Hen.
Qed.

Lemma redis_get_peek ck e w :
  redis_global_enabled (rt w) = true → redis_cache_enabled (rt w) = true →
  lru_peek ck (redis_cache (rt w)) = Some e →
  let stale := (0 <? ttl_ms e)%N && (from_millis (ttl_ms e) <? elapsed (now w) (entry_cached_at e))%N in
  (redis_cache_get ck w).1 = (if stale then None else Some (entry_value e))
  ∧ ext (redis_cache_get ck w).2 = ext w.
Proof.
  intros Hg Hen Hp stale. unfold redis_cache_get, mbind, st_bind, gets, fetch_redis_cache.
  cbv beta. rewrite Hg. cbn. rewrite Hen, Hp. cbn. fold stale. by destruct stale.
Qed.

(** The Redis result cache: when it is enabled, a stored value is found
    under its own key until its time-to-live (none if zero) has passed, and
    storing it affects no entry of another key, hence none of another
    generation or command. *)
Theorem redis_put_get ck v t w later :
  reachable w → redis_global_enabled (rt w) = true → redis_cache_enabled (rt w) = true →
  let w1 := (redis_cache_put_with_ttl ck v t w).2 in
  (redis_cache_get ck (set_now (now w + later) w1)).1
    = (if (0 <? t)%N && (from_millis t <? later)%N then None else Some v)
  ∧ ∀ ck' e, ck' ≠ ck → lru_peek ck' (redis_cache (rt w1)) = Some e →
      lru_peek ck' (redis_cache (rt w)) = Some e.
Proof.
  intros Hreach%reachable_ok Hg Hen w1.
  pose proof (ok_redis _ Hreach) as [Hcap _]. pose proof (redis_put_rt ck v t w Hg Hen) as Hw1.
  fold w1 in Hw1. split.
  - set (e := {| entry_value := v; entry_cached_at := now w; ttl_ms := t |}).
    destruct (redis_get_peek ck e (set_now (now w + later) w1)) as [-> _].
    + cbn [rt set_now]. rewrite Hw1. exact Hg.
    + cbn [rt set_now]. rewrite Hw1. exact Hen.
    + cbn [rt set_now]. rewrite Hw1. by apply peek_put.
    + cbn. by replace (elapsed (now w + later) (now w)) with later by (unfold elapsed; lia).
  - intros ck' e Hne. rewrite Hw1. cbn. intros Hp. by apply peek_put_old in Hp.
Qed.
End Facts.
Arguments ProviderFrame C P E {_}.

(** ** Witnesses *)

#[global] Instance demo_frame : ProviderFrame ListLru.t N N.
Proof. split; intros; intros w; cbn; unfold answer; destruct (_ =? _)%N; by split. Qed.

Lemma demo_reachable : reachable (C := ListLru.t) (P := N) (E := N) demo_world.
Proof. by exists 5000000%N, 0%N. Qed.

Lemma demo_build_framed p : ∀ g, framed (demo_build p g).
Proof. intros g w. done. Qed.

Definition demo_query : QueryRequest := many (lit "select 1") [] UseGlobal.

(** a default provider installed, then a query on its handle answered twice *)
Definition demo_installed : DemoWorld :=
  (install_provider_named (lit "geo") Postgres (lit "id") (demo_build 7) true demo_world).2.
Definition demo_geo : ProviderHandle N :=
  {| executor := 7%N; datasource_id := lit "id"; generation := 1; kind := Postgres |}.
Definition demo_queried : DemoWorld :=
  (execute_with_handle demo_geo demo_query (execute_with_handle demo_geo demo_query demo_installed).2).2.

Lemma demo_installs : rtc step demo_world demo_installed.
Proof. apply rtc_once. by apply step_install; [apply demo_build_framed|..]. Qed.


Lemma demo_queries : rtc step demo_installed demo_queried.
Proof.
  eapply rtc_l; [by apply (step_execute demo_geo demo_query)|].
  apply rtc_once. by apply (step_execute demo_geo demo_query).
Qed.

Lemma runtime_invariant_witness :
  rt_ok (rt demo_queried) ∧ current_generation (rt demo_queried) = Some 1%N
  ∧ lru_len (result_cache (rt demo_queried)) = 1.
Proof.
  split_and!; [|vm_compute; reflexivity..]. apply (runtime_invariant demo_queried).
  exists 5000000%N, 0%N. transitivity demo_installed; [apply demo_installs|apply demo_queries].
Defined.

Lemma install_isolates_witness :
  let w' := (install_provider_named (lit "geo") Postgres (lit "id") (demo_build 7) true demo_world).2 in
  current_generation (rt w') = Some 1%N
  ∧ ∀ key, key_generation key = 1%N → fetch_result_cache_by_key key w' = (None, w').
Proof.
  intros w'.
  destruct (install_isolates (lit "geo") Postgres (lit "id") (demo_build 7) true demo_world 1 w')
    as (_ & (h & _ & _ & _ & _ & _ & Hg) & Hk);
    [apply demo_reachable|apply demo_build_framed|done|vm_compute; reflexivity|].
  by split.
Defined.

Lemma install_failure_keeps_witness :
  let '(res, w') := install_provider_named (lit "geo") Postgres (lit "id") demo_broken true demo_world in
  res = Err (know_err from_conf [F "connect failed"]).
Proof.
  pose proof (install_failure_keeps (lit "geo") Postgres (lit "id") demo_broken true demo_world
           (know_err from_conf [F "connect failed"]) _ ltac:(intros g w; done) eq_refl) as Hw.
  destruct (install_provider_named _ _ _ _ _ _) as [res w']. exact (proj1 Hw).
Defined.

Lemma repeated_query_hits_witness :
  let w1 := (execute_with_handle demo_handle demo_query demo_world).2 in
  (execute_with_handle demo_handle demo_query w1).1 = Ok (Rows [[from_int (lit "call") 1]])
  ∧ ext (execute_with_handle demo_handle demo_query w1).2 = 1%N.
Proof.
  intros w1.
  destruct (repeated_query_hits demo_handle demo_query demo_world (Rows [[from_int (lit "call") 1]]) w1 w1)
    as [-> Hext];
    [apply rt_ok_new|done|done|vm_compute; reflexivity|vm_compute; reflexivity|done|vm_compute; discriminate|].
  split; [done|]. vm_compute. reflexivity.
Defined.

(** the registry before and after the provider is installed, and once more *)
Lemma registry_versions_witness :
  let calls := [(demo_world, lit "select 1"); (demo_installed, lit "select 1");
                (demo_queried, lit "select 2")] in
  versioned ((λ c, (rt c.1, c.2)) <$> calls)
  ∧ ((λ c, registry_has (rt c.1) (lit "geo")) <$> calls) = [false; true; true].
Proof.
  intros calls. split; [|vm_compute; reflexivity]. apply (registry_versions calls).
  pose proof demo_installs as Hi. pose proof demo_queries as Hq.
  assert (rtc step demo_world demo_queried) as Hiq by (by transitivity demo_installed).
  unfold calls. repeat (apply SSorted_cons || apply Forall_cons_2 || apply SSorted_nil || apply Forall_nil_2);
    assumption.
Defined.


Lemma async_agrees_witness : execute_async demo_query demo_world = execute demo_query demo_world.
Proof.
  apply (async_agrees (C := ListLru.t) (P := N) (E := N)). split_and!; intros; reflexivity.
Defined.

Lemma redis_put_get_witness :
  let ck := {| redis_generation := 1; cmd_tag := Get; key_hash := 2; args_hash := 3 |} in
  (redis_cache_get ck (set_now (5000000 + 1000) (redis_cache_put_with_ttl ck (RBool true) 1 demo_world).2)).1
  = Some (RBool true).
Proof.
  intros ck. apply (redis_put_get ck (RBool true) 1 demo_world 1000);
    [apply demo_reachable|done|done].
Defined.
