(* ===== verification/RuntimeThreadsFacts.v ===== *)
(** * Properties of the runtime under many threads

    A thread alone does what Runtime.v and SqlRoute.v say.  Under any schedule
    the answer to a query is what the very provider answered that the query
    found at its first step, and no generation names two providers; a route is
    that of a registry which was current during the call, or of the version the
    call read. *)
From S2P Require Import Prelude Errors RustStr Model Lru SqlRoute Runtime Threads RuntimeThreads.
From S2P Require Import RuntimeFacts Demo.

(** ** A thread alone *)

(** the programs of the provider, run without interruption, are its methods *)
Class ProviderSolo (C : Type → Type → Type) (P E : Type) `{!ProviderExecutor C P E, !ProviderThreads C P E} : Prop := {
  query_solo p sql w : solo (query_p p sql) w = query p sql w;
  query_fields_solo p sql ps w : solo (query_fields_p p sql ps) w = query_fields p sql ps w;
  query_row_solo p sql w : solo (query_row_p p sql) w = query_row p sql w;
  query_named_fields_solo p sql ps w : solo (query_named_fields_p p sql ps) w = query_named_fields p sql ps w;
  query_async_solo p sql w : solo (query_async_p p sql) w = query_async p sql w;
  query_fields_async_solo p sql ps w : solo (query_fields_async_p p sql ps) w = query_fields_async p sql ps w;
  query_row_async_solo p sql w : solo (query_row_async_p p sql) w = query_row_async p sql w;
  query_named_fields_async_solo p sql ps w :
    solo (query_named_fields_async_p p sql ps) w = query_named_fields_async p sql ps w;
}.

Section Solo.
Context {C : Type → Type → Type} {P E : Type} `{LruOps C} `{Hasher} `{!ProviderExecutor C P E}
  `{!ProviderThreads C P E} `{!ProviderSolo C P E}.
Abbreviation World := (World C P E).
Abbreviation Shared := (Shared (C := C) (P := P) (E := E)).
Implicit Types (s : Shared) (w : World).

(** run alone, [p] gives the result and the world of [m] and leaves the memo *)
Definition refines {A} (p : Prog Shared A) (m : St World A) : Prop :=
  ∀ s, ∃ r, solo p s = let '(a, w) := m (sw s) in (a, {| sw := w; memo := memo s; seen := r |}).

Lemma refines_ext {A} (p : Prog Shared A) (m m' : St World A) :
  refines p m → (∀ w, m w = m' w) → refines p m'.
Proof. intros Hp Hm s. destruct (Hp s) as [r Hr]. exists r. by rewrite Hr, Hm. Qed.

Lemma refines_ret {A} (a : A) : refines (Ret a) (mret a).
Proof. intros []. by eexists. Qed.

Lemma refines_bind {A B} (p : Prog Shared A) m (f : A → Prog Shared B) g :
  refines p m → (∀ a, refines (f a) (g a)) → refines (p ≫= f) (m ≫= g).
Proof.
  intros Hp Hf s. destruct (Hp s) as [r Hr]. rewrite solo_bind, Hr. unfold mbind, st_bind.
  destruct (m (sw s)) as [a w]. by destruct (Hf a {| sw := w; memo := memo s; seen := r |}) as [r' ->]; exists r'.
Qed.

Lemma refines_fmap {A B} (f : A → B) (p : Prog Shared A) m :
  refines p m → refines (fmap (M := Prog Shared) f p) (fmap (M := St World) f m).
Proof.
  intros Hp. eapply refines_ext; [apply refines_bind; [exact Hp|intros a; apply refines_ret]|]. done.
Qed.

Lemma refines_noting {A} (m : St World A) note : refines (noting m note) m.
Proof. intros s. unfold noting, act. cbn. destruct (m (sw s)) as [a w]. by eexists. Qed.

Lemma refines_load {A} (f : World → A) : refines (load f) (gets f).
Proof. intros []. by eexists. Qed.

Lemma refines_work {A} (p : Prog World A) m : (∀ w, solo p w = m w) → refines (work p) m.
Proof.
  intros Hp s. exists (seen s). unfold work. rewrite solo_on_part, Hp; [by destruct (m (sw s))|done..|]. by intros [].
Qed.

Lemma refines_when b (p : Prog Shared unit) m : refines p m → refines (pwhen b p) (when b m).
Proof. intros Hp. destruct b; [done|apply refines_ret]. Qed.

Lemma refines_try {A B} (p : Prog Shared (KnowledgeResult A)) m (k : A → Prog Shared (KnowledgeResult B)) k' :
  refines p m → (∀ a, refines (k a) (k' a)) → refines (try_p p k) (bind_res m k').
Proof. intros Hp Hk. apply refines_bind; [done|]. intros [a|e]; [apply Hk|apply refines_ret]. Qed.

Lemma refines_fetch key : refines (fetch_result_cache_by_key_p key) (fetch_result_cache_by_key key).
Proof.
  unfold fetch_result_cache_by_key_p. eapply refines_ext.
  - eapply refines_bind; [apply refines_load|]. intros en.
    instantiate (1 := λ en, if negb en then mret None else
      cached ← gets (λ w, lru_peek key (result_cache (rt w)));
      match cached with
      | None => mret None
      | Some cached =>
          now ← gets now; ttl ← gets (λ w, result_cache_ttl (rt w));
          if (ttl <? elapsed now (cached_at cached))%N
          then on_rt (λ r, set_result_cache (lru_pop key (result_cache r)) r);; mret None
          else mret (Some (response cached))
      end). cbv beta.
    destruct (negb en); [apply refines_ret|]. apply refines_bind; [apply refines_load|]. intros [c|]; [|apply refines_ret].
    apply refines_bind; [apply refines_load|]. intros t. apply refines_bind; [apply refines_load|]. intros d.
    destruct (_ <? _)%N; [|apply refines_ret]. apply refines_bind; [apply refines_noting|]. intros _. apply refines_ret.
  - intros w. unfold fetch_result_cache_by_key, mbind, st_bind, gets. destruct (negb _); [done|].
    destruct (lru_peek key _) as [c|]; [|done]. by destruct (_ <? _)%N.
Qed.

Lemma refines_skip {A B} (f : World → B) (p : Prog Shared A) (g : B → St World A) :
  (∀ b, refines p (g b)) → refines p (gets f ≫= g).
Proof. intros Hp s. destruct (Hp (f (sw s)) s) as [r Hr]. by exists r. Qed.

Create HintDb threads.
Hint Resolve refines_ret refines_noting refines_load refines_when refines_fetch : threads.
Ltac refine_step :=
  match goal with
  | |- refines (_ ≫= _) _ => apply refines_bind; [|intros ?]
  | |- refines (match ?x with _ => _ end) (match ?x with _ => _ end) => destruct x
  | |- refines (pwhen _ _) (when _ _) => apply refines_when
  | |- refines (try_p _ _) (bind_res _ _) => apply refines_try; [|intros ?]
  | |- _ => solve [eauto with threads]
  end.

Lemma refines_cached_call h policy key tag call m :
  (∀ w, solo call w = m w) →
  refines (cached_call_p h policy key tag call) (cached_call h policy key tag m).
Proof.
  intros Hc. pose proof (refines_work call m Hc) as Hw. unfold cached_call_p, serve_hit_p, ask_provider_p, cached_call.
  destruct (use_global policy); cbn [andb].
  - repeat refine_step.
  - apply refines_skip. intros _.
    match goal with |- refines (Ret ?a ≫= ?f) _ => change (Ret a ≫= f) with (f a) end.
    cbv beta iota. repeat refine_step.
Qed.

Lemma refines_with_handle async h req :
  refines (execute_with_handle_p async h req)
          (if async then execute_async_with_handle h req else execute_with_handle h req).
Proof.
  unfold execute_with_handle_p, execute_async_with_handle, execute_with_handle, call_p.
  destruct async; apply refines_cached_call; intros w; destruct (req_mode req); destruct (bool_decide _);
    unfold fmap at 1, prog_fmap; rewrite solo_bind, ?query_solo, ?query_fields_solo, ?query_row_solo,
      ?query_named_fields_solo, ?query_async_solo, ?query_fields_async_solo, ?query_row_async_solo,
      ?query_named_fields_async_solo; done.
Qed.

Lemma refines_row_with_handle async h sql params policy :
  refines (execute_first_row_fields_with_handle_p async h sql params policy)
          (if async then execute_first_row_fields_async_with_handle h sql params policy
           else execute_first_row_fields_with_handle h sql params policy).
Proof.
  unfold execute_first_row_fields_with_handle_p, row_call_p.
  destruct async; apply refines_fmap, refines_cached_call; intros w; destruct (bool_decide _);
    unfold fmap at 1, prog_fmap; rewrite solo_bind, ?query_row_solo,
      ?query_named_fields_solo, ?query_row_async_solo, ?query_named_fields_async_solo; done.
Qed.

Lemma refines_execute_row async sql params policy :
  refines (execute_first_row_fields_p async sql params policy)
    (if async then execute_first_row_fields_async sql params policy else execute_first_row_fields sql params policy).
Proof.
  destruct async; (apply refines_try; [apply refines_load|]); intros h; cbn [andb];
    [|apply (refines_row_with_handle false)]. destruct (decide (kind h = SqliteAuthority)) as [Hk|Hk].
  - rewrite bool_decide_true by done. apply (refines_row_with_handle false).
  - rewrite bool_decide_false by done. apply (refines_row_with_handle true).
Qed.

Lemma refines_execute_row_for async name sql params policy :
  refines (execute_first_row_fields_for_p async name sql params policy)
    (if async then execute_first_row_fields_for_async name sql params policy
     else execute_first_row_fields_for name sql params policy).
Proof.
  destruct async; (apply refines_try; [apply refines_load|]); intros h;
    [apply (refines_row_with_handle true)|apply (refines_row_with_handle false)].
Qed.

Lemma refines_fetch_add {B} (f : N → Prog Shared B) (g : N → St World B) note :
  (∀ old, refines (f (wrap64 (old + 1))) (g old)) →
  refines (noting (λ w, let g := wrap64 (next_generation (rt w) + 1) in
                        (g, set_rt (set_next_generation g (rt w)) w)) note ≫= f)
          (old ← gets (λ w, next_generation (rt w)); on_rt (set_next_generation (wrap64 (old + 1)));; g old).
Proof.
  intros Hf s. set (n := next_generation (rt (sw s))). set (g' := wrap64 (n + 1)).
  destruct (Hf n {| sw := set_rt (set_next_generation g' (rt (sw s))) (sw s); memo := memo s;
                    seen := note g' (set_rt (set_next_generation g' (rt (sw s))) (sw s)) (seen s) |}) as [r Hr].
  exists r. rewrite solo_bind. exact Hr.
Qed.

Lemma refines_install i name k ds build is_default :
  refines (install_provider_named_p i name k ds build is_default)
          (install_provider_named name k ds (λ g, solo (build g)) is_default).
Proof.
  apply refines_fetch_add. intros old. apply refines_bind; [by apply refines_work|].
  intros [p|err]; cbv zeta; unfold noting_version; repeat refine_step.
Qed.

Lemma refines_configure en cap d :
  refines (configure_result_cache_p en cap d) (configure_result_cache en cap d).
Proof.
  intros s. exists (seen s). unfold configure_result_cache_p, configure_result_cache, at_once, noting, on_rt, modify.
  cbv zeta. rewrite !solo_act. cbn [sw rt set_rt result_cache_config].
  destruct (negb _ || _); reflexivity.
Qed.

Lemma refines_generation : refines current_generation_p (gets (λ w, current_generation (rt w))).
Proof.
  intros s. exists (seen s). unfold current_generation_p, load, current_generation, generation_read.
  rewrite solo_act. cbn [gets]. destruct (_ =? 1)%N; [by destruct s|].
  do 2 (rewrite solo_act; cbn [gets]). destruct (negb _); by destruct s.
Qed.


(** ** The sequential reading of a call *)

Definition run_seq {A} (f : A → Outcome) (m : St World A) (w : World) (mm : RouteMemo) : Outcome * World * RouteMemo :=
  let '(a, w) := m w in (f a, w, mm).
Definition seq_op (o : Op) : World → RouteMemo → Outcome * World * RouteMemo :=
  match o with
  | Execute async req => run_seq Answer (if async then execute_async req else execute req)
  | ExecuteFor async name req => run_seq Answer (if async then execute_for_async name req else execute_for name req)
  | FirstRowOf async sql params policy =>
      run_seq AnswerRow (if async then execute_first_row_fields_async sql params policy
                         else execute_first_row_fields sql params policy)
  | FirstRowFor async name sql params policy =>
      run_seq AnswerRow (if async then execute_first_row_fields_for_async name sql params policy
                         else execute_first_row_fields_for name sql params policy)
  | InstallNamed name k ds build is_default =>
      run_seq Installed (install_provider_named name k ds (λ g, solo (build g)) is_default)
  | Prune keep => run_seq (λ _, Finished) (prune_named_providers_except keep)
  | Configure en cap d => run_seq (λ _, Finished) (configure_result_cache en cap d)
  | CurrentGeneration => run_seq Generated (gets (λ w, current_generation (rt w)))
  | RouteSql sql => λ w mm, let '(r, mm) := route_provider_sql finish (rt w) mm sql in (Routed r, w, mm)
  end.

Lemma refines_op {A} i o (f : A → Outcome) (p : Prog Shared A) m :
  refines p m → op_prog i o = fmap (M := Prog Shared) f p → seq_op o = run_seq f m →
  ∀ s, ∃ r, solo (op_prog i o) s
            = let '(out, w, mm) := seq_op o (sw s) (memo s) in (out, {| sw := w; memo := mm; seen := r |}).
Proof.
  intros Hp Ho Hs s. destruct (Hp s) as [r Hr]. exists r. rewrite Ho, Hs. unfold fmap, prog_fmap, run_seq.
  rewrite solo_bind, Hr. by destruct (m (sw s)).
Qed.

Lemma solo_route sql s :
  ∃ r, solo (route_provider_sql_p sql) s
  = let '(r', mm) := route_provider_sql finish (rt (sw s)) (memo s) sql in
    (r', {| sw := sw s; memo := mm; seen := r |}).
Proof.
  exists (seen s). unfold route_provider_sql_p, route_provider_sql, load. rewrite solo_act. cbn [gets].
  rewrite solo_act. cbn [gets]. change (registry_epoch (rt (sw s))) with (named_provider_epoch (rt (sw s))).
  fold (memo_hit (named_provider_epoch (rt (sw s))) (sql_route_key finish sql) (memo s)).
  destruct (memo_hit _ _ _) as [routed|]; [by destruct s|].
  rewrite solo_bind. unfold compute_route_p, compute_route, load.
  destruct (first_table_name sql) as [table|]; [|done]. destruct (head _) as [name|]; [|done].
  destruct (bool_decide (name = [])); [done|]. cbn [orb]. rewrite solo_act. cbn [gets registry_has runtime_registry].
  by destruct (negb _).
Qed.

(** The programs of actions and the sequential model are two readings of the
    same lines; they agree on a thread alone: each call, run without
    interruption, gives the outcome, the world and the routing memo of the
    sequential model. *)
Theorem alone_is_sequential (i : nat) (o : Op) s :
  ∃ r, solo (op_prog i o) s
       = let '(out, w, mm) := seq_op o (sw s) (memo s) in (out, {| sw := w; memo := mm; seen := r |}).
Proof.
  destruct o as [async req|async name req|async sql ps pol|async name sql ps pol|name k ds b dflt|keep|en cap d| |sql];
    [eapply refines_op; [|done..]..|].
  - destruct async.
    + apply refines_try; [apply refines_load|]. intros h. cbn [andb].
      destruct (decide (kind h = SqliteAuthority)) as [Hk|Hk].
      * rewrite bool_decide_true by done. apply (refines_with_handle false).
      * rewrite bool_decide_false by done. apply (refines_with_handle true).
    + apply refines_try; [apply refines_load|]. intros h. apply (refines_with_handle false).
  - destruct async; (apply refines_try; [apply refines_load|]); intros h.
    + apply (refines_with_handle true).
    + apply (refines_with_handle false).
  - apply refines_execute_row.
  - apply refines_execute_row_for.
  - apply refines_install.
  - apply refines_noting.
  - apply refines_configure.
  - apply refines_generation.
  - destruct (solo_route sql s) as [r Hr]. exists r. unfold op_prog, fmap, prog_fmap. rewrite solo_bind, Hr.
    cbn [seq_op]. by destruct (route_provider_sql _ _ _ _).
Qed.
End Solo.

(** ** What the threads keep *)

(** the actions of the providers' programs query their database, count
    column-name cache hits and let time pass *)
Class WorkFrame (C : Type → Type → Type) (P E : Type) `{!ProviderThreads C P E} : Prop := {
  query_work p sql : every (λ _ m, framed m) (query_p p sql);
  query_fields_work p sql ps : every (λ _ m, framed m) (query_fields_p p sql ps);
  query_row_work p sql : every (λ _ m, framed m) (query_row_p p sql);
  query_named_fields_work p sql ps : every (λ _ m, framed m) (query_named_fields_p p sql ps);
  query_async_work p sql : every (λ _ m, framed m) (query_async_p p sql);
  query_fields_async_work p sql ps : every (λ _ m, framed m) (query_fields_async_p p sql ps);
  query_row_async_work p sql : every (λ _ m, framed m) (query_row_async_p p sql);
  query_named_fields_async_work p sql ps : every (λ _ m, framed m) (query_named_fields_async_p p sql ps);
}.

Lemma every_bind {W A B} (Q : ∀ B, St W B → Prop) (p : Prog W A) (f : A → Prog W B) :
  every Q p → (∀ a, every Q (f a)) → every Q (p ≫= f).
Proof.
  induction p as [a|X m k IH]; intros Hp Hf; [apply Hf|]. destruct Hp as [Hm Hk].
  split; [exact Hm|]. intros b. by apply IH.
Qed.
Lemma every_fmap {W A B} (Q : ∀ B, St W B → Prop) (g : A → B) (p : Prog W A) :
  every Q p → every Q (fmap (M := Prog W) g p).
Proof. intros Hp. by apply every_bind. Qed.

Lemma every_pwhen {W} (Q : ∀ B, St W B → Prop) b (p : Prog W unit) : every Q p → every Q (pwhen b p).
Proof. by destruct b. Qed.

Section Keep.
Context {C : Type → Type → Type} {P E : Type} `{LruLaws C} `{Hasher} `{!ProviderThreads C P E}
  {wframe : WorkFrame C P E}.
Abbreviation World := (World C P E).
Abbreviation Shared := (Shared (C := C) (P := P) (E := E)).
Abbreviation Ev := (Ev (E := E)).
Implicit Types (s : Shared) (w : World) (h : ProviderHandle P).

(** every published handle is on record under its generation, which was handed
    to one thread, the named ones with their name and the default as such; what
    the cache holds was answered by the handle of the key *)
Definition is_made_as (ok : str → bool → Prop) (g : Generation) s : Prop :=
  ∃ n d, made_as (seen s) !! g = Some (n, d) ∧ ok n d.
Abbreviation as_default := (is_made_as (λ _ d, d = true)).
Abbreviation as_name n := (is_made_as (λ n' _, n' = n)).

Record threads_inv s : Prop := {
  t_next : next_generation (rt (sw s)) = allocated (seen s);
  t_owner g i : owner (seen s) !! g = Some i → (1 ≤ g ≤ allocated (seen s))%N;
  t_made g h : made (seen s) !! g = Some h → generation h = g ∧ is_Some (owner (seen s) !! g);
  t_slot h : provider (rt (sw s)) = Some h → made (seen s) !! generation h = Some h ∧ as_default (generation h) s;
  t_named n h : named_providers (rt (sw s)) !! n = Some h →
    made (seen s) !! generation h = Some h ∧ as_name n (generation h) s;
  t_as : dom (made_as (seen s)) = dom (made (seen s));
  t_value : current_generation_value (rt (sw s)) = 0%N
            ∨ as_default (current_generation_value (rt (sw s))) s;
  t_cap : 0 < lru_cap (result_cache (rt (sw s)));
  t_cache k e : lru_peek k (result_cache (rt (sw s))) = Some e →
    ∃ h, (h, k, Ok (response e)) ∈ answers (seen s);
  t_answers h k r : (h, k, r) ∈ answers (seen s) →
    made (seen s) !! generation h = Some h ∧ key_generation k = generation h;
}.

(** generations have not wrapped around *)
Definition in_range s : Prop := (allocated (seen s) ≤ u64_max)%N.

Record grows s s' : Prop := {
  g_answers x : x ∈ answers (seen s) → x ∈ answers (seen s');
  g_made : made (seen s) ⊆ made (seen s');
  g_owner : owner (seen s) ⊆ owner (seen s');
  g_as : made_as (seen s) ⊆ made_as (seen s');
}.
(** thread [i] publishes under its own generations only *)
Definition threads_guar (i : nat) s s' : Prop :=
  grows s s' ∧ ∀ g h, made (seen s') !! g = Some h → made (seen s) !! g = None → owner (seen s') !! g = Some i.
Definition threads_rely (i : nat) s s' : Prop :=
  grows s s' ∧ ∀ g, owner (seen s) !! g = Some i → made (seen s') !! g = made (seen s) !! g.

#[export] Instance grows_pre : PreOrder grows.
Proof.
  split; [by intros s|]. intros s1 s2 s3 [A1 M1 O1 N1] [A2 M2 O2 N2]. split; [auto|by etrans..].
Qed.
#[export] Instance threads_rely_pre i : PreOrder (threads_rely i).
Proof.
  split; [by intros s|]. intros s1 s2 s3 [G1 H1'] [G2 H2']. split; [by etrans|]. intros g Hg.
  rewrite H2', H1'; [done..|]. by eapply lookup_weaken, g_owner.
Qed.

Lemma seen_same i s s' : seen s' = seen s → threads_rely i s s' ∧ threads_guar i s s'.
Proof.
  intros Hs. unfold threads_rely, threads_guar. assert (grows s s') by (split; by rewrite Hs).
  rewrite Hs. split_and!; [done..|]. intros g h -> [=].
Qed.

Lemma threads_guar_rely i j s s' : i ≠ j → threads_guar j s s' → threads_rely i s s'.
Proof.
  intros Hne [Hg Hnew]. split; [done|]. intros g Ho.
  destruct (made (seen s) !! g) as [h|] eqn:Hm; [by eapply lookup_weaken, g_made|].
  destruct (made (seen s') !! g) as [h'|] eqn:Hm'; [|done].
  pose proof (Hnew g h' Hm' Hm) as Hj. pose proof (lookup_weaken _ _ _ _ Ho (g_owner _ _ Hg)). congruence.
Qed.

Lemma is_made_as_grows ok g s s' : grows s s' → is_made_as ok g s → is_made_as ok g s'.
Proof. intros Hg (n & d & Hm & Hok). exists n, d. split; [|done]. eapply lookup_weaken; [done|]. by apply g_as. Qed.

(** what changes nothing of the runtime but its counters *)
Lemma threads_inv_same s s' :
  threads_inv s → seen s' = seen s → same_rt (rt (sw s)) (rt (sw s')) → threads_inv s'.
Proof.
  intros [] Hs Hr.
  pose proof (next_proper _ _ Hr) as Hn. pose proof (provider_proper _ _ Hr) as Hp.
  pose proof (named_proper _ _ Hr) as Hnp. pose proof (value_proper _ _ Hr) as Hv.
  pose proof (cache_proper _ _ Hr) as Hc.
  split; unfold is_made_as in *; rewrite ?Hs, <-?Hn, <-?Hp, <-?Hnp, <-?Hv, <-?Hc; assumption.
Qed.

#[local] Program Instance threads_discipline : Discipline Shared Ev := {
  env := happen;
  inv := threads_inv;
  valid := in_range;
  guar := threads_guar;
  rely := threads_rely;
}.
Next Obligation. intros. by eapply threads_guar_rely. Qed.
Next Obligation.
  intros e s Hi Hv. assert (seen (happen e s) = seen s) as Hs by by destruct e.
  split; [|intros i; by apply seen_same]. eapply threads_inv_same; [done..|]. by destruct e.
Qed.

(** ** Rules for the actions *)

Implicit Types (i : nat).

Lemma safe_load {A B} i (f : World → A) (k : A → Prog Shared B) s Q :
  (∀ s1, threads_rely i s s1 → threads_inv s1 → safe i (k (f (sw s1))) s1 Q) → safe i (load f ≫= k) s Q.
Proof. intros Hk s1 Hr Hi Hv. split_and!; [done|by apply (seen_same i)|]. by apply Hk. Qed.

(** an action that is not put on record *)
Lemma safe_at_once {A B} i (m : St World A) (k : A → Prog Shared B) s Q :
  (∀ s1, threads_rely i s s1 → threads_inv s1 → threads_inv (set_sw (m (sw s1)).2 s1)) →
  (∀ a s1, threads_rely i s s1 → threads_inv s1 → safe i (k a) s1 Q) →
  safe i (at_once m ≫= k) s Q.
Proof.
  intros Hm Hk s1 Hr Hi Hv. specialize (Hm s1 Hr Hi). destruct (m (sw s1)) as [a w].
  assert (seen (set_sw w s1) = seen s1) as Hs by done.
  split_and!; [done|by apply (seen_same i)|]. apply Hk; [|done]. etrans; [done|]. by apply (seen_same i).
Qed.

Lemma safe_framed {A B} i (m : St World A) (k : A → Prog Shared B) s Q :
  framed m → (∀ a s1, threads_rely i s s1 → threads_inv s1 → safe i (k a) s1 Q) →
  safe i (at_once m ≫= k) s Q.
Proof.
  intros Hm. apply safe_at_once. intros s1 _ Hi. eapply threads_inv_same; [done..|]. apply Hm.
Qed.

Lemma safe_work {A B} i (p : Prog World A) (k : A → Prog Shared B) s Q :
  every (λ _ m, framed m) p → (∀ a s1, threads_rely i s s1 → threads_inv s1 → safe i (k a) s1 Q) →
  safe i (work p ≫= k) s Q.
Proof.
  intros Hp Hk. apply safe_bind. revert s Hp Hk. induction p as [a|X m l IH]; intros s Hp Hk; cbn.
  - intros s1 Hr Hi. by apply Hk.
  - intros s1 Hr Hi Hv. destruct Hp as [Hm Hl]. specialize (Hm (sw s1)).
    destruct (m (sw s1)) as [b w]. destruct Hm as [Hm _].
    assert (seen (set_sw w s1) = seen s1) as Hs by done.
    split_and!; [by eapply threads_inv_same|by apply (seen_same i)|]. apply IH; [apply Hl|].
    intros a s2 Hr2 Hi2. apply Hk; [|done]. etrans; [done|]. etrans; [by apply (seen_same i)|done].
Qed.

Lemma safe_pwhen {B} i b (p : Prog Shared unit) (k : unit → Prog Shared B) s Q :
  safe i (k tt) s Q → (b = true → safe i (p ≫= k) s Q) → safe i (pwhen b p ≫= k) s Q.
Proof. destruct b; [|done]. intros _ Hp. by apply Hp. Qed.

Lemma framed_record k : framed (C := C) (P := P) (E := E) (record k).
Proof. intros w. split; [apply same_rt_counters|done]. Qed.
Lemma framed_report e : framed (C := C) (P := P) (E := E) (report e).
Proof. intros w. split; [done|]. cbn. lia. Qed.

(** ** Queries *)

Definition known h key s : Prop :=
  made (seen s) !! generation h = Some h ∧ key_generation key = generation h.

Lemma known_rely i h key s s' : threads_rely i s s' → known h key s → known h key s'.
Proof. intros [Hg _] [Hm Hk]. split; [|done]. eapply lookup_weaken; [done|]. by apply g_made. Qed.

Lemma safe_fetch {B} i h key (k : option QueryResponse → Prog Shared B) s Q :
  known h key s →
  (∀ hit s1, threads_rely i s s1 → threads_inv s1 →
     (∀ resp, hit = Some resp → (h, key, Ok resp) ∈ answers (seen s1)) → safe i (k hit) s1 Q) →
  safe i (fetch_result_cache_by_key_p key ≫= k) s Q.
Proof.
  intros Hh Hk. unfold fetch_result_cache_by_key_p. apply safe_load. intros s1 Hr1 Hi1.
  destruct (negb _); [by apply (Hk None)|]. apply safe_load. intros s2 Hr2 Hi2.
  destruct (lru_peek key _) as [cached|] eqn:Hp; [|apply (Hk None); [by etrans|done..]].
  destruct (t_cache _ Hi2 _ _ Hp) as [h' Ha].
  assert (h' = h) as ->.
  { destruct (t_answers _ Hi2 _ _ _ Ha) as [Hm Hg].
    destruct (known_rely i h key s s2) as [Hm' Hg']; [by etrans|done|]. congruence. }
  apply safe_load. intros s3 Hr3 Hi3. apply safe_load. intros s4 Hr4 Hi4.
  assert (threads_rely i s s4) as Hr by (repeat (etrans; [done|]); done).
  assert ((h, key, Ok (response cached)) ∈ answers (seen s4)) as Ha4.
  { apply (g_answers s3); [apply Hr4|]. apply (g_answers s2); [apply Hr3|done]. }
  destruct (_ <? _)%N; [|apply (Hk (Some _)); [done..|congruence]].
  apply safe_at_once.
  - intros s5 _ [In Io Im Is Inm Ias Iv Icap Ic Ia]. split; cbn; try done.
    + by rewrite cap_pop.
    + intros k' e. rewrite peek_pop. destruct (decide (key = k')); [done|]. apply Ic.
  - intros [] s5 Hr5 Hi5. apply (Hk None); [by etrans|done..].
Qed.

Definition answered h key (r : KnowledgeResult QueryResponse) s : Prop := (h, key, r) ∈ answers (seen s).

Lemma answered_rely i h key r s s' : threads_rely i s s' → answered h key r s → answered h key r s'.
Proof. intros [Hg _]. apply Hg. Qed.

(** the call's answer goes on record when it has come *)
Lemma safe_note_answer {B} i h key r (k : N → Prog Shared B) s Q :
  known h key s →
  (∀ t s1, threads_rely i s s1 → threads_inv s1 → answered h key r s1 → safe i (k t) s1 Q) →
  safe i (noting (gets now) (λ _ _, note_answer (h, key, r)) ≫= k) s Q.
Proof.
  intros Hh Hk s1 Hr Hi Hv. destruct (known_rely i h key s s1 Hr Hh) as [Hm Hg].
  set (s2 := {| sw := sw s1; memo := memo s1; seen := note_answer (h, key, r) (seen s1) |}).
  assert (threads_inv s2) as Hi2.
  { destruct Hi as [In Io Im Is Inm Ias Iv Icap Ic Ia]. split; cbn; try done.
    - intros k' e He. destruct (Ic k' e He) as [h' Ha]. exists h'. by right.
    - intros h' k' r'. intros [[= -> -> ->]|Hin]%elem_of_cons; [done|]. by eapply Ia. }
  assert (grows s1 s2) as Hgr by (split; [by right|done..]).
  split_and!; [done|split; [done|]; intros g h' Hs Hn; cbn in Hs; congruence|].
  apply (Hk (now (sw s1)) s2); [|done|by left]. etrans; [done|]. by split.
Qed.

Lemma safe_save {B} i h key resp (k : unit → Prog Shared B) s Q :
  answered h key (Ok resp) s →
  (∀ s1, threads_rely i s s1 → threads_inv s1 → safe i (k tt) s1 Q) →
  safe i (at_once (save_result_cache_by_key key resp) ≫= k) s Q.
Proof.
  intros Ha Hk. apply safe_at_once; [|by intros []]. intros s1 Hr [In Io Im Is Inm Ias Iv Icap Ic Ia].
  split; cbn; try done; [by rewrite cap_put|]. intros k' e He. destruct (decide (key = k')) as [<-|Hne].
  - rewrite peek_put in He by done. injection He as <-. exists h. by apply (answered_rely i h key _ s s1).
  - apply peek_put_old in He; [|done]. by apply Ic.
Qed.

Lemma safe_ask h i use key tag call s :
  every (λ _ m, framed m) call → known h key s →
  safe i (ask_provider_p h use key tag call) s (λ r s', answered h key r s').
Proof.
  intros Hcall Hh. unfold ask_provider_p.
  assert (∀ s1, threads_rely i s s1 → safe i (
    started ← load now;
    resp ← work call;
    finished ← noting (gets now) (λ _ _, note_answer (h, key, resp));
    match resp with
    | Err err =>
        at_once (report (QueryTelemetryEvent (kind h) tag false (elapsed finished started)));;
        Ret (Err err)
    | Ok resp =>
        at_once (report (QueryTelemetryEvent (kind h) tag true (elapsed finished started)));;
        pwhen use (at_once (save_result_cache_by_key key resp));;
        Ret (Ok resp)
    end) s1 (λ r s', answered h key r s')) as Hcall'.
  { intros s1 Hr1. apply safe_load. intros s2 Hr2 _. apply safe_work; [done|]. intros resp s3 Hr3 _.
    apply (safe_note_answer i h key).
    { eapply known_rely; [|done]. etrans; [done|]. by etrans. }
    intros t s4 _ _ Ha.
    destruct resp as [resp|err]; (apply safe_framed; [apply framed_report|]); intros [] s5 Hr5 _;
      pose proof (answered_rely _ _ _ _ _ _ Hr5 Ha) as Ha5.
    - apply safe_pwhen; [|intros _; apply (safe_save i h); [done|]; intros s6 Hr6 _];
        apply safe_ret; intros s7 Hr7 _; by repeat (eapply answered_rely; [done|]).
    - apply safe_ret. intros s6 Hr6 _. by eapply answered_rely. }
  apply safe_pwhen; [by apply Hcall'|]. intros _.
  apply safe_framed; [apply framed_record|]. intros [] s1 Hr1 _.
  apply (safe_framed i _ (λ _, _)); [apply framed_report|]. intros [] s2 Hr2 _. apply Hcall'. by etrans.
Qed.

(** whatever answers the call, this handle answered it *)
Lemma safe_cached_call i h policy key tag call s :
  every (λ _ m, framed m) call → known h key s →
  safe i (cached_call_p h policy key tag call) s (λ r s', answered h key r s').
Proof.
  intros Hcall Hh. unfold cached_call_p.
  assert (∀ use s1, threads_rely i s s1 → safe i (
    hit ← (if use : bool then fetch_result_cache_by_key_p key else Ret None);
    match hit with
    | Some hit => serve_hit_p h hit
    | None => ask_provider_p h use key tag call
    end) s1 (λ r s', answered h key r s')) as Hbody.
  { intros use s1 Hr1. assert (known h key s1) as Hh1 by by eapply known_rely.
    destruct use; [|by apply (safe_ask h i false)]. apply (safe_fetch i h key); [done|].
    intros [hit|] s2 Hr2 _ Ha.
    - apply safe_framed; [apply framed_record|]. intros [] s3 Hr3 _.
      apply safe_framed; [apply framed_report|]. intros [] s4 Hr4 _. apply safe_ret. intros s5 Hr5 _.
      eapply answered_rely; [|by apply Ha]. etrans; [done|]. by etrans.
    - apply safe_ask; [done|]. by eapply known_rely. }
  destruct (use_global policy); [|by apply (Hbody false)].
  apply safe_load. intros s1 Hr1 _. by apply Hbody.
Qed.

Lemma call_work async h req : every (λ _ m, framed m) (call_p async h req).
Proof.
  unfold call_p. destruct (req_mode req), (bool_decide _), async; apply every_fmap; apply wframe.
Qed.
Lemma row_call_work async h sql ps : every (λ _ m, framed m) (row_call_p async h sql ps).
Proof. unfold row_call_p. destruct (bool_decide _), async; apply every_fmap; apply wframe. Qed.

(** ** Installs *)

Lemma safe_allocate {B} i (k : Generation → Prog Shared B) s Q :
  (∀ g s1, threads_rely i s s1 → threads_inv s1 →
     owner (seen s1) !! g = Some i → made (seen s1) !! g = None → safe i (k g) s1 Q) →
  safe i (noting (λ w, let g := wrap64 (next_generation (rt w) + 1) in
                       (g, set_rt (set_next_generation g (rt w)) w)) (λ _ _, note_allocated i) ≫= k) s Q.
Proof.
  intros Hk s1 Hr Hi Hv. cbn in Hv |- *. set (g := wrap64 (next_generation (rt (sw s1)) + 1)).
  match goal with |- threads_inv ?x ∧ _ => set (s2 := x) in * end.
  unfold in_range in Hv. cbn in Hv.
  assert (g = (allocated (seen s1) + 1)%N) as Hg.
  { unfold g, wrap64, u64_max in *. rewrite (t_next _ Hi). apply N.mod_small. lia. }
  destruct Hi as [In Io Im Is Inm Ias Iv Icap Ic Ia].
  assert (owner (seen s1) !! (allocated (seen s1) + 1)%N = None) as Hnone.
  { destruct (owner _ !! _) as [j|] eqn:Hj; [|done]. apply Io in Hj. lia. }
  assert (grows s1 s2) as Hgr by (split; [done|done|cbn; by apply insert_subseteq|done]).
  assert (made (seen s1) !! g = None) as Hfree.
  { destruct (made _ !! g) as [h|] eqn:Hm; [|done]. apply Im in Hm as [_ Ho]. rewrite Hg, Hnone in Ho.
    by destruct Ho. }
  assert (threads_inv s2) as Hi2.
  { split; cbn; try done.
    - intros g' j. rewrite lookup_insert_Some. intros [[<- _]|[_ Hj]]; [lia|]. apply Io in Hj. lia.
    - intros g' h Hm. destruct (Im g' h Hm) as [Hgh [j Ho]]. split; [done|].
      destruct (decide (allocated (seen s1) + 1 = g')%N) as [<-|Hne].
      + by rewrite lookup_insert_eq.
      + rewrite lookup_insert_ne by done. by exists j. }
  split_and!; [done|split; [done|]; cbn; congruence|].
  apply Hk; [|done| |done].
  - etrans; [done|]. by split.
  - cbn. rewrite Hg. apply lookup_insert_eq.
Qed.

(** thread [i] may still publish under [g] *)
Definition reserved i (g : Generation) s : Prop :=
  owner (seen s) !! g = Some i ∧ made (seen s) !! g = None.
Lemma reserved_rely i g s s' : threads_rely i s s' → reserved i g s → reserved i g s'.
Proof.
  intros [Hg Hm] [Ho Hn]. split; [|by rewrite Hm]. eapply lookup_weaken; [done|]. by apply g_owner.
Qed.

(** thread [i] has published the handle, under a name and as the default or not *)
Definition mine i (nd : str * bool) h s : Prop :=
  owner (seen s) !! generation h = Some i ∧ made (seen s) !! generation h = Some h
  ∧ made_as (seen s) !! generation h = Some nd.
Lemma mine_rely i nd h s s' : threads_rely i s s' → mine i nd h s → mine i nd h s'.
Proof.
  intros [Hg _] (Ho & Hm & Hnd).
  split_and!; (eapply lookup_weaken; [done|]); [by apply g_owner|by apply g_made|by apply g_as].
Qed.

Lemma safe_publish {B} i name is_default h (k : unit → Prog Shared B) s Q :
  reserved i (generation h) s →
  (∀ s1, threads_inv s1 → mine i (name, is_default) h s1 → safe i (k tt) s1 Q) →
  safe i (noting_version (on_rt (λ r, set_named_providers (<[name := h]> (named_providers r)) r))
            (note_made name is_default h) ≫= k) s Q.
Proof.
  intros Hres Hk s1 Hr Hi Hv. destruct (reserved_rely _ _ _ _ Hr Hres) as [Ho Hn]. cbn.
  match goal with |- threads_inv ?x ∧ _ => set (s2 := x) in * end.
  assert (made_as (seen s1) !! generation h = None) as Hna.
  { apply not_elem_of_dom. rewrite (t_as _ Hi). by apply not_elem_of_dom. }
  assert (grows s1 s2) as Hgr by (split; [done|cbn; by apply insert_subseteq|done|cbn; by apply insert_subseteq]).
  destruct Hi as [In Io Im Is Inm Ias Iv Icap Ic Ia].
  assert (∀ h', made (seen s1) !! generation h' = Some h' → made (seen s2) !! generation h' = Some h') as Hmm
    by (intros h' Hm; eapply lookup_weaken; [done|by apply g_made]).
  assert (threads_inv s2) as Hi2.
  { split; try done.
    - intros g' h'. cbn. rewrite lookup_insert_Some. intros [[<- <-]|[_ Hm]]; [by rewrite Ho|by apply Im].
    - intros h' Hp. destruct (Is h' Hp) as [Hm Ha]. split; [by apply Hmm|by eapply is_made_as_grows].
    - intros n h'. cbn. rewrite lookup_insert_Some. intros [[<- <-]|[_ Hnm]].
      + split; [apply lookup_insert_eq|]. exists name, is_default. split; [apply lookup_insert_eq|done].
      + destruct (Inm _ _ Hnm) as [Hm Ha]. split; [by apply Hmm|by eapply is_made_as_grows].
    - cbn. by rewrite !dom_insert_L, Ias.
    - destruct Iv as [Iv|Iv]; [by left|right]. by eapply is_made_as_grows.
    - intros h' k' r' Ha. destruct (Ia h' k' r' Ha) as [Hm Hg]. split; [by apply Hmm|done]. }
  split_and!; [done|split; [done|]|].
  - intros g' h'. cbn. rewrite lookup_insert_Some. intros [[<- <-]|[_ Hm]]; [done|congruence].
  - apply Hk; [done|]. split; [done|]. split; cbn; apply lookup_insert_eq.
Qed.

(** an action of the runtime that puts only a version on record *)
Lemma safe_noting_version {B} i (m : St World unit) (k : unit → Prog Shared B) s Q :
  (∀ s1, threads_rely i s s1 → threads_inv s1 → threads_inv (set_sw (m (sw s1)).2 s1)) →
  (∀ s1, threads_rely i s s1 → threads_inv s1 → safe i (k tt) s1 Q) →
  safe i (noting_version m id ≫= k) s Q.
Proof.
  intros Hm Hk s1 Hr Hi Hv. specialize (Hm s1 Hr Hi). destruct (m (sw s1)) as [[] w]. cbn in Hm |- *.
  match goal with |- threads_inv ?x ∧ _ => set (s2 := x) in * end.
  assert (threads_rely i s1 s2 ∧ threads_guar i s1 s2) as [Hr2 Hg2].
  { split; (split; [split; done|]); cbn; congruence. }
  assert (threads_inv s2) as Hi2 by (by destruct Hm).
  split_and!; [done..|]. apply Hk; [by etrans|done].
Qed.

Lemma safe_on_rt {B} i f (k : unit → Prog Shared B) s Q :
  (∀ s1, threads_rely i s s1 → threads_inv s1 → threads_inv (set_sw (set_rt (f (rt (sw s1))) (sw s1)) s1)) →
  (∀ s1, threads_rely i s s1 → threads_inv s1 → safe i (k tt) s1 Q) →
  safe i (at_once (on_rt f) ≫= k) s Q.
Proof. intros Hf Hk. apply safe_at_once; [done|]. by intros []. Qed.

(** the install of thread [i] succeeded only under a generation of its own *)
Definition installed_by i nd kd ds (r : KnowledgeResult Generation) s : Prop :=
  ∀ g, r = Ok g → ∃ h, generation h = g ∧ kind h = kd ∧ datasource_id h = ds ∧ mine i nd h s.

Lemma safe_install i name kd ds build is_default s :
  (∀ g, every (λ _ m, framed m) (build g)) →
  safe i (install_provider_named_p i name kd ds build is_default) s
    (installed_by i (name, is_default) kd ds).
Proof.
  intros Hb. unfold install_provider_named_p. apply safe_allocate. intros g s1 _ _ Ho Hn.
  apply safe_work; [done|]. intros [p|err] s2 Hr2 _; cycle 1.
  { apply safe_framed; [apply framed_record|]. intros [] s3 _ _.
    apply safe_framed; [apply framed_report|]. intros [] s4 _ _. by apply safe_ret. }
  pose proof (reserved_rely i g s1 s2 Hr2 (conj Ho Hn)) as Hres.
  cbv zeta. set (h := {| executor := p; datasource_id := ds; generation := g; kind := kd |}).
  apply safe_publish; [done|]. intros s3 _ Hm3.
  apply safe_noting_version; [by intros s' _ []|]. intros s4 Hr4 _.
  pose proof (mine_rely _ _ _ _ _ Hr4 Hm3) as Hm4. clear dependent s1 s2 s3.
  assert (∀ s1, mine i (name, is_default) h s1 → safe i (
    at_once (record reload_successes);; at_once (report (ReloadTelemetryEvent Success kd));; Ret (Ok g)) s1
    (installed_by i (name, is_default) kd ds)) as Hend.
  { intros s1 Hm. apply safe_framed; [apply framed_record|]. intros [] s2 Hr2 _.
    apply safe_framed; [apply framed_report|]. intros [] s3 Hr3 _. apply safe_ret.
    intros s5 Hr5 _ g' [= <-]. exists h. split_and!; [done..|]. by repeat (eapply mine_rely; [done|]). }
  apply safe_pwhen; [by apply Hend|]. intros Hd. clear s.
  apply (safe_on_rt i _ (λ _, _)); [by intros s' _ []|]. intros s5 Hr5 _.
  pose proof (mine_rely _ _ _ _ _ Hr5 Hm4) as Hm5.
  apply (safe_on_rt i _ (λ _, _)).
  { intros s' Hr []. destruct (mine_rely _ _ _ _ _ Hr Hm5) as (Ho & Hm & Ha). split; cbn; try done.
    intros h' [= <-]. split; [done|]. by exists name, is_default. }
  intros s6 Hr6 _. pose proof (mine_rely _ _ _ _ _ Hr6 Hm5) as Hm6.
  apply (safe_on_rt i _ (λ _, _)).
  { intros s' Hr []. destruct (mine_rely _ _ _ _ _ Hr Hm6) as (Ho & Hm & Ha). split; cbn; try done.
    right. by exists name, is_default. }
  intros s7 Hr7 _. pose proof (mine_rely _ _ _ _ _ Hr7 Hm6) as Hm7.
  apply (safe_on_rt i _ (λ _, _)); [by intros s' _ []|]. intros s8 Hr8 _. apply Hend. by eapply mine_rely.
Qed.

Lemma safe_prune i keep (k : unit → Prog Shared Outcome) s Q :
  (∀ s1, safe i (k tt) s1 Q) → safe i (prune_named_providers_except_p keep ≫= k) s Q.
Proof.
  intros Hk. apply safe_noting_version; [|done]. intros s1 _ [In Io Im Is Inm Ias Iv Icap Ic Ia].
  unfold prune_named_providers_except, on_rt, modify. cbn [snd].
  case_bool_decide; split; try done; cbn; intros n h Hn; apply map_lookup_filter_Some in Hn as [Hn _]; by eapply Inm.
Qed.

Lemma safe_configure i en cap d (k : unit → Prog Shared Outcome) s Q :
  (∀ s1, safe i (k tt) s1 Q) → safe i (configure_result_cache_p en cap d ≫= k) s Q.
Proof.
  intros Hk. unfold configure_result_cache_p. cbv zeta. apply safe_bind.
  apply safe_at_once; [by intros s' _ []|]. intros reset s1 _ _.
  apply safe_on_rt; [by intros s' _ []|]. intros s2 _ _.
  apply safe_on_rt; [by intros s' _ []|]. intros s3 _ _. destruct reset.
  - intros s4 Hr4 [In Io Im Is Inm Ias Iv Icap Ic Ia] Hv. cbn.
    match goal with |- threads_inv ?x ∧ _ => set (s5 := x) in * end.
    split_and!; [|by apply (seen_same i)|by intros s6 _ _].
    split; cbn; try done; [rewrite cap_new; cbn; lia|]. intros k' e. by rewrite peek_new.
  - by apply safe_ret.
Qed.

Lemma safe_generation {A} i (k : option Generation → Prog Shared A) s Q :
  (∀ g s1, threads_rely i s s1 → threads_inv s1 → (∀ g', g = Some g' → as_default g' s1) → safe i (k g) s1 Q) →
  safe i (current_generation_p ≫= k) s Q.
Proof.
  intros Hk. apply safe_bind. unfold current_generation_p. apply safe_load. intros s1 Hr1 _.
  assert (∀ s2, threads_rely i s s2 → safe i (load (λ w, current_generation_from_provider (rt w))) s2
            (λ g s', (safe i (k g) s' Q))) as Hslow.
  { intros s2 Hr2. apply safe_act. intros s3 Hr3 Hi3 _. cbn. split_and!; [done|by apply (seen_same i)|].
    intros s4 Hr4 Hi4. apply Hk; [by repeat (etrans; [done|])|done|]. unfold current_generation_from_provider.
    intros g' Hg'. apply fmap_Some in Hg' as (h & Hp & ->). destruct (t_slot _ Hi3 _ Hp) as [_ Hd].
    eapply is_made_as_grows; [apply Hr4|done]. }
  destruct (_ =? 1)%N; [by apply Hslow|]. apply safe_load. intros s2 Hr2 Hi2. apply safe_load. intros s3 Hr3 _.
  assert (threads_rely i s s3) as Hr by (by repeat (etrans; [done|])).
  destruct (negb _); [by apply Hslow|]. apply safe_ret. intros s4 Hr4 Hi4. apply Hk; [by etrans|done|].
  pose proof (t_value _ Hi2) as Hv. destruct (_ =? 0)%N eqn:Hz; [done|]. apply N.eqb_neq in Hz.
  intros g' [= <-]. destruct Hv as [Hv|Hv]; [done|].
  eapply is_made_as_grows; [apply Hr4|]. by eapply is_made_as_grows; [apply Hr3|].
Qed.

Lemma safe_route i sql (k : option (str * str) → Prog Shared Outcome) s Q :
  (∀ r s1, safe i (k r) s1 Q) → safe i (route_provider_sql_p sql ≫= k) s Q.
Proof.
  intros Hk. apply safe_bind. unfold route_provider_sql_p. apply safe_load. intros s1 _ _.
  intros s2 Hr2 Hi2 Hv2. cbn. split_and!; [done|by apply (seen_same i)|].
  destruct (memo_hit _ _ _); [by apply safe_ret|]. apply safe_bind.
  assert (∀ r s3, safe i (act (modify (λ s, set_memo (memo_store (named_provider_epoch (rt (sw s1)))
      (sql_route_key finish sql) r (memo s)) s));; Ret r) s3 (λ a s', (safe i (k a) s' Q))) as Hstore.
  { intros r s3 s4 Hr4 [] Hv4. cbn. split_and!; [by split|by apply (seen_same i)|]. intros s5 _ _. apply Hk. }
  assert (∀ r s3, safe i (Ret r) s3 (λ r s', (safe i
      (act (modify (λ s, set_memo (memo_store (named_provider_epoch (rt (sw s1)))
         (sql_route_key finish sql) r (memo s)) s));; Ret r) s' (λ a s', (safe i (k a) s' Q))))) as Hret
    by (intros r s3; apply safe_ret; intros s4 _ _; apply Hstore).
  unfold compute_route_p. destruct (first_table_name sql) as [table|]; [|by apply Hret].
  destruct (head _) as [name|]; [|by apply Hret]. destruct (bool_decide (name = [])); [by apply Hret|].
  apply safe_load. intros s3 _ _. by apply Hret.
Qed.

(** ** Any number of calls, in any interleaving *)

Abbreviation Op := (Op (C := C) (P := P) (E := E)).
Definition builds_framed (o : Op) : Prop :=
  match o with InstallNamed _ _ _ build _ => ∀ g, every (λ _ m, framed m) (build g) | _ => True end.

(** the provider a query looks up, the key of its answers, and its outcome *)
Definition looks_up (o : Op) (w : World) : option (KnowledgeResult (ProviderHandle P)) :=
  match o with
  | Execute _ _ | FirstRowOf _ _ _ _ => Some (current_handle (rt w))
  | ExecuteFor _ name _ | FirstRowFor _ name _ _ _ => Some (provider_by_name name (rt w))
  | _ => None
  end.
Definition op_key (o : Op) h : option ResultCacheKey :=
  match o with
  | Execute _ req | ExecuteFor _ _ req => Some (result_cache_key h req)
  | FirstRowOf _ sql ps _ | FirstRowFor _ _ sql ps _ => Some (result_cache_key_fields h sql ps TagFirstRow)
  | _ => None
  end.
Definition outcome_of (o : Op) (r : KnowledgeResult QueryResponse) : Outcome :=
  match o with
  | FirstRowOf _ _ _ _ | FirstRowFor _ _ _ _ _ => AnswerRow (into_row <$> r)
  | _ => Answer r
  end.

(** what the other calls end in *)
Definition ends_in (o : Op) i (out : Outcome) s : Prop :=
  match o with
  | InstallNamed name kd ds _ d => ∃ r, out = Installed r ∧ installed_by i (name, d) kd ds r s
  | CurrentGeneration => ∃ g, out = Generated g ∧ ∀ g', g = Some g' → as_default g' s
  | _ => True
  end.

Lemma safe_fmap {A B} i (f : A → B) (p : Prog Shared A) s (Q : B → Shared → Prop) :
  (∀ a s s1, threads_rely i s s1 → Q (f a) s → Q (f a) s1) →
  safe i p s (λ a, Q (f a)) → safe i (fmap (M := Prog Shared) f p) s Q.
Proof.
  intros Hst Hp. apply safe_bind. eapply safe_mono; [|exact Hp]. cbn. intros a s' _ HQ s1 Hr _. by eapply Hst.
Qed.

(** an answer of the handle with the key of the call *)
Definition answers_op (o : Op) h (out : Outcome) s : Prop :=
  ∃ r key, out = outcome_of o r ∧ op_key o h = Some key ∧ answered h key r s.

Lemma answers_op_rely i o h out s s' : threads_rely i s s' → answers_op o h out s → answers_op o h out s'.
Proof. intros Hr (r & key & -> & Hk & Ha). exists r, key. split_and!; [done..|]. by eapply answered_rely. Qed.

Lemma safe_execute i async h req (o : Op) s :
  made (seen s) !! generation h = Some h → op_key o h = Some (result_cache_key h req) →
  (∀ r, outcome_of o r = Answer r) →
  safe i (fmap (M := Prog Shared) Answer (execute_with_handle_p async h req)) s (answers_op o h).
Proof.
  intros Hm Hk Ho. apply safe_fmap; [intros ?????; by eapply answers_op_rely|].
  eapply safe_mono; [|apply safe_cached_call; [apply call_work|by split]]. cbn.
  intros r s' _ Ha. exists r, (result_cache_key h req). by rewrite Ho.
Qed.

Lemma safe_execute_row i async h sql ps policy (o : Op) s :
  made (seen s) !! generation h = Some h → op_key o h = Some (result_cache_key_fields h sql ps TagFirstRow) →
  (∀ r, outcome_of o r = AnswerRow (into_row <$> r)) →
  safe i (fmap (M := Prog Shared) AnswerRow (execute_first_row_fields_with_handle_p async h sql ps policy)) s
    (answers_op o h).
Proof.
  intros Hm Hk Ho. apply safe_fmap; [intros ?????; by eapply answers_op_rely|].
  apply (safe_fmap i (fmap (M := Result _) into_row) _ s (λ r, answers_op o h (AnswerRow r)));
    [intros ?????; by eapply answers_op_rely|].
  eapply safe_mono; [|apply safe_cached_call; [apply row_call_work|by split]]. cbn.
  intros r s' _ Ha. exists r, (result_cache_key_fields h sql ps TagFirstRow). by rewrite Ho.
Qed.

Lemma threads_inv_new start (outside : E) : threads_inv (shared_new (world_new start outside)).
Proof.
  split; cbn; try done; try (intros ??; rewrite lookup_empty; done).
  - by left.
  - rewrite cap_new. lia.
  - intros k e. by rewrite peek_new.
  - intros h k r Hin. by apply elem_of_nil in Hin.
Qed.

(** the rest of a query, after its look for the provider *)
Lemma safe_query i (o : Op) :
  (∃ w, is_Some (looks_up o w)) →
  ∃ (f : Shared → KnowledgeResult (ProviderHandle P)) k,
    op_prog i o = Act (gets f) k
    ∧ (∀ s, looks_up o (sw s) = Some (f s))
    ∧ ∀ s, threads_inv s → safe i (k (f s)) s (λ out s',
        match f s with Ok h => answers_op o h out s' | Err e => out = outcome_of o (Err e) end).
Proof.
  intros [w0 Hw].
  assert (∀ s h, threads_inv s → current_handle (rt (sw s)) = Ok h → made (seen s) !! generation h = Some h) as Hcur.
  { intros s h Hi. unfold current_handle, ok_or. destruct (provider _) as [h'|] eqn:Hp; [|done]. intros [= <-].
    by apply (t_slot _ Hi). }
  assert (∀ s name h, threads_inv s → provider_by_name name (rt (sw s)) = Ok h →
            made (seen s) !! generation h = Some h) as Hname.
  { intros s name h Hi. unfold provider_by_name, ok_or. destruct (_ !! name) as [h'|] eqn:Hp; [|done].
    intros [= <-]. by edestruct t_named. }
  destruct o as [async req|async name req|async sql ps pol|async name sql ps pol|name k ds b dflt|keep|en cap d| |sql];
    try (by destruct Hw).
  - exists (λ s, current_handle (rt (sw s))). eexists. split; [reflexivity|]. split; [done|]. intros s Hi. cbn.
    destruct (current_handle _) as [h|e] eqn:Hh; [|by apply safe_ret]. apply safe_execute; [by eapply Hcur|done..].
  - exists (λ s, provider_by_name name (rt (sw s))). eexists. split; [reflexivity|]. split; [done|]. intros s Hi. cbn.
    destruct (provider_by_name _ _) as [h|e] eqn:Hh; [|by apply safe_ret]. apply safe_execute; [by eapply Hname|done..].
  - exists (λ s, current_handle (rt (sw s))). eexists. split; [reflexivity|]. split; [done|]. intros s Hi. cbn.
    destruct (current_handle _) as [h|e] eqn:Hh; [|by apply safe_ret].
    apply safe_execute_row; [by eapply Hcur|done..].
  - exists (λ s, provider_by_name name (rt (sw s))). eexists. split; [reflexivity|]. split; [done|]. intros s Hi. cbn.
    destruct (provider_by_name _ _) as [h|e] eqn:Hh; [|by apply safe_ret].
    apply safe_execute_row; [by eapply Hname|done..].
Qed.

Lemma safe_op i (o : Op) s : builds_framed o → threads_inv s → safe i (op_prog i o) s (ends_in o i).
Proof.
  intros Hb Hi.
  destruct o as [async req|async name req|async sql ps pol|async name sql ps pol|name k ds b dflt|keep|en cap d| |sql] eqn:Ho.
  1-4: destruct (safe_query i o) as (f & kk & Hp & _ & Hs); [exists (sw s); by rewrite Ho|]; rewrite Ho in Hp;
    rewrite Hp; intros s1 _ Hi1 _; (split_and!; [done|by apply (seen_same i)|]);
    eapply safe_mono; [|by apply Hs]; by rewrite Ho.
  - apply safe_fmap.
    + intros r s1 s2 Hr (r' & [= <-] & Hin). exists r. split; [done|]. intros g Hg.
      destruct (Hin g Hg) as (h & H1' & H2' & H3' & Hm). exists h. split_and!; [done..|]. by eapply mine_rely.
    + eapply safe_mono; [|by apply safe_install]. intros r s' _ Hin. by exists r.
  - by apply safe_prune.
  - by apply safe_configure.
  - apply safe_generation. intros g s1 _ Hi1 Hg. apply safe_ret. intros s2 Hr2 _. exists g. split; [done|].
    intros g' ->. eapply is_made_as_grows; [apply Hr2|]. by apply Hg.
  - by apply safe_route.
Qed.

Lemma pool_safe start (outside : E) (ops : list Op) :
  Forall builds_framed ops →
  all_safe (pool_of (world_new start outside) ops)
    (λ i out s, match ops !! i with Some o => ends_in o i out s | None => True end).
Proof.
  intros Hb. split; [apply threads_inv_new|]. cbn. intros i p Hp. rewrite list_lookup_imap in Hp.
  apply fmap_Some in Hp as (o & Ho & ->). rewrite Ho. apply safe_op; [|apply threads_inv_new].
  by eapply Forall_lookup_1.
Qed.

(** *** Generations do not run out in a run of this length *)

Definition slow {B} (m : St Shared B) : Prop := ∀ s, (allocated (seen (m s).2) ≤ allocated (seen s) + 1)%N.

Lemma slow_noting {B} (m : St World B) note :
  (∀ a w r, (allocated (note a w r) ≤ allocated r + 1)%N) → every (@slow) (noting m note).
Proof. intros Hn. split; [|done]. intros s. destruct (m (sw s)) as [a w]. apply Hn. Qed.
Lemma slow_load {B} (f : World → B) : every (@slow) (load f).
Proof. split; [|done]. intros s. cbn. lia. Qed.
Lemma slow_work {B} (p : Prog World B) : every (@slow) (work p).
Proof.
  induction p as [a|X m k IH]; [done|]. split; [|done]. intros s. destruct (m (sw s)) as [b w]. cbn. lia.
Qed.
Lemma slow_at_once {B} (m : St World B) : every (@slow) (at_once m).
Proof. apply slow_noting. intros. lia. Qed.
Lemma slow_version (m : St World unit) note :
  (∀ r, (allocated (note r) ≤ allocated r + 1)%N) → every (@slow) (noting_version m note).
Proof. intros Hn. apply slow_noting. intros a w r. apply Hn. Qed.
Lemma slow_read {B} (f : Shared → B) : every (@slow) (act (gets f)).
Proof. split; [|done]. intros s. cbn. lia. Qed.
Lemma slow_store (f : Shared → RouteMemo) : every (@slow) (act (modify (λ s, set_memo (f s) s))).
Proof. split; [|done]. intros s. cbn. lia. Qed.

Ltac slow :=
  repeat match goal with
  | |- every _ (_ ≫= _) => apply every_bind; [|intros ?]
  | |- every _ (fmap _ _) => apply every_fmap
  | |- every _ (try_p _ _) => apply every_bind; [|intros [?|?]]
  | |- every _ (pwhen _ _) => apply every_pwhen
  | |- every _ (match ?x with _ => _ end) => destruct x; cbv beta iota
  | |- every _ (Ret _) => exact I
  | |- every _ (load _) => apply slow_load
  | |- every _ (at_once _) => apply slow_at_once
  | |- every _ (work _) => apply slow_work
  | |- every _ (noting_version _ _) => apply slow_version; intros ?; cbn; lia
  | |- every _ (noting _ _) => apply slow_noting; intros; cbn; lia
  end.

Lemma slow_cached h policy key tag call : every (@slow) (cached_call_p h policy key tag call).
Proof. unfold cached_call_p, serve_hit_p, ask_provider_p, fetch_result_cache_by_key_p. slow. Qed.

Lemma slow_row async sql ps policy : every (@slow) (execute_first_row_fields_p async sql ps policy).
Proof. apply every_bind; [apply slow_load|]. intros [h|e]; [apply every_fmap, slow_cached|done]. Qed.
Lemma slow_row_for async name sql ps policy : every (@slow) (execute_first_row_fields_for_p async name sql ps policy).
Proof. apply every_bind; [apply slow_load|]. intros [h|e]; [apply every_fmap, slow_cached|done]. Qed.
Lemma slow_generation : every (@slow) current_generation_p.
Proof. unfold current_generation_p. slow. Qed.

Lemma slow_op i (o : Op) : every (@slow) (op_prog i o).
Proof.
  destruct o; cbn [op_prog]; apply every_fmap.
  - apply every_bind; [apply slow_load|]. intros [h|e]; [apply slow_cached|done].
  - apply every_bind; [apply slow_load|]. intros [h|e]; [apply slow_cached|done].
  - apply slow_row.
  - apply slow_row_for.
  - unfold install_provider_named_p. slow.
  - unfold prune_named_providers_except_p. slow.
  - unfold configure_result_cache_p. slow.
  - apply slow_generation.
  - unfold route_provider_sql_p, compute_route_p. apply every_bind; [apply slow_load|]. intros e.
    apply every_bind; [apply slow_read|]. intros [r|]; [exact I|]. apply every_bind; [slow|]. intros r.
    apply every_bind; [apply slow_store|]. intros []. exact I.
Qed.

Lemma slow_in_range {A} (s0 : Pool Shared A) (sched : list (Turn Ev)) :
  seen (shared s0) = record_new → (N.of_nat (length sched) ≤ u64_max)%N →
  (∀ p, p ∈ threads s0 → every (@slow) p) → stays_valid s0 sched.
Proof.
  intros Hs0 Hl Hslow n. pose proof (run_measure happen s0 (take n sched) (λ s, allocated (seen s)) Hslow) as Hm.
  cbn [valid threads_discipline]. unfold in_range. rewrite length_take, Hs0 in Hm. cbn [record_new allocated] in Hm.
  etrans; [apply Hm|lia]. by intros [] s.
Qed.

Lemma stays_in_range start (outside : E) (ops : list Op) (sched : list (Turn Ev)) :
  (N.of_nat (length sched) ≤ u64_max)%N → stays_valid (pool_of (world_new start outside) ops) sched.
Proof.
  intros Hl. apply slow_in_range; [done..|]. intros p Hin. cbn in Hin. apply list_elem_of_lookup in Hin as [i Hi].
  rewrite list_lookup_imap in Hi. apply fmap_Some in Hi as (o & _ & ->). apply slow_op.
Qed.


(** C8. Installs under any interleaving: the published handles, the default
    and the named ones among them, have generations of their own, each handed
    to one thread; an install that succeeded has published its handle under
    its name and the generation it returns, no two return the same one, and a
    generation that was read belongs to a handle published as the default. *)
Theorem interleaved_installs start (outside : E) (ops : list Op) (sched : list (Turn Ev)) :
  let s0 := pool_of (world_new start outside) ops in
  let s := run happen s0 sched in
  Forall builds_framed ops → (N.of_nat (length sched) ≤ u64_max)%N →
  threads_inv (shared s)
  ∧ (∀ i name k ds b d r, ops !! i = Some (InstallNamed name k ds b d) → threads s !! i = Some (Ret (Installed r)) →
       ∀ g, r = Ok g → ∃ h, made (seen (shared s)) !! g = Some h ∧ made_as (seen (shared s)) !! g = Some (name, d)
                      ∧ generation h = g ∧ kind h = k ∧ datasource_id h = ds)
  ∧ (∀ i j name name' k k' ds ds' b b' d d' g,
       ops !! i = Some (InstallNamed name k ds b d) → ops !! j = Some (InstallNamed name' k' ds' b' d') →
       threads s !! i = Some (Ret (Installed (Ok g))) → threads s !! j = Some (Ret (Installed (Ok g))) → i = j)
  ∧ (∀ i g, ops !! i = Some CurrentGeneration → threads s !! i = Some (Ret (Generated (Some g))) →
       ∃ h name, made (seen (shared s)) !! g = Some h ∧ made_as (seen (shared s)) !! g = Some (name, true)).
Proof.
  intros s0 s Hb Hl. pose proof (stays_in_range start outside ops sched Hl) as Hv.
  destruct (pool_run s0 sched _ (pool_safe start outside ops Hb) Hv) as [Hi Hend].
  assert (∀ i name k ds b d r g, ops !! i = Some (InstallNamed name k ds b d) →
            threads s !! i = Some (Ret (Installed r)) → r = Ok g →
            ∃ h, generation h = g ∧ kind h = k ∧ datasource_id h = ds ∧ mine i (name, d) h (shared s)) as Hinst.
  { intros i name k ds b d r g Ho Hr Hg. specialize (Hend i _ Hr). rewrite Ho in Hend.
    destruct Hend as (r' & [= <-] & Hin). by apply Hin. }
  split_and!; [done| | |].
  - intros i name k ds b d r Ho Hr g Hg. destruct (Hinst i name k ds b d r g Ho Hr Hg) as (h & <- & <- & <- & _ & Hm & Ha).
    by exists h.
  - intros i j name name' k k' ds ds' b b' d d' g Hoi Hoj Hri Hrj.
    destruct (Hinst _ _ _ _ _ _ _ g Hoi Hri eq_refl) as (h & Hg & _ & _ & Ho & _ & _).
    destruct (Hinst _ _ _ _ _ _ _ g Hoj Hrj eq_refl) as (h' & Hg' & _ & _ & Ho' & _ & _). congruence.
  - intros i g Ho Hr. specialize (Hend i _ Hr). rewrite Ho in Hend. destruct Hend as (g' & [= <-] & Hg).
    destruct (Hg g eq_refl) as (name & d & Ha & ->). assert (g ∈ dom (made (seen (shared s)))) as Hd.
    { rewrite <-(t_as (shared s) Hi). by eapply elem_of_dom_2. }
    apply elem_of_dom in Hd as [h Hm]. by exists h, name.
Qed.
End Keep.

(** ** Providers that work in one action *)

Section OneAction.
Context {C : Type → Type → Type} {P E : Type} `{!ProviderExecutor C P E}.

#[export] Instance one_action_solo : ProviderSolo C P E (ProviderThreads0 := in_one_action).
Proof.
  assert (∀ A (m : St (World C P E) A) w, solo (act m) w = m w) as Hact by (intros A m w; cbn; by destruct (m w)).
  split; intros; apply Hact.
Qed.

#[export] Instance one_action_frame `{LruOps C} `{!ProviderFrame C P E} : WorkFrame C P E (ProviderThreads0 := in_one_action).
Proof.
  split; intros; (split; [|done]);
    [apply query_framed|apply query_fields_framed|apply query_row_framed|apply query_named_fields_framed
    |apply query_async_framed|apply query_fields_async_framed|apply query_row_async_framed
    |apply query_named_fields_async_framed].
Qed.
End OneAction.

(** ** Witnesses *)

#[global] Instance demo_threads : ProviderThreads ListLru.t N N := in_one_action.
Abbreviation DemoOp := (Op (C := ListLru.t) (P := N) (E := N)).
Abbreviation DemoTurn := (Turn (Ev (E := N))).

Definition demo_install (name : string) (p : N) : DemoOp :=
  InstallNamed (lit name) Postgres (lit name) (λ _, act (λ w, (Ok p, w))) true.

(** a query between two installs of the default *)
Definition demo_calls : list DemoOp :=
  [demo_install "geo" 7; Execute false demo_query; demo_install "geo" 8; CurrentGeneration; RouteSql (lit "select 1")].
(** thread 0, the query's lookup, thread 2, the rest of the query, the others *)
Definition demo_sched : list DemoTurn :=
  replicate 10 (Run 0) ++ [Run 1] ++ replicate 10 (Run 2) ++ [Env (Pass 3)]
  ++ replicate 20 (Run 1) ++ replicate 5 (Run 3) ++ replicate 5 (Run 4).

Definition demo_run : Pool _ Outcome := run happen (pool_of demo_world demo_calls) demo_sched.

Lemma demo_calls_framed : Forall builds_framed demo_calls.
Proof.
  assert (∀ name p, builds_framed (demo_install name p)) by (intros name p g; split; [by intros w|done]).
  unfold demo_calls. by repeat (apply Forall_cons; split).
Qed.



Lemma interleaved_installs_witness :
  threads_inv (shared demo_run)
  ∧ ∃ h name, made (seen (shared demo_run)) !! 2%N = Some h ∧ made_as (seen (shared demo_run)) !! 2%N = Some (name, true).
Proof.
  destruct (interleaved_installs 5000000 0%N demo_calls demo_sched) as (Hi & _ & _ & Hg).
  - exact demo_calls_framed.
  - vm_compute. discriminate.
  - split; [exact Hi|]. apply (Hg 3); [reflexivity|vm_compute; reflexivity].
Defined.

(** ** Turning the cache off *)

(** Disabling the result cache empties it, and the flag is read once, when the
    call starts: a query under way saves its answer after the reset, and is
    served from the cache once it is enabled again. *)
Definition late_calls : list DemoOp :=
  [demo_install "geo" 7; Execute false demo_query; Configure false 8 (from_millis 30000);
   Configure true 8 (from_millis 30000); Execute false demo_query].
Definition late_sched : list DemoTurn :=
  replicate 12 (Run 0) ++ replicate 9 (Run 1) ++ replicate 5 (Run 2) ++ replicate 5 (Run 1)
  ++ replicate 5 (Run 3) ++ replicate 20 (Run 4).

Example stale_after_disable :
  let s := run happen (pool_of demo_world late_calls) late_sched in
  drop 1 (threads s)
  = [Ret (Answer (Ok (Rows [[from_int (lit "call") 1]]))); Ret Finished; Ret Finished;
     Ret (Answer (Ok (Rows [[from_int (lit "call") 1]])))]
  ∧ ext (sw (shared s)) = 1%N.
Proof. vm_compute. by split. Qed.
(** one after the other, the second query asks the provider *)
Example fresh_after_disable :
  let s := run happen (pool_of demo_world late_calls) (replicate 40 (Run 0) ++ replicate 40 (Run 1)
             ++ replicate 40 (Run 2) ++ replicate 40 (Run 3) ++ replicate 40 (Run 4)) in
  threads s !! 4 = Some (Ret (Answer (Ok (Rows [[from_int (lit "call") 2]])))).
Proof. vm_compute. done. Qed.
