(* ===== verification/RouteThreadsFacts.v ===== *)
(** * Routing while providers come and go

    [route_provider_sql] reads the registry's version, then its memo, then the
    registry, then writes the memo, each under its own lock.  Whatever runs in
    between, the route it returns is the one of a registry that was current at
    a moment of the call, or of the very version it read at its first action. *)
From S2P Require Import Prelude Errors RustStr Model Lru SqlRoute Runtime Threads RuntimeThreads.
From S2P Require Import RuntimeFacts Demo RuntimeThreadsFacts.

Section Route.
Context {C : Type → Type → Type} {P E : Type} `{LruOps C} `{Hasher} `{!ProviderThreads C P E}
  {wframe : WorkFrame C P E}.
Abbreviation World := (World C P E).
Abbreviation Shared := (Shared (C := C) (P := P) (E := E)).
Abbreviation Ev := (Ev (E := E)).
Abbreviation Op := (Op (C := C) (P := P) (E := E)).
Implicit Types (s : Shared) (w : World) (i : nat).

(** ** The route in a set of names *)

Definition names_registry : ProviderRegistry (gset str) :=
  {| registry_epoch := λ _, 0%N; registry_has := λ names name, bool_decide (name ∈ names) |}.
Definition route_in (names : gset str) (sql : str) : option (str * str) :=
  compute_route (H := names_registry) names sql.
Abbreviation names_of w := (dom (named_providers (rt w))).

Lemma has_names w name : provider_exists (rt w) name = bool_decide (name ∈ names_of w).
Proof. unfold provider_exists. apply bool_decide_ext. by rewrite elem_of_dom. Qed.

Lemma route_in_runtime w sql : route_in (names_of w) sql = compute_route (rt w) sql.
Proof.
  unfold route_in, compute_route. destruct (first_table_name sql); [|done]. destruct (head _); [|done].
  cbn [registry_has names_registry runtime_registry]. by rewrite has_names.
Qed.

(** ** What the threads keep *)

(** the texts that are routed *)
Variable used : str → Prop.

(** The registries of the run are on record in order, the current one last,
    and their versions never go back; an entry of the memo is the route in a
    registry of the memo's version or of a later one. *)
Record route_inv s : Prop := {
  v_last : last (versions (seen s)) = Some (registered (sw s));
  v_sorted j k x y : j ≤ k → versions (seen s) !! j = Some x → versions (seen s) !! k = Some y → (x.1 ≤ y.1)%N;
  v_bound : (named_provider_epoch (rt (sw s)) < N.of_nat (length (versions (seen s))))%N;
  v_memo key r : memo_map (memo s) !! key = Some r →
    ∃ sql t x, used sql ∧ sql_route_key finish sql = key ∧ versions (seen s) !! t = Some x
               ∧ (memo_epoch (memo s) ≤ x.1)%N ∧ r = route_in x.2 sql;
}.

Definition route_valid s : Prop := (N.of_nat (length (versions (seen s))) ≤ u64_max)%N.
Definition route_rely (_ : nat) s s' : Prop := versions (seen s) `prefix_of` versions (seen s').

#[local] Instance route_rely_pre i : PreOrder (route_rely i).
Proof. unfold route_rely. split; [by intros s|]. intros s1 s2 s3 ??. by etrans. Qed.

Lemma route_inv_same s s' :
  route_inv s → registered (sw s') = registered (sw s) → memo s' = memo s →
  versions (seen s') = versions (seen s) → route_inv s'.
Proof.
  intros [Hl Hs Hb Hm] Hr Hmm Hv. pose proof Hr as [= He _].
  split; rewrite ?Hr, ?Hmm, ?Hv; [done..| |done]. by rewrite He.
Qed.

#[local] Program Instance route_discipline : Discipline Shared Ev := {
  env := happen;
  inv := route_inv;
  valid := route_valid;
  guar := route_rely;
  rely := route_rely;
}.
Next Obligation. done. Qed.
Next Obligation.
  intros e s Hi _. split; [|intros i; unfold route_rely; by destruct e].
  eapply route_inv_same; [done|by destruct e..].
Qed.

Definition keeps {B} (m : St Shared B) : Prop :=
  ∀ s, route_inv s → route_valid (m s).2 → route_inv (m s).2 ∧ route_rely 0 s (m s).2.

Lemma keeps_safe {A} i (p : Prog Shared A) s : every (@keeps) p → safe i p s (λ _ _, True).
Proof. intros Hp. apply (safe_every (Ev := Ev) i p s). exact Hp. Qed.

Lemma keeps_noting {B} (m : St World B) note :
  (∀ w, registered (m w).2 = registered w) → (∀ a w r, versions (note a w r) = versions r) →
  every (@keeps) (noting m note).
Proof.
  intros Hm Hn. split; [|done]. intros s Hi _. specialize (Hm (sw s)). destruct (m (sw s)) as [a w]. cbn in Hm |- *.
  split; [|unfold route_rely; cbn; by rewrite Hn]. eapply route_inv_same; [done..|apply Hn].
Qed.
Lemma keeps_load {B} (f : World → B) : every (@keeps) (load f).
Proof. split; [|done]. intros s Hi _. by split. Qed.

Lemma framed_registered {B} (m : St World B) w : framed m → registered (m w).2 = registered w.
Proof. intros Hm. destruct (Hm w) as [Hr _]. unfold registered. by rewrite <-Hr. Qed.

Lemma keeps_framed {B} (m : St World B) : framed m → every (@keeps) (at_once m).
Proof. intros Hm. apply keeps_noting; [|done]. intros w. by apply framed_registered. Qed.

Lemma keeps_work {B} (p : Prog World B) : every (λ _ m, framed m) p → every (@keeps) (work p).
Proof.
  induction p as [a|X m k IH]; [done|]. intros [Hm Hk]. split; [|intros b; apply IH, Hk]. intros s Hi _.
  pose proof (framed_registered m (sw s) Hm) as Hr. destruct (m (sw s)) as [b w].
  split; [|by unfold route_rely]. by eapply route_inv_same.
Qed.

(** an action on the registry *)
Lemma keeps_version (m : St World unit) note :
  (∀ w, (named_provider_epoch (rt (m w).2) = named_provider_epoch (rt w)
         ∨ named_provider_epoch (rt (m w).2) = wrap64 (named_provider_epoch (rt w) + 1))%N) →
  (∀ r, versions (note r) = versions r) →
  every (@keeps) (noting_version m note).
Proof.
  intros Hm Hn. split; [|done]. intros s [Hl Hs Hb Hmm] Hv. specialize (Hm (sw s)).
  destruct (m (sw s)) as [[] w]. unfold route_valid in Hv. cbn in Hm, Hv |- *. rewrite Hn in Hv.
  rewrite length_app in Hv. cbn in Hv.
  assert (named_provider_epoch (rt (sw s)) ≤ named_provider_epoch (rt w)
          ∧ named_provider_epoch (rt w) ≤ named_provider_epoch (rt (sw s)) + 1)%N as [Hge Hle].
  { unfold wrap64, u64_max in *. destruct Hm as [-> | ->]; [lia|]. rewrite N.mod_small; lia. }
  assert (∀ k x, versions (seen s) !! k = Some x → (x.1 ≤ named_provider_epoch (rt (sw s)))%N) as Htop.
  { intros k x Hk. rewrite last_lookup in Hl.
    assert (k ≤ pred (length (versions (seen s)))) by (apply lookup_lt_Some in Hk; lia).
    by apply (Hs k _ x _ H1 Hk) in Hl. }
  split; [|unfold route_rely; cbn; rewrite Hn; by eexists]. split; cbn; rewrite Hn.
  - by rewrite last_snoc.
  - intros j k x y Hjk Hx Hy. apply lookup_app_Some in Hy as [Hy|[Hlen Hy]].
    + apply (Hs j k x y); [done| |done]. rewrite lookup_app_l in Hx; [done|].
      apply lookup_lt_Some in Hy. lia.
    + apply list_lookup_singleton_Some in Hy as [_ <-]. cbn.
      apply lookup_app_Some in Hx as [Hx|[_ Hx]]; [etrans; [by eapply Htop|done]|].
      apply list_lookup_singleton_Some in Hx as [_ <-]. done.
  - rewrite length_app. cbn. lia.
  - intros key r Hk. destruct (Hmm key r Hk) as (sql & t & x & ? & ? & Ht & ? & ?). exists sql, t, x.
    split_and!; try done. by apply lookup_app_l_Some.
Qed.

Ltac keeps :=
  repeat match goal with
  | |- every _ (_ ≫= _) => apply every_bind; [|intros ?]
  | |- every _ (fmap _ _) => apply every_fmap
  | |- every _ (try_p _ _) => apply every_bind; [|intros [?|?]]
  | |- every _ (pwhen _ _) => apply every_pwhen
  | |- every _ (match ?x with _ => _ end) => destruct x; cbv beta iota
  | |- every _ (Ret _) => exact I
  | |- every _ (load _) => apply keeps_load
  | |- every _ (noting_version _ _) => apply keeps_version; [by left + by right|done]
  | |- every _ (at_once _) => by apply keeps_noting
  | |- every _ (noting _ _) => by apply keeps_noting
  | |- every _ (work _) => by apply keeps_work
  end.

Lemma keeps_cached h policy key tag call :
  every (λ _ m, framed m) call → every (@keeps) (cached_call_p h policy key tag call).
Proof. intros Hc. unfold cached_call_p, serve_hit_p, ask_provider_p, fetch_result_cache_by_key_p. keeps. Qed.

Lemma keeps_op i (o : Op) :
  builds_framed o → (∀ sql, o ≠ RouteSql sql) → every (@keeps) (op_prog i o).
Proof.
  intros Hb Hr. destruct o; cbn [op_prog]; try apply every_fmap.
  - apply every_bind; [apply keeps_load|]. intros [h|e]; [apply keeps_cached, call_work|done].
  - apply every_bind; [apply keeps_load|]. intros [h|e]; [apply keeps_cached, call_work|done].
  - apply every_bind; [apply keeps_load|]. intros [h|e]; [apply every_fmap, keeps_cached, row_call_work|done].
  - apply every_bind; [apply keeps_load|]. intros [h|e]; [apply every_fmap, keeps_cached, row_call_work|done].
  - unfold install_provider_named_p. keeps.
  - apply keeps_version; [|done]. intros w. unfold prune_named_providers_except, on_rt, modify. cbn [snd].
    case_bool_decide; [by left|by right].
  - unfold configure_result_cache_p. keeps.
  - unfold current_generation_p. keeps.
  - by destruct (Hr sql).
Qed.

(** ** A route *)

(** [r] is the route in a registry on record that is not older than [s0], or
    of its version *)
Definition routed_since s0 (sql : str) (r : option (str * str)) s : Prop :=
  ∃ t x, versions (seen s) !! t = Some x ∧ r = route_in x.2 sql
         ∧ (length (versions (seen s0)) ≤ S t ∨ x.1 = named_provider_epoch (rt (sw s0))).

Lemma routed_since_rely i s0 sql r s s' : route_rely i s s' → routed_since s0 sql r s → routed_since s0 sql r s'.
Proof. intros Hr (t & x & Ht & Hx). exists t, x. split; [|done]. by eapply prefix_lookup_Some. Qed.

Lemma last_registered s : route_inv s → versions (seen s) !! pred (length (versions (seen s))) = Some (registered (sw s)).
Proof. intros Hi. rewrite <-last_lookup. apply Hi. Qed.

(** the epoch of a later state is no smaller; a registry beyond it is later *)
Lemma epoch_mono i s s' : route_inv s → route_inv s' → route_rely i s s' →
  (named_provider_epoch (rt (sw s)) ≤ named_provider_epoch (rt (sw s')))%N.
Proof.
  intros Hi Hi' Hr. pose proof (last_registered s Hi) as H1. pose proof (last_registered s' Hi') as H2.
  pose proof (prefix_lookup_Some _ _ _ _ H1 Hr) as H1'. apply prefix_length in Hr.
  by apply (v_sorted _ Hi' _ _ _ _) with (2 := H1') (3 := H2); lia.
Qed.

Lemma later_since i s0 s sql r t x :
  route_inv s0 → route_inv s → route_rely i s0 s → versions (seen s) !! t = Some x →
  (named_provider_epoch (rt (sw s0)) ≤ x.1)%N → r = route_in x.2 sql → routed_since s0 sql r s.
Proof.
  intros Hi0 Hi Hr Ht Hx ->. exists t, x. split_and!; [done..|].
  destruct (decide (length (versions (seen s0)) ≤ S t)) as [|Hlt]; [by left|right].
  pose proof (prefix_lookup_Some _ _ _ _ (last_registered s0 Hi0) Hr) as H0'.
  assert (t ≤ pred (length (versions (seen s0)))) as Hle by lia.
  pose proof (v_sorted _ Hi _ _ _ _ Hle Ht H0'). unfold registered in *. cbn in *. lia.
Qed.

Hypothesis no_collision : ∀ sql sql', used sql → used sql' →
  sql_route_key finish sql = sql_route_key finish sql' → sql = sql'.

Lemma safe_store i sql epoch r s (Q : Outcome → Shared → Prop) t x :
  used sql → versions (seen s) !! t = Some x → (epoch ≤ x.1)%N → r = route_in x.2 sql →
  (∀ s', route_rely i s s' → route_inv s' → Q (Routed r) s') →
  safe i (act (modify (λ s, set_memo (memo_store epoch (sql_route_key finish sql) r (memo s)) s));;
          Ret (Routed r)) s Q.
Proof.
  intros Hu Ht Hx Hr HQ s1 Hr1 Hi1 _. cbn. split_and!; [|by unfold route_rely|].
  - pose proof (prefix_lookup_Some _ _ _ _ Ht Hr1) as Ht1.
    destruct Hi1 as [Hl Hs Hb Hm]. split; [done..|]. cbn. intros key r' Hk.
    apply lookup_insert_Some in Hk as [[<- <-]|[_ Hk]]; [by exists sql, t, x|].
    case_bool_decide; [by rewrite lookup_empty in Hk|].
    destruct (memo_epoch (memo s1) =? epoch)%N eqn:He; cbn [negb] in Hk; [|by rewrite lookup_empty in Hk].
    apply N.eqb_eq in He as <-. by apply Hm.
  - intros s2 Hr2 Hi2. apply HQ; [|done]. by etrans.
Qed.

(** the rest of a routing call, after its look at the version *)
Lemma safe_route_rest i sql :
  used sql →
  ∃ k, op_prog i (RouteSql sql) = Act (gets (λ s : Shared, named_provider_epoch (rt (sw s)))) k
  ∧ ∀ s0, route_inv s0 → safe i (k (named_provider_epoch (rt (sw s0)))) s0
      (λ out s, ∃ r, out = Routed r ∧ routed_since s0 sql r s).
Proof.
  intros Hu. eexists. split; [reflexivity|]. intros s0 Hi0. set (e := named_provider_epoch (rt (sw s0))).
  assert (∀ r s s', route_rely i s s' → routed_since s0 sql r s → ∃ r', Routed r = Routed r' ∧ routed_since s0 sql r' s')
    as Hend by (intros r s s' Hr Hx; exists r; split; [done|by eapply routed_since_rely]).
  intros s1 Hr1 Hi1 _. cbn. split_and!; [done|by unfold route_rely|].
  destruct (memo_hit e _ (memo s1)) as [r|] eqn:Hhit; cbn.
  { intros s2 Hr2 _. eapply Hend; [done|]. unfold memo_hit in Hhit.
    destruct (memo_epoch (memo s1) =? e)%N eqn:He; [|done]. apply N.eqb_eq in He.
    destruct (v_memo _ Hi1 _ _ Hhit) as (sql' & t & x & Hu' & Hk & Ht & Hx & ->).
    apply no_collision in Hk as ->; [|done..]. rewrite He in Hx. by eapply later_since. }
  assert (∀ r s2 t x, route_rely i s0 s2 → route_inv s2 → versions (seen s2) !! t = Some x → (e ≤ x.1)%N →
    r = route_in x.2 sql → safe i
     (act (modify (λ s, set_memo (memo_store e (sql_route_key finish sql) r (memo s)) s));; Ret (Routed r)) s2
     (λ out s, ∃ r, out = Routed r ∧ routed_since s0 sql r s)) as Hstore.
  { intros r s2 t x Hr2 Hi2 Ht Hx Hr. eapply safe_store; [done..|]. intros s3 Hr3 Hi3.
    eapply Hend; [exact Hr3|]. by eapply later_since. }
  assert (∀ r s2, route_rely i s0 s2 → route_inv s2 → r = route_in (names_of (sw s2)) sql → safe i
     (act (modify (λ s, set_memo (memo_store e (sql_route_key finish sql) r (memo s)) s));; Ret (Routed r)) s2
     (λ out s, ∃ r, out = Routed r ∧ routed_since s0 sql r s)) as Hlast.
  { intros r s2 Hr2 Hi2 Hr. eapply Hstore; [done..|by apply last_registered| |done]. by eapply epoch_mono. }
  clear Hstore. unfold compute_route_p.
  destruct (first_table_name sql) as [table|] eqn:Ht; [destruct (head (split_char DOT table)) as [name|] eqn:Hn|].
  - destruct (bool_decide (name = [])) eqn:Hb.
    + apply (Hlast None); [done..|]. unfold route_in, compute_route. by rewrite Ht, Hn, Hb.
    + intros s2 Hr2 Hi2 _. cbn. split_and!; [done|by unfold route_rely|].
      apply Hlast; [by etrans|done|]. unfold route_in, compute_route. rewrite Ht, Hn, Hb, has_names. done.
  - apply (Hlast None); [done..|]. unfold route_in, compute_route. by rewrite Ht, Hn.
  - apply (Hlast None); [done..|]. unfold route_in, compute_route. by rewrite Ht.
Qed.

Lemma route_inv_new start (outside : E) : route_inv (shared_new (world_new start outside)).
Proof.
  split; cbn.
  - unfold registered. cbn. by rewrite dom_empty_L.
  - intros j k x y _ Hx Hy. apply list_lookup_singleton_Some in Hx as [_ <-], Hy as [_ <-]. done.
  - lia.
  - intros key r. by rewrite lookup_empty.
Qed.

Definition route_pool start (outside : E) (ops : list Op) := pool_of (world_new start outside) ops.

Lemma route_pool_safe start (outside : E) (ops : list Op) :
  Forall builds_framed ops → (∀ sql, RouteSql sql ∈ ops → used sql) →
  all_safe (route_pool start outside ops) (λ _ _ _, True).
Proof.
  intros Hb Hu. split; [apply route_inv_new|]. cbn. intros i p Hp. rewrite list_lookup_imap in Hp.
  apply fmap_Some in Hp as (o & Ho & ->).
  assert ((∃ sql, o = RouteSql sql) ∨ ∀ sql, o ≠ RouteSql sql) as [[sql ->]|Hne]
    by (destruct o; [right..|left]; naive_solver).
  - apply list_elem_of_lookup_2 in Ho. destruct (safe_route_rest i sql (Hu _ Ho)) as (k & -> & Hk).
    intros s1 _ Hi1 _. cbn. split_and!; [done|by unfold route_rely|].
    eapply safe_mono; [|by apply Hk]. done.
  - apply keeps_safe, keeps_op; [by eapply Forall_lookup_1|done].
Qed.

(** *** One version at a time *)

Definition one_version {B} (m : St Shared B) : Prop :=
  ∀ s, (N.of_nat (length (versions (seen (m s).2))) ≤ N.of_nat (length (versions (seen s))) + 1)%N.

Lemma one_noting {B} (m : St World B) note :
  (∀ a w r, (length (versions (note a w r)) ≤ length (versions r) + 1)) → every (@one_version) (noting m note).
Proof. intros Hn. split; [|done]. intros s. destruct (m (sw s)) as [a w]. cbn. specialize (Hn a w (seen s)). lia. Qed.
Lemma one_act {B} (m : St Shared B) : (∀ s, seen (m s).2 = seen s) → every (@one_version) (act m).
Proof. intros Hm. split; [|done]. intros s. rewrite Hm. lia. Qed.
Lemma one_work {B} (p : Prog World B) : every (@one_version) (work p).
Proof.
  induction p as [a|X m k IH]; [done|]. split; [|done]. intros s. destruct (m (sw s)) as [b w]. cbn. lia.
Qed.

Ltac one :=
  repeat match goal with
  | |- every _ (_ ≫= _) => apply every_bind; [|intros ?]
  | |- every _ (fmap _ _) => apply every_fmap
  | |- every _ (try_p _ _) => apply every_bind; [|intros [?|?]]
  | |- every _ (pwhen _ _) => apply every_pwhen
  | |- every _ (match ?x with _ => _ end) => destruct x; cbv beta iota
  | |- every _ (Ret _) => exact I
  | |- every _ (load _) => by apply one_act
  | |- every _ (noting_version _ _) => apply one_noting; intros; cbn; rewrite ?length_app; cbn; lia
  | |- every _ (at_once _) => apply one_noting; intros; lia
  | |- every _ (noting _ _) => apply one_noting; intros; cbn; lia
  | |- every _ (work _) => apply one_work
  | |- every _ (act _) => by apply one_act
  end.

Lemma one_cached h policy key tag call : every (@one_version) (cached_call_p h policy key tag call).
Proof. unfold cached_call_p, serve_hit_p, ask_provider_p, fetch_result_cache_by_key_p. one. Qed.

Lemma one_op i (o : Op) : every (@one_version) (op_prog i o).
Proof.
  destruct o; cbn [op_prog]; apply every_fmap;
    unfold execute_p, execute_for_p, execute_first_row_fields_p, execute_first_row_fields_for_p, current_handle_p,
      provider_by_name_p, execute_with_handle_p, execute_first_row_fields_with_handle_p, install_provider_named_p,
      prune_named_providers_except_p, configure_result_cache_p, current_generation_p, route_provider_sql_p,
      compute_route_p; one; apply one_cached.
Qed.

Lemma pool_one start (outside : E) (ops : list Op) p :
  p ∈ threads (route_pool start outside ops) → every (@one_version) p.
Proof.
  intros Hin. cbn in Hin. apply list_elem_of_lookup in Hin as [i Hi]. rewrite list_lookup_imap in Hi.
  apply fmap_Some in Hi as (o & _ & ->). apply one_op.
Qed.

Lemma stays_route_valid start (outside : E) (ops : list Op) (sched : list (Turn Ev)) :
  (N.of_nat (length sched) < u64_max)%N → stays_valid (route_pool start outside ops) sched.
Proof.
  intros Hl n. pose proof (run_measure happen (route_pool start outside ops) (take n sched)
    (λ s, N.of_nat (length (versions (seen s))))) as Hm. cbn [valid route_discipline]. unfold route_valid.
  rewrite length_take in Hm. cbn [route_pool pool_of shared shared_new seen record_new versions length] in Hm.
  etrans; [apply Hm|lia]; [apply pool_one|by intros [] s].
Qed.

(** each registry on record was the current one when it went on record *)
Lemma versions_seen start (outside : E) (ops : list Op) (sched : list (Turn Ev)) t x :
  let world n := shared (run happen (route_pool start outside ops) (take n sched)) in
  Forall builds_framed ops → (∀ sql, RouteSql sql ∈ ops → used sql) → (N.of_nat (length sched) < u64_max)%N →
  versions (seen (shared (run happen (route_pool start outside ops) sched))) !! t = Some x →
  ∃ n, n ≤ length sched ∧ registered (sw (world n)) = x ∧ length (versions (seen (world n))) = S t.
Proof.
  intros world Hb Hu. unfold world. clear world. induction sched as [|u sched IH] using rev_ind; intros Hl Hx.
  - apply list_lookup_singleton_Some in Hx as [-> <-]. exists 0. cbn. unfold registered. cbn.
    by rewrite dom_empty_L.
  - rewrite length_app in Hl. cbn in Hl. rewrite run_app in Hx.
    set (s := run happen (route_pool start outside ops) sched) in *.
    destruct (decide (t < length (versions (seen (shared s))))) as [Hlt|Hge].
    + assert (versions (seen (shared s)) !! t = Some x) as Hx'.
      { apply lookup_lt_is_Some in Hlt as [y Hy]. rewrite Hy. f_equal.
        assert (versions (seen (shared s)) `prefix_of` versions (seen (shared (turn happen s u)))) as Hpre.
        { destruct (run_rely_between (Ev := Ev) _ (sched ++ [u]) _ (length sched) (S (length sched))
            (route_pool_safe start outside ops Hb Hu)) as [j Hj];
            [apply stays_route_valid; rewrite length_app; cbn; lia|lia|].
          rewrite take_app_length, take_ge, run_app in Hj by (rewrite length_app; cbn; lia). exact Hj. }
        pose proof (prefix_lookup_Some _ _ _ _ Hy Hpre) as Hy'.
        change (run happen s [u]) with (turn happen s u) in Hx. congruence. }
      destruct (IH ltac:(lia) Hx') as (n & Hn & Hreg & Hlen). exists n. rewrite length_app, take_app_le by lia.
      split; [lia|done].
    + exists (length (sched ++ [u])). rewrite take_ge by lia. split; [done|].
      rewrite run_app. fold s. change (run happen s [u]) with (turn happen s u) in Hx |- *.
      pose proof (turn_measure happen s u (λ s, N.of_nat (length (versions (seen s)))) (run_every happen _ _ sched (pool_one start outside ops))) as Hm.
      cbv beta in Hm. specialize (Hm ltac:(by intros [] ?)). apply lookup_lt_Some in Hx as Hxl.
      assert (length (versions (seen (shared (turn happen s u)))) = S t) as Hlen by lia.
      split; [|done].
      destruct (run_safe (Ev := Ev) _ (sched ++ [u]) _ (route_pool_safe start outside ops Hb Hu)) as [Hi _];
        [apply stays_route_valid; rewrite length_app; cbn; lia|]. rewrite run_app in Hi. fold s in Hi.
      assert (route_inv (shared (turn happen s u))) as Hi' by exact Hi.
      apply last_registered in Hi'. rewrite Hlen in Hi'. cbn [pred] in Hi'. congruence.
Qed.

Lemma routes_settle start (outside : E) (ops : list Op) (sched : list (Turn Ev)) i sql out :
  let world n := sw (shared (run happen (route_pool start outside ops) (take n sched))) in
  Forall builds_framed ops → (∀ sql, RouteSql sql ∈ ops → used sql) → (N.of_nat (length sched) < u64_max)%N →
  ops !! i = Some (RouteSql sql) →
  threads (run happen (route_pool start outside ops) sched) !! i = Some (Ret out) →
  ∃ b n, sched !! b = Some (Run i) ∧ (Run i ∉ take b sched) ∧ n ≤ length sched
    ∧ out = Routed (compute_route (rt (world n)) sql)
    ∧ (b ≤ n ∨ named_provider_epoch (rt (world n)) = named_provider_epoch (rt (world b))).
Proof.
  intros world Hb Hu Hl Ho Hout. apply list_elem_of_lookup_2 in Ho as Hin.
  destruct (safe_route_rest i sql (Hu _ Hin)) as (k & Hp & Hk).
  destruct (pool_look (Ev := Ev) (route_pool start outside ops) sched i
              (λ s, named_provider_epoch (rt (sw s))) k out _
              (λ s0 out s, ∃ r, out = Routed r ∧ routed_since s0 sql r s)
              (route_pool_safe start outside ops Hb Hu) (stays_route_valid start outside ops sched Hl))
    as (before & after & Hs & Hnin & r & -> & t & x & Ht & -> & Hx); [|exact Hk|exact Hout|].
  { cbn. by rewrite list_lookup_imap, Ho, <-Hp. }
  destruct (versions_seen start outside ops sched t x Hb Hu Hl Ht) as (n & Hn & Hreg & Hlen).
  assert (take (length before) sched = before) as Htake by (rewrite Hs; apply take_app_length).
  assert (sched !! length before = Some (Run i)) as Hlook.
  { rewrite Hs, lookup_app_r, Nat.sub_diag by lia. done. }
  assert (length before ≤ length sched) as Hlb by (apply lookup_lt_Some in Hlook; lia).
  assert (∀ m, registered (world m) = x → route_in x.2 sql = compute_route (rt (world m)) sql) as Hroute.
  { intros m <-. apply route_in_runtime. }
  exists (length before). destruct Hx as [Hx|Hx]; cycle 1.
  - exists n. rewrite <-Hroute by done. split_and!; [done|by rewrite Htake|done..|]. right.
    unfold world at 2. rewrite Htake. transitivity x.1; [by rewrite <-Hreg|exact Hx].
  - destruct (decide (length before ≤ n)) as [Hle|Hgt].
    { exists n. rewrite <-Hroute by done. split_and!; [done|by rewrite Htake|done..|by left]. }
    exists (length before). assert (registered (world (length before)) = x) as Hreg'; cycle 1.
    { rewrite <-Hroute by done. split_and!; [done|by rewrite Htake|done..|by left]. }
    unfold world. rewrite Htake.
    destruct (run_rely_between (Ev := Ev) _ sched _ n (length before) (route_pool_safe start outside ops Hb Hu)
      (stays_route_valid start outside ops sched Hl)) as [j Hj]; [lia|]. rewrite Htake in Hj.
    assert (versions (seen (shared (run happen (route_pool start outside ops) (take n sched))))
            = versions (seen (shared (run happen (route_pool start outside ops) before)))) as Heq.
    { apply prefix_length_eq; [exact Hj|]. by rewrite Hlen. }
    destruct (run_safe (Ev := Ev) _ before _ (route_pool_safe start outside ops Hb Hu)) as [Hib _].
    { pose proof (stays_route_valid start outside ops sched Hl) as Hv. rewrite Hs in Hv. by apply stays_valid_app in Hv as [? _]. }
    destruct (run_safe (Ev := Ev) _ (take n sched) _ (route_pool_safe start outside ops Hb Hu)) as [Hin' _].
    { intros k'. rewrite take_take. by apply stays_route_valid. }
    apply last_registered in Hib. apply last_registered in Hin'. cbn [env route_discipline] in Hib, Hin'.
    rewrite Heq, Hib in Hin'. rewrite <-Hreg. exact (f_equal (default x) Hin').
Qed.
End Route.

(** C10. Routing under any interleaving with installs, prunes and other calls:
    the outcome is the route in a registry that was current at a moment [n] of
    the run - during the call, or at an earlier one whose version is the one
    the call read at its first action (so that only an install which had not
    yet counted its change lies between) - however the memo was shared. *)
Theorem routes_are_current {C : Type → Type → Type} {P E : Type} `{LruOps C} `{Hasher} `{!ProviderThreads C P E}
    `{!WorkFrame C P E} start (outside : E) (ops : list (Op (C := C) (P := P) (E := E)))
    (sched : list (Turn (Ev (E := E)))) i sql out :
  let s0 := pool_of (world_new start outside) ops in
  let world n := sw (shared (run happen s0 (take n sched))) in
  Forall builds_framed ops → (N.of_nat (length sched) < u64_max)%N →
  (∀ sql sql', RouteSql sql ∈ ops → RouteSql sql' ∈ ops →
     sql_route_key finish sql = sql_route_key finish sql' → sql = sql') →
  ops !! i = Some (RouteSql sql) → threads (run happen s0 sched) !! i = Some (Ret out) →
  ∃ b n, sched !! b = Some (Run i) ∧ (Run i ∉ take b sched) ∧ n ≤ length sched
    ∧ out = Routed (compute_route (rt (world n)) sql)
    ∧ (b ≤ n ∨ named_provider_epoch (rt (world n)) = named_provider_epoch (rt (world b))).
Proof.
  intros s0 world Hb Hl Hcol Ho Hout.
  by apply (routes_settle (λ sql, RouteSql sql ∈ ops) Hcol start outside ops sched i sql out Hb).
Qed.

(** ** Witness *)

Definition demo_routes : list DemoOp := [demo_install "geo" 7; RouteSql (lit "select * from geo.t")].
(** the route reads the version while nothing is registered, then a name *)
Definition demo_route_sched : list DemoTurn := [Run 1; Run 0; Run 0; Run 0; Run 1; Run 1; Run 1].

Lemma routes_are_current_witness :
  ∃ n, n ≤ 7 ∧ Routed (Some (lit "geo", lit "select * from t"))
     = Routed (compute_route (rt (sw (shared (run happen (pool_of demo_world demo_routes) (take n demo_route_sched)))))
                             (lit "select * from geo.t")).
Proof.
  destruct (routes_are_current 5000000 0%N demo_routes demo_route_sched 1 (lit "select * from geo.t")
              (Routed (Some (lit "geo", lit "select * from t")))) as (b & n & _ & _ & Hn & Hout & _).
  - apply Forall_cons. split; [|by repeat constructor]. intros g. split; [by intros w|done].
  - vm_compute. reflexivity.
  - intros sql sql' H1 H2 _. set_solver.
  - reflexivity.
  - vm_compute. reflexivity.
  - by exists n.
Defined.
