(* ===== verification/SqliteFacts.v ===== *)
(** * Properties of the SQLite access

    What the mapped rows look like, the queries against one another and
    against the column-name cache, the loading of CSV files, the threads'
    snapshots, and the providers over SQLite as providers of the runtime. *)
From S2P Require Import Prelude Errors RustStr Model Lru SqlRoute Runtime SqliteDb.
From S2P Require Import Demo RuntimeFacts.
From S2P Require Loader.
Import Model.Param.

(** ** UTF-8 texts *)

Inductive valid : str → Prop :=
| valid_nil : valid []
| valid_char c s n : utf8_next c s = (true, n) → valid (drop n (c :: s)) → valid (c :: s).

Lemma utf8_next_true c s n : utf8_next c s = (true, n) →
  1 ≤ n ≤ S (length s) ∧ ∀ t, utf8_next c (take (n - 1) s ++ t) = (true, n).
Proof.
  unfold utf8_next. destruct (c <? 128)%N; [intros [= <-]; split; [lia|done]|].
  destruct (second_range c) as [[[w lo] hi]|]; [|done].
  assert (∀ lo hi (o : option N), in_range lo hi o = true → is_Some o) as Hr
    by (intros ?? [?|]; [by eexists|done]).
  intros H. destruct (in_range lo hi (s !! 0)) eqn:H0; [|done].
  destruct (Hr _ _ _ H0) as [x Hx]. destruct s as [|x0 s]; [done|]. injection Hx as ->.
  cbn in H0.
  destruct (w =? 2)%N. { injection H as <-. split; [simpl; lia|]. intros t. cbn. by rewrite H0. }
  destruct (cont ((x :: s) !! 1)) eqn:H1; [|done].
  destruct (Hr _ _ _ H1) as [y Hy]. destruct s as [|y0 s]; [done|]. injection Hy as ->.
  destruct (w =? 3)%N. { injection H as <-. split; [simpl; lia|]. intros t. cbn in *. by rewrite H0, H1. }
  destruct (cont ((x :: y :: s) !! 2)) eqn:H2; [|done].
  destruct (Hr _ _ _ H2) as [z Hz]. destruct s as [|z0 s]; [done|]. injection Hz as ->.
  injection H as <-. split; [simpl; lia|]. intros t. cbn in *. by rewrite H0, H1, H2.
Qed.

Lemma valid_chunks fuel s : length s ≤ fuel → forallb fst (utf8_chunks fuel s) = true ↔ valid s.
Proof.
  revert s. induction fuel as [|fuel IH]; intros s Hf.
  { destruct s; [|simpl in Hf; lia]. split; [constructor|done]. }
  destruct s as [|c s]; [split; [constructor|done]|]. cbn [utf8_chunks].
  destruct (utf8_next c s) as [ok n] eqn:Hn. cbn [forallb fst]. split.
  - intros [-> Hv]%andb_prop. destruct (utf8_next_true _ _ _ Hn) as [Hle _].
    apply (valid_char c s n Hn), IH; [simpl in *; rewrite length_drop; simpl; lia|done].
  - intros Hv. inversion Hv as [|c' s' n' Hn' Hd]; subst. rewrite Hn in Hn'. injection Hn' as -> ->.
    destruct (utf8_next_true _ _ _ Hn) as [Hle _]. cbn.
    apply IH; [simpl in *; rewrite length_drop; simpl; lia|done].
Qed.

Lemma valid_spec s : utf8_valid s = true ↔ valid s.
Proof. by apply valid_chunks. Qed.

Lemma valid_app a b : valid a → valid b → valid (a ++ b).
Proof.
  intros Ha Hb. induction Ha as [|c s n Hn _ IH]; [done|].
  destruct (utf8_next_true _ _ _ Hn) as [Hle Ht].
  apply (valid_char c (s ++ b) n).
  - rewrite <-(take_drop (n - 1) s), <-app_assoc. apply Ht.
  - change (c :: s ++ b) with ((c :: s) ++ b). rewrite drop_app_le by (simpl; lia). exact IH.
Qed.

(** the replacement of invalid bytes gives a valid text, and leaves a valid one alone *)
Lemma lossy_valid s : utf8_valid (from_utf8_lossy s) = true.
Proof.
  apply valid_spec. unfold from_utf8_lossy. generalize (length s). intros fuel.
  revert s. induction fuel as [|fuel IH]; intros s; [constructor|].
  destruct s as [|c s]; [constructor|]. cbn [utf8_chunks].
  destruct (utf8_next c s) as [[] n] eqn:Hn; cbn [fmap list_fmap concat]; apply valid_app; try apply IH.
  - destruct (utf8_next_true _ _ _ Hn) as [Hle Ht]. destruct n as [|n]; [lia|]. cbn [take].
    apply (valid_char _ _ (S n)); [specialize (Ht []); by rewrite app_nil_r, Nat.sub_1_r in Ht|].
    cbn [drop]. rewrite drop_ge by (rewrite length_take; lia). constructor.
  - apply valid_spec. reflexivity.
Qed.

Lemma lossy_id s : utf8_valid s = true → from_utf8_lossy s = s.
Proof.
  unfold utf8_valid, from_utf8_lossy. assert (length s ≤ length s) as Hf by done. revert Hf.
  generalize (length s) at 2 3 4. intros fuel. revert s.
  induction fuel as [|fuel IH]; intros s Hf Hv; [destruct s; [done|simpl in Hf; lia]|].
  destruct s as [|c s]; [done|]. cbn [utf8_chunks] in *.
  destruct (utf8_next c s) as [ok n] eqn:Hn. cbn in Hv. apply andb_prop in Hv as [-> Hv].
  destruct (utf8_next_true _ _ _ Hn) as [Hle _]. cbn [fmap list_fmap concat].
  change (list_fmap _ _ _) with ((λ '(ok, b), if ok : bool then b else replacement) <$> utf8_chunks fuel (drop n (c :: s))).
  rewrite IH; [apply take_drop|simpl in *; rewrite length_drop; simpl; lia|done].
Qed.

(** ** Rows *)

(** the type tag of a field fits its value, and texts are texts *)
Definition well_typed (f : DataField) : Prop :=
  match get_meta f, get_value f with
  | DtDefault, Null | DtDigit, Int _ | DtFloat, Float _ => True
  | DtChars, Chars s => utf8_valid s = true
  | _, _ => False
  end.

(** the value a column's storage stands for *)
Definition stands_for (v : SqlValue) (f : DataField) : Prop :=
  match v with
  | SqlNull => get_value f = Null
  | SqlInteger z => get_value f = Int z
  | SqlReal b => get_value f = Float b
  | SqlText s => get_value f = Chars s
  | SqlBlob b => ∃ s, get_value f = Chars s ∧ (utf8_valid b = true → s = b)
  end.

Definition readable (v : SqlValue) : Prop :=
  match v with SqlText s => utf8_valid s = true | _ => True end.

Lemma map_value_ok name v f : map_value name v = Ok f →
  get_name f = name ∧ well_typed f ∧ stands_for v f.
Proof.
  destruct v as [|z|b|s|b]; cbn; [by intros [= <-]..| |].
  - destruct (utf8_valid s) eqn:Hs; [|done]. by intros [= <-].
  - intros [= <-]. split_and!; [done|apply lossy_valid|]. eexists. split; [done|apply lossy_id].
Qed.

Lemma map_value_is_ok name v : is_ok (map_value name v) = true ↔ readable v.
Proof. destruct v as [| | |s|]; cbn; try done. by destruct (utf8_valid s). Qed.

Lemma map_cols_ok row i names fields : map_cols row i names = Ok fields →
  get_name <$> fields = names ∧ Forall well_typed fields
  ∧ Forall2 stands_for (take (length names) (drop i row)) fields.
Proof.
  revert i fields. induction names as [|name names IH]; intros i fields; cbn [map_cols].
  { intros [= <-]. split_and!; constructor. }
  destruct (row !! i) as [v|] eqn:Hv; [|done]. cbn [ok_or mbind result_bind].
  destruct (map_value name v) as [f|] eqn:Hf; [|done]. cbn [mbind result_bind].
  destruct (map_cols row (S i) names) as [fs|] eqn:Hfs; [|done]. intros [= <-].
  apply IH in Hfs as (Hn & Ht & H2). apply map_value_ok in Hf as (Hn1 & Ht1 & Hs1).
  rewrite (drop_S _ _ _ Hv). cbn. rewrite Hn, Hn1. split_and!; [done|by constructor|by constructor].
Qed.

Lemma map_cols_is_ok row i names : is_ok (map_cols row i names) = true ↔
  i + length names ≤ Nat.max i (length row) ∧ Forall readable (take (length names) (drop i row)).
Proof.
  revert i. induction names as [|name names IH]; intros i; cbn [map_cols].
  { split; [|done]. intros _. split; [simpl; lia|constructor]. }
  destruct (row !! i) as [v|] eqn:Hv; cbn [ok_or mbind result_bind].
  2: { split; [done|]. apply lookup_ge_None in Hv. simpl. lia. }
  pose proof (lookup_lt_Some _ _ _ Hv) as Hlt. specialize (IH (S i)).
  rewrite (drop_S _ _ _ Hv). cbn [length take]. rewrite Forall_cons, <-(map_value_is_ok name v).
  destruct (map_value name v) as [f|]; cbn [mbind result_bind is_ok]; [|naive_solver lia].
  destruct (map_cols row (S i) names) as [fs|]; cbn [mbind result_bind is_ok] in *.
  - destruct (proj1 IH eq_refl). split; [|done]. intros _. split_and!; [lia|done|done].
  - split; [done|]. intros (Hl & _ & Hr). apply IH. split; [lia|done].
Qed.

(** Reading rows: a result is typed - every row has the statement's column
    names in order, every field a value of its tag's type, texts being valid
    UTF-8 - and holds what the columns hold; and reading fails only when a step
    failed, a row has fewer columns than names, or a text column is not UTF-8. *)
Theorem rows_typed names steps :
  match map_rows names steps with
  | Ok rows =>
      Forall2 (λ step row, ∃ vals, step = Ok vals ∧ get_name <$> row = names ∧ Forall well_typed row
                                   ∧ Forall2 stands_for (take (length names) vals) row) steps rows
  | Err e =>
      e = rule_error ∧ Exists (λ step, ∀ vals, step = Ok vals →
        length vals < length names ∨ ¬ Forall readable (take (length names) vals)) steps
  end.
Proof.
  assert (∀ row name v, map_value name v = Err row → row = rule_error) as Hv.
  { intros row name [| | |s|] ; cbn; try done. destruct (utf8_valid s); [done|by intros [= <-]]. }
  assert (∀ names row i e, map_cols row i names = Err e → e = rule_error) as Hc.
  { clear names. induction names as [|n names IH]; intros row i e; cbn; [done|].
    destruct (row !! i) as [v|]; cbn; [|by intros [= <-]].
    destruct (map_value n v) as [f|e'] eqn:He; cbn; [|intros [= <-]; by eapply Hv].
    destruct (map_cols row (S i) names) eqn:Hr; cbn; [done|]. intros [= <-]. by eapply IH. }
  induction steps as [|[vals|err] steps IH]; cbn [map_rows map_err mbind result_bind].
  - constructor.
  - unfold map_row. destruct (map_cols vals 0 names) as [row|e] eqn:Hr; cbn [mbind result_bind].
    + destruct (map_rows names steps) as [rows|e]; cbn [mbind result_bind].
      * constructor; [|done]. apply map_cols_ok in Hr as (H1 & H2 & H3). by exists vals.
      * destruct IH as [-> IH]. split; [done|by apply Exists_cons_tl].
    + split; [by eapply Hc|]. apply Exists_cons_hd. intros ? [= <-].
      pose proof (map_cols_is_ok vals 0 names) as Hi. rewrite Hr in Hi. cbn in Hi. rewrite drop_0 in Hi.
      destruct (decide (length vals < length names)) as [|Hge]; [by left|right]. intros Hall.
      assert (false = true) by (apply Hi; split; [lia|done]). done.
  - split; [done|]. by apply Exists_cons_hd.
Qed.

(** ** Queries *)

Section Queries.
Context {C : Type → Type → Type} {P L : Type} `{LruLaws C} `{Hasher} `{SqliteLib L}.
Abbreviation World := (World C P (Outside L)).
Abbreviation M := (St World).
Implicit Types (w : World) (conn : Connection).

Lemma run_query_first (names : Stmt → M (KnowledgeResult (list str))) conn sql params w rows w' :
  run_query names map_rows conn sql params w = (Ok rows, w') →
  run_query names map_first conn sql params w = (Ok (first_of rows), w').
Proof.
  unfold run_query, bind_res, mbind, st_bind.
  destruct (call rule_error (prepare_cached conn sql) w) as [[stmt|] w1]; [|done].
  destruct (names stmt w1) as [[ns|] w2]; [|done].
  destruct (call rule_error (stmt_query stmt params) w2) as [[steps|] w3]; [|done].
  unfold mret, st_ret. destruct (map_rows ns steps) as [rows'|] eqn:Hm; [|done]. intros [= <- <-].
  f_equal. destruct steps as [|step steps]; cbn [map_rows map_first] in *; [by injection Hm as <-|].
  destruct (map_err _ step) as [vals|]; [|done]. cbn in *. destruct (map_row vals ns); [|done]. cbn in *.
  destruct (map_rows ns steps); [|done]. by injection Hm as <-.
Qed.

Lemma with_pool_first pool (f : Connection → M (KnowledgeResult (list RowData)))
    (g : Connection → M (KnowledgeResult RowData)) w rows w' :
  (∀ c w rows w', f c w = (Ok rows, w') → g c w = (Ok (first_of rows), w')) →
  with_pool pool f w = (Ok rows, w') → with_pool pool g w = (Ok (first_of rows), w').
Proof.
  intros Hfg. unfold with_pool, bind_res, mbind, st_bind.
  destruct (call res_error (pool_get pool) w) as [[c|] w1]; [|done].
  destruct (on_lib (register_functions c) w1) as [[] w2]. apply Hfg.
Qed.

Lemma with_tls_first db (f : Connection → M (KnowledgeResult (list RowData)))
    (g : Connection → M (KnowledgeResult RowData)) w rows w' :
  (∀ c w rows w', f c w = (Ok rows, w') → g c w = (Ok (first_of rows), w')) →
  ThreadClone.with_tls_conn db f w = (Ok rows, w') →
  ThreadClone.with_tls_conn db g w = (Ok (first_of rows), w').
Proof.
  intros Hfg. unfold ThreadClone.with_tls_conn, bind_res, mbind, st_bind, gets.
  destruct (TLS_DB (ext w) !! thread (ext w)) as [state|].
  - destruct (ThreadClone.should_rebuild db _); [|apply Hfg].
    destruct (ThreadClone.rebuild db w) as [[c|] w1]; [apply Hfg|done].
  - destruct (ThreadClone.rebuild db w) as [[c|] w1]; [apply Hfg|done].
Qed.
End Queries.

(** A first-row query agrees with the full one: when a query of a SQLite
    provider succeeds with some rows, the first-row query and the query with
    named fields succeed with the first of them, or with no field, and with the
    same effects. *)
Theorem first_row_agrees {C L} `{LruOps C, Hasher, SqliteLib L} (p : SqliteProvider L) sql params
    (w : World C (SqliteProvider L) (Outside L)) :
  (∀ rows w', provider_query p sql w = (Ok rows, w') →
              provider_query_row p sql w = (Ok (first_of rows), w'))
  ∧ (∀ rows w', provider_query_fields p sql params w = (Ok rows, w') →
                provider_query_named_fields p sql params w = (Ok (first_of rows), w')).
Proof.
  split; intros rows w'.
  - destruct p as [db|pool scope]; cbn.
    + apply with_tls_first. intros c. apply run_query_first.
    + apply with_pool_first. intros c. apply run_query_first.
  - destruct p as [db|pool scope]; cbn;
      [unfold ThreadClone.query_named_fields_with_scope|unfold MemDB.query_named_fields_with_scope];
      unfold fmap, st_fmap; by intros ->.
Qed.

(** ** The column-name cache *)

Section Cached.
Context {C : Type → Type → Type} {P L : Type} `{LruOps C} `{Hasher} `{SqliteLib L}.
Abbreviation World := (World C P (Outside L)).
Abbreviation M := (St World).
Implicit Types (w : World) (conn : Connection) (scope : MetadataCacheScope).

(** worlds that differ in counters, telemetry and the cache of names only *)
Definition same_outside w w' : Prop := frame w w' ∧ now w = now w' ∧ ext w = ext w'.

#[export] Instance same_outside_preorder : PreOrder same_outside.
Proof.
  split; [intros w; by split_and!|]. intros w1 w2 w3 (? & ? & ?) (? & ? & ?).
  split_and!; [by etransitivity|congruence|congruence].
Qed.

Lemma same_outside_record c w : same_outside w (record c w).2.
Proof. split_and!; [split; [apply same_rt_counters|done]|done|done]. Qed.
Lemma same_outside_report e w : same_outside w (report e w).2.
Proof. by split_and!. Qed.

Lemma same_outside_names v w : same_outside w (set_colnames v w).
Proof. by split_and!. Qed.

(** the names the cache holds for the query, if any, are the statement's *)
Definition coherent scope sql (names : KnowledgeResult (list str)) w : Prop :=
  ∀ cached, lru_peek (metadata_cache_key_for_scope scope sql) (colnames w) = Some cached → names = Ok cached.

Lemma metadata_cache_spec scope kind sql (names : KnowledgeResult (list str)) w :
  coherent scope sql names w →
  ∃ w', metadata_cache_get_or_try_init_for_scope scope kind sql (mret (Some <$> names)) w = (names, w')
        ∧ same_outside w w'.
Proof.
  intros Hco. unfold metadata_cache_get_or_try_init_for_scope, bind_res.
  unfold mbind at 1, st_bind at 1, gets.
  destruct (lru_peek _ _) as [cached|] eqn:Hp.
  - rewrite (Hco _ Hp). eexists. split; [reflexivity|].
    etransitivity; [apply same_outside_record|apply same_outside_report].
  - destruct names as [ns|e]; (eexists; split; [reflexivity|]).
    + etransitivity; [|by apply same_outside_names].
      etransitivity; [apply same_outside_record|apply same_outside_report].
    + etransitivity; [apply same_outside_record|apply same_outside_report].
Qed.
End Cached.

Section CachedQueries.
Context {C : Type → Type → Type} {P L : Type} `{LruOps C} `{Hasher} `{SqliteLib L}.
Abbreviation World := (World C P (Outside L)).
Abbreviation M := (St World).
Implicit Types (w : World) (conn : Connection) (scope : MetadataCacheScope).

(** a library call reads and changes the library's state only *)
Lemma call_same {A} e (m : St L (Result str A)) w w' :
  same_outside w w' → (call e m w).1 = (call e m w').1 ∧ same_outside (call e m w).2 (call e m w').2.
Proof.
  intros ([Hr Ht] & Hn & He). unfold call, on_lib, fmap, st_fmap. rewrite He.
  destruct (m (lib (ext w'))) as [r l]. cbn. split; [done|].
  split_and!; [split; [exact Hr|exact Ht]|exact Hn|done].
Qed.

Lemma run_query_eq {A} (names : Stmt → M (KnowledgeResult (list str)))
    (collect : list str → list (Result str (list SqlValue)) → KnowledgeResult A) conn sql params w :
  run_query names collect conn sql params w
  = match call rule_error (prepare_cached conn sql) w with
    | (Ok stmt, w1) =>
        match names stmt w1 with
        | (Ok ns, w2) =>
            match call rule_error (stmt_query stmt params) w2 with
            | (Ok rows, w3) => (collect ns rows, w3)
            | (Err e, w3) => (Err e, w3)
            end
        | (Err e, w2) => (Err e, w2)
        end
    | (Err e, w1) => (Err e, w1)
    end.
Proof.
  unfold run_query, bind_res, mbind, st_bind. destruct (call _ _ w) as [[stmt|] w1]; [|done].
  destruct (names stmt w1) as [[ns|] w2]; [|done]. by destruct (call _ _ w2) as [[rows|] w3].
Qed.

Lemma run_query_same {A} (names : Stmt → M (KnowledgeResult (list str)))
    (collect : list str → list (Result str (list SqlValue)) → KnowledgeResult A) conn sql params w :
  (∀ stmt l, prepare_cached conn sql (lib (ext w)) = (Ok stmt, l) →
     let w1 := set_ext (set_lib l (ext w)) w in
     (names stmt w1).1 = Ok (extract_col_names stmt) ∧ same_outside w1 (names stmt w1).2) →
  (run_query names collect conn sql params w).1 = (run_query uncached collect conn sql params w).1
  ∧ same_outside (run_query uncached collect conn sql params w).2 (run_query names collect conn sql params w).2.
Proof.
  intros Hn. rewrite !run_query_eq. unfold call at 1 3 5 7, on_lib, fmap, st_fmap.
  destruct (prepare_cached conn sql (lib (ext w))) as [[stmt|err] l] eqn:Hp; cbn [map_err]; [|done].
  specialize (Hn stmt l eq_refl) as [Hv Hs]. cbv zeta in Hs, Hv.
  set (w1 := set_ext (set_lib l (ext w)) w) in *.
  unfold uncached, mret, st_ret. destruct (names stmt w1) as [r w2]. cbn in Hv, Hs. subst r.
  pose proof (call_same rule_error (stmt_query stmt params) w1 w2 Hs) as [Hc1 Hc2].
  destruct (call rule_error (stmt_query stmt params) w1) as [r3 w3],
    (call rule_error (stmt_query stmt params) w2) as [r4 w4]. cbn in Hc1, Hc2. subst r4.
  by destruct r3.
Qed.

Lemma all_names_extract stmt ns : all_names (column_names stmt) = Ok ns → extract_col_names stmt = ns.
Proof.
  unfold extract_col_names. revert ns. induction (column_names stmt) as [|[n|] l IH]; intros ns; cbn; [by intros [= <-]| |done].
  destruct (all_names l); [|done]. cbn. intros [= <-]. f_equal. by apply IH.
Qed.

(** The column-name cache is transparent as long as it is coherent: while
    the names it holds under the query's key are the statement's own and these
    can be read, the cached queries answer what the uncached ones do, with the
    same effects but for counters, telemetry and the cache itself. *)
Theorem cached_query_agrees conn scope kind sql params w :
  (∀ stmt l, prepare_cached conn sql (lib (ext w)) = (Ok stmt, l) →
     is_ok (all_names (column_names stmt)) = true ∧ coherent scope sql (all_names (column_names stmt)) w) →
  (query_cached_with_scope conn scope kind sql params w).1 = (query conn sql params w).1
  ∧ (query_first_row_cached_with_scope conn scope kind sql params w).1 = (query_first_row conn sql params w).1
  ∧ ext (query_cached_with_scope conn scope kind sql params w).2 = ext (query conn sql params w).2.
Proof.
  intros Hco.
  assert (∀ stmt l, prepare_cached conn sql (lib (ext w)) = (Ok stmt, l) →
     let w1 := set_ext (set_lib l (ext w)) w in
     (extract_col_names_cached_with_scope stmt scope kind sql w1).1 = Ok (extract_col_names stmt)
     ∧ same_outside w1 (extract_col_names_cached_with_scope stmt scope kind sql w1).2) as Hn.
  { intros stmt l Hp w1. destruct (Hco stmt l Hp) as [Hok Hc].
    destruct (all_names (column_names stmt)) as [ns|] eqn:Hns; [|done].
    destruct (metadata_cache_spec (C := C) (P := P) scope kind sql (Ok ns) w1 Hc) as (w2 & Hm & Hs).
    unfold extract_col_names_cached_with_scope. rewrite Hns, (all_names_extract _ _ Hns). by rewrite Hm. }
  destruct (run_query_same (λ stmt, extract_col_names_cached_with_scope stmt scope kind sql)
              map_rows conn sql params w Hn) as (Hr & _ & _ & He).
  destruct (run_query_same (λ stmt, extract_col_names_cached_with_scope stmt scope kind sql)
              map_first conn sql params w Hn) as (Hf & _). split_and!; [done|done|by symmetry].
Qed.
End CachedQueries.

(** ** SQLite providers as providers of the runtime *)

Section Frame.
Context {C : Type → Type → Type} {P L : Type} `{LruOps C} `{Hasher} `{SqliteLib L}.
Abbreviation World := (World C P (Outside L)).
Abbreviation M := (St World).
Implicit Types (w : World) (conn : Connection).

Lemma framed_ret {A} (a : A) : framed (mret a : M A).
Proof. intros w. reflexivity. Qed.
Lemma framed_bind {A B} (m : M A) (k : A → M B) : framed m → (∀ a, framed (k a)) → framed (m ≫= k).
Proof.
  intros Hm Hk w. unfold mbind, st_bind. specialize (Hm w). destruct (m w) as [a w1].
  etransitivity; [exact Hm|apply Hk].
Qed.
Lemma framed_bind_res {A B} (m : M (KnowledgeResult A)) (k : A → M (KnowledgeResult B)) :
  framed m → (∀ a, framed (k a)) → framed (bind_res m k).
Proof. intros Hm Hk. apply framed_bind; [done|]. intros [a|e]; [apply Hk|apply framed_ret]. Qed.
Lemma framed_on_lib {A} (m : St L A) : framed (on_lib (C := C) (P := P) m).
Proof. intros w. unfold on_lib. destruct (m (lib (ext w))). by split. Qed.
Lemma framed_call {A} e (m : St L (Result str A)) : framed (call (C := C) (P := P) e m).
Proof. apply framed_fmap, framed_on_lib. Qed.
Lemma framed_gets {A} (f : World → A) : framed (gets f).
Proof. intros w. reflexivity. Qed.
Lemma framed_ext (f : Outside L → Outside L) : framed (modify (λ w, set_ext (f (ext w)) w)).
Proof. intros w. by split. Qed.
Lemma framed_same (m : M unit) : (∀ w, same_outside w (m w).2) → framed m.
Proof. intros Hm w. apply Hm. Qed.

Lemma framed_metadata scope kind sql load :
  framed load → framed (metadata_cache_get_or_try_init_for_scope (C := C) (P := P) (E := Outside L) scope kind sql load).
Proof.
  intros Hl. unfold metadata_cache_get_or_try_init_for_scope. apply framed_bind; [apply framed_gets|].
  intros [names|]; (apply framed_bind; [apply framed_same, same_outside_record|intros _]);
    (apply framed_bind; [apply framed_same, same_outside_report|intros _]); [apply framed_ret|].
  apply framed_bind_res; [done|]. intros [names|]; [|apply framed_ret].
  apply framed_bind; [apply framed_same; intros w; apply same_outside_names|intros _; apply framed_ret].
Qed.

Lemma framed_run_query {A} (names : Stmt → M (KnowledgeResult (list str))) collect conn sql params :
  (∀ stmt, framed (names stmt)) → framed (run_query (A := A) names collect conn sql params).
Proof.
  intros Hn. unfold run_query. apply framed_bind_res; [apply framed_call|]. intros stmt.
  apply framed_bind_res; [apply Hn|]. intros ns. apply framed_bind_res; [apply framed_call|].
  intros rows. apply framed_ret.
Qed.

Lemma framed_scoped {A} collect conn scope kind sql params :
  framed (run_query (C := C) (P := P) (A := A)
            (λ stmt, extract_col_names_cached_with_scope stmt scope kind sql) collect conn sql params).
Proof. apply framed_run_query. intros stmt. apply framed_metadata, framed_ret. Qed.

Lemma framed_with_pool {A} pool (f : Connection → M (KnowledgeResult A)) :
  (∀ c, framed (f c)) → framed (with_pool pool f).
Proof.
  intros Hf. unfold with_pool. apply framed_bind_res; [apply framed_call|]. intros c.
  apply framed_bind; [apply framed_on_lib|]. intros _. apply Hf.
Qed.

Lemma framed_rebuild db : framed (ThreadClone.rebuild (C := C) (P := P) db).
Proof.
  unfold ThreadClone.rebuild. do 4 (apply framed_bind_res; [apply framed_call|intros ?]).
  apply framed_bind; [apply framed_on_lib|intros _].
  apply framed_bind; [apply framed_ext|intros _]. apply framed_ret.
Qed.

Lemma framed_with_tls {A} db (f : Connection → M (KnowledgeResult A)) :
  (∀ c, framed (f c)) → framed (ThreadClone.with_tls_conn db f).
Proof.
  intros Hf. unfold ThreadClone.with_tls_conn. apply framed_bind; [apply framed_gets|].
  intros [state|]; [case_match; [|apply Hf]|];
    apply framed_bind_res; try apply framed_rebuild; apply Hf.
Qed.
End Frame.

Section Provider.
Context {C : Type → Type → Type} {L : Type} `{LruOps C} `{Hasher} `{SqliteLib L}.

Lemma framed_provider_query {P} p sql : framed (provider_query (C := C) (P := P) (L := L) p sql).
Proof. destruct p as [db|pool scope]; [apply framed_with_tls|apply framed_with_pool]; intros c; apply framed_scoped. Qed.
Lemma framed_provider_query_fields {P} p sql ps : framed (provider_query_fields (C := C) (P := P) (L := L) p sql ps).
Proof. destruct p as [db|pool scope]; [apply framed_with_tls|apply framed_with_pool]; intros c; apply framed_scoped. Qed.
Lemma framed_provider_query_row {P} p sql : framed (provider_query_row (C := C) (P := P) (L := L) p sql).
Proof. destruct p as [db|pool scope]; [apply framed_with_tls|apply framed_with_pool]; intros c; apply framed_scoped. Qed.
Lemma framed_provider_query_named_fields {P} p sql ps :
  framed (provider_query_named_fields (C := C) (P := P) (L := L) p sql ps).
Proof.
  destruct p as [db|pool scope]; cbn; apply framed_fmap; [apply framed_with_tls|apply framed_with_pool];
    intros c; apply framed_scoped.
Qed.

(** The SQLite providers keep the promise the runtime's theorems rest on:
    whatever they are asked, they change counters, telemetry, the column-name
    cache and what lies outside, and nothing else of the runtime; and their
    asynchronous methods are the synchronous ones. *)
Theorem sqlite_provider_framed :
  ProviderFrame C (SqliteProvider L) (Outside L)
  ∧ async_methods_agree (C := C) (ProviderExecutor0 := sqlite_provider (L := L)).
Proof.
  split; [split; intros|by split_and!];
    [apply framed_provider_query|apply framed_provider_query_fields
    |apply framed_provider_query_row|apply framed_provider_query_named_fields
    |apply framed_provider_query|apply framed_provider_query_fields
    |apply framed_provider_query_row|apply framed_provider_query_named_fields].
Qed.
End Provider.

(** ** Snapshots of the threads *)

Section Snapshots.
Context {C : Type → Type → Type} {P L : Type} `{LruOps C} `{Hasher} `{SqliteLib L}.
Abbreviation World := (World C P (Outside L)).
Abbreviation M := (St World).
Implicit Types (w : World) (conn : Connection) (db : ThreadClonedMDB) (t : nat).
Import ThreadClone.

Definition same_cells w w' : Prop :=
  TLS_DB (ext w') = TLS_DB (ext w) ∧ thread (ext w') = thread (ext w).

(** thread [t] holds a snapshot for [db], reached through [conn] *)
Definition serves t db conn w : Prop :=
  ∃ s, TLS_DB (ext w) !! t = Some s ∧ authority_path s = db_path db
       ∧ tls_generation s = db_generation db ∧ tls_conn s = conn.

Lemma serves_use {A} db conn (f : Connection → M (KnowledgeResult A)) w :
  serves (thread (ext w)) db conn w → with_tls_conn db f w = f conn w.
Proof.
  intros (s & Hs & Hp & Hg & <-). unfold with_tls_conn, mbind, st_bind, gets. rewrite Hs.
  unfold should_rebuild. rewrite Hp, Hg, N.eqb_refl. by rewrite bool_decide_true.
Qed.

Lemma serves_dec t db w : (∃ conn, serves t db conn w) ∨
  should_rebuild db (TLS_DB (ext w) !! t) = true.
Proof.
  unfold serves, should_rebuild. destruct (TLS_DB (ext w) !! t) as [s|]; [|by right].
  destruct (bool_decide_reflect (authority_path s = db_path db)); [|by right].
  destruct (N.eqb_spec (tls_generation s) (db_generation db)); [|by right]. left. by exists (tls_conn s), s.
Qed.

Lemma rebuild_use {A} db (f : Connection → M (KnowledgeResult A)) w :
  should_rebuild db (TLS_DB (ext w) !! thread (ext w)) = true →
  with_tls_conn db f w = bind_res (rebuild db) f w.
Proof.
  intros Hr. unfold with_tls_conn. unfold mbind at 1, st_bind at 1, gets.
  destruct (TLS_DB (ext w) !! thread (ext w)); [by rewrite Hr|done].
Qed.

Lemma call_cells {A} e (m : St L (Result str A)) w : same_cells w (call e m w).2.
Proof. unfold call, on_lib, fmap, st_fmap. by destruct (m (lib (ext w))). Qed.

(** a copy succeeded: the file was opened, copied into a fresh database, and
    the thread's cell holds it; a failed one changes no cell *)
Lemma rebuild_spec db w :
  match rebuild db w with
  | (Ok conn, w') =>
      serves (thread (ext w)) db conn w' ∧ thread (ext w') = thread (ext w)
      ∧ (∀ t, t ≠ thread (ext w) → TLS_DB (ext w') !! t = TLS_DB (ext w) !! t)
      ∧ ∃ src l1 l2 l3 l4, open_read_only (db_path db) (lib (ext w)) = (Ok src, l1)
          ∧ open_in_memory l1 = (Ok conn, l2) ∧ backup_new src conn l2 = (Ok tt, l3)
          ∧ backup_run src conn l3 = (Ok tt, l4)
  | (Err _, w') => same_cells w w'
  end.
Proof.
  unfold rebuild, bind_res, mbind, st_bind, call, on_lib, fmap, st_fmap.
  destruct (open_read_only _ _) as [[src|] l1] eqn:H1'; cbn; [|by split].
  destruct (open_in_memory l1) as [[dst|] l2] eqn:H2'; cbn; [|by split].
  destruct (backup_new src dst l2) as [[[]|] l3] eqn:H3'; cbn; [|by split].
  destruct (backup_run src dst l3) as [[[]|] l4] eqn:H4'; cbn; [|by split].
  destruct (register_functions dst l4) as [[] l5]. cbn. split_and!; [|done| |].
  - eexists. split; [apply lookup_insert_eq|done].
  - intros t Ht. by rewrite lookup_insert_ne.
  - by exists src, l1, l2, l3, l4.
Qed.

(** what may happen elsewhere: other threads run, files and databases and the
    runtime change, and any thread asks for snapshots - thread [t] for this one
    only *)
Inductive step (t : nat) (db : ThreadClonedMDB) : World → World → Prop :=
| StepSwitch w t' :
    step t db w (set_ext {| lib := lib (ext w); thread := t'; TLS_DB := TLS_DB (ext w) |} w)
| StepLibrary w l : step t db w (set_ext (set_lib l (ext w)) w)
| StepRuntime w w' : ext w' = ext w → step t db w w'
| StepAsk {A} w db' (f : Connection → M (KnowledgeResult A)) :
    (∀ c w, same_cells w (f c w).2) →
    (thread (ext w) = t → db_path db' = db_path db ∧ db_generation db' = db_generation db) →
    step t db w (with_tls_conn db' f w).2.

Lemma serves_same t db db' conn w : db_path db' = db_path db → db_generation db' = db_generation db →
  serves t db conn w → serves t db' conn w.
Proof. intros Hp Hg (s & ? & ? & ? & ?). exists s. split_and!; congruence. Qed.

Lemma serves_cells t db conn w w' : same_cells w w' → serves t db conn w → serves t db conn w'.
Proof. intros [Hc _] (s & Hs & ?). exists s. by rewrite Hc. Qed.

Lemma step_serves t db conn w w' : step t db w w' → serves t db conn w → serves t db conn w'.
Proof.
  intros [w0 t'|w0 l|w0 w0' He|A w0 db' f Hf Hsame] Hs.
  - exact Hs.
  - exact Hs.
  - destruct Hs as (s & ?). exists s. by rewrite He.
  - destruct (decide (thread (ext w0) = t)) as [Ht|Ht].
    + destruct (Hsame Ht) as [Hp Hg]. rewrite (serves_use db' conn) by (rewrite Ht; by eapply serves_same).
      eapply serves_cells; [apply Hf|done].
    + destruct (serves_dec (thread (ext w0)) db' w0) as [[c Hc]|Hr].
      * rewrite (serves_use db' c) by done. eapply serves_cells; [apply Hf|done].
      * rewrite rebuild_use by done. unfold bind_res, mbind, st_bind. pose proof (rebuild_spec db' w0) as Hb.
        destruct (rebuild db' w0) as [[c|e] w1].
        -- destruct Hb as (_ & _ & Hoth & _). eapply serves_cells; [apply Hf|].
           destruct Hs as (s & Hs & ?). exists s. by rewrite Hoth.
        -- by eapply serves_cells.
Qed.

(** C16. Each thread reads one snapshot per generation.  A query that succeeds
    ran on a copy of the authority file made for its path and generation -
    made in this very call, unless the thread has one already; and whatever
    happens afterwards, files rebuilt and other threads asking included, the
    next query of the thread for the same path and generation runs on the same
    copy, as long as the thread has asked for no other. *)
Theorem thread_snapshots {A} t db (f : Connection → M (KnowledgeResult A)) w a w1 w2 :
  (∀ c w, same_cells w (f c w).2) → thread (ext w) = t →
  with_tls_conn db f w = (Ok a, w1) → rtc (step t db) w1 w2 → thread (ext w2) = t →
  ∃ conn, (∃ w', f conn w' = (Ok a, w1))
    ∧ (serves t db conn w
       ∨ ∃ src l1 l2 l3 l4, open_read_only (db_path db) (lib (ext w)) = (Ok src, l1)
          ∧ open_in_memory l1 = (Ok conn, l2) ∧ backup_new src conn l2 = (Ok tt, l3)
          ∧ backup_run src conn l3 = (Ok tt, l4))
    ∧ ∀ B (g : Connection → M (KnowledgeResult B)), with_tls_conn db g w2 = g conn w2.
Proof.
  intros Hf Ht Hw Hsteps Ht2.
  assert (∃ conn, (∃ w', f conn w' = (Ok a, w1)) ∧ serves t db conn w1
    ∧ (serves t db conn w ∨ ∃ src l1 l2 l3 l4, open_read_only (db_path db) (lib (ext w)) = (Ok src, l1)
          ∧ open_in_memory l1 = (Ok conn, l2) ∧ backup_new src conn l2 = (Ok tt, l3)
          ∧ backup_run src conn l3 = (Ok tt, l4))) as (conn & Hrun & Hs1 & Hor).
  { destruct (serves_dec t db w) as [[c Hc]|Hr]; rewrite <-Ht in *.
    - rewrite (serves_use db c) in Hw by done. exists c. split_and!; [by exists w| |by left].
      eapply serves_cells; [|done]. specialize (Hf c w). by rewrite Hw in Hf.
    - rewrite rebuild_use in Hw by done. unfold bind_res, mbind, st_bind in Hw.
      pose proof (rebuild_spec db w) as Hb. destruct (rebuild db w) as [[c|e] w0]; [|done].
      destruct Hb as (Hs & _ & _ & Hcopy). exists c. split_and!; [by exists w0| |by right].
      eapply serves_cells; [|exact Hs]. specialize (Hf c w0). by rewrite Hw in Hf. }
  exists conn. split_and!; [done|done|]. intros B g. apply serves_use. rewrite Ht2. clear Hw Hrun Hor Ht2.
  induction Hsteps as [|w1 w2 w3 Hstep _ IH]; [done|]. apply IH. by eapply step_serves.
Qed.
End Snapshots.

(** ** Loading CSV files *)

Section TableLoad.
Context {C : Type → Type → Type} {P L : Type} `{LruOps C} `{Hasher} `{SqliteLib L} `{CsvErrors}.
Abbreviation World := (World C P (Outside L)).
Abbreviation M := (St World).
Import TableLoad.

(** the rows of the records up to the first one that gives none, and why *)
Fixpoint readable_rows (rdr : Loader.Reader) (cols : list nat) (idx : nat) (records : list (option (list str)))
  : list (list str) * option KnowledgeError :=
  match records with
  | [] => ([], None)
  | None :: _ =>
      ([], Some (know_err from_rule [F "read csv record failed at line "; Num (N.of_nat (S idx)); F ": ";
                                     D (record_error rdr idx)]))
  | Some record :: records =>
      match mapM (λ i, record !! i) cols with
      | Some row => let '(rows, e) := readable_rows rdr cols (S idx) records in (row :: rows, e)
      | None => ([], Some (short_record (S idx) (default 0 (max_col cols)) (length record)))
      end
  end.

Fixpoint exec_rows (stmt : Stmt) (rows : list (list str)) : M (KnowledgeResult unit) :=
  match rows with
  | [] => mret (Ok tt)
  | row :: rows => _ ←? call rule_error (stmt_execute stmt row); exec_rows stmt rows
  end.

(** insert the rows, then report why reading stopped, if it did *)
Definition insert_all (stmt : Stmt) (rows : list (list str) * option KnowledgeError)
  : M (KnowledgeResult nat) :=
  _ ←? exec_rows stmt rows.1;
  mret (match rows.2 with None => Ok (length rows.1) | Some e => Err e end).

Lemma foldl_max_le l c m : m ∈ c :: l → m ≤ foldl Nat.max c l.
Proof.
  revert c m. induction l as [|x l IH]; intros c m; cbn [foldl].
  - rewrite list_elem_of_singleton. lia.
  - pose proof (IH (Nat.max c x) _ (list_elem_of_here _ _)).
    rewrite !elem_of_cons. intros [->|[->|Hin]]; [lia..|]. apply IH. by right.
Qed.

Lemma foldl_max_in l c : foldl Nat.max c l ∈ c :: l.
Proof.
  revert c. induction l as [|x l IH]; intros c; cbn [foldl]; [by left|].
  specialize (IH (Nat.max c x)). rewrite !elem_of_cons in *. destruct IH as [->|]; [|by right; right].
  destruct (Nat.max_spec c x) as [[_ ->]|[_ ->]]; auto.
Qed.

(** the check of the largest index is the check of all of them *)
Lemma pick_spec line record cols :
  match mapM (λ i, record !! i) cols with
  | Some row => pick line record cols = Ok row ∧ ∀ m, max_col cols = Some m → m < length record
  | None => ∃ m, max_col cols = Some m ∧ length record ≤ m
  end.
Proof.
  assert (match mapM (λ i, record !! i) cols with
          | Some row => pick line record cols = Ok row ∧ ∀ i, i ∈ cols → i < length record
          | None => ∃ i, i ∈ cols ∧ length record ≤ i end) as Hall.
  { induction cols as [|i cols IH]; cbn; [split; [done|]; by intros i ?%not_elem_of_nil|].
    destruct (record !! i) as [v|] eqn:Hi; cbn.
    - destruct (mapM _ cols) as [row|]; cbn.
      + destruct IH as [-> IH]. split; [done|]. intros j [->|Hj]%elem_of_cons; [by apply lookup_lt_Some in Hi|by apply IH].
      + destruct IH as (j & Hj & ?). exists j. split; [by right|done].
    - exists i. split; [by left|by apply lookup_ge_None]. }
  destruct (mapM _ cols) as [row|].
  - destruct Hall as [-> Hall]. split; [done|]. intros m Hm. apply Hall.
    destruct cols as [|c cols]; [done|]. injection Hm as <-. apply foldl_max_in.
  - destruct Hall as (i & Hi & Hle). destruct cols as [|c cols]; [by apply not_elem_of_nil in Hi|].
    eexists. split; [done|]. etransitivity; [exact Hle|by apply foldl_max_le].
Qed.

Lemma load_records_spec stmt rdr cols max records k w :
  load_records (C := C) (P := P) stmt rdr cols max records k k w
  = (let '(rows, e) := readable_rows rdr cols k (take (max - k) records) in
     _ ←? exec_rows stmt rows;
     mret (match e with None => Ok (k + length rows) | Some e => Err e end)) w.
Proof.
  revert k w. induction records as [|record records IH]; intros k w; cbn [load_records].
  { rewrite take_nil. cbn. by rewrite Nat.add_0_r. }
  destruct (bool_decide_reflect (max ≤ k)) as [Hm|Hm].
  { replace (max - k) with 0 by lia. cbn. by rewrite Nat.add_0_r. }
  replace (max - k) with (S (max - S k)) by lia. cbn [take readable_rows].
  destruct record as [record|]; [|done].
  pose proof (pick_spec (S k) record cols) as Hp. destruct (mapM _ cols) as [row|].
  - destruct Hp as [-> Hp].
    assert (match max_col cols with
            | Some m => if bool_decide (length record ≤ m) then Some m else None
            | None => None end = None) as ->.
    { destruct (max_col cols) as [m|]; [|done]. rewrite bool_decide_false; [done|].
      specialize (Hp m eq_refl). lia. }
    destruct (readable_rows rdr cols (S k) (take (max - S k) records)) as [rows e] eqn:Hr.
    cbn [exec_rows length]. unfold bind_res, mbind, st_bind.
    destruct (call rule_error (stmt_execute stmt row) w) as [[[]|err] w1]; [|done].
    rewrite IH, Hr. unfold bind_res, mbind, st_bind.
    destruct (exec_rows stmt rows w1) as [[[]|err] w2]; [|done]. unfold mret, st_ret.
    by rewrite <-Nat.add_succ_comm.
  - destruct Hp as (m & Hm' & Hle). rewrite Hm'. rewrite bool_decide_true by done. done.
Qed.

(** C38. Loading a CSV file into a table: the rows of the first [max] records
    are inserted in order, up to a record that cannot be read or lacks a
    column; that record is the error, and the rows before it stay inserted;
    without such a record the number of rows is returned, at most [max].  A
    missing file loads nothing. *)
Theorem table_load_spec pool sql csv_path cols max :
  ∀ w, table_load (C := C) (P := P) pool sql csv_path cols max w
  = if Loader.file_exists csv_path then
      match Loader.csv_open csv_defaults csv_path with
      | Some rdr =>
          (c ←? call res_error (pool_get pool);
           stmt ←? call rule_error (prepare c sql);
           insert_all stmt (readable_rows rdr cols 0 (take max (Loader.csv_records rdr)))) w
      | None => (Err res_error, w)
      end
    else (Ok 0, w).
Proof.
  intros w. unfold table_load. destruct (Loader.file_exists csv_path); [|done]. cbn [negb].
  destruct (Loader.csv_open csv_defaults csv_path) as [rdr|]; [|done].
  unfold bind_res, mbind, st_bind. destruct (call res_error (pool_get pool) w) as [[c|] w1]; [|done].
  destruct (call rule_error (prepare c sql) w1) as [[stmt|] w2]; [|done].
  rewrite load_records_spec. rewrite Nat.sub_0_r. unfold insert_all.
  by destruct (readable_rows rdr cols 0 _) as [rows e].
Qed.
End TableLoad.

(** ** A concrete library

    Databases by number, each with its column names and rows; the connection
    [None] is the authority file. *)
Record DemoSql := {
  dbs : gmap nat (list str * list (list SqlValue));
  fresh_db : nat;
  authority : list str * list (list SqlValue);
}.

Definition content (conn : option nat) (l : DemoSql) : list str * list (list SqlValue) :=
  match conn with Some i => default ([], []) (dbs l !! i) | None => authority l end.
Definition set_db (i : nat) (c : list str * list (list SqlValue)) (l : DemoSql) : DemoSql :=
  {| dbs := <[i := c]> (dbs l); fresh_db := fresh_db l; authority := authority l |}.
Definition new_db : St DemoSql (Result str (option nat)) := λ l,
  (Ok (Some (fresh_db l)), {| dbs := dbs l; fresh_db := S (fresh_db l); authority := authority l |}).

#[global] Instance demo_sql : SqliteLib DemoSql := {|
  Connection := option nat;
  Pool := nat;
  Stmt := option nat * list str;
  pool_build _ _ := λ l, (Ok (fresh_db l), (new_db l).2);
  pool_get p := mret (Ok (Some p));
  register_functions _ := mret tt;
  conn_execute _ _ := mret (Ok tt);
  query_count c _ := gets (λ l, Ok (N.of_nat (length (content c l).2)));
  prepare_cached c _ := gets (λ l, Ok (c, (content c l).1));
  prepare c _ := gets (λ l, Ok (c, (content c l).1));
  column_names s := Ok <$> s.2;
  stmt_query s _ := gets (λ l, Ok (Ok <$> (content s.1 l).2));
  stmt_execute s row := λ l,
    match s.1 with
    | Some i => (Ok tt, set_db i ((content s.1 l).1, (content s.1 l).2 ++ [SqlText <$> row]) l)
    | None => (Err [], l)
    end;
  open_read_only _ := mret (Ok None);
  open_in_memory := new_db;
  open_with_flags _ _ := mret (Ok None);
  execute_batch _ _ := mret (Ok tt);
  backup_new _ _ := mret (Ok tt);
  backup_run src dst := λ l,
    match dst with Some i => (Ok tt, set_db i (content src l) l) | None => (Err [], l) end;
|}.

Definition demo_table : list str * list (list SqlValue) :=
  ([lit "id"; lit "name"], [[SqlInteger 1; SqlText (lit "alpha")]; [SqlInteger 2; SqlText (lit "beta")]]).
Definition demo_outside : Outside DemoSql :=
  {| lib := {| dbs := {[ 0 := demo_table; 1 := ([lit "id"], [[SqlInteger 7]]) ]}; fresh_db := 2;
               authority := demo_table |};
     thread := 0; TLS_DB := ∅ |}.
Definition demo_sqlite : World ListLru.t (SqliteProvider DemoSql) (Outside DemoSql) :=
  world_new 5000000 demo_outside.
Definition demo_db : ThreadClonedMDB := ThreadClone.from_authority_with_generation (lit "a.sqlite") 1.

Definition demo_conn : @Connection DemoSql demo_sql := Some 0.

Lemma first_row_agrees_witness :
  ∃ w', provider_query_row (ThreadProvider demo_db) (lit "select") demo_sqlite
        = (Ok [from_int (lit "id") 1; from_chars (lit "name") (lit "alpha")], w').
Proof.
  destruct (provider_query (ThreadProvider demo_db) (lit "select") demo_sqlite) as [r w'] eqn:Hq.
  assert (r = Ok [[from_int (lit "id") 1; from_chars (lit "name") (lit "alpha")];
                  [from_int (lit "id") 2; from_chars (lit "name") (lit "beta")]]) as ->.
  { apply (f_equal fst) in Hq. cbn [fst] in Hq. rewrite <-Hq. vm_compute. reflexivity. }
  exists w'. exact (proj1 (first_row_agrees (ThreadProvider demo_db) (lit "select") [] demo_sqlite) _ _ Hq).
Defined.

Lemma cached_query_agrees_witness :
  let scope := metadata_scope demo_db in
  (query_cached_with_scope demo_conn scope None (lit "select") no_params demo_sqlite).1
  = Ok [[from_int (lit "id") 1; from_chars (lit "name") (lit "alpha")];
        [from_int (lit "id") 2; from_chars (lit "name") (lit "beta")]].
Proof.
  intros scope. destruct (cached_query_agrees demo_conn scope None (lit "select") no_params demo_sqlite) as (Hq & _).
  - intros stmt l [= <- <-]. split; [reflexivity|]. intros cached Hc. vm_compute in Hc. discriminate Hc.
  - rewrite Hq. vm_compute. reflexivity.
Defined.

Lemma thread_snapshots_witness :
  let ask := λ conn : @Connection _ demo_sql, SqliteDb.query conn (lit "select") no_params in
  let w1 := (ThreadClone.with_tls_conn demo_db ask demo_sqlite).2 in
  let w2 := set_ext (set_lib {| dbs := dbs (lib (ext w1)); fresh_db := 9; authority := ([], []) |} (ext w1)) w1 in
  ∃ conn, ∀ B (g : @Connection _ demo_sql → St _ (KnowledgeResult B)),
    ThreadClone.with_tls_conn demo_db g w2 = g conn w2.
Proof.
  intros ask w1 w2.
  destruct (ThreadClone.with_tls_conn demo_db ask demo_sqlite) as [r w1'] eqn:Hw.
  assert (∃ a, r = Ok a) as [a ->].
  { apply (f_equal fst) in Hw. cbn [fst] in Hw. eexists. rewrite <-Hw. vm_compute. reflexivity. }
  assert (w1 = w1') as Hw1 by reflexivity.
  destruct (thread_snapshots 0 demo_db ask demo_sqlite a w1' w2) as (conn & _ & _ & Hg).
  - intros c w. unfold ask, SqliteDb.query. rewrite run_query_eq. unfold call, on_lib, fmap, st_fmap. cbn.
    by split.
  - reflexivity.
  - exact Hw.
  - rewrite <-Hw1. eapply rtc_l; [apply StepLibrary|apply rtc_refl].
  - unfold w2. rewrite Hw1. apply (f_equal snd) in Hw. cbn [snd] in Hw. rewrite <-Hw. vm_compute. reflexivity.
  - by exists conn.
Defined.

(** The column names are cached under the runtime's current scope whatever
    database is asked: two in-memory databases asked the same query share
    them, and the second one's row comes back under the first one's names, or
    not at all. *)
Lemma names_of_another_database :
  let sql := lit "select * from t" in
  let w1 := (MemDB.query (P := SqliteProvider DemoSql) 1 sql demo_sqlite).2 in
  (MemDB.query 0 sql w1).1 = Ok [[from_int (lit "id") 1]; [from_int (lit "id") 2]]
  ∧ (MemDB.query 0 sql demo_sqlite).1
    = Ok [[from_int (lit "id") 1; from_chars (lit "name") (lit "alpha")];
          [from_int (lit "id") 2; from_chars (lit "name") (lit "beta")]]
  ∧ is_ok (MemDB.query 1 sql (MemDB.query (P := SqliteProvider DemoSql) 0 sql demo_sqlite).2).1 = false.
Proof. cbv zeta. split_and!; vm_compute; reflexivity. Qed.
