(* ===== verification/SqlDriversFacts.v ===== *)
(** * Properties of the SQL drivers

    What each database type is read as, the typing of rows, the contract of the
    crate's providers with the runtime, first rows, and what a successful
    connect has checked. *)
From S2P Require Import Prelude Errors RustStr Model Lru SqlRoute SqlRewrite Runtime Redis SqliteDb Facade SqlDrivers.
From S2P Require Import RuntimeFacts SqliteFacts.
From S2P Require Loader ProviderConfig.

(** ** Values by their database type *)

(** how a value is read *)
Inductive Reader :=
| RdBool
| RdBoolInt
| RdInt (bits : nat)
| RdU64
| RdOid
| RdF32
| RdF64
| RdShown (s : Shown)
| RdBytes
| RdText
| RdTextOrBytes.

Section Values.
Context {R} `{SqlxRow R}.
Implicit Types (row : R) (idx : nat) (name ty : str).

Definition read (r : Reader) row idx name : Result str DataField :=
  match r with
  | RdBool => from_bool name <$> try_bool row idx
  | RdBoolInt =>
      match try_int 8 row idx with
      | Ok v => Ok (from_int name v)
      | Err _ => (λ b : bool, from_int name (if b then 1 else 0)) <$> try_bool row idx
      end
  | RdInt bits => from_int name <$> try_int bits row idx
  | RdU64 =>
      (λ v, if (v <=? Z.to_N i64_max)%N then from_int name (Z.of_N v) else from_chars name (dec v))
        <$> try_u64 row idx
  | RdOid => (λ v, from_int name (Z.of_N v)) <$> try_oid row idx
  | RdF32 => (λ v, from_float name (f64_from_f32 v)) <$> try_f32 row idx
  | RdF64 => from_float name <$> try_f64 row idx
  | RdShown s => from_chars name <$> try_shown s row idx
  | RdBytes => (λ v, from_chars name (lit "0x" ++ bytes_to_hex v)) <$> try_bytes row idx
  | RdText => from_chars name <$> try_string row idx
  | RdTextOrBytes =>
      match try_string row idx with
      | Ok v => Ok (from_chars name v)
      | Err _ => (λ v, from_chars name (lit "0x" ++ bytes_to_hex v)) <$> try_bytes row idx
      end
  end.

(** *** Tables of types *)

Abbreviation Table := (list (string * Reader)).

Fixpoint lookup_type (types : Table) ty : option Reader :=
  match types with
  | [] => None
  | (n, r) :: types => if bool_decide (ty = lit n) then Some r else lookup_type types ty
  end.

Lemma lookup_type_app t1 t2 ty :
  lookup_type (t1 ++ t2) ty = match lookup_type t1 ty with Some r => Some r | None => lookup_type t2 ty end.
Proof. induction t1 as [|[n r] t1 IH]; [done|]. cbn. by case_bool_decide. Qed.

Definition same (r : Reader) : list string → Table := fmap (λ n, (n, r)).

Lemma lookup_same r names ty :
  lookup_type (same r names) ty = if bool_decide (ty ∈ lit <$> names) then Some r else None.
Proof.
  induction names as [|n names IH]; [done|]. cbn. rewrite IH.
  destruct (bool_decide_reflect (ty = lit n)) as [->|Hne].
  - by rewrite bool_decide_true by left.
  - apply (f_equal (λ b : bool, if b then Some r else None)), bool_decide_ext.
    rewrite elem_of_cons. naive_solver.
Qed.

(** reading a value under its name, null apart *)
Definition read_value (decode_err : str → KnowledgeError) (r : Reader) row idx name : KnowledgeResult DataField :=
  is_null ← map_err decode_err (try_get_raw row idx);
  if is_null : bool then Ok (field_new DtDefault name Null) else map_err decode_err (read r row idx name).

Section Decoders.
Context (decode_err : str → KnowledgeError).

Definition decoder_of row idx name ty (types : Table) : Decoded :=
  match lookup_type types ty with
  | Some r => Some <$> map_err decode_err (read r row idx name)
  | None => Ok None
  end.

(** decoders tried in turn come to one look at the tables together *)
Lemma try_tables row idx name ty tables other :
  try_decoders (decoder_of row idx name ty <$> tables) (map_err decode_err (read other row idx name))
  = map_err decode_err (read (default other (lookup_type (concat tables) ty)) row idx name).
Proof.
  induction tables as [|t tables IH]; [done|]. cbn. rewrite lookup_type_app.
  assert (decoder_of row idx name ty t = match lookup_type t ty with
    | Some r => Some <$> map_err decode_err (read r row idx name) | None => Ok None end) as -> by done.
  destruct (lookup_type t ty) as [r|]; [|exact IH]. cbn. by destruct (read r row idx name).
Qed.
End Decoders.

Lemma pg_decoded {A} (f : A → DataField) r : Pg.decoded f r = Some <$> map_err Pg.pg_decode_err (f <$> r).
Proof. by destruct r. Qed.
Lemma my_decoded {A} (f : A → DataField) r : My.decoded f r = Some <$> map_err My.mysql_decode_err (f <$> r).
Proof. by destruct r. Qed.

(** *** PostgreSQL *)

Definition pg_tables : list Table :=
  [[("BOOL", RdBool)];
   [("INT2", RdInt 16); ("INT4", RdInt 32); ("INT8", RdInt 64); ("OID", RdOid)];
   [("FLOAT4", RdF32); ("FLOAT8", RdF64)];
   [("NUMERIC", RdShown BigDecimal)];
   [("UUID", RdShown Uuid); ("INET", RdShown IpNetwork); ("CIDR", RdShown IpNetwork)];
   [("BYTEA", RdBytes)];
   same RdText ["VARCHAR"; "TEXT"; "BPCHAR"; "NAME"; "UNKNOWN"];
   [("TIMESTAMP", RdShown NaiveDateTime); ("TIMESTAMPTZ", RdShown DateTimeUtc); ("DATE", RdShown NaiveDate);
    ("TIME", RdShown NaiveTime)];
   same (RdShown JsonValue) ["JSON"; "JSONB"]]%string.

Ltac decoder :=
  unfold decoder_of; rewrite ?lookup_type_app; cbn [lookup_type]; rewrite ?lookup_same; cbn [fmap list_fmap];
  rewrite ?pg_decoded, ?my_decoded;
  repeat (case_bool_decide; try done); try (exfalso; rewrite ?elem_of_cons in *; naive_solver).

Lemma pg_decoders row idx name ty :
  [Pg.decode_postgres_boolean row idx name ty; Pg.decode_postgres_integer row idx name ty;
   Pg.decode_postgres_float row idx name ty; Pg.decode_postgres_decimal row idx name ty;
   Pg.decode_postgres_network row idx name ty; Pg.decode_postgres_binary row idx name ty;
   Pg.decode_postgres_text row idx name ty; Pg.decode_postgres_temporal row idx name ty;
   Pg.decode_postgres_json row idx name ty]
  = decoder_of Pg.pg_decode_err row idx name ty <$> pg_tables.
Proof.
  unfold pg_tables. cbn [fmap list_fmap]. repeat (apply (f_equal2 cons)); [..|done].
  - unfold Pg.decode_postgres_boolean. decoder.
  - unfold Pg.decode_postgres_integer. decoder.
  - unfold Pg.decode_postgres_float. decoder.
  - unfold Pg.decode_postgres_decimal. decoder.
  - unfold Pg.decode_postgres_network. decoder.
  - unfold Pg.decode_postgres_binary. decoder.
  - unfold Pg.decode_postgres_text. decoder.
  - unfold Pg.decode_postgres_temporal. decoder.
  - unfold Pg.decode_postgres_json. decoder.
Qed.

(** *** MySQL *)

Definition my_tables (unsigned : bool) : list Table :=
  [same RdBoolInt ["BOOL"; "BOOLEAN"];
   ("BIT", RdU64) :: same (if unsigned then RdU64 else RdInt 64)
     ["TINYINT"; "SMALLINT"; "MEDIUMINT"; "INT"; "INTEGER"; "BIGINT"; "YEAR"];
   (same RdText ["ENUM"; "SET"]
    ++ same RdBytes ["BINARY"; "VARBINARY"; "BLOB"; "TINYBLOB"; "MEDIUMBLOB"; "LONGBLOB"])%list;
   same RdF64 ["FLOAT"; "DOUBLE"; "REAL"];
   [("DECIMAL", RdShown BigDecimal)];
   (("DATE", RdShown NaiveDate) :: ("TIME", RdShown NaiveTime)
    :: same (RdShown NaiveDateTime) ["DATETIME"; "TIMESTAMP"])%list;
   [("JSON", RdShown JsonValue)]]%string.

Lemma my_decoders row idx name ty unsigned :
  [My.decode_mysql_boolean row idx name ty; My.decode_mysql_integer row idx name ty unsigned;
   My.decode_mysql_binary row idx name ty; My.decode_mysql_float row idx name ty;
   My.decode_mysql_decimal row idx name ty; My.decode_mysql_temporal row idx name ty;
   My.decode_mysql_json row idx name ty]
  = decoder_of My.mysql_decode_err row idx name ty <$> my_tables unsigned.
Proof.
  unfold my_tables. cbn [fmap list_fmap]. repeat (apply (f_equal2 cons)); [..|done].
  - unfold My.decode_mysql_boolean. decoder. all: cbn; by destruct (try_int 8 row idx), (try_bool row idx).
  - unfold My.decode_mysql_integer. destruct unsigned; decoder.
  - unfold My.decode_mysql_binary. decoder.
  - unfold My.decode_mysql_float. decoder.
  - unfold My.decode_mysql_decimal. decoder.
  - unfold My.decode_mysql_temporal. decoder.
  - unfold My.decode_mysql_json. decoder.
Qed.

Lemma pg_value row idx name :
  Pg.map_value row idx name
  = read_value Pg.pg_decode_err (default RdText (lookup_type (concat pg_tables) (type_name row idx))) row idx name.
Proof.
  unfold Pg.map_value, read_value. destruct (try_get_raw row idx) as [[]|]; [done| |done]. cbn [map_err mbind result_bind].
  rewrite <-try_tables, <-pg_decoders. cbn [read]. by destruct (try_string row idx).
Qed.

Lemma my_value row idx name :
  My.map_value row idx name
  = let '(base_ty, unsigned) := Mysql.mysql_type_base_name (type_name row idx) in
    read_value My.mysql_decode_err
      (default RdTextOrBytes (lookup_type (concat (my_tables unsigned)) base_ty)) row idx name.
Proof.
  unfold My.map_value. destruct (Mysql.mysql_type_base_name (type_name row idx)) as [ty unsigned].
  unfold read_value. destruct (try_get_raw row idx) as [[]|]; [done| |done]. cbn [map_err mbind result_bind].
  rewrite <-try_tables, <-my_decoders. f_equal. unfold My.decode_mysql_text_like. cbn [read].
  by destruct (try_string row idx).
Qed.

(** *** Rows *)

(** the tag of a field fits its value *)
Definition tagged (f : DataField) : Prop :=
  match get_meta f, get_value f with
  | DtDefault, Null | DtDigit, Int _ | DtFloat, Float _ | DtChars, Chars _ | DtBool, Bool _ => True
  | _, _ => False
  end.

Lemma read_tagged r row idx name f : read r row idx name = Ok f →
  get_name f = name ∧ tagged f ∧ get_value f ≠ Null.
Proof.
  assert (∀ A (g : A → DataField) (v : Result str A), g <$> v = Ok f → ∃ a, f = g a) as Hg
    by (intros A g [a|]; [intros [= <-]; by exists a|done]).
  destruct r; cbn [read]; intros Hf; repeat case_match; simplify_eq;
    try (apply Hg in Hf as [v ->]); repeat case_match; by split_and!.
Qed.

Lemma read_value_tagged e r row idx name f : read_value e r row idx name = Ok f →
  get_name f = name ∧ tagged f ∧ (get_value f = Null ↔ try_get_raw row idx = Ok true).
Proof.
  unfold read_value. destruct (try_get_raw row idx) as [[]|]; cbn; [by intros [= <-]| |done].
  destruct (read r row idx name) as [f'|] eqn:Hr; [|done]. intros [= <-].
  apply read_tagged in Hr as (? & ? & ?). by split_and!.
Qed.

Lemma map_row_spec (map_value : R → nat → str → KnowledgeResult DataField) (ok : R → nat → str → DataField → Prop)
    row names fields :
  (∀ idx name f, map_value row idx name = Ok f → ok row idx name f) →
  map_row map_value row names = Ok fields →
  length fields = length (columns row)
  ∧ ∀ i col, columns row !! i = Some col → ∃ f, fields !! i = Some f ∧ ok row i (default col.1 (names !! i)) f.
Proof.
  intros Hok. unfold map_row.
  assert (∀ cols k fields, map_row_from map_value row names k cols = Ok fields →
    length fields = length cols
    ∧ ∀ i col, cols !! i = Some col → ∃ f, fields !! i = Some f ∧ ok row (k + i) (default col.1 (names !! (k + i))) f) as Hg.
  { induction cols as [|c cols IH]; intros k fs; cbn; [by intros [= <-]|].
    destruct (map_value row k (default c.1 (names !! k))) as [f|] eqn:Hf; [|done]. cbn.
    destruct (map_row_from map_value row names (S k) cols) as [out|] eqn:Ho; [|done]. intros [= <-].
    destruct (IH _ _ Ho) as [Hl Hi]. split; [cbn; lia|]. intros [|i] col Hc; cbn in Hc.
    - injection Hc as <-. rewrite Nat.add_0_r. exists f. split; [done|]. by apply Hok.
    - destruct (Hi i col Hc) as (f' & ? & ?). exists f'. by rewrite Nat.add_succ_r. }
  apply Hg.
Qed.

(** C32. Values by their database type: the decoders of either driver, tried
    one after the other, read a value as its type's entry in one table says -
    no decoder hides another's type, unsigned MySQL types included - and a null
    is a null field of any type.  So rows are typed: one field for each column,
    in order, under the cached name where there is one and the column's own name
    otherwise, its tag fitting its value, and null exactly where the database
    has a null. *)
Theorem driver_rows row names :
  (∀ idx name, Pg.map_value row idx name
   = read_value Pg.pg_decode_err (default RdText (lookup_type (concat pg_tables) (type_name row idx))) row idx name)
  ∧ (∀ idx name, My.map_value row idx name
     = let '(base_ty, unsigned) := Mysql.mysql_type_base_name (type_name row idx) in
       read_value My.mysql_decode_err
         (default RdTextOrBytes (lookup_type (concat (my_tables unsigned)) base_ty)) row idx name)
  ∧ ∀ fields, map_row Pg.map_value row names = Ok fields ∨ map_row My.map_value row names = Ok fields →
      length fields = length (columns row)
      ∧ ∀ i col, columns row !! i = Some col →
          ∃ f, fields !! i = Some f ∧ get_name f = default col.1 (names !! i) ∧ tagged f
               ∧ (get_value f = Null ↔ try_get_raw row i = Ok true).
Proof.
  split_and!; [intros; apply pg_value|intros; apply my_value|].
  intros fields [Hm|Hm]; eapply (map_row_spec _ (λ row i name f, get_name f = name ∧ tagged f
    ∧ (get_value f = Null ↔ try_get_raw row i = Ok true))); try exact Hm; intros idx name f.
  - rewrite pg_value. apply read_value_tagged.
  - rewrite my_value. destruct (Mysql.mysql_type_base_name _). apply read_value_tagged.
Qed.
End Values.

(** ** The contract with the runtime *)

(** An answer of code run elsewhere is that of the code, and dead or alive it
    has touched nothing that the code could not touch. *)
Class TaskLaws (C : Type → Type → Type) (P L : Type) `{SqliteLib L, TaskRuntime L, !Tasks C P L} : Prop := {
  thread_answer {A} (m : St (World C P (Outside L)) A) w a w' : thread_result m w = (Ok a, w') → m w = (a, w');
  thread_framed {A} (m : St (World C P (Outside L)) A) : framed m → framed (thread_result m);
  join_framed {A} rt (m : St (World C P (Outside L)) A) : framed m → framed (task_join rt m);
  sent_framed {A} rt (m : St (World C P (Outside L)) A) : framed m → framed (task_sent rt m);
}.

Section Frame.
Context {C : Type → Type → Type} {P L : Type} `{LruOps C} `{Hasher} `{SqliteLib L} `{TaskRuntime L}
  `{!Tasks C P L} `{!TaskLaws C P L}.
Abbreviation World := (World C P (Outside L)).
Abbreviation M := (St World).

Lemma framed_call_err {A} f (m : St L (Result str A)) : framed (call_err (C := C) (P := P) f m).
Proof. apply framed_fmap, framed_on_lib. Qed.

Lemma framed_run_task {T} rt provider action (fut : M (KnowledgeResult T)) :
  framed fut → framed (run_task rt provider action fut).
Proof. intros Hf. apply framed_bind; [by apply join_framed|intros ?; apply framed_ret]. Qed.
Lemma framed_block_on_task {T} rt provider action (fut : M (KnowledgeResult T)) :
  framed fut → framed (block_on_task rt provider action fut).
Proof. intros Hf. apply framed_bind; [by apply sent_framed, join_framed|intros ?; apply framed_ret]. Qed.

Lemma framed_init_runtime {T} provider i wk n (init : Rt → M (KnowledgeResult T)) :
  (∀ rt, framed (init rt)) → framed (init_provider_runtime provider i wk n init).
Proof.
  intros Hi. apply framed_bind_res; [apply framed_call_err|intros _].
  apply framed_bind; [|intros ?; apply framed_ret]. apply thread_framed.
  apply framed_bind_res; [apply framed_call_err|done].
Qed.

Section Queries.
Context (d : ProviderKind) `{!Sqlx d L} (dia : Dialect d).

Lemma framed_col_names pool scope cache_sql exec_sql row :
  framed (col_names_from_row_or_describe (C := C) (P := P) d dia pool scope cache_sql exec_sql row).
Proof.
  destruct row; apply framed_metadata; [apply framed_ret|]. apply framed_fmap, framed_call_err.
Qed.
Lemma framed_fetch_rows action pool scope sql exec_sql args :
  framed (fetch_rows (C := C) (P := P) d dia action pool scope sql exec_sql args).
Proof.
  apply framed_bind_res; [apply framed_call_err|intros rows].
  apply framed_bind_res; [apply framed_col_names|intros names; apply framed_ret].
Qed.
Lemma framed_fetch_row action pool scope sql exec_sql args :
  framed (fetch_row (C := C) (P := P) d dia action pool scope sql exec_sql args).
Proof.
  apply framed_bind_res; [apply framed_call_err|intros row].
  apply framed_bind_res; [apply framed_col_names|intros names; apply framed_ret].
Qed.
Lemma framed_execute_fields pool scope sql params :
  framed (execute_query_fields (C := C) (P := P) d dia pool scope sql params).
Proof. apply framed_bind_res; [apply framed_ret|intros r; apply framed_fetch_rows]. Qed.
Lemma framed_execute_named_fields pool scope sql params :
  framed (execute_query_named_fields (C := C) (P := P) d dia pool scope sql params).
Proof. apply framed_bind_res; [apply framed_ret|intros r; apply framed_fetch_row]. Qed.
End Queries.

Lemma framed_pg_connect `{!Sqlx Postgres L} name config scope :
  framed (pg_connect (C := C) (P := P) name config scope).
Proof.
  apply framed_init_runtime. intros rt. apply framed_bind_res; [apply framed_call_err|intros pool].
  apply framed_bind_res; [apply framed_on_lib|intros _; apply framed_ret].
Qed.
Lemma framed_my_connect `{!Sqlx Mysql L} config scope : framed (my_connect (C := C) (P := P) config scope).
Proof.
  apply framed_init_runtime. intros rt. apply framed_bind_res; [apply framed_call_err|intros pool].
  apply framed_bind_res; [apply framed_call_err|intros _; apply framed_ret].
Qed.
End Frame.

Section Contract.
Context {C : Type → Type → Type} {L : Type} `{LruOps C} `{Hasher} `{SqliteLib L} `{TaskRuntime L}
  `{!Sqlx Postgres L} `{!Sqlx Mysql L} `{!Tasks C (Provider L) L} `{!TaskLaws C (Provider L) L}.

(** C21. The crate's providers - PostgreSQL, MySQL, thread-local snapshots and
    the pooled SQLite database - keep the contract that the theorems on the
    runtime ask of a provider: whatever they are asked, on whichever thread or
    task it runs and however that ends, they count, report, use the
    column-name cache and what lies outside, and leave the rest of the runtime
    alone; and so does connecting one. *)
Theorem providers_framed :
  ProviderFrame C (Provider L) (Outside L)
  ∧ (∀ name config scope, framed (postgres_connect (Drivers := drivers (C := C) (L := L)) name config scope))
  ∧ (∀ config scope, framed (mysql_connect (Drivers := drivers (C := C) (L := L)) config scope)).
Proof.
  split_and!; [|intros; apply framed_fmap, framed_pg_connect|intros; apply framed_fmap, framed_my_connect].
  split; intros p; [intros sql|intros sql ps|intros sql|intros sql ps|intros sql|intros sql ps|intros sql|intros sql ps];
    destruct p as [p|p|p].
  all: try (apply framed_block_on_task); try (apply framed_run_task).
  all: try apply framed_fetch_rows; try apply framed_fetch_row.
  all: try apply framed_execute_fields; try apply framed_execute_named_fields.
  - apply framed_provider_query.
  - apply framed_provider_query_fields.
  - apply framed_provider_query_row.
  - apply framed_provider_query_named_fields.
  - apply framed_provider_query.
  - apply framed_provider_query_fields.
  - apply framed_provider_query_row.
  - apply framed_provider_query_named_fields.
Qed.
End Contract.

(** ** First rows *)

Section FirstRow.
Context {C : Type → Type → Type} {P L : Type} `{LruOps C} `{Hasher} `{SqliteLib L} `{TaskRuntime L}
  `{!Tasks C P L} (d : ProviderKind) `{!Sqlx d L} (dia : Dialect d).
Abbreviation World := (World C P (Outside L)).

(** The one-row query of a driver agrees with the full one: when the full query
    of a statement gives rows, the one-row query gives the first of them, or no
    field, with the same effects - if the library's [fetch_optional] gives the
    first row that [fetch_all] gives. *)
Theorem driver_first_row_agrees pool scope sql params (w : World) :
  (∀ exec_sql args l, fetch_optional pool exec_sql args l
     = let '(r, l) := fetch_all pool exec_sql args l in (head (A := DbRow d L) <$> r, l)) →
  (∀ rows w', execute_query d dia pool scope sql w = (Ok rows, w') →
     execute_query_row d dia pool scope sql w = (Ok (first_of rows), w'))
  ∧ (∀ rows w', execute_query_fields d dia pool scope sql params w = (Ok rows, w') →
       execute_query_named_fields d dia pool scope sql params w = (Ok (first_of rows), w')).
Proof.
  intros Hfirst.
  assert (∀ a1 a2 exec_sql args rows w', fetch_rows d dia a1 pool scope sql exec_sql args w = (Ok rows, w') →
    fetch_row d dia a2 pool scope sql exec_sql args w = (Ok (first_of rows), w')) as Hg.
  { intros a1 a2 exec_sql args rows w'. unfold fetch_rows, fetch_row, bind_res, call_err, mbind, st_bind, fmap, st_fmap, on_lib.
    rewrite Hfirst. destruct (fetch_all pool exec_sql args _) as [[dbrows|err] l]; [|done]. cbn [map_err fmap result_fmap].
    destruct (col_names_from_row_or_describe _ _ _ _ _ _ _ _) as [[names|err] w1]; [|done].
    unfold mret, st_ret. intros [= Hm <-]. f_equal. destruct dbrows as [|r dbrows]; cbn in Hm |- *.
    - by injection Hm as <-.
    - destruct (map_row _ r names) as [f|]; [|done]. cbn in Hm.
      destruct (mapM _ dbrows) as [fs|]; [|done]. by injection Hm as <-. }
  split; [apply Hg|]. intros rows w'. unfold execute_query_fields, execute_query_named_fields, bind_res, mbind, st_bind, mret, st_ret.
  destruct (rewrite d dia sql params) as [r|]; [|done]. apply Hg.
Qed.
End FirstRow.

(** ** What a connect has checked *)

Section Connect.
Context {C : Type → Type → Type} {P L : Type} `{LruOps C} `{Hasher} `{SqliteLib L} `{TaskRuntime L}
  `{!Sqlx Postgres L} `{!Sqlx Mysql L} `{!Tasks C P L} `{!TaskLaws C P L}.
Abbreviation World := (World C P (Outside L)).
Abbreviation M := (St World).

Lemma init_runtime_ok {T} provider i wk n (init : Rt → M (KnowledgeResult T)) w a w' :
  init_provider_runtime provider i wk n init w = (Ok a, w') → ∃ rt w1, init rt w1 = (Ok a, w').
Proof.
  unfold init_provider_runtime, bind_res at 1, mbind, st_bind, mret, st_ret.
  destruct (call_err _ (spawn_thread i) w) as [[u|err] w1]; [|done].
  destruct (thread_result _ w1) as [[r|err] w2] eqn:Ht; [|done]. intros [= -> ->].
  apply thread_answer in Ht. revert Ht. unfold bind_res, mbind, st_bind.
  destruct (call_err _ (build_runtime n wk) w1) as [[rt|err] w3]; [|done]. intros Ht. by exists rt, w3.
Qed.

Lemma bind_call_ok {A B} f (m : St L (Result str A)) (k : A → M (KnowledgeResult B)) w b w' :
  bind_res (call_err f m) k w = (Ok b, w') →
  ∃ a l, m (lib (ext w)) = (Ok a, l) ∧ k a (set_ext (set_lib l (ext w)) w) = (Ok b, w').
Proof.
  unfold bind_res, mbind, st_bind, call_err, fmap, st_fmap, on_lib.
  destruct (m (lib (ext w))) as [[a|e] l]; [|done]. intros Hk. by exists a, l.
Qed.

Lemma check_settings_ok provider (pool : DbPool Postgres L) es l l' :
  ProviderConfig.check_settings (H := pg_database pool) provider es l = (Ok tt, l') →
  ∀ p v, (p, v) ∈ es → ∃ l1 l2, fetch_one_string pool
    (lit "SELECT current_setting('" ++ ProviderConfig.setting_name p ++ lit "')") l1 = (Ok v, l2).
Proof.
  revert l. induction es as [|[p v] es IH]; intros l Hc p' v' Hin; [by apply not_elem_of_nil in Hin|].
  cbn in Hc. unfold bind_res, mbind, st_bind, fmap, st_fmap in Hc.
  destruct (fetch_one_string pool _ l) as [[a|err] l1] eqn:Hf; [|done]. cbn [map_err] in Hc.
  case_bool_decide as Ha; [|done]. subst a. apply elem_of_cons in Hin as [[= -> ->]|Hin]; [by exists l, l1|by eapply IH].
Qed.

Lemma at_least_one_bounds c :
  let o := pool_options (at_least_one c) in
  (1 ≤ opt_max_connections o)%N ∧ (opt_min_connections o ≤ opt_max_connections o)%N.
Proof.
  cbn. unfold at_least_one, ProviderConfig.with_pool_size, ProviderConfig.pool_size, ProviderConfig.min_connections.
  destruct (0 <? _)%N eqn:Hz; bool_guard; cbn; lia.
Qed.

(** C22. A connected provider has been checked.  Its pool was made for the
    configured address with at least one connection and no minimum above the
    maximum, and answered the probe; for PostgreSQL each expected session
    setting was read back with the expected value.  So a provider that the
    runtime installs has passed its validation. *)
Theorem connect_checked :
  (∀ name config scope (p : SqlProvider Postgres) (w w' : World),
     pg_connect name config scope w = (Ok p, w') →
     metadata_scope _ p = scope
     ∧ ∃ opts hook l0 l1 l2,
         connect_with opts hook (ProviderConfig.pg_connection_uri config) l0 = (Ok (pool _ p), l1)
         ∧ (1 ≤ opt_max_connections opts)%N ∧ (opt_min_connections opts ≤ opt_max_connections opts)%N
         ∧ execute_pool (pool _ p) (lit "SELECT 1") l1 = (Ok tt, l2)
         ∧ ∀ session prm v, ProviderConfig.pg_session config = Some session →
             (prm, v) ∈ ProviderConfig.expectations session →
             hook = apply_session (ProviderConfig.init_statements session)
             ∧ ∃ l3 l4, fetch_one_string (pool _ p)
                 (lit "SELECT current_setting('" ++ ProviderConfig.setting_name prm ++ lit "')") l3 = (Ok v, l4))
  ∧ (∀ config scope (p : SqlProvider Mysql) (w w' : World),
       my_connect config scope w = (Ok p, w') →
       metadata_scope _ p = scope
       ∧ ∃ opts hook l0 l1 l2,
           connect_with opts hook (ProviderConfig.my_connection_uri config) l0 = (Ok (pool _ p), l1)
           ∧ (1 ≤ opt_max_connections opts)%N ∧ (opt_min_connections opts ≤ opt_max_connections opts)%N
           ∧ execute_pool (pool _ p) (lit "SELECT 1") l1 = (Ok tt, l2)).
Proof.
  split.
  - intros name config scope p w w' Hc. apply init_runtime_ok in Hc as (rt & w1 & Hc).
    apply bind_call_ok in Hc as (pl & l1 & Hconn & Hc). unfold bind_res, mbind, st_bind, mret, st_ret in Hc.
    unfold on_lib in Hc. cbn [lib ext set_ext set_lib] in Hc.
    destruct (ProviderConfig.validate_startup _ _ l1) as [[[]|] l2] eqn:Hv; [|done].
    injection Hc as <- <-. cbn [pool metadata_scope]. split; [done|].
    unfold ProviderConfig.validate_startup, bind_res, mbind, st_bind, fmap, st_fmap in Hv. cbn [ProviderConfig.select_1 pg_database] in Hv.
    destruct (execute_pool pl _ l1) as [[[]|] l3] eqn:Hsel; [|done]. cbn [map_err] in Hv.
    do 2 eexists. exists (lib (ext w1)), l1, l3. split_and!; [exact Hconn|apply at_least_one_bounds..|exact Hsel|].
    intros session prm v Hs Hin. rewrite Hs in Hv |- *. split; [done|]. by eapply check_settings_ok.
  - intros config scope p w w' Hc. apply init_runtime_ok in Hc as (rt & w1 & Hc).
    apply bind_call_ok in Hc as (pl & l1 & Hconn & Hc). apply bind_call_ok in Hc as ([] & l2 & Hsel & Hc).
    injection Hc as <- <-. cbn [pool metadata_scope]. split; [done|].
    do 2 eexists. exists (lib (ext w1)), l1, l2. split_and!; [exact Hconn|apply at_least_one_bounds..|exact Hsel].
Qed.
End Connect.

(** ** Concrete drivers

    Rows are columns with a name, a type and a text; every setting reads "on";
    one URL cannot be connected to. *)
Definition DemoRow : Type := list (str * str * option str).
Definition cell (row : DemoRow) (i : nat) : Result str str :=
  match row !! i with Some (_, _, Some v) => Ok v | _ => Err (lit "no value") end.

#[global] Instance demo_row : SqlxRow DemoRow := {
  columns row := row.*1;
  try_get_raw row i := match row !! i with Some (_, _, v) => Ok (bool_decide (v = None)) | None => Err (lit "no column") end;
  try_bool row i := (λ s, bool_decide (s = lit "t")) <$> cell row i;
  try_int _ row i := (λ s, Z.of_nat (length s)) <$> cell row i;
  try_u64 row i := (λ s, N.of_nat (length s)) <$> cell row i;
  try_oid row i := (λ s, N.of_nat (length s)) <$> cell row i;
  try_f32 row i := (λ s, N.of_nat (length s)) <$> cell row i;
  try_f64 row i := (λ s, N.of_nat (length s)) <$> cell row i;
  try_string := cell;
  try_bytes := cell;
  try_shown _ := cell;
}.

Definition demo_db_row : DemoRow :=
  [(lit "id", lit "int8", Some (lit "xxx")); (lit "ok", lit "bool", Some (lit "t")); (lit "at", lit "date", None)].

#[global] Instance demo_task_runtime L : TaskRuntime L :=
  {| Rt := unit; spawn_thread _ := mret (Ok tt); build_runtime _ _ := mret (Ok tt) |}.
#[global] Instance demo_sqlx d L : Sqlx d L := {|
  DbPool := unit;
  DbConn := unit;
  DbRow := DemoRow;
  connect_with _ _ uri := mret (if bool_decide (uri = lit "not-a-valid-mysql-url") then Err [] else Ok tt);
  execute_on _ _ := mret (Ok tt);
  execute_pool _ _ := mret (Ok tt);
  fetch_one_string _ _ := mret (Ok (lit "on"));
  fetch_all _ _ _ := mret (Ok [demo_db_row]);
  fetch_optional _ _ _ := mret (Ok (Some demo_db_row));
  describe _ _ := mret (Ok demo_db_row.*1.*1);
|}.
#[global] Instance demo_tasks P L `{SqliteLib L} : Tasks ListLru.t P L := {|
  thread_result A m := λ w, let '(a, w) := m w in (Ok a, w);
  task_join A rt m := λ w, let '(a, w) := m w in (Ok a, w);
  task_sent A rt m := λ w, let '(a, w) := m w in (Ok a, w);
|}.
#[global] Instance demo_task_laws P L `{SqliteLib L} : TaskLaws ListLru.t P L.
Proof.
  split.
  - intros A m w a w'. cbn. destruct (m w). by intros [= -> ->].
  - intros A m Hm w. specialize (Hm w). cbn. by destruct (m w).
  - intros A rt m Hm w. specialize (Hm w). cbn. by destruct (m w).
  - intros A rt m Hm w. specialize (Hm w). cbn. by destruct (m w).
Qed.

Lemma driver_rows_witness :
  ∃ fields, map_row Pg.map_value demo_db_row [lit "ident"] = Ok fields
  ∧ get_name <$> fields = [lit "ident"; lit "ok"; lit "at"] ∧ length fields = 3.
Proof.
  destruct (map_row Pg.map_value demo_db_row [lit "ident"]) as [fields|] eqn:Hm; [|vm_compute in Hm; discriminate Hm].
  exists fields. split; [reflexivity|]. split; [vm_compute in Hm; injection Hm as <-; reflexivity|].
  exact (proj1 (proj2 (proj2 (driver_rows demo_db_row [lit "ident"])) fields (or_introl Hm))).
Defined.

Lemma providers_framed_witness : ProviderFrame ListLru.t (Provider DemoSql) (Outside DemoSql).
Proof. apply (providers_framed (C := ListLru.t) (L := DemoSql)). Defined.

Definition demo_session : Loader.PostgresSessionSpec :=
  {| Loader.plan_cache_mode := None; Loader.jit := Some true; Loader.application_name := None |}.
Definition demo_pg_config : ProviderConfig.PostgresProviderConfig :=
  ProviderConfig.pg_with_session (Some demo_session) (ProviderConfig.pg_new (lit "postgres://db")).
Definition demo_crate : World ListLru.t (Provider DemoSql) (Outside DemoSql) := world_new 5000000 demo_outside.
Definition demo_pool : DbPool Postgres DemoSql := tt.
Definition demo_scope : MetadataCacheScope :=
  {| scope_datasource_id := lit "postgres:x"; scope_generation := 1 |}.

Lemma connect_checked_witness :
  ∃ p w', pg_connect (lit "geo") demo_pg_config demo_scope demo_crate = (Ok p, w')
          ∧ metadata_scope _ p = demo_scope
          ∧ ∃ l3 l4, fetch_one_string (d := Postgres) (pool _ p) (lit "SELECT current_setting('jit')") l3 = (Ok (lit "on"), l4).
Proof.
  assert (is_ok (pg_connect (lit "geo") demo_pg_config demo_scope demo_crate).1 = true) as Hok
    by (vm_compute; reflexivity).
  destruct (pg_connect (lit "geo") demo_pg_config demo_scope demo_crate) as [[p|] w'] eqn:Hc; [|discriminate Hok].
  exists p, w'. split; [reflexivity|].
  destruct (proj1 connect_checked _ _ _ _ _ _ Hc) as (Hs & opts & hook & l0 & l1 & l2 & _ & _ & _ & _ & Hset).
  split; [exact Hs|]. destruct (Hset (ProviderConfig.from_spec demo_session) ProviderConfig.Jit (lit "on")) as [_ Hf];
    [reflexivity|left|exact Hf].
Defined.

Lemma driver_first_row_agrees_witness :
  ∃ w', execute_query_row Postgres pg_dialect demo_pool demo_scope (lit "select") demo_crate
        = (Ok (first_of [[from_int (lit "id") 3; from_bool (lit "ok") true; field_new DtDefault (lit "at") Null]]), w').
Proof.
  assert ((execute_query Postgres pg_dialect demo_pool demo_scope (lit "select") demo_crate).1
          = Ok [[from_int (lit "id") 3; from_bool (lit "ok") true; field_new DtDefault (lit "at") Null]]) as Hq
    by (vm_compute; reflexivity).
  destruct (execute_query Postgres pg_dialect demo_pool demo_scope (lit "select") demo_crate) as [r w'] eqn:He.
  cbn [fst] in Hq. rewrite Hq in He. exists w'.
  refine (proj1 (driver_first_row_agrees Postgres pg_dialect demo_pool demo_scope (lit "select") [] demo_crate _) _ w' He).
  reflexivity.
Defined.
