(* ===== verification/MemEntry.v ===== *)
(** * In-memory database entry points (src/mem/, src/facade.rs)

    The process-wide in-memory database with its example table and the stub
    (memdb.rs, stub.rs), the parameter arrays (params.rs), lookups through a
    caller's cache on either database, and the installation of a pooled
    database as the provider, among them the pool on a WAL authority file. *)
From S2P Require Import Prelude Errors RustStr Model Lru LocalCache SqlRoute Runtime SqliteDb Facade SqlDrivers.
From S2P Require Import RuntimeFacts SqliteFacts SqlDriversFacts.
From S2P Require Loader.
Import Model.Param.

(** ** Parameter arrays (src/mem/params.rs) *)

(** an array of empty pairs, filled by index *)
Definition to_params (params : list DataField) : list (str * SqlValue) :=
  foldl (λ acc '(i, param), <[i := (get_name param, to_sql param)]> acc)
    (replicate (length params) ([], SqlText [])) (imap pair params).

(** ** The databases *)

(** the lazily built pool; [Err] after its initialisation panicked *)
Abbreviation MemStatic := (option (Result str Pool)).

Inductive MDBEnum {L} `{SqliteLib L} :=
| Stub
| Use (db : Pool).
Arguments MDBEnum L {_}.

Definition EXAMPLE_CREATE_SQL : str := lit "CREATE TABLE IF NOT EXISTS example (
    id   INTEGER PRIMARY KEY,
    name TEXT NOT NULL,
    pinying TEXT NOT NULL
    )".
Definition EXAMPLE_CLEAN_SQL : str := lit "DELETE FROM example".
Definition EXAMPLE_INSERT_SQL : str := lit "INSERT INTO example(name,pinying) VALUES (?1, ?2 ) ".

Section MemEntry.
Context {C : Type → Type → Type} {P L : Type} `{LruOps C} `{Hasher} `{SqliteLib L}.
Abbreviation World := (World C P (Outside L)).
Abbreviation M := (St World).

Definition mdb_default : MDBEnum L := Stub.

Definition mdb_query (db : MDBEnum L) (sql : str) : M (KnowledgeResult (list RowData)) :=
  match db with Stub => mret (Ok []) | Use db => MemDB.query db sql end.
Definition mdb_query_row (db : MDBEnum L) (sql : str) : M (KnowledgeResult RowData) :=
  match db with Stub => mret (Ok []) | Use db => MemDB.query_row db sql end.
Definition mdb_query_row_params (db : MDBEnum L) (sql : str) (params : BoundParams)
  : M (KnowledgeResult RowData) :=
  match db with Stub => mret (Ok []) | Use db => MemDB.query_row_params db sql params end.

(** a lookup through the caller's cache *)
Definition mdb_cache_query {Cache} `{!CacheAble Cache DataField RowData} (db : MDBEnum L) (sql : str)
    (c_params : list DataField) (q_params : BoundParams) : St (World * Cache) RowData :=
  cache_query_impl c_params (mdb_query_row_params db sql q_params).

(** the process-wide database, built at its first use; [None] is a panic *)
Definition global : St (World * MemStatic) (option Pool) := λ '(w, st),
  let '(r, w) := match st with Some r => (r, w) | None => MemDB.instance w end in
  (match r with Ok pool => Some pool | Err _ => None end, (w, Some r)).
Definition mdb_global : St (World * MemStatic) (option (MDBEnum L)) :=
  fmap (M := St _) (fmap Use) global.

Context `{!CsvErrors (H := Fs)}.

(** [manifest_dir] is the crate's directory; the outcomes of the cleaning and
    of the final check are ignored *)
Definition load_example (manifest_dir : str) (db : Pool) : M (KnowledgeResult Pool) :=
  _ ←? MemDB.table_create db EXAMPLE_CREATE_SQL;
  let csv := Loader.path_join manifest_dir (lit "src/mem/dict/example.csv") in
  _ ← MemDB.table_clean db EXAMPLE_CLEAN_SQL;
  _ ←? TableLoad.table_load db EXAMPLE_INSERT_SQL csv [0; 1] 100;
  _ ← MemDB.check_data db (lit "example") (1, u64_max)%N;
  mret (Ok db).
Definition load_test (manifest_dir : str) : St (World * MemStatic) (option (KnowledgeResult Pool)) :=
  λ s, match global s with
       | (None, s) => (None, s)
       | (Some db, (w, st)) => let '(r, w) := load_example manifest_dir db w in (Some r, (w, st))
       end.
End MemEntry.

(** ** Installing a pooled database (src/facade.rs) *)

Section Install.
Context {C : Type → Type → Type} {L : Type} `{LruOps C} `{Hasher} `{SqliteLib L} `{TaskRuntime L}
  `{!Sqlx Postgres L} `{!Sqlx Mysql L}.
Abbreviation World := (World C (Provider L) (Outside L)).
Abbreviation M := (St World).

Definition mem_provider (memdb : Pool) (g : Generation) : Provider L :=
  LocalProvider (MemProvider memdb (scope_of (from_seed SqliteAuthority (lit "memdb")) g)).

Definition init_mem_provider (memdb : Pool) : M (KnowledgeResult unit) :=
  discard (install_provider SqliteAuthority (from_seed SqliteAuthority (lit "memdb"))
             (λ g, mret (Ok (mem_provider memdb g)))).

(** a failure to open or to set the journal mode is ignored *)
Definition ensure_wal (authority_uri : str) : M (KnowledgeResult unit) :=
  conn ← on_lib (open_with_flags authority_uri
                   [lit "SQLITE_OPEN_READ_WRITE"; lit "SQLITE_OPEN_CREATE"; lit "SQLITE_OPEN_URI"]);
  match conn with
  | Ok conn =>
      _ ← on_lib (execute_batch conn (lit "PRAGMA journal_mode=WAL;
PRAGMA synchronous=NORMAL;
PRAGMA temp_store=MEMORY;"));
      mret (Ok tt)
  | Err _ => mret (Ok tt)
  end.

Definition init_wal_pool_from_authority (authority_uri : str) (pool_size : N) : M (KnowledgeResult unit) :=
  _ ←? ensure_wal authority_uri;
  mem ←? MemDB.new_file authority_uri pool_size [lit "SQLITE_OPEN_READ_ONLY"; lit "SQLITE_OPEN_URI"];
  init_mem_provider mem.
End Install.

(** ** Properties *)

(** the array of [to_params] is the name and value of each field, in order *)
Lemma to_params_spec params : to_params params = (λ f, (get_name f, to_sql f)) <$> params.
Proof.
  unfold to_params.
  assert (∀ pre acc, length acc = length params →
    foldl (λ acc '(i, param), <[i := (get_name param, to_sql param)]> acc) (pre ++ acc)
      (imap (λ i, pair (length pre + i)) params)
    = pre ++ ((λ f, (get_name f, to_sql f)) <$> params)) as Hgo.
  { induction params as [|p params IH]; intros pre [|a acc] Hl; try done.
    injection Hl as Hl. cbn [imap foldl fmap list_fmap]. rewrite Nat.add_0_r.
    rewrite insert_app_r_alt by lia. rewrite Nat.sub_diag. cbn [insert list_insert].
    change (pre ++ (get_name p, to_sql p) :: acc) with (pre ++ [(get_name p, to_sql p)] ++ acc).
    rewrite app_assoc. rewrite (imap_ext _ (λ i, pair (length (pre ++ [(get_name p, to_sql p)]) + i))).
    - rewrite IH by done. by rewrite <-app_assoc.
    - intros i x _. cbn. rewrite length_app. cbn. f_equal. lia. }
  exact (Hgo [] _ (length_replicate _ _)).
Qed.

Section Facts.
Context {C : Type → Type → Type} {L : Type} `{LruLaws C} `{Hasher} `{SqliteLib L} `{TaskRuntime L}
  `{!Sqlx Postgres L} `{!Sqlx Mysql L}.
Abbreviation World := (World C (Provider L) (Outside L)).
Implicit Types (w : World).

Lemma ensure_wal_ok uri w :
  ∃ l, ensure_wal uri w = (Ok tt, set_ext (set_lib l (ext w)) w).
Proof.
  unfold ensure_wal, mbind, st_bind, on_lib.
  destruct (open_with_flags _ _ _) as [[c|] l]; cbn [set_ext ext set_lib lib]; [|by exists l].
  destruct (execute_batch _ _ _) as [r l']. exists l'. by destruct w.
Qed.

(** Installing the pool on a WAL file: whether or not the journal mode could be
    set, the pool is opened read-only on the file; when that fails the runtime
    is left alone, otherwise its provider is the pooled database, under the
    next generation, and its column-name scope is that generation's. *)
Lemma wal_pool_installed uri size w :
  let '(res, w') := init_wal_pool_from_authority uri size w in
  ∃ l, ensure_wal uri w = (Ok tt, set_ext (set_lib l (ext w)) w)
  ∧ match pool_build (FileManager uri [lit "SQLITE_OPEN_READ_ONLY"; lit "SQLITE_OPEN_URI"]) size l with
    | (Err _, l') => res = Err res_error ∧ w' = set_ext (set_lib l' (ext w)) w
    | (Ok pool, l') =>
        let g := wrap64 (next_generation (rt w) + 1) in
        let ds := from_seed SqliteAuthority (lit "memdb") in
        let h := {| executor := mem_provider pool g; datasource_id := ds; generation := g;
                    kind := SqliteAuthority |} in
        res = Ok tt ∧ same_rt (rt w') (installed DEFAULT_PROVIDER_NAME h true
                                         (set_next_generation g (rt w)))
    end.
Proof.
  unfold init_wal_pool_from_authority, bind_res, mbind, st_bind.
  destruct (ensure_wal_ok uri w) as [l Hl]. rewrite Hl.
  unfold MemDB.new_file, SqliteDb.call, fmap, st_fmap, on_lib. cbn [ext set_ext set_lib lib].
  match goal with |- context [pool_build ?m size l] =>
    destruct (pool_build m size l) as [[pool|err] l'] eqn:Hp end; cbn [map_err mret st_ret].
  - pose proof (install_spec DEFAULT_PROVIDER_NAME SqliteAuthority (from_seed SqliteAuthority (lit "memdb"))
      (λ g, mret (Ok (mem_provider pool g))) true
      (set_ext (set_lib l' (ext w)) w)) as Hi. cbv zeta in Hi.
    unfold init_mem_provider, discard, install_provider, fmap, st_fmap.
    cbn [mret st_ret rt set_ext] in Hi |- *.
    destruct (install_provider_named _ _ _ _ _ _) as [r w']. exists l. split; [done|].
    rewrite Hp. destruct Hi as (_ & -> & Hs). by split.
  - exists l. split; [done|]. rewrite Hp. split; [done|]. by destruct w.
Qed.
End Facts.
