(* ===== verification/GenSeqlock.v ===== *)
(** * Reading the generation while providers are installed (src/runtime.rs)

    [current_generation] reads without the provider's lock: an epoch that is
    odd while a default provider is being published, the published value, and
    the epoch again; on any sign of a concurrent publication it takes the
    lock.  Here the publications of any number of installs and one read are
    interleaved load by load and store by store, each atomic and in one total
    order. *)
From S2P Require Import Prelude Lru SqlRoute Runtime.

(** what [is_default] publishes: the epoch, the lock-free value, and the slot
    under the lock, by the generation of the handle in it *)
Record Shared := { epoch : N; value : N; slot : option Generation }.

(** where an install stands in publishing, and what it does next *)
Inductive WPc := BumpFirst | SetSlot | SetValue | BumpLast | Published.
#[export] Instance wpc_eq_dec : EqDecision WPc.
Proof. solve_decision. Defined.

Definition writer_step (g : Generation) (pc : WPc) (s : Shared) : WPc * Shared :=
  match pc with
  | BumpFirst => (SetSlot, {| epoch := wrap64 (epoch s + 1); value := value s; slot := slot s |})
  | SetSlot => (SetValue, {| epoch := epoch s; value := value s; slot := Some g |})
  | SetValue => (BumpLast, {| epoch := epoch s; value := g; slot := slot s |})
  | BumpLast => (Published, {| epoch := wrap64 (epoch s + 1); value := value s; slot := slot s |})
  | Published => (Published, s)
  end.

(** where the read stands: the loads it has made *)
Inductive RPc :=
| Start
| GotEpoch (e : N)
| GotValue (e v : N)
| Slow
| Done (r : option Generation).

Definition reader_step (pc : RPc) (s : Shared) : RPc :=
  match pc with
  | Start => if (epoch s `mod` 2 =? 1)%N then Slow else GotEpoch (epoch s)
  | GotEpoch e => GotValue e (value s)
  | GotValue e v =>
      if negb (e =? epoch s)%N then Slow else Done (if (v =? 0)%N then None else Some v)
  | Slow => Done (slot s)
  | Done r => Done r
  end.

Record Config := { shared : Shared; installs : list (Generation * WPc); reader : RPc }.

(** whose turn it is *)
Inductive Turn := Install (i : nat) | Read.
#[export] Instance turn_eq_dec : EqDecision Turn.
Proof. solve_decision. Defined.

Definition turn (c : Config) (t : Turn) : Config :=
  match t with
  | Read => {| shared := shared c; installs := installs c; reader := reader_step (reader c) (shared c) |}
  | Install i =>
      match installs c !! i with
      | Some (g, pc) =>
          let '(pc, s) := writer_step g pc (shared c) in
          {| shared := s; installs := <[i := (g, pc)]> (installs c); reader := reader c |}
      | None => c
      end
  end.
Definition run (c : Config) (sched : list Turn) : Config := foldl turn c sched.

(** ** Agreement with the sequential model *)

(** a read with nobody else running is [generation_read] *)
Lemma read_alone s :
  reader (run {| shared := s; installs := []; reader := Start |} [Read; Read; Read])
  = Done (generation_read (epoch s) (value s) (epoch s) (slot s)).
Proof.
  unfold generation_read. cbn. destruct (_ =? 1)%N; [done|]. cbn. by rewrite N.eqb_refl.
Qed.

(** ** One install at a time *)

Definition active (pc : WPc) : bool :=
  match pc with SetSlot | SetValue | BumpLast => true | BumpFirst | Published => false end.
Definition some_active (c : Config) : bool := existsb (λ x, active x.2) (installs c).

(** an install begins to publish only while no other is publishing, and the
    epoch does not wrap around *)
Definition may (c : Config) (t : Turn) : bool :=
  match t with
  | Install i =>
      match installs c !! i with
      | Some (_, BumpFirst) => negb (some_active c) && (epoch (shared c) <? u64_max)%N
      | Some (_, BumpLast) => (epoch (shared c) <? u64_max)%N
      | _ => true
      end
  | Read => true
  end.
Fixpoint exclusive (c : Config) (sched : list Turn) : bool :=
  match sched with [] => true | t :: sched => may c t && exclusive (turn c t) sched end.

(** the published value is the slot's generation *)
Definition agrees (s : Shared) : Prop :=
  match slot s with Some g => value s = g ∧ (1 ≤ g)%N | None => value s = 0%N end.

Definition initial (c : Config) : Prop :=
  (epoch (shared c) `mod` 2 = 0)%N ∧ agrees (shared c) ∧ reader c = Start
  ∧ ∀ g pc, (g, pc) ∈ installs c → pc = BumpFirst ∧ (1 ≤ g)%N.

Definition reading (c : Config) : bool :=
  match reader c with Start | Done _ => false | _ => true end.

(** the writers' invariant: at most one is publishing, exactly while the epoch
    is odd; between publications value and slot agree *)
Record winv (c : Config) : Prop := {
  w_gens g pc : (g, pc) ∈ installs c → (1 ≤ g)%N;
  w_one i j gi pi gj pj : installs c !! i = Some (gi, pi) → installs c !! j = Some (gj, pj) →
    active pi = true → active pj = true → i = j;
  w_odd : (epoch (shared c) `mod` 2 = if some_active c then 1 else 0)%N;
  w_quiet : some_active c = false → agrees (shared c);
  w_last i g : installs c !! i = Some (g, SetValue) → slot (shared c) = Some g;
  w_done i g : installs c !! i = Some (g, BumpLast) → slot (shared c) = Some g ∧ value (shared c) = g;
}.

Lemma some_active_true c :
  some_active c = true ↔ ∃ i g pc, installs c !! i = Some (g, pc) ∧ active pc = true.
Proof.
  unfold some_active. rewrite existsb_exists. split.
  - intros ([g pc] & Hin & Ha). apply list_elem_of_In, list_elem_of_lookup in Hin as [i Hi]. by exists i, g, pc.
  - intros (i & g & pc & Hi & Ha). exists (g, pc). split; [|done].
    apply list_elem_of_In. by eapply list_elem_of_lookup_2.
Qed.

Lemma some_active_false c :
  some_active c = false ↔ ∀ i g pc, installs c !! i = Some (g, pc) → active pc = false.
Proof.
  rewrite <-not_true_iff_false, some_active_true. split.
  - intros Hn i g pc Hi. destruct (active pc) eqn:Ha; [|done]. exfalso. apply Hn. by exists i, g, pc.
  - intros Hall (i & g & pc & Hi & Ha). rewrite (Hall i g pc Hi) in Ha. done.
Qed.

Lemma winv_initial c : initial c → winv c.
Proof.
  intros (He & Hag & _ & Hall).
  assert (∀ i g pc, installs c !! i = Some (g, pc) → pc = BumpFirst) as Hf
    by (intros i g pc Hi%list_elem_of_lookup_2; by apply Hall in Hi as [-> _]).
  assert (some_active c = false) as Hq
    by (apply some_active_false; intros i g pc Hi; by rewrite (Hf i g pc Hi)).
  split.
  - intros g pc Hin. by apply Hall in Hin as [_ ?].
  - intros i j gi pi gj pj Hi _ Hai. by rewrite (Hf i gi pi Hi) in Hai.
  - by rewrite Hq.
  - done.
  - intros i g Hi. by apply Hf in Hi.
  - intros i g Hi. by apply Hf in Hi.
Qed.

(** the state after install [i] moved to [pc], every other install being idle *)
Lemma winv_moved c i g pc0 pc s rd :
  winv c → installs c !! i = Some (g, pc0) →
  (∀ j gj pj, j ≠ i → installs c !! j = Some (gj, pj) → active pj = false) →
  (epoch s `mod` 2 = if active pc then 1 else 0)%N →
  (active pc = false → agrees s) →
  (pc = SetValue → slot s = Some g) → (pc = BumpLast → slot s = Some g ∧ value s = g) →
  winv {| shared := s; installs := <[i := (g, pc)]> (installs c); reader := rd |}.
Proof.
  intros Hw Hi Hidle Hep Hag Hsl Hdone.
  assert (∀ j gj pj, <[i := (g, pc)]> (installs c) !! j = Some (gj, pj) →
            j = i ∧ gj = g ∧ pj = pc ∨ j ≠ i ∧ installs c !! j = Some (gj, pj) ∧ active pj = false) as Hl.
  { intros j gj pj [(-> & [= <- <-] & _)|[Hne Hj]]%list_lookup_insert_Some; [by left|].
    right. split_and!; [done|done|]. by eapply Hidle. }
  assert (<[i := (g, pc)]> (installs c) !! i = Some (g, pc)) as Hii
    by (apply list_lookup_insert_eq, lookup_lt_is_Some; by eexists).
  assert (some_active {| shared := s; installs := <[i := (g, pc)]> (installs c); reader := rd |} = active pc) as Hact.
  { destruct (active pc) eqn:Ha.
    - apply some_active_true. by exists i, g, pc.
    - apply some_active_false. intros j gj pj [(_ & _ & ->)|(_ & _ & ?)]%Hl; done. }
  split; cbn [shared installs].
  - intros gj pj [j Hj]%list_elem_of_lookup. apply Hl in Hj as [(_ & -> & _)|(_ & Hj & _)].
    + eapply (w_gens _ Hw). by eapply list_elem_of_lookup_2.
    + eapply (w_gens _ Hw). by eapply list_elem_of_lookup_2.
  - intros j k gj pj gk pk [(-> & _ & _)|(_ & _ & Hj)]%Hl [(-> & _ & _)|(_ & _ & Hk)]%Hl Haj Hak;
      congruence.
  - by rewrite Hact.
  - rewrite Hact. done.
  - intros j gj [(_ & -> & Hpc)|(_ & _ & ?)]%Hl; [by apply Hsl|done].
  - intros j gj [(_ & -> & Hpc)|(_ & _ & ?)]%Hl; [by apply Hdone|done].
Qed.

Lemma winv_reader c rd : winv c → winv {| shared := shared c; installs := installs c; reader := rd |}.
Proof. intros [? ? ? ? ? ?]. by split. Qed.

(** the other installs are idle while one publishes, or begins to *)
Lemma others_idle c i g pc j gj pj :
  winv c → may c (Install i) = true → installs c !! i = Some (g, pc) → pc ≠ Published →
  j ≠ i → installs c !! j = Some (gj, pj) → active pj = false.
Proof.
  intros Hw Hm Hi Hp Hne Hj. unfold may in Hm. rewrite Hi in Hm.
  destruct pc; try done.
  1: { apply andb_prop in Hm as [Hm%negb_true_iff _]. by eapply (proj1 (some_active_false c)). }
  all: destruct (active pj) eqn:Ha; [|done]; destruct Hne; by eapply (w_one _ Hw).
Qed.

Lemma turn_winv c t : winv c → may c t = true → winv (turn c t).
Proof.
  intros Hw Hm. destruct t as [i|]; [|by apply winv_reader].
  cbn [turn]. destruct (installs c !! i) as [[g pc]|] eqn:Hi; [|done].
  pose proof (others_idle c i g pc) as Hoth.
  assert (1 ≤ g)%N as Hg by (eapply (w_gens _ Hw), list_elem_of_lookup_2; exact Hi).
  assert (active pc = true → some_active c = true) as Hact
    by (intros Ha; apply some_active_true; by exists i, g, pc).
  pose proof (w_odd _ Hw) as Hodd. unfold may in Hm. rewrite Hi in Hm.
  destruct pc; cbn [writer_step].
  - apply andb_prop in Hm as [Hq%negb_true_iff Hlt%N.ltb_lt]. rewrite Hq in Hodd.
    eapply winv_moved; [done|done| |..]; try done.
    + intros j gj pj. apply Hoth; try done. unfold may. rewrite Hi, Hq. by apply N.ltb_lt in Hlt as ->.
    + cbn. unfold wrap64. unfold u64_max in Hlt. lia.
  - rewrite (Hact eq_refl) in Hodd. eapply winv_moved; [done|done| |done..].
    intros j gj pj. apply Hoth; try done. unfold may. by rewrite Hi.
  - rewrite (Hact eq_refl) in Hodd. eapply winv_moved; [done|done| |done..|].
    + intros j gj pj. apply Hoth; try done. unfold may. by rewrite Hi.
    + intros _. cbn. split; [|done]. by eapply (w_last _ Hw).
  - rewrite (Hact eq_refl) in Hodd. apply N.ltb_lt in Hm as Hlt.
    destruct (w_done _ Hw i g Hi) as [Hs Hv]. eapply winv_moved; [done|done| |..]; try done.
    + intros j gj pj. apply Hoth; try done. unfold may. by rewrite Hi.
    + cbn. unfold wrap64. unfold u64_max in Hlt. lia.
    + intros _. unfold agrees. cbn. by rewrite Hs.
  - rewrite list_insert_id by done. by apply winv_reader.
Qed.

Lemma turn_epoch c t : may c t = true → (epoch (shared c) ≤ epoch (shared (turn c t)))%N.
Proof.
  intros Hm. destruct t as [i|]; [|done]. cbn [turn]. unfold may in Hm.
  destruct (installs c !! i) as [[g pc]|]; [|done].
  destruct pc; cbn; try done.
  - apply andb_prop in Hm as [_ Hlt%N.ltb_lt]. unfold wrap64. unfold u64_max in Hlt. lia.
  - apply N.ltb_lt in Hm. unfold wrap64. unfold u64_max in Hm. lia.
Qed.

Lemma turn_reader_idle c t :
  t ≠ Read → reader (turn c t) = reader c.
Proof.
  destruct t as [i|]; [|done]. intros _. cbn. destruct (installs c !! i) as [[g pc]|]; [|done].
  by destruct (writer_step _ _ _).
Qed.

(** a configuration the run from [c0] went through while the read was on *)
Definition passed (c0 : Config) (sched : list Turn) (m : Config) : Prop :=
  (∃ before after, sched = before ++ after ∧ m = run c0 before) ∧ reading m = true ∧ winv m.

Lemma passed_snoc c0 sched t m : passed c0 sched m → passed c0 (sched ++ [t]) m.
Proof.
  intros [(b & a & -> & ->) Hm]. split; [|done]. exists b, (a ++ [t]). by rewrite <-app_assoc.
Qed.

Lemma passed_now c0 sched t : reading (run c0 sched) = true → winv (run c0 sched) →
  passed c0 (sched ++ [t]) (run c0 sched).
Proof. intros Hr Hw. split; [|done]. by exists sched, [t]. Qed.

(** what the read's loads mean *)
Definition rinv (c0 : Config) (sched : list Turn) (c : Config) : Prop :=
  match reader c with
  | Start | Slow => True
  | GotEpoch e => (e `mod` 2 = 0)%N ∧ (e ≤ epoch (shared c))%N
  | GotValue e v => (e `mod` 2 = 0)%N ∧ ∃ m, passed c0 sched m ∧ value (shared m) = v
                      ∧ (e ≤ epoch (shared m) ≤ epoch (shared c))%N
  | Done r => ∃ m, passed c0 sched m ∧ slot (shared m) = r
  end.

Lemma rinv_step c0 sched t :
  winv (run c0 sched) → may (run c0 sched) t = true →
  rinv c0 sched (run c0 sched) → rinv c0 (sched ++ [t]) (turn (run c0 sched) t).
Proof.
  intros Hw Hm Hr. pose proof (turn_epoch _ _ Hm) as Hep. set (c := run c0 sched) in *.
  destruct (decide (t = Read)) as [->|Ht].
  2: { unfold rinv in *. rewrite turn_reader_idle by done. destruct (reader c) as [|e|e v| |r]; [done|..].
       - split; [apply Hr|lia].
       - destruct Hr as (He & m & Hm' & Hv & Hle). split; [done|]. exists m.
         split_and!; [by apply passed_snoc|done|lia|lia].
       - done.
       - destruct Hr as (m & Hm' & Hs). exists m. split; [by apply passed_snoc|done]. }
  unfold rinv in Hr. cbn [turn]. unfold rinv. cbn [reader shared].
  destruct (reader c) as [|e|e v| |r] eqn:Hrd; cbn [reader_step].
  - destruct (N.eqb_spec (epoch (shared c) `mod` 2) 1) as [|Hne]; [done|]. split; [|lia].
    rewrite (w_odd _ Hw) in *. by destruct (some_active c).
  - destruct Hr as [He Hle]. split; [done|]. exists c.
    split_and!; [apply passed_now; [unfold reading; fold c; by rewrite Hrd|done]|done|lia|lia].
  - destruct Hr as (He & m & Hm' & Hv & Hle). destruct (N.eqb_spec e (epoch (shared c))) as [Heq|]; [|done].
    cbn [negb]. exists m. split; [by apply passed_snoc|].
    destruct Hm' as (_ & _ & Hwm). assert (epoch (shared m) = e) as Hem by lia.
    assert (some_active m = false) as Hq.
    { pose proof (w_odd _ Hwm) as Ho. rewrite Hem, He in Ho. by destruct (some_active m). }
    pose proof (w_quiet _ Hwm Hq) as Hag. unfold agrees in Hag.
    destruct (slot (shared m)) as [g|].
    + destruct Hag as [Hvg Hg]. destruct (N.eqb_spec v 0); [lia|]. congruence.
    + destruct (N.eqb_spec v 0); [done|congruence].
  - exists c. split; [|done]. apply passed_now; [unfold reading; fold c; by rewrite Hrd|done].
  - destruct Hr as (m & Hm' & Hs). exists m. split; [by apply passed_snoc|done].
Qed.

Lemma run_snoc c sched t : run c (sched ++ [t]) = turn (run c sched) t.
Proof. unfold run. by rewrite foldl_app. Qed.

Lemma exclusive_snoc c sched t :
  exclusive c (sched ++ [t]) = exclusive c sched && may (run c sched) t.
Proof.
  revert c. induction sched as [|x sched IH]; intros c; cbn; [by rewrite andb_true_r|].
  by rewrite IH, andb_assoc.
Qed.

Lemma run_invariants c0 sched :
  initial c0 → exclusive c0 sched = true → winv (run c0 sched) ∧ rinv c0 sched (run c0 sched).
Proof.
  intros Hi. induction sched as [|t sched IH] using rev_ind; intros Hx.
  - split; [by apply winv_initial|]. unfold rinv. cbn. destruct Hi as (_ & _ & -> & _). done.
  - rewrite exclusive_snoc in Hx. apply andb_prop in Hx as [Hx Hm]. destruct (IH Hx) as [Hw Hr].
    rewrite (run_snoc c0 sched t).
    split; [by apply turn_winv|by apply rinv_step].
Qed.

(** C15. Reading the generation while providers are installed, one install at
    a time: however the read's loads interleave with the installs' stores, it
    returns the generation of a provider that was the default one at a moment
    between the read's first load and its return. *)
Theorem read_is_current c0 sched r :
  initial c0 → exclusive c0 sched = true → reader (run c0 sched) = Done r →
  ∃ before after, sched = before ++ after ∧ reading (run c0 before) = true
                  ∧ slot (shared (run c0 before)) = r.
Proof.
  intros Hi Hx Hd. destruct (run_invariants c0 sched Hi Hx) as [_ Hr]. unfold rinv in Hr.
  rewrite Hd in Hr. destruct Hr as (m & ((b & a & Hs & ->) & Hrd & _) & Hslot). by exists b, a.
Qed.

Definition two_installs : Config :=
  {| shared := {| epoch := 0; value := 0; slot := None |};
     installs := [(1%N, BumpFirst); (2%N, BumpFirst)]; reader := Start |}.

Lemma read_is_current_witness :
  let sched := [Install 0; Install 0; Read; Install 0; Install 0; Install 1; Read] in
  ∃ before after, sched = before ++ after ∧ reading (run two_installs before) = true
                  ∧ slot (shared (run two_installs before)) = Some 1%N.
Proof.
  apply read_is_current; [|vm_compute; reflexivity|vm_compute; reflexivity].
  split_and!; [reflexivity|reflexivity|reflexivity|]. intros g pc Hin.
  apply elem_of_cons in Hin as [[= -> ->]|Hin]; [by split|].
  apply list_elem_of_singleton in Hin as [= -> ->]. by split.
Defined.

(** Two default installs that publish at the same time can leave the fast path
    wrong for good: after both have finished the epoch is even, the slot holds
    the second provider, and reads return the first one's generation. *)
Theorem concurrent_installs_stale :
  ∃ sched, let c := run two_installs sched in
    (∀ g pc, (g, pc) ∈ installs c → pc = Published)
    ∧ slot (shared c) = Some 2%N ∧ reader (run c [Read; Read; Read]) = Done (Some 1%N).
Proof.
  exists [Install 0; Install 0; Install 1; Install 1; Install 1; Install 0; Install 0; Install 1].
  split_and!; [|vm_compute; reflexivity|vm_compute; reflexivity].
  intros g pc Hin. vm_compute in Hin. apply elem_of_cons in Hin as [[= -> ->]|Hin]; [done|].
  by apply list_elem_of_singleton in Hin as [= -> ->].
Qed.
