(* ===== verification/FacadeFacts.v ===== *)
(** * Properties of the facade

    Lookups through the local cache against the runtime: what they answer and
    from which provider; Redis calls through the cache; the start-up from a
    configuration. *)
From S2P Require Import Prelude Errors RustStr Model Lru LocalCache SqlRoute Runtime Redis Facade.
From S2P Require Import Demo RuntimeFacts.
From S2P Require Loader ProviderConfig.

Section Facts.
Context {C : Type → Type → Type} {P E Conn : Type} `{LruLaws C} `{Hasher}
  `{!ProviderExecutor C P E} {pframe : ProviderFrame C P E}.
Abbreviation World := (World C P E).
Abbreviation M := (St World).
Abbreviation Cache := (FieldQueryCache C).
Implicit Types (w : World) (c : Cache) (h : ProviderHandle P) (ps qs : list DataField) (async : bool)
  (gen : option Generation).

(** ** The provider a lookup addresses *)

Lemma current_generation_ok (r : KnowledgeRuntime C P) :
  rt_ok r → current_generation r = generation <$> Runtime.provider r.
Proof.
  intros Hok. unfold current_generation, generation_read.
  rewrite (ok_epoch _ Hok), N.eqb_refl. cbn [negb N.eqb]. pose proof (ok_default _ Hok) as Hd.
  destruct (Runtime.provider r) as [h|]; cbn.
  - destruct Hd as [-> Hg]. destruct (N.eqb_spec (generation h) 0); [lia|done].
  - by rewrite Hd.
Qed.

(** the local scope and the handle of a call, default or named *)
Definition target (provider : option str) (scope : N) w : option (N * ProviderHandle P) :=
  match provider with
  | None => (λ h, (scope, h)) <$> Runtime.provider (rt w)
  | Some n => (λ h, (provider_scope scope n, h)) <$> named_providers (rt w) !! n
  end.

(** the query a lookup sends to its handle on a local miss *)
Definition answer (async : bool) (provider : option str) h (sql : str) qs : M (KnowledgeResult RowData) :=
  let sync := match provider with
              | None => bool_decide (kind h = SqliteAuthority)
              | Some _ => false
              end in
  if async && negb sync then execute_first_row_fields_async_with_handle h sql qs UseGlobal
  else execute_first_row_fields_with_handle h sql qs UseGlobal.

(** either routing function *)
Definition route (async : bool) (provider : option str) (sql : str) (scope : N) ps qs
  : St (World * Cache) RowData :=
  if async then cache_query_fields_route_async (Cache := Cache) provider sql scope ps (λ _, qs)
  else cache_query_fields_route (Cache := Cache) provider sql scope ps qs.

Definition prepared (scope : N) (gen : option Generation) c : Cache :=
  match gen with Some g => prepare_generation scope g c | None => c end.

(** the world after the local cache was asked: a counter and telemetry *)
Definition probe_world (scope : N) ps gen (k : option ProviderKind) w c : World :=
  (local_cache_hit (Cache := Cache) scope ps gen k (w, c)).2.1.

Lemma local_cache_hit_spec scope ps gen k w c :
  local_cache_hit (Cache := Cache) scope ps gen k (w, c)
  = (fetch_scoped scope ps (prepared scope gen c), (probe_world scope ps gen k w c, prepared scope gen c))
  ∧ ∃ counter event, probe_world scope ps gen k w c = (report event (record counter w).2).2.
Proof.
  unfold probe_world, local_cache_hit, prepared, mbind, st_bind, gets, on_cache, on_world, mret, st_ret.
  destruct gen; cbn [fst snd]; destruct (fetch_scoped _ _ _); (split; [done|]);
    eexists _, _; reflexivity.
Qed.

Lemma probe_same scope ps gen k w c :
  same_rt (rt w) (rt (probe_world scope ps gen k w c)) ∧ ext (probe_world scope ps gen k w c) = ext w
  ∧ now (probe_world scope ps gen k w c) = now w.
Proof. destruct (local_cache_hit_spec scope ps gen k w c) as (_ & k' & e & ->). done. Qed.

Lemma probe_steps scope ps gen k w c : rtc step w (probe_world scope ps gen k w c).
Proof.
  destruct (local_cache_hit_spec scope ps gen k w c) as (_ & k' & e & ->).
  eapply rtc_l; [apply (step_record k')|]. apply rtc_once. by apply step_outside.
Qed.

(** a lookup, spelled out *)
Lemma cached_lookup_spec scope ps gen k (run : M (KnowledgeResult RowData)) w c :
  cached_lookup (Cache := Cache) scope ps gen k run (w, c)
  = let w1 := probe_world scope ps gen k w c in
    match fetch_scoped scope ps (prepared scope gen c) with
    | Some row => (row, (w1, prepared scope gen c))
    | None =>
        match run w1 with
        | (Ok row, w2) => (row, (w2, save_scoped scope ps row (prepared scope gen c)))
        | (Err _, w2) => ([], (w2, prepared scope gen c))
        end
    end.
Proof.
  destruct (local_cache_hit_spec scope ps gen k w c) as [Hl _].
  unfold cached_lookup, mbind, st_bind. rewrite Hl. cbv zeta.
  destruct (fetch_scoped scope ps _); [done|]. unfold query_and_save, mbind, st_bind, on_world, on_cache.
  destruct (run _) as [[row|e] w2]; done.
Qed.

(** the query runs on the handle the lookup addressed *)
Lemma answer_default async h sql qs w1 :
  Runtime.provider (rt w1) = Some h →
  (if async then execute_first_row_fields_async sql qs UseGlobal
   else execute_first_row_fields sql qs UseGlobal) w1
  = answer async None h sql qs w1.
Proof.
  intros Hp. unfold answer, execute_first_row_fields_async, execute_first_row_fields, bind_res, mbind,
    st_bind, gets, current_handle. destruct async; rewrite Hp; cbn; [|done].
  case_decide as Hk; case_bool_decide; done.
Qed.

Lemma answer_named async n h sql qs w1 :
  named_providers (rt w1) !! n = Some h →
  (if async then execute_first_row_fields_for_async n sql qs UseGlobal
   else execute_first_row_fields_for n sql qs UseGlobal) w1
  = answer async (Some n) h sql qs w1.
Proof.
  intros Hp. unfold answer, execute_first_row_fields_for_async, execute_first_row_fields_for, bind_res,
    mbind, st_bind, gets, provider_by_name. destruct async; by rewrite Hp.
Qed.

(** both routing functions, in every case *)
Lemma route_spec async provider sql scope ps qs w c :
  rt_ok (rt w) →
  route async provider sql scope ps qs (w, c)
  = match target provider scope w with
    | Some (sc, h) =>
        let w1 := probe_world sc ps (Some (generation h)) (Some (kind h)) w c in
        let c1 := prepare_generation sc (generation h) c in
        match fetch_scoped sc ps c1 with
        | Some row => (row, (w1, c1))
        | None => match answer async provider h sql qs w1 with
                  | (Ok row, w2) => (row, (w2, save_scoped sc ps row c1))
                  | (Err _, w2) => ([], (w2, c1))
                  end
        end
    | None =>
        match provider with
        | None => (default [] (fetch_scoped scope ps c), (probe_world scope ps None None w c, c))
        | Some _ => ([], (w, c))
        end
    end.
Proof.
  intros Hok. unfold target. destruct provider as [n|].
  - assert (route async (Some n) sql scope ps qs (w, c)
            = match provider_by_name n (rt w) with
              | Err _ => ([], (w, c))
              | Ok h => cached_lookup (Cache := Cache) (provider_scope scope n) ps (Some (generation h))
                  (Some (kind h))
                  (if async then execute_first_row_fields_for_async n sql qs UseGlobal
                   else execute_first_row_fields_for n sql qs UseGlobal) (w, c)
              end) as ->.
    { unfold route, cache_query_fields_route_async, cache_query_fields_route, mbind, st_bind, gets.
      destruct async; cbn [fst]; by destruct (provider_by_name n (rt w)). }
    unfold provider_by_name.
    destruct (named_providers (rt w) !! n) as [h|] eqn:Hn; cbn [fmap option_fmap option_map ok_or]; [|done].
    rewrite cached_lookup_spec. cbv zeta. unfold prepared at 1 2 3 4.
    destruct (fetch_scoped (provider_scope scope n) ps _); [done|].
    rewrite (answer_named async n h); [done|].
    by rewrite <-(proj1 (probe_same _ _ _ _ _ _)).
  - assert (route async None sql scope ps qs (w, c)
            = cached_lookup (Cache := Cache) scope ps (current_generation (rt w))
                (current_provider_kind (rt w))
                (if async then execute_first_row_fields_async sql qs UseGlobal
                 else execute_first_row_fields sql qs UseGlobal) (w, c)) as ->
      by (by destruct async).
    rewrite (current_generation_ok _ Hok), cached_lookup_spec. unfold current_provider_kind. cbv zeta.
    destruct (Runtime.provider (rt w)) as [h|] eqn:Hp; cbn [fmap option_fmap option_map];
      unfold prepared at 1 2 3 4.
    + destruct (fetch_scoped scope ps _); [done|].
      rewrite (answer_default async h); [done|]. by rewrite <-(proj1 (probe_same _ _ _ _ _ _)).
    + destruct (fetch_scoped scope ps c); [done|].
      set (w1 := probe_world _ _ _ _ _ _).
      assert (Runtime.provider (rt w1) = None) as Hp1
        by (unfold w1; by rewrite <-(proj1 (probe_same _ _ _ _ _ _))).
      assert ((if async then execute_first_row_fields_async sql qs UseGlobal
               else execute_first_row_fields sql qs UseGlobal) w1
              = (Err (know_err from_logic [F "knowledge provider not initialized"]), w1)) as ->; [|done].
      unfold execute_first_row_fields_async, execute_first_row_fields, bind_res, mbind, st_bind, gets,
        current_handle. destruct async; by rewrite Hp1.
Qed.

(** ** What the local cache answers *)

(** a row that a lookup obtained from a provider and saved *)
Record Saved := {
  in_scope : N;
  under : list IdxKey;
  by_handle : ProviderHandle P;
  saved_row : RowData;
}.

(** the row a lookup saves: the local cache missed and the query succeeded *)
Definition fresh async provider sql scope ps qs w c : option Saved :=
  match target provider scope w with
  | None => None
  | Some (sc, h) =>
      match fetch_scoped sc ps (prepare_generation sc (generation h) c),
            (answer async provider h sql qs (probe_world sc ps (Some (generation h)) (Some (kind h)) w c)).1,
            keys_of ps with
      | None, Ok row, Some ks => Some {| in_scope := sc; under := ks; by_handle := h; saved_row := row |}
      | _, _, _ => None
      end
  end.

(** no index table is reset inside the save of this lookup *)
Definition smooth_lookup provider scope ps w c : bool :=
  match target provider scope w with
  | Some (sc, h) => smooth_save (prepare_generation sc (generation h) c) ps
  | None => true
  end.

(** A caller's cache over a run of the runtime: lookups of any kind, and any
    steps of other callers in between; with the rows saved so far. *)
Inductive lookups : list Saved → World → Cache → Prop :=
| lookups_start n w : reachable w → lookups [] w (with_capacity n)
| lookups_other log w w' c : lookups log w c → step w w' → lookups log w' c
| lookups_call log w c async provider sql scope ps qs row w' c' :
    lookups log w c → smooth_lookup provider scope ps w c = true →
    route async provider sql scope ps qs (w, c) = (row, (w', c')) →
    lookups (option_list (fresh async provider sql scope ps qs w c) ++ log) w' c'.

(** every row of the reference belongs to the scope's generation and was saved *)
Definition justified (log : list Saved) (s : Spec) : Prop :=
  ∀ sc ks r, rows s !! (sc, ks) = Some r →
    ∃ e, e ∈ log ∧ in_scope e = sc ∧ under e = ks ∧ saved_row e = r
         ∧ gens s !! sc = Some (generation (by_handle e)).

Lemma justified_prepare log s sc g : justified log s → justified log (spec_prepare sc g s).
Proof.
  intros Hj. unfold spec_prepare. case_decide as Hg; [done|]. intros sc' ks r. cbn.
  intros [Hr Hne]%map_lookup_filter_Some. simpl in Hne.
  destruct (Hj sc' ks r Hr) as (e & ? & ? & ? & ? & ?). exists e. split_and!; try done.
  by rewrite lookup_insert_ne.
Qed.

Lemma justified_save log s sc h ps ks row :
  justified log s → keys_of ps = Some ks → gens s !! sc = Some (generation h) →
  justified ({| in_scope := sc; under := ks; by_handle := h; saved_row := row |} :: log)
    (spec_save sc ps row s).
Proof.
  intros Hj Hks Hg. unfold spec_save. rewrite Hks. intros sc' ks' r. cbn.
  intros [[[= <- <-] <-]|[_ Hr]]%lookup_insert_Some.
  - eexists. split; [left|]. done.
  - destruct (Hj sc' ks' r Hr) as (e & ? & ?). exists e. split; [by right|done].
Qed.

Lemma save_no_keys c sc ps row :
  keys_of ps = None → ∀ s, spec_save sc ps row s = s.
Proof. intros Hk s. unfold spec_save. by rewrite Hk. Qed.

Lemma gens_prepare sc g s : gens (spec_prepare sc g s) !! sc = Some g.
Proof. unfold spec_prepare. case_decide as Hg; [done|]. apply lookup_insert_eq. Qed.


Lemma reachable_steps w w' : reachable w → rtc step w w' → reachable w'.
Proof. intros (st & o & Hr) Hs. exists st, o. by etransitivity. Qed.

Lemma target_generation provider scope w sc h :
  rt_ok (rt w) → target provider scope w = Some (sc, h) → (generation h ≤ next_generation (rt w))%N.
Proof.
  intros Hok. unfold target. destruct provider as [n|].
  - destruct (named_providers (rt w) !! n) as [h'|] eqn:Hn; [|done]. intros [= _ <-].
    apply (ok_named _ Hok _ _ Hn).
  - pose proof (ok_default _ Hok) as Hd. destruct (Runtime.provider (rt w)); [|done].
    intros [= _ <-]. apply Hd.
Qed.

Lemma answer_step async provider h sql qs w :
  (generation h ≤ next_generation (rt w))%N → step w (answer async provider h sql qs w).2.
Proof.
  intros Hg. unfold answer. cbv zeta. destruct (async && _); by constructor.
Qed.

Lemma lookup_steps async provider sql scope ps qs w c :
  rt_ok (rt w) → rtc step w (route async provider sql scope ps qs (w, c)).2.1.
Proof.
  intros Hok. rewrite (route_spec async provider sql scope ps qs w c Hok).
  destruct (target provider scope w) as [[sc h]|] eqn:Ht.
  - cbv zeta. set (w1 := probe_world _ _ _ _ _ _).
    assert (rtc step w w1) as Hs by apply probe_steps.
    destruct (fetch_scoped _ _ _); [done|].
    assert (step w1 (answer async provider h sql qs w1).2) as Ha.
    { apply answer_step. unfold w1. rewrite <-(proj1 (probe_same _ _ _ _ _ _)).
      by eapply target_generation. }
    destruct (answer _ _ _ _ _ w1) as [[row|e] w2]; cbn [fst snd] in *; by eapply rtc_r.
  - destruct provider; [done|]. apply probe_steps.
Qed.

Lemma lookups_inv log w c :
  lookups log w c → reachable w ∧ ∃ s, refines c s ∧ justified log s.
Proof.
  induction 1 as [n w Hw|log w w' c _ [Hw Hs] Hstep
    |log w c async provider sql scope ps qs row w' c' _ [Hw (s & Hr & Hj)] Hsm Hroute].
  - split; [done|]. exists spec_empty. split; [apply refines_init|]. intros sc ks r Hl. done.
  - split; [by eapply reachable_steps, rtc_once|done].
  - pose proof (reachable_ok _ Hw) as Hok.
    pose proof (lookup_steps async provider sql scope ps qs w c Hok) as Hsteps.
    rewrite Hroute in Hsteps. split; [by eapply reachable_steps|].
    rewrite (route_spec async provider sql scope ps qs w c Hok) in Hroute.
    unfold fresh. unfold smooth_lookup in Hsm.
    destruct (target provider scope w) as [[sc h]|]; cbv zeta in *.
    + set (w1 := probe_world _ _ _ _ _ _) in *. set (c1 := prepare_generation sc (generation h) c) in *.
      assert (refines c1 (spec_prepare sc (generation h) s)) as Hr1 by by apply refines_prepare.
      assert (justified log (spec_prepare sc (generation h) s)) as Hj1 by by apply justified_prepare.
      destruct (fetch_scoped sc ps c1).
      { injection Hroute as _ _ <-. by exists (spec_prepare sc (generation h) s). }
      destruct (answer async provider h sql qs w1) as [[r|e] w2]; injection Hroute as _ _ <-; cbn [fst].
      * exists (spec_save sc ps r (spec_prepare sc (generation h) s)). split; [by apply refines_save|].
        destruct (keys_of ps) as [ks|] eqn:Hks.
        -- apply justified_save; [done|done|apply gens_prepare].
        -- by rewrite save_no_keys.
      * by exists (spec_prepare sc (generation h) s).
    + exists s. destruct provider; injection Hroute as _ _ <-; by split.
Qed.


Lemma stays_below_smooth c ps : stays_below c ps = true → smooth_save c ps = true.
Proof. destruct ps; [done|]. cbn. by intros [_ ?]%andb_prop. Qed.

Lemma generations_saved c sc ps row :
  wf c → stays_below c ps = true → generations (save_scoped sc ps row c) = generations c.
Proof.
  intros Hwf Hb. destruct (up_all_below c ps Hwf Hb) as [(_ & _ & Hg & _) _].
  cbn [save_scoped field_query_cache]. destruct (up_all c ps) as [ixs c'] eqn:Hu. cbn in Hg.
  by destruct (mk_idxs ixs).
Qed.

Lemma prepare_known sc g c : generations c !! sc = Some g → prepare_generation sc g c = c.
Proof. intros Hg. cbn. unfold prepare_generation_scoped. by rewrite decide_True. Qed.

Lemma generations_prepared sc g c : generations (prepare_generation sc g c) !! sc = Some g.
Proof. destruct (prepare_spec c sc g) as (_ & _ & -> & _). apply lookup_insert_eq. Qed.

(** C17. A lookup that obtained its row answers the same parameters from the
    local cache as long as the provider is the same: the next lookup in the
    scope - synchronous or not, whatever its SQL and query parameters - gives
    the same row, asks nothing of the provider and leaves the cache as it is,
    unless the first one filled an index table. *)
Theorem lookup_again log w c async provider sql scope ps qs sc h e row w1 c1 :
  lookups log w c → target provider scope w = Some (sc, h) →
  stays_below (prepare_generation sc (generation h) c) ps = true →
  fresh async provider sql scope ps qs w c = Some e →
  route async provider sql scope ps qs (w, c) = (row, (w1, c1)) →
  row = saved_row e
  ∧ ∀ w2 async' sql' ps' qs', rt_ok (rt w2) → target provider scope w2 = Some (sc, h) →
      keys_of ps' = keys_of ps →
      ∃ w3, route async' provider sql' scope ps' qs' (w2, c1) = (row, (w3, c1))
            ∧ ext w3 = ext w2 ∧ same_rt (rt w2) (rt w3).
Proof.
  intros (Hw & s & Hr & _)%lookups_inv Ht Hb Hf Hroute.
  rewrite (route_spec async provider sql scope ps qs w c (reachable_ok _ Hw)), Ht in Hroute.
  cbv zeta in Hroute. unfold fresh in Hf. rewrite Ht in Hf.
  set (w0 := probe_world _ _ _ _ _ _) in *. set (c0 := prepare_generation sc (generation h) c) in *.
  destruct (fetch_scoped sc ps c0); [done|].
  destruct (answer async provider h sql qs w0) as [[r|err] w0']; [|done]. cbn [fst] in Hf.
  destruct (keys_of ps) as [ks|] eqn:Hks; [|done]. injection Hf as <-.
  assert (row = r ∧ c1 = save_scoped sc ps r c0) as [-> ->] by (split; congruence).
  split; [done|]. intros w2 async' sql' ps' qs' Hok2 Ht2 Hks'.
  assert (wf c0) as Hwf by apply (refines_prepare c s sc (generation h) Hr).
  rewrite (route_spec async' provider sql' scope ps' qs' w2 _ Hok2), Ht2. cbv zeta.
  rewrite (prepare_known sc (generation h) (save_scoped sc ps r c0)).
  2: { rewrite generations_saved by done. apply generations_prepared. }
  rewrite (fetch_saved c0 sc ps ps' r Hwf (stays_below_smooth _ _ Hb));
    [|by rewrite Hks|by rewrite Hks].
  eexists. split; [reflexivity|]. destruct (probe_same sc ps' (Some (generation h)) (Some (kind h)) w2
    (save_scoped sc ps r c0)) as (Hs & Hx & _). by split.
Qed.

(** ** Redis calls *)

Section RedisCalls.
Abbreviation Process := (@Process C P E Conn).
Implicit Types (p : Process).

(** a computation of the process that changes the runtime in counters only *)
Definition quiet {A} (m : St Process A) : Prop :=
  ∀ p, frame (kw p) (kw (m p).2).

#[local] Instance generation_proper : Proper (same_rt ==> eq) (@current_generation C P).
Proof.
  intros r r' Hr. unfold current_generation, current_generation_from_provider.
  assert (provider_epoch r = provider_epoch r') as -> by (by rewrite Hr).
  assert (current_generation_value r = current_generation_value r') as -> by (by rewrite Hr).
  by assert (Runtime.provider r = Runtime.provider r') as -> by (by rewrite Hr).
Qed.

(** what looking into the Redis cache leaves as it is *)
Lemma redis_get_keeps ck w :
  rt_ok (rt w) →
  let w' := (redis_cache_get ck w).2 in
  rt_ok (rt w') ∧ redis_global_enabled (rt w') = redis_global_enabled (rt w)
  ∧ redis_cache_enabled (rt w') = redis_cache_enabled (rt w)
  ∧ current_generation (rt w') = current_generation (rt w).
Proof.
  intros Hok w'. split; [by apply rt_ok_redis_get|]. unfold w', redis_cache_get, mbind, st_bind, gets.
  cbv beta. destruct (negb _); [done|].
  destruct (fetch_redis_cases ck w) as [->|[->|(e & _ & ->)]]; done.
Qed.

(** a call that missed the cache and succeeded leaves its entry there *)
Lemma redis_call_stores {A} cmd key args decode (encode : A → CachedRedisValue) ttl run p p1 g v :
  let ck := redis_cache_key cmd g key args in
  quiet run → rt_ok (rt (kw p)) →
  redis_global_enabled (rt (kw p)) = true → redis_cache_enabled (rt (kw p)) = true →
  current_generation (rt (kw p)) = Some g → (redis_cache_get ck (kw p)).1 = None →
  redis_cached cmd key args decode encode ttl true run p = (Ok v, p1) →
  redis_global_enabled (rt (kw p1)) = true ∧ redis_cache_enabled (rt (kw p1)) = true
  ∧ current_generation (rt (kw p1)) = Some g
  ∧ lru_peek ck (redis_cache (rt (kw p1)))
    = Some {| entry_value := encode v; entry_cached_at := now (kw p1); ttl_ms := default 0%N ttl |}.
Proof.
  intros ck Hq Hok Hg Hen Hgen Hmiss Hcall.
  unfold redis_cached, mbind, st_bind, gets, on_kw in Hcall. rewrite Hgen in Hcall. fold ck in Hcall.
  destruct (redis_get_keeps ck (kw p) Hok) as (Hok0 & Hg0 & Hen0 & Hgen0).
  destruct (redis_cache_get ck (kw p)) as [o w0]. cbn [fst snd] in *. subst o. cbn in Hcall.
  unfold bind_res, mbind, st_bind in Hcall. destruct (Hq (set_kw w0 p)) as [Hs Hn].
  destruct (run (set_kw w0 p)) as [[a|err] p']; [|done]. cbn [snd kw set_kw] in Hs.
  assert ((match ttl with
           | Some ttl => redis_cache_put_with_ttl ck (encode a) ttl
           | None => redis_cache_put ck (encode a)
           end) (kw p') = redis_cache_put_with_ttl ck (encode a) (default 0%N ttl) (kw p')) as Hput
    by (by destruct ttl).
  rewrite Hput in Hcall.
  assert (redis_global_enabled (rt (kw p')) = true) as Hg' by (rewrite <-Hs; congruence).
  assert (redis_cache_enabled (rt (kw p')) = true) as Hen'
    by (unfold redis_cache_enabled in *; rewrite <-Hs; congruence).
  pose proof (redis_put_rt ck (encode a) (default 0%N ttl) (kw p') Hg' Hen') as Hrt.
  assert (now (redis_cache_put_with_ttl ck (encode a) (default 0%N ttl) (kw p')).2 = now (kw p')) as Hnow.
  { unfold redis_cache_put_with_ttl, mbind, st_bind, gets. cbv beta. by destruct (negb _). }
  destruct (redis_cache_put_with_ttl ck (encode a) (default 0%N ttl) (kw p')) as [[] w2].
  cbn in Hcall, Hrt, Hnow. injection Hcall as -> <-. cbn [kw set_kw]. rewrite Hrt.
  split_and!; [exact Hg'|exact Hen'| |].
  - rewrite <-Hgen, <-Hgen0. symmetry. rewrite Hs. done.
  - cbn. cbn [kw set_kw]. rewrite Hnow. apply peek_put. rewrite <-Hs.
    apply (ok_redis _ Hok0).
Qed.

(** C34. A Redis answer is kept: when a call missed the cache and its command
    succeeded, the same call within the time-to-live, under the same
    generation, answers the same without running its command; without the
    cache the command alone is run. *)
Theorem redis_call_kept {A} cmd key args decode (encode : A → CachedRedisValue) ttl run run' p p1 p2 g v :
  (∀ a, decode (encode a) = Some a) → quiet run → rt_ok (rt (kw p)) →
  redis_global_enabled (rt (kw p)) = true → redis_cache_enabled (rt (kw p)) = true →
  current_generation (rt (kw p)) = Some g →
  (redis_cache_get (redis_cache_key cmd g key args) (kw p)).1 = None →
  redis_cached cmd key args decode encode ttl true run p = (Ok v, p1) →
  same_rt (rt (kw p1)) (rt (kw p2)) →
  (default 0 ttl = 0 ∨ now (kw p2) ≤ now (kw p1) + from_millis (default 0 ttl))%N →
  (redis_cached cmd key args decode encode ttl true run' p2).1 = Ok v
  ∧ ext (kw (redis_cached cmd key args decode encode ttl true run' p2).2) = ext (kw p2)
  ∧ redis_cached cmd key args decode encode ttl false run' p2 = run' p2.
Proof.
  intros Hde Hq Hok Hg Hen Hgen Hmiss Hcall Hsame Httl.
  set (ck := redis_cache_key cmd g key args) in *.
  set (e := {| entry_value := encode v; entry_cached_at := now (kw p1); ttl_ms := default 0%N ttl |}).
  destruct (redis_call_stores _ _ _ _ _ _ _ _ _ _ _ Hq Hok Hg Hen Hgen Hmiss Hcall) as (Hg1 & Hen1 & Hgen1 & Hp1).
  fold ck in Hp1. fold e in Hp1.
  destruct (redis_get_peek ck e (kw p2)) as [Hget Hext].
  { by rewrite <-Hsame. }
  { unfold redis_cache_enabled in *. by rewrite <-Hsame. }
  { by rewrite <-Hsame. }
  assert ((0 <? ttl_ms e)%N && (from_millis (ttl_ms e) <? elapsed (now (kw p2)) (entry_cached_at e))%N = false)
    as Hfresh.
  { unfold e. cbn. destruct Httl as [->|Hle]; [done|]. apply andb_false_intro2, N.ltb_ge.
    unfold elapsed. lia. }
  rewrite Hfresh in Hget.
  assert (current_generation (rt (kw p2)) = Some g) as Hgen2 by (by rewrite <-Hsame).
  unfold redis_cached, mbind, st_bind, gets, on_kw. rewrite Hgen2. fold ck.
  destruct (redis_cache_get ck (kw p2)) as [o w2]. cbn [fst snd] in *. subst o. cbn.
  rewrite Hde. by split_and!.
Qed.
End RedisCalls.

(** ** Start-up from [provider.sqldb] *)

Section Startup.
Context `{!Drivers (C := C) (P := P) (E := E)}.

(** connecting leaves the runtime alone *)
Class DriversFrame : Prop := {
  postgres_framed name cfg sc : framed (postgres_connect name cfg sc);
  mysql_framed cfg sc : framed (mysql_connect cfg sc);
}.
Context {dframe : DriversFrame}.

Definition spec_provider_kind (spec : Loader.SqlProviderSpec) : ProviderKind :=
  match Loader.spec_kind spec with Loader.SqlPostgres => Postgres | Loader.SqlMysql => Mysql end.

(** the handle a specification asks for, of a generation after [g] *)
Definition handle_of (spec : Loader.SqlProviderSpec) (g : Generation) h : Prop :=
  kind h = spec_provider_kind spec
  ∧ datasource_id h = from_seed (spec_provider_kind spec) (spec_seed spec)
  ∧ (g < generation h)%N.

Lemma install_sqldb_spec spec d w :
  rt_ok (rt w) → (next_generation (rt w) < u64_max)%N →
  let '(res, w') := install_sqldb spec d w in
  rt_ok (rt w') ∧ next_generation (rt w') = (next_generation (rt w) + 1)%N
  ∧ result_cache_config (rt w') = result_cache_config (rt w)
  ∧ match res with
    | Ok _ => ∃ h, handle_of spec (next_generation (rt w)) h
        ∧ named_providers (rt w') = <[Loader.effective_name spec := h]> (named_providers (rt w))
        ∧ Runtime.provider (rt w') = if d : bool then Some h else Runtime.provider (rt w)
    | Err _ => named_providers (rt w') = named_providers (rt w)
               ∧ Runtime.provider (rt w') = Runtime.provider (rt w)
    end.
Proof.
  intros Hok Hlt.
  assert (∃ build, (∀ g, framed (build g)) ∧
    install_sqldb spec d = discard (install_provider_named (Loader.effective_name spec)
      (spec_provider_kind spec) (from_seed (spec_provider_kind spec) (spec_seed spec)) build d))
    as (build & Hb & ->).
  { unfold install_sqldb, install_postgres_provider, install_mysql_provider, spec_provider_kind.
    destruct (Loader.spec_kind spec); (eexists; split; [|reflexivity]); intros g; apply dframe. }
  set (ds := from_seed _ _). unfold discard, fmap, st_fmap.
  pose proof (install_spec (Loader.effective_name spec) (spec_provider_kind spec) ds build d w) as Hs.
  pose proof (install_ok (Loader.effective_name spec) (spec_provider_kind spec) ds build d w Hb Hlt Hok) as Hok'.
  cbv zeta in Hs. set (g := wrap64 _) in *. set (w0 := set_rt _ w) in *.
  assert (g = next_generation (rt w) + 1)%N as Hg
    by (unfold g; apply wrap64_small; unfold u64_max in *; lia).
  destruct (Hb g w0) as [Hf _].
  destruct (build g w0) as [[pr|e] w1]; cbn [snd] in Hf;
    destruct (install_provider_named _ _ _ _ _ w) as [res w']; cbn [snd] in Hok';
    destruct Hs as (_ & -> & Hrt); cbn.
  - set (h := {| executor := pr |}) in *. split; [done|].
    assert (next_generation (rt w') = g) as -> by (rewrite Hrt; destruct d; cbn; by rewrite <-Hf).
    assert (result_cache_config (rt w') = result_cache_config (rt w)) as ->
      by (rewrite Hrt; destruct d; cbn; by rewrite <-Hf).
    split_and!; [done|done|]. exists h. split_and!; [by split_and!; cbn; [| |lia]| |].
    + rewrite Hrt. destruct d; cbn; by rewrite <-Hf.
    + rewrite Hrt. destruct d; cbn; [done|]. by rewrite <-Hf.
  - split; [done|].
    assert (next_generation (rt w') = g) as -> by (rewrite Hrt; by rewrite <-Hf).
    split; [done|]. split; [rewrite Hrt; by rewrite <-Hf|].
    split; rewrite Hrt; by rewrite <-Hf.
Qed.

Abbreviation name_of := Loader.effective_name.

(** [installed] specifications of [specs], in order, by a run that started at [w] *)
Definition installs (default : str) (installed : list Loader.SqlProviderSpec) w w' : Prop :=
  (∀ spec, spec ∈ installed → ∃ h, named_providers (rt w') !! name_of spec = Some h
                                   ∧ handle_of spec (next_generation (rt w)) h)
  ∧ (∀ n, n ∉ name_of <$> installed → named_providers (rt w') !! n = named_providers (rt w) !! n)
  ∧ Runtime.provider (rt w') = if bool_decide (default ∈ name_of <$> installed)
                               then named_providers (rt w') !! default else Runtime.provider (rt w).

Lemma installs_nil default w w' :
  named_providers (rt w') = named_providers (rt w) → Runtime.provider (rt w') = Runtime.provider (rt w) →
  installs default [] w w'.
Proof.
  intros Hn Hp. split_and!; [intros ? Hin; by apply not_elem_of_nil in Hin|by rewrite Hn|].
  by rewrite bool_decide_false by apply not_elem_of_nil.
Qed.

Lemma installs_cons default spec h installed w w1 w' :
  handle_of spec (next_generation (rt w)) h →
  named_providers (rt w1) = <[name_of spec := h]> (named_providers (rt w)) →
  Runtime.provider (rt w1) = (if bool_decide (name_of spec = default) then Some h
                              else Runtime.provider (rt w)) →
  (next_generation (rt w) ≤ next_generation (rt w1))%N → name_of spec ∉ name_of <$> installed →
  installs default installed w1 w' → installs default (spec :: installed) w w'.
Proof.
  intros Hh Hn Hp Hle Hni (Hin & Hout & Hd).
  assert (named_providers (rt w') !! name_of spec = Some h) as Hspec
    by (rewrite Hout, Hn by done; apply lookup_insert_eq).
  split_and!.
  - intros sp [->|Hsp]%elem_of_cons; [by exists h|]. destruct (Hin sp Hsp) as (h' & Hl & Hk & Hds & Hg).
    exists h'. split; [done|]. split_and!; [done|done|lia].
  - intros n [Hne Hni']%not_elem_of_cons. rewrite Hout, Hn by done. by rewrite lookup_insert_ne.
  - rewrite Hd, Hp, fmap_cons. destruct (decide (name_of spec = default)) as [<-|Hne].
    + rewrite (bool_decide_false _ Hni), !bool_decide_true by (done || left). done.
    + rewrite (bool_decide_false _ Hne).
      by rewrite (bool_decide_ext (default ∈ name_of <$> installed)
                    (default ∈ name_of spec :: (name_of <$> installed))) by set_solver.
Qed.

(** the specifications are installed in order, up to the first that fails *)
Lemma install_specs_spec default specs w :
  rt_ok (rt w) → (next_generation (rt w) + N.of_nat (length specs) ≤ u64_max)%N →
  NoDup (name_of <$> specs) →
  let '(res, w') := install_specs default specs w in
  rt_ok (rt w') ∧ result_cache_config (rt w') = result_cache_config (rt w)
  ∧ ∃ installed rest, specs = installed ++ rest ∧ installs default installed w w'
      ∧ match res with Ok _ => rest = [] | Err _ => rest ≠ [] end.
Proof.
  revert w. induction specs as [|spec specs IH]; intros w Hok Hle Hnd; cbn [install_specs].
  { split_and!; [done|done|]. exists [], []. by split_and!; [|apply installs_nil|]. }
  cbn [length] in Hle. apply NoDup_cons in Hnd as [Hni Hnd].
  pose proof (install_sqldb_spec spec (bool_decide (name_of spec = default)) w Hok ltac:(lia)) as Hone.
  unfold bind_res, mbind, st_bind.
  destruct (install_sqldb spec _ w) as [[u|e] w1]; destruct Hone as (Hok1 & Hn1 & Hc1 & Hone).
  - destruct Hone as (h & Hh & Hnamed & Hprov).
    specialize (IH w1 Hok1 ltac:(lia) Hnd). destruct (install_specs default specs w1) as [res w'].
    destruct IH as (Hok' & Hc' & installed & rest & -> & Hins & Hres).
    split_and!; [done|congruence|]. exists (spec :: installed), rest. split_and!; [done| |done].
    eapply installs_cons; try done; [lia|].
    intros (x & Hx & Hin)%list_elem_of_fmap. apply Hni. rewrite Hx. apply list_elem_of_fmap_2, elem_of_app.
    by left.
  - destruct Hone as [Hnamed Hprov]. split_and!; [done|done|].
    exists [], (spec :: specs). split_and!; [done|by apply installs_nil|done].
Qed.

(** the end of a start-up: the cache is configured, other names are pruned *)
Lemma configure_then_prune cache expected w1 :
  let w3 := (prune_named_providers_except expected (configure_cache cache w1).2).2 in
  named_providers (rt w3) = filter (λ e, e.1 ∈ expected) (named_providers (rt w1))
  ∧ Runtime.provider (rt w3) = Runtime.provider (rt w1)
  ∧ result_cache_config (rt w3)
    = {| Runtime.enabled := Loader.cache_enabled cache; capacity := Nat.max (Loader.cache_capacity cache) 1;
         ttl := from_millis (N.max (Loader.cache_ttl_ms cache) 1) |}
  ∧ ∀ n, n ∈ expected → named_providers (rt w3) !! n = named_providers (rt w1) !! n.
Proof.
  set (w2 := (configure_cache cache w1).2). set (w3 := (prune_named_providers_except expected w2).2).
  assert (named_providers (rt w2) = named_providers (rt w1) ∧ Runtime.provider (rt w2) = Runtime.provider (rt w1)
          ∧ result_cache_config (rt w2)
            = {| Runtime.enabled := Loader.cache_enabled cache; capacity := Nat.max (Loader.cache_capacity cache) 1;
                 ttl := N.max (from_millis (N.max (Loader.cache_ttl_ms cache) 1)) (from_millis 1) |})
    as (Hn2 & Hp2 & Hc2)
    by (unfold w2, configure_cache, configure_result_cache, on_rt, modify; cbn [snd rt set_rt]; cbv zeta;
        by destruct (negb _ || _)).
  assert (named_providers (rt w3) = filter (λ e, e.1 ∈ expected) (named_providers (rt w1))
          ∧ Runtime.provider (rt w3) = Runtime.provider (rt w1)
          ∧ result_cache_config (rt w3) = result_cache_config (rt w2)) as (Hn3 & Hp3 & Hc3).
  { rewrite <-Hn2, <-Hp2. unfold w3, prune_named_providers_except, on_rt, modify. cbn [snd rt set_rt].
    cbv zeta. by destruct (bool_decide (size _ = size _)). }
  split_and!; [done|done| |].
  - rewrite Hc3, Hc2. f_equal. unfold from_millis. lia.
  - intros n Hn. rewrite Hn3. destruct (named_providers (rt w1) !! n) as [h|] eqn:Hl.
    + by apply map_lookup_filter_Some.
    + apply map_lookup_filter_None. by left.
Qed.

(** C18. Start-up from the SQL providers of the configuration, whose names
    validation accepted.  On success exactly these names are registered, each
    with a handle of its own kind and data source built in this start-up; the
    default provider is the one named "default" or, without one, the first;
    the result cache is configured as the file says.  On an error the
    providers before the failing one are installed, and everything else is as
    it was: other names, the default if it was not among them, the cache's
    configuration. *)
Theorem init_sqldb_installs cache first rest expected w :
  reachable w → (next_generation (rt w) + N.of_nat (S (length rest)) ≤ u64_max)%N →
  Loader.validate_specs (first :: rest) = Ok expected →
  let '(res, w') := init_sqldb cache first (first :: rest) w in
  match res with
  | Ok _ =>
      dom (named_providers (rt w')) = expected
      ∧ (∀ spec, spec ∈ first :: rest → ∃ h, named_providers (rt w') !! name_of spec = Some h
                                             ∧ handle_of spec (next_generation (rt w)) h)
      ∧ (∃ h, named_providers (rt w') !! default_name expected first = Some h
              ∧ Runtime.provider (rt w') = Some h)
      ∧ result_cache_config (rt w')
        = {| Runtime.enabled := Loader.cache_enabled cache; capacity := Nat.max (Loader.cache_capacity cache) 1;
             ttl := from_millis (N.max (Loader.cache_ttl_ms cache) 1) |}
  | Err _ =>
      ∃ installed failed later, first :: rest = installed ++ failed :: later
        ∧ installs (default_name expected first) installed w w'
        ∧ result_cache_config (rt w') = result_cache_config (rt w)
  end.
Proof.
  intros Hw Hle Hv. pose proof (reachable_ok _ Hw) as Hok.
  pose proof (proj1 (Loader.validate_loop_spec _ _ _) Hv) as (_ & Hnd & _ & Hexp).
  rewrite union_empty_r_L in Hexp.
  unfold init_sqldb, bind_res, mbind, st_bind, mret, st_ret. rewrite Hv. cbn [fst snd].
  pose proof (install_specs_spec (default_name expected first) (first :: rest) w Hok Hle Hnd) as Hs.
  destruct (install_specs _ _ w) as [[u|e] w1]; destruct Hs as (Hok1 & Hc1 & installed & later & Heq & Hins & Hres).
  2: { destruct later as [|failed later]; [done|]. by exists installed, failed, later. }
  subst later. rewrite app_nil_r in Heq. subst installed. destruct Hins as (Hin & Hout & Hd).
  set (r1 := rt w1) in *. set (w2 := (configure_cache cache w1).2).
  assert (∀ n, n ∈ expected ↔ n ∈ name_of <$> first :: rest) as Hexp'
    by (intros n; by rewrite Hexp, elem_of_list_to_set).
  destruct (configure_then_prune cache expected w1) as (Hn3 & Hp3 & Hc3 & Hkeep).
  fold w2 in Hn3, Hp3, Hc3, Hkeep.
  set (w3 := (prune_named_providers_except expected w2).2) in *. fold r1 in Hn3, Hp3, Hkeep.
  assert (∀ spec, spec ∈ first :: rest → name_of spec ∈ expected) as Hspec
    by (intros spec Hs; apply Hexp'; by apply (list_elem_of_fmap_2 name_of)).
  assert (default_name expected first ∈ expected) as Hdef.
  { unfold default_name. destruct (decide (Loader.DEFAULT_SQLDB_NAME ∈ expected)) as [Hin'|Hni].
    - by rewrite bool_decide_true.
    - rewrite bool_decide_false by done. apply Hspec. left. }
  change (configure_cache cache w1) with (tt, w2). cbv beta iota.
  change (prune_named_providers_except expected w2) with (tt, w3). cbv beta iota.
  clearbody w3. split_and!.
  - apply set_eq. intros n. rewrite elem_of_dom. split.
    + intros [h Hl]. rewrite Hn3 in Hl. by apply map_lookup_filter_Some in Hl as [_ ?].
    + intros Hn. rewrite (Hkeep n Hn). apply Hexp', list_elem_of_fmap in Hn as (spec & -> & Hs).
      destruct (Hin spec Hs) as (h & -> & _). by eexists.
  - intros spec Hs. rewrite Hkeep by by apply Hspec. by apply Hin.
  - rewrite Hkeep by done. pose proof Hdef as Hd'. apply Hexp', list_elem_of_fmap in Hd' as (spec & Heq & Hs).
    destruct (Hin spec Hs) as (h & Hl & _). exists h. rewrite Heq, Hl. split; [done|].
    rewrite Hp3, Hd, bool_decide_true by by apply Hexp'. by rewrite Heq.
  - done.
Qed.
End Startup.
End Facts.
Arguments DriversFrame C P E {_}.

(** ** Witnesses *)

#[global] Instance demo_drivers_frame : DriversFrame ListLru.t N N.
Proof. split; intros; intros w; done. Qed.

Definition demo_installed : DemoWorld :=
  (install_provider_named (lit "default") Postgres (lit "id") (demo_build 7) true demo_world).2.
Definition demo_params : list DataField := [from_int [120%N] 1].
Definition demo_lookup (s : DemoWorld * FieldQueryCache ListLru.t) :=
  route false None (lit "select 1") 3 demo_params [] s.

Lemma demo_lookups : lookups [] demo_installed (with_capacity (C := ListLru.t) 4).
Proof.
  eapply lookups_other; [apply lookups_start, demo_reachable|].
  apply step_install; [apply demo_build_framed|done|done].
Qed.


Lemma lookup_again_witness :
  let '(row, (w1, c1)) := demo_lookup (demo_installed, with_capacity 4) in
  row = [from_int (lit "call") 1] ∧ (demo_lookup (w1, c1)).1 = row ∧ ext w1 = 1%N
  ∧ ext (demo_lookup (w1, c1)).2.1 = 1%N.
Proof.
  destruct (demo_lookup (demo_installed, with_capacity 4)) as [row [w1 c1]] eqn:Hd.
  destruct (lookup_again [] demo_installed (with_capacity 4) false None (lit "select 1") 3 demo_params [] 3
    {| executor := 7%N; datasource_id := lit "id"; generation := 1; kind := Postgres |}
    {| in_scope := 3; under := [KInt 1]; by_handle := {| executor := 7%N; datasource_id := lit "id";
       generation := 1; kind := Postgres |}; saved_row := [from_int (lit "call") 1] |} row w1 c1
    demo_lookups eq_refl eq_refl ltac:(vm_compute; reflexivity) Hd) as [Hrow Hagain].
  assert (reachable w1 ∧ target None 3 w1 = Some (3%N, {| executor := 7%N; datasource_id := lit "id";
       generation := 1; kind := Postgres |}) ∧ ext w1 = 1%N) as (Hw1 & Ht1 & Hx1).
  { assert (w1 = (demo_lookup (demo_installed, with_capacity 4)).2.1) as -> by (by rewrite Hd).
    pose proof (proj1 (lookups_inv _ _ _ demo_lookups)) as Hreach. split_and!.
    - apply (reachable_steps demo_installed); [exact Hreach|].
      apply (lookup_steps false None (lit "select 1") 3 demo_params []). by apply reachable_ok.
    - vm_compute. reflexivity.
    - vm_compute. reflexivity. }
  destruct (Hagain w1 false (lit "select 1") demo_params [] (reachable_ok _ Hw1) Ht1 eq_refl)
    as (w3 & Hr & Hx & _).
  unfold demo_lookup. rewrite Hr. cbn [fst snd]. split_and!; [done|done|done|by rewrite Hx].
Defined.

(** a process with the Redis provider registered, a SQL provider installed
    and two named calls on the same Redis key *)
Definition demo_funs : gmap str Loader.FunSpec :=
  <[lit "seen" := {| Loader.fun_call := Loader.FcBfExists; Loader.fun_key := Some (lit "ips");
                     Loader.fun_cache := true; Loader.fun_ttl_ms := None |}]>
  {[lit "listed" := {| Loader.fun_call := Loader.FcSismember; Loader.fun_key := Some (lit "ips");
                       Loader.fun_cache := true; Loader.fun_ttl_ms := None |}]}.

Definition demo_redis : @Process ListLru.t N N N :=
  {| kw := demo_installed;
     reg := (register KNOWDB (lit "redis://db") {| conn := 5%N; command_timeout := 100 |} registry_new).2;
     FUN_MAP := register_fun_map demo_funs None; intranet := IntranetNets.intranet_init |}.

Lemma demo_hget_quiet :
  quiet (P := N) (E := N) (C := ListLru.t) (Conn := N)
    (on_reg (λ r, hget r KNOWDB (lit "k") (lit "f"))).
Proof.
  intros p. unfold on_reg, on_kw, hget, run_cmd. destruct (resolve_pool (reg p) KNOWDB) as [[t c]|e]; done.
Qed.

(** a process on which a first call missed the cache, and what it left *)
Lemma demo_hget_call :
  ∃ p p1 : @Process ListLru.t N N N, rt_ok (rt (kw p)) ∧ redis_global_enabled (rt (kw p)) = true
  ∧ redis_cache_enabled (rt (kw p)) = true ∧ current_generation (rt (kw p)) = Some 1%N
  ∧ (redis_cache_get (redis_cache_key HGet 1 (lit "k") [lit "f"]) (kw p)).1 = None
  ∧ redis_hget (lit "k") (lit "f") p = (Ok (Some (lit "HGET")), p1) ∧ ext (kw p1) = 1%N.
Proof.
  pose proof (surjective_pairing (redis_hget (lit "k") (lit "f") demo_redis)) as Hp.
  assert ((redis_hget (lit "k") (lit "f") demo_redis).1 = Ok (Some (lit "HGET"))) as He
    by (vm_compute; reflexivity).
  rewrite He in Hp. exists demo_redis. eexists. split_and!; [|..|exact Hp|]; [|vm_compute; reflexivity..].
  apply reachable_ok, (proj1 (lookups_inv _ _ _ demo_lookups)).
Qed.

Lemma redis_call_kept_witness :
  ∃ p p1 : @Process ListLru.t N N N,
    redis_hget (lit "k") (lit "f") p = (Ok (Some (lit "HGET")), p1)
    ∧ (redis_hget (lit "k") (lit "f") p1).1 = Ok (Some (lit "HGET"))
    ∧ ext (kw (redis_hget (lit "k") (lit "f") p1).2) = 1%N.
Proof.
  destruct demo_hget_call as (p & p1 & Hok & Hg & Hen & Hgen & Hmiss & Hcall & Hext).
  exists p, p1. split; [exact Hcall|].
  destruct (redis_call_kept HGet (lit "k") [lit "f"] as_opt_string ROptString None
    (on_reg (λ r, hget r KNOWDB (lit "k") (lit "f")))
    (on_reg (λ r, hget r KNOWDB (lit "k") (lit "f"))) p p1 p1 1%N (Some (lit "HGET"))
    (λ _, eq_refl) demo_hget_quiet Hok Hg Hen Hgen Hmiss Hcall eq_refl (or_introl eq_refl))
    as (Hr & Hx & _).
  split; [exact Hr|]. rewrite <-Hext. exact Hx.
Defined.

Lemma init_sqldb_installs_witness :
  let first := demo_spec (Some "geo"%string) Loader.SqlMysql "mysql://a" in
  let other := demo_spec None Loader.SqlPostgres "postgres://b" in
  let w' := (init_sqldb Loader.cache_spec_default first [first; other] demo_world).2 in
  dom (named_providers (rt w')) = {[lit "default"; lit "geo"]}
  ∧ ∃ h, Runtime.provider (rt w') = Some h ∧ kind h = Postgres.
Proof.
  intros first other w'.
  destruct (Loader.validate_specs [first; other]) as [expected|e] eqn:Hv;
    [|vm_compute in Hv; discriminate Hv].
  pose proof (proj1 (Loader.validate_loop_spec _ _ _) Hv) as (_ & _ & _ & Hexp).
  pose proof (init_sqldb_installs Loader.cache_spec_default first [other] expected demo_world
                demo_reachable ltac:(vm_compute; discriminate) Hv) as Hw.
  assert (is_ok (init_sqldb Loader.cache_spec_default first [first; other] demo_world).1 = true) as Hok
    by (vm_compute; reflexivity).
  unfold w'. destruct (init_sqldb Loader.cache_spec_default first [first; other] demo_world) as [[u|e] w1];
    [|discriminate Hok].
  destruct Hw as (Hdom & Hspecs & (h & Hl & Hp) & _). cbn [snd]. split.
  - rewrite Hdom, Hexp. cbn [list_to_set fmap list_fmap].
    change (Loader.effective_name first) with (lit "geo").
    change (Loader.effective_name other) with (lit "default"). set_solver.
  - exists h. split; [exact Hp|]. destruct (Hspecs other ltac:(right; left)) as (h' & Hl' & Hk & _).
    assert (default_name expected first = lit "default") as Hdef.
    { unfold default_name. rewrite bool_decide_true; [done|]. rewrite Hexp.
      cbn [list_to_set fmap list_fmap]. change (Loader.effective_name other) with (lit "default").
      change Loader.DEFAULT_SQLDB_NAME with (lit "default"). set_solver. }
    rewrite Hdef in Hl. change (Loader.effective_name other) with (lit "default") in Hl'.
    rewrite Hl in Hl'. injection Hl' as <-. exact Hk.
Defined.

(** Two named calls with different commands on one Redis key share their
    cache entries: after the Bloom filter answered, the set's membership is
    answered with the filter's value. *)
Theorem external_exists_collides :
  ∃ p a b arg,
    let p1 := (external_exists (C := ListLru.t) (P := N) (E := N) (Conn := N) a arg p).2 in
    a ≠ b ∧ (external_exists b arg p1).1 = Ok true ∧ (fun_external_exists b arg p1).1 = Ok false.
Proof.
  exists demo_redis, (lit "seen"), (lit "listed"), (lit "10.0.0.1"). intros p1.
  split_and!; [by_eval|vm_compute; reflexivity|vm_compute; reflexivity].
Qed.
