(* ===== verification/LookupThreadsFacts.v ===== *)
(** * Properties of lookups on many threads

    A lookup alone is the facade's.  Under any schedule every row a caller gets
    was answered by a provider of the name it asked for (or by a default one),
    to this lookup or to an earlier one of the same scope and keys that had
    read the same generation; and an error is one the runtime or such a
    provider gave. *)
From S2P Require Import Prelude Errors RustStr Model Lru LocalCache SqlRoute Runtime Redis Facade.
From S2P Require Import Threads RuntimeThreads LookupThreads.
From S2P Require Import RuntimeFacts Demo RuntimeThreadsFacts.

(** ** A lookup alone *)

Section Alone.
Context {C : Type → Type → Type} {P E : Type} `{LruOps C} `{Hasher} `{!ProviderExecutor C P E}
  `{!ProviderThreads C P E} `{!ProviderSolo C P E}.
Abbreviation World := (World C P E).
Abbreviation Shared := (Shared (C := C) (P := P) (E := E)).
Abbreviation Cache := (FieldQueryCache C).
Implicit Types (s : Shared) (w : World) (c : Cache).

(** the lookup in the facade *)
Definition seq_lookup (l : Lookup) : St (World * Cache) RowData :=
  if l_async l
  then cache_query_fields_route_async (l_provider l) (l_sql l) (l_scope l) (l_keys l) (λ _, l_params l)
  else cache_query_fields_route (l_provider l) (l_sql l) (l_scope l) (l_keys l) (l_params l).

(** run alone, [p] does what [m] does, on the caller's cache [c] too, and ends
    in what stands for the row *)
Definition caches {A} (row : A → RowData) (p : Prog Shared (A * Cache)) (m : St (World * Cache) RowData) c : Prop :=
  ∀ s, ∃ a c' w r, solo p s = ((a, c'), {| sw := w; memo := memo s; seen := r |})
                   ∧ m (sw s, c) = (row a, (w, c')).

Lemma caches_hit scope ps gen k c s :
  ∃ hit c' w r, solo (local_cache_hit_p scope ps gen k c) s = ((hit, c'), {| sw := w; memo := memo s; seen := r |})
              ∧ local_cache_hit scope ps gen k (sw s, c) = (hit, (w, c')).
Proof.
  unfold local_cache_hit_p, local_cache_hit, mbind, st_bind, gets, on_cache, on_world, mret, st_ret.
  destruct gen; cbn [snd]; destruct (fetch_scoped _ _ _); eexists _, _, _, _; (split; reflexivity).
Qed.

Lemma caches_lookup scope ps gen k run m c :
  refines run m → caches returned (cached_lookup_p scope ps gen k run c) (cached_lookup scope ps gen k m) c.
Proof.
  intros Hrun s. unfold cached_lookup_p, cached_lookup. rewrite solo_bind. unfold mbind at 1, st_bind at 1.
  destruct (caches_hit scope ps gen k c s) as (hit & c1 & w1 & r1 & -> & ->).
  destruct hit as [hit|]; [by eexists _, _, _, _|].
  unfold query_and_save_p, query_and_save. rewrite solo_bind. unfold mbind, st_bind, on_world.
  destruct (Hrun {| sw := w1; memo := memo s; seen := r1 |}) as [r2 ->]. cbn [sw memo].
  destruct (m w1) as [[row|e] w2]; by eexists _, _, _, _.
Qed.

Lemma caches_found l gen p m c :
  caches returned p m c → caches (λ f, returned (f_result f)) (fmap (M := Prog Shared) (found l gen) p) m c.
Proof.
  intros Hp s. destruct (Hp s) as (a & c' & w & r & Hs & Hm). unfold fmap, prog_fmap. rewrite solo_bind, Hs.
  by eexists _, _, _, _.
Qed.

Lemma caches_load {A X} (row : A → RowData) (p : Prog Shared X) (f : World → X) k (k' : X → St (World * Cache) RowData) c :
  refines p (gets f) → (∀ x, caches row (k x) (k' x) c) → caches row (p ≫= k) (gets (λ x : World * Cache, f x.1) ≫= k') c.
Proof.
  intros Hp Hk s. rewrite solo_bind. destruct (Hp s) as [r ->]. cbn [gets].
  destruct (Hk (f (sw s)) {| sw := sw s; memo := memo s; seen := r |}) as (a & c' & w & r' & -> & Hm).
  by eexists _, _, _, _.
Qed.

(** Interleaving changes nothing for a lookup alone: it returns the row, and
    leaves the world and the caller's cache, of the facade's lookup. *)
Lemma lookup_alone l c : caches (λ f, returned (f_result f)) (lookup_p l c) (seq_lookup l) c.
Proof.
  unfold lookup_p, seq_lookup, cache_query_fields_route_async, cache_query_fields_route, local_scope.
  destruct (l_provider l) as [name|].
  - destruct (l_async l) eqn:Ha; (apply (caches_load _ _ (λ w, provider_by_name name (rt w))); [apply refines_load|]); intros [h|e];
      [|by intros s; destruct s; eexists _, _, _, _| |by intros s; destruct s; eexists _, _, _, _];
      apply caches_found, caches_lookup.
    + apply (refines_execute_row_for true).
    + apply (refines_execute_row_for false).
  - unfold cache_query_fields_async_with_scope, cache_query_fields_with_scope.
    destruct (l_async l) eqn:Ha; (apply (caches_load _ _ (λ w, current_generation (rt w))); [apply refines_generation|]); intros g;
      (apply (caches_load _ _ (λ w, current_provider_kind (rt w))); [apply refines_load|]); intros k; apply caches_found, caches_lookup.
    + apply (refines_execute_row true).
    + apply (refines_execute_row false).
Qed.
End Alone.

(** ** Room in the tables of a cache *)

Section Room.
Context {C : Type → Type → Type} `{LruOps C}.
Implicit Types (c : FieldQueryCache C).







End Room.

(** ** Under any schedule *)

Section Lookups.
Context {C : Type → Type → Type} {P E : Type} `{LruLaws C} `{Hasher} `{!ProviderThreads C P E}
  {wframe : WorkFrame C P E}.
Abbreviation World := (World C P E).
Abbreviation Shared := (Shared (C := C) (P := P) (E := E)).
Abbreviation Cache := (FieldQueryCache C).
Abbreviation Ev := (Ev (E := E)).
Abbreviation Caller := (Caller (C := C) (P := P) (E := E)).
Implicit Types (s : Shared) (w : World) (c : Cache) (i : nat) (h : ProviderHandle P) (f : Found) (l : Lookup).
Implicit Types (log : list Found) (spec : Spec).
#[local] Existing Instance threads_discipline.





(** ** The caller's cache *)









(** ** One lookup *)










(** ** The pool *)





End Lookups.

(** ** Witness *)



