(* ===== verification/RefreshFacts.v ===== *)
(** * Properties of the refresh service

    Invariants of every run, the store as the last successful reload, the pace
    of the tickers, the end of an aborted service, and what a fair run
    guarantees: reloads go on and every generation is published. *)
From S2P Require Import Prelude Errors Model Lru Runtime SqliteDb Authority Facade RuntimeFacts Refresh.
From S2P Require Loader Vel.
Import Refresh.Service.

Section Facts.
Context {Proc : Type} (reload : RefreshSpec → St Proc (KnowledgeResult (list RowData))) `{Ticker}.
Abbreviation RefreshService := (RefreshService Proc).
Abbreviation Event := (Event Proc).
Abbreviation step := (step reload).
Abbreviation run := (run reload).
Implicit Types (s : RefreshService) (e : Event) (t : Task).

(** ** Steps *)

Lemma run_cons e es s :
  run (e :: es) s = ((step e s).1 ++ (run es (step e s).2).1, (run es (step e s).2).2).
Proof.
  change (run (e :: es) s) with (let '(o, s) := step e s in let '(os, s) := run es s in (o ++ os, s)).
  destruct (step e s) as [o s1]. cbn [fst snd]. by destruct (run es s1).
Qed.

(** a property of everything seen so far and the state, kept by every event
    that [ok] allows, holds after every run of such events *)
Lemma run_keeps (I : list Obs → RefreshService → Prop) (ok : Event → Prop) es os s :
  (∀ os s e, ok e → I os s → I (os ++ (step e s).1) (step e s).2) →
  Forall ok es → I os s → I (os ++ (run es s).1) (run es s).2.
Proof.
  intros Hstep Hok. revert os s. induction Hok as [|e es He _ IH]; intros os s HI.
  { cbn. by rewrite app_nil_r. }
  rewrite run_cons. cbn [fst snd]. rewrite app_assoc. apply IH. by apply Hstep.
Qed.

(** where an aborted task is stopped *)
Definition awaits (ph : Phase) (suspends : bool) : bool :=
  match ph with Spawned | First _ | Waiting _ => true | Reloading _ => suspends | _ => false end.

(** One poll of a task, as a relation: what is seen, the next phase, and the
    state but for that phase. *)
Inductive polled (i : nat) (b : bool) (s : RefreshService) (t : Task)
  : list Obs → Phase → RefreshService → Prop :=
| polled_stay :
    (match phase t with
     | First d | Waiting d => (clock s < d)%N ∧ aborted t = false
     | Reloading _ => b = true ∧ aborted t = false
     | Exited => True
     | _ => False
     end) → polled i b s t [] (phase t) s
| polled_abort : aborted t = true → awaits (phase t) b = true → polled i b s t [] Exited s
| polled_zero : aborted t = false → phase t = Spawned → interval (spec t) = 0%N → polled i b s t [] Exited s
| polled_spawn : aborted t = false → phase t = Spawned → interval (spec t) ≠ 0%N →
    polled i b s t [] (First (clock s)) s
| polled_first d : aborted t = false → phase t = First d → (d ≤ clock s)%N →
    polled i b s t [] (Waiting (next_tick (interval (spec t)) d (clock s))) s
| polled_start d : aborted t = false → phase t = Waiting d → (d ≤ clock s)%N →
    polled i b s t [Started i] (Reloading (next_tick (interval (spec t)) d (clock s))) s
| polled_ok d rows p : b = false → phase t = Reloading d → reload (spec t) (process s) = (Ok rows, p) →
    polled i b s t [Reloaded i (Ok rows)] (Swapping d rows) (set_process p s)
| polled_err d err p : b = false → phase t = Reloading d → reload (spec t) (process s) = (Err err, p) →
    polled i b s t [Reloaded i (Err err)] (Waiting d) (set_process p s)
| polled_swap d rows : phase t = Swapping d rows →
    polled i b s t [] (Signalling d)
      (set_store (insert {| data_name := name (spec t); rows := rows |} (store s)) s)
| polled_closed d : phase t = Signalling d → rx_open s = false → polled i b s t [Signalled i Closed] Exited s
| polled_full d : phase t = Signalling d → rx_open s = true → DEFAULT_SIGNAL_CAPACITY ≤ length (signals s) →
    polled i b s t [Signalled i Full] (Waiting d) s
| polled_sent d : phase t = Signalling d → rx_open s = true → length (signals s) < DEFAULT_SIGNAL_CAPACITY →
    polled i b s t [Signalled i Sent] (Waiting d)
      (set_signals (signals s ++ [{| sig_name := name (spec t) |}]) s).

Lemma goto_same i t s : tasks s !! i = Some t → goto i t (phase t) s = s.
Proof.
  intros Ht. unfold goto, set_tasks. destruct s, t; cbn in *. f_equal. by apply list_insert_id.
Qed.

Lemma run_spec_polled i b s t : tasks s !! i = Some t →
  ∃ o ph s1, polled i b s t o ph s1 ∧ run_spec reload i b s = (o, goto i t ph s1).
Proof.
  intros Ht. unfold run_spec. rewrite Ht.
  assert ((match phase t with
     | First d | Waiting d => (clock s < d)%N ∧ aborted t = false
     | Reloading _ => b = true ∧ aborted t = false
     | Exited => True
     | _ => False
     end) → ∃ o ph s1, polled i b s t o ph s1 ∧ ([], s) = (o, goto i t ph s1)) as Hstay.
  { intros Hp. exists [], (phase t), s. split; [by constructor|]. by rewrite goto_same. }
  destruct (phase t) as [|d|d|d|d rows|d|] eqn:Hph.
  - destruct (aborted t) eqn:Ha; [by do 3 eexists; split; [apply polled_abort; [|rewrite Hph]|]|].
    destruct (interval (spec t) =? 0)%N eqn:Hz; bool_guard; do 3 eexists; (split; [|done]);
      [by apply polled_zero|by apply polled_spawn].
  - destruct (aborted t) eqn:Ha; [by do 3 eexists; split; [apply polled_abort; [|rewrite Hph]|]|].
    destruct (d <=? clock s)%N eqn:Hd; bool_guard; [|by apply Hstay].
    do 3 eexists; (split; [|done]); by eapply polled_first.
  - destruct (aborted t) eqn:Ha; [by do 3 eexists; split; [apply polled_abort; [|rewrite Hph]|]|].
    destruct (d <=? clock s)%N eqn:Hd; bool_guard; [|by apply Hstay].
    do 3 eexists; (split; [|done]); by eapply polled_start.
  - destruct b.
    { destruct (aborted t) eqn:Ha; [|by apply Hstay].
      by do 3 eexists; split; [apply polled_abort; [|rewrite Hph]|]. }
    destruct (reload (spec t) (process s)) as [[rows|err] p] eqn:Hr; do 3 eexists; (split; [|done]);
      [by eapply polled_ok|by eapply polled_err].
  - do 3 eexists; (split; [|done]). by apply polled_swap.
  - unfold try_send. destruct (rx_open s) eqn:Hrx; cbn [negb].
    + case_bool_decide; do 3 eexists; (split; [|done]); [by eapply polled_full|eapply polled_sent; try done; lia].
    + do 3 eexists; (split; [|done]). by eapply polled_closed.
  - by apply Hstay.
Qed.

Lemma run_spec_none i b s : tasks s !! i = None → run_spec reload i b s = ([], s).
Proof. intros Ht. unfold run_spec. by rewrite Ht. Qed.

Lemma polled_tasks i b s t o ph s1 : polled i b s t o ph s1 → tasks s1 = tasks s ∧ clock s1 = clock s.
Proof. by destruct 1. Qed.

Lemma step_recv s : step Recv s = match signals s with
  | sig :: rest => ([Received (Some sig)], set_signals rest s)
  | [] => (if negb (rx_open s) || forallb exited (tasks s) then [Received None] else [], s)
  end.
Proof. cbn. unfold recv. destruct (signals s); [by destruct (_ || _)|done]. Qed.

Ltac rest :=
  split_and!;
    first [done|by intros; split_and!|by auto|intros; congruence|intros []; congruence|lia
          |by let Hd := fresh in intros Hd; destruct (Hd _ eq_refl)|intros; apply not_elem_of_nil|set_solver].

(** Every event is the poll of an existing task or leaves all phases alone. *)
Lemma step_cases e s :
  (∃ i b t o ph s1, e = Poll i b ∧ tasks s !! i = Some t ∧ polled i b s t o ph s1
                    ∧ step e s = (o, goto i t ph s1))
  ∨ (∃ f, (∀ t, spec (f t) = spec t ∧ phase (f t) = phase t ∧ (aborted t = true → aborted (f t) = true))
          ∧ tasks (step e s).2 = f <$> tasks s ∧ ((e ≠ Shutdown ∧ e ≠ Drop) → f = id) ∧ (∀ i, Started i ∉ (step e s).1)
          ∧ (∀ i r, Reloaded i r ∉ (step e s).1) ∧ (clock s ≤ clock (step e s).2)%N
          ∧ ((∀ d, e ≠ Seed d) → store (step e s).2 = store s)
          ∧ (∀ i b, e = Poll i b → tasks s !! i = None)).
Proof.
  assert (∀ l : list Task, l = id <$> l) as Hid by (intros l; by rewrite list_fmap_id).
  assert (∀ t, spec (abort t) = spec t ∧ phase (abort t) = phase t
               ∧ (aborted t = true → aborted (abort t) = true)) as Ha by done.
  destruct e as [i b|ns| |d| | | |f]; cbn;
    [|right; exists id; rest| |right; exists id; rest|right; exists id; rest| | |right; exists id; rest].
  - destruct (tasks s !! i) as [t|] eqn:Ht.
    + left. destruct (run_spec_polled i b s t Ht) as (o & ph & s1 & Hp & Heq).
      exists i, b, t, o, ph, s1. by split_and!.
    + right. exists id. unfold run_spec. rewrite Ht. rest.
  - right. exists id. unfold recv. destruct (signals s); [destruct (_ || _)|]; cbn; rest.
  - right. exists abort. rest.
  - right. exists abort. rest.
Qed.

(** ** The tasks of a service *)

Lemma first_specs_elem seen specs sp : (sp ∈ first_specs seen specs) ↔
  (name sp ∉ seen) ∧ ∃ l1 l2, specs = l1 ++ sp :: l2 ∧ name sp ∉ name <$> l1.
Proof.
  revert seen. induction specs as [|x specs IH]; intros seen; cbn.
  { split; [by intros ?%not_elem_of_nil|]. intros (_ & [|??] & ? & ? & _); simplify_eq. }
  case_bool_decide as Hx; [|rewrite elem_of_cons]; rewrite IH; clear IH; split.
  - intros (Hs & l1 & l2 & -> & Hn). split; [done|]. exists (x :: l1), l2. split; [done|].
    apply not_elem_of_cons. split; [congruence|done].
  - intros (Hs & [|y l1] & l2 & Heq & Hn); simplify_eq/=; [done|]. apply not_elem_of_cons in Hn as [_ Hn].
    split; [done|]. by exists l1, l2.
  - intros [->|(Hs & l1 & l2 & -> & Hn)].
    + split; [done|]. exists [], specs. split; [done|]. apply not_elem_of_nil.
    + split; [set_solver|]. exists (x :: l1), l2. split; [done|]. apply not_elem_of_cons.
      split; [set_solver|done].
  - intros (Hs & [|y l1] & l2 & Heq & Hn); simplify_eq/=; [by left|]. right.
    apply not_elem_of_cons in Hn as [Hne Hn]. split; [|by exists l1, l2].
    apply not_elem_of_union. split; [by apply not_elem_of_singleton|done].
Qed.

Lemma first_specs_names seen specs : NoDup (name <$> first_specs seen specs).
Proof.
  revert seen. induction specs as [|x specs IH]; intros seen; cbn; [constructor|].
  case_bool_decide; [done|]. cbn. constructor; [|done]. rewrite list_elem_of_fmap. intros (y & Hn & Hy).
  apply first_specs_elem in Hy as [Hy _]. rewrite Hn in Hy. set_solver.
Qed.

Lemma spawned_specs specs seed now (p : Proc) :
  spec <$> tasks (spawn_with_store specs seed now p) = first_specs ∅ specs.
Proof. cbn. rewrite <-list_fmap_compose. apply list_fmap_id. Qed.

Lemma step_specs e s : spec <$> tasks (step e s).2 = spec <$> tasks s.
Proof.
  destruct (step_cases e s) as [(i & b & t & o & ph & s1 & -> & Ht & Hp & ->)|(f & Hf & -> & _)].
  - cbn. rewrite (proj1 (polled_tasks _ _ _ _ _ _ _ Hp)), list_fmap_insert. cbn.
    apply list_insert_id. rewrite list_lookup_fmap. by rewrite Ht.
  - rewrite <-list_fmap_compose. apply list_fmap_ext. intros ???. apply Hf.
Qed.

(** snapshots are replaced, never removed *)
Lemma step_store_mono e s n : is_Some (store s !! n) → is_Some (store (step e s).2 !! n).
Proof.
  intros Hn.
  assert (∀ d, is_Some (insert d (store s) !! n)) as Hins
    by (intros d; unfold insert; by apply lookup_insert_is_Some'; right).
  destruct e as [i b|ns| |d| | | |f]; try done;
    [cbn [Service.step]|rewrite step_recv; by destruct (signals s)|apply Hins].
  destruct (tasks s !! i) as [t|] eqn:Ht; [|by rewrite run_spec_none].
  destruct (run_spec_polled i b s t Ht) as (o & ph & s1 & Hp & ->). cbn. destruct Hp; try done. apply Hins.
Qed.

Definition store_ok s : Prop := ∀ n d, snapshot n (store s) = Some d → data_name d = n.
Definition queue_ok (os : list Obs) s : Prop :=
  length (signals s) ≤ DEFAULT_SIGNAL_CAPACITY
  ∧ (∀ sig, sig ∈ signals s ∨ Received (Some sig) ∈ os → is_Some (store s !! sig_name sig))
  ∧ (∀ i t d, tasks s !! i = Some t → phase t = Signalling d → is_Some (store s !! name (spec t))).

Lemma insert_ok d s : store_ok s → store_ok (set_store (insert d (store s)) s).
Proof.
  intros Hs n d'. cbn. unfold snapshot, insert. rewrite lookup_insert_Some.
  intros [[<- <-]|[_ Hd]]; [done|by apply Hs].
Qed.

Lemma step_store_ok e s : store_ok s → store_ok (step e s).2.
Proof.
  intros Hs. destruct e as [i b|ns| |d| | | |f]; try done;
    [cbn [Service.step]|rewrite step_recv; by destruct (signals s)|by apply insert_ok].
  destruct (tasks s !! i) as [t|] eqn:Ht; [|by rewrite run_spec_none].
  destruct (run_spec_polled i b s t Ht) as (o & ph & s1 & Hp & ->).
  change (store_ok (goto i t ph s1)) with (store_ok s1). destruct Hp; try done. by apply insert_ok.
Qed.

Lemma queue_ok_mono os o s s' :
  (∀ n, is_Some (store s !! n) → is_Some (store s' !! n)) →
  (∀ sig, sig ∈ signals s' → sig ∈ signals s) → length (signals s') ≤ length (signals s) →
  (∀ sig, Received (Some sig) ∈ o → sig ∈ signals s) →
  (∀ i t' d, tasks s' !! i = Some t' → phase t' = Signalling d →
     ∃ t, tasks s !! i = Some t ∧ phase t = Signalling d ∧ spec t' = spec t) →
  queue_ok os s → queue_ok (os ++ o) s'.
Proof.
  intros Hm Hs Hl Ho Ht (Hq & Hsig & Hp). split_and!; [lia| |].
  - intros sig [Hin|Hin]; apply Hm, Hsig; [left; auto|]. apply elem_of_app in Hin as [?|?]; [by right|left; auto].
  - intros i t' d Ht' Hph. destruct (Ht i t' d Ht' Hph) as (t & Hi & Hph' & ->). eapply Hm, Hp; eauto.
Qed.

Lemma polled_queue_ok os i b s t o ph s1 :
  tasks s !! i = Some t → polled i b s t o ph s1 → queue_ok os s → queue_ok (os ++ o) (goto i t ph s1).
Proof.
  intros Ht Hp (Hq & Hsig & Htp).
  assert (∀ n, is_Some (store s !! n) → is_Some (store s1 !! n)) as Hm.
  { intros n Hn. destruct Hp; try done. cbn. unfold insert. apply lookup_insert_is_Some'. by right. }
  assert (∀ sig, Received (Some sig) ∉ o) as Ho by (intros sig; destruct Hp; set_solver).
  split_and!.
  - destruct Hp; cbn; try done. rewrite length_app. cbn. lia.
  - intros sig Hin. apply Hm. rewrite elem_of_app in Hin.
    assert (sig ∈ signals s1 ∨ Received (Some sig) ∈ os) as [Hin'|Hin'] by naive_solver; [|by apply Hsig; right].
    destruct Hp; try (by apply Hsig; left). cbn in Hin'. apply elem_of_app in Hin' as [Hin'|Hin'].
    + by apply Hsig; left.
    + apply list_elem_of_singleton in Hin' as ->. by eapply Htp.
  - intros j t' d Hj Hph. cbn in Hj. rewrite (proj1 (polled_tasks _ _ _ _ _ _ _ Hp)) in Hj.
    apply list_lookup_insert_Some in Hj as [(-> & <- & _)|(_ & Hj)]; [|by eapply Hm, Htp].
    cbn in *. destruct Hp; simplify_eq; cbn.
    + by destruct (phase t).
    + unfold insert. rewrite lookup_insert_eq. by eexists.
Qed.

Lemma step_queue_ok os e s : queue_ok os s → queue_ok (os ++ (step e s).1) (step e s).2.
Proof.
  intros Hs.
  destruct e as [i b|ns| |d| | | |f]; try (apply (queue_ok_mono os _ s); cbn; [done|set_solver|done|set_solver|by eauto|done]).
  - destruct (tasks s !! i) as [t|] eqn:Ht.
    + cbn [Service.step]. destruct (run_spec_polled i b s t Ht) as (o & ph & s1 & Hp & ->).
      by apply (polled_queue_ok os i b s).
    + cbn [Service.step]. rewrite run_spec_none by done. by rewrite app_nil_r.
  - rewrite step_recv. destruct (signals s) as [|sig rest] eqn:Hsig.
    + apply (queue_ok_mono os _ s); [done|done|done| |eauto|done]. rewrite Hsig. intros sig.
      destruct (_ || _); cbn; set_solver.
    + apply (queue_ok_mono os _ s); cbn; rewrite ?Hsig; [done|set_solver|cbn; lia|set_solver|eauto|done].
  - apply (queue_ok_mono os _ s); [|done|done|cbn; set_solver|eauto|done].
    intros n Hn. by apply (step_store_mono (Seed d)).
  - apply (queue_ok_mono os _ s); [done|done|done|cbn; set_solver| |done].
    intros i t' d Hi Hph. cbn in Hi. rewrite list_lookup_fmap in Hi.
    destruct (tasks s !! i) as [t|]; simplify_eq/=. by exists t.
  - apply (queue_ok_mono os _ s); [done|cbn; set_solver|cbn; lia|cbn; set_solver| |done].
    intros i t' d Hi Hph. cbn in Hi. rewrite list_lookup_fmap in Hi.
    destruct (tasks s !! i) as [t|]; simplify_eq/=. by exists t.
Qed.

(** C30. Every run of a service from a well-named store: one task for each
    name, the first specification that has it; at most 1024 signals wait; each
    snapshot stands under its own name; and every signal, waiting or received,
    is about a table that has a snapshot. *)
Theorem refresh_invariant specs seed now p es :
  (∀ n d, snapshot n seed = Some d → data_name d = n) →
  let '(os, s) := run es (spawn_with_store specs seed now p) in
  NoDup (name <$> (spec <$> tasks s))
  ∧ (∀ sp, (sp ∈ spec <$> tasks s) ↔ ∃ l1 l2, specs = l1 ++ sp :: l2 ∧ name sp ∉ name <$> l1)
  ∧ length (signals s) ≤ DEFAULT_SIGNAL_CAPACITY
  ∧ (∀ n d, snapshot n (store s) = Some d → data_name d = n)
  ∧ (∀ sig, sig ∈ signals s ∨ Received (Some sig) ∈ os → ∃ d, snapshot (sig_name sig) (store s) = Some d).
Proof.
  intros Hseed. set (s0 := spawn_with_store specs seed now p).
  pose proof (run_keeps (λ os s, spec <$> tasks s = first_specs ∅ specs ∧ store_ok s ∧ queue_ok os s)
    (λ _, True) es [] s0) as Hrun.
  cbn [app] in Hrun. destruct (run es s0) as [os s]. destruct Hrun as (Hspecs & Hstore & Hq & Hsig & _).
  - intros os' s' e _ (Hsp & Hst & Hq). rewrite step_specs.
    split_and!; [done|by apply step_store_ok|by apply step_queue_ok].
  - by apply Forall_true.
  - split_and!; [apply spawned_specs|done|]. split_and!; [cbn; lia| |].
    + intros sig [Hin|Hin]; cbn in Hin; set_solver.
    + intros i t d Hi Hph. cbn in Hi. rewrite list_lookup_fmap in Hi.
      destruct (first_specs ∅ specs !! i); simplify_eq/=.
  - cbn [fst snd] in *. rewrite Hspecs. split_and!; [apply first_specs_names| |done|done|done].
    intros sp. rewrite first_specs_elem. set_solver.
Qed.

(** ** The store holds the last successful reloads *)

(** the rows of the successful reloads of task [i], in order *)
Definition successes (i : nat) (os : list Obs) : list (list RowData) :=
  omap (λ o, match o with
             | Reloaded j (Ok rows) => if bool_decide (j = i) then Some rows else None
             | _ => None
             end) os.

(** a generation that is loaded and not yet published *)
Definition pending (ph : Phase) : list (list RowData) :=
  match ph with Swapping _ rows => [rows] | _ => [] end.

Definition published (seed : TableStore) (n : str) (done : list (list RowData)) : option TableData :=
  match last done with
  | Some rows => Some {| data_name := n; rows := rows |}
  | None => snapshot n seed
  end.

Lemma successes_app i os os' : successes i (os ++ os') = successes i os ++ successes i os'.
Proof. apply omap_app. Qed.

Lemma successes_none i os : (∀ r, Reloaded i r ∉ os) → successes i os = [].
Proof.
  induction os as [|o os IH]; intros Hno; [done|].
  assert (successes i os = []) as IH' by (apply IH; intros r Hr; apply (Hno r); by right).
  destruct o as [|j r| |]; try done. cbn. destruct r as [rows|]; [|done].
  case_bool_decide as Hj; [|done]. subst j. destruct (Hno (Ok rows)). by left.
Qed.

(** what a poll publishes of the rows at hand *)
Lemma polled_published i b s t o ph s1 : polled i b s t o ph s1 →
  ∃ pub, pending (phase t) ++ successes i o = pub ++ pending ph
    ∧ ((pub = [] ∧ store s1 = store s)
       ∨ ∃ rows, pub = [rows] ∧ store s1 = insert {| data_name := name (spec t); rows := rows |} (store s)).
Proof.
  destruct 1 as [Hp|Ha Hw|Ha Hp|Ha Hp|d Ha Hp|d Ha Hp|d rows p -> Hp|d err p -> Hp|d rows Hp|d Hp|d Hp|d Hp];
    cbn; rewrite ?Hp, ?bool_decide_true by done; cbn;
    try (exists []; split; [done|by left]).
  - exists []. split; [by rewrite app_nil_r|by left].
  - exists []. split; [by destruct (phase t)|by left].
  - exists [rows]. split; [done|right]. by exists rows.
Qed.

Lemma polled_others i b s t o ph s1 j r : polled i b s t o ph s1 → j ≠ i → Reloaded j r ∉ o.
Proof. destruct 1; set_solver. Qed.

Definition holds_last (seed : TableStore) (os : list Obs) s : Prop :=
  ∀ i t, tasks s !! i = Some t → ∃ done, successes i os = done ++ pending (phase t)
                                         ∧ snapshot (name (spec t)) (store s) = published seed (name (spec t)) done.

Lemma polled_holds_last seed os i b s t o ph s1 :
  NoDup (name <$> (spec <$> tasks s)) → tasks s !! i = Some t → polled i b s t o ph s1 →
  holds_last seed os s → holds_last seed (os ++ o) (goto i t ph s1).
Proof.
  intros Hnd Ht Hp Hold j t' Hj. cbn in Hj. rewrite (proj1 (polled_tasks _ _ _ _ _ _ _ Hp)) in Hj.
  destruct (polled_published _ _ _ _ _ _ _ Hp) as (pub & Hpub & Hst). rewrite successes_app.
  change (store (goto i t ph s1)) with (store s1).
  apply list_lookup_insert_Some in Hj as [(-> & <- & _)|(Hne & Hj)]; cbn.
  - destruct (Hold _ _ Ht) as (done & -> & Hsnap). exists (done ++ pub).
    rewrite <-app_assoc, Hpub, app_assoc. split; [done|].
    destruct Hst as [[-> ->]|(rows & -> & ->)]; [by rewrite app_nil_r|].
    unfold published. rewrite last_snoc. apply lookup_insert_eq.
  - destruct (Hold _ _ Hj) as (done & -> & Hsnap). exists done.
    rewrite (successes_none j o), app_nil_r by (intros r; by eapply polled_others).
    split; [done|]. rewrite <-Hsnap. destruct Hst as [[_ ->]|(rows & _ & ->)]; [done|].
    apply lookup_insert_ne. cbn. intros Heq. apply Hne. eapply (NoDup_lookup _ i j); [exact Hnd| |].
    + by rewrite !list_lookup_fmap, Ht.
    + rewrite !list_lookup_fmap, Hj. cbn. by rewrite Heq.
Qed.

Lemma step_holds_last seed os e s :
  NoDup (name <$> (spec <$> tasks s)) → (∀ d, e ≠ Seed d) →
  holds_last seed os s → holds_last seed (os ++ (step e s).1) (step e s).2.
Proof.
  intros Hnd He Hold.
  destruct (step_cases e s) as [(i & b & t & o & ph & s1 & -> & Ht & Hp & ->)|(f & Hf & Htf & _ & _ & Hno & _ & Hst & _)].
  { by eapply polled_holds_last. }
  intros i t' Hi. rewrite Htf, list_lookup_fmap in Hi. rewrite successes_app, (successes_none i (step e s).1), app_nil_r by auto.
  rewrite (Hst He). destruct (tasks s !! i) as [t|] eqn:Ht; [|done]. injection Hi as <-.
  destruct (Hf t) as (-> & -> & _). by apply Hold.
Qed.

(** C12. Whatever the interleaving, the store holds for each task's table the
    rows of its last successful reload, the one still being published excepted,
    and what the store was started with as long as there is none: failed
    reloads, dropped signals, other tables' tasks, the receiver and a shutdown
    leave the snapshot as it is. *)
Theorem store_holds_last_reload specs seed now p es :
  (∀ d, Seed d ∉ es) →
  let '(os, s) := run es (spawn_with_store specs seed now p) in
  ∀ i t, tasks s !! i = Some t →
    ∃ done, successes i os = done ++ pending (phase t)
            ∧ snapshot (name (spec t)) (store s) = published seed (name (spec t)) done.
Proof.
  intros Hes. set (s0 := spawn_with_store specs seed now p).
  pose proof (run_keeps (λ os s, NoDup (name <$> (spec <$> tasks s)) ∧ holds_last seed os s)
    (λ e, ∀ d, e ≠ Seed d) es [] s0) as Hrun.
  cbn [app] in Hrun. destruct (run es s0) as [os s]. apply Hrun.
  - intros os' s' e He (Hnd & Hold). rewrite step_specs. split; [done|]. by apply step_holds_last.
  - apply Forall_forall. intros e He d ->. by apply (Hes d).
  - split; [unfold s0; rewrite spawned_specs; apply first_specs_names|].
    intros i t Hi. cbn in Hi. rewrite list_lookup_fmap in Hi.
    destruct (first_specs ∅ specs !! i); simplify_eq/=. by exists [].
Qed.

(** ** The pace of the tickers *)

(** the number of reloads task [i] has started *)
Definition starts (i : nat) (os : list Obs) : nat :=
  length (omap (λ o, match o with
                     | Started j => if bool_decide (j = i) then Some tt else None
                     | _ => None
                     end) os).

Lemma starts_app i os os' : starts i (os ++ os') = starts i os + starts i os'.
Proof. unfold starts. by rewrite omap_app, length_app. Qed.

Lemma starts_none i os : Started i ∉ os → starts i os = 0.
Proof.
  unfold starts. induction os as [|o os IH]; intros Hno; [done|].
  apply not_elem_of_cons in Hno as [Ho Hno]. destruct o; cbn; try by apply IH.
  case_bool_decide; [by subst|by apply IH].
Qed.

(** [n] reloads since [now]: each took an interval, the next deadline lies one
    further, and without an interval the task never gets to its ticker *)
Definition paced (now clock : N) (t : Task) (n : nat) : Prop :=
  let iv := interval (spec t) in
  (now + N.of_nat n * iv ≤ clock)%N
  ∧ match phase t with
    | Spawned => n = 0
    | First d => n = 0 ∧ iv ≠ 0%N ∧ (now ≤ d)%N
    | Waiting d | Reloading d | Swapping d _ | Signalling d =>
        iv ≠ 0%N ∧ (now + (N.of_nat n + 1) * iv ≤ d)%N
    | Exited => iv = 0%N → n = 0
    end.

(** the documentation of [interval]: the next deadline is at least a period
    after the one met, which has passed *)
Class TickerLaw : Prop :=
  next_after period timeout now : (timeout ≤ now → timeout + period ≤ next_tick period timeout now)%N.

Lemma polled_paced `{TickerLaw} now i b s t o ph s1 n :
  polled i b s t o ph s1 → paced now (clock s) t n →
  paced now (clock s) {| spec := spec t; phase := ph; aborted := aborted t |} (n + starts i o).
Proof.
  intros Hp (Hc & Hph). pose proof (next_after (interval (spec t))) as Hn. unfold paced. cbn [spec phase].
  set (iv := interval (spec t)) in *.
  destruct Hp as [Hp|Ha Hw|Ha Hp|Ha Hp|d Ha Hp Hd|d Ha Hp Hd|d rows p Hb Hp|d err p Hb Hp|d rows Hp|d Hp|d Hp|d Hp];
    rewrite ?Hp in Hph; cbn; rewrite ?bool_decide_true by done; cbn; rewrite ?Nat.add_0_r; fold iv;
    try (split; [done|]); try done.
  - clear Hw. destruct (phase t); intuition lia.
  - subst n. split_and!; [done|done|lia].
  - destruct Hph as (-> & ? & ?). specialize (Hn d (clock s) Hd). split; [done|]. lia.
  - destruct Hph as (? & ?). specialize (Hn d (clock s) Hd). split; [|split; [done|]]; lia.
  - intros ?. by destruct Hph.
Qed.

(** C39. No table is reloaded more often than its interval allows: after any
    run, the reloads a task has started, at an interval each, fit in the time
    since the service was started - so none starts before the first interval
    is over - and a specification with a zero interval is never reloaded. *)
Theorem refresh_pace `{TickerLaw} specs seed now p es :
  let '(os, s) := run es (spawn_with_store specs seed now p) in
  ∀ i t, tasks s !! i = Some t →
    (now + N.of_nat (starts i os) * interval (spec t) ≤ clock s)%N
    ∧ (interval (spec t) = 0%N → starts i os = 0).
Proof.
  set (s0 := spawn_with_store specs seed now p).
  pose proof (run_keeps (λ os s, ∀ i t, tasks s !! i = Some t → paced now (clock s) t (starts i os))
    (λ e, True) es [] s0) as Hrun.
  cbn [app] in Hrun. destruct (run es s0) as [os s]. intros i t Ht. cbn [fst snd] in Hrun.
  assert (paced now (clock s) t (starts i os)) as (Hc & Hph).
  { apply Hrun; [| |intros j t' Hj|done]; clear Hrun Ht.
    - intros os' s' e _ Hold j t' Hj.
      destruct (step_cases e s') as [(k & b & tk & o & ph & s1 & -> & Hk & Hp & Heq)|(f & Hf & Htf & _ & Hno & _ & Hcl & _)].
      + rewrite Heq in *. cbn [fst snd] in *. destruct (polled_tasks _ _ _ _ _ _ _ Hp) as [Hts Hcs].
        cbn in Hj |- *. rewrite Hts in Hj. rewrite Hcs, starts_app.
        apply list_lookup_insert_Some in Hj as [(-> & <- & _)|(Hne & Hj)]; [by eapply polled_paced, Hold|].
        rewrite (starts_none j o), Nat.add_0_r; [by apply Hold|]. destruct Hp; set_solver.
      + rewrite Htf, list_lookup_fmap in Hj. rewrite starts_app, (starts_none j (step e s').1), Nat.add_0_r by auto.
        destruct (tasks s' !! j) as [t0|] eqn:Ht0; [|done]. injection Hj as <-.
        destruct (Hold _ _ Ht0) as [Hc Hph]. destruct (Hf t0) as (Hsp & Hpf & _). unfold paced. rewrite Hsp, Hpf.
        split; [lia|done].
    - by apply Forall_true.
    - cbn in Hj. rewrite list_lookup_fmap in Hj. destruct (first_specs ∅ specs !! j); simplify_eq/=.
      split; cbn; [lia|done]. }
  split; [done|]. intros Hz. rewrite Hz in Hph. destruct (phase t); naive_solver.
Qed.

(** ** The end of a service *)

(** the polls an aborted task still needs when its reload does not suspend *)
Definition left (ph : Phase) : nat :=
  match ph with Exited => 0 | Signalling _ => 2 | Swapping _ _ => 3 | Reloading _ => 4 | _ => 1 end.

Definition is_poll (i : nat) e : bool :=
  match e with Poll j false => bool_decide (j = i) | _ => false end.
Definition polls (i : nat) (es : list Event) : nat := length (filter (λ e, is_poll i e = true) es).

Lemma polls_cons i e es : polls i (e :: es) = (if is_poll i e then 1 else 0) + polls i es.
Proof. unfold polls. rewrite filter_cons. by destruct (is_poll i e). Qed.

Lemma polled_left i b s t o ph s1 : aborted t = true → polled i b s t o ph s1 →
  (∀ j, Started j ∉ o) ∧ left ph ≤ left (phase t) ∧ (b = false → left ph ≤ left (phase t) - 1).
Proof.
  intros Ha Hp. split; [intros j; destruct Hp; try congruence; set_solver|].
  destruct Hp as [Hp|_ Hw|Ha'|Ha'|d Ha'|d Ha'|d rows p Hb Hp|d err p Hb Hp|d rows Hp|d Hp|d Hp|d Hp];
    try congruence; rewrite ?Hp; cbn; try lia.
  - split; [done|]. intros ->. destruct (phase t); try done; destruct Hp; congruence.
Qed.

(** no task but aborted ones *)
Definition all_aborted s : Prop := ∀ i t, tasks s !! i = Some t → aborted t = true.

Lemma step_all_aborted e s : all_aborted s → all_aborted (step e s).2 ∧ (∀ j, Started j ∉ (step e s).1).
Proof.
  intros Hall.
  destruct (step_cases e s) as [(k & b & tk & o & ph & s1 & -> & Hk & Hp & ->)|(f & Hf & Htf & _ & Hno & _)].
  - destruct (polled_left _ _ _ _ _ _ _ (Hall _ _ Hk) Hp) as [Hno _]. split; [|done].
    intros j t' Hj. cbn in Hj. rewrite (proj1 (polled_tasks _ _ _ _ _ _ _ Hp)) in Hj.
    apply list_lookup_insert_Some in Hj as [(-> & <- & _)|(_ & Hj)]; [by eapply (Hall _ tk)|by eapply Hall].
  - split; [|done]. intros j t' Hj. rewrite Htf, list_lookup_fmap in Hj.
    destruct (tasks s !! j) as [t0|] eqn:Ht0; [|done]. injection Hj as <-. apply Hf. by eapply Hall.
Qed.

Lemma step_left e s i t : tasks s !! i = Some t → all_aborted s →
  ∃ t', tasks (step e s).2 !! i = Some t' ∧ left (phase t') ≤ left (phase t) - (if is_poll i e then 1 else 0).
Proof.
  intros Ht Hall.
  destruct (step_cases e s) as [(k & b & tk & o & ph & s1 & -> & Hk & Hp & ->)
                               |(f & Hf & Htf & _ & _ & _ & _ & _ & Hpoll)].
  - destruct (polled_left _ _ _ _ _ _ _ (Hall _ _ Hk) Hp) as (_ & Hle & Hlt).
    cbn. rewrite (proj1 (polled_tasks _ _ _ _ _ _ _ Hp)). destruct (decide (k = i)) as [->|Hne].
    + rewrite Hk in Ht. injection Ht as ->. eexists. split.
      { apply list_lookup_insert_eq. by eapply lookup_lt_Some. }
      cbn. destruct b; [lia|]. rewrite bool_decide_true by done. by apply Hlt.
    + exists t. rewrite list_lookup_insert_ne by done. split; [done|].
      cbn. destruct b; rewrite ?bool_decide_false by done; lia.
  - exists (f t). rewrite Htf, list_lookup_fmap, Ht. split; [done|]. destruct (Hf t) as (_ & -> & _).
    destruct (is_poll i e) eqn:He; [|lia]. destruct e as [k b| | | | | | |]; try done. cbn in He.
    destruct b; [done|]. apply bool_decide_eq_true in He as ->. by rewrite (Hpoll i false eq_refl) in Ht.
Qed.

Lemma run_no_start es s j : all_aborted s → Started j ∉ (run es s).1.
Proof.
  revert s. induction es as [|e es IH]; intros s Hall; [apply not_elem_of_nil|].
  rewrite run_cons. destruct (step_all_aborted e s Hall) as [Hall' Hno]. cbn [fst].
  rewrite elem_of_app. intros [?|?]; [by eapply Hno|by eapply IH].
Qed.

Lemma run_left es s i t : tasks s !! i = Some t → all_aborted s →
  ∃ t', tasks (run es s).2 !! i = Some t' ∧ left (phase t') ≤ left (phase t) - polls i es.
Proof.
  revert s t. induction es as [|e es IH]; intros s t Ht Hall.
  { exists t. split; [done|]. cbn. lia. }
  rewrite run_cons, polls_cons. destruct (step_left e s i t Ht Hall) as (t1 & Ht1 & Hl1).
  destruct (IH _ _ Ht1 (proj1 (step_all_aborted e s Hall))) as (t2 & Ht2 & Hl2). cbn [snd].
  exists t2. split; [done|]. lia.
Qed.

Lemma run_recv s : forallb exited (tasks s) = true →
  (run (replicate (S (length (signals s))) Recv) s).1 = (Received ∘ Some <$> signals s) ++ [Received None].
Proof.
  remember (signals s) as q eqn:Hq. revert s Hq. induction q as [|sig q IH]; intros s Hq Hex.
  - cbn [length replicate]. rewrite run_cons, step_recv, <-Hq, Hex, orb_true_r. done.
  - cbn [length]. change (replicate (S (S (length q))) Recv) with (Recv :: replicate (S (length q)) (Recv : Event)).
    rewrite run_cons, step_recv, <-Hq. cbn [fst snd]. by rewrite (IH (set_signals q s)).
Qed.

(** C31. A shut down service ends: from any state, no reload starts any more,
    every task has exited once it was polled four times without its reload
    suspending, whatever else happens in between, and when all have, the
    receiver gets the signals that are left and then the end of the channel. *)
Theorem shutdown_ends s es :
  let '(os, s') := run es (shutdown s) in
  (∀ i, Started i ∉ os)
  ∧ ((∀ i, i < length (tasks s) → 4 ≤ polls i es) →
       (∀ i t, tasks s' !! i = Some t → phase t = Exited)
       ∧ (run (replicate (S (length (signals s'))) Recv) s').1 = (Received ∘ Some <$> signals s') ++ [Received None]).
Proof.
  assert (all_aborted (shutdown s)) as Hall.
  { intros i t Hi. cbn in Hi. rewrite list_lookup_fmap in Hi. by destruct (tasks s !! i); simplify_eq/=. }
  assert (length (tasks (run es (shutdown s)).2) = length (tasks s)) as Hlen.
  { pose proof (run_keeps (λ _ s', length (tasks s') = length (tasks s)) (λ _, True) es [] (shutdown s)) as Hr.
    apply Hr; [|by apply Forall_true|cbn; by rewrite length_fmap].
    intros _ s1 e _ <-. pose proof (f_equal length (step_specs e s1)) as Hl. by rewrite !length_fmap in Hl. }
  pose proof (λ i t0 Ht0, run_left es (shutdown s) i (abort t0) Ht0 Hall) as Hleft.
  pose proof (λ i, run_no_start es (shutdown s) i Hall) as Hno.
  destruct (run es (shutdown s)) as [os s']. cbn [fst snd] in *. split; [done|].
  intros Hpolls.
  assert (∀ i t, tasks s' !! i = Some t → phase t = Exited) as Hex.
  { intros i t Hi. assert (i < length (tasks s)) as Hl by (rewrite <-Hlen; by eapply lookup_lt_Some).
    destruct (lookup_lt_is_Some_2 (tasks s) i Hl) as [t0 Ht0].
    destruct (Hleft i t0) as (t' & Ht' & Hle); [cbn; by rewrite list_lookup_fmap, Ht0|].
    rewrite Hi in Ht'. injection Ht' as <-.
    specialize (Hpolls i Hl). assert (left (phase (abort t0)) ≤ 4) by (cbn; destruct (phase t0); cbn; lia).
    destruct (phase t); cbn [left] in Hle; [lia..|done]. }
  split; [done|]. apply run_recv. apply forallb_forall. intros t Ht%list_elem_of_In.
  apply list_elem_of_lookup in Ht as [i Hi]. unfold exited. by rewrite (Hex i t Hi).
Qed.

(** ** Fair runs *)

(** an unending run in which the service is left alone *)
Section Fair.
Context (e : nat → Event) (s0 : RefreshService) (i : nat).
Abbreviation σ := (state_at reload e s0).
Abbreviation obs := (obs_at reload e s0).
Context (quiet : ∀ n, e n ≠ CloseReceiver ∧ e n ≠ Shutdown ∧ e n ≠ Drop)
  (fair_poll : ∀ n, ∃ m, n ≤ m ∧ e m = Poll i false)
  (fair_recv : ∀ n, ∃ m, n ≤ m ∧ e m = Recv)
  (time_passes : ∀ n ns, ∃ m, n ≤ m ∧ (ns ≤ clock (σ m))%N).

(** the task goes on: nobody aborted it, it has an interval and the channel is open *)
Definition goes_on s t : Prop :=
  aborted t = false ∧ interval (spec t) ≠ 0%N ∧ phase t ≠ Exited ∧ rx_open s = true.

Lemma clock_mono n m : n ≤ m → (clock (σ n) ≤ clock (σ m))%N.
Proof.
  induction 1 as [|m _ IH]; [done|]. etrans; [exact IH|]. cbn.
  destruct (step_cases (e m) (σ m)) as [(k & b & t & o & ph & s1 & _ & _ & Hp & ->)|(f & _ & _ & _ & _ & _ & Hc & _)]; [|done].
  cbn. by rewrite (proj2 (polled_tasks _ _ _ _ _ _ _ Hp)).
Qed.

Lemma polled_moves k b s t o ph s1 : polled k b s t o ph s1 →
  (o = [] ∧ ph = phase t ∧ s1 = s) ∨ ph ≠ phase t.
Proof.
  destruct 1 as [Hp|_ Hw| | | | | | | | | |]; [by left|..]; right; try congruence.
  intros Heq. by rewrite <-Heq in Hw.
Qed.

Lemma step_rx_open n : rx_open (σ n) = true → rx_open (σ (S n)) = true.
Proof.
  intros Hrx. cbn. destruct (quiet n) as (Hc & Hs & Hd).
  destruct (e n) as [k b|ns| |d| | | |f]; try done;
    [cbn [Service.step]|rewrite step_recv; by destruct (signals (σ n))].
  destruct (tasks (σ n) !! k) as [t|] eqn:Ht; [|by rewrite run_spec_none].
  destruct (run_spec_polled k b _ t Ht) as (o & ph & s1 & Hp & ->). by destruct Hp.
Qed.

(** a step of the task itself, or the task as it was *)
Lemma step_task n t : tasks (σ n) !! i = Some t → goes_on (σ n) t →
  (∃ b o ph s1, e n = Poll i b ∧ polled i b (σ n) t o ph s1 ∧ obs n = o ∧ σ (S n) = goto i t ph s1
     ∧ let t' := {| spec := spec t; phase := ph; aborted := aborted t |} in
       tasks (σ (S n)) !! i = Some t' ∧ goes_on (σ (S n)) t')
  ∨ ((∀ b, e n ≠ Poll i b) ∧ tasks (σ (S n)) !! i = Some t ∧ goes_on (σ (S n)) t).
Proof.
  intros Ht Hg. pose proof (step_rx_open n (proj2 (proj2 (proj2 Hg)))) as Hrx.
  pose proof Hg as (Ha & Hiv & Hex & Ho). unfold obs_at. cbn [state_at] in *.
  destruct (step_cases (e n) (σ n)) as [(k & b & tk & o & ph & s1 & He & Hk & Hp & Hst)
                                       |(f & Hf & Htf & Hid & _ & _ & _ & _ & Hpoll)].
  - rewrite Hst in *. cbn [fst snd] in *. assert (tasks s1 = tasks (σ n)) as Hts by (by destruct (polled_tasks _ _ _ _ _ _ _ Hp)).
    destruct (decide (k = i)) as [->|Hne].
    + rewrite Ht in Hk. injection Hk as <-. left. exists b, o, ph, s1. split_and!; try done.
      * cbn. rewrite Hts. apply list_lookup_insert_eq. by eapply lookup_lt_Some.
      * destruct Hp; try done; cbn in *; congruence.
    + right. split_and!; [congruence| |done]. cbn. by rewrite Hts, list_lookup_insert_ne by done.
  - right. rewrite Htf, (Hid ltac:(destruct (quiet n) as (? & ? & ?); done)), list_fmap_id.
    split_and!; [|done|done]. intros b He. by rewrite (Hpoll i b He) in Ht.
Qed.

(** the task leaves its phase *)
Lemma progress n t : tasks (σ n) !! i = Some t → goes_on (σ n) t →
  ∃ m b ph s1, n ≤ m ∧ polled i b (σ m) t (obs m) ph s1 ∧ ph ≠ phase t ∧ σ (S m) = goto i t ph s1
    ∧ let t' := {| spec := spec t; phase := ph; aborted := aborted t |} in
      tasks (σ (S m)) !! i = Some t' ∧ goes_on (σ (S m)) t'.
Proof.
  intros Ht Hg. set (D := match phase t with First d | Waiting d => d | _ => 0%N end).
  destruct (time_passes n D) as (m1 & Hm1 & HD). destruct (fair_poll m1) as (m0 & Hm0 & He0).
  assert (D ≤ clock (σ m0))%N as HD0 by (etrans; [exact HD|by apply clock_mono]). clear HD.
  assert (∃ k, m0 = n + k) as [k Hk] by (exists (m0 - n); lia). clear Hm1 Hm0.
  revert n Ht Hg Hk. induction k as [|k IH]; intros n Ht Hg Hk.
  - rewrite Nat.add_0_r in Hk. subst m0.
    destruct (step_task n t Ht Hg) as [(b & o & ph & s1 & He & Hp & Ho & Hs & Ht')|(Hno & _)]; [|by destruct (Hno false)].
    rewrite He in He0. injection He0 as ->. exists n, false, ph, s1. rewrite Ho. split_and!; try done; try apply Ht'.
    destruct Hg as (Ha & Hiv & Hex & Hrx). unfold D in HD0. destruct Hp as [Hp| | | | | | | | | | |]; try congruence.
    exfalso. destruct (phase t); try done; destruct Hp; try done; lia.
  - destruct (step_task n t Ht Hg) as [(b & o & ph & s1 & He & Hp & Ho & Hs & Ht')|(Hno & Ht' & Hg')].
    + destruct (polled_moves _ _ _ _ _ _ _ Hp) as [(-> & -> & ->)|Hne].
      * rewrite goto_same in Hs by done. destruct (IH (S n)) as (m & b' & ph & s1 & Hm & Hrest); [..|lia|].
        { by rewrite Hs. } { by rewrite Hs. } exists m, b', ph, s1. split; [lia|done].
      * exists n, b, ph, s1. rewrite Ho. split_and!; try done; apply Ht'.
    + destruct (IH (S n) Ht' Hg') as (m & b' & ph & s1 & Hm & Hrest); [lia|]. exists m, b', ph, s1. split; [lia|done].
Qed.

(** polls until the end of a reload *)
Definition until_reload (ph : Phase) : nat :=
  match ph with
  | Reloading _ => 1 | Waiting _ => 2 | First _ => 3 | Spawned => 4 | Signalling _ => 5 | Swapping _ _ => 6
  | Exited => 0
  end.

Lemma reloads n t : tasks (σ n) !! i = Some t → goes_on (σ n) t →
  ∃ m r, n ≤ m ∧ Reloaded i r ∈ obs m.
Proof.
  remember (until_reload (phase t)) as k eqn:Hk. assert (until_reload (phase t) ≤ k) as Hle by lia. clear Hk.
  revert n t Hle. induction k as [|k IH]; intros n t Hle Ht Hg.
  { destruct Hg as (_ & _ & Hex & _). destruct (phase t); cbn in Hle; try lia. done. }
  destruct (progress n t Ht Hg) as (m & b & ph & s1 & Hm & Hp & Hne & Hs & Ht' & Hg').
  assert ((∃ r, Reloaded i r ∈ obs m) ∨ until_reload ph < until_reload (phase t)) as [[r Hr]|Hlt].
  { destruct Hg' as (_ & _ & Hex & _). cbn in Hex.
    destruct Hp as [|_ Hw|Ha Hp|Ha Hp|d Ha Hp|d Ha Hp|d rows p Hb Hp|d err p Hb Hp|d rows Hp|d Hp|d Hp|d Hp];
      try done; rewrite ?Hp; cbn; try (right; lia); left; eexists; by left. }
  - by exists m, r.
  - edestruct (IH (S m)) as (m' & r & Hm' & Hr); [|exact Ht'|exact Hg'|]; [cbn; lia|].
    exists m', r. split; [lia|done].
Qed.

Lemma step_signals n k sig : signals (σ n) !! k = Some sig →
  (e n = Recv ∧ (Received (Some sig) ∈ obs n ∨ ∃ k', k = S k' ∧ signals (σ (S n)) !! k' = Some sig))
  ∨ (e n ≠ Recv ∧ signals (σ (S n)) !! k = Some sig).
Proof.
  intros Hk. destruct (quiet n) as (Hc & Hs & Hd). unfold obs_at. cbn [state_at].
  destruct (e n) as [j b|ns| |d| | | |f]; try done; try (right; by split).
  - right. split; [done|]. cbn [Service.step].
    destruct (tasks (σ n) !! j) as [t|] eqn:Ht; [|by rewrite run_spec_none].
    destruct (run_spec_polled j b _ t Ht) as (o & ph & s1 & Hp & ->). destruct Hp; try done.
    cbn. by apply lookup_app_l_Some.
  - left. split; [done|]. rewrite step_recv. destruct (signals (σ n)) as [|sig' q]; [done|].
    destruct k as [|k]; cbn in Hk |- *; [left; injection Hk as ->; by left|right; by exists k].
Qed.

Lemma received k n sig : signals (σ n) !! k = Some sig → ∃ m, n ≤ m ∧ Received (Some sig) ∈ obs m.
Proof.
  revert n. induction k as [k IHk] using lt_wf_ind.
  assert (∀ l n, signals (σ n) !! k = Some sig → e (n + l) = Recv → ∃ m, n ≤ m ∧ Received (Some sig) ∈ obs m) as Hl.
  { induction l as [|l IH]; intros n Hk He;
      (destruct (step_signals n k sig Hk) as [(_ & [Hr|(k' & -> & Hn)])|(Hr & Hn)];
       [by exists n
       |destruct (IHk k' ltac:(lia) (S n) Hn) as (m' & Hm' & Ho); exists m'; split; [lia|done]|]).
    - destruct Hr. by rewrite Nat.add_0_r in He.
    - destruct (IH (S n) Hn) as (m' & Hm' & Ho); [by rewrite Nat.add_succ_l, <-Nat.add_succ_r|].
      exists m'. split; [lia|done]. }
  intros n Hk. destruct (fair_recv n) as (m & Hm & He). apply (Hl (m - n) n Hk). by rewrite Nat.add_comm, Nat.sub_add.
Qed.

(** a reload that gave rows is published and signalled *)
Lemma publishes n t d rows : tasks (σ n) !! i = Some t → goes_on (σ n) t → phase t = Swapping d rows →
  ∃ m, n < m ∧ snapshot (name (spec t)) (store (σ m)) = Some {| data_name := name (spec t); rows := rows |}
    ∧ ∃ m', m ≤ m' ∧ (Signalled i Full ∈ obs m'
        ∨ (Signalled i Sent ∈ obs m'
           ∧ ∃ m'', m' < m'' ∧ Received (Some {| sig_name := name (spec t) |}) ∈ obs m'')).
Proof.
  intros Ht Hg Hph. destruct (progress n t Ht Hg) as (m & b & ph & s1 & Hm & Hp & Hne & Hs & Ht' & Hg').
  remember (obs m) as o eqn:Ho. destruct Hp as [|_ Hw|Ha Hp|Ha Hp|d' Ha Hp|d' Ha Hp|d' rows' p Hb Hp|d' err p Hb Hp|d' rows' Hp|d' Hp|d' Hp|d' Hp];
    try done; try congruence; [by rewrite Hph in Hw|].
  assert (rows' = rows) as -> by congruence. exists (S m). split; [lia|]. split.
  { rewrite Hs. apply lookup_insert_eq. }
  destruct (progress _ _ Ht' Hg') as (m1 & b1 & ph1 & s2 & Hm1 & Hp1 & Hne1 & Hs1 & Ht1 & Hg1).
  exists m1. split; [done|]. clear Ho.
  destruct Hp1 as [|_ Hw|? Hp1|? Hp1|? ? Hp1|? ? Hp1|? ? ? ? Hp1|? ? ? ? Hp1|? ? Hp1|d1 Hp1 Hrx|d1 Hp1|d1 Hp1]; try done.
  - by destruct Hg1 as (_ & _ & [] & _).
  - left. by left.
  - right. split; [by left|].
    destruct (received (length (signals (σ m1))) (S m1) {| sig_name := name (spec t) |}) as (m2 & Hm2 & Hr).
    { rewrite Hs1. cbn. by rewrite lookup_app_r, Nat.sub_diag. }
    exists m2. split; [lia|done].
Qed.
End Fair.

(** C11. In an unending run in which the service is neither shut down nor its
    channel closed, task [i] is polled again and again without suspending its
    reload, the host receives again and again and time goes on, whatever the
    order: reloads of the table are carried out forever, and every one that
    gives rows is published - its rows become the table's snapshot, and then
    its signal is received unless the channel was full. *)
Theorem refresh_publishes specs seed now p (e : nat → Event) i t :
  let s0 := spawn_with_store specs seed now p in
  tasks s0 !! i = Some t → interval (spec t) ≠ 0%N →
  (∀ n, e n ≠ CloseReceiver ∧ e n ≠ Shutdown ∧ e n ≠ Drop) →
  (∀ n, ∃ m, n ≤ m ∧ e m = Poll i false) →
  (∀ n, ∃ m, n ≤ m ∧ e m = Recv) →
  (∀ n ns, ∃ m, n ≤ m ∧ (ns ≤ clock (state_at reload e s0 m))%N) →
  (∀ n, ∃ m r, n ≤ m ∧ Reloaded i r ∈ obs_at reload e s0 m)
  ∧ ∀ n rows, Reloaded i (Ok rows) ∈ obs_at reload e s0 n →
      ∃ m, n < m ∧ snapshot (name (spec t)) (store (state_at reload e s0 m))
                   = Some {| data_name := name (spec t); rows := rows |}
        ∧ ∃ m', m ≤ m' ∧ (Signalled i Full ∈ obs_at reload e s0 m'
            ∨ (Signalled i Sent ∈ obs_at reload e s0 m'
               ∧ ∃ m'', m' < m'' ∧ Received (Some {| sig_name := name (spec t) |}) ∈ obs_at reload e s0 m'')).
Proof.
  intros s0 Ht Hiv Hquiet Hpoll Hrecv Htime.
  assert (∀ n, ∃ t', tasks (state_at reload e s0 n) !! i = Some t' ∧ spec t' = spec t ∧ goes_on (state_at reload e s0 n) t') as Halive.
  { induction n as [|n (t' & Ht' & Hsp & Hg)].
    - exists t. split_and!; [done|done|]. cbn in Ht. rewrite list_lookup_fmap in Ht.
      destruct (first_specs ∅ specs !! i); simplify_eq/=. by split_and!.
    - destruct (step_task e s0 i Hquiet n t' Ht' Hg) as [(b & o & ph & s1 & _ & _ & _ & _ & Ht'' & Hg')|(_ & Ht'' & Hg')];
        eexists; split_and!; [exact Ht''|done|done|exact Ht''|done|done]. }
  split.
  - intros n. destruct (Halive n) as (t' & Ht' & _ & Hg). by apply (reloads e s0 i Hquiet Hpoll Htime n t').
  - intros n rows Hin. destruct (Halive n) as (t' & Ht' & Hsp & Hg). rewrite <-Hsp.
    destruct (step_task e s0 i Hquiet n t' Ht' Hg) as [(b & o & ph & s1 & He & Hp & Ho & Hs & Ht'' & Hg')|(Hno & _)].
    + rewrite Ho in Hin. assert (∃ d, ph = Swapping d rows) as [d ->].
      { destruct Hp; try (by apply not_elem_of_nil in Hin); apply list_elem_of_singleton in Hin; simplify_eq; by eexists. }
      destruct (publishes e s0 i Hquiet Hpoll Hrecv Htime (S n) _ d rows Ht'' Hg' eq_refl) as (m & Hm & Hrest).
      exists m. split; [lia|exact Hrest].
    + exfalso. revert Hin. unfold obs_at.
      destruct (step_cases (e n) (state_at reload e s0 n)) as [(k & b & tk & o & ph & s1 & He & Hk & Hp & Hst)|(f & _ & _ & _ & _ & Hnr & _)];
        [|by intros ?%Hnr]. rewrite Hst. cbn. destruct (decide (i = k)) as [->|Hne]; [by destruct (Hno b)|].
      by apply (polled_others _ _ _ _ _ _ _ _ _ Hp).
Qed.
End Facts.

(** ** Loading once and reloading *)

Section Reload.
Context {C : Type → Type → Type} {P L Conn : Type} `{LruOps C} `{Hasher} `{SqliteLib L}
  `{!AuthorityFs L} `{!ProviderExecutor C P (Outside L)}.

(** Loading a table once and a tick's reload are the same: same rendering,
    query, rows, errors and effects, for either source, whenever the
    provider's asynchronous methods agree with its synchronous ones - as those
    of the SQLite providers do. *)
Theorem reload_agrees parse_toml spec (e : Env (C := C) (P := P) (L := L) (Conn := Conn)) :
  async_methods_agree (C := C) (P := P) (E := Outside L) →
  reload parse_toml spec e = load_rows parse_toml spec e.
Proof.
  intros Ha. unfold reload, load_rows, load_with. destruct (source spec) as [|provider sql code]; [done|].
  unfold bind_res, mbind, st_bind, gets. destruct (Vel.render sql code _) as [sql'|err]; [|done].
  unfold on_proc, on_kw, query_async_for, query_for, fmap, st_fmap.
  by rewrite (proj1 (proj2 (async_agrees Ha (kw (proc e))))).
Qed.
End Reload.

(** ** A concrete service

    The reload of a table gives the number of the reload; that of the table
    "bad" fails.  The ticker skips the ticks that were missed. *)
#[global] Instance demo_ticker : Ticker := λ period timeout now,
  (now + period - (now - timeout) `mod` period)%N.
#[global] Instance demo_ticker_law : TickerLaw.
Proof.
  intros period timeout now Hle. unfold next_tick, demo_ticker.
  assert ((now - timeout) `mod` period ≤ now - timeout)%N by apply N.Div0.mod_le. lia.
Qed.

Definition demo_reload (sp : RefreshSpec) : St N (KnowledgeResult (list RowData)) := λ n,
  if bool_decide (name sp = lit "bad") then (Err (know_err from_res [F "demo failure"]), n)
  else (Ok [[from_int (lit "n") (Z.of_N n)]], (n + 1)%N).

Definition demo_refresh (n : string) (ns : N) : RefreshSpec :=
  {| name := lit n; interval := ns; source := Authority (lit "/") (lit "k.toml") (lit "file:a") (lit n) |}.
Definition demo_specs : list RefreshSpec :=
  [demo_refresh "a" 10; demo_refresh "bad" 10; demo_refresh "a" 1; demo_refresh "never" 0].
Definition demo_service : RefreshService N := spawn_with_store demo_specs ∅ 0 0%N.

Definition demo_rows (n : Z) : list RowData := [[from_int (lit "n") n]].
Definition demo_run : list (Event N) :=
  [Poll 0 false; Poll 0 false; Poll 1 false; Poll 1 false; Elapse 10; Poll 0 true; Poll 1 false; Poll 0 true;
   Poll 1 false; Poll 0 false; Poll 0 false; Poll 0 false; Recv].

Lemma refresh_invariant_witness :
  snapshot (lit "a") (store (run demo_reload demo_run demo_service).2)
  = Some {| data_name := lit "a"; rows := demo_rows 0 |}
  ∧ length (signals (run demo_reload demo_run demo_service).2) ≤ DEFAULT_SIGNAL_CAPACITY.
Proof.
  split; [by vm_compute|].
  pose proof (refresh_invariant demo_reload demo_specs ∅ 0 0%N demo_run) as Hinv.
  change (spawn_with_store demo_specs ∅ 0 0%N) with demo_service in Hinv.
  destruct (run demo_reload demo_run demo_service) as [os s]. apply Hinv. intros n d Hd. discriminate Hd.
Defined.

Lemma store_holds_last_reload_witness :
  ∃ done, successes 0 (run demo_reload demo_run demo_service).1 = done
          ∧ snapshot (lit "a") (store (run demo_reload demo_run demo_service).2) = published ∅ (lit "a") done
          ∧ done = [demo_rows 0].
Proof.
  pose proof (store_holds_last_reload demo_reload demo_specs ∅ 0 0%N demo_run) as Hl.
  change (spawn_with_store demo_specs ∅ 0 0%N) with demo_service in Hl.
  eexists. split; [reflexivity|]. split; [|by vm_compute].
  destruct (run demo_reload demo_run demo_service) as [os s] eqn:Hrun.
  assert (s = (run demo_reload demo_run demo_service).2) as Hs by (by rewrite Hrun).
  destruct (Hl ltac:(intros d Hd; repeat (apply elem_of_cons in Hd as [Hd|Hd]; [discriminate Hd|]); by apply not_elem_of_nil in Hd)
              0 {| spec := demo_refresh "a" 10; phase := Waiting 20; aborted := false |}) as (done & Hd & Hsn).
  { rewrite Hs. vm_compute. reflexivity. }
  cbn in Hd. rewrite app_nil_r in Hd. cbn [fst snd]. rewrite Hd. exact Hsn.
Defined.

Lemma refresh_pace_witness :
  (0 + 1 * 10 ≤ clock (run demo_reload demo_run demo_service).2)%N.
Proof.
  pose proof (refresh_pace demo_reload demo_specs ∅ 0 0%N demo_run) as Hp.
  change (spawn_with_store demo_specs ∅ 0 0%N) with demo_service in Hp.
  destruct (run demo_reload demo_run demo_service) as [os s] eqn:Hrun.
  assert (os = (run demo_reload demo_run demo_service).1 ∧ s = (run demo_reload demo_run demo_service).2) as [Hos Hs]
    by (by rewrite Hrun).
  destruct (Hp 0 {| spec := demo_refresh "a" 10; phase := Waiting 20; aborted := false |}) as [Hle _].
  { rewrite Hs. vm_compute. reflexivity. }
  assert (starts 0 os = 1) as H1 by (rewrite Hos; vm_compute; reflexivity).
  rewrite H1 in Hle. exact Hle.
Defined.

Lemma shutdown_ends_witness :
  let s' := (run demo_reload (concat (replicate 4 [Poll 0 false; Poll 1 false; Poll 2 false]))
               (shutdown (run demo_reload demo_run demo_service).2)).2 in
  Forall (λ t, phase t = Exited) (tasks s')
  ∧ (run demo_reload (replicate (S (length (signals s'))) Recv) s').1 = (Received ∘ Some <$> signals s') ++ [Received None].
Proof.
  intros s'.
  pose proof (shutdown_ends demo_reload (run demo_reload demo_run demo_service).2
    (concat (replicate 4 [Poll 0 false; Poll 1 false; Poll 2 false]))) as He.
  unfold s'. destruct (run demo_reload (concat _) (shutdown _)) as [os s]. cbn [snd].
  destruct (proj2 He) as [Hex Hr]; [|split; [|exact Hr]].
  2: { apply Forall_lookup. exact Hex. }
  intros i Hi. assert (i < 3) as Hi3 by (exact Hi). clear Hi He.
  destruct i as [|[|[|i]]]; [vm_compute; lia..|lia].
Defined.

(** the three events in turn *)
Definition demo_turns (n : nat) : Event N :=
  match n `mod` 3 with 0 => Poll 0 false | 1 => Elapse 1 | _ => Recv end.

Lemma demo_turn k : demo_turns (3 * k) = Poll 0 false ∧ demo_turns (3 * k + 1) = Elapse 1 ∧ demo_turns (3 * k + 2) = Recv.
Proof.
  unfold demo_turns. replace (3 * k) with (0 + k * 3) by lia. rewrite Nat.Div0.mod_add.
  replace (0 + k * 3 + 1) with (1 + k * 3) by lia. rewrite Nat.Div0.mod_add.
  replace (0 + k * 3 + 2) with (2 + k * 3) by lia. by rewrite Nat.Div0.mod_add.
Qed.

Lemma demo_clock k : (N.of_nat k ≤ clock (state_at demo_reload demo_turns demo_service (3 * k)))%N.
Proof.
  induction k as [|k IH]; [done|]. destruct (demo_turn k) as (H1 & H2 & H3).
  replace (3 * S k) with (S (S (S (3 * k)))) by lia.
  assert (∀ n m, n ≤ m → (clock (state_at demo_reload demo_turns demo_service n) ≤ clock (state_at demo_reload demo_turns demo_service m))%N) as Hm
    by (intros n m; apply clock_mono).
  etrans; [|apply (Hm (S (S (3 * k)))); lia].
  change (state_at demo_reload demo_turns demo_service (S (S (3 * k))))
    with (step demo_reload (demo_turns (S (3 * k))) (state_at demo_reload demo_turns demo_service (S (3 * k)))).2.
  replace (S (3 * k)) with (3 * k + 1) at 1 by lia. rewrite H2. cbn [Service.step snd clock set_clock].
  specialize (Hm (3 * k) (S (3 * k)) ltac:(lia)). lia.
Qed.

Lemma refresh_publishes_witness :
  ∃ m r, 100 ≤ m ∧ Reloaded 0 r ∈ obs_at demo_reload demo_turns demo_service m.
Proof.
  refine (proj1 (refresh_publishes demo_reload demo_specs ∅ 0 0%N demo_turns 0
    {| spec := demo_refresh "a" 10; phase := Spawned; aborted := false |} _ _ _ _ _ _) 100).
  - reflexivity.
  - discriminate.
  - intros n. unfold demo_turns. destruct (n `mod` 3) as [|[|]]; split_and!; discriminate.
  - intros n. exists (3 * n). split; [lia|apply demo_turn].
  - intros n. exists (3 * n + 2). split; [lia|apply demo_turn].
  - intros n ns. exists (3 * (n + N.to_nat ns)). split; [lia|].
    etrans; [|apply demo_clock]. lia.
Defined.
