(* ===== verification/AuthorityFacts.v ===== *)
(** * What an authority database serves

    From the data files of the configuration to the rows of a query: the
    interface of the authority database and its laws, the reload of a table,
    and the start-up with the queries that follow it. *)
From S2P Require Import Prelude Errors RustStr Model Lru SqlRoute Runtime SqliteDb Authority Redis Facade.
From S2P Require Import SqlDrivers Refresh RuntimeFacts SqliteFacts SqlDriversFacts FacadeFacts.
From S2P Require Loader IntranetNets.
Import Model.Param.
Import Loader (SqlMeaning, SqliteLaws, durable, in_tx).

(** ** Files and connections

    What SQLite documents of database files: the file a URI names and its
    content, that of an absent file being the empty one; the content a
    connection reads; the columns and the steps of a query on a content.  A
    call keeps what it does not say it changes. *)
Class SqlFiles (L Content : Type) `{AuthorityFs L, SqlMeaning Content} := {
  file_at : str → str;
  stored : str → L → Content;
  file_of : Pool → str;
  held : Connection → L → Content;
  columns_of : str → Content → list (Result str str);
  select : str → BoundParams → Content → list (Result str (list SqlValue));
  stmt_of : Stmt → Connection * str;
  pool_laws pool :: SqliteLaws (H := pool_sqlite pool) L Content;
  pool_durable pool l : durable (SqliteLaws := pool_laws pool) l = stored (file_of pool) l;
}.

Section Keeps.
Context {L Content : Type} `{SqlFiles L Content}.

Definition pool_in_tx (pool : Pool) (l : L) : bool := in_tx (SqliteLaws := pool_laws pool) l.

(** every file, connection and transaction is as before *)
Definition keeps (l l' : L) : Prop :=
  (∀ f, stored f l' = stored f l) ∧ (∀ c, held c l' = held c l) ∧ (∀ pool, pool_in_tx pool l' = pool_in_tx pool l).

#[export] Instance keeps_preorder : PreOrder keeps.
Proof.
  split; [intros l; by repeat split|]. intros l1 l2 l3 (? & ? & ?) (? & ? & ?).
  repeat split; intros; etransitivity; eauto.
Qed.
End Keeps.

Class SqlFilesLaws (L Content : Type) `{SqlFiles L Content} := {
  create_dir_keeps dir l : keeps l (create_dir_all dir l);
  pool_build_law uri flags n l : let '(r, l') := pool_build (FileManager uri flags) n l in
    (∀ f, stored f l' = stored f l)
    ∧ ∀ pool, r = Ok pool → file_of pool = file_at uri ∧ pool_in_tx pool l' = false;
  pool_get_law pool l : let '(r, l') := pool_get pool l in
    keeps l l' ∧ ∀ c, r = Ok c → pool_in_tx pool l = false → held c l' = stored (file_of pool) l;
  register_keeps c l : keeps l (register_functions c l).2;
  prepare_law conn sql l : let '(r, l') := prepare_cached conn sql l in
    ∀ stmt, r = Ok stmt → keeps l l' ∧ stmt_of stmt = (conn, sql) ∧ column_names stmt = columns_of sql (held conn l);
  query_law stmt params l : let '(r, l') := stmt_query stmt params l in
    ∀ steps, r = Ok steps → steps = select (stmt_of stmt).2 params (held (stmt_of stmt).1 l);
  open_read_only_law uri l : let '(r, l') := open_read_only uri l in
    ∀ c, r = Ok c → held c l' = stored (file_at uri) l;
  open_in_memory_law l : let '(r, l') := open_in_memory l in ∀ c, r = Ok c → keeps l l';
  backup_new_law src dst l : let '(r, l') := backup_new src dst l in r = Ok tt → keeps l l';
  backup_run_law src dst l : let '(r, l') := backup_run src dst l in r = Ok tt → held dst l' = held src l;
}.

(** ** Queries on a content *)

Section Queries.
Context {C : Type → Type → Type} {P L Content : Type} `{LruOps C} `{Hasher} `{SqlFilesLaws L Content}.
Abbreviation World := (World C P (Outside L)).
Abbreviation M := (St World).
Implicit Types (w : World) (conn : Connection) (c : Content).

(** what a successful query for [sql] under [scope] gives on the content [c],
    begun in the world [w]: the rows of the selection, under the names the cache
    held for the query or else under the columns' own *)
Definition answers scope sql params c w (rows : list RowData) : Prop :=
  ∃ names, match lru_peek (metadata_cache_key_for_scope scope sql) (colnames w) with
           | Some cached => names = cached
           | None => all_names (columns_of sql c) = Ok names
           end ∧ map_rows names (select sql params c) = Ok rows.

Lemma names_for scope kind sql (names : KnowledgeResult (list str)) w :
  let '(r, w') := metadata_cache_get_or_try_init_for_scope scope kind sql (mret (Some <$> names)) w in
  ext w' = ext w
  ∧ r = match lru_peek (metadata_cache_key_for_scope scope sql) (colnames w) with
        | Some cached => Ok cached
        | None => names
        end.
Proof.
  unfold metadata_cache_get_or_try_init_for_scope, bind_res. unfold mbind at 1, st_bind at 1, gets.
  destruct (lru_peek _ _) as [cached|]; [done|]. by destruct names.
Qed.

Lemma scoped_query_answers conn scope kind sql params w rows w' :
  query_cached_with_scope conn scope kind sql params w = (Ok rows, w') →
  answers scope sql params (held conn (lib (ext w))) w rows.
Proof.
  unfold query_cached_with_scope. rewrite run_query_eq. unfold SqliteDb.call at 1, on_lib, fmap, st_fmap.
  pose proof (prepare_law conn sql (lib (ext w))) as Hp.
  destruct (prepare_cached conn sql (lib (ext w))) as [[stmt|err] l]; [|done]. cbn [map_err].
  destruct (Hp stmt eq_refl) as ((_ & Hh & _) & Hs & Hcols).
  set (w1 := set_ext (set_lib l (ext w)) w). unfold extract_col_names_cached_with_scope.
  pose proof (names_for scope kind sql (all_names (column_names stmt)) w1) as Hn.
  destruct (metadata_cache_get_or_try_init_for_scope _ _ _ _ w1) as [[names|] w2]; [|done].
  destruct Hn as [He Hn]. unfold SqliteDb.call, on_lib, fmap, st_fmap. rewrite He.
  pose proof (query_law stmt params (lib (ext w1))) as Hq. cbn [ext w1 set_ext lib set_lib] in Hq |- *.
  destruct (stmt_query stmt params l) as [[steps|] l3]; [|done]. cbn [map_err].
  specialize (Hq steps eq_refl). rewrite Hs in Hq. cbn [fst snd] in Hq. rewrite Hh in Hq. subst steps.
  intros [= Hm _]. exists names. split; [|done].
  change (colnames w) with (colnames w1). rewrite Hcols in Hn. by destruct (lru_peek _ _); [injection Hn as ->|].
Qed.
End Queries.

(** ** Opening, loading and copying *)

Section Opening.
Context {C : Type → Type → Type} {P L Content : Type} `{LruOps C} `{Hasher} `{SqlFilesLaws L Content}.
Abbreviation World := (World C P (Outside L)).
Abbreviation M := (St World).
Implicit Types (w : World) (conn : Connection) (c : Content).

(** the worlds differ in the library's state only *)
Definition only_lib w w' : Prop := w' = set_ext (set_lib (lib (ext w')) (ext w)) w.

#[export] Instance only_lib_preorder : PreOrder only_lib.
Proof.
  split; [by intros [? ? ? ? [? ? ?]]|]. intros [? ? ? ? [? ? ?]] [? ? ? ? [? ? ?]] [? ? ? ? [? ? ?]].
  unfold only_lib. cbn. by intros [= -> -> -> -> -> ->] [= -> -> -> -> -> ->].
Qed.

Lemma on_lib_only {A} (m : St L A) w :
  on_lib m w = ((m (lib (ext w))).1, set_ext (set_lib (m (lib (ext w))).2 (ext w)) w)
  ∧ only_lib w (on_lib m w).2.
Proof. unfold on_lib. by destruct (m (lib (ext w))). Qed.

Lemma on_lib_keeps {A} (m : St L A) w :
  keeps (lib (ext w)) (m (lib (ext w))).2 →
  only_lib w (on_lib m w).2 ∧ keeps (lib (ext w)) (lib (ext (on_lib m w).2)).
Proof. unfold on_lib. by destruct (m (lib (ext w))). Qed.

Lemma ensure_parent_keeps uri w :
  let w' := (on_lib (C := C) (P := P) (ensure_parent_dir_for_file_uri uri) w).2 in
  only_lib w w' ∧ keeps (lib (ext w)) (lib (ext w')).
Proof.
  apply on_lib_keeps. unfold ensure_parent_dir_for_file_uri. destruct (prefix_of _ _); [|done].
  destruct (path_parent _); [apply create_dir_keeps|done].
Qed.

Lemma register_builtin_keeps (got : Result str Connection) w :
  let w' := (match got with Ok conn => on_lib (C := C) (P := P) (register_functions conn) | Err _ => mret tt end w).2 in
  only_lib w w' ∧ keeps (lib (ext w)) (lib (ext w')).
Proof. destruct got as [conn|e]; [|done]. apply on_lib_keeps, register_keeps. Qed.

Lemma pool_get_keeps pool w :
  let '(r, w') := on_lib (C := C) (P := P) (pool_get pool) w in
  only_lib w w' ∧ keeps (lib (ext w)) (lib (ext w'))
  ∧ ∀ conn, r = Ok conn → pool_in_tx pool (lib (ext w)) = false →
         held conn (lib (ext w')) = stored (file_of pool) (lib (ext w)).
Proof.
  pose proof (pool_get_law pool (lib (ext w))) as Hg. unfold on_lib.
  by destruct (pool_get pool (lib (ext w))) as [r l].
Qed.

Lemma new_file_spec uri n flags w :
  let '(r, w') := MemDB.new_file (C := C) (P := P) uri n flags w in
  only_lib w w'
  ∧ ∀ pool, r = Ok pool → file_of pool = file_at uri ∧ pool_in_tx pool (lib (ext w')) = false
                          ∧ ∀ f, stored f (lib (ext w')) = stored f (lib (ext w)).
Proof.
  pose proof (pool_build_law uri flags n (lib (ext w))) as Hb.
  unfold MemDB.new_file, SqliteDb.call, fmap, st_fmap, on_lib.
  destruct (pool_build _ n _) as [[pool|err] l1]; cbn; [|done].
  destruct Hb as [Hf Hb]. destruct (Hb pool eq_refl) as [Hfile Htx]. split; [done|]. by intros ? [= <-].
Qed.

(** opened: no transaction is open and every file is as it was *)
Lemma open_authority_spec uri w :
  let '(r, w') := open_authority uri w in
  only_lib w w' ∧
  ∀ pool, r = Ok pool → file_of pool = file_at uri ∧ pool_in_tx pool (lib (ext w')) = false
                        ∧ ∀ f, stored f (lib (ext w')) = stored f (lib (ext w)).
Proof.
  unfold open_authority, bind_res, mbind, st_bind.
  destruct (ensure_parent_keeps uri w) as [Ho Hk].
  destruct (on_lib (ensure_parent_dir_for_file_uri uri) w) as [[] w1]. cbn [snd] in Ho, Hk.
  pose proof (new_file_spec uri 1 [lit "SQLITE_OPEN_READ_WRITE"; lit "SQLITE_OPEN_CREATE"; lit "SQLITE_OPEN_URI"] w1)
    as Hb. destruct (MemDB.new_file uri 1 _ w1) as [[pool|err] w2]; destruct Hb as [Ho1 Hb].
  2: { split; [by etransitivity|done]. }
  destruct (Hb pool eq_refl) as (Hfile & Htx & Hf1).
  pose proof (pool_get_keeps pool w2) as Hg. destruct (on_lib (pool_get pool) w2) as [got w3].
  destruct Hg as (Ho2 & Hk2 & _). destruct (register_builtin_keeps got w3) as [Ho3 Hk3].
  destruct ((match got with Ok conn => on_lib (register_functions conn) | Err _ => mret tt end : M unit) w3)
    as [[] w4]. cbn [snd] in Ho3, Hk3.
  split; [by repeat (etransitivity; [eassumption|])|]. intros ? [= <-].
  pose proof (transitivity Hk2 Hk3) as (Hs & _ & Ht). split_and!; [done|by rewrite Ht|].
  intros f. by rewrite Hs, Hf1, (proj1 Hk).
Qed.

(** ** Queries of a pool and of a snapshot *)

Lemma query_cached_scope conn sql params w :
  query_cached (C := C) (P := P) conn sql params w
  = query_cached_with_scope conn (current_metadata_scope (rt w)) (current_provider_kind (rt w)) sql params w.
Proof.
  unfold query_cached, query_cached_with_scope. rewrite !run_query_eq. unfold SqliteDb.call at 1 3, on_lib, fmap, st_fmap.
  by destruct (prepare_cached conn sql (lib (ext w))) as [[stmt|err] l].
Qed.

Lemma answers_same scope sql params c w w' rows :
  colnames w' = colnames w → answers scope sql params c w' rows → answers scope sql params c w rows.
Proof. unfold answers. by intros ->. Qed.

Lemma pool_query_answers pool sql w rows w' :
  pool_in_tx pool (lib (ext w)) = false → MemDB.query pool sql w = (Ok rows, w') →
  answers (current_metadata_scope (rt w)) sql no_params (stored (file_of pool) (lib (ext w))) w rows.
Proof.
  intros Htx. unfold MemDB.query, with_pool, bind_res, mbind, st_bind, SqliteDb.call. unfold fmap at 1, st_fmap.
  pose proof (pool_get_keeps pool w) as Hg. destruct (on_lib (pool_get pool) w) as [[conn|err] w1]; [|done].
  destruct Hg as (Ho & _ & Hh). cbn [map_err]. specialize (Hh conn eq_refl Htx).
  destruct (on_lib_keeps (register_functions conn) w1) as [Ho1 (_ & Hk & _)]; [apply register_keeps|].
  destruct (on_lib (register_functions conn) w1) as [[] w2]. cbn [snd] in Ho1, Hk.
  assert (rt w2 = rt w ∧ colnames w2 = colnames w) as [Hr Hc].
  { pose proof (transitivity Ho Ho1) as Ho2. unfold only_lib in Ho2. by rewrite Ho2. }
  rewrite query_cached_scope. intros Hq%scoped_query_answers. rewrite Hk, Hh, Hr in Hq. by eapply answers_same.
Qed.

Lemma rebuild_held db w conn w' :
  ThreadClone.rebuild db w = (Ok conn, w') →
  held conn (lib (ext w')) = stored (file_at (db_path db)) (lib (ext w)) ∧ colnames w' = colnames w.
Proof.
  unfold ThreadClone.rebuild, bind_res, mbind, st_bind, SqliteDb.call, on_lib, fmap, st_fmap.
  pose proof (open_read_only_law (db_path db) (lib (ext w))) as Hl.
  destruct (open_read_only _ _) as [[src|] l1]; cbn; [|done]. specialize (Hl src eq_refl).
  pose proof (open_in_memory_law l1) as Hl2. destruct (open_in_memory l1) as [[dst|] l2]; cbn; [|done].
  destruct (Hl2 dst eq_refl) as (_ & Hl2h & _).
  pose proof (backup_new_law src dst l2) as Hl3. destruct (backup_new src dst l2) as [[[]|] l3]; cbn; [|done].
  destruct (Hl3 eq_refl) as (_ & Hl3h & _).
  pose proof (backup_run_law src dst l3) as Hl4. destruct (backup_run src dst l3) as [[[]|] l4]; cbn; [|done].
  specialize (Hl4 eq_refl). destruct (register_keeps dst l4) as (_ & Hl5 & _).
  destruct (register_functions dst l4) as [[] l5]. cbn in *. intros [= <- <-]. cbn. split; [|done].
  by rewrite Hl5, Hl4, Hl3h, Hl2h.
Qed.

Lemma snapshot_query_answers db sql w rows w' :
  ThreadClone.should_rebuild db (TLS_DB (ext w) !! thread (ext w)) = true →
  ThreadClone.query_with_scope db sql w = (Ok rows, w') →
  answers (SqliteDb.metadata_scope db) sql no_params (stored (file_at (db_path db)) (lib (ext w))) w rows.
Proof.
  intros Hr. unfold ThreadClone.query_with_scope. rewrite rebuild_use by done. unfold bind_res, mbind, st_bind.
  destruct (ThreadClone.rebuild db w) as [[conn|e] w1] eqn:Hb; [|done].
  destruct (rebuild_held db w conn w1 Hb) as [Hh Hc].
  intros Hq%scoped_query_answers. rewrite Hh in Hq. by eapply answers_same.
Qed.
End Opening.

(** ** Reloading a table *)

Section Reload.
Context {C : Type → Type → Type} {P L Content Conn : Type} `{LruOps C} `{Hasher} `{SqlFilesLaws L Content}
  `{!ProviderExecutor C P (Outside L)} (parse_toml : str → option Loader.KnowDbConf).

(** C13. The rows a reload publishes are those of the data file.  A reload of
    an authority table that succeeds read the configuration, found the table in
    use, and took its file through the table's effect - the create and clean
    scripts and the usable rows of the data file; the rows are the projection
    of that content on the configured columns, under the names the cache held
    for this query or else the columns' own. *)
Theorem reload_serves_file root conf_path uri table (e e' : Env (C := C) (P := P) (L := L) (Conn := Conn)) rows :
  (∀ conf abs base st spec sql,
     Loader.parse_knowdb_conf (H := files e) parse_toml root conf_path (intranet (proc e)) = (Ok (conf, abs, base), st) →
     Loader.refresh_table conf table = Ok (spec, sql) → Loader.plain_table (H := files e) base spec) →
  reload_table_rows parse_toml root conf_path uri table e = (Ok rows, e') →
  ∃ conf abs base st spec sql f,
    Loader.parse_knowdb_conf (H := files e) parse_toml root conf_path (intranet (proc e)) = (Ok (conf, abs, base), st)
    ∧ Loader.refresh_table conf table = Ok (spec, sql)
    ∧ Loader.table_effect (H := files e) base (Loader.csv conf) (Loader.default_load conf) spec = Some f
    ∧ let w := kw (proc e) in
      answers (current_metadata_scope (rt w)) sql no_params (f (stored (file_at uri) (lib (ext w)))) w rows.
Proof.
  intros Hplain. unfold reload_table_rows.
  destruct (Loader.parse_knowdb_conf _ _ _ _) as [[[[conf abs] base]|err] st] eqn:Hparse; [|done].
  destruct (Loader.refresh_table conf table) as [[spec sql]|err] eqn:Hspec; [|by unfold on_proc].
  unfold on_proc, on_kw, set_intranet. cbn [kw]. unfold bind_res, mbind, st_bind.
  set (w := kw (proc e)). pose proof (open_authority_spec uri w) as Ho.
  destruct (open_authority uri w) as [[pool|err] w1]; [|done]. destruct Ho as [Ho Hopen].
  destruct (Hopen pool eq_refl) as (Hfile & Htx & Hst). unfold on_lib at 1.
  pose proof (Loader.load_one_table_post (H := files e) (H0 := pool_sqlite pool) base spec (Loader.csv conf)
                (Loader.default_load conf) (lib (ext w1)) (Hplain _ _ _ _ _ _ eq_refl Hspec) Htx) as Hl.
  destruct (Loader.load_one_table _ _ _ _ (lib (ext w1))) as [[u|err] l]; [|done].
  destruct Hl as (Htx2 & _ & f & Hf & Hd). rewrite !pool_durable, Hfile, Hst in Hd.
  destruct (MemDB.query pool sql _) as [r w3] eqn:Hq. intros [= -> _].
  exists conf, abs, base, st, spec, sql, f. split_and!; [done..|].
  apply pool_query_answers in Hq; [|done]. cbn [lib ext set_ext set_lib] in Hq. rewrite Hfile, Hd in Hq.
  unfold only_lib in Ho. rewrite Ho in Hq. exact Hq.
Qed.
End Reload.

(** ** Start-up on an authority database *)

Section Startup.
Context {C : Type → Type → Type} {L Content Conn : Type} `{LruOps C} `{Hasher} `{SqlFilesLaws L Content}
  `{TaskRuntime L} `{!Sqlx Postgres L} `{!Sqlx Mysql L} `{!Tasks C (SqlDrivers.Provider L) L}
  `{!RedisClient C (SqlDrivers.Provider L) (Outside L) Conn} `{!Loader.Files}
  (parse_toml : str → option Loader.KnowDbConf).
Abbreviation World := (World C (SqlDrivers.Provider L) (Outside L)).
Abbreviation Process := (Process (C := C) (P := SqlDrivers.Provider L) (E := Outside L) (Conn := Conn)).
Implicit Types (w : World) (p : Process).

(** the configuration names neither an SQL provider nor Redis *)
Definition local_config (conf : Loader.KnowDbConf) : bool :=
  match Loader.provider conf with
  | Some {| Loader.sqldb := Some (_ :: _) |} | Some {| Loader.redis := Some _ |} => false
  | _ => true
  end.

Lemma local_init root conf_path uri meanwhile p conf abs base st :
  Loader.parse_knowdb_conf parse_toml root conf_path (intranet p) = (Ok (conf, abs, base), st) →
  local_config conf = true →
  init_thread_cloned_from_knowdb parse_toml root conf_path uri meanwhile p
  = init_authority parse_toml conf root conf_path uri (set_intranet st p).
Proof.
  unfold init_thread_cloned_from_knowdb, local_config. intros -> Hl.
  destruct (Loader.provider conf) as [[[[|]|] [|]]|]; done.
Qed.

(** the configuration read does not depend on the networks in force *)
Lemma parse_again root conf_path st st' conf abs base st1 :
  Loader.parse_knowdb_conf parse_toml root conf_path st = (Ok (conf, abs, base), st1) →
  ∃ st2, Loader.parse_knowdb_conf parse_toml root conf_path st' = (Ok (conf, abs, base), st2).
Proof.
  unfold Loader.parse_knowdb_conf. destruct (Loader.read_to_string _) as [txt|]; [|done].
  destruct (parse_toml txt) as [c|]; [|done]. destruct (negb _); [done|]. intros [= -> -> -> _]. by eexists.
Qed.

Definition snapshot_provider (uri : str) (scope : MetadataCacheScope) : SqlDrivers.Provider L :=
  LocalProvider (ThreadProvider {| db_path := uri; SqliteDb.metadata_scope := scope |}).

(** the default provider is a snapshot of the file; nothing outside changes *)
Lemma authority_installed uri w :
  let '(r, w') := init_thread_cloned_from_authority uri w in
  ext w' = ext w ∧ r = Ok tt
  ∧ ∃ h, Runtime.provider (rt w') = Some h ∧ kind h = SqliteAuthority
         ∧ executor h = snapshot_provider uri (scope_of (datasource_id h) (generation h)).
Proof.
  unfold init_thread_cloned_from_authority, discard, install_provider, fmap, st_fmap.
  set (build := λ g, mret (Ok (thread_cloned uri (scope_of _ g)))).
  pose proof (install_spec DEFAULT_PROVIDER_NAME SqliteAuthority (from_seed SqliteAuthority uri) build true w) as Hs.
  assert (ext (install_provider_named DEFAULT_PROVIDER_NAME SqliteAuthority (from_seed SqliteAuthority uri) build true w).2
          = ext w) as He by done.
  cbv zeta in Hs. unfold build at 1, mret at 1, st_ret at 1 in Hs.
  destruct (install_provider_named _ _ _ build true w) as [r w']. cbn [snd] in He.
  destruct Hs as (_ & -> & Hr). split_and!; [done|done|].
  eexists. split_and!; [by rewrite Hr|done|done].
Qed.

(** on success the file went through the effects of all tables *)
Lemma build_spec root conf_path uri st w conf abs base st1 :
  Loader.parse_knowdb_conf parse_toml root conf_path st = (Ok (conf, abs, base), st1) →
  Forall (Loader.plain_table base) (Loader.tables conf) →
  let '(r, (st', w')) := Loader.build_authority_from_knowdb parse_toml root conf_path uri (st, w) in
  only_lib w w'
  ∧ ∀ names, r = Ok names → ∃ f, Loader.tables_effect base conf (Loader.tables conf) = Some f
         ∧ stored (file_at uri) (lib (ext w')) = f (stored (file_at uri) (lib (ext w))).
Proof.
  intros Hparse Hplain. unfold Loader.build_authority_from_knowdb. rewrite Hparse.
  unfold bind_res, mbind, st_bind. cbn [Loader.open_authority Loader.on_handle Loader.handle_sqlite authority_db].
  pose proof (open_authority_spec uri w) as Ho.
  destruct (open_authority uri w) as [[pool|err] w1]; destruct Ho as [Ho Hopen]; [|done].
  destruct (Hopen pool eq_refl) as (Hfile & Htx & Hst). unfold on_lib.
  pose proof (Loader.load_tables_post (H0 := pool_sqlite pool) base conf (Loader.tables conf) [] (lib (ext w1)) Hplain Htx)
    as Hl.
  destruct (Loader.load_tables _ _ _ _ (lib (ext w1))) as [r l']; split; [by etransitivity|].
  intros names ->. destruct Hl as (_ & _ & _ & f & Hf & Hd). rewrite !pool_durable, Hfile, Hst in Hd. by exists f.
Qed.

(** what [configure_cache] and the pruning leave alone *)
Lemma finish_startup cache keep w :
  let w' := (prune_named_providers_except keep (configure_cache cache w).2).2 in
  ext w' = ext w ∧ Runtime.provider (rt w') = Runtime.provider (rt w).
Proof. split; [done|]. apply configure_then_prune. Qed.

Lemma snapshot_answers h uri sql w rows w' :
  Runtime.provider (rt w) = Some h → executor h = snapshot_provider uri (scope_of (datasource_id h) (generation h)) →
  (∀ s, TLS_DB (ext w) !! thread (ext w) = Some s → tls_generation s ≠ generation h) →
  Facade.query sql w = (Ok rows, w') →
  answers (scope_of (datasource_id h) (generation h)) sql no_params (stored (file_at uri) (lib (ext w))) w rows.
Proof.
  intros Hp Hx Hfresh. unfold Facade.query, execute, bind_res, current_handle. unfold fmap at 1, st_fmap, mbind, st_bind, gets.
  rewrite Hp. cbn [ok_or]. unfold execute_with_handle. rewrite cached_call_spec. cbn.
  rewrite Hx. cbn.
  set (db := {| db_path := uri; SqliteDb.metadata_scope := scope_of (datasource_id h) (generation h) |}).
  assert (ThreadClone.should_rebuild db (TLS_DB (ext w) !! thread (ext w)) = true) as Hr.
  { unfold ThreadClone.should_rebuild. destruct (TLS_DB _ !! _) as [s|]; [|done].
    apply orb_true_intro. right. apply negb_true_iff, N.eqb_neq. by apply Hfresh. }
  unfold fmap, st_fmap. destruct (ThreadClone.query_with_scope db sql w) as [[rs|e] w1] eqn:Hq; [|done].
  intros [= <- _]. by apply snapshot_query_answers in Hq.
Qed.

(** C5. Start-up on an authority database.  When the configuration names no
    other provider, its tables' scripts are free of transaction control and the
    read-only URI names the same file, then a start-up that succeeds took the
    file through the effects of all tables in use, one after the other, and
    installed a snapshot of it as the default provider; as long as that is the
    default and the file holds what was built, a query on a thread without a
    snapshot of this generation that succeeds gives the rows of the selection
    on the content built.  A start-up that fails leaves the runtime as it was. *)
Theorem authority_serves_files root conf_path uri meanwhile p conf abs base st :
  Loader.parse_knowdb_conf parse_toml root conf_path (intranet p) = (Ok (conf, abs, base), st) →
  local_config conf = true → Forall (Loader.plain_table base) (Loader.tables conf) →
  file_at (ro_uri uri) = file_at uri →
  let '(r, p') := init_thread_cloned_from_knowdb parse_toml root conf_path uri meanwhile p in
  match r with
  | Ok _ => ∃ f h,
      Loader.tables_effect base conf (Loader.tables conf) = Some f
      ∧ Runtime.provider (rt (kw p')) = Some h ∧ kind h = SqliteAuthority
      ∧ let built := f (stored (file_at uri) (lib (ext (kw p)))) in
        stored (file_at uri) (lib (ext (kw p'))) = built
        ∧ ∀ sql w rows w',
            Runtime.provider (rt w) = Some h → stored (file_at uri) (lib (ext w)) = built →
            (∀ s, TLS_DB (ext w) !! thread (ext w) = Some s → tls_generation s ≠ generation h) →
            Facade.query sql w = (Ok rows, w') →
            answers (scope_of (datasource_id h) (generation h)) sql no_params built w rows
  | Err _ => rt (kw p') = rt (kw p)
  end.
Proof.
  intros Hparse Hlocal Hplain Hro. rewrite (local_init _ _ _ _ _ _ _ _ _ Hparse Hlocal). unfold init_authority.
  destruct (parse_again root conf_path _ st _ _ _ _ Hparse) as [st2 Hparse2].
  cbn [intranet kw set_intranet]. pose proof (build_spec root conf_path uri st (kw p) _ _ _ _ Hparse2 Hplain) as Hb.
  destruct (Loader.build_authority_from_knowdb _ _ _ _ _) as [[names|err] [st' w1]]; destruct Hb as [Ho Hb].
  2: { cbn. unfold only_lib in Ho. by rewrite Ho. }
  destruct (Hb names eq_refl) as (f & Hf & Hst). unfold on_kw, bind_res, mbind, st_bind. cbn [kw set_kw].
  pose proof (authority_installed (ro_uri uri) w1) as Hi.
  destruct (init_thread_cloned_from_authority (ro_uri uri) w1) as [r w2].
  destruct Hi as (He & -> & h & Hh & Hk & Hx).
  pose proof (finish_startup (Loader.cache conf) {[Loader.DEFAULT_SQLDB_NAME]} w2) as [He3 Hp3].
  destruct (configure_cache (Loader.cache conf) w2) as [[] w3]. cbn [snd] in He3, Hp3.
  destruct (prune_named_providers_except _ w3) as [[] w4]. cbn [snd] in He3, Hp3. cbn.
  exists f, h. split_and!; [done|by rewrite Hp3|done|by rewrite He3, He|].
  intros sql w rows w' Hw Hbuilt Hfresh Hq. rewrite <-Hbuilt, <-Hro. by eapply snapshot_answers.
Qed.
End Startup.

(** ** A concrete library

    Files by path, each the rows of one table, databases in memory by number,
    and the pending content of the open transaction with the pool it belongs to.
    Every query selects the last column, [value], of all rows. *)
Record DemoFs := {
  disk : gmap str (list (list str));
  memory : gmap nat (list (list str));
  next_memory : nat;
  pending : option ((nat * str) * list (list str));
}.
Abbreviation Rows := (list (list str)).

Definition on_disk (f : str) (l : DemoFs) : Rows := default [] (disk l !! f).
Definition write_disk (f : str) (c : Rows) (l : DemoFs) : DemoFs :=
  {| disk := <[f := c]> (disk l); memory := memory l; next_memory := next_memory l; pending := pending l |}.
Definition set_pending (v : option ((nat * str) * Rows)) (l : DemoFs) : DemoFs :=
  {| disk := disk l; memory := memory l; next_memory := next_memory l; pending := v |}.
Definition demo_held (conn : str + nat) (l : DemoFs) : Rows :=
  match conn with inl f => on_disk f l | inr n => default [] (memory l !! n) end.

Definition demo_steps (c : Rows) : list (Result str (list SqlValue)) :=
  (λ r : list str, Ok [SqlText (default [] (last r))]) <$> c.

Definition demo_file_at (uri : str) : str :=
  let rest := if prefix_of (lit "file:") uri then drop 5 uri else uri in
  take (span (λ c, negb (c =? 63)%N) rest) rest.

#[global] Instance demo_fs_lib : SqliteLib DemoFs := {|
  Connection := str + nat;
  Pool := nat * str;
  Stmt := (str + nat) * str;
  pool_build m _ := λ l,
    (Ok (match pending l with Some ((n, _), _) => S n | None => 0 end,
         match m with FileManager uri _ => demo_file_at uri | MemoryManager => [] end), l);
  pool_get pool := mret (Ok (inl pool.2));
  register_functions _ := mret tt;
  conn_execute _ _ := mret (Ok tt);
  query_count conn _ := gets (λ l, Ok (N.of_nat (length (demo_held conn l))));
  prepare_cached conn sql := mret (Ok (conn, sql));
  prepare conn sql := mret (Ok (conn, sql));
  column_names _ := [Ok (lit "value")];
  stmt_query s _ := gets (λ l, Ok (demo_steps (demo_held s.1 l)));
  stmt_execute _ _ := mret (Err []);
  open_read_only uri := mret (Ok (inl (demo_file_at uri)));
  open_in_memory := λ l,
    (Ok (inr (next_memory l)),
     {| disk := disk l; memory := memory l; next_memory := S (next_memory l); pending := pending l |});
  open_with_flags uri _ := mret (Ok (inl (demo_file_at uri)));
  execute_batch _ _ := mret (Ok tt);
  backup_new _ _ := mret (Ok tt);
  backup_run src dst := λ l,
    match dst with
    | inr n => (Ok tt, {| disk := disk l; memory := <[n := demo_held src l]> (memory l);
                          next_memory := next_memory l; pending := pending l |})
    | inl _ => (Err [], l)
    end;
|}.

(** the content of the pool's open transaction, if it has one *)
Definition pending_of (pool : nat * str) (l : DemoFs) : option Rows :=
  match pending l with Some (pool', c) => if bool_decide (pool' = pool) then Some c else None | None => None end.
Definition update_pool (pool : nat * str) (f : Rows → Rows) (l : DemoFs) : DemoFs :=
  match pending_of pool l with
  | Some c => set_pending (Some (pool, f c)) l
  | None => write_disk pool.2 (f (on_disk pool.2 l)) l
  end.

#[global] Instance demo_fs : AuthorityFs DemoFs := {
  create_dir_all _ l := l;
  pool_sqlite pool := {|
    Loader.checkout _ := Ok tt;
    Loader.execute_batch sql l := (Ok tt, update_pool pool (Loader.list_script sql) l);
    Loader.prepare _ _ := Ok tt;
    Loader.stmt_execute _ r l :=
      if bool_decide (head r = Some (lit "bad")) then (Err (lit "constraint"), l)
      else (Ok tt, update_pool pool (λ c, c ++ [r]) l);
    Loader.begin_transaction l :=
      match pending l with
      | Some _ => (Err (lit "busy"), l)
      | None => (Ok tt, set_pending (Some (pool, on_disk pool.2 l)) l)
      end;
    Loader.commit l :=
      match pending_of pool l with
      | Some c => (Ok tt, set_pending None (write_disk pool.2 c l))
      | None => (Err (lit "no transaction"), l)
      end;
    Loader.rollback l := match pending_of pool l with Some _ => set_pending None l | None => l end;
  |};
}.

Lemma update_pool_spec pool f l :
  pending_of pool (update_pool pool f l) = f <$> pending_of pool l
  ∧ on_disk pool.2 (update_pool pool f l)
    = match pending_of pool l with Some _ => on_disk pool.2 l | None => f (on_disk pool.2 l) end.
Proof.
  unfold update_pool. destruct (pending_of pool l) as [c|] eqn:Hp; cbn.
  - split; [|done]. unfold pending_of. cbn. by rewrite bool_decide_true.
  - split; [exact Hp|]. unfold on_disk, write_disk. cbn. by rewrite lookup_insert_eq.
Qed.

#[global] Program Instance demo_pool_laws pool : SqliteLaws (H := pool_sqlite pool) DemoFs Rows := {
  Loader.executed l := default (on_disk pool.2 l) (pending_of pool l);
  Loader.durable l := on_disk pool.2 l;
  Loader.in_tx l := bool_decide (is_Some (pending_of pool l));
}.
Next Obligation. intros pool l. cbn. by destruct (pending_of pool l). Qed.
Next Obligation.
  intros pool sql r l _. cbn. case_bool_decide; [by split_and!|].
  destruct (update_pool_spec pool (λ c, c ++ [r]) l) as [-> ->]. by destruct (pending_of pool l).
Qed.
Next Obligation.
  intros pool sql l _. cbn. destruct (update_pool_spec pool (Loader.list_script sql) l) as [-> ->].
  by destruct (pending_of pool l).
Qed.
Next Obligation.
  intros pool l. cbn. unfold pending_of. destruct (pending l) as [[pool' c]|] eqn:Hp; cbn; rewrite ?Hp.
  - by case_bool_decide.
  - by rewrite (bool_decide_true (pool = pool)).
Qed.
Next Obligation.
  intros pool l. cbn. destruct (pending_of pool l) as [c|] eqn:Hp; cbn; [|done]. intros _.
  split_and!; [done| |done]. unfold on_disk. cbn. by rewrite lookup_insert_eq.
Qed.
Next Obligation. intros pool l. cbn. by destruct (pending_of pool l). Qed.

#[global] Instance demo_sql_files : SqlFiles DemoFs Rows := {
  file_at := demo_file_at;
  stored := on_disk;
  file_of := snd;
  held := demo_held;
  columns_of _ _ := [Ok (lit "value")];
  select _ _ := demo_steps;
  stmt_of s := s;
  pool_durable pool l := eq_refl;
}.

#[global] Instance demo_sql_files_laws : SqlFilesLaws DemoFs Rows.
Proof.
  split; try done.
  - intros uri flags n l. cbn. split; [done|]. intros pool [= <-]. split; [done|].
    unfold pool_in_tx, in_tx, demo_sql_files, demo_pool_laws, pool_laws, pending_of.
    destruct (pending l) as [[[k f] c]|]; [|done].
    apply bool_decide_false. case_bool_decide as Heq; [|by intros []]. apply (f_equal fst) in Heq. cbn in Heq. lia.
  - intros pool l. cbn. split; [done|]. by intros ? [= <-] _.
  - intros conn sql l. cbn. by intros ? [= <-].
  - intros stmt params l. cbn. by intros ? [= <-].
  - intros uri l. cbn. by intros ? [= <-].
  - intros src dst l. cbn. destruct dst as [f|n]; [done|]. intros _. cbn. by rewrite lookup_insert_eq.
Qed.

Definition demo_disk : DemoFs := {| disk := ∅; memory := ∅; next_memory := 0; pending := None |}.
Definition demo_start : Process (C := ListLru.t) (P := SqlDrivers.Provider DemoFs) (E := Outside DemoFs) (Conn := N) :=
  {| kw := world_new 5000000 {| lib := demo_disk; thread := 0; TLS_DB := ∅ |}; reg := registry_new;
     FUN_MAP := None; intranet := IntranetNets.intranet_init |}.
Definition demo_toml : str → option Loader.KnowDbConf := λ _,
  Some (Loader.demo_conf [Loader.demo_table (lit "t") 2]).

(** no Redis server *)
#[global] Instance no_redis {C P E} : RedisClient C P E N :=
  let refused {A} : St (World C P E) (Result RedisFailure A) := mret (Err (RedisError [])) in
  {| client_open _ := Ok tt; connect _ := mret (Err []);
     query_bool _ _ _ _ := refused; query_opt_string _ _ _ _ := refused; query_bools _ _ _ _ := refused;
     query_string _ _ _ _ := refused; type_error_text s := s |}.

(** two of the three records of the data file have the column *)
Lemma reload_serves_file_witness :
  let e := {| proc := demo_start; files := Loader.demo_files; since_epoch := None |} in
  ∃ rows, (reload_table_rows demo_toml (lit "/") (lit "/k/knowdb.toml") (lit "file:/a.db") (lit "t") e).1 = Ok rows
    ∧ answers (current_metadata_scope (rt (kw demo_start))) (lit "SELECT value FROM t") no_params
        [[lit "x"]; [lit "z"]] (kw demo_start) rows.
Proof.
  intros e.
  destruct (reload_table_rows demo_toml (lit "/") (lit "/k/knowdb.toml") (lit "file:/a.db") (lit "t") e)
    as [r e'] eqn:Hr.
  assert (is_ok r = true) as Hok by (apply (f_equal (is_ok ∘ fst)) in Hr; cbn [compose fst] in Hr; rewrite <-Hr; vm_compute; reflexivity).
  destruct r as [rows|]; [|discriminate Hok]. exists rows. split; [reflexivity|].
  destruct (reload_serves_file demo_toml (lit "/") (lit "/k/knowdb.toml") (lit "file:/a.db") (lit "t") e e' rows)
    as (conf & abs & base & st & spec & sql & f & Hp & Hs & Hf & Ha).
  - repeat intro. split_and!; exact I.
  - exact Hr.
  - vm_compute in Hp. injection Hp as <- <- <- <-. vm_compute in Hs. injection Hs as <- <-.
    vm_compute in Hf. injection Hf as <-. exact Ha.
Defined.

#[local] Existing Instance Loader.demo_files.

(** after the start-up the query reads what was built from the data file *)
Lemma authority_serves_files_witness :
  let sql := lit "SELECT value FROM t" in
  let started := init_thread_cloned_from_knowdb demo_toml (lit "/") (lit "/k/knowdb.toml")
                   (lit "file:/a.db?mode=rwc") id demo_start in
  ∃ rows scope, (Facade.query sql (kw started.2)).1 = Ok rows
    ∧ answers scope sql no_params [[lit "x"]; [lit "z"]] (kw started.2) rows.
Proof.
  intros sql started.
  assert (is_ok started.1 && is_ok (Facade.query sql (kw started.2)).1
          && bool_decide (TLS_DB (ext (kw started.2)) = ∅) = true) as Hok by (vm_compute; reflexivity).
  assert (∃ st, Loader.parse_knowdb_conf demo_toml (lit "/") (lit "/k/knowdb.toml") (intranet demo_start)
                = (Ok (Loader.demo_conf [Loader.demo_table (lit "t") 2], lit "/k/knowdb.toml", lit "/k"), st)) as [st Hparse]
    by (eexists; vm_compute; reflexivity).
  pose proof (authority_serves_files demo_toml (lit "/") (lit "/k/knowdb.toml") (lit "file:/a.db?mode=rwc") id demo_start
    _ _ _ st Hparse eq_refl) as Hw.
  assert (demo_file_at (ro_uri (lit "file:/a.db?mode=rwc")) = demo_file_at (lit "file:/a.db?mode=rwc")) as Huri
    by (vm_compute; reflexivity).
  assert (Forall (Loader.plain_table (lit "/k")) [Loader.demo_table (lit "t") 2]) as Hplain
    by (repeat constructor).
  specialize (Hw Hplain Huri). fold started in Hw. clearbody started.
  destruct started as [[[]|err] p']; cbn [fst snd is_ok] in Hok |- *; [|discriminate Hok].
  destruct Hw as (f & h & Hf & Hh & _ & Hst & Hq). vm_compute in Hf. injection Hf as <-.
  destruct (Facade.query sql (kw p')) as [[rows|err] w'] eqn:Hrun; cbn [fst is_ok andb] in Hok |- *; [|discriminate Hok].
  apply bool_decide_eq_true in Hok.
  exists rows, (scope_of (datasource_id h) (generation h)). split; [reflexivity|].
  apply (Hq sql (kw p') rows w' Hh Hst); [|exact Hrun]. rewrite Hok. intros s Hs. rewrite lookup_empty in Hs. discriminate Hs.
Defined.
