(* ===== verification/TextTests.v ===== *)
(** * The source's unit tests: texts and settings

    The tests of src/vel.rs, src/sql_route.rs, src/postgres.rs, src/mysql.rs,
    src/sqlite_ext.rs, src/param.rs, src/field_format.rs, src/loader.rs and
    src/intranet_nets.rs that need no file, network or TOML text, each as the
    boolean of its assertions on the model. *)
From S2P Require Import Prelude Errors RustStr Model SqlRoute.
From S2P Require Vel SqlRewrite SqliteExt Loader ProviderConfig IntranetNets.

Notation "x == y" := (bool_decide (x = y)) (at level 70, no associativity).

(** a text in which a tilde stands for a double quote *)
Definition t (s : string) : str := (λ c, if (c =? 126)%N then DQUOTE else c) <$> lit s.
Definition contains_text (needle s : str) : bool := existsb (λ i, prefix_of needle (drop i s)) (seq 0 (S (length s))).
Definition is_err {E A} (r : Result E A) : bool := negb (is_ok r).
(** the message of an error, or nothing *)
Definition frag_text (f : Frag) : str :=
  match f with F s => lit s | D s => s | Dbg s => s | Num n => dec n end.
Definition message {A} (r : KnowledgeResult A) : str :=
  match r with Ok _ => [] | Err e => concat (frag_text <$> err_detail e) end.
Definition err_has {A} (needle : string) (r : KnowledgeResult A) : bool :=
  is_err r && contains_text (lit needle) (message r).

(** ** src/vel.rs *)
Module VelTests.
Import Vel.
Definition ns (s : N) : N := saturating_mul s 1000000000.
Definition pair_ (k v : string) : str * str := (lit k, lit v).

Definition eval_phase_functions_and_literals : bool :=
  let code := t "
# 注释 + 空行应忽略
$max_age = ~2 hours~
$cur  = phase_now(240, 15)
$next = phase_next(240, 15)
" in
  (eval code (ns 120) == Ok [pair_ "max_age" "2 hours"; pair_ "cur" "p8"; pair_ "next" "p9"])
  && ((λ kv, let m := vars_map kv in (m !! lit "cur", m !! lit "next")) <$> eval code (ns 225)
      == Ok (Some (lit "p15"), Some (lit "p0")))
  && ((λ kv, kv !! 1) <$> eval code (ns 360) == Ok (Some (pair_ "cur" "p8"))).

Definition custom_prefix_and_errors : bool :=
  (eval (t "$b = phase_now(240, 15, ~slot~)") (ns 120) == Ok [pair_ "b" "slot8"])
  && is_err (eval (t "$x = foo(1)") (ns 0))
  && is_err (eval (t "no_assign") (ns 0))
  && (eval [] (ns 0) == Ok [])
  && (eval (t "# 纯注释") (ns 0) == Ok [])
  && is_err (eval (t "$x = phase_now(15, 240)") (ns 0)).

Definition render_substitutes_and_empty_passes_through : bool :=
  let code := t "$cur = phase_now(240, 15)
$max_age = ~2 hours~" in
  let sql := t "SELECT * FROM t WHERE phase_bucket = '$cur' AND win_start >= now() - interval '$max_age'" in
  (render sql code (ns 120)
   == Ok (t "SELECT * FROM t WHERE phase_bucket = 'p8' AND win_start >= now() - interval '2 hours'"))
  && (render sql [] (ns 120) == Ok sql)
  && (render sql (t "  
# note
") (ns 120) == Ok sql).

Definition resolve_replaces_and_keeps_unknown : bool :=
  let vars := [pair_ "cur" "p7"; pair_ "next" "p8"] in
  (resolve_vars (t "WHERE k IN ('$cur','$next') AND z='$ghost'") vars
   == t "WHERE k IN ('p7','p8') AND z='$ghost'")
  && (resolve_vars (t "WHERE 1") [] == t "WHERE 1").

Definition resolve_vars_is_identifier_aware_not_substring : bool :=
  let vars := [pair_ "cur" "p7"; pair_ "cur2" "x"; pair_ "c" "y"] in
  (resolve_vars (t "IN ('$cur','$cur2','$cur_x','$c','$c2','pair:$cur$cur') AND '$9' AND '$中文'") vars
   == t "IN ('p7','x','$cur_x','y','$c2','pair:p7p7') AND '$9' AND '$中文'")
  && (resolve_vars (t "$ghost") vars == t "$ghost")
  && let vars2 := [pair_ "cur" "p1"] in
     (resolve_vars (t "$$cur") vars2 == t "$p1")
     && (resolve_vars (t "$cur$") vars2 == t "p1$")
     && (resolve_vars (t "$中文$cur") vars2 == t "$中文p1").

Definition parse_rejects_duplicate_and_invalid_names : bool :=
  is_err (parse (t "$a = ~1~
$a = ~2~"))
  && is_err (parse (t "$1x = ~v~"))
  && is_err (parse (t "$x-y = ~v~"))
  && is_err (parse (t "x = ~v~"))
  && is_ok (parse (t "$_a = ~1~
$a_1 = ~2~")).

Definition inline_comments_supported_and_trailing_garbage_rejected : bool :=
  let code := t "
$max_age = ~30 days~            # 保留期
$cur  = phase_now(240, 15)      # 当前格
$hint = ~a # not comment~       # 引号内 # 是值
" in
  (vars_map <$> eval code (ns 120)
   == Ok {[lit "max_age" := lit "30 days"; lit "cur" := lit "p8"; lit "hint" := lit "a # not comment"]})
  && is_err (parse (t "$a = ~v~ junk"))
  && is_err (parse (t "$a = phase_now(240, 15) junk"))
  && is_err (parse (t "$a = phase_now(240, 15))")).

Definition single_slot_period_equals_bucket_stays_stable : bool :=
  forallb (λ now, eval (t "$cur = phase_now(60, 60)") now == Ok [pair_ "cur" "p0"])
    [0; 1; 59; 60; 7000000000000000]%N.

Definition eval_is_deterministic_over_now : bool :=
  let code := t "$cur = phase_now(240, 15)" in
  (eval code (ns 121) == Ok [pair_ "cur" "p8"]) && (eval code (ns 135) == Ok [pair_ "cur" "p9"]).

Example vel_tests :
  forallb id [eval_phase_functions_and_literals; custom_prefix_and_errors;
    render_substitutes_and_empty_passes_through; resolve_replaces_and_keeps_unknown;
    resolve_vars_is_identifier_aware_not_substring; parse_rejects_duplicate_and_invalid_names;
    inline_comments_supported_and_trailing_garbage_rejected;
    single_slot_period_equals_bucket_stays_stable; eval_is_deterministic_over_now] = true.
Proof. vm_compute. reflexivity. Qed.
End VelTests.

(** ** src/sql_route.rs: stripping *)
Module StripTests.
Definition strips (name sql out : string) : bool := strip_provider_prefix (t sql) (lit name) == t out.

Definition strip_keeps_string_literals_and_mid_dotted_idents : bool :=
  strips "geo" "select geo.country_name from geo.public.t where name = 'geo.x'"
               "select country_name from public.t where name = 'geo.x'"
  && strips "geo" "select a.geo.country from geo.public.t" "select a.geo.country from public.t"
  && strips "geo" "select geography.x from geo.public.t" "select geography.x from public.t".

Definition strip_handles_distinct_qualifiers : bool :=
  strips "geo" "select group_concat(distinct geo.asset_type) from geo.asset_enrichment"
               "select group_concat(distinct asset_type) from asset_enrichment".

Definition strip_skips_comments : bool :=
  strips "geo" "select geo.a -- geo.b
from geo.public.t /* geo.c */" "select a -- geo.b
from public.t /* geo.c */".

Definition strip_keeps_backtick_quoted_identifiers : bool :=
  strips "geo" "select `geo.col` from geo.public.t" "select `geo.col` from public.t".

Definition strip_handles_provider_name_with_underscore_and_digits : bool :=
  strips "geo_db_v1" "select x from geo_db_v1.public.t where geo_db_v1.k = 1" "select x from public.t where k = 1".

Definition strip_does_not_touch_name_inside_longer_identifier : bool :=
  strips "geo" "select geox.a, xgeo.b from geo.public.t" "select geox.a, xgeo.b from public.t".

Definition strip_supports_quoted_table_names : bool :=
  strips "geo" "select x from geo.~public~.~t~" "select x from ~public~.~t~"
  && strips "geo" "select x from geo.`public`.`t`" "select x from `public`.`t`"
  && strips "geo" "select x from geo.[public].[t]" "select x from [public].[t]".

Example strip_tests :
  forallb id [strip_keeps_string_literals_and_mid_dotted_idents; strip_handles_distinct_qualifiers;
    strip_skips_comments; strip_keeps_backtick_quoted_identifiers;
    strip_handles_provider_name_with_underscore_and_digits;
    strip_does_not_touch_name_inside_longer_identifier; strip_supports_quoted_table_names] = true.
Proof. vm_compute. reflexivity. Qed.
End StripTests.

(** ** src/postgres.rs and src/mysql.rs *)
Module RewriteTests.
Import SqlRewrite.

Definition rewrite_sql_skips_pg_cast_comments_and_dollar_quotes : bool :=
  let sql := t "
SELECT
  payload::jsonb,
  note
FROM demo
WHERE id = :id
  AND note <> ':ignored'
  AND tag = $$:ignored$$
  -- :ignored
  /* :ignored */
" in
  match Postgres.rewrite_sql sql [from_int (lit ":id") 7] with
  | Ok (rewritten, ordered) =>
      forallb (λ s, contains_text (lit s) rewritten) ["payload::jsonb"; "id = $1"; "':ignored'"; "$$:ignored$$"]
      && (get_name <$> ordered == [lit ":id"])
  | Err _ => false
  end.

Definition rewrite_sql_reuses_same_placeholder_for_duplicate_param : bool :=
  let id := from_int (lit ":id") 7 in
  Postgres.rewrite_sql (t "SELECT * FROM demo WHERE left_id=:id OR right_id=:id") [id]
  == Ok (t "SELECT * FROM demo WHERE left_id=$1 OR right_id=$1", [id]).

Definition mysql_type_base_name_detects_unsigned_integer_types : bool :=
  (Mysql.mysql_type_base_name (lit "BIGINT UNSIGNED") == (lit "BIGINT", true))
  && (Mysql.mysql_type_base_name (lit "INT UNSIGNED") == (lit "INT", true))
  && (Mysql.mysql_type_base_name (lit "BIGINT") == (lit "BIGINT", false)).

Definition mysql_type_base_name_preserves_decimal_and_bit : bool :=
  (Mysql.mysql_type_base_name (lit "DECIMAL") == (lit "DECIMAL", false))
  && (Mysql.mysql_type_base_name (lit "BIT") == (lit "BIT", false)).

Definition mysql_bit_u64_to_field_maps_small_bits_to_digit : bool :=
  get_value (Mysql.mysql_bit_u64_to_field (lit "flags") 10) == Int 10.

Definition mysql_bit_u64_to_field_maps_large_bits_to_decimal_chars : bool :=
  get_value (Mysql.mysql_bit_u64_to_field (lit "flags") u64_max) == Chars (lit "18446744073709551615").

Example rewrite_tests :
  forallb id [rewrite_sql_skips_pg_cast_comments_and_dollar_quotes;
    rewrite_sql_reuses_same_placeholder_for_duplicate_param;
    mysql_type_base_name_detects_unsigned_integer_types; mysql_type_base_name_preserves_decimal_and_bit;
    mysql_bit_u64_to_field_maps_small_bits_to_digit;
    mysql_bit_u64_to_field_maps_large_bits_to_decimal_chars] = true.
Proof. vm_compute. reflexivity. Qed.
End RewriteTests.

(** ** src/param.rs, src/field_format.rs and src/sqlite_ext.rs *)
Module FieldTests.
Import Param SqliteExt.

#[local] Instance sql_value_eq_dec : EqDecision SqlValue.
Proof. solve_decision. Defined.

Definition normalize_sqlite_named_params : bool :=
  fmap get_name <$> Param.named_params_to_fields [(lit "id", Ok (Owned (SqlInteger 7)))] == Ok [lit ":id"].

Definition bytes_to_hex_formats_lowercase_hex : bool := bytes_to_hex [0; 255; 16; 170]%N == lit "00ff10aa".
Definition bytes_to_prefixed_hex_adds_0x_prefix : bool := bytes_to_prefixed_hex [0; 255]%N == lit "0x00ff".
Definition chars_field_wraps_string_value : bool :=
  get_value (chars_field (lit "name") (lit "value")) == Chars (lit "value").
Definition display_chars_field_formats_with_to_string : bool :=
  get_value (display_chars_field (lit "name") (dec 42)) == Chars (lit "42").

(** each query applies one function *)
Definition test_ip4_scalar_funcs : bool :=
  let call name args := SqliteExt.register_builtin (lit name) args in
  let text s := SqlText (t s) in
  let ip s := SqlInteger (Z.of_N (default 0%N (SqliteExt.parse_ipv4_to_u32 (lit s)))) in
  (call "ip4_int" [text "1.2.3.4"] == Some (Some (Ok (SqlInteger 16909060))))
  && (call "ip4_text" [SqlInteger 16909060] == Some (Some (Ok (text "1.2.3.4"))))
  && (call "ip4_between" [text "10.0.0.5"; text "10.0.0.1"; text "10.0.0.10"] == Some (Some (Ok (SqlInteger 1))))
  && (call "cidr4_min" [text "10.0.0.0/8"] == Some (Some (Ok (ip "10.0.0.0"))))
  && (call "cidr4_max" [text "10.0.0.0/8"] == Some (Some (Ok (ip "10.255.255.255"))))
  && (call "cidr4_contains" [text "10.1.2.3"; text "10.0.0.0/8"] == Some (Some (Ok (SqlInteger 1))))
  && (call "trim_quotes" [text "  ~work_zone~  "] == Some (Some (Ok (text "work_zone"))))
  && (call "trim_quotes" [text "no_quotes"] == Some (Some (Ok (text "no_quotes"))))
  && (call "trim_quotes" [text "\~work_zone\~"] == Some (Some (Ok (text "work_zone")))).

Example field_tests :
  forallb id [normalize_sqlite_named_params; bytes_to_hex_formats_lowercase_hex;
    bytes_to_prefixed_hex_adds_0x_prefix; chars_field_wraps_string_value;
    display_chars_field_formats_with_to_string; test_ip4_scalar_funcs] = true.
Proof. vm_compute. reflexivity. Qed.
End FieldTests.

(** ** Settings: src/postgres.rs, src/loader.rs *)
Module SettingsTests.
Import Loader.

Definition session_spec (m : option PlanCacheMode) (j : option bool) (app : option string) : PostgresSessionSpec :=
  {| plan_cache_mode := m; jit := j; application_name := lit <$> app |}.

Definition session_from_spec_generates_sets_and_expectations : bool :=
  let session := ProviderConfig.from_spec (session_spec (Some ForceGenericPlan) (Some false) (Some "ip_geo's")) in
  (ProviderConfig.init_statements session
   == lit <$> ["SET plan_cache_mode = force_generic_plan"; "SET jit = off"; "SET application_name = 'ip_geo''s'"])
  && ((λ e, (ProviderConfig.setting_name e.1, e.2)) <$> ProviderConfig.expectations session
      == (λ e, (lit e.1, lit e.2)) <$> [("plan_cache_mode", "force_generic_plan"); ("jit", "off");
                                        ("application_name", "ip_geo's")]).

Definition session_from_spec_empty_when_nothing_set : bool :=
  let session := ProviderConfig.from_spec (session_spec None None None) in
  (ProviderConfig.init_statements session == [])
  && match ProviderConfig.expectations session with [] => true | _ => false end.

Definition session_from_spec_renders_auto_and_jit_on : bool :=
  ProviderConfig.init_statements (ProviderConfig.from_spec (session_spec (Some Auto) (Some true) None))
  == lit <$> ["SET plan_cache_mode = auto"; "SET jit = on"].

(** the builder of both drivers *)
Definition pool_config_clamps_min_connections_and_handles_zero_timeouts : bool :=
  let pool := ProviderConfig.with_acquire_timeout_ms (Some 2500%N)
    (ProviderConfig.with_max_lifetime_ms (Some 0%N) (ProviderConfig.with_idle_timeout_ms (Some 0%N)
      (ProviderConfig.with_min_connections (Some 8%N) (ProviderConfig.with_pool_size (Some 4%N)
        ProviderConfig.pool_default)))) in
  (ProviderConfig.pool_size pool == 4%N) && (ProviderConfig.min_connections pool == 4%N)
  && (ProviderConfig.acquire_timeout pool == 2500%N)
  && (ProviderConfig.idle_timeout pool == None) && (ProviderConfig.max_lifetime pool == None).

Definition spec_of (name : option string) (k : SqlProviderKind) (uri : string) (session : option PostgresSessionSpec)
  : SqlProviderSpec :=
  {| spec_name := lit <$> name; spec_kind := k; connection_uri := lit uri; pool_size := None;
     min_connections := None; acquire_timeout_ms := None; idle_timeout_ms := None; max_lifetime_ms := None;
     postgres_session := session |}.

(** the decoded configurations of the tests that go on after decoding *)
Definition validate_specs_rejects_duplicate_effective_names : bool :=
  err_has "duplicate sqldb provider name 'default'"
    (validate_specs [spec_of None SqlPostgres "postgres://demo@127.0.0.1/db1" None;
                     spec_of None SqlPostgres "postgres://demo@127.0.0.1/db2" None]).

Definition validate_specs_rejects_invalid_name_charset : bool :=
  err_has "invalid sqldb provider name"
    (validate_specs [spec_of (Some "bad name") SqlPostgres "postgres://demo@127.0.0.1/db" None]).

Definition validate_specs_rejects_session_on_non_postgres : bool :=
  err_has "postgres_session"
    (validate_specs [spec_of (Some "geo") SqlMysql "mysql://demo@127.0.0.1/db"
                       (Some (session_spec (Some ForceGenericPlan) None None))]).

Definition validate_specs_rejects_application_name_too_long : bool :=
  err_has "application_name"
    (validate_specs [spec_of (Some "geo") SqlPostgres "postgres://demo@127.0.0.1/db"
       (Some {| plan_cache_mode := None; jit := None; application_name := Some (replicate 64 120%N) |})]).

Definition mixed_named_and_unnamed_sqldb_applies_default_name : bool :=
  let specs := [spec_of (Some "geo") SqlPostgres "postgres://demo@127.0.0.1/geo_db" None;
                spec_of None SqlPostgres "postgres://demo@127.0.0.1/asset_db" None] in
  (effective_name <$> specs == [lit "geo"; DEFAULT_SQLDB_NAME])
  && match validate_specs specs with Ok expected => bool_decide (DEFAULT_SQLDB_NAME ∈ expected) | Err _ => false end.

Definition explicit_default_name_is_recognized : bool :=
  let specs := [spec_of (Some "default") SqlPostgres "postgres://demo@127.0.0.1/main_db" None;
                spec_of (Some "geo") SqlPostgres "postgres://demo@127.0.0.1/geo_db" None] in
  (effective_name <$> specs == [DEFAULT_SQLDB_NAME; lit "geo"])
  && match validate_specs specs with Ok expected => bool_decide (DEFAULT_SQLDB_NAME ∈ expected) | Err _ => false end.

Example settings_tests :
  forallb id [session_from_spec_generates_sets_and_expectations; session_from_spec_empty_when_nothing_set;
    session_from_spec_renders_auto_and_jit_on; pool_config_clamps_min_connections_and_handles_zero_timeouts;
    validate_specs_rejects_duplicate_effective_names; validate_specs_rejects_invalid_name_charset;
    validate_specs_rejects_session_on_non_postgres; validate_specs_rejects_application_name_too_long;
    mixed_named_and_unnamed_sqldb_applies_default_name; explicit_default_name_is_recognized] = true.
Proof. vm_compute. reflexivity. Qed.
End SettingsTests.

(** ** src/intranet_nets.rs, on the demonstration library of networks *)
Module IntranetTests.
Import IntranetNets.

Definition v4 (a b c d : N) : IpAddr := V4 (((a * 256 + b) * 256 + c) * 256 + d)%N.
Definition v6 (segments : list N) : IpAddr := V6 (foldl (λ acc s, acc * 65536 + s)%N 0%N segments).
Definition all_in (set : IntranetNetsSet) (ips : list IpAddr) : bool := forallb (contains set) ips.
Definition none_in (set : IntranetNetsSet) (ips : list IpAddr) : bool := forallb (λ ip, negb (contains set ip)) ips.
Definition conf_of (m : IntranetMergeMode) (nets : list string) : IntranetNetsConf :=
  {| enabled := true; mode := m; nets := lit <$> nets |}.

Definition builtin_set_contains_private_ipv4 : bool :=
  all_in builtin [v4 10 0 0 1; v4 172 16 0 1; v4 127 0 0 1; v4 192 168 0 0; v4 192 168 1 1; v4 192 168 255 255].
Definition builtin_set_excludes_public_and_special_ipv4 : bool :=
  none_in builtin [v4 8 8 8 8; v4 172 32 0 1; v4 11 0 0 1; v4 100 64 1 1; v4 169 254 1 1].
Definition builtin_set_contains_private_ipv6 : bool :=
  all_in builtin [v6 [64512; 0; 0; 0; 0; 0; 0; 1]; v6 [64768; 0; 0; 0; 0; 0; 0; 1]; v6 [0; 0; 0; 0; 0; 0; 0; 1]]%N.
Definition builtin_set_excludes_public_and_special_ipv6 : bool :=
  none_in builtin [v6 [8193; 18528; 18528; 0; 0; 0; 0; 34952]; v6 [8193; 3512; 0; 0; 0; 0; 0; 1];
                   v6 [65152; 0; 0; 0; 0; 0; 0; 1]]%N.
Definition merge_add_appends_custom_nets : bool :=
  all_in (merge (conf_of Add ["172.32.0.0/16"; "192.0.2.0/24"]) builtin) [v4 172 32 0 1; v4 192 0 2 1; v4 10 0 0 1].
Definition merge_replace_overrides_builtin : bool :=
  let set := merge (conf_of Replace ["172.32.0.0/16"]) builtin in
  all_in set [v4 172 32 0 1] && none_in set [v4 10 0 0 1].
Definition merge_ignores_invalid_nets : bool :=
  net_count (merge (conf_of Add ["not-a-cidr"; "10.0.0.0/999"]) builtin) == net_count builtin.
Definition is_intranet_ipv4_mapped_ipv6 : bool :=
  let mapped ip := match ip with V4 a => V6 (65535 * 4294967296 + a)%N | _ => ip end in
  let '(a, s) := is_intranet (mapped (v4 192 168 0 1)) intranet_init in
  a && negb (is_intranet (mapped (v4 8 8 8 8)) s).1.
(** the section as the file has it *)
Definition check_intranet_nets_config_reads_section : bool :=
  match check_intranet_nets_config (Ok []) Ok (λ _, Some (Ok (conf_of Add ["172.32.0.0/16"]))) with
  | Ok (Some msg) => contains_text (lit "1 个网段") (concat (frag_text <$> msg))
  | _ => false
  end.
Definition check_intranet_nets_config_missing_section : bool :=
  check_intranet_nets_config (Ok []) Ok (λ _, None) == Ok None.

Example intranet_tests :
  forallb id [builtin_set_contains_private_ipv4; builtin_set_excludes_public_and_special_ipv4;
    builtin_set_contains_private_ipv6; builtin_set_excludes_public_and_special_ipv6;
    merge_add_appends_custom_nets; merge_replace_overrides_builtin; merge_ignores_invalid_nets;
    is_intranet_ipv4_mapped_ipv6; check_intranet_nets_config_reads_section;
    check_intranet_nets_config_missing_section] = true.
Proof. vm_compute. reflexivity. Qed.
End IntranetTests.
