(* ===== verification/RuntimeTests.v ===== *)
(** * The source's unit tests: runtime, caches, lookups, Redis

    The tests of src/cache.rs, src/runtime.rs, src/sql_route.rs (routing),
    src/fun.rs, src/redis.rs and src/facade.rs on the model, each as the
    boolean of its assertions; the tests that need a Redis server and the one
    that fills an index table are left out, those that need files or SQLite's
    column names are in AuthorityTests.v.  A provider answers from a table of
    texts: the rows a test puts into its in-memory database, by the query it
    asks. *)
From S2P Require Import Prelude Errors RustStr Model Lru LocalCache SqlRoute Runtime Redis Facade.
From S2P Require Import Demo TextTests.
From S2P Require Loader IntranetNets.

(** a provider is its table: the row of each query it knows *)
Abbreviation Table := (str → option str).
Abbreviation TestWorld := (World ListLru.t Table unit).

Definition row_of (v : str) : RowData := [from_chars (lit "value") v].
Definition answer_from {A} (f : RowData → A) (table : Table) (sql : str) : St TestWorld (KnowledgeResult A) := λ w,
  (match table sql with Some v => Ok (f (row_of v)) | None => Err (know_err from_rule [F "no such table"]) end, w).

#[export] Instance test_provider : ProviderExecutor ListLru.t Table unit := {
  query p sql := answer_from (λ r, [r]) p sql;
  query_fields p sql _ := answer_from (λ r, [r]) p sql;
  query_row p sql := answer_from id p sql;
  query_named_fields p sql _ := answer_from id p sql;
  query_async p sql := answer_from (λ r, [r]) p sql;
  query_fields_async p sql _ := answer_from (λ r, [r]) p sql;
  query_row_async p sql := answer_from id p sql;
  query_named_fields_async p sql _ := answer_from id p sql;
}.

(** [TestProvider { value }], and a database that knows some queries *)
Definition constant (v : string) : Table := λ _, Some (lit v).
Definition table_of (rows : list (string * string)) : Table := λ sql,
  (λ x, lit x.2.2) <$> list_find (λ x, lit x.1 = sql) rows.

Definition fresh_world : TestWorld := world_new 5000000 tt.
Abbreviation TM := (St TestWorld).
Definition run_test (m : TM bool) : bool := (m fresh_world).1.

Definition install (k : ProviderKind) (ds : string) (p : Table) : TM (KnowledgeResult Generation) :=
  install_provider k (lit ds) (λ _, mret (Ok p)).
Definition install_named (name : string) (p : Table) (is_default : bool) : TM (KnowledgeResult Generation) :=
  install_provider_named (lit name) Postgres (from_seed Postgres (lit name)) (λ _, mret (Ok p)) is_default.
Definition reads (f : KnowledgeRuntime ListLru.t Table → bool) : TM bool := gets (λ w, f (rt w)).
Definition exists_ (name : string) : TM bool := reads (λ r, provider_exists r (lit name)).

Definition row_is (v : string) (r : KnowledgeResult RowData) : bool := r == Ok (row_of (lit v)).

(** ** src/cache.rs *)
Module CacheTests.
Abbreviation Cache := (FieldQueryCache ListLru.t).
Definition biguint_field (v : N) : DataField := field_new DtBigInt (lit "k") (BigUint v).
Definition result_row (v : N) : RowData := [from_int (lit "country_iso_code") (Z.of_N v)].
Definition domain_field (s : string) : DataField :=
  field_new DtDefault (lit "k")
    (Domain {| display := lit s; debug := lit s; field0 := lit s; hash_feed := feed_str (lit s) |}).
Definition hits (c : Cache) (ps : list DataField) (v : N) : bool := fetch ps c == Some (result_row v).
Definition misses (c : Cache) (ps : list DataField) : bool := fetch ps c == None.
Definition saved (ps : list DataField) (v : N) (c : Cache) : Cache := save ps (result_row v) c.

Definition biguint_single_param_hit_and_miss : bool :=
  let p := biguint_field 42 in
  let c := saved [p] 1 default_cache in
  misses default_cache [p] && hits c [p] 1 && misses c [biguint_field 43].

Definition biguint_multi_param_hit_and_partial_miss : bool :=
  let a := biguint_field 10 in
  let c := saved [a; biguint_field 20] 7 default_cache in
  hits c [a; biguint_field 20] 7 && misses c [a; biguint_field 21].

Definition biguint_isolated_from_chars_digit_ip : bool :=
  let big := biguint_field 1 in
  let chars := from_chars (lit "k") (lit "1") in
  let digit := from_int (lit "k") 1 in
  let ip := field_new DtDefault (lit "k") (Ip (V4 16843009)) in
  let c := saved [ip] 4 (saved [digit] 3 (saved [chars] 2 (saved [big] 1 default_cache))) in
  hits c [big] 1 && hits c [chars] 2 && hits c [digit] 3 && hits c [ip] 4.

(** 1.5 and 2.5 by their bits *)
Definition bool_and_float_param_cache : bool :=
  let b_true := from_bool (lit "k") true in
  let f_15 := from_float (lit "k") 4609434218613702656 in
  let c := saved [b_true] 1 default_cache in
  let c' := saved [f_15] 2 c in
  misses default_cache [b_true] && hits c [b_true] 1 && misses c [from_bool (lit "k") false]
  && misses c [f_15] && hits c' [f_15] 2 && misses c' [from_float (lit "k") 4612811918334230528].

Definition text_like_param_cache_and_isolation_from_chars : bool :=
  let chars := from_chars (lit "k") (lit "example.com") in
  let c := saved [chars] 2 (saved [domain_field "example.com"] 1 default_cache) in
  hits c [domain_field "example.com"] 1 && misses c [domain_field "other.com"] && hits c [chars] 2.

Definition mixed_type_multi_param_and_save_idempotent : bool :=
  let big := biguint_field 7 in
  let code := from_chars (lit "code") (lit "CN") in
  let flag := from_bool (lit "ok") true in
  let c := saved [big; code; flag] 1 default_cache in
  let c' := saved [code] 5 (saved [code] 4 (saved [big] 3 (saved [big] 2 c))) in
  hits c [big; code; flag] 1 && misses c [biguint_field 8; code; flag] && (idx_num c == 3%N)
  && (idx_num c' == 3%N) && hits c' [big] 3 && hits c' [code] 5.

Example cache_tests :
  forallb id [biguint_single_param_hit_and_miss; biguint_multi_param_hit_and_partial_miss;
    biguint_isolated_from_chars_digit_ip; bool_and_float_param_cache;
    text_like_param_cache_and_isolation_from_chars; mixed_type_multi_param_and_save_idempotent] = true.
Proof. vm_compute. reflexivity. Qed.
End CacheTests.

(** ** src/runtime.rs *)
Module RuntimeTests_.

Definition query_param_hash_is_stable : bool :=
  let params := [{| param_name := lit ":id"; param_value := QInt 7 |};
                 {| param_name := lit ":name"; param_value := QText (lit "abc") |}] in
  stable_params_hash params == stable_params_hash params.

Definition fields_to_params_preserves_raw_chars_value : bool :=
  let params := fields_to_params [from_chars (lit ":name") (lit "令狐冲")] in
  (param_value <$> params == [QText (lit "令狐冲")])
  && (get_value <$> params_to_fields params == [Chars (lit "令狐冲")]).

Definition fields_to_params_biguint_is_text : bool :=
  let n := 382824323044708348099391746388336347272%N in
  param_value <$> fields_to_params [field_new DtBigInt (lit ":ip_num") (BigUint n)]
  == [QText (lit "382824323044708348099391746388336347272")].

(** the query of the runtime's tests *)
Definition req : QueryRequest := first_row (lit "SELECT value") [] Bypass.

Definition sqlite_async_bridge_keeps_captured_handle_after_reload : bool := run_test (
  install SqliteAuthority "sqlite:old" (constant "old");;
  old_handle ← gets (λ w, current_handle (rt w));
  install SqliteAuthority "sqlite:new" (constant "new");;
  match old_handle with
  | Ok h => row ← execute_with_handle h req; mret (row_is "old" (into_row <$> row))
  | Err _ => mret false
  end).

Definition named_providers_are_registered_and_queryable : bool := run_test (
  install_named "geo" (constant "geo-value") false;;
  install_named "asset" (constant "asset-value") true;;
  geo ← exists_ "geo"; asset ← exists_ "asset"; nope ← exists_ "nope";
  names ← gets (λ w, provider_names (rt w));
  geo_row ← execute_for (lit "geo") req;
  row ← execute_first_row_fields_for (lit "asset") (lit "SELECT value") [] Bypass;
  default_row ← execute req;
  mret (geo && asset && negb nope && bool_decide (lit "geo" ∈ names) && bool_decide (lit "asset" ∈ names)
        && row_is "geo-value" (into_row <$> geo_row) && row_is "asset-value" row
        && row_is "asset-value" (into_row <$> default_row))).

Definition prune_named_providers_except_keeps_only_selected : bool := run_test (
  install_named "a" (constant "a") false;;
  install_named "b" (constant "b") false;;
  prune_named_providers_except {[lit "a"]};;
  a ← exists_ "a"; b ← exists_ "b"; mret (a && negb b)).

Definition provider_by_name_unknown_returns_error : bool :=
  err_has "not initialized" (provider_by_name (lit "nope") (rt fresh_world)).

Definition execute_first_row_fields_for_unknown_returns_error : bool := run_test (
  r ← execute_first_row_fields_for (lit "nope") (lit "SELECT value") [] Bypass;
  mret (err_has "not initialized" r)).

Definition named_provider_async_dispatch_works : bool := run_test (
  install_named "geo" (constant "geo-async") false;;
  row ← execute_for_async (lit "geo") req;
  row' ← execute_first_row_fields_for_async (lit "geo") (lit "SELECT value") [] Bypass;
  mret (row_is "geo-async" (into_row <$> row) && row_is "geo-async" row')).

Definition redis_ck (cmd : RedisCmdTag) (gen : N) (key : string) (args : list string) : RedisCacheKey :=
  redis_cache_key cmd gen (lit key) (lit <$> args).
Definition present (ck : RedisCacheKey) : TM bool := v ← redis_cache_get ck; mret (bool_decide (is_Some v)).
Definition sleep (d : N) : TM unit := modify (λ w, set_now (now w + from_millis d)%N w).

Definition redis_cache_hit_and_miss : bool := run_test (
  let ck := redis_ck Get 1 "user:1" [] in
  configure_redis_cache true 64;;
  before ← present ck;
  redis_cache_put ck (RBool true);;
  val ← redis_cache_get ck;
  mret (negb before && match val with Some (RBool true) => true | _ => false end)).

Definition redis_cache_global_enabled_access : bool := run_test (
  let ck := redis_ck Get 1 "k" [] in
  configure_redis_cache true 64;; redis_cache_put ck (RBool true);; present ck).

Definition redis_cache_global_disabled_blocks_all : bool := run_test (
  let ck := redis_ck BfExists 1 "any_key" ["item"] in
  configure_redis_cache false 64;; redis_cache_put ck (RBool true);; b ← present ck; mret (negb b)).

Definition redis_cache_ttl_expiry : bool := run_test (
  let ck := redis_ck BfExists 1 "k" ["item"] in
  configure_redis_cache true 64;;
  redis_cache_put_with_ttl ck (RBool true) 1;;
  at_once ← present ck; sleep 5;; later ← present ck; mret (at_once && negb later)).

Definition redis_cache_no_ttl_never_expires : bool := run_test (
  let ck := redis_ck Get 1 "k" [] in
  configure_redis_cache true 64;;
  redis_cache_put ck (RBool true);;
  at_once ← present ck; sleep 5;; later ← present ck; mret (at_once && later)).

Definition redis_cache_generation_isolation : bool := run_test (
  configure_redis_cache true 64;;
  redis_cache_put (redis_ck BfExists 1 "key" ["item"]) (RBool false);;
  gen2 ← present (redis_ck BfExists 2 "key" ["item"]);
  gen1 ← present (redis_ck BfExists 1 "key" ["item"]);
  mret (negb gen2 && gen1)).

Example runtime_tests :
  forallb id [query_param_hash_is_stable; fields_to_params_preserves_raw_chars_value;
    fields_to_params_biguint_is_text; sqlite_async_bridge_keeps_captured_handle_after_reload;
    named_providers_are_registered_and_queryable; prune_named_providers_except_keeps_only_selected;
    provider_by_name_unknown_returns_error; execute_first_row_fields_for_unknown_returns_error;
    named_provider_async_dispatch_works; redis_cache_hit_and_miss; redis_cache_global_enabled_access;
    redis_cache_global_disabled_blocks_all; redis_cache_ttl_expiry; redis_cache_no_ttl_never_expires;
    redis_cache_generation_isolation] = true.
Proof. vm_compute. reflexivity. Qed.
End RuntimeTests_.

(** ** src/sql_route.rs: routing *)
Module RouteTests.
(** routes one text after the other with an empty memo, with "geo" installed or not *)
Definition routes (installed : bool) (calls : list (string * option (string * string))) : bool :=
  let w := if installed then (install_named "geo" (constant "v") false fresh_world).2 else fresh_world in
  (route_calls finish route_memo (map (λ c, (rt w, t c.1)) calls)).1
  == map (λ c, option_map (λ r, (lit r.1, t r.2)) c.2) calls.

Definition route_provider_sql_matches_installed_provider : bool :=
  routes true [("select country_name from geo.public.ip_geo_city where ip_num = :ip",
                Some ("geo", "select country_name from public.ip_geo_city where ip_num = :ip"))].
Definition route_provider_sql_falls_back_for_unknown_or_unqualified : bool :=
  routes true [("select a from nope.public.t", None); ("select a from ip_geo_city", None)].
Definition route_provider_sql_handles_subquery : bool :=
  routes true [("select a from (select a from geo.public.t where x = 1) sub",
                Some ("geo", "select a from (select a from public.t where x = 1) sub"))].
Definition route_provider_sql_prefix_requires_installed_provider : bool :=
  routes false [("select a from ghost.public.t", None)].
Definition route_provider_sql_ignores_from_inside_comment : bool :=
  routes true [("select 1 /* from ghost.x */ from geo.public.t",
                Some ("geo", "select 1 /* from ghost.x */ from public.t"));
               ("select 1 -- from ghost.x
from geo.public.t", Some ("geo", "select 1 -- from ghost.x
from public.t"))].

Example route_tests :
  forallb id [route_provider_sql_matches_installed_provider;
    route_provider_sql_falls_back_for_unknown_or_unqualified; route_provider_sql_handles_subquery;
    route_provider_sql_prefix_requires_installed_provider;
    route_provider_sql_ignores_from_inside_comment] = true.
Proof. vm_compute. reflexivity. Qed.
End RouteTests.

(** ** src/fun.rs and src/redis.rs without a server *)
Module CommandTests.
#[local] Existing Instance Loader.fun_call_eq_dec.
Definition fun_spec (c : Loader.FunCall) (k : option string) : Loader.FunSpec :=
  {| Loader.fun_call := c; Loader.fun_key := lit <$> k; Loader.fun_cache := true; Loader.fun_ttl_ms := None |}.
(** [register_test_fun] *)
Definition funs : FunMap :=
  register_fun_map (list_to_map
    [(lit "test_bf", fun_spec Loader.FcBfExists (Some "bf_key")); (lit "test_set", fun_spec Loader.FcSismember (Some "set_key"));
     (lit "test_hash", fun_spec Loader.FcHget (Some "hash_key")); (lit "test_kv", fun_spec Loader.FcGet (Some "kv_key"));
     (lit "test_no_key", fun_spec Loader.FcGet None)]) None.

Definition resolves (service : string) (returns_bool : bool) (c : Loader.FunCall) : bool :=
  match resolve_spec funs (lit service) returns_bool with
  | Ok spec => (call spec == c) && Bool.eqb (Loader.returns_bool (call spec)) returns_bool
  | Err _ => false
  end.
Definition resolve_service_not_found : bool := err_has "not found" (resolve_spec funs (lit "nonexistent") true).
Definition resolve_type_mismatch : bool := err_has "returns value" (resolve_spec funs (lit "test_hash") true).
Definition resolve_bool_services : bool :=
  resolves "test_bf" true Loader.FcBfExists && resolves "test_set" true Loader.FcSismember.
Definition resolve_value_services : bool :=
  resolves "test_hash" false Loader.FcHget && resolves "test_kv" false Loader.FcGet.
Definition no_key_uses_arg : bool :=
  match resolve_spec funs (lit "test_no_key") false with Ok spec => key spec == None | Err _ => false end.

(** the process of these tests: no Redis provider is registered *)
Definition process : Process (C := ListLru.t) (P := N) (E := N) (Conn := N) :=
  {| kw := demo_world; reg := registry_new; FUN_MAP := funs; intranet := IntranetNets.intranet_init |}.
Definition external_exists_service_not_found : bool :=
  err_has "not found" (external_exists (lit "nonexistent") (lit "arg") process).1.
Definition external_exists_type_mismatch : bool :=
  err_has "returns value" (external_exists (lit "test_hash") (lit "arg") process).1.
Definition external_value_service_not_found : bool :=
  err_has "not found" (external_value (lit "nonexistent") (lit "arg") process).1.
Definition external_value_type_mismatch : bool :=
  err_has "returns bool" (external_value (lit "test_bf") (lit "arg") process).1.

Abbreviation Reg := (RedisRegistry N).
(** a command on an empty registry *)
Definition on_none {A} (c : Reg → str → St (World ListLru.t N N) (KnowledgeResult A)) (name : string) : KnowledgeResult A :=
  (c registry_new (lit name) demo_world).1.
Definition execs (cmd : string) (args : list string) : KnowledgeResult str :=
  on_none (λ r n, exec r n (lit cmd) (lit "k") (lit <$> args)) "_nonexistent_".

Definition not_found_provider_returns_error : bool :=
  err_has "not found" (execs "GET" []) || err_has "_nonexistent_" (execs "GET" []).
Definition unsupported_command_before_pool_lookup : bool :=
  err_has "unsupported" (execs "SET" ["v"]) && err_has "SET" (execs "SET" ["v"]).
Definition bf_exists_missing_args : bool := err_has "requires at least 1 argument" (execs "BF.EXISTS" []).
Definition hget_missing_args : bool := err_has "requires at least 1 argument" (execs "HGET" []).
Definition sismember_missing_args : bool := err_has "requires at least 1 argument" (execs "SISMEMBER" []).

Definition same_registry (r r' : Reg) : bool := bool_decide (names r = names r') && (size (pools r) == size (pools r')).
Definition close_nonexistent_name_is_noop : bool :=
  same_registry (close (Some (lit "_nonexistent_close_")) registry_new) registry_new.
Definition close_none_on_empty_registry_is_noop : bool := same_registry (close None registry_new) registry_new.
Definition close_twice_is_noop : bool :=
  let c := close (Conn := N) (Some (lit "_closed_once_")) in same_registry (c (c registry_new)) (c registry_new).

Definition init_rejects_invalid_url_scheme : bool :=
  forallb (λ url, err_has "invalid redis url"
                    (init (Conn := N) (lit "t") (lit url) None id registry_new demo_world).1.1)
    ["http://example.com"; "unix:///var/run/redis.sock"; EmptyString; "redis::/bogus"].

Definition typed_nonexistent (name : string) : bool :=
  err_has "not found" (on_none (λ r n, get r n (lit "any_key")) name)
  && err_has "not found" (on_none (λ r n, bf_exists r n (lit "any_key") (lit "item")) name)
  && err_has "not found" (on_none (λ r n, hget r n (lit "any_key") (lit "f")) name)
  && err_has "not found" (on_none (λ r n, set_exists r n (lit "any_key") (lit "m")) name)
  && err_has "not found" (on_none (λ r n, bf_madd r n (lit "any_key") [lit "item"]) name)
  && err_has "not found" (on_none (λ r n, bf_reserve r n (lit "any_key") 4576918229304087675 100) name).
Definition typed_functions_nonexistent_provider_return_error : bool := typed_nonexistent "_nonexistent_typed_".

Example command_tests :
  forallb id [resolve_service_not_found; resolve_type_mismatch; resolve_bool_services; resolve_value_services;
    no_key_uses_arg; external_exists_service_not_found; external_exists_type_mismatch;
    external_value_service_not_found; external_value_type_mismatch; not_found_provider_returns_error;
    unsupported_command_before_pool_lookup; bf_exists_missing_args; hget_missing_args; sismember_missing_args;
    close_nonexistent_name_is_noop; close_none_on_empty_registry_is_noop; close_twice_is_noop;
    init_rejects_invalid_url_scheme; typed_functions_nonexistent_provider_return_error] = true.
Proof. vm_compute. reflexivity. Qed.
End CommandTests.

(** ** src/facade.rs: lookups on databases of one row *)
Module FacadeTests.
Abbreviation Cache := (FieldQueryCache ListLru.t).
Abbreviation TL := (St (TestWorld * Cache)).
Definition run_lookups (m : TL bool) : bool := (m (fresh_world, default_cache)).1.
Definition world {A} (m : TM A) : TL A := on_world m.

(** [init_mem_provider] and [install_named_mem_provider] *)
Definition init_mem (db : Table) : TL unit := world (install SqliteAuthority "sqlite:mem" db);; mret tt.
Definition install_mem (name : string) (db : Table) : TL unit :=
  world (install_provider_named (lit name) SqliteAuthority (from_seed SqliteAuthority (lit name)) (λ _, mret (Ok db)) false);;
  mret tt.

Definition BY_ID : string := "SELECT value FROM t WHERE id=:id".
Definition ROW_1 : string := "SELECT value FROM t WHERE id = 1".
(** table t with the row 1 *)
Definition db_t (v : string) : Table := table_of [(BY_ID, v); (ROW_1, v)].
Definition c_params : list DataField := [from_int (lit "id") 1].
Definition query_params : list DataField := [from_int (lit ":id") 1].
Definition lookup (sql : string) : TL RowData := cache_query_fields (lit sql) c_params query_params.
Definition lookup_at (provider : option string) : TL RowData :=
  cache_query_fields_route (lit <$> provider) (lit BY_ID) 0 c_params query_params.
Definition shows (v : string) (row : RowData) : bool := row == row_of (lit v).
Definition count (k : Counter) : TL N := gets (λ s, snap_counters (snapshot s.1) k).

Definition provider_can_be_replaced : bool := run_lookups (
  init_mem (db_t "first");;
  row ← world (query_row (lit ROW_1));
  init_mem (db_t "second");;
  row' ← world (query_row (lit ROW_1));
  mret (row_is "first" row && row_is "second" row')).

Definition async_query_uses_runtime_bridge : bool := run_lookups (
  init_mem (db_t "async-first");;
  row ← world (query_row_async (lit ROW_1));
  mret (row_is "async-first" row)).

Definition query_async_works_with_mem_provider : bool := run_lookups (
  init_mem (db_t "hello");;
  row ← world (query_fields_async (lit BY_ID) query_params);
  mret (row_is "hello" row)).

Definition async_cache_query_fields_hits_local_cache : bool := run_lookups (
  init_mem (db_t "async-cache");;
  first ← cache_query_fields_async (lit BY_ID) c_params query_params;
  second ← cache_query_fields_async (lit BY_ID) c_params query_params;
  mret (shows "async-cache" first && shows "async-cache" second)).

Definition local_cache_is_cleared_when_generation_changes : bool := run_lookups (
  init_mem (db_t "first");;
  row ← lookup BY_ID;
  init_mem (db_t "second");;
  row' ← lookup BY_ID;
  mret (shows "first" row && shows "second" row')).

Definition local_cache_is_scoped_by_sql_text : bool := run_lookups (
  let t1 := "SELECT value FROM t1 WHERE id=:id" in
  let t2 := "SELECT value FROM t2 WHERE id=:id" in
  init_mem (table_of [(t1, "first"); (t2, "second")]);;
  row ← lookup t1; row' ← lookup t2;
  mret (shows "first" row && shows "second" row')).

Definition runtime_snapshot_tracks_generation_and_cache_size : bool := run_lookups (
  init_mem (db_t "first");;
  row ← lookup BY_ID;
  snap ← gets (λ s, snapshot s.1);
  mret (shows "first" row && (snap_provider_kind snap == Some SqliteAuthority)
        && bool_decide (is_Some (snap_generation snap))
        && (1 <=? snap_result_cache_len snap) && (snap_result_cache_len snap <=? snap_result_cache_capacity snap)
        && (snap_metadata_cache_len snap <=? snap_metadata_cache_capacity snap)
        && (1 <=? snap_counters snap reload_successes)%N)).

Definition failed_provider_reload_keeps_previous_provider : bool := run_lookups (
  init_mem (db_t "first");;
  before ← gets (λ s, current_generation (rt s.1));
  reload ← world (install_provider SqliteAuthority (from_seed SqliteAuthority (lit "reload-failure"))
                    (λ _, mret (Err (know_err from_logic [F "expected reload failure"]))));
  row ← world (query_row (lit ROW_1));
  after ← gets (λ s, current_generation (rt s.1));
  mret (is_err reload && row_is "first" row && (after == before))).

(** the counters of the caches in front of the provider *)
Definition runtime_snapshot_records_cache_counters : bool := run_lookups (
  init_mem (db_t "first");;
  hits ← count local_cache_hits; misses ← count local_cache_misses; asked ← count result_cache_misses;
  row ← lookup BY_ID; row' ← lookup BY_ID;
  hits' ← count local_cache_hits; misses' ← count local_cache_misses; asked' ← count result_cache_misses;
  mret (shows "first" row && shows "first" row' && (hits <? hits')%N && (misses <? misses')%N && (asked <? asked')%N)).

Definition cache_query_fields_route_separates_named_and_default_providers : bool := run_lookups (
  init_mem (db_t "default");;
  install_mem "geo" (db_t "geo");;
  named ← lookup_at (Some "geo"); default ← lookup_at None; named_again ← lookup_at (Some "geo");
  mret (shows "geo" named && shows "default" default && shows "geo" named_again)).

Definition mixed_provider_queries_keep_local_cache_per_provider : bool := run_lookups (
  init_mem (db_t "default");;
  install_mem "geo" (db_t "geo");;
  before ← count local_cache_hits;
  a ← lookup_at (Some "geo"); b ← lookup_at None; c ← lookup_at (Some "geo");
  after ← count local_cache_hits;
  mret (shows "geo" a && shows "default" b && shows "geo" c && (before <? after)%N)).

Definition cache_query_fields_route_unknown_provider_returns_empty : bool := run_lookups (
  out ← lookup_at (Some "nope"); mret (out == [])).

Definition query_for_named_provider_returns_rows : bool := run_lookups (
  install_mem "geo" (db_t "named");;
  rows ← world (query_for (lit "geo") (lit ROW_1));
  geo ← world (exists_ "geo"); nope ← world (exists_ "nope");
  names ← gets (λ s, provider_names (rt s.1));
  mret ((rows == Ok [row_of (lit "named")]) && geo && negb nope && bool_decide (lit "geo" ∈ names))).

Definition query_async_for_named_provider_works : bool := run_lookups (
  install_mem "geo" (db_t "async-named");;
  rows ← world (query_async_for (lit "geo") (lit ROW_1));
  mret (rows == Ok [row_of (lit "async-named")])).

Example facade_tests :
  forallb id [provider_can_be_replaced; async_query_uses_runtime_bridge; query_async_works_with_mem_provider;
    async_cache_query_fields_hits_local_cache; local_cache_is_cleared_when_generation_changes;
    local_cache_is_scoped_by_sql_text; runtime_snapshot_tracks_generation_and_cache_size;
    failed_provider_reload_keeps_previous_provider; runtime_snapshot_records_cache_counters;
    cache_query_fields_route_separates_named_and_default_providers;
    mixed_provider_queries_keep_local_cache_per_provider;
    cache_query_fields_route_unknown_provider_returns_empty; query_for_named_provider_returns_rows;
    query_async_for_named_provider_works] = true.
Proof. vm_compute. reflexivity. Qed.
End FacadeTests.
