(* ===== verification/RefreshTests.v ===== *)
(** * The source's unit tests: table refresh

    The tests of src/refresh.rs on the service of Refresh.v under a virtual
    clock of ten milliseconds a turn.  The two fixture tables of the repository
    stand for their reload, an unknown table for a reload that fails; a query
    by name goes to a provider that answers from a table. *)
From S2P Require Import Prelude Errors RustStr Model Lru Runtime Facade Refresh.
From S2P Require Import Demo TextTests RuntimeTests RefreshFacts.
From S2P Require Vel.
Import Service.

Definition ms (n : N) : N := (n * 1000000)%N.

(** [CARGO_MANIFEST_DIR]/knowdb *)
Definition fixture_spec (table : string) (interval_ms : N) : RefreshSpec :=
  {| Refresh.name := lit table; interval := ms interval_ms;
     source := Authority (lit "knowdb") (lit "knowdb.toml") (lit "file:refresh.sqlite") (lit table) |}.
Definition named_spec (n : string) (interval_ms : N) (sql code : string) : RefreshSpec :=
  {| Refresh.name := lit n; interval := ms interval_ms; source := NamedSql DEFAULT_PROVIDER_NAME (t sql) (t code) |}.

(** the rows of the fixture tables *)
Definition fixture_rows (table : str) : KnowledgeResult (list RowData) :=
  if bool_decide (table ∈ lit <$> ["address"; "example"])
  then Ok (replicate 10 [from_chars (lit "value") (lit "row")])
  else Err (know_err from_conf [F "table not found"]).
Definition fixture_load (query : str → str → TM (KnowledgeResult (list RowData))) (spec : RefreshSpec)
  : TM (KnowledgeResult (list RowData)) :=
  match source spec with
  | Authority _ _ _ table => mret (fixture_rows table)
  | NamedSql provider sql code => sql ←? mret (Vel.render sql code 0%N); query provider sql
  end.
Definition fixture_reload : RefreshSpec → TM (KnowledgeResult (list RowData)) := fixture_load query_async_for.

Abbreviation Svc := (RefreshService TestWorld).
Definition spawn_in (w : TestWorld) (specs : list RefreshSpec) : Svc := spawn specs 0%N w.
Definition seeded (table : string) (specs : list RefreshSpec) (w : TestWorld) : Svc :=
  spawn_with_store specs (insert {| data_name := lit table; rows := [] |} ∅) 0%N w.

(** every task runs as far as it gets, and the receiver is asked once *)
Definition turn_events (s : Svc) : list (Event TestWorld) :=
  concat (replicate 6 ((λ i, Poll i false) <$> seq 0 (length (tasks s)))) ++ [Recv].
Definition received (os : list Obs) : list str :=
  omap (λ o, match o with Received (Some sig) => Some (sig_name sig) | _ => None end) os.

(** until [n] signals are there or the turns are used up *)
Fixpoint collect (turns n : nat) (s : Svc) : list str * Svc :=
  let '(os, s) := run fixture_reload (turn_events s) s in
  let got := received os in
  match turns with
  | 0 => (got, s)
  | S turns =>
      if n <=? length got then (got, s)
      else
        let '(_, s) := step fixture_reload (Elapse (ms 10)) s in
        let '(more, s) := collect turns (n - length got) s in
        (got ++ more, s)
  end.
Definition current (table : string) (s : Svc) : option nat := length ∘ rows <$> Refresh.snapshot (lit table) (store s).

Definition store_snapshot_missing_is_none_and_insert_returns_current_generation : bool :=
  let gen1 := {| data_name := lit "t"; rows := [] |} in
  match Refresh.snapshot (lit "nope") ∅, Refresh.snapshot (lit "t") (insert gen1 ∅) with
  | None, Some snap => (data_name snap == data_name gen1) && (rows snap == rows gen1)
  | _, _ => false
  end.

Definition tick_swaps_store_and_signals_without_payload : bool :=
  let '(signals, s) := collect 150 2 (spawn_in fresh_world [fixture_spec "address" 80]) in
  (signals == [lit "address"; lit "address"]) && (current "address" s == Some 10).

Definition multiple_specs_notify_concurrently_and_independently : bool :=
  let '(signals, s) := collect 200 4 (spawn_in fresh_world [fixture_spec "address" 80; fixture_spec "example" 80]) in
  bool_decide (lit "address" ∈ signals) && bool_decide (lit "example" ∈ signals) && (4 <=? length signals)
  && (current "address" s == Some 10) && (current "example" s == Some 10).

Definition zero_interval_spec_is_skipped : bool :=
  (collect 20 1 (spawn_in fresh_world [fixture_spec "address" 0])).1 == [].

Definition first_signal_not_before_first_interval : bool :=
  let '(early, s) := collect 15 1 (spawn_in fresh_world [fixture_spec "address" 250]) in
  let '(signals, s') := collect 80 1 s in
  (early == []) && (current "address" s == None) && (signals == [lit "address"]) && (current "address" s' == Some 10).

Definition reload_failure_is_skipped_and_shutdown_closes_channel : bool :=
  let '(signals, s) := collect 40 1 (spawn_in fresh_world [fixture_spec "ghost_table" 60]) in
  let '(_, s') := collect 1 1 (shutdown s) in
  (signals == []) && (current "ghost_table" s == None)
  && match (recv s').1 with Got None => true | _ => false end.

Definition drop_aborts_tasks_and_closes_channel : bool :=
  let '(signals, s) := collect 150 1 (spawn_in fresh_world [fixture_spec "address" 80]) in
  let '(late, s') := collect 150 1 (drop_service s) in
  (signals == [lit "address"]) && (late == []) && forallb exited (tasks s').

(** the two rows of the test's table, by the query that picks one *)
Definition vars_world (table : string) : TestWorld :=
  let q k := ("SELECT v FROM " ++ table ++ " WHERE k = '" ++ k ++ "'")%string in
  (install SqliteAuthority "sqlite:mem" (table_of [(q "a", "1"); (q "b", "2")])%string fresh_world).2.

Definition named_sql_spec_substitutes_code_before_each_query : bool :=
  let spec := named_spec "vars_t" 80 "SELECT v FROM refresh_vars_t WHERE k = '$cur'" "$cur = ~b~" in
  let '(signals, s) := collect 150 1 (spawn_in (vars_world "refresh_vars_t") [spec]) in
  (signals == [lit "vars_t"])
  && ((λ d, rows d) <$> Refresh.snapshot (lit "vars_t") (store s) == Some [row_of (lit "2")]).

Definition sync_load_rows_substitutes_code_before_query : bool :=
  let spec := named_spec "sync_t" 80 "SELECT v FROM sync_load_t WHERE k = '$cur'" "$cur = ~a~" in
  (fixture_load query_for spec (vars_world "sync_load_t")).1 == Ok [row_of (lit "1")].

Definition spawn_with_store_replaces_seeded_generation_on_first_tick : bool :=
  let s0 := seeded "address" [fixture_spec "address" 80] fresh_world in
  let '(signals, s) := collect 150 1 s0 in
  (current "address" s0 == Some 0) && (signals == [lit "address"]) && (current "address" s == Some 10).

Definition failed_reload_keeps_last_generation_and_no_signal : bool :=
  let spec := named_spec "missing_t" 50 "SELECT * FROM refresh_missing_xyz_t" EmptyString in
  let '(signals, s) := collect 40 1 (seeded "missing_t" [spec] (vars_world "refresh_fail_keep_t")) in
  (signals == []) && (current "missing_t" s == Some 0).

Definition invalid_vel_code_skips_tick_and_load_rows_errors : bool :=
  let spec := named_spec "velbad" 40 "SELECT 1 WHERE '$bad'" "$bad = nope(1)" in
  let '(signals, s) := collect 30 1 (spawn_in fresh_world [spec]) in
  is_err (fixture_load query_for spec fresh_world).1 && (signals == []) && (current "velbad" s == None).

Definition duplicate_spec_name_keeps_only_first_ticker : bool :=
  let long := fixture_spec "address" 1000 in
  let short := fixture_spec "address" 200 in
  let '(signals, s) := collect 70 3 (spawn_in fresh_world [long; short]) in
  let '(signals', s') := collect 150 1 (spawn_in fresh_world [short; long]) in
  (signals == []) && (current "address" s == None)
  && (signals' == [lit "address"]) && (current "address" s' == Some 10).

Example refresh_tests :
  forallb id [store_snapshot_missing_is_none_and_insert_returns_current_generation;
    tick_swaps_store_and_signals_without_payload; multiple_specs_notify_concurrently_and_independently;
    zero_interval_spec_is_skipped; first_signal_not_before_first_interval;
    reload_failure_is_skipped_and_shutdown_closes_channel; drop_aborts_tasks_and_closes_channel;
    named_sql_spec_substitutes_code_before_each_query; sync_load_rows_substitutes_code_before_query;
    spawn_with_store_replaces_seeded_generation_on_first_tick;
    failed_reload_keeps_last_generation_and_no_signal; invalid_vel_code_skips_tick_and_load_rows_errors;
    duplicate_spec_name_keeps_only_first_ticker] = true.
Proof. vm_compute. reflexivity. Qed.
