(* ===== verification/AuthorityTests.v ===== *)
(** * The source's tests of authority databases

    The tests of src/loader.rs and src/facade.rs that build an authority
    database or read the column-name cache of a provider over SQLite, on the library of AuthorityFacts.v: their configuration stands
    decoded, their files as texts and records, each test as the boolean of its
    assertions. *)
From S2P Require Import Prelude Errors RustStr Model Lru LocalCache Telemetry SqlRoute Runtime SqliteDb Authority Redis Facade.
From S2P Require Import SqlDrivers Refresh Demo SqlDriversFacts MemEntry AuthorityFacts TextTests.
From S2P Require Loader IntranetNets.

Abbreviation TestProcess :=
  (Process (C := ListLru.t) (P := SqlDrivers.Provider DemoFs) (E := Outside DemoFs) (Conn := N)).
Abbreviation TP := (St TestProcess).

(** a process over a disk with the file of the unnamed database *)
Definition process_with (unnamed : list (list string)) : TestProcess :=
  {| kw := world_new 5000000
       {| lib := {| disk := {[ [] := (λ r : list string, lit <$> r) <$> unnamed ]}; memory := ∅; next_memory := 0; pending := None |};
          thread := 0; TLS_DB := ∅ |};
     reg := registry_new; FUN_MAP := None; intranet := IntranetNets.intranet_init |}.
Definition run_process (unnamed : list (list string)) (m : TP bool) : bool := (m (process_with unnamed)).1.

(** the configuration file and one table directory with its data file *)
Definition table_files (conf_path dir create insert : string) (records : list (list string)) : Loader.Files := {|
  Loader.Reader := bool * list (list str);
  Loader.file_text p := if p == lit conf_path then Some (lit "version = 2")
                        else if p == lit (dir ++ "/create.sql") then Some (lit create)
                        else if p == lit (dir ++ "/insert.sql") then Some (lit insert)
                        else None;
  Loader.file_exists p := p == lit (dir ++ "/data.csv");
  Loader.csv_open opts _ := Some (Loader.opt_has_headers opts, (λ r : list string, lit <$> r) <$> records);
  Loader.csv_headers r := head r.2;
  Loader.csv_records r := Some <$> (if r.1 then tail r.2 else r.2);
|}.
Definition table_spec (n : string) (dir : option string) (on : bool) (headers : list string) (indices : list nat)
  : Loader.TableSpec :=
  {| Loader.table_name := lit n; Loader.table_dir := lit <$> dir; Loader.data_file := None;
     Loader.columns := {| Loader.by_header := lit <$> headers; Loader.by_index := indices |};
     Loader.expected_rows := {| Loader.expect_min := None; Loader.expect_max := None |};
     Loader.table_enabled := on |}.
Definition tables_conf (cache : Loader.CacheSpec) (csv : Loader.CsvSpec) (provider : option Loader.ProviderConfig)
    (ts : list Loader.TableSpec) : Loader.KnowDbConf :=
  {| Loader.version := 2; Loader.base_dir := lit "."; Loader.default_load := Loader.opt_load_spec_default;
     Loader.csv := csv; Loader.cache := cache; Loader.provider_raw := provider; Loader.tables := ts;
     Loader.fun_ := ∅; Loader.intranet_nets := None |}.

(** ** src/loader.rs *)

Definition scaffold_reload_fixture (data : list string) : Loader.Files :=
  table_files "/r/knowdb.toml" "/r/./address" "CREATE TABLE {table}" "INSERT INTO {table}" ((λ x : string, [x]) <$> data).
Definition reload_in (files : Loader.Files) (ts : list Loader.TableSpec) (table : string)
  : TP (KnowledgeResult (list RowData)) := λ p,
  let conf := tables_conf Loader.cache_spec_default Loader.csv_spec_default None ts in
  let '(r, e) := reload_table_rows (λ _, Some conf) (lit "/r") (lit "knowdb.toml") (lit "file:/tmp/reload.sqlite") (lit table)
                   {| proc := p; files := files; since_epoch := None |} in
  (r, proc e).

Definition value_row (v : string) : RowData := [from_chars (lit "value") (lit v)].

Definition reload_table_rows_reflects_csv_overwrite_and_projects_typed_rows : bool := run_process [] (
  let ts := [table_spec "address" (Some "address") true ["value"] []] in
  rows ← reload_in (scaffold_reload_fixture ["value"; "v1"; "v2"; "v3"]) ts "address";
  rows2 ← reload_in (scaffold_reload_fixture ["value"; "v9"]) ts "address";
  mret ((rows == Ok [value_row "v1"; value_row "v2"; value_row "v3"]) && (rows2 == Ok [value_row "v9"]))).

Definition reload_table_rows_errors_on_unknown_disabled_and_by_index_only_tables : bool := run_process [] (
  let ts := [table_spec "on" (Some "address") true ["value"] []; table_spec "off" (Some "address") false ["value"] [];
             table_spec "by_index" (Some "address") true [] [0]] in
  let ask := reload_in (scaffold_reload_fixture []) ts in
  err_unknown ← ask "ghost"; err_disabled ← ask "off"; err_by_index ← ask "by_index";
  mret (err_has "not found" err_unknown && err_has "not found" err_disabled
        && err_has "columns.by_header" err_by_index)).

(** ** src/facade.rs *)

Definition cache_spec (enabled : bool) (capacity : nat) (ttl_ms : N) : Loader.CacheSpec :=
  {| Loader.cache_enabled := enabled; Loader.cache_capacity := capacity; Loader.cache_ttl_ms := ttl_ms |}.
Definition no_header : Loader.CsvSpec :=
  {| Loader.has_header := false; Loader.delimiter := Loader.default_comma; Loader.encoding := Loader.default_utf8;
     Loader.csv_trim := Loader.csv_trim Loader.csv_spec_default |}.
Definition write_minimal_knowdb_with_cache (enabled : bool) (capacity : nat) (ttl_ms : N)
  : Loader.Files * Loader.KnowDbConf :=
  (table_files "/r/knowdb.toml" "/r/./example"
     "CREATE TABLE IF NOT EXISTS {table} (id INTEGER PRIMARY KEY, value TEXT NOT NULL);"
     "INSERT INTO {table} (id, value) VALUES (?1, ?2);" [["1"; "alpha"]],
   tables_conf (cache_spec enabled capacity ttl_ms) no_header None [table_spec "example" None true [] [0; 1]]).
Definition write_provider_only_knowdb_with_cache (kind : Loader.SqlProviderKind) (uri : string) (enabled : bool)
    (capacity : nat) (ttl_ms : N) : Loader.Files * Loader.KnowDbConf :=
  (table_files "/r/knowdb.toml" "/r/none" "" "" [],
   tables_conf (cache_spec enabled capacity ttl_ms) Loader.csv_spec_default
     (Some {| Loader.sqldb := Some [demo_spec None kind uri]; Loader.redis := None |}) []).

Definition init_from (c : Loader.Files * Loader.KnowDbConf) : TP (KnowledgeResult unit) :=
  let _ := c.1 in init_thread_cloned_from_knowdb (λ _, Some c.2) (lit "/r") (lit "knowdb.toml")
    (lit "file:/r/.run/authority.sqlite?mode=rwc&uri=true") id.
Definition snap : TP RuntimeSnapshot := gets (λ p, Runtime.snapshot (kw p)).
Definition sleep (d : N) : TP unit := on_kw (modify (λ w, set_now (now w + from_millis d)%N w)).
Definition ask_alpha : TP bool :=
  r ← on_kw (execute (first_row (lit "SELECT value FROM example WHERE id=:id")
                        (fields_to_params [from_int (lit ":id") 1]) UseGlobal));
  mret ((into_row <$> r) == Ok (value_row "alpha")).
Definition applied (enabled : bool) (capacity : nat) (ttl_ms : N) (s : RuntimeSnapshot) : bool :=
  (snap_result_cache_enabled s == enabled) && (snap_result_cache_capacity s == capacity)
  && (snap_result_cache_ttl_ms s == ttl_ms).
Definition hits (s : RuntimeSnapshot) : N := snap_counters s result_cache_hits.
Definition misses (s : RuntimeSnapshot) : N := snap_counters s result_cache_misses.

Definition init_thread_cloned_from_knowdb_applies_result_cache_config : bool := run_process [] (
  r ← init_from (write_minimal_knowdb_with_cache true 7 5);
  before ← snap;
  first ← ask_alpha; second ← ask_alpha; sleep 12;; third ← ask_alpha;
  after ← snap;
  mret (is_ok r && applied true 7 5 before && first && second && third
        && (hits before <? hits after)%N && (misses before + 2 <=? misses after)%N)).

Definition disabled_result_cache_from_knowdb_config_forces_bypass : bool := run_process [] (
  r ← init_from (write_minimal_knowdb_with_cache false 3 30000);
  before ← snap;
  first ← ask_alpha; second ← ask_alpha;
  after ← snap;
  mret (is_ok r && applied false 3 30000 before && first && second
        && (hits after == hits before) && (misses after == misses before))).

Definition failed_knowdb_provider_init_does_not_apply_cache_config : bool := run_process [["1"; "first"]] (
  db ← on_kw MemDB.instance;
  match db with
  | Err _ => mret false
  | Ok db =>
      init ← on_kw (init_mem_provider db);
      before ← snap;
      err ← init_from (write_provider_only_knowdb_with_cache Loader.SqlMysql "not-a-valid-mysql-url" false 3 5);
      after ← snap;
      row ← on_kw (Facade.query_row (lit "SELECT value FROM t WHERE id = 1"));
      mret (is_ok init && is_err err
            && applied (snap_result_cache_enabled before) (snap_result_cache_capacity before)
                 (snap_result_cache_ttl_ms before) after
            && (row == Ok (value_row "first")))
  end).

Definition install_named_mem_provider (n : string) (db : Pool) : TP (KnowledgeResult Generation) :=
  let ds := from_seed SqliteAuthority (lit n) in
  on_kw (install_provider_named (lit n) SqliteAuthority ds
           (λ g, mret (Ok (LocalProvider (MemProvider db (scope_of ds g))))) false).
Definition exists_ (n : string) : TP bool := gets (λ p, provider_exists (rt (kw p)) (lit n)).

Definition local_authority_init_prunes_stale_named_providers : bool := run_process [["1"; "x"]] (
  db ← on_kw MemDB.instance;
  match db with
  | Err _ => mret false
  | Ok db =>
      installed ← install_named_mem_provider "geo" db;
      geo ← exists_ "geo";
      r ← init_from (write_minimal_knowdb_with_cache true 16 30000);
      geo' ← exists_ "geo"; default ← exists_ "default";
      mret (is_ok installed && geo && is_ok r && negb geo' && default)
  end).

(** in-memory databases as files of their own: [t] with one row *)
Definition on_disks (dbs : list (string * string)) (p : TestProcess) : TestProcess :=
  let disk := list_to_map ((λ x, (lit x.1, [[lit "1"; lit x.2]])) <$> dbs) in
  let l := {| disk := disk; memory := ∅; next_memory := 0; pending := None |} in
  set_kw (set_ext (set_lib l (ext (kw p))) (kw p)) p.
Definition run_on (dbs : list (string * string)) (m : TP bool) : bool := (m (on_disks dbs (process_with []))).1.
Definition mem_db (n : string) : Pool := (0, lit n).
Definition ask_row (sql v : string) : TP bool :=
  r ← on_kw (Facade.query_row (lit sql)); mret (r == Ok (value_row v)).

Definition sqlite_metadata_cache_uses_provider_scope_after_reload : bool := run_on [("db", "scope-old")]%string (
  let sql := lit "SELECT value FROM cache_scope_t WHERE id = 1" in
  let old_scope := {| scope_datasource_id := lit "sqlite:old"; scope_generation := 1 |} in
  let new_scope := {| scope_datasource_id := lit "sqlite:new"; scope_generation := 2 |} in
  let old_provider := LocalProvider (MemProvider (mem_db "db") old_scope) in
  let cached scope := gets (λ p, match lru_peek (metadata_cache_key_for_scope scope sql) (colnames (kw p)) with
                                 | Some _ => true | None => false end) in
  r ← on_kw (install_provider SqliteAuthority (scope_datasource_id new_scope)
               (λ _, mret (Ok (LocalProvider (MemProvider (mem_db "db") new_scope)))));
  row ← on_kw (Runtime.query_row old_provider sql);
  old ← cached old_scope; new ← cached new_scope;
  mret (is_ok r && (row == Ok (value_row "scope-old")) && old && negb new)).

Definition metadata_cache_is_scoped_by_generation : bool := run_on [("db1", "first"); ("db2", "second")]%string (
  let sql := "SELECT value FROM t WHERE id = 1" in
  let len := fmap (M := TP) snap_metadata_cache_len snap in
  before ← len;
  on_kw (init_mem_provider (mem_db "db1"));; first ← ask_row sql "first"; after_first ← len;
  on_kw (init_mem_provider (mem_db "db2"));; second ← ask_row sql "second"; after_second ← len;
  mret (first && second && (before <? after_first) && (after_first <? after_second))).

#[export] Instance cache_layer_eq_dec : EqDecision CacheLayer.
Proof. solve_decision. Defined.
#[export] Instance cache_outcome_eq_dec : EqDecision CacheOutcome.
Proof. solve_decision. Defined.
#[export] Instance reload_outcome_eq_dec : EqDecision ReloadOutcome.
Proof. solve_decision. Defined.

(** an observer whose counters are the events it received *)
Definition TestTelemetry : KnowledgeTelemetry := {| tel_id := 7; is_noop := false |}.
Definition received (p : TelemetryEvent → bool) : TP bool :=
  gets (λ s, existsb (λ c, (c.1 =? tel_id TestTelemetry)%N && p c.2) (calls (tele (kw s)))).
Definition on_cache (l : CacheLayer) (o : CacheOutcome) : TP bool :=
  received (λ e, match e with CacheTelemetryEvent l' o' _ => (l' == l) && (o' == o) | _ => false end).
Definition on_reload (o : ReloadOutcome) : TP bool :=
  received (λ e, match e with ReloadTelemetryEvent o' _ => o' == o | _ => false end).
Definition on_query (ok : bool) : TP bool :=
  received (λ e, match e with QueryTelemetryEvent _ _ ok' _ => Bool.eqb ok' ok | _ => false end).
Definition set_telemetry (t : KnowledgeTelemetry) : TP unit :=
  on_kw (modify (λ w, set_tele (install_telemetry t (tele w)).2 w)).

(** the same lookup twice through a new local cache *)
Definition lookup_twice (sql v : string) : TP bool := λ p,
  let ask := cache_query_fields (lit sql) [from_int (lit "id") 1] [from_int (lit ":id") 1] in
  let '(row, s) := ask (kw p, default_cache (C := ListLru.t)) in
  let '(row', s) := ask s in
  ((row == value_row v) && (row' == value_row v), set_kw s.1 p).

Definition telemetry_receives_reload_cache_and_query_events : bool := run_on [("db", "first")]%string (
  set_telemetry TestTelemetry;;
  on_kw (init_mem_provider (mem_db "db"));;
  rows ← lookup_twice "SELECT value FROM t WHERE id=:id" "first";
  reload_err ← on_kw (install_provider SqliteAuthority (from_seed SqliteAuthority (lit "telemetry-failure"))
                        (λ _, mret (Err (know_err from_logic [F "expected telemetry reload failure"]))));
  set_telemetry NoopTelemetry;;
  ok ← on_reload Success; failed ← on_reload Failure; local_hit ← on_cache LayerLocal Hit;
  local_miss ← on_cache LayerLocal Miss; result_miss ← on_cache LayerResult Miss;
  metadata_miss ← on_cache LayerMetadata Miss; query_ok ← on_query true;
  mret (rows && is_err reload_err && ok && failed && local_hit && local_miss && result_miss
        && metadata_miss && query_ok)).

Example authority_tests :
  forallb id [reload_table_rows_reflects_csv_overwrite_and_projects_typed_rows;
    reload_table_rows_errors_on_unknown_disabled_and_by_index_only_tables;
    init_thread_cloned_from_knowdb_applies_result_cache_config;
    disabled_result_cache_from_knowdb_config_forces_bypass;
    failed_knowdb_provider_init_does_not_apply_cache_config;
    local_authority_init_prunes_stale_named_providers; sqlite_metadata_cache_uses_provider_scope_after_reload;
    metadata_cache_is_scoped_by_generation; telemetry_receives_reload_cache_and_query_events] = true.
Proof. vm_compute. reflexivity. Qed.
